(* ===== verification/_CoqProject ===== *)
-Q . S2P
Prelude.v
StdAlloc.v
SlabUtil.v
SlabList.v
PtrMap.v
InitSystem.v
SlabLayout.v
SlabIface.v
SlabAlloc.v
Backing.v
MmapAlloc.v
BsAlloc.v
Bag.v
FaaQueue.v
FaaReclaim.v
BagPipe.v
Primes.v
MallocBind.v
ElfSources.v
F64.v
SlagMeta.v
SizeClasses.v
ClassMeta.v
SlagBits.v
SlagProto.v
ElfGeneral.v
SlagSpec.v
SlagAlloc.v
Frontends.v
MagazineCaches.v
CacheSystem.v
PageAlloc.v
CoarsePages.v
TypedAlloc.v
Depot.v
DepotSystem.v
RustPages.v
RustAlloc.v
SlabSystem.v
SlabBuilder.v
