(* ===== verification/Prelude.v ===== *)
(** * allocators-rs: a verification library

    The repository holds several Rust allocators and what they are built from.
    This library models them as executable definitions over mathematical
    integers kept at their machine width, and proves what makes them correct.

    ** The program and the files that model it

    - slab-alloc ([src/slab-alloc/src]): an object-caching slab allocator.  A
      [SizedSlabAlloc] keeps slabs in an intrusive list (full, partially full,
      empty), takes objects from the slab at the front and gives idle slabs
      back.  A slab is a block of a backing allocator: a header, a stack of
      pointers to its free objects, and the objects.  How an object finds its
      slab distinguishes aligned slabs (by masking) from large ones (by a hash
      map from page to slab).
      [SlabUtil.v]: [util.rs] (size selection, the pointer stack in a slab,
      colours, the working set); [SlabList.v]: the intrusive list, over a heap
      of linked nodes; [PtrMap.v]: [ptr_map.rs], the hash map, with its
      incremental growth; [InitSystem.v]: [init.rs]; [SlabLayout.v]: layouts
      and the search for slab sizes of [stack.rs], [aligned.rs], [large.rs];
      [SlabIface.v]: the trait [SlabSystem] as an interface with laws;
      [SlabAlloc.v]: the allocator core of [lib.rs], proved against that
      interface; [SlabSystem.v]: slabs in memory, which implement it;
      [SlabBuilder.v]: the builders and the public allocator.
    - object-alloc ([src/object-alloc/src/lib.rs]) and the backing allocators
      of slab-alloc ([backing.rs]): [Backing.v], over the standard library's
      [Layout] and [Alloc] in [StdAlloc.v].
    - mmap-alloc ([src/mmap-alloc/src/lib.rs]): page allocation by system
      calls: [MmapAlloc.v].  The kernel is the interface [Kernel], whose laws
      are the documented behaviour of the calls; [ToyKernel] satisfies them.
    - bsalloc ([src/bsalloc/src]): a bootstrap allocator of lock-free free
      lists: [BsAlloc.v].
    - malloc-bind ([src/malloc-bind/src/lib.rs]): the C allocation functions
      over a Rust allocator: [MallocBind.v].
    - bagpipe ([src/bagpipe/src]): concurrent bags made of many queues:
      [Bag.v] (the traits of [bag.rs], with what a bag promises as laws),
      [FaaQueue.v] (the fetch-and-add queue of [queue.rs], which keeps them),
      [FaaReclaim.v] (the same queue when the nodes it unlinks are freed),
      [BagPipe.v] ([lib.rs], over any bag that keeps them) and [Primes.v]
      ([primes.rs] and the schedules of the feature [prime_schedules]).
    - elfmalloc ([src/elfmalloc/src]): a concurrent allocator.  Pages of one
      size class are slags: a header with a reference count and a bit-set of
      free objects, shared by threads without locks.  [ElfSources.v]: memory
      sources and mapped arrays ([sources.rs], [utils.rs]); [F64.v]: the
      floating-point operations of the layout search; [SlagMeta.v]: the search
      ([slag.rs], [metadata]); [SlagBits.v]: slags run by one thread;
      [SlagProto.v]: the atomic steps of threads that share a slag;
      [SlagSpec.v]: the calls of one thread on one slag, derived from these steps;
      [PageAlloc.v]: the cache of pages ([PageAlloc]); [SlagAlloc.v]: the slags of
      a size class ([SlagAllocator]), over an interface of page allocators;
      [CoarsePages.v]: [PageAlloc] as an instance of it; [Frontends.v],
      [MagazineCaches.v]: the thread caches of [frontends.rs] ([LocalCache],
      [MagazineCache] with its [Coalescer]); [CacheSystem.v]: the interface of
      frontends, and that the caches implement it; [TypedAlloc.v]: [AllocBuilder]
      and the allocators of one type, from mapped pages up; [Depot.v],
      [DepotSystem.v]: the module [magazine], caches over any frontend, and threads
      that share a depot; [SizeClasses.v], [ClassMeta.v], [ElfGeneral.v]: size
      classes and the dynamic allocator ([general.rs], and the allocation
      requests of [alloc_impl.rs]); [RustPages.v], [RustAlloc.v]: the allocator for
      the trait [Alloc] ([rust_alloc.rs]), its page frontends over a shared source,
      its builder and the way of a request.

    ** How code becomes definitions

    A function that can panic returns [res], with a [fault] for each kind of
    panic, for an access to memory that is not there and for an abort; code
    that changes state is in the state monad [M] over [res].  All checks of a
    debug build are on: arithmetic overflow panics unless the source asks for
    wrapping arithmetic ([uadd], [umul], ... against [wadd], ...), and every
    [debug_assert] is part of the model.  Words have 64 bits; where the source
    is configured per system, the model is Linux on x86-64 unless it is
    parametrized (malloc-bind).  Pointers are integers.  Concurrent code
    (BsAlloc, SlagProto, FaaQueue, FaaReclaim) is a step relation in which a step is one
    atomic operation of one thread, interleaved without restriction and
    sequentially consistent: the weaker orderings the source requests are not
    modelled.  BagPipe, PageAlloc, the slag allocators, caches, the
    depot and the page frontends are modelled at the granularity of calls: any sequence of calls by
    threads that share one, each running to its end before the next.  Traits are
    type classes, with their contract as laws where a client relies on one.
    Code outside the repository is a parameter: the kernel in MmapAlloc, the
    allocator under malloc-bind and slab-alloc, the finder of layouts of
    malloc-bind.  So are the sizes of the types whose arrays are mapped.

    ** What is assumed

    [munmap] of a page-aligned range succeeds (the source asserts it; Linux can
    refuse when a mapping would have to be split and it has too many).  The finder
    of layouts tolerates the deletion of an address it does not hold, which
    [c_realloc] makes.  Calls of caches, page allocators and bags do not overlap:
    overlapping calls can panic ([refreshed_slag_can_be_empty]).  Slags hold types
    of at least two bytes and at least seven objects ([metadata_layout_sound]; what
    happens below is in [metadata_degenerate]).  FaaQueue never frees a node;
    FaaReclaim frees it when no guard that was taken before it was unlinked is
    left, which is the contract of the epochs.

    Loops without a structural measure take fuel, and running out is the fault
    [NoFuel]; that the fuel at hand is enough is proved wherever a theorem says
    that a function returns: [choose_size] halves its range, the searches for
    slab sizes double a size below 2^63 (64 rounds), packing a slag ends before
    as many objects as there are bytes, the mask loop has 65 rounds,
    [Creek::new] halves the heap at most 11 times, probing of the pointer map
    is bounded by its length, a call on a queue that no other thread uses takes 8
    atomic operations, or 7 for each of its nodes, and retries are bounded by the
    cells a queue has left.  Handles on a bag of pipes move an offset with every
    failed try, which overflows in the end: theorems on sequences of calls bound
    their number (2^29 for bags, 2^27 for caches, where a call costs at most
    [call_cost] tries, 2^18 for a depot or for page frontends, whose pops take up to 2^20
    tries).

    ** What is proved

    - Safety of whole allocators: objects handed out by slab-alloc, bsalloc,
      mmap-alloc and the C functions are live, aligned, in memory the allocator
      owns, and disjoint from each other, over all sequences of operations
      ([slab_alloc_safe], [bs_blocks_owned_once], [map_alloc_owns_pages],
      [c_api_safe]); threads that share a slag never hand an object out twice
      ([slag_protocol_safe]), and page allocators no page ([page_alloc_safe]); the
      allocators of a type, put together from all of these, hand out objects that
      do not overlap ([typed_allocators_safe]), and caches
      over a depot keep each object in one place ([depot_caches_safe]), as do the
      page frontends of the allocator for Rust ([rust_pages_safe]).
    - Bags and queues lose and duplicate nothing, whatever the interleaving
      ([faa_queue_conserves]) or the sequence of calls ([bagpipe_conserves],
      [prime_schedules_conserve]), are right about emptiness ([faa_queue_fifo],
      [bagpipe_pop_sound]), and calls that retry end ([faa_queue_retries_end], [bagpipe_pop_mut_ends]).
      When unlinked nodes are freed, guards protect pops ([guards_protect_pops]) but
      neither revocations nor pushes that found a late tail ([freed_nodes_accessed]).
    - Refinement: the pointer map is a finite map, the intrusive list a
      sequence, slab systems implement the interface the core is proved
      against, a queue between calls is a sequence, bags are multisets.
    - Function of the parts: slab and slag layouts, the size class of a
      request, the way from a pointer back to its slag and class or, in the
      allocator for Rust, from a layout ([rust_build_classes],
      [rust_alloc_routes]), what [realloc] keeps, what is freed when
      ([gc_frees_idle_slabs]: the least number of full slabs of a period).
    - Equivalence of the interleaved steps run alone with the sequential
      functions (BsAlloc, SlagProto).
    - Termination, bounds and overflow, and the error paths of the C functions.
    - Where the code does not do what it means to, theorems that show the
      executions: a page given back in use ([slag_revoked_in_use]), a slag that is
      lost ([bulk_free_loses_slag]), layouts the finder keeps
      ([realloc_moved_leaks_layout]), a builder that panics for want of a class
      ([rust_build_no_large_class]).

    ** Not modelled

    The thread-local instances of elfmalloc ([general.rs] and [rust_alloc.rs],
    modules [global], and [alloc-tls]), which are plumbing around the modelled operations and
    depend on the platform's thread-local storage; the vector of
    [vec_alloc.rs]; what [destroy] of [rust_alloc.rs] drops; formatting ([alloc-fmt]),
    statistics, benchmarks, the C library wrapper [elfc], and the test
    harness [object-alloc-test]; the queue of Yang and Crummey in [queue.rs];
    how epochs are implemented (crossbeam, outside the repository; their contract
    is in FaaReclaim); other systems' parts of mmap-alloc. *)

From Stdlib Require Import ZArith Lia.
From stdpp Require Import base numbers list gmap option.

Open Scope Z_scope.

(** ** Faults and results

    A Rust computation of the repository ends in a value, or in a fault: a
    panic (failed assertion, [unwrap] on [None], arithmetic overflow in a
    build with overflow checks), an access through a pointer that is not to
    live memory, an [unreachable!], an explicit [panic!] or an abort. *)
Inductive fault :=
  | Overflow
  | AssertFailed
  | UnwrapNone
  | BadAccess
  | Unreachable
  | Panicked
  | Aborted
  | NoFuel.

Inductive res (A : Type) :=
  | Ok (a : A)
  | Fault (f : fault).
Arguments Ok {A} a.
Arguments Fault {A} f.

#[export] Instance fault_eq_dec : EqDecision fault.
Proof. solve_decision. Defined.

#[export] Instance res_ret : MRet res := @Ok.
#[export] Instance res_bind : MBind res := fun A B k r =>
  match r with Ok a => k a | Fault f => Fault f end.
#[export] Instance res_fmap : FMap res := fun A B g r =>
  match r with Ok a => Ok (g a) | Fault f => Fault f end.

(** State with faults: explicit state passing for code that mutates memory. *)
Definition M (S A : Type) : Type := S → res (A * S).

#[export] Instance M_ret {S} : MRet (M S) := fun A a s => Ok (a, s).
#[export] Instance M_bind {S} : MBind (M S) := fun A B k m s =>
  match m s with Ok (a, s') => k a s' | Fault f => Fault f end.

Definition get {S} : M S S := fun s => Ok (s, s).
Definition put {S} (s' : S) : M S unit := fun _ => Ok (tt, s').
Definition lift {S A} (r : res A) : M S A := fun s =>
  match r with Ok a => Ok (a, s) | Fault f => Fault f end.
Definition throw {S A} (f : fault) : M S A := fun _ => Fault f.

(** [assert!], [debug_assert!], [unwrap]. *)
Definition rassert (b : bool) : res unit := if b then Ok tt else Fault AssertFailed.
Definition unwrap {A} (o : option A) : res A :=
  match o with Some a => Ok a | None => Fault UnwrapNone end.
Definition deref {A} (o : option A) : res A :=
  match o with Some a => Ok a | None => Fault BadAccess end.

(** [for x in l { body }] threading a value. *)
Fixpoint rfold {A B} (body : A → B → res A) (l : list B) (a : A) : res A :=
  match l with
  | [] => Ok a
  | x :: l' => match body a x with Ok a' => rfold body l' a' | Fault f => Fault f end
  end.

(** The states after [k] calls, each made in a state that is [ready]. *)
Inductive reached {C X} (exec : C → X → res C) (ready : C → Prop) (c0 : C) : nat → C → Prop :=
  | reached_start : reached exec ready c0 0 c0
  | reached_call k c x c' : reached exec ready c0 k c → ready c → exec c x = Ok c' → reached exec ready c0 (S k) c'.

(** [for x in l { body }] for a stateful body. *)
Fixpoint mfor {S B} (body : B → M S unit) (l : list B) : M S unit :=
  match l with
  | [] => mret tt
  | x :: l' => body x ≫= fun _ => mfor body l'
  end.

(** The half-open integer range [a..b]. *)
Definition zrange (a b : Z) : list Z := (fun i : nat => a + Z.of_nat i) <$> seq 0 (Z.to_nat (b - a)).

(** ** 64-bit words

    [usize] is 64 bits wide.  [uadd], [usub], [umul] are the overflow-checked
    operators; [wadd], [wmul] are the wrapping ones. *)
Definition word_bits : Z := 64.
Definition word_mod : Z := 2 ^ 64.
Definition usize_max : Z := 2 ^ 64 - 1.

Definition is_usize (x : Z) : Prop := 0 ≤ x < 2 ^ 64.

Definition wrap (x : Z) : Z := x mod 2 ^ 64.
Definition uadd (a b : Z) : res Z := if a + b <? 2 ^ 64 then Ok (a + b) else Fault Overflow.
Definition usub (a b : Z) : res Z := if b <=? a then Ok (a - b) else Fault Overflow.
Definition umul (a b : Z) : res Z := if a * b <? 2 ^ 64 then Ok (a * b) else Fault Overflow.
Definition udiv (a b : Z) : res Z := if b =? 0 then Fault Overflow else Ok (a / b).
Definition umod (a b : Z) : res Z := if b =? 0 then Fault Overflow else Ok (a mod b).
Definition ushl (a k : Z) : res Z := if k <? 64 then Ok (wrap (Z.shiftl a k)) else Fault Overflow.
Definition wadd (a b : Z) : Z := wrap (a + b).
Definition wsub (a b : Z) : Z := wrap (a - b).
Definition wmul (a b : Z) : Z := wrap (a * b).
Definition unot (a : Z) : Z := 2 ^ 64 - 1 - a.

Definition is_power_of_two (x : Z) : bool := (0 <? x) && (Z.land x (x - 1) =? 0).

Fixpoint pos_trailing_zeros (p : positive) : Z :=
  match p with
  | xO q => 1 + pos_trailing_zeros q
  | _ => 0
  end.

(** [usize::trailing_zeros]: 64 for zero. *)
Definition trailing_zeros (x : Z) : Z :=
  match x with Zpos p => pos_trailing_zeros p | _ => 64 end.

Fixpoint pos_count_ones (p : positive) : Z :=
  match p with
  | xH => 1
  | xO q => pos_count_ones q
  | xI q => 1 + pos_count_ones q
  end.

Definition count_ones (x : Z) : Z :=
  match x with Zpos p => pos_count_ones p | _ => 0 end.

(** [usize::next_power_of_two]: smallest power of two at least [x]. *)
Definition next_power_of_two (x : Z) : res Z :=
  if x <=? 1 then Ok 1
  else let p := 2 ^ Z.log2_up x in if p <? 2 ^ 64 then Ok p else Fault Overflow.

(** ** Lemmas on results *)
Lemma res_fmap_bind {A B C} (f : B → C) (m : res A) (k : A → res B) : f <$> (m ≫= k) = m ≫= (fun x => f <$> k x).
Proof. by destruct m. Qed.

Lemma res_bind_ext {A B} (m : res A) (k k' : A → res B) : (∀ x, k x = k' x) → m ≫= k = m ≫= k'.
Proof. destruct m; [|done]. intros H. apply H. Qed.

Lemma res_bind_Ok {A B} (m : res A) (k : A → res B) b :
  m ≫= k = Ok b ↔ ∃ a, m = Ok a ∧ k a = Ok b.
Proof. destruct m as [x|f]; simpl; split; [eauto|by intros (? & [= ->] & ?)|done|by intros (? & ? & ?)]. Qed.

Lemma bind_Ok {A B} (a : A) (k : A → res B) : Ok a ≫= k = k a.
Proof. done. Qed.

Lemma M_bind_Ok {S A B} (m : M S A) (k : A → M S B) s b s' :
  (m ≫= k) s = Ok (b, s') ↔ ∃ a s1, m s = Ok (a, s1) ∧ k a s1 = Ok (b, s').
Proof.
  unfold mbind, M_bind. destruct (m s) as [[a s1]|f]; split;
    [eauto|by intros (? & ? & [= -> ->] & ?)|done|by intros (? & ? & ? & ?)].
Qed.

Lemma M_bind_fault {S A C} (m : M S A) (k : A → M S C) s f : m s = Fault f → (m ≫= k) s = Fault f.
Proof. intros E. unfold mbind, M_bind. by rewrite E. Qed.

Lemma M_bind_run {S A B} (m : M S A) (k : A → M S B) s a s1 :
  m s = Ok (a, s1) → (m ≫= k) s = k a s1.
Proof. intros H. unfold mbind, M_bind. by rewrite H. Qed.

Lemma lift_bind {S A B} (r : res A) (a : A) (f : A → M S B) (s : S) : r = Ok a → (lift r ≫= f) s = f a s.
Proof. by intros ->. Qed.

Lemma lift_bind_inv {S A B} (r : res A) (f : A → M S B) (s : S) x : (lift r ≫= f) s = Ok x → ∃ a, r = Ok a ∧ f a s = Ok x.
Proof. destruct r as [a|]; [|done]. intros H. by exists a. Qed.

Lemma lift_assert {S B} (b : bool) (f : unit → M S B) (s : S) : b = true → (lift (rassert b) ≫= f) s = f tt s.
Proof. by intros ->. Qed.

Lemma rassert_Ok b : rassert b = Ok tt ↔ b = true.
Proof. destruct b; naive_solver. Qed.

Lemma rassert_true (b : bool) : b = true → rassert b = Ok tt.
Proof. by intros ->. Qed.

Lemma uadd_Ok a b : a + b < 2 ^ 64 → uadd a b = Ok (a + b).
Proof. intros H. unfold uadd. by rewrite (proj2 (Z.ltb_lt _ _) H). Qed.

Lemma usub_Ok a b : b ≤ a → usub a b = Ok (a - b).
Proof. intros H. unfold usub. by rewrite (proj2 (Z.leb_le _ _) H). Qed.

Lemma umul_Ok a b : a * b < 2 ^ 64 → umul a b = Ok (a * b).
Proof. intros H. unfold umul. by rewrite (proj2 (Z.ltb_lt _ _) H). Qed.

Lemma umod_Ok a b : b ≠ 0 → umod a b = Ok (a mod b).
Proof. intros H. unfold umod. by rewrite (proj2 (Z.eqb_neq _ _) H). Qed.

Lemma udiv_Ok a b : b ≠ 0 → udiv a b = Ok (a / b).
Proof. intros H. unfold udiv. by rewrite (proj2 (Z.eqb_neq _ _) H). Qed.

Lemma uadd_inv a b c : uadd a b = Ok c → c = a + b ∧ a + b < 2 ^ 64.
Proof. unfold uadd. case_match eqn:E; naive_solver lia. Qed.

Lemma usub_inv a b c : usub a b = Ok c → c = a - b ∧ b ≤ a.
Proof. unfold usub. case_match eqn:E; naive_solver lia. Qed.

Lemma umul_inv a b c : umul a b = Ok c → c = a * b ∧ a * b < 2 ^ 64.
Proof. unfold umul. case_match eqn:E; naive_solver lia. Qed.

Lemma mfor_app {S B} (body : B → M S unit) l1 l2 s :
  mfor body (l1 ++ l2) s = (mfor body l1 ≫= fun _ => mfor body l2) s.
Proof.
  revert s. induction l1 as [|x l1 IH]; intros s; [done|]. simpl.
  unfold mbind, M_bind in *. destruct (body x s) as [[[] s1]|]; [|done]. apply IH.
Qed.

(** ** Lemmas on ranges *)
Lemma zrange_nil a b : b ≤ a → zrange a b = [].
Proof. intros H. unfold zrange. by replace (Z.to_nat (b - a)) with 0%nat by lia. Qed.

Lemma zrange_cons a b : a < b → zrange a b = a :: zrange (a + 1) b.
Proof.
  intros H. unfold zrange.
  replace (Z.to_nat (b - a)) with (S (Z.to_nat (b - (a + 1)))) by lia.
  rewrite <- cons_seq, <- fmap_S_seq. simpl. rewrite <- list_fmap_compose.
  f_equal; [lia|]. apply list_fmap_ext. intros. simpl. lia.
Qed.

Lemma zrange_snoc a b : a ≤ b → zrange a (b + 1) = zrange a b ++ [b].
Proof.
  intros H. unfold zrange.
  replace (Z.to_nat (b + 1 - a)) with (Z.to_nat (b - a) + 1)%nat by lia.
  rewrite seq_app, fmap_app. simpl. do 3 f_equal. lia.
Qed.

Lemma elem_of_zrange a b i : i ∈ zrange a b ↔ a ≤ i < b.
Proof.
  unfold zrange. rewrite list_elem_of_fmap. setoid_rewrite elem_of_seq. split.
  - intros (k & -> & Hk). lia.
  - intros H. exists (Z.to_nat (i - a)). lia.
Qed.

Lemma length_zrange a b : length (zrange a b) = Z.to_nat (b - a).
Proof. unfold zrange. by rewrite length_fmap, length_seq. Qed.

Lemma NoDup_zrange a b : NoDup (zrange a b).
Proof.
  unfold zrange. apply NoDup_fmap_2; [|apply NoDup_seq]. intros x y. lia.
Qed.

Lemma zrange_lookup a b i : 0 ≤ i < b - a → zrange a b !! Z.to_nat i = Some (a + i).
Proof.
  intros H. unfold zrange. rewrite list_lookup_fmap, lookup_seq_lt by lia.
  simpl. f_equal. lia.
Qed.

(** Loops over a range, by an invariant. *)
Lemma rfold_zrange {A} (P : Z → A → Prop) (body : A → Z → res A) (a b : Z) (x : A) :
  a ≤ b → P a x → (∀ i x, a ≤ i < b → P i x → ∃ x', body x i = Ok x' ∧ P (i + 1) x') →
  ∃ x', rfold body (zrange a b) x = Ok x' ∧ P b x'.
Proof.
  intros Hab. remember (Z.to_nat (b - a)) as n eqn:En. revert a x Hab En.
  induction n as [|n IH]; intros a x Hab En Hx Hstep.
  - assert (a = b) as -> by lia. rewrite zrange_nil by lia. eauto.
  - rewrite zrange_cons by lia. cbn [rfold]. destruct (Hstep a x) as (x1 & -> & Hx1); [lia|done|].
    apply (IH (a + 1) x1); [lia|lia|done|]. intros i y Hi. apply Hstep. lia.
Qed.

(** ** Lemmas on lists *)
Lemma filter_all {A} (P : A → Prop) `{!∀ x, Decision (P x)} (l : list A) :
  (∀ x, x ∈ l → P x) → filter P l = l.
Proof.
  induction l as [|x l IH]; intros Hl; [done|].
  rewrite filter_cons_True by set_solver. f_equal. apply IH. set_solver.
Qed.

Lemma filter_none {A} (P : A → Prop) `{!∀ x, Decision (P x)} (l : list A) :
  (∀ x, x ∈ l → ¬ P x) → filter P l = [].
Proof.
  induction l as [|x l IH]; intros Hl; [done|].
  rewrite filter_cons_False by set_solver. apply IH. set_solver.
Qed.

Lemma NoDup_fmap_filter {A B} (f : A → B) (P : A → Prop) `{!∀ x, Decision (P x)} (l : list A) :
  NoDup (f <$> l) → NoDup (f <$> filter P l).
Proof.
  induction l as [|x l IH]; [done|]. rewrite fmap_cons, list.NoDup_cons. intros [Hx Hl].
  rewrite filter_cons. case_decide; [|by apply IH]. rewrite fmap_cons, list.NoDup_cons. split; [|by apply IH].
  intros (y & E & [_ Hy]%list_elem_of_filter)%list_elem_of_fmap. apply Hx. rewrite E. by apply list_elem_of_fmap_2.
Qed.

(** ** Lemmas on words *)
Lemma pow2_pos k : 0 ≤ k → 0 < 2 ^ k.
Proof. intros. apply Z.pow_pos_nonneg; lia. Qed.

Lemma land_pow2_pred a k : 0 ≤ k → Z.land a (2 ^ k - 1) = a mod 2 ^ k.
Proof. intros. rewrite <- Z.land_ones by done. by rewrite Z.ones_equiv, <- Z.sub_1_r. Qed.

(** Masking with [!(2^k - 1)] rounds down to a multiple of [2^k]. *)
Lemma land_unot_pow2 a k :
  is_usize a → 0 ≤ k ≤ 64 → Z.land a (unot (2 ^ k - 1)) = a - a mod 2 ^ k.
Proof.
  intros Ha Hk. unfold unot.
  replace (2 ^ 64 - 1 - (2 ^ k - 1)) with (Z.ldiff (Z.ones 64) (Z.ones k)).
  2: { rewrite Z.ldiff_ones_r, !Z.ones_equiv, Z.shiftr_div_pow2, Z.shiftl_mul_pow2 by lia.
       replace (2 ^ 64) with (2 ^ (64 - k) * 2 ^ k) by (rewrite <- Z.pow_add_r by lia; f_equal; lia).
       pose proof (pow2_pos k ltac:(lia)).
       replace (Z.pred (2 ^ (64 - k) * 2 ^ k)) with ((2 ^ (64 - k) - 1) * 2 ^ k + (2 ^ k - 1)) by lia.
       rewrite Z.div_add_l by lia. rewrite (Z.div_small (2 ^ k - 1)) by lia. lia. }
  assert (Z.land a (Z.ldiff (Z.ones 64) (Z.ones k)) = Z.ldiff a (Z.ones k)) as ->.
  { apply Z.bits_inj'. intros n Hn. rewrite Z.land_spec, !Z.ldiff_spec.
    destruct (decide (n < 64)).
    - rewrite (Z.ones_spec_low 64) by lia. by destruct (Z.testbit a n).
    - replace (Z.testbit a n) with false; [done|]. symmetry.
      rewrite <- (Z.mod_small a (2 ^ 64)) by (unfold is_usize in Ha; lia).
      apply Z.mod_pow2_bits_high. lia. }
  rewrite Z.ldiff_ones_r, Z.shiftr_div_pow2, Z.shiftl_mul_pow2 by lia.
  pose proof (Z.div_mod a (2 ^ k) ltac:(pose proof (pow2_pos k); lia)). lia.
Qed.

Lemma land_pred_pow2_0 k : 0 ≤ k → Z.land (2 ^ k) (2 ^ k - 1) = 0.
Proof. intros. rewrite land_pow2_pred by done. apply Z_mod_same_full. Qed.

Lemma is_power_of_two_spec x : is_power_of_two x = true ↔ ∃ k, 0 ≤ k ∧ x = 2 ^ k.
Proof.
  unfold is_power_of_two. rewrite andb_true_iff, Z.ltb_lt, Z.eqb_eq. split.
  - intros [Hx Hl]. exists (Z.log2 x). split; [apply Z.log2_nonneg|].
    destruct (Z.log2_spec x Hx) as [H1 H2].
    apply Z.le_antisymm; [|done]. apply Z.nlt_ge. intros Hlt.
    (* both [x] and [x - 1] have the top bit of [x] set *)
    assert (Z.testbit (Z.land x (x - 1)) (Z.log2 x) = true) as Hb.
    { rewrite Z.land_spec, Z.bit_log2 by done. simpl.
      replace (Z.log2 x) with (Z.log2 (x - 1)); [apply Z.bit_log2; pose proof (pow2_pos (Z.log2 x) (Z.log2_nonneg x)); lia|].
      apply Z.log2_unique; [apply Z.log2_nonneg|lia]. }
    rewrite Hl, Z.bits_0 in Hb. done.
  - intros (k & Hk & ->). split; [by apply pow2_pos|by apply land_pred_pow2_0].
Qed.

Lemma is_power_of_two_pow2 k : 0 ≤ k → is_power_of_two (2 ^ k) = true.
Proof. intros. apply is_power_of_two_spec. eauto. Qed.

Lemma pow2_inj a b : 0 ≤ a → 0 ≤ b → 2 ^ a = 2 ^ b → a = b.
Proof. intros. by apply (Z.pow_inj_r 2). Qed.

Lemma pow2_divide a b : 0 ≤ a ≤ b → (2 ^ a | 2 ^ b).
Proof.
  intros. exists (2 ^ (b - a)). rewrite <- Z.pow_add_r by lia. f_equal. lia.
Qed.

Lemma bits_below x k : 0 ≤ x → 0 ≤ k → x < 2 ^ k ↔ ∀ i, k ≤ i → Z.testbit x i = false.
Proof.
  intros Hx Hk. split.
  - intros Hlt i Hi. rewrite <- (Z.mod_small x (2 ^ k)) by lia. by apply Z.mod_pow2_bits_high.
  - intros H. destruct (decide (x = 0)) as [->|]; [by apply pow2_pos|]. apply Z.log2_lt_pow2; [lia|].
    apply Z.nle_gt. intros Hle. specialize (H _ Hle). by rewrite Z.bit_log2 in H by lia.
Qed.

Lemma lor_bound a b k : 0 ≤ k → 0 ≤ a < 2 ^ k → 0 ≤ b < 2 ^ k → 0 ≤ Z.lor a b < 2 ^ k.
Proof.
  intros Hk [Ha Ha2] [Hb Hb2]. assert (0 ≤ Z.lor a b) by (apply Z.lor_nonneg; lia). split; [done|].
  apply bits_below; [done|done|]. intros i Hi. rewrite Z.lor_spec, (proj1 (bits_below a k Ha Hk) Ha2 i Hi). by apply (bits_below b k Hb Hk).
Qed.

Lemma trailing_zeros_double p : trailing_zeros (2 * Zpos p) = 1 + trailing_zeros (Zpos p).
Proof. done. Qed.

Lemma trailing_zeros_pow2 k : 0 ≤ k → trailing_zeros (2 ^ k) = k.
Proof.
  intros Hk. pattern k. revert k Hk. apply natlike_ind; [done|].
  intros n Hn IH. rewrite Z.pow_succ_r by lia. pose proof (pow2_pos n Hn).
  destruct (2 ^ n) as [|p|p]; [lia| |lia]. rewrite trailing_zeros_double. lia.
Qed.

Lemma next_power_of_two_spec x p :
  next_power_of_two x = Ok p → x ≤ p ∧ 1 ≤ p < 2 ^ 64 ∧ (∃ k, 0 ≤ k < 64 ∧ p = 2 ^ k) ∧ (1 ≤ x → p < 2 * x).
Proof.
  unfold next_power_of_two. destruct (Z.leb_spec x 1) as [H|H].
  - intros [= <-]. split_and!; try lia. exists 0. lia.
  - simpl. destruct (Z.ltb_spec (2 ^ Z.log2_up x) (2 ^ 64)) as [H'|]; [|done]. intros [= <-].
    destruct (Z.log2_up_spec x H) as [Hl Hu].
    assert (0 < Z.log2_up x) by (apply Z.log2_up_pos; lia).
    assert (Z.log2_up x < 64) by (apply (Z.pow_lt_mono_r_iff 2); lia).
    replace (2 ^ Z.log2_up x) with (2 * 2 ^ Z.pred (Z.log2_up x)) in *
      by (rewrite <- Z.pow_succ_r by lia; f_equal; lia).
    pose proof (pow2_pos (Z.pred (Z.log2_up x))). split_and!; try lia.
    exists (Z.log2_up x). split; [lia|]. rewrite <- Z.pow_succ_r by lia. f_equal; lia.
Qed.

Lemma next_power_of_two_Ok x : x ≤ 2 ^ 63 → ∃ p, next_power_of_two x = Ok p.
Proof.
  intros H. unfold next_power_of_two. destruct (Z.leb_spec x 1); [eauto|].
  assert (Z.log2_up x ≤ 63) by (apply Z.log2_up_le_pow2; lia).
  assert (2 ^ Z.log2_up x ≤ 2 ^ 63) by (apply Z.pow_le_mono_r; lia).
  simpl. rewrite (proj2 (Z.ltb_lt _ _)) by lia. eauto.
Qed.

Lemma next_power_of_two_pow2 k : 0 ≤ k < 64 → next_power_of_two (2 ^ k) = Ok (2 ^ k).
Proof.
  intros Hk. unfold next_power_of_two. destruct (Z.leb_spec (2 ^ k) 1).
  - assert (k = 0) as ->; [|done]. destruct (decide (k = 0)); [done|].
    pose proof (Z.pow_lt_mono_r 2 0 k). lia.
  - rewrite Z.log2_up_pow2 by lia. simpl.
    rewrite (proj2 (Z.ltb_lt _ _)); [done|]. apply Z.pow_lt_mono_r; lia.
Qed.

Lemma mod_0_divide a b : 0 < b → (b | a) → a mod b = 0.
Proof. intros Hb Hd. apply Z.mod_divide; [lia|done]. Qed.

(** Sums over a list, one element replaced. *)
Lemma sum_list_with_insert {A} (f : A → nat) (l : list A) n x y : l !! n = Some x →
  (sum_list_with f (<[n := y]> l) + f x = sum_list_with f l + f y)%nat.
Proof.
  intros Hn. rewrite insert_take_drop by (by eapply lookup_lt_Some). rewrite <- (take_drop_middle _ _ _ Hn) at 3.
  rewrite !sum_list_with_app. cbn. lia.
Qed.

(** ** What threads hold *)

(** Replacing one thread's state replaces what it holds. *)
Lemma hands_insert {A B} (hand : A → list B) (ts : list A) t s s' : ts !! t = Some s →
  hand s ++ concat (hand <$> <[t:=s']> ts) ≡ₚ hand s' ++ concat (hand <$> ts).
Proof.
  intros Ht. pose proof (take_drop_middle _ _ _ Ht) as E. rewrite <- E at 2. rewrite insert_take_drop by (by eapply lookup_lt_Some).
  rewrite !fmap_app, !fmap_cons, !concat_app. cbn. solve_Permutation.
Qed.

(** A step of a thread from holding [hp] to [hp'] keeps the balance of what came
    in ([P]), what is in store ([C]), what threads hold ([T]) and what went out
    ([R]), if it does locally. *)
Lemma balance_step {A} (P C T R T' C' hp hp' ins outs : list A) : P ≡ₚ C ++ T ++ R → hp ++ T' ≡ₚ hp' ++ T → ins ++ C ++ hp ≡ₚ C' ++ hp' ++ outs →
  P ++ ins ≡ₚ C' ++ T' ++ R ++ outs.
Proof.
  intros HP HT HC. apply (Permutation_app_inv_l hp). rewrite HP.
  trans ((ins ++ C ++ hp) ++ T ++ R); [solve_Permutation|]. rewrite HC. trans ((hp' ++ T) ++ C' ++ outs ++ R); [solve_Permutation|].
  rewrite <- HT. solve_Permutation.
Qed.

(** Threads other than the one that moves stay. *)
Lemma elem_of_insert_ne {A} (l : list A) i x y z : l !! i = Some x → y ∈ l → y ≠ x → y ∈ <[i:=z]> l.
Proof.
  intros Hi (j & Hj)%list_elem_of_lookup Hne. apply list_elem_of_lookup. exists j. destruct (decide (i = j)) as [->|]; [congruence|].
  by rewrite list_lookup_insert_ne.
Qed.

Lemma elem_of_insert_eq {A} (l : list A) i x z : l !! i = Some x → z ∈ <[i:=z]> l.
Proof. intros Hi. apply list_elem_of_lookup. exists i. apply list_lookup_insert_eq. by eapply lookup_lt_Some. Qed.

Lemma elem_of_insert_inv {A} (l : list A) i y z : y ∈ <[i:=z]> l → y = z ∨ y ∈ l.
Proof.
  intros (j & Hj)%list_elem_of_lookup. apply list_lookup_insert_Some in Hj as [(_ & -> & _)|[_ Hj]]; [by left|right]. apply list_elem_of_lookup. by exists j.
Qed.

(** ** Automation

    [res_step tac] runs the first operation of a computation that is known to
    succeed, proving its side condition with [tac]; [inv_res] inverts the
    success of a bind. *)
Tactic Notation "res_step" "by" tactic3(tac) :=
  (lazymatch goal with
  | |- context [mbind _ (uadd ?a ?b)] => rewrite (uadd_Ok a b) by tac
  | |- context [mbind _ (usub ?a ?b)] => rewrite (usub_Ok a b) by tac
  | |- context [mbind _ (umul ?a ?b)] => rewrite (umul_Ok a b) by tac
  | |- context [mbind _ (udiv ?a ?b)] => rewrite (udiv_Ok a b) by tac
  | |- context [mbind _ (umod ?a ?b)] => rewrite (umod_Ok a b) by tac
  | |- context [mbind _ (rassert ?b)] => rewrite (rassert_true b) by tac
  end); cbn [mbind res_bind unwrap deref].

Ltac inv_res :=
  repeat match goal with
  | H : mbind _ _ = Ok _ |- _ => apply res_bind_Ok in H as (? & ? & ?)
  | H : uadd _ _ = Ok _ |- _ => apply uadd_inv in H as [-> ?]
  | H : usub _ _ = Ok _ |- _ => apply usub_inv in H as [-> ?]
  | H : umul _ _ = Ok _ |- _ => apply umul_inv in H as [-> ?]
  | H : rassert _ = Ok ?u |- _ => destruct u; apply rassert_Ok in H
  | H : mret _ = Ok _ |- _ => injection H as H
  | H : Ok _ = Ok _ |- _ => injection H as H
  | H : Fault _ = Ok _ |- _ => discriminate H
  end; simplify_eq/=.

(** Membership in concrete list shapes, by propositional reasoning. *)
Ltac list_mem :=
  intros; rewrite ?elem_of_app, ?elem_of_cons, ?list_elem_of_singleton, ?elem_of_nil in *; tauto.

Create HintDb words discriminated.
Create Rewrite HintDb words_rw.
#[export] Hint Rewrite uadd_Ok usub_Ok umul_Ok using lia : words_rw.
#[export] Hint Resolve pow2_pos is_power_of_two_pow2 : words.
