(* ===== verification/StdAlloc.v ===== *)
(** * The parts of the Rust standard library the allocators build on

    [alloc::allocator::Layout] as of the nightly the crates pin (2017), the
    error type [AllocErr], and IEEE-754 binary64 arithmetic on [usize]
    operands (the sizing heuristics compute with [f64]). *)

From Stdlib Require Import ZArith Lia.
From Stdlib Require Import Floats.SpecFloat.
From S2P Require Import Prelude.
From stdpp Require Import base numbers list gmap option.

Open Scope Z_scope.

(** ** Layout *)
Record Layout := mkLayout { layout_size : Z; layout_align : Z }.

#[export] Instance Layout_eq_dec : EqDecision Layout.
Proof. solve_decision. Defined.

(** [Layout::from_size_align]: the alignment is a power of two of at most 2^31,
    and the size rounded up to it does not overflow. *)
Definition from_size_align (size align : Z) : option Layout :=
  if negb (is_power_of_two align) then None
  else if 2 ^ 31 <? align then None
  else if usize_max - (align - 1) <? size then None
  else Some (mkLayout size align).

(** [Layout::align_to]: the same size with at least the given alignment. *)
Definition align_to (l : Layout) (align : Z) : Layout :=
  mkLayout (layout_size l) (Z.max (layout_align l) align).

(** [Layout::padding_needed_for]: bytes to add to the size so that the next
    address is aligned to [align]. *)
Definition padding_needed_for (l : Layout) (align : Z) : Z :=
  let len := layout_size l in
  wsub (Z.land (wsub (wadd len align) 1) (unot (wsub align 1))) len.

(** What [from_size_align] guarantees of a layout. *)
Definition layout_wf (l : Layout) : Prop :=
  is_usize (layout_size l) ∧
  (∃ k, 0 ≤ k ≤ 31 ∧ layout_align l = 2 ^ k) ∧
  layout_size l ≤ usize_max - (layout_align l - 1).

Inductive AllocErr :=
  | Exhausted (request : Layout)
  | AllocUnsupported.

(** ** f64 *)
Definition f64 := spec_float.
Definition f64_of_usize (x : Z) : f64 := binary_normalize 53 1024 x 0 false.
Definition f64_div : f64 → f64 → f64 := SFdiv 53 1024.
Definition f64_mul : f64 → f64 → f64 := SFmul 53 1024.
Definition f64_sub : f64 → f64 → f64 := SFsub 53 1024.
Definition f64_abs : f64 → f64 := SFabs.
Definition f64_leb : f64 → f64 → bool := SFleb.
Definition f64_ltb : f64 → f64 → bool := SFltb.
(** [x as usize] truncates toward zero and saturates. *)
Definition f64_to_usize (x : f64) : Z :=
  match x with
  | S754_finite false m e =>
      Z.min usize_max (if 0 <=? e then Z.shiftl (Zpos m) e else Z.shiftr (Zpos m) (- e))
  | S754_infinity false => usize_max
  | _ => 0
  end.

(** ** Lemmas *)
Lemma from_size_align_wf size align l :
  is_usize size → from_size_align size align = Some l →
  layout_wf l ∧ layout_size l = size ∧ layout_align l = align.
Proof.
  intros Hs. unfold from_size_align.
  destruct (is_power_of_two align) eqn:Hp; [|done]. simpl.
  destruct (Z.ltb_spec (2 ^ 31) align); [done|].
  destruct (Z.ltb_spec (usize_max - (align - 1)) size); [done|]. intros [= <-].
  apply is_power_of_two_spec in Hp as (k & Hk & ->).
  unfold layout_wf. split_and!; simpl; try done. exists k. split; [|done].
  split; [done|]. apply (Z.pow_le_mono_r_iff 2); lia.
Qed.

Lemma from_size_align_Some size align k :
  align = 2 ^ k → 0 ≤ k ≤ 31 → size ≤ usize_max - (align - 1) →
  from_size_align size align = Some (mkLayout size align).
Proof.
  intros -> Hk Hs. unfold from_size_align. rewrite is_power_of_two_pow2 by lia. simpl.
  assert (2 ^ k ≤ 2 ^ 31) by (apply Z.pow_le_mono_r; lia).
  destruct (Z.ltb_spec (2 ^ 31) (2 ^ k)); [lia|].
  destruct (Z.ltb_spec (usize_max - (2 ^ k - 1)) size); [lia|]. done.
Qed.

Lemma from_size_align_None size align : 2 ^ 31 < align → from_size_align size align = None.
Proof.
  intros H. unfold from_size_align. destruct (negb _); [done|]. by rewrite (proj2 (Z.ltb_lt _ _) H).
Qed.

(** Padding to a power of two: the least amount that makes the end aligned. *)
Lemma padding_needed_for_spec l k :
  0 ≤ k ≤ 63 → 0 ≤ layout_size l → layout_size l + 2 ^ k < 2 ^ 64 →
  padding_needed_for l (2 ^ k) = (- layout_size l) mod 2 ^ k.
Proof.
  intros Hk H0 Hs. unfold padding_needed_for, wsub, wadd, wrap.
  pose proof (pow2_pos k ltac:(lia)) as Hp. set (n := layout_size l) in *.
  rewrite (Z.mod_small (n + 2 ^ k)) by lia.
  rewrite (Z.mod_small (n + 2 ^ k - 1)) by lia.
  rewrite (Z.mod_small (2 ^ k - 1)) by lia.
  rewrite land_unot_pow2 by (unfold is_usize; lia).
  assert (n + 2 ^ k - 1 - (n + 2 ^ k - 1) mod 2 ^ k - n = (- n) mod 2 ^ k) as ->.
  { pose proof (Z.div_mod (n + 2 ^ k - 1) (2 ^ k)) as E1.
    pose proof (Z.mod_pos_bound (n + 2 ^ k - 1) (2 ^ k)).
    apply (Z.mod_unique_pos _ _ (- ((n + 2 ^ k - 1) / 2 ^ k))); lia. }
  pose proof (Z.mod_pos_bound (- n) (2 ^ k)).
  assert (2 ^ k ≤ 2 ^ 63) by (apply Z.pow_le_mono_r; lia).
  apply Z.mod_small. lia.
Qed.

Lemma padded_aligned n k : 0 ≤ k → (n + (- n) mod 2 ^ k) mod 2 ^ k = 0.
Proof.
  intros. pose proof (pow2_pos k). rewrite Z.add_mod_idemp_r by lia.
  replace (n + - n) with 0 by lia. apply Z.mod_0_l. lia.
Qed.
