(* ===== verification/SlabUtil.v ===== *)
(** * slab-alloc utilities (src/slab-alloc/src/util.rs)

    The modules [size] (slab size selection), [stack] (the manually
    allocated stack), [color] (cache coloring), [workingset] and [misc].
    The intrusive list of the same file is in [SlabList]. *)

From Stdlib Require Import ZArith Lia.
From S2P Require Import Prelude StdAlloc.
From stdpp Require Import base numbers list gmap option.

Open Scope Z_scope.

(** ** [util::size] *)
Module SizeSel.

(** The helper [leq] of [choose_size]: [None] is "no minimum yet". *)
Definition leq (a : f64) (b : option f64) : bool :=
  match b with
  | None => true
  | Some b => f64_leb a b
  end.

(** The loop of [choose_size].  [next] is the iterator over candidate sizes,
    [unused size] tells whether a slab of that size can hold objects, how many,
    and how many bytes it leaves unused. *)
Fixpoint choose_size_loop {I : Type} (next : I → res (option (Z * I)))
    (unused : Z → res (option (Z * Z))) (max_objects_per_slab : Z) (fuel : nat)
    (sizes : I) (best_size : option Z) (min_unused : option f64) : res (option Z) :=
  match fuel with
  | O => Fault NoFuel
  | S fuel =>
    nx ← next sizes;
    match nx with
    | None => Ok best_size
    | Some (size, sizes) =>
      u ← unused size;
      match u with
      | None => choose_size_loop next unused max_objects_per_slab fuel sizes best_size min_unused
      | Some (objects, unused_bytes) =>
        let unused_per_obj := f64_div (f64_of_usize unused_bytes) (f64_of_usize objects) in
        if max_objects_per_slab <? objects then
          match best_size with
          | None => Ok (Some size)
          | Some _ => Ok best_size
          end
        else if leq unused_per_obj min_unused then
          choose_size_loop next unused max_objects_per_slab fuel sizes (Some size) (Some unused_per_obj)
        else
          choose_size_loop next unused max_objects_per_slab fuel sizes best_size min_unused
      end
    end
  end.

(** [choose_size]: [expect("no valid slab size found")] on the loop's result. *)
Definition choose_size {I : Type} (next : I → res (option (Z * I)))
    (unused : Z → res (option (Z * Z))) (max_objects_per_slab : Z) (fuel : nat) (sizes : I) : res Z :=
  best ← choose_size_loop next unused max_objects_per_slab fuel sizes None None;
  unwrap best.

End SizeSel.

(** ** [util::stack]

    The stack's metadata is its size; the cells are words of memory that
    starts at [data], 8 bytes apart ([T] is [usize] wherever it is used). *)
Module Stk.

Record Stack := mkStack { size : Z }.

Definition padding_after (sz : Z) : res Z :=
  l ← unwrap (from_size_align sz 1);
  Ok (padding_needed_for l 8).

Definition bytes_for (sz : Z) : res Z := umul sz 8.

Definition new : Stack := mkStack 0.

Definition set_at_idx (mem : gmap Z Z) (data idx val : Z) : res (gmap Z Z) :=
  _ ← rassert (0 <=? idx);
  Ok (<[data + 8 * idx := val]> mem).

Definition get_at_idx (mem : gmap Z Z) (data idx : Z) : res Z :=
  _ ← rassert (0 <=? idx);
  deref (mem !! (data + 8 * idx)).

Definition push (s : Stack) (mem : gmap Z Z) (data val : Z) : res (Stack * gmap Z Z) :=
  mem ← set_at_idx mem data (size s) val;
  sz ← uadd (size s) 1;
  Ok (mkStack sz, mem).

Definition pop (s : Stack) (mem : gmap Z Z) (data : Z) : res (Z * Stack) :=
  _ ← rassert (0 <? size s);
  sz ← usub (size s) 1;
  v ← get_at_idx mem data sz;
  Ok (v, mkStack sz).

(** The stack at [data] holds [vals], bottom first. *)
Definition holds (s : Stack) (mem : gmap Z Z) (data : Z) (vals : list Z) : Prop :=
  size s = Z.of_nat (length vals) ∧
  ∀ i v, vals !! i = Some v → mem !! (data + 8 * Z.of_nat i) = Some v.

End Stk.

(** ** [util::color] (the default, non-[no-coloring] build) *)
Module Color.

Record ColorSettings := mkColorSettings { max_color : Z; cur_color : Z }.

Definition new (align unused : Z) : res ColorSettings :=
  q ← udiv unused align;
  m ← umul q align;
  Ok (mkColorSettings m 0).

Definition next_color (s : ColorSettings) (align : Z) : res (Z * ColorSettings) :=
  r1 ← umod (cur_color s) align;
  _ ← rassert (r1 =? 0);
  r2 ← umod (max_color s) align;
  _ ← rassert (r2 =? 0);
  let color := cur_color s in
  _ ← rassert (color <=? max_color s);
  cur ← (if cur_color s =? max_color s then Ok 0 else uadd (cur_color s) align);
  Ok (color, mkColorSettings (max_color s) cur).

(** [n] successive calls of [next_color]; the colors in call order. *)
Fixpoint next_colors (n : nat) (s : ColorSettings) (align : Z) : res (list Z * ColorSettings) :=
  match n with
  | O => Ok ([], s)
  | S n =>
    '(c, s) ← next_color s align;
    '(cs, s) ← next_colors n s align;
    Ok (c :: cs, s)
  end.

Definition wf (align : Z) (s : ColorSettings) : Prop :=
  0 < align ∧ (∃ q, 0 ≤ q ∧ max_color s = q * align) ∧
  (∃ i, 0 ≤ i ∧ cur_color s = i * align) ∧ cur_color s ≤ max_color s < 2 ^ 64.

End Color.

(** ** [util::workingset]: instants are in nanoseconds. *)
Module WS.

Record WorkingSet := mkWS { data : Z; period_begin : Z }.

Definition new (init now : Z) : WorkingSet := mkWS init now.

Definition set (w : WorkingSet) (new : Z) : WorkingSet := mkWS new (period_begin w).

(** [now.duration_since(begin)] panics when [begin] is later than [now]. *)
Definition refresh_now (w : WorkingSet) (secs now : Z) : res (option Z * WorkingSet) :=
  if now <? period_begin w then Fault Overflow
  else if secs <=? (now - period_begin w) / 10 ^ 9 then
    Ok (Some (data w), mkWS (data w) now)
  else Ok (None, w).

Definition update_min (w : WorkingSet) (new : Z) : WorkingSet :=
  if new <? data w then mkWS new (period_begin w) else w.

End WS.

(** ** [util::misc] *)
Definition satisfy_min_align (layout : Layout) (min_align : Z) : res Layout :=
  if min_align <=? layout_align layout then Ok layout
  else
    r ← umod (layout_size layout) min_align;
    if r =? 0 then Ok (align_to layout min_align)
    else
      s ← uadd (layout_size layout) min_align;
      s ← usub s r;
      unwrap (from_size_align s min_align).

(** ** Lemmas *)

(** [yields next st l st']: the iterator in state [st] hands out [l] in order. *)
Inductive yields {I : Type} (next : I → res (option (Z * I))) : I → list Z → I → Prop :=
  | yields_nil st : yields next st [] st
  | yields_snoc st l st1 x st2 :
      yields next st l st1 → next st1 = Ok (Some (x, st2)) → yields next st (l ++ [x]) st2.

Section SizeSelLemmas.
Context {I : Type} (next : I → res (option (Z * I))) (unused : Z → res (option (Z * Z))).
Context (max_objs : Z).

(** What the loop knows of the best size so far, after the sizes [seen]. *)
Definition best_ok (seen : list Z) (best : option Z) (mu : option f64) : Prop :=
  match best with
  | None => mu = None ∧ ∀ s, s ∈ seen → unused s = Ok None
  | Some b => b ∈ seen ∧ ∃ o u, unused b = Ok (Some (o, u)) ∧ o ≤ max_objs
  end.

Lemma choose_size_loop_spec fuel st0 seen st best mu r :
  yields next st0 seen st → best_ok seen best mu →
  SizeSel.choose_size_loop next unused max_objs fuel st best mu = Ok (Some r) →
  ∃ l st' o u, yields next st0 l st' ∧ r ∈ l ∧ unused r = Ok (Some (o, u)) ∧
    (max_objs < o → ∃ l', l = l' ++ [r] ∧ ∀ s, s ∈ l' → unused s = Ok None).
Proof.
  revert seen st best mu. induction fuel as [|fuel IH]; intros seen st best mu Hy Hb; simpl; [done|].
  destruct (next st) as [[[x st1]|]|] eqn:Hn; simpl; [| |done].
  2: { intros [= ->]. destruct Hb as (? & o & u & ? & ?). exists seen, st, o, u. split_and!; try done. lia. }
  pose proof (yields_snoc _ _ _ _ _ _ Hy Hn) as Hy'.
  destruct (unused x) as [[[o u]|]|] eqn:Hu; simpl; [| |done].
  - destruct (Z.ltb_spec max_objs o).
    + destruct best as [b|]; intros [= ->].
      * destruct Hb as (? & o' & u' & ? & ?). exists seen, st, o', u'. split_and!; try done. lia.
      * exists (seen ++ [r]), st1, o, u. split_and!; try done; [set_solver|]. intros _.
        destruct Hb. eauto.
    + case_match eqn:Hle; apply (IH _ _ _ _ Hy').
      * simpl. split; [set_solver|eauto].
      * destruct best as [b|]; simpl in *; [|by destruct Hb as [-> _]].
        destruct Hb as (? & ?). split; [set_solver|done].
  - apply (IH _ _ _ _ Hy'). destruct best as [b|]; simpl in *.
    + destruct Hb as (? & ?). split; [set_solver|done].
    + destruct Hb as [-> Hb]. split; [done|].
      intros s Hs. apply elem_of_app in Hs as [?|Hs]; [auto|].
      by apply list_elem_of_singleton in Hs as ->.
Qed.

(** More fuel does not change a result. *)
Lemma choose_size_loop_mono fuel fuel' st best mu r :
  SizeSel.choose_size_loop next unused max_objs fuel st best mu = Ok r → (fuel ≤ fuel')%nat →
  SizeSel.choose_size_loop next unused max_objs fuel' st best mu = Ok r.
Proof.
  revert fuel' st best mu. induction fuel as [|fuel IH]; intros fuel' st best mu; [done|].
  intros H Hf. destruct fuel' as [|fuel']; [lia|]. simpl in *.
  destruct (next st) as [[[x st1]|]|]; simpl in *; try done.
  destruct (unused x) as [[[o u]|]|]; simpl in *; try done; [|apply IH; [done|lia]].
  repeat case_match; try done; (apply IH; [done|lia]).
Qed.
End SizeSelLemmas.

(** The stack discipline: [push] adds on top, [pop] returns what was pushed
    last and leaves the rest. *)
Lemma push_holds s mem data vals v :
  Stk.holds s mem data vals → Z.of_nat (length vals) + 1 < 2 ^ 64 →
  ∃ s' mem', Stk.push s mem data v = Ok (s', mem') ∧ Stk.holds s' mem' data (vals ++ [v]) ∧
    ∀ a, (a < data + 8 * Z.of_nat (length vals) ∨ data + 8 * Z.of_nat (length vals) < a) →
      mem' !! a = mem !! a.
Proof.
  intros [Hs Hv] Hlen. unfold Stk.push, Stk.set_at_idx. rewrite Hs.
  rewrite rassert_true by (apply Z.leb_le; lia). simpl. rewrite uadd_Ok by lia. simpl.
  eexists _, _. split; [done|]. split; [split|].
  - simpl. rewrite length_app. simpl. lia.
  - intros i w Hi. apply lookup_snoc_Some in Hi as [[? Hi]|[-> <-]].
    + rewrite lookup_insert_ne; [by apply Hv|lia].
    + by rewrite lookup_insert_eq.
  - intros a Ha. rewrite lookup_insert_ne; [done|lia].
Qed.

Lemma pop_holds s mem data vals v :
  Stk.holds s mem data (vals ++ [v]) →
  ∃ s', Stk.pop s mem data = Ok (v, s') ∧ Stk.holds s' mem data vals.
Proof.
  intros [Hs Hv]. rewrite length_app in Hs. simpl in Hs. unfold Stk.pop, Stk.get_at_idx.
  rewrite rassert_true by (apply Z.ltb_lt; lia). simpl. rewrite usub_Ok by lia. simpl.
  rewrite rassert_true by (apply Z.leb_le; lia). simpl.
  replace (Stk.size s - 1) with (Z.of_nat (length vals)) by lia.
  rewrite (Hv (length vals) v) by (by rewrite lookup_app_r, Nat.sub_diag by lia). simpl.
  eexists. split; [done|]. split; [done|]. intros i w Hi. apply Hv. by apply lookup_app_l_Some.
Qed.

Lemma holds_length s mem data vals :
  Stk.holds s mem data vals → Stk.size s = Z.of_nat (length vals).
Proof. by intros [? _]. Qed.

(** Memory changes away from the stack do not matter to it. *)
Lemma holds_frame s mem mem' data vals :
  Stk.holds s mem data vals →
  (∀ a, data ≤ a < data + 8 * Z.of_nat (length vals) → mem' !! a = mem !! a) →
  Stk.holds s mem' data vals.
Proof.
  intros [Hs Hv] Hf. split; [done|]. intros i v Hi. rewrite Hf; [by apply Hv|].
  apply lookup_lt_Some in Hi. lia.
Qed.

(** Coloring. *)
Lemma color_new_wf align unused :
  0 < align → 0 ≤ unused < 2 ^ 64 →
  ∃ s, Color.new align unused = Ok s ∧ Color.wf align s ∧
    Color.max_color s = unused / align * align ∧ Color.cur_color s = 0.
Proof.
  intros Ha Hu. unfold Color.new. rewrite udiv_Ok by lia. simpl.
  pose proof (Z.div_mod unused align). pose proof (Z.mod_pos_bound unused align).
  assert (0 ≤ unused / align) by (apply Z.div_pos; lia).
  rewrite umul_Ok by lia. simpl. eexists. split; [done|]. unfold Color.wf. simpl.
  split_and!; try lia; [exists (unused / align)|exists 0]; lia.
Qed.

Lemma next_color_spec align q i :
  0 < align → 0 ≤ i ≤ q → q * align < 2 ^ 64 →
  Color.next_color (Color.mkColorSettings (q * align) (i * align)) align =
  Ok (i * align, Color.mkColorSettings (q * align) ((i + 1) mod (q + 1) * align)).
Proof.
  intros Ha Hi Hq. unfold Color.next_color. simpl.
  rewrite !umod_Ok by lia. rewrite !Z_mod_mult. simpl.
  assert (i * align ≤ q * align) by nia.
  rewrite rassert_true by (apply Z.leb_le; lia). simpl.
  destruct (Z.eqb_spec (i * align) (q * align)) as [E|E].
  - assert (i = q) as -> by nia. simpl. by rewrite Z_mod_same_full.
  - assert (i < q) by nia. assert ((i + 1) * align ≤ q * align) by nia.
    rewrite uadd_Ok by lia. simpl. rewrite (Z.mod_small (i + 1)) by lia.
    repeat f_equal. lia.
Qed.

Lemma next_colors_spec align q n i :
  0 < align → 0 ≤ i ≤ q → q * align < 2 ^ 64 →
  ∃ s, Color.next_colors n (Color.mkColorSettings (q * align) (i * align)) align =
    Ok ((fun j : nat => (i + Z.of_nat j) mod (q + 1) * align) <$> seq 0 n, s).
Proof.
  intros Ha. revert i. induction n as [|n IH]; intros i Hi Hq; simpl; [eauto|].
  rewrite next_color_spec by done. simpl.
  destruct (IH ((i + 1) mod (q + 1))) as [s ->]; [|done|].
  { pose proof (Z.mod_pos_bound (i + 1) (q + 1)). lia. }
  simpl. exists s. do 2 f_equal. rewrite Z.add_0_r, (Z.mod_small i) by lia. f_equal.
  rewrite <- fmap_S_seq, <- list_fmap_compose. apply list_fmap_ext. intros k j Hj. simpl.
  rewrite Z.add_mod_idemp_l by lia. f_equal. f_equal. lia.
Qed.

(** Rounding a layout up to a minimum alignment. *)
Lemma satisfy_min_align_spec l k :
  layout_wf l → 0 ≤ k ≤ 31 → layout_size l + 2 * 2 ^ k < 2 ^ 64 →
  ∃ l', satisfy_min_align l (2 ^ k) = Ok l' ∧ layout_wf l' ∧
    2 ^ k ≤ layout_align l' ∧ layout_align l ≤ layout_align l' ∧
    layout_size l ≤ layout_size l' < layout_size l + 2 ^ k.
Proof.
  intros ([H0 Hmax] & (a & Ha & Eal) & Hfit) Hk Hsz. unfold satisfy_min_align.
  pose proof (pow2_pos k ltac:(lia)). rewrite Eal in *. pose proof (pow2_pos a ltac:(lia)).
  destruct (Z.leb_spec (2 ^ k) (2 ^ a)) as [Hle|Hlt].
  { exists l. split_and!; try done; try lia. unfold layout_wf, is_usize. rewrite Eal. eauto with lia. }
  rewrite umod_Ok by lia. simpl. pose proof (Z.mod_pos_bound (layout_size l) (2 ^ k)).
  destruct (Z.eqb_spec (layout_size l mod 2 ^ k) 0) as [E|E].
  - eexists. split; [done|]. unfold layout_wf, align_to, is_usize, usize_max. simpl. rewrite Eal.
    rewrite Z.max_r by lia. split_and!; try lia. eauto with lia.
  - rewrite uadd_Ok by lia. simpl. rewrite usub_Ok by lia. simpl.
    rewrite (from_size_align_Some _ (2 ^ k) k) by (unfold usize_max; lia || done). simpl.
    eexists. split; [done|]. unfold layout_wf, is_usize, usize_max. simpl. split_and!; try lia. eauto with lia.
Qed.

(** Slab size selection.  Whatever the candidate sizes and the fit
    function, a size that [choose_size] returns was handed out by the iterator
    and is one for which the fit function found room; and when it holds more
    objects than the bound, it is the first handed-out size that fits at all
    (no earlier candidate had room for an object). *)
Theorem choose_size_fits {I : Type} (next : I → res (option (Z * I)))
    (unused : Z → res (option (Z * Z))) (max_objs : Z) (fuel : nat) (sizes : I) (r : Z) :
  SizeSel.choose_size next unused max_objs fuel sizes = Ok r →
  ∃ l st' o u, yields next sizes l st' ∧ r ∈ l ∧ unused r = Ok (Some (o, u)) ∧
    (max_objs < o → ∃ l', l = l' ++ [r] ∧ ∀ s, s ∈ l' → unused s = Ok None).
Proof.
  unfold SizeSel.choose_size. intros ([b|] & Hl & [= ->])%res_bind_Ok.
  apply (choose_size_loop_spec next unused max_objs fuel sizes [] sizes None None); [constructor| |done].
  split; [done|]. set_solver.
Qed.

(** The sizes 1, 2, 3, ... with room for [s - 3] objects from size 4 on. *)
Definition demo_next (s : Z) : res (option (Z * Z)) := Ok (Some (s + 1, s + 1)).
Definition demo_unused (s : Z) : res (option (Z * Z)) :=
  Ok (if s <=? 3 then None else Some (s - 3, 7 - s)).

Lemma choose_size_fits_witness :
  SizeSel.choose_size demo_next demo_unused 2 10 0 = Ok 5 ∧
  ∃ l st' o u, yields demo_next 0 l st' ∧ 5 ∈ l ∧ demo_unused 5 = Ok (Some (o, u)) ∧
    (2 < o → ∃ l', l = l' ++ [5] ∧ ∀ s, s ∈ l' → demo_unused s = Ok None).
Proof.
  split; [vm_compute; reflexivity|].
  apply (choose_size_fits demo_next demo_unused 2 10 0 5). vm_compute. reflexivity.
Defined.

(** Cache coloring.  From fresh settings, any number of [next_color] calls
    succeeds (no assertion fails, nothing overflows), and call [j] returns
    color [(j mod (unused / align + 1)) * align]: the colors are multiples of
    the alignment that walk through all the unused space and wrap around. *)
Theorem colors_cycle (align unused : Z) (n : nat) :
  0 < align → 0 ≤ unused < 2 ^ 64 →
  ∃ s s', Color.new align unused = Ok s ∧
    Color.next_colors n s align =
      Ok ((fun j : nat => Z.of_nat j mod (unused / align + 1) * align) <$> seq 0 n, s').
Proof.
  intros Ha Hu. destruct (color_new_wf align unused Ha Hu) as (s & Hn & Hwf & Hm & Hc).
  exists s. destruct (next_colors_spec align (unused / align) n 0) as [s' Hs']; [done| | |].
  - split; [lia|]. apply Z.div_pos; lia.
  - pose proof (Z.mod_pos_bound unused align Ha). pose proof (Z.div_mod unused align). lia.
  - exists s'. split; [done|]. destruct s as [m c]. simpl in *. by subst m c.
Qed.

Lemma colors_cycle_witness :
  ∃ s s', Color.new 8 20 = Ok s ∧
    Color.next_colors 7 s 8 =
      Ok ((fun j : nat => Z.of_nat j mod (20 / 8 + 1) * 8) <$> seq 0 7, s').
Proof. apply (colors_cycle 8 20 7); lia. Defined.
