(* ===== verification/SlabList.v ===== *)
(** * The intrusive doubly-linked list (src/slab-alloc/src/util.rs, [list])

    List nodes live in memory [gmap Z N]; a node is any record with a next and
    a previous link (the [Linkable] trait).  Every operation is proved to
    implement the corresponding operation on a list of node addresses. *)

From Stdlib Require Import ZArith Lia.
From S2P Require Import Prelude StdAlloc.
From stdpp Require Import base numbers list gmap option.

Open Scope Z_scope.

(** The [Linkable] trait, with the laws of a pair of link fields; [lk_payload]
    is everything else in the node. *)
Class Linkable (N : Type) := {
  lk_next : N → Z;
  lk_prev : N → Z;
  set_next : N → Z → N;
  set_prev : N → Z → N;
  Payload : Type;
  lk_payload : N → Payload;
  next_set_next n p : lk_next (set_next n p) = p;
  prev_set_next n p : lk_prev (set_next n p) = lk_prev n;
  next_set_prev n p : lk_next (set_prev n p) = lk_next n;
  prev_set_prev n p : lk_prev (set_prev n p) = p;
  payload_set_next n p : lk_payload (set_next n p) = lk_payload n;
  payload_set_prev n p : lk_payload (set_prev n p) = lk_payload n;
}.

Record LinkedList := mkList { ll_size : Z; ll_head : Z; ll_tail : Z }.

Module LL.
Section ops.
Context {N : Type} `{!Linkable N}.

(** Reads and writes through a [*mut T]. *)
Definition next (mem : gmap Z N) (p : Z) : res Z := n ← deref (mem !! p); Ok (lk_next n).
Definition prev (mem : gmap Z N) (p : Z) : res Z := n ← deref (mem !! p); Ok (lk_prev n).
Definition write_next (mem : gmap Z N) (p v : Z) : res (gmap Z N) :=
  n ← deref (mem !! p); Ok (<[p := set_next n v]> mem).
Definition write_prev (mem : gmap Z N) (p v : Z) : res (gmap Z N) :=
  n ← deref (mem !! p); Ok (<[p := set_prev n v]> mem).

(** The pair of [debug_assert!]s that a node has null links. *)
Definition assert_unlinked (mem : gmap Z N) (t : Z) : res unit :=
  n ← next mem t;
  _ ← rassert (n =? 0);
  p ← prev mem t;
  rassert (p =? 0).

Definition new : LinkedList := mkList 0 0 0.

Definition insert_front (l : LinkedList) (mem : gmap Z N) (t : Z) : res (LinkedList * gmap Z N) :=
  _ ← assert_unlinked mem t;
  '(head, tail, mem) ←
    (if ll_size l =? 0 then Ok (t, t, mem)
     else
       mem ← write_next mem t (ll_head l);
       mem ← write_prev mem (ll_head l) t;
       Ok (t, ll_tail l, mem));
  sz ← uadd (ll_size l) 1;
  Ok (mkList sz head tail, mem).

Definition insert_back (l : LinkedList) (mem : gmap Z N) (t : Z) : res (LinkedList * gmap Z N) :=
  _ ← assert_unlinked mem t;
  '(head, tail, mem) ←
    (if ll_size l =? 0 then Ok (t, t, mem)
     else
       mem ← write_next mem (ll_tail l) t;
       mem ← write_prev mem t (ll_tail l);
       Ok (ll_head l, t, mem));
  sz ← uadd (ll_size l) 1;
  Ok (mkList sz head tail, mem).

Definition remove_front (l : LinkedList) (mem : gmap Z N) : res (Z * LinkedList * gmap Z N) :=
  _ ← rassert (0 <? ll_size l);
  '(t, head, tail, mem) ←
    (if ll_size l =? 1 then Ok (ll_head l, 0, 0, mem)
     else
       let t := ll_head l in
       head ← next mem t;
       mem ← write_prev mem head 0;
       mem ← write_next mem t 0;
       Ok (t, head, ll_tail l, mem));
  _ ← assert_unlinked mem t;
  sz ← usub (ll_size l) 1;
  Ok (t, mkList sz head tail, mem).

Definition remove_back (l : LinkedList) (mem : gmap Z N) : res (Z * LinkedList * gmap Z N) :=
  _ ← rassert (0 <? ll_size l);
  '(t, head, tail, mem) ←
    (if ll_size l =? 1 then Ok (ll_head l, 0, 0, mem)
     else
       let t := ll_tail l in
       tail ← prev mem t;
       mem ← write_next mem tail 0;
       mem ← write_prev mem t 0;
       Ok (t, ll_head l, tail, mem));
  _ ← assert_unlinked mem t;
  sz ← usub (ll_size l) 1;
  Ok (t, mkList sz head tail, mem).

Definition move_to_back (l : LinkedList) (mem : gmap Z N) (t : Z) : res (LinkedList * gmap Z N) :=
  _ ← rassert (0 <? ll_size l);
  if (ll_size l =? 1) || (ll_tail l =? t) then Ok (l, mem)
  else
    '(head, mem) ←
      (if ll_head l =? t then
         nxt ← next mem t;
         mem ← write_prev mem nxt 0;
         Ok (nxt, mem)
       else
         prv ← prev mem t;
         nxt ← next mem t;
         mem ← write_next mem prv nxt;
         mem ← write_prev mem nxt prv;
         Ok (ll_head l, mem));
    mem ← write_prev mem t (ll_tail l);
    mem ← write_next mem t 0;
    mem ← write_next mem (ll_tail l) t;
    Ok (mkList (ll_size l) head t, mem).

Definition peek_front (l : LinkedList) : res Z :=
  _ ← rassert (0 <? ll_size l);
  Ok (ll_head l).

(** ** Abstraction: the node addresses in list order *)

(** Nodes [xs], linked in order; the first has previous link [p], the last has
    next link [q]. *)
Fixpoint seg (mem : gmap Z N) (p : Z) (xs : list Z) (q : Z) : Prop :=
  match xs with
  | [] => True
  | x :: xs' =>
      x ≠ 0 ∧ (∃ n, mem !! x = Some n ∧ lk_prev n = p ∧ lk_next n = hd q xs') ∧ seg mem x xs' q
  end.

Definition repr (l : LinkedList) (mem : gmap Z N) (xs : list Z) : Prop :=
  NoDup xs ∧ seg mem 0 xs 0 ∧
  ll_size l = Z.of_nat (length xs) ∧ Z.of_nat (length xs) < 2 ^ 64 ∧
  (xs ≠ [] → ll_head l = hd 0 xs ∧ ll_tail l = List.last xs 0).

(** A node outside every list: both links null. *)
Definition unlinked (mem : gmap Z N) (t : Z) : Prop :=
  t ≠ 0 ∧ ∃ n, mem !! t = Some n ∧ lk_prev n = 0 ∧ lk_next n = 0.

(** Two memories differ at most in the links of the nodes [xs]. *)
Definition links_only (xs : list Z) (mem mem' : gmap Z N) : Prop :=
  (∀ a, a ∉ xs → mem' !! a = mem !! a) ∧
  (∀ a, lk_payload <$> mem' !! a = lk_payload <$> mem !! a).

End ops.
End LL.

(** ** Lemmas *)
Section lemmas.
Context {N : Type} `{!Linkable N}.
Implicit Types (mem : gmap Z N) (xs ys : list Z).

Lemma last_cons (x d : Z) xs : List.last (x :: xs) d = List.last xs x.
Proof.
  revert x d. induction xs as [|y xs IH]; intros x d; [done|].
  change (List.last (x :: y :: xs) d) with (List.last (y :: xs) d). by rewrite !IH.
Qed.

Lemma hd_app (d : Z) xs ys : hd d (xs ++ ys) = hd (hd d ys) xs.
Proof. by destruct xs. Qed.

Lemma seg_app mem p xs ys q :
  LL.seg mem p (xs ++ ys) q ↔ LL.seg mem p xs (hd q ys) ∧ LL.seg mem (List.last xs p) ys q.
Proof.
  revert p. induction xs as [|x xs IH]; intros p; [simpl; tauto|].
  change ((x :: xs) ++ ys) with (x :: (xs ++ ys)). cbn [LL.seg]. rewrite last_cons, hd_app, IH. tauto.
Qed.

Lemma seg_frame mem mem' p xs q :
  (∀ a, a ∈ xs → mem' !! a = mem !! a) → LL.seg mem p xs q → LL.seg mem' p xs q.
Proof.
  revert p. induction xs as [|x xs IH]; intros p Hf; [done|]. cbn [LL.seg].
  intros (? & (n & ? & ?) & ?). split_and!; [done| |].
  - exists n. split; [|done]. rewrite Hf; [done|set_solver].
  - apply IH; [set_solver|done].
Qed.

Lemma seg_insert mem p xs q a n : a ∉ xs → LL.seg mem p xs q → LL.seg (<[a := n]> mem) p xs q.
Proof. intros Ha. apply seg_frame. intros b Hb. apply lookup_insert_ne. set_solver. Qed.

Lemma seg_lookup mem p xs q x : LL.seg mem p xs q → x ∈ xs → x ≠ 0 ∧ ∃ n, mem !! x = Some n.
Proof.
  revert p. induction xs as [|y xs IH]; intros p; [set_solver|].
  cbn [LL.seg]. intros (? & (n & ? & ?) & ?) Hx.
  apply elem_of_cons in Hx as [->|Hx]; [eauto|by eapply IH].
Qed.

(** Re-aiming the first node's previous link, or the last node's next link. *)
Lemma seg_set_prev mem p p' x xs q n :
  x ∉ xs → mem !! x = Some n → LL.seg mem p (x :: xs) q →
  LL.seg (<[x := set_prev n p']> mem) p' (x :: xs) q.
Proof.
  intros Hx Hn. cbn [LL.seg]. intros (? & (n' & Hn' & ? & ?) & ?). simplify_eq.
  split_and!; [done| |by apply seg_insert].
  exists (set_prev n p'). by rewrite lookup_insert_eq, prev_set_prev, next_set_prev.
Qed.

Lemma seg_set_next mem p xs x q q' n :
  x ∉ xs → mem !! x = Some n → LL.seg mem p (xs ++ [x]) q →
  LL.seg (<[x := set_next n q']> mem) p (xs ++ [x]) q'.
Proof.
  intros Hx Hn. rewrite !seg_app. cbn [LL.seg hd]. intros (? & ? & (n' & Hn' & ? & ?) & _). simplify_eq.
  split_and!; [by apply seg_insert|done| |done].
  exists (set_next n q'). by rewrite lookup_insert_eq, prev_set_next, next_set_next.
Qed.

Lemma links_only_refl xs mem : LL.links_only xs mem mem.
Proof. done. Qed.

Lemma links_only_trans xs mem1 mem2 mem3 :
  LL.links_only xs mem1 mem2 → LL.links_only xs mem2 mem3 → LL.links_only xs mem1 mem3.
Proof.
  intros [A1 B1] [A2 B2]. split.
  - intros a Ha. rewrite A2, A1; done.
  - intros a. by rewrite B2, B1.
Qed.

Lemma links_only_mono xs ys mem mem' : xs ⊆ ys → LL.links_only xs mem mem' → LL.links_only ys mem mem'.
Proof. intros Hs [A B]. split; [|done]. intros a Ha. apply A. set_solver. Qed.

Lemma write_next_run xs mem p n v :
  mem !! p = Some n → p ∈ xs →
  LL.write_next mem p v = Ok (<[p := set_next n v]> mem) ∧
  LL.links_only xs mem (<[p := set_next n v]> mem).
Proof.
  intros Hp Hx. unfold LL.write_next. rewrite Hp. split; [done|]. split; intros a.
  - intros Ha. apply lookup_insert_ne. set_solver.
  - destruct (decide (a = p)) as [->|]; [|by rewrite lookup_insert_ne].
    by rewrite lookup_insert_eq, Hp; simpl; rewrite payload_set_next.
Qed.

Lemma write_prev_run xs mem p n v :
  mem !! p = Some n → p ∈ xs →
  LL.write_prev mem p v = Ok (<[p := set_prev n v]> mem) ∧
  LL.links_only xs mem (<[p := set_prev n v]> mem).
Proof.
  intros Hp Hx. unfold LL.write_prev. rewrite Hp. split; [done|]. split; intros a.
  - intros Ha. apply lookup_insert_ne. set_solver.
  - destruct (decide (a = p)) as [->|]; [|by rewrite lookup_insert_ne].
    by rewrite lookup_insert_eq, Hp; simpl; rewrite payload_set_prev.
Qed.

Lemma next_run mem p n : mem !! p = Some n → LL.next mem p = Ok (lk_next n).
Proof. intros H. unfold LL.next. by rewrite H. Qed.

Lemma prev_run mem p n : mem !! p = Some n → LL.prev mem p = Ok (lk_prev n).
Proof. intros H. unfold LL.prev. by rewrite H. Qed.

Lemma assert_unlinked_run mem t : LL.unlinked mem t → LL.assert_unlinked mem t = Ok tt.
Proof.
  intros (_ & n & Hn & Hp & Hx). unfold LL.assert_unlinked.
  by rewrite (next_run _ _ _ Hn), (prev_run _ _ _ Hn), Hp, Hx.
Qed.

Lemma repr_new : LL.repr LL.new (∅ : gmap Z N) [].
Proof. split_and!; try done. constructor. Qed.
Ltac split_repr := refine (conj _ (conj _ (conj _ (conj _ _)))).

(** ** Each operation implements its counterpart on lists *)
Lemma insert_front_spec l mem xs t :
  LL.repr l mem xs → t ∉ xs → LL.unlinked mem t → Z.of_nat (length xs) + 1 < 2 ^ 64 →
  ∃ l' mem', LL.insert_front l mem t = Ok (l', mem') ∧ LL.repr l' mem' (t :: xs) ∧
    LL.links_only (t :: xs) mem mem'.
Proof.
  intros (Hnd & Hseg & Hsz & Hb & Hht) Ht Hu Hlen. unfold LL.insert_front.
  rewrite assert_unlinked_run by done. destruct Hu as (Ht0 & nt & Hnt & Hp & Hx).
  simpl. rewrite Hsz. destruct xs as [|x xs].
  - simpl. rewrite ?uadd_Ok by lia. simpl. eexists _, _. split; [done|]. split; [|apply links_only_refl].
    split_repr; simpl; try done; try lia; [by apply NoDup_singleton|]. split_and!; eauto.
  - destruct Hht as [Hh Htl]; [done|]. simpl in Hh. rewrite Hh.
    destruct (Z.eqb_spec (Z.of_nat (length (x :: xs))) 0) as [E|_]; [simpl in E; lia|].
    apply list.NoDup_cons in Hnd as [Hx1 Hnd].
    destruct (seg_lookup _ _ _ _ x Hseg ltac:(set_solver)) as (Hx0 & nx & Hnx).
    destruct (write_next_run (t :: x :: xs) mem t nt x) as [-> L1]; [done|set_solver|]. simpl.
    assert (<[t:=set_next nt x]> mem !! x = Some nx) as Hnx' by (rewrite lookup_insert_ne; [done|set_solver]).
    destruct (write_prev_run (t :: x :: xs) _ x nx t Hnx') as [-> L2]; [set_solver|]. simpl.
    rewrite uadd_Ok by (simpl in *; lia). simpl. eexists _, _. split; [done|].
    split; [|by eapply links_only_trans].
    split_repr; [by repeat constructor; set_solver| |simpl in *; lia|simpl in *; lia|simpl; intros _; split; [done|by rewrite Htl]].
    refine (conj _ (conj _ _)); [done| |].
    + exists (set_next nt x). rewrite lookup_insert_ne by set_solver.
      by rewrite lookup_insert_eq, prev_set_next, next_set_next.
    + apply (seg_set_prev _ 0 t); [done|done|]. apply seg_insert; [done|done].
Qed.

Lemma insert_back_spec l mem xs t :
  LL.repr l mem xs → t ∉ xs → LL.unlinked mem t → Z.of_nat (length xs) + 1 < 2 ^ 64 →
  ∃ l' mem', LL.insert_back l mem t = Ok (l', mem') ∧ LL.repr l' mem' (xs ++ [t]) ∧
    LL.links_only (xs ++ [t]) mem mem'.
Proof.
  intros (Hnd & Hseg & Hsz & Hb & Hht) Ht Hu Hlen. unfold LL.insert_back.
  rewrite assert_unlinked_run by done. destruct Hu as (Ht0 & nt & Hnt & Hp & Hx).
  simpl. rewrite Hsz. destruct xs as [|z xs _] using rev_ind.
  - simpl. rewrite ?uadd_Ok by lia. simpl. eexists _, _. split; [done|]. split; [|apply links_only_refl].
    split_repr; simpl; try done; try lia; [by apply NoDup_singleton|]. split_and!; eauto.
  - rewrite length_app in *. simpl in *.
    destruct Hht as [Hh Htl]; [by destruct xs|]. rewrite List.last_last in Htl. rewrite Htl.
    destruct (Z.eqb_spec (Z.of_nat (length xs + 1)) 0) as [E|_]; [lia|].
    apply list.NoDup_app in Hnd as (Hnd & Hz & _).
    assert (z ∉ xs) by set_solver.
    destruct (seg_lookup _ _ _ _ z Hseg ltac:(set_solver)) as (Hz0 & nz & Hnz).
    destruct (write_next_run ((xs ++ [z]) ++ [t]) mem z nz t) as [-> L1]; [done|set_solver|]. simpl.
    assert (<[z:=set_next nz t]> mem !! t = Some nt) as Hnt' by (rewrite lookup_insert_ne; [done|set_solver]).
    destruct (write_prev_run ((xs ++ [z]) ++ [t]) _ t nt z Hnt') as [-> L2]; [set_solver|]. simpl.
    rewrite uadd_Ok by lia. simpl. eexists _, _. split; [done|].
    split; [|by eapply links_only_trans].
    split_repr.
    + apply list.NoDup_app. split_and!; [|set_solver|by apply NoDup_singleton].
      apply list.NoDup_app. split_and!; [done|set_solver|by apply NoDup_singleton].
    + apply seg_app. split.
      * simpl. apply seg_insert; [set_solver|]. by apply (seg_set_next _ _ _ _ 0).
      * rewrite List.last_last. simpl. split_and!; [done| |done]. exists (set_prev nt z).
        by rewrite lookup_insert_eq, prev_set_prev, next_set_prev.
    + simpl. rewrite !length_app. simpl. lia.
    + rewrite !length_app. simpl. lia.
    + intros _. simpl. rewrite List.last_last. split; [|done]. rewrite Hh. by destruct xs.
Qed.

Lemma remove_front_spec l mem x xs :
  LL.repr l mem (x :: xs) →
  ∃ l' mem', LL.remove_front l mem = Ok (x, l', mem') ∧ LL.repr l' mem' xs ∧
    LL.unlinked mem' x ∧ LL.links_only (x :: xs) mem mem'.
Proof.
  intros (Hnd & Hseg & Hsz & Hb & Hht). unfold LL.remove_front.
  destruct Hht as [Hh Htl]; [done|]. simpl in Hh. rewrite Hsz, Hh.
  rewrite rassert_true by (apply Z.ltb_lt; simpl; lia). cbn [mbind res_bind].
  apply list.NoDup_cons in Hnd as [Hx Hnd].
  destruct Hseg as (Hx0 & (nx & Hnx & Hpx & Hnxx) & Hseg). destruct xs as [|y xs].
  - simpl in *. assert (LL.unlinked mem x) as Hu by (split; eauto).
    rewrite assert_unlinked_run by done. simpl. rewrite ?usub_Ok by lia. simpl.
    eexists _, _. split; [done|]. split_and!; [|done|apply links_only_refl].
    split_repr; try done; constructor.
  - destruct (Z.eqb_spec (Z.of_nat (length (x :: y :: xs))) 1) as [E|_]; [simpl in E; lia|].
    rewrite (next_run _ _ _ Hnx), Hnxx. simpl.
    destruct (seg_lookup _ _ _ _ y Hseg ltac:(set_solver)) as (Hy0 & ny & Hny).
    apply list.NoDup_cons in Hnd as [Hy Hnd].
    destruct (write_prev_run (x :: y :: xs) mem y ny 0) as [-> L1]; [done|set_solver|]. simpl.
    assert (<[y:=set_prev ny 0]> mem !! x = Some nx) as Hnx' by (rewrite lookup_insert_ne; [done|set_solver]).
    destruct (write_next_run (x :: y :: xs) _ x nx 0 Hnx') as [-> L2]; [set_solver|]. simpl.
    assert (LL.unlinked (<[x:=set_next nx 0]> (<[y:=set_prev ny 0]> mem)) x) as Hu.
    { split; [done|]. exists (set_next nx 0). by rewrite lookup_insert_eq, prev_set_next, next_set_next. }
    rewrite assert_unlinked_run by done. simpl. rewrite ?usub_Ok by lia. simpl.
    eexists _, _. split; [done|]. split_and!; [|done|by eapply links_only_trans].
    split_repr; [by apply list.NoDup_cons| |simpl in *; lia|simpl in *; lia|].
    + apply seg_insert; [set_solver|]. by apply (seg_set_prev _ x).
    + intros _. simpl. split; [done|]. by rewrite Htl.
Qed.

Lemma remove_back_spec l mem xs x :
  LL.repr l mem (xs ++ [x]) →
  ∃ l' mem', LL.remove_back l mem = Ok (x, l', mem') ∧ LL.repr l' mem' xs ∧
    LL.unlinked mem' x ∧ LL.links_only (xs ++ [x]) mem mem'.
Proof.
  intros (Hnd & Hseg & Hsz & Hb & Hht). unfold LL.remove_back.
  rewrite length_app in *. simpl in *.
  destruct Hht as [Hh Htl]; [by destruct xs|]. rewrite List.last_last in Htl. rewrite Hsz, Htl.
  rewrite rassert_true by (apply Z.ltb_lt; lia). cbn [mbind res_bind].
  apply list.NoDup_app in Hnd as (Hnd & Hx & _). assert (x ∉ xs) by set_solver. clear Hx.
  apply seg_app in Hseg as [Hseg Hsx]. simpl in Hseg.
  destruct Hsx as (Hx0 & (nx & Hnx & Hpx & Hnxx) & _). destruct xs as [|y xs _] using rev_ind.
  - simpl in *. rewrite Hh. assert (LL.unlinked mem x) as Hu by (split; eauto).
    rewrite assert_unlinked_run by done. simpl. rewrite ?usub_Ok by lia. simpl.
    eexists _, _. split; [done|]. split_and!; [|done|apply links_only_refl].
    split_repr; try done; constructor.
  - rewrite length_app in *. simpl in *.
    destruct (Z.eqb_spec (Z.of_nat (length xs + 1 + 1)) 1) as [E|_]; [lia|].
    rewrite List.last_last in Hpx. rewrite (prev_run _ _ _ Hnx), Hpx. simpl.
    destruct (seg_lookup _ _ _ _ y Hseg ltac:(set_solver)) as (Hy0 & ny & Hny).
    apply list.NoDup_app in Hnd as (Hnd & Hy & _). assert (y ∉ xs) by set_solver.
    destruct (write_next_run ((xs ++ [y]) ++ [x]) mem y ny 0) as [-> L1]; [done|set_solver|]. simpl.
    assert (<[y:=set_next ny 0]> mem !! x = Some nx) as Hnx' by (rewrite lookup_insert_ne; [done|set_solver]).
    destruct (write_prev_run ((xs ++ [y]) ++ [x]) _ x nx 0 Hnx') as [-> L2]; [set_solver|]. simpl.
    assert (LL.unlinked (<[x:=set_prev nx 0]> (<[y:=set_next ny 0]> mem)) x) as Hu.
    { split; [done|]. exists (set_prev nx 0). by rewrite lookup_insert_eq, prev_set_prev, next_set_prev. }
    rewrite assert_unlinked_run by done. simpl. rewrite ?usub_Ok by lia. simpl.
    eexists _, _. split; [done|]. split_and!; [|done|by eapply links_only_trans].
    split_repr; [| |rewrite length_app; simpl; lia|rewrite length_app; simpl; lia|].
    + apply list.NoDup_app. split_and!; [done|set_solver|by apply NoDup_singleton].
    + apply seg_insert; [set_solver|]. by apply (seg_set_next _ _ _ _ x).
    + intros _. simpl. rewrite List.last_last. split; [|done]. rewrite Hh. by destruct xs.
Qed.
(** The first half of [move_to_back]: take [t] out of the chain. *)
Definition unlink (head : Z) (mem : gmap Z N) (t : Z) : res (Z * gmap Z N) :=
  if head =? t then
    nxt ← LL.next mem t;
    mem ← LL.write_prev mem nxt 0;
    Ok (nxt, mem)
  else
    prv ← LL.prev mem t;
    nxt ← LL.next mem t;
    mem ← LL.write_next mem prv nxt;
    mem ← LL.write_prev mem nxt prv;
    Ok (head, mem).

Lemma unlink_spec mem l1 t y l2 :
  NoDup (l1 ++ t :: y :: l2) → LL.seg mem 0 (l1 ++ t :: y :: l2) 0 →
  ∃ mem', unlink (hd 0 (l1 ++ t :: y :: l2)) mem t = Ok (hd 0 (l1 ++ y :: l2), mem') ∧
    LL.seg mem' 0 (l1 ++ y :: l2) 0 ∧ mem' !! t = mem !! t ∧
    LL.links_only (l1 ++ t :: y :: l2) mem mem'.
Proof.
  intros Hnd Hseg. apply list.NoDup_app in Hnd as (Hnd1 & Hd & Hnd).
  apply list.NoDup_cons in Hnd as [Ht Hnd]. apply list.NoDup_cons in Hnd as [Hy Hnd].
  apply seg_app in Hseg as [Hs1 Hs2]. destruct Hs2 as (Ht0 & (nt & Hnt & Hpt & Hxt) & Hs2).
  destruct (seg_lookup _ _ _ _ y Hs2 ltac:(set_solver)) as (Hy0 & ny & Hny). cbn [hd] in Hxt, Hs1.
  unfold unlink. destruct l1 as [|p l1 _] using rev_ind.
  - cbn [app hd]. rewrite Z.eqb_refl, (next_run _ _ _ Hnt), Hxt. cbn [mbind res_bind].
    destruct (write_prev_run (t :: y :: l2) mem y ny 0) as [-> L1]; [done|set_solver|].
    eexists. split; [done|]. split_and!; [by apply (seg_set_prev _ t)| |done].
    rewrite lookup_insert_ne; [done|set_solver].
  - assert (hd 0 ((l1 ++ [p]) ++ t :: y :: l2) ≠ t) as Hne.
    { destruct l1; simpl in *; set_solver. }
    apply Z.eqb_neq in Hne. rewrite Hne.
    rewrite List.last_last in Hpt. rewrite (prev_run _ _ _ Hnt), (next_run _ _ _ Hnt), Hpt, Hxt.
    cbn [mbind res_bind].
    destruct (seg_lookup _ _ _ _ p Hs1 ltac:(set_solver)) as (Hp0 & np & Hnp).
    apply list.NoDup_app in Hnd1 as (? & Hpl & _).
    pose proof (Hd p ltac:(set_solver)) as Hp. apply not_elem_of_cons in Hp as [Hpt' Hp].
    apply not_elem_of_cons in Hp as [Hpy Hp2].
    set (all := (l1 ++ [p]) ++ t :: y :: l2).
    destruct (write_next_run all mem p np y) as [-> L1]; [done|set_solver|]. cbn [mbind res_bind].
    assert (<[p:=set_next np y]> mem !! y = Some ny) as Hny' by (by rewrite lookup_insert_ne).
    destruct (write_prev_run all _ y ny p Hny') as [-> L2]; [set_solver|]. cbn [mbind res_bind].
    eexists. split; [|split; [apply seg_app; split|split; [|by eapply links_only_trans]]].
    + do 2 f_equal. by destruct l1.
    + apply seg_insert; [set_solver|]. cbn [hd]. apply (seg_set_next _ _ _ _ t); [set_solver|done|done].
    + rewrite List.last_last. apply (seg_set_prev _ t); [done|done|]. apply seg_insert; [set_solver|done].
    + rewrite !lookup_insert_ne; [done|set_solver..].
Qed.

(** The second half: hook [t] in behind the tail [z]. *)
Lemma relink_back_spec mem ys z t nt :
  NoDup (ys ++ [z]) → t ∉ ys ++ [z] → t ≠ 0 → LL.seg mem 0 (ys ++ [z]) 0 → mem !! t = Some nt →
  ∃ mem', (mem ← LL.write_prev mem t z; mem ← LL.write_next mem t 0; LL.write_next mem z t) = Ok mem' ∧
    LL.seg mem' 0 ((ys ++ [z]) ++ [t]) 0 ∧ LL.links_only ((ys ++ [z]) ++ [t]) mem mem'.
Proof.
  intros Hnd Ht Ht0 Hseg Hnt. apply list.NoDup_app in Hnd as (Hnd & Hz & _). set (all := (ys ++ [z]) ++ [t]).
  destruct (seg_lookup _ _ _ _ z Hseg ltac:(set_solver)) as (Hz0 & nz & Hnz).
  destruct (write_prev_run all mem t nt z) as [-> L1]; [done|set_solver|]. cbn [mbind res_bind].
  set (nt1 := set_prev nt z).
  destruct (write_next_run all (<[t:=nt1]> mem) t nt1 0) as [-> L2]; [by rewrite lookup_insert_eq|set_solver|].
  cbn [mbind res_bind]. set (mem2 := <[t:=set_next nt1 0]> (<[t:=nt1]> mem)).
  assert (mem2 !! z = Some nz) as Hnz2 by (unfold mem2; rewrite !lookup_insert_ne; [done|set_solver..]).
  destruct (write_next_run all mem2 z nz t Hnz2) as [-> L3]; [set_solver|].
  eexists. split; [done|]. split; [apply seg_app; split|by do 2 (eapply links_only_trans; [done|])].
  - apply (seg_set_next _ _ _ _ 0); [set_solver|done|]. do 2 (apply seg_insert; [set_solver|]). done.
  - rewrite List.last_last. refine (conj _ (conj _ _)); [done| |done].
    exists (set_next nt1 0). unfold mem2. rewrite lookup_insert_ne by set_solver.
    rewrite lookup_insert_eq, prev_set_next, next_set_next. unfold nt1. by rewrite prev_set_prev.
Qed.

Lemma move_to_back_spec l mem l1 t l2 :
  LL.repr l mem (l1 ++ t :: l2) →
  ∃ l' mem', LL.move_to_back l mem t = Ok (l', mem') ∧ LL.repr l' mem' (l1 ++ l2 ++ [t]) ∧
    LL.links_only (l1 ++ t :: l2) mem mem'.
Proof.
  intros (Hnd & Hseg & Hsz & Hb & Hht). destruct Hht as [Hh Htl]; [by destruct l1|].
  unfold LL.move_to_back.
  rewrite rassert_true by (rewrite Hsz, length_app; apply Z.ltb_lt; simpl; lia).
  cbn [mbind res_bind]. rewrite Hsz. destruct l2 as [|y l2].
  { rewrite List.last_last in Htl. rewrite Htl, Z.eqb_refl, orb_true_r. eexists _, _. split; [done|].
    split; [|apply links_only_refl]. cbn [app]. split_repr; try done. intros _. by rewrite List.last_last. }
  rewrite length_app in *. cbn [length] in *.
  destruct (Z.eqb_spec (Z.of_nat (length l1 + S (S (length l2)))) 1) as [|_]; [lia|].
  assert (ll_tail l = List.last (l1 ++ y :: l2) 0 ∧ List.last (l1 ++ y :: l2) 0 ∈ y :: l2) as [Htl' Hin].
  { rewrite Htl. destruct (@exists_last _ (y :: l2)) as (l2' & z & E); [done|]. rewrite E.
    change (l1 ++ t :: l2' ++ [z]) with (l1 ++ (t :: l2') ++ [z]).
    rewrite !app_assoc, !List.last_last. set_solver. }
  rewrite Htl'. set (z := List.last (l1 ++ y :: l2) 0) in *.
  assert (z ≠ t) as Hzt.
  { apply list.NoDup_app in Hnd as (_ & _ & Hnd). apply list.NoDup_cons in Hnd as [? _]. set_solver. }
  apply Z.eqb_neq in Hzt. rewrite Hzt. cbn [orb].
  destruct (unlink_spec mem l1 t y l2 Hnd Hseg) as (mem1 & Hun & Hseg1 & Ht1 & L1).
  rewrite Hh. fold (unlink (hd 0 (l1 ++ t :: y :: l2)) mem t). rewrite Hun. cbn [mbind res_bind].
  destruct (seg_lookup _ _ _ _ t Hseg ltac:(set_solver)) as (Ht0 & nt & Hnt).
  assert (Permutation (l1 ++ t :: y :: l2) (t :: l1 ++ y :: l2)) as Hperm by (symmetry; apply Permutation_middle).
  rewrite Hperm in Hnd. apply list.NoDup_cons in Hnd as [Htn Hnd].
  destruct (@exists_last _ (l1 ++ y :: l2)) as (ys & z' & E); [by destruct l1|].
  assert (z' = z) as -> by (unfold z; by rewrite E, List.last_last).
  rewrite E in *. destruct (relink_back_spec mem1 ys z t nt) as (mem2 & Hre & Hseg2 & L2);
    [done|done|done|done|by rewrite Ht1|].
  apply res_bind_Ok in Hre as (m1 & -> & Hre). apply res_bind_Ok in Hre as (m2 & Hm2 & Hm3).
  cbn [mbind res_bind]. rewrite Hm2. cbn [mbind res_bind]. rewrite Hm3. cbn [mbind res_bind].
  eexists _, _. split; [done|]. replace (l1 ++ (y :: l2) ++ [t]) with ((ys ++ [z]) ++ [t]) by (rewrite <- E; by rewrite <- app_assoc).
  split.
  - split_repr; [|done|..].
    + apply list.NoDup_app. split_and!; [done|set_solver|by apply NoDup_singleton].
    + rewrite !length_app. apply (f_equal length) in E. rewrite !length_app in E. simpl in *. lia.
    + rewrite !length_app. apply (f_equal length) in E. rewrite !length_app in E. simpl in *. lia.
    + intros _. simpl. rewrite List.last_last. split; [|done]. by destruct ys.
  - eapply links_only_trans; [done|]. eapply links_only_mono; [|done].
    intros a. rewrite Hperm. set_solver.
Qed.
End lemmas.

(** ** Sequences of operations *)
Inductive list_op :=
  | InsertFront (t : Z)
  | InsertBack (t : Z)
  | RemoveFront
  | RemoveBack
  | MoveToBack (t : Z).

(** One operation of the code. *)
Definition run_op {N} `{!Linkable N} (o : list_op) (s : LinkedList * gmap Z N) : res (LinkedList * gmap Z N) :=
  let '(l, mem) := s in
  match o with
  | InsertFront t => LL.insert_front l mem t
  | InsertBack t => LL.insert_back l mem t
  | RemoveFront => '(_, l, mem) ← LL.remove_front l mem; Ok (l, mem)
  | RemoveBack => '(_, l, mem) ← LL.remove_back l mem; Ok (l, mem)
  | MoveToBack t => LL.move_to_back l mem t
  end.

(** The same operation on the abstract sequence; [None] when the caller breaks
    the operation's contract (inserting a node twice, removing from an empty
    list, moving a node that is not in the list). *)
Definition abs_op (live : gset Z) (o : list_op) (xs : list Z) : option (list Z) :=
  match o with
  | InsertFront t => if decide (t ∈ live ∧ t ∉ xs) then Some (t :: xs) else None
  | InsertBack t => if decide (t ∈ live ∧ t ∉ xs) then Some (xs ++ [t]) else None
  | RemoveFront => match xs with [] => None | _ :: xs' => Some xs' end
  | RemoveBack => match xs with [] => None | _ => Some (removelast xs) end
  | MoveToBack t => if decide (t ∈ xs) then Some (filter (.≠ t) xs ++ [t]) else None
  end.

Fixpoint run_ops {N} `{!Linkable N} (os : list list_op) (s : LinkedList * gmap Z N) : res (LinkedList * gmap Z N) :=
  match os with
  | [] => Ok s
  | o :: os => s ← run_op o s; run_ops os s
  end.

Fixpoint abs_ops (live : gset Z) (os : list list_op) (xs : list Z) : option (list Z) :=
  match os with
  | [] => Some xs
  | o :: os => xs ← abs_op live o xs; abs_ops live os xs
  end.

(** The list holds [xs]; every other live node has null links. *)
Definition list_inv {N} `{!Linkable N} (s : LinkedList * gmap Z N) (xs : list Z) : Prop :=
  LL.repr s.1 s.2 xs ∧ Z.of_nat (size (dom s.2)) < 2 ^ 63 ∧
  (∀ t, t ∈ dom s.2 → t ∉ xs → LL.unlinked s.2 t).

Section sequences.
Context {N : Type} `{!Linkable N}.

Lemma links_only_dom xs (mem mem' : gmap Z N) : LL.links_only xs mem mem' → dom mem' = dom mem.
Proof.
  intros [_ H]. apply set_eq. intros a. specialize (H a). rewrite !elem_of_dom.
  destruct (mem' !! a), (mem !! a); simpl in H; naive_solver.
Qed.

Lemma repr_in_dom l (mem : gmap Z N) xs t : LL.repr l mem xs → t ∈ xs → t ∈ dom mem.
Proof.
  intros (_ & Hs & _) Ht. destruct (seg_lookup _ _ _ _ t Hs Ht) as (_ & n & Hn).
  apply elem_of_dom. eauto.
Qed.

Lemma repr_short l (mem : gmap Z N) xs : LL.repr l mem xs → (length xs ≤ size (dom mem))%nat.
Proof.
  intros Hr. pose proof Hr as (Hnd & _). rewrite <- (size_list_to_set (C := gset Z) xs Hnd).
  apply subseteq_size. intros a Ha. apply elem_of_list_to_set in Ha. by eapply repr_in_dom.
Qed.

(** Restoring the invariant when links of [xs ∪ ys] changed. *)
Lemma list_inv_step l l' (mem mem' : gmap Z N) xs ys all :
  list_inv (l, mem) xs → LL.repr l' mem' ys → LL.links_only all mem mem' → all ⊆ xs ++ ys →
  (∀ t, t ∈ xs → t ∉ ys → LL.unlinked mem' t) → list_inv (l', mem') ys.
Proof.
  intros (Hr & Hsz & Hu) Hr' HL Hall Hrem. simpl in *. pose proof (links_only_dom _ _ _ HL) as Hdom.
  split; [done|]. simpl. rewrite Hdom. split; [done|]. intros t Ht Hty.
  destruct (decide (t ∈ xs)) as [|Htx]; [by apply Hrem|].
  destruct (Hu t Ht Htx) as (Ht0 & n & Hn & ?). split; [done|]. exists n. split; [|done].
  destruct HL as [HL _]. rewrite HL; [done|]. set_solver.
Qed.

Lemma filter_ne_middle (l1 l2 : list Z) t :
  t ∉ l1 → t ∉ l2 → filter (.≠ t) (l1 ++ t :: l2) = l1 ++ l2.
Proof.
  intros H1 H2. rewrite list.filter_app, filter_cons_False by (intros H; by apply H).
  f_equal; apply filter_all; set_solver.
Qed.

Lemma run_op_refines o s xs xs' :
  list_inv s xs → abs_op (dom s.2) o xs = Some xs' →
  ∃ s', run_op o s = Ok s' ∧ list_inv s' xs' ∧ dom s'.2 = dom s.2.
Proof.
  destruct s as [l mem]. intros Hinv. pose proof Hinv as (Hr & Hsz & Hu). simpl in *.
  pose proof (repr_short _ _ _ Hr) as Hlen. destruct o as [t|t| | |t]; simpl.
  - case_decide as Hc; [|done]. destruct Hc as [Hd Ht]. intros [= <-].
    destruct (insert_front_spec l mem xs t Hr Ht (Hu t Hd Ht)) as (l' & mem' & -> & Hr' & HL); [lia|].
    exists (l', mem'). split_and!; [done| |by eapply links_only_dom].
    eapply list_inv_step; [done|done|done|set_solver|set_solver].
  - case_decide as Hc; [|done]. destruct Hc as [Hd Ht]. intros [= <-].
    destruct (insert_back_spec l mem xs t Hr Ht (Hu t Hd Ht)) as (l' & mem' & -> & Hr' & HL); [lia|].
    exists (l', mem'). split_and!; [done| |by eapply links_only_dom].
    eapply list_inv_step; [done|done|done|set_solver|set_solver].
  - destruct xs as [|x xs]; [done|]. intros [= <-].
    destruct (remove_front_spec l mem x xs Hr) as (l' & mem' & -> & Hr' & Hun & HL).
    exists (l', mem'). split_and!; [done| |by eapply links_only_dom].
    eapply list_inv_step; [done|done|done|set_solver|]. intros t Ht Hn.
    apply elem_of_cons in Ht as [->|]; done.
  - destruct xs as [|x xs _] using rev_ind; [done|]. rewrite List.removelast_last. intros Hx.
    assert (xs' = xs) as -> by (destruct xs; naive_solver).
    destruct (remove_back_spec l mem xs x Hr) as (l' & mem' & -> & Hr' & Hun & HL).
    exists (l', mem'). split_and!; [done| |by eapply links_only_dom].
    eapply list_inv_step; [done|done|done|set_solver|]. intros t Ht Hn.
    apply elem_of_app in Ht as [|Ht]; [done|]. by apply list_elem_of_singleton in Ht as ->.
  - case_decide as Hc; [|done]. intros [= <-].
    apply list_elem_of_split in Hc as (l1 & l2 & ->).
    destruct (move_to_back_spec l mem l1 t l2 Hr) as (l' & mem' & -> & Hr' & HL).
    pose proof Hr as (Hnd & _). apply list.NoDup_app in Hnd as (_ & Hd & Hnd).
    apply list.NoDup_cons in Hnd as [Ht _].
    rewrite filter_ne_middle by set_solver. rewrite <- app_assoc.
    exists (l', mem'). split_and!; [done| |by eapply links_only_dom].
    eapply list_inv_step; [done|done|done|set_solver|set_solver].
Qed.

(** C7: the intrusive list is a sequence.  For every sequence of operations
    that respects the callers' contract on the abstract sequence of nodes, the
    pointer code runs without a failed assertion, an overflow or a dangling
    access, and ends in a list that represents the abstract result. *)
Theorem linked_list_refines_sequence (os : list list_op) (s : LinkedList * gmap Z N) (xs xs' : list Z) :
  list_inv s xs → abs_ops (dom s.2) os xs = Some xs' →
  ∃ s', run_ops os s = Ok s' ∧ list_inv s' xs'.
Proof.
  revert s xs. induction os as [|o os IH]; intros s xs Hinv; cbn [abs_ops run_ops].
  - intros [= ->]. eauto.
  - intros Ha. apply bind_Some in Ha as (ys & Ho & Ha).
    destruct (run_op_refines o s xs ys Hinv Ho) as (s1 & -> & Hinv1 & Hd). cbn [mbind res_bind].
    apply (IH s1 ys Hinv1). by rewrite Hd.
Qed.
End sequences.

(** A node that is nothing but its two links. *)
#[export] Instance pair_linkable : Linkable (Z * Z).
Proof.
  refine {| lk_next := fst; lk_prev := snd; set_next n p := (p, n.2); set_prev n p := (n.1, p);
            Payload := unit; lk_payload _ := tt |}; done.
Defined.

Lemma linked_list_refines_sequence_witness :
  let mem : gmap Z (Z * Z) := {[8 := (0, 0); 16 := (0, 0); 24 := (0, 0)]} in
  let os := [InsertBack 8; InsertBack 16; InsertFront 24; MoveToBack 24; RemoveFront] in
  ∃ s', run_ops os (LL.new, mem) = Ok s' ∧ list_inv s' [16; 24].
Proof.
  intros mem os.
  apply (linked_list_refines_sequence os (LL.new, mem) [] [16; 24]); [|vm_compute; reflexivity].
  split; [|split].
  - refine (conj _ (conj _ (conj _ (conj _ _)))); [constructor|done..].
  - vm_compute. reflexivity.
  - intros t Ht _. assert (t ∈ [8; 16; 24]) as Ht'.
    { apply elem_of_dom in Ht as [n Hn]. unfold mem in Hn. simpl in Hn.
      rewrite !lookup_insert in Hn. repeat case_decide; try set_solver.
      rewrite lookup_singleton in Hn. case_decide; [set_solver|done]. }
    repeat (apply elem_of_cons in Ht' as [->|Ht']; [split; [done|]; by eexists|]). set_solver.
Defined.
