(* ===== verification/PtrMap.v ===== *)
(** * The pointer hash map of the large slab allocator

    Models [src/slab-alloc/src/ptr_map.rs]: [Bucket] (a chain of four-slot
    blocks) and [PtrHashMap] (a power-of-two vector of chains that doubles when
    it holds as many keys as chains and halves when it holds half as many).
    Pointers are addresses; 0 is the null pointer, the key of an empty slot.
    The raw cursors that [grow] keeps into a chain are a block's depth and a
    slot index.  Growing and shrinking are on and coalescing on deletion is on,
    the default features of the crate. *)

From Stdlib Require Import ZArith Lia.
From S2P Require Import Prelude.
From stdpp Require Import base numbers list gmap option.

Open Scope Z_scope.

Definition BUCKET_SIZE : Z := 4.

(** A slot: key and value pointer. *)
Abbreviation slot := (Z * Z)%type.
Definition null_slot : slot := (0, 0).

Inductive Bucket := mkBucket (data : list slot) (next : option Bucket).

Module Bkt.
Definition data (b : Bucket) : list slot := let 'mkBucket d _ := b in d.
Definition next (b : Bucket) : option Bucket := let 'mkBucket _ n := b in n.

Definition new_buckets : list slot := replicate 4 null_slot.

Definition default : Bucket := mkBucket new_buckets None.

(** [Bucket::dump]. *)
Fixpoint dump (b : Bucket) : list slot :=
  let 'mkBucket d n := b in
  filter (fun kv => kv.1 ≠ 0) d ++ match n with Some n => dump n | None => [] end.

(** The [for] loop of [Bucket::get] over one block. *)
Fixpoint scan_get (d : list slot) (ptr : Z) : option Z :=
  match d with
  | [] => None
  | i :: d => if ptr =? i.1 then Some i.2 else scan_get d ptr
  end.

Fixpoint get (b : Bucket) (ptr : Z) : res Z :=
  let 'mkBucket d n := b in
  match scan_get d ptr with
  | Some v => Ok v
  | None => match n with Some n => get n ptr | None => Fault UnwrapNone end
  end.

(** The [for] loop of [Bucket::insert] over one block: the block with the pair
    in its first empty slot, or [None] when the block is full. *)
Fixpoint scan_insert (d : list slot) (ptr v : Z) : res (option (list slot)) :=
  match d with
  | [] => Ok None
  | cur :: d =>
      _ ← rassert (negb (ptr =? cur.1));
      if cur.1 =? 0 then Ok (Some ((ptr, v) :: d))
      else r ← scan_insert d ptr v; Ok (option_map (cons cur) r)
  end.

Fixpoint insert (b : Bucket) (ptr v : Z) : res Bucket :=
  let 'mkBucket d n := b in
  r ← scan_insert d ptr v;
  match r with
  | Some d' => Ok (mkBucket d' n)
  | None =>
      match n with
      | Some n => n' ← insert n ptr v; Ok (mkBucket d (Some n'))
      | None => Ok (mkBucket d (Some (mkBucket (<[0%nat:=(ptr, v)]> new_buckets) None)))
      end
  end.

(** [Bucket::remove_last]: the removed pair, whether the block is now empty,
    and the chain afterwards.  The search runs over [BUCKET_SIZE..idx], as
    written. *)
Fixpoint remove_last (b : Bucket) (idx : Z) : res (slot * bool * Bucket) :=
  let 'mkBucket d n := b in
  '(last, last_idx) ← rfold (fun acc i =>
      kv ← deref (d !! Z.to_nat i);
      Ok (if negb (kv.1 =? 0) then (kv, Some i) else acc))
    (zrange BUCKET_SIZE idx) (null_slot, None);
  match last_idx with
  | Some last_idx =>
      match n with
      | Some nx =>
          '(kv, remove, nx') ← remove_last nx 0;
          Ok (kv, false, mkBucket d (if (remove : bool) then None else Some nx'))
      | None => Ok (last, last_idx =? 0, mkBucket (<[Z.to_nat last_idx:=null_slot]> d) None)
      end
  | None => _ ← rassert (0 <? idx); Ok (null_slot, false, b)
  end.

(** The [for] loop of [Bucket::delete]: index of the key in the block. *)
Fixpoint find_key (d : list slot) (ptr : Z) : option nat :=
  match d with
  | [] => None
  | i :: d => if i.1 =? ptr then Some 0%nat else S <$> find_key d ptr
  end.

Fixpoint delete (b : Bucket) (ptr : Z) : res Bucket :=
  let 'mkBucket d n := b in
  match find_key d ptr with
  | Some i =>
      '(new, _, b') ← remove_last b (Z.of_nat i + 1);
      Ok (mkBucket (<[i:=new]> (data b')) (next b'))
  | None => match n with Some n => n' ← delete n ptr; Ok (mkBucket d (Some n')) | None => Fault UnwrapNone end
  end.

(** Raw access to the block at depth [d] of a chain. *)
Fixpoint chain_at (b : Bucket) (d : nat) : option Bucket :=
  match d with
  | O => Some b
  | S d => match next b with Some n => chain_at n d | None => None end
  end.

Definition read_slot (b : Bucket) (d j : nat) : res slot :=
  c ← deref (chain_at b d); deref (data c !! j).

Fixpoint write_slot (b : Bucket) (d j : nat) (kv : slot) : res Bucket :=
  match d with
  | O => _ ← deref (data b !! j); Ok (mkBucket (<[j:=kv]> (data b)) (next b))
  | S d => n ← deref (next b); n' ← write_slot n d j kv; Ok (mkBucket (data b) (Some n'))
  end.

(** Number of blocks of a chain; bounds the loops along it. *)
Fixpoint chain_len (b : Bucket) : nat :=
  let 'mkBucket _ n := b in S match n with Some n => chain_len n | None => 0%nat end.
End Bkt.

Record PtrHashMap := mkMap { vec : list Bucket; size : Z; align_shift : Z }.

Module PM.
(** [PtrHashMap::new]; [key_align] is [align_of::<K>()]. *)
Definition new (key_align size align : Z) : res PtrHashMap :=
  _ ← rassert (key_align <=? align);
  size ← next_power_of_two size;
  Ok (mkMap (replicate (Z.to_nat size) Bkt.default) 0 (trailing_zeros align)).

Definition dump_by_bucket (m : PtrHashMap) : list (list slot) := Bkt.dump <$> vec m.

Definition len (v : list Bucket) : Z := Z.of_nat (length v).

Definition hash_with_len (shift ptr len : Z) : res Z :=
  n ← usub len 1; Ok (Z.land (Z.shiftr ptr shift) n).

Definition hash (m : PtrHashMap) (ptr : Z) : res Z := hash_with_len (align_shift m) ptr (len (vec m)).

Definition get_bucket (m : PtrHashMap) (ptr : Z) : res Bucket :=
  h ← hash m ptr; deref (vec m !! Z.to_nat h).

Definition get (m : PtrHashMap) (ptr : Z) : res Z :=
  b ← get_bucket m ptr; Bkt.get b ptr.

(** A cursor to the first free slot of a chain; [None] is the null sentinel. *)
Abbreviation cursor := (option (nat * nat)).

(** [update_first_free!]. *)
Definition update_first_free (ff : cursor) (d j : nat) : cursor :=
  match ff with None => Some (d, j) | Some _ => ff end.

(** The inner [while]: advance a cursor to the next empty slot. *)
Fixpoint next_free (fuel : nat) (b : Bucket) (d j : nat) : res (nat * nat) :=
  match fuel with
  | O => Fault NoFuel
  | S fuel =>
      kv ← Bkt.read_slot b d j;
      if kv.1 =? 0 then Ok (d, j)
      else if (j =? 3)%nat then
        match Bkt.chain_at b (S d) with
        | Some _ => next_free fuel b (S d) 0
        | None => Fault UnwrapNone
        end
      else next_free fuel b d (S j)
  end.

(** One iteration of [for j in 0..BUCKET_SIZE] of [grow], in block [d] of
    chain [i]. *)
Definition grow_slot (shift old_len i : Z) (d : nat) (st : list Bucket * cursor) (j : nat) :
    res (list Bucket * cursor) :=
  let '(v, ff) := st in
  cur ← deref (v !! Z.to_nat i);
  '(ptr, val) ← Bkt.read_slot cur d j;
  if ptr =? 0 then Ok (v, update_first_free ff d j)
  else if negb (Z.land (Z.shiftr ptr shift) old_len =? 0) then
    cur ← Bkt.write_slot cur d j null_slot;
    let v := <[Z.to_nat i:=cur]> v in
    let ff := update_first_free ff d j in
    new_idx ← uadd i old_len;
    h ← hash_with_len shift ptr (len v);
    _ ← rassert (h =? new_idx);
    new_bkt ← deref (v !! Z.to_nat new_idx);
    new_bkt ← Bkt.insert new_bkt ptr val;
    Ok (<[Z.to_nat new_idx:=new_bkt]> v, ff)
  else
    h ← hash_with_len shift ptr (len v);
    _ ← rassert (h =? i);
    match ff with
    | None => Ok (v, None)
    | Some (fd, fj) =>
        cur ← Bkt.write_slot cur d j null_slot;
        cur ← Bkt.write_slot cur fd fj (ptr, val);
        ff ← next_free (4 * Bkt.chain_len cur) cur fd fj;
        Ok (<[Z.to_nat i:=cur]> v, Some ff)
    end.

(** [while !cur_bkt.is_null()] of [grow]. *)
Fixpoint grow_chain (fuel : nat) (shift old_len i : Z) (d : nat) (st : list Bucket * cursor) :
    res (list Bucket * cursor) :=
  match fuel with
  | O => Fault NoFuel
  | S fuel =>
      st ← rfold (grow_slot shift old_len i d) (seq 0 4) st;
      cur ← deref (st.1 !! Z.to_nat i);
      match Bkt.chain_at cur (S d) with
      | None => Ok st
      | Some _ => grow_chain fuel shift old_len i (S d) st
      end
  end.

Definition grow_bucket (shift old_len : Z) (v : list Bucket) (i : Z) : res (list Bucket) :=
  b ← deref (v !! Z.to_nat i);
  st ← grow_chain (Bkt.chain_len b) shift old_len i 0 (v, None);
  Ok st.1.

Definition grow (m : PtrHashMap) : res PtrHashMap :=
  let old_len := len (vec m) in
  new_len ← umul old_len 2;
  _ ← rassert (is_power_of_two new_len);
  let v := vec m ++ replicate (Z.to_nat (new_len - old_len)) Bkt.default in
  _ ← rassert (len v =? new_len);
  v ← rfold (grow_bucket (align_shift m) old_len) (zrange 0 old_len) v;
  Ok (mkMap v (size m) (align_shift m)).

(** [for j in 0..BUCKET_SIZE] of [shrink]. *)
Definition shrink_slot (new_len i : Z) (d : nat) (v : list Bucket) (j : nat) : res (list Bucket) :=
  cur ← deref (v !! Z.to_nat i);
  '(ptr, val) ← Bkt.read_slot cur d j;
  if negb (ptr =? 0) then
    new_idx ← usub i new_len;
    new_bkt ← deref (v !! Z.to_nat new_idx);
    new_bkt ← Bkt.insert new_bkt ptr val;
    Ok (<[Z.to_nat new_idx:=new_bkt]> v)
  else Ok v.

Fixpoint shrink_chain (fuel : nat) (new_len i : Z) (d : nat) (v : list Bucket) : res (list Bucket) :=
  match fuel with
  | O => Fault NoFuel
  | S fuel =>
      v ← rfold (shrink_slot new_len i d) (seq 0 4) v;
      cur ← deref (v !! Z.to_nat i);
      match Bkt.chain_at cur (S d) with
      | None => Ok v
      | Some _ => shrink_chain fuel new_len i (S d) v
      end
  end.

Definition shrink_bucket (new_len : Z) (v : list Bucket) (i : Z) : res (list Bucket) :=
  b ← deref (v !! Z.to_nat i);
  shrink_chain (Bkt.chain_len b) new_len i 0 v.

Definition shrink (m : PtrHashMap) : res PtrHashMap :=
  let old_len := len (vec m) in
  let new_len := old_len / 2 in
  v ← rfold (shrink_bucket new_len) (zrange new_len old_len) (vec m);
  Ok (mkMap (take (Z.to_nat new_len) v) (size m) (align_shift m)).

Definition insert (m : PtrHashMap) (ptr v : Z) : res PtrHashMap :=
  _ ← rassert (negb (ptr =? 0));
  m ← (if size m =? len (vec m) then grow m else Ok m);
  h ← hash m ptr;
  bkt ← deref (vec m !! Z.to_nat h);
  bkt ← Bkt.insert bkt ptr v;
  sz ← uadd (size m) 1;
  Ok (mkMap (<[Z.to_nat h:=bkt]> (vec m)) sz (align_shift m)).

Definition delete (m : PtrHashMap) (ptr : Z) : res PtrHashMap :=
  _ ← rassert (negb (ptr =? 0));
  m ← (if size m =? len (vec m) / 2 then shrink m else Ok m);
  h ← hash m ptr;
  bkt ← deref (vec m !! Z.to_nat h);
  bkt ← Bkt.delete bkt ptr;
  sz ← usub (size m) 1;
  Ok (mkMap (<[Z.to_nat h:=bkt]> (vec m)) sz (align_shift m)).
End PM.

(** ** The flat view of a chain *)
Fixpoint slots (b : Bucket) : list slot :=
  let 'mkBucket d n := b in d ++ match n with Some n => slots n | None => [] end.

(** Every block has four slots, and empty slots are null pairs. *)
Fixpoint wfb (b : Bucket) : Prop :=
  let 'mkBucket d n := b in
  length d = 4%nat ∧ (∀ kv, kv ∈ d → kv.1 = 0 → kv = null_slot) ∧
  match n with Some n => wfb n | None => True end.

(** All full slots come before all empty ones. *)
Definition coalesced (b : Bucket) : Prop := ∃ n, slots b = Bkt.dump b ++ replicate n null_slot.

Definition full (kv : slot) : Prop := kv.1 ≠ 0.
#[export] Instance full_dec kv : Decision (full kv).
Proof. unfold full. solve_decision. Defined.

(** Induction along a chain. *)
Lemma Bucket_chain_ind (P : Bucket → Prop) :
  (∀ d, P (mkBucket d None)) → (∀ d n, P n → P (mkBucket d (Some n))) → ∀ b, P b.
Proof. intros H0 H1. fix IH 1. intros [d [n|]]; [apply H1, IH|apply H0]. Qed.

Lemma dump_slots b : Bkt.dump b = filter full (slots b).
Proof.
  induction b as [d|d n IH] using Bucket_chain_ind; simpl; rewrite list.filter_app; [done|]. by rewrite IH.
Qed.

Lemma length_slots b : wfb b → length (slots b) = (4 * Bkt.chain_len b)%nat.
Proof.
  induction b as [d|d n IH] using Bucket_chain_ind; simpl; rewrite length_app; intros (-> & _ & H); simpl; [done|].
  rewrite IH by done. lia.
Qed.

Lemma slots_null b kv : wfb b → kv ∈ slots b → kv.1 = 0 → kv = null_slot.
Proof.
  induction b as [d|d n IH] using Bucket_chain_ind; simpl; intros (_ & Hd & Hn) [?|?]%elem_of_app ?; naive_solver set_solver.
Qed.

Lemma filter_full_null n : filter full (replicate n null_slot) = [].
Proof. apply filter_none. intros x [-> _]%elem_of_replicate H. by apply H. Qed.

(** *** Reading and writing through cursors *)
Lemma chain_at_Some b d : is_Some (Bkt.chain_at b d) ↔ (d < Bkt.chain_len b)%nat.
Proof.
  revert b. induction d as [|d IH]; intros [dd [n|]]; simpl.
  - split; [lia|eauto].
  - split; [lia|eauto].
  - rewrite IH. lia.
  - split; [intros [? [=]]|lia].
Qed.

Lemma read_slot_spec b d j : wfb b → (j < 4)%nat → (d < Bkt.chain_len b)%nat →
  ∃ kv, Bkt.read_slot b d j = Ok kv ∧ slots b !! (4 * d + j)%nat = Some kv.
Proof.
  unfold Bkt.read_slot. revert b. induction d as [|d IH]; intros [dd [n|]] (Hl & _ & Hn) Hj Hd; simpl in *; try lia.
  - destruct (lookup_lt_is_Some_2 dd j) as [kv Hkv]; [lia|]. rewrite Hkv. exists kv. split; [done|]. by apply lookup_app_l_Some.
  - destruct (lookup_lt_is_Some_2 dd j) as [kv Hkv]; [lia|]. rewrite Hkv. exists kv. split; [done|]. by apply lookup_app_l_Some.
  - destruct (IH n Hn Hj ltac:(lia)) as (kv & H1 & H2). exists kv. split; [done|].
    rewrite lookup_app_r by lia. rewrite <- H2. f_equal. lia.
Qed.

Lemma write_slot_spec b d j kv : wfb b → (j < 4)%nat → (d < Bkt.chain_len b)%nat → (kv.1 = 0 → kv = null_slot) →
  ∃ b', Bkt.write_slot b d j kv = Ok b' ∧ wfb b' ∧ slots b' = <[(4 * d + j)%nat := kv]> (slots b) ∧
    Bkt.chain_len b' = Bkt.chain_len b.
Proof.
  intros Hw Hj Hd Hkv. revert b Hw Hd. induction d as [|d IH]; intros [dd n] (Hl & Hz & Hn) Hd.
  - simpl in *. destruct (lookup_lt_is_Some_2 dd j) as [kv' Hkv']; [lia|]. rewrite Hkv'. eexists. split; [done|].
    simpl. rewrite length_insert, insert_app_l by lia. split_and!; try done.
    intros x Hx ?. apply list_elem_of_lookup in Hx as [i Hi]. apply list_lookup_insert_Some in Hi as [(_ & <- & _)|[_ Hi]]; [auto|].
    apply list_elem_of_lookup_2 in Hi. auto.
  - destruct n as [n|]; simpl in *; [|lia]. destruct (IH n Hn ltac:(lia)) as (n' & -> & Hw' & Hs' & Hc').
    eexists. split; [done|]. simpl. rewrite Hc', Hs', insert_app_r_alt by lia. split_and!; try done. do 2 f_equal. lia.
Qed.

(** *** Bucket operations on the flat view *)
Lemma scan_insert_spec d ptr v : ptr ∉ d.*1 → ptr ≠ 0 →
  (∃ pre post w, d = pre ++ (0, w) :: post ∧ Forall full pre ∧
    Bkt.scan_insert d ptr v = Ok (Some (pre ++ (ptr, v) :: post))) ∨
  (Forall full d ∧ Bkt.scan_insert d ptr v = Ok None).
Proof.
  intros Hn H0. induction d as [|[k w] d IH]; simpl in *; [right; eauto|].
  apply not_elem_of_cons in Hn as [Hk Hn]. rewrite rassert_true by (apply negb_true_iff, Z.eqb_neq; done).
  cbn [mbind res_bind]. destruct (Z.eqb_spec k 0) as [->|Hk0].
  - left. exists [], d, w. eauto.
  - destruct (IH Hn) as [(pre & post & w' & -> & Hf & ->)|[Hf ->]]; cbn [mbind res_bind]; simpl.
    + left. exists ((k, w) :: pre), post, w'. split_and!; [done|by constructor|done].
    + right. split; [by constructor|done].
Qed.

Lemma null_cond_replace (pre post : list slot) x y :
  (∀ kv, kv ∈ pre ++ x :: post → kv.1 = 0 → kv = null_slot) → (y.1 = 0 → y = null_slot) →
  ∀ kv, kv ∈ pre ++ y :: post → kv.1 = 0 → kv = null_slot.
Proof. intros H Hy kv Hkv. rewrite elem_of_app, elem_of_cons in Hkv. destruct Hkv as [?|[->|?]]; [apply H|done|apply H];
  rewrite elem_of_app, elem_of_cons; auto. Qed.

(** [Bucket::insert] fills the first empty slot, or appends a block. *)
Definition inserted (b b' : Bucket) (kv : slot) : Prop :=
  (∃ pre post, slots b = pre ++ null_slot :: post ∧ Forall full pre ∧ slots b' = pre ++ kv :: post) ∨
  (Forall full (slots b) ∧ slots b' = slots b ++ kv :: replicate 3 null_slot).

Lemma insert_spec b ptr v : wfb b → ptr ∉ (Bkt.dump b).*1 → ptr ≠ 0 →
  ∃ b', Bkt.insert b ptr v = Ok b' ∧ wfb b' ∧ inserted b b' (ptr, v).
Proof.
  intros Hw Hn H0. assert (Hns : ptr ∉ (slots b).*1).
  { rewrite dump_slots in Hn. intros (kv & -> & Hin)%list_elem_of_fmap. apply Hn.
    apply list_elem_of_fmap. exists kv. split; [done|]. by apply list_elem_of_filter. }
  clear Hn. revert Hw Hns. induction b as [d|d n IH] using Bucket_chain_ind; simpl; intros (Hl & Hz & Hn) Hns;
    rewrite fmap_app, not_elem_of_app in Hns; destruct Hns as [Hd Hns];
    destruct (scan_insert_spec d ptr v Hd H0) as [(pre & post & w & -> & Hf & ->)|[Hf ->]]; cbn [mbind res_bind].
  1, 3: assert ((0, w) = null_slot) as [= ->] by (apply Hz; [set_solver|done]); eexists; split; [done|]; split;
    [simpl; rewrite length_app in *; split_and!; [done|by eapply null_cond_replace|done]
    |left; simpl; eexists pre, _; rewrite <- !app_assoc; split_and!; [done|done|done]].
  - eexists. split; [done|]. split.
    + simpl. split_and!; [done|done|done| |done]. set_solver.
    + right. simpl. by rewrite app_nil_r.
  - destruct (IH Hn Hns) as (n' & -> & Hw' & Hi). eexists. split; [done|]. split; [done|].
    destruct Hi as [(pre & post & E & Hp & E')|[Hp E']].
    + left. exists (d ++ pre), post. simpl. rewrite E, E', <- !app_assoc. split_and!; [done| |done]. by apply Forall_app.
    + right. simpl. rewrite E', <- app_assoc. split; [|done]. by apply Forall_app.
Qed.

Lemma filter_Forall_full l : Forall full l → filter full l = l.
Proof. intros H. apply filter_all. by apply list.Forall_forall. Qed.

Lemma inserted_dump b b' kv : inserted b b' kv → full kv → Bkt.dump b' ≡ₚ kv :: Bkt.dump b.
Proof.
  intros [(pre & post & E & Hp & E')|[Hp E']] Hk; rewrite !dump_slots, E'.
  - rewrite E, !list.filter_app, filter_cons_True, (filter_cons_False _ null_slot) by (done || (intros H; by apply H)).
    by rewrite Permutation_middle.
  - rewrite list.filter_app, filter_cons_True, (filter_full_null 3), <- Permutation_cons_append by done. done.
Qed.

Lemma inserted_coalesced b b' kv : inserted b b' kv → full kv → coalesced b →
  Bkt.dump b' = Bkt.dump b ++ [kv] ∧ coalesced b'.
Proof.
  intros Hi Hk [n Hc]. unfold coalesced.
  assert (∃ m, slots b' = Bkt.dump b ++ kv :: replicate m null_slot) as [m E'].
  { destruct Hi as [(pre & post & E & Hp & E')|[Hp E']].
    - assert (Bkt.dump b = pre ∧ ∃ m, post = replicate m null_slot) as [<- [m ->]]; [|eauto].
      rewrite Hc in E. assert (Hfd : Forall full (Bkt.dump b)).
      { rewrite dump_slots. apply list.Forall_forall. by intros x [? _]%list_elem_of_filter. }
      clear Hc E'. revert pre Hp E. induction (Bkt.dump b) as [|x l IH]; intros [|y pre] Hp E; simpl in E.
      + destruct n as [|n]; [done|]. simpl in E. simplify_eq. eauto.
      + destruct n as [|n]; [done|]. simpl in E. simplify_eq. apply list.Forall_cons in Hp as [Hp _]. by destruct Hp.
      + simplify_eq. apply list.Forall_cons in Hfd as [Hx _]. by destruct Hx.
      + simplify_eq. apply list.Forall_cons in Hfd as [_ Hfd]. apply list.Forall_cons in Hp as [_ Hp].
        destruct (IH Hfd pre Hp) as [-> ?]; done.
    - rewrite E'. exists 3%nat. by rewrite dump_slots, (filter_Forall_full _ Hp). }
  assert (Bkt.dump b' = Bkt.dump b ++ [kv]) as ->.
  { rewrite (dump_slots b'), E', list.filter_app, filter_cons_True, filter_full_null by done.
    by rewrite (dump_slots b), list_filter_filter_l. }
  split; [done|]. exists m. by rewrite E', <- app_assoc.
Qed.

Lemma find_key_spec d ptr :
  (∃ pre v post, d = pre ++ (ptr, v) :: post ∧ (ptr ∉ pre.*1) ∧ Bkt.find_key d ptr = Some (length pre)) ∨
  ((ptr ∉ d.*1) ∧ Bkt.find_key d ptr = None).
Proof.
  induction d as [|[k w] d IH]; simpl; [right; split; [set_solver|done]|].
  destruct (Z.eqb_spec k ptr) as [->|Hk].
  - left. exists [], w, d. split_and!; [done|set_solver|done].
  - destruct IH as [(pre & v & post & -> & Hp & ->)|[Hp ->]].
    + left. exists ((k, w) :: pre), v, post. split_and!; [done|set_solver|done].
    + right. split; [set_solver|done].
Qed.

(** The search range of [remove_last] is empty, so it removes nothing. *)
Lemma remove_last_nop b idx : 0 < idx ≤ 4 → Bkt.remove_last b idx = Ok (null_slot, false, b).
Proof.
  intros H. destruct b as [d n]; cbn [Bkt.remove_last]. rewrite zrange_nil by (unfold BUCKET_SIZE; lia).
  cbn. by rewrite rassert_true by (apply Z.ltb_lt; lia).
Qed.

Lemma delete_spec b ptr : wfb b → ptr ∈ (slots b).*1 →
  ∃ b' pre v post, Bkt.delete b ptr = Ok b' ∧ wfb b' ∧ slots b = pre ++ (ptr, v) :: post ∧ (ptr ∉ pre.*1) ∧
    slots b' = pre ++ null_slot :: post.
Proof.
  induction b as [d|d n IH] using Bucket_chain_ind; intros (Hl & Hz & Hn) Hin; cbn [slots] in Hin;
    rewrite fmap_app, elem_of_app in Hin; cbn [Bkt.delete];
    destruct (find_key_spec d ptr) as [(pre & v & post & -> & Hp & ->)|[Hp ->]].
  1, 3: rewrite length_app in Hl; cbn [length] in Hl; rewrite remove_last_nop by lia; cbn [mbind res_bind];
    eexists; eexists pre, v, _; cbn [Bkt.data Bkt.next slots]; split; [done|]; rewrite (insert_app_r_alt _ _ (length pre)) by lia;
    rewrite Nat.sub_diag; simpl; rewrite length_app; cbn [length]; rewrite <- !app_assoc;
    (split; [split_and!; [lia|by eapply null_cond_replace|done]|done]).
  - set_solver.
  - destruct Hin as [?|Hin]; [done|]. destruct (IH Hn Hin) as (n' & pre & v & post & -> & Hw & E & Hp' & E').
    eexists _, (d ++ pre), v, post. split; [done|]. simpl. rewrite E, E', <- !app_assoc. split_and!; try done.
    rewrite fmap_app. set_solver.
Qed.

Lemma get_spec b ptr v : ptr ≠ 0 → (∀ w, (ptr, w) ∈ Bkt.dump b → w = v) → (ptr, v) ∈ Bkt.dump b → Bkt.get b ptr = Ok v.
Proof.
  intros H0. assert (Hscan : ∀ d, (∃ w, Bkt.scan_get d ptr = Some w ∧ (ptr, w) ∈ filter full d) ∨
    (Bkt.scan_get d ptr = None ∧ ∀ w, (ptr, w) ∉ filter full d)).
  { intros d. induction d as [|[k w] d IH]; [right; set_solver|]. cbn [Bkt.scan_get fst snd]. destruct (Z.eqb_spec ptr k) as [<-|Hk].
    - left. exists w. rewrite filter_cons_True by done. set_solver.
    - destruct IH as [(w' & -> & Hw)|[-> Hw]].
      + left. exists w'. split; [done|]. rewrite list_elem_of_filter in *. set_solver.
      + right. split; [done|]. intros w'. specialize (Hw w'). rewrite list_elem_of_filter in *. set_solver. }
  induction b as [d|d n IH] using Bucket_chain_ind; simpl; intros Hu Hin;
    change (λ kv : Z * Z, kv.1 ≠ 0) with full in *;
    destruct (Hscan d) as [(w & -> & Hw)|[-> Hw]].
  - f_equal. apply Hu. set_solver.
  - exfalso. apply (Hw v). set_solver.
  - f_equal. apply Hu. set_solver.
  - apply IH; [intros w ?; apply Hu; set_solver|]. specialize (Hw v). set_solver.
Qed.

(** ** Hashing *)
Definition hashZ (shift k ptr : Z) : Z := Z.shiftr ptr shift mod 2 ^ k.

Lemma hash_with_len_spec shift k ptr : 0 ≤ k → PM.hash_with_len shift ptr (2 ^ k) = Ok (hashZ shift k ptr).
Proof.
  intros Hk. unfold PM.hash_with_len. pose proof (pow2_pos k Hk). rewrite usub_Ok by lia. cbn [mbind res_bind].
  by rewrite land_pow2_pred.
Qed.

Lemma hashZ_bound shift k ptr : 0 ≤ k → 0 ≤ hashZ shift k ptr < 2 ^ k.
Proof. intros. apply Z.mod_pos_bound. by apply pow2_pos. Qed.

(** The bit that doubling the table adds to the hash. *)
Definition moves (shift k : Z) (kv : slot) : bool := negb (Z.land (Z.shiftr kv.1 shift) (2 ^ k) =? 0).

Lemma land_pow2_bit x k : 0 ≤ k → (Z.land x (2 ^ k) =? 0) = negb (Z.testbit x k).
Proof.
  intros Hk. destruct (Z.testbit x k) eqn:E; simpl.
  - apply Z.eqb_neq. intros H. assert (Z.testbit (Z.land x (2 ^ k)) k = true) as Hb.
    { rewrite Z.land_spec, E, Z.pow2_bits_true by done. done. }
    by rewrite H, Z.bits_0 in Hb.
  - apply Z.eqb_eq, Z.bits_inj'. intros n Hn. rewrite Z.land_spec, Z.bits_0, Z.pow2_bits_eqb by done.
    destruct (Z.eqb_spec k n) as [<-|]; [by rewrite E|apply andb_false_r].
Qed.

Lemma hashZ_succ shift k kv : 0 ≤ k →
  hashZ shift (k + 1) kv.1 = hashZ shift k kv.1 + (if moves shift k kv then 2 ^ k else 0).
Proof.
  intros Hk. unfold hashZ, moves. set (x := Z.shiftr kv.1 shift). rewrite land_pow2_bit by done.
  rewrite negb_involutive. rewrite Z.pow_add_r, Z.rem_mul_r by (pose proof (pow2_pos k Hk); lia).
  pose proof (Z.testbit_spec' x k Hk) as Hb. change (2 ^ 1) with 2. rewrite <- Hb.
  destruct (Z.testbit x k); simpl; lia.
Qed.

(** ** Growing one chain *)
Section grow_chain.
Context (shift k i : Z) (Hk : 0 ≤ k) (Hi : 0 ≤ i < 2 ^ k) (Hkb : k ≤ 61).
Context (orig : list slot).
Context (Hnull : ∀ kv, kv ∈ orig → kv.1 = 0 → kv = null_slot).
Context (Hhash : ∀ kv, kv ∈ orig → full kv → hashZ shift k kv.1 = i).
Context (Hnd : NoDup (filter full orig).*1).

Definition stay (kv : slot) : Prop := full kv ∧ moves shift k kv = false.
Definition go (kv : slot) : Prop := full kv ∧ moves shift k kv = true.
#[local] Instance stay_dec kv : Decision (stay kv).
Proof. unfold stay. apply _. Defined.
#[local] Instance go_dec kv : Decision (go kv).
Proof. unfold go. apply _. Defined.

(** After [n] slots: the kept ones at the front, then empties, then the rest. *)
Definition kept (n : nat) : list slot := filter stay (take n orig).
Definition front (n : nat) : list slot :=
  kept n ++ replicate (n - length (kept n)) null_slot ++ drop n orig.
Definition free_cursor (n : nat) : PM.cursor :=
  if decide (length (kept n) = n) then None else Some (length (kept n) `div` 4, length (kept n) `mod` 4)%nat.

(** The state of the loop after [n] slots of chain [i], where [v0] is the
    vector at the start. *)
Definition grow_inv (v0 : list Bucket) (n : nat) (st : list Bucket * PM.cursor) : Prop :=
  ∃ b nb, st.1 !! Z.to_nat i = Some b ∧ st.1 !! Z.to_nat (i + 2 ^ k) = Some nb ∧
    PM.len st.1 = 2 ^ (k + 1) ∧
    (∀ j, j ≠ Z.to_nat i → j ≠ Z.to_nat (i + 2 ^ k) → st.1 !! j = v0 !! j) ∧
    wfb b ∧ slots b = front n ∧ st.2 = free_cursor n ∧
    wfb nb ∧ Bkt.dump nb = filter go (take n orig) ∧ coalesced nb.

Lemma kept_le n : (length (kept n) ≤ n)%nat.
Proof. unfold kept. rewrite length_filter, length_take. lia. Qed.

Lemma kept_S n kv : orig !! n = Some kv →
  kept (S n) = kept n ++ (if decide (stay kv) then [kv] else []).
Proof.
  intros H. unfold kept. rewrite (take_S_r _ _ _ H), list.filter_app. done.
Qed.

Lemma front_lookup n kv : orig !! n = Some kv → front n !! n = Some kv.
Proof.
  intros H. unfold front. pose proof (kept_le n). rewrite lookup_app_r by lia.
  rewrite lookup_app_r by (rewrite length_replicate; lia).
  rewrite length_replicate, lookup_drop. rewrite <- H. f_equal. lia.
Qed.

Lemma front_drop_S n kv : orig !! n = Some kv →
  front n = kept n ++ replicate (n - length (kept n)) null_slot ++ kv :: drop (S n) orig.
Proof. intros H. unfold front. by rewrite (drop_S _ _ _ H). Qed.

(** A slot that does not stay leaves an empty one behind. *)
Lemma front_S_gone n kv : orig !! n = Some kv → ¬ stay kv → front (S n) = <[n:=null_slot]> (front n).
Proof.
  intros H Hs. pose proof (kept_le n). rewrite (front_drop_S n kv H). unfold front.
  rewrite (kept_S n kv H), decide_False, app_nil_r by done.
  rewrite insert_app_r_alt by lia. f_equal.
  rewrite insert_app_r_alt by (rewrite length_replicate; lia). rewrite length_replicate, Nat.sub_diag. simpl.
  replace (S n - length (kept n))%nat with (n - length (kept n) + 1)%nat by lia.
  by rewrite replicate_add, <- app_assoc.
Qed.

(** A slot that stays moves to the first empty slot. *)
Lemma front_S_stay n kv : orig !! n = Some kv → stay kv →
  front (S n) = <[length (kept n):=kv]> (<[n:=null_slot]> (front n)).
Proof.
  intros H Hs. pose proof (kept_le n). rewrite (front_drop_S n kv H). unfold front.
  rewrite (kept_S n kv H), decide_True by done. rewrite length_app. cbn [length].
  rewrite insert_app_r_alt by lia. rewrite (insert_app_r_alt (kept n)) by lia. rewrite Nat.sub_diag, <- app_assoc. f_equal.
  rewrite (insert_app_r_alt (replicate _ _)) by (rewrite length_replicate; lia). rewrite length_replicate, Nat.sub_diag.
  replace (S n - (length (kept n) + 1))%nat with (n - length (kept n))%nat by lia.
  destruct (n - length (kept n))%nat as [|m]; simpl; [done|]. f_equal.
  change (null_slot :: drop (S n) orig) with ([null_slot] ++ drop (S n) orig). rewrite app_assoc.
  by rewrite <- replicate_cons_app.
Qed.

Lemma free_cursor_gone n kv d j : orig !! n = Some kv → ¬ stay kv → (n = 4 * d + j)%nat → (j < 4)%nat →
  PM.update_first_free (free_cursor n) d j = free_cursor (S n).
Proof.
  intros H Hs -> Hj. pose proof (kept_le (4 * d + j)). unfold free_cursor.
  rewrite (kept_S _ kv H), (decide_False (P := stay kv)), app_nil_r by done. rewrite (decide_False (P := _ = S _)) by lia.
  case_decide as E; cbn [PM.update_first_free]; [|done]. rewrite E. do 2 f_equal.
  - rewrite Nat.mul_comm, Nat.div_add_l, Nat.div_small by lia. lia.
  - rewrite Nat.mul_comm, Nat.add_comm, Nat.Div0.mod_add, Nat.mod_small by lia. done.
Qed.

Lemma length_front n : (n ≤ length orig)%nat → length (front n) = length orig.
Proof.
  intros Hn. unfold front. rewrite !length_app, length_replicate, length_drop. pose proof (kept_le n). lia.
Qed.

Lemma div4 p d j : (p = 4 * d + j → j < 4 → p `div` 4 = d ∧ p `mod` 4 = j)%nat.
Proof.
  intros -> Hj. split.
  - symmetry. apply (Nat.div_unique _ _ _ j); lia.
  - symmetry. apply (Nat.mod_unique _ _ d); lia.
Qed.

Lemma next_free_spec b p kv fuel : wfb b → slots b !! p = Some kv → full kv → slots b !! S p = Some null_slot →
  (2 ≤ fuel)%nat → PM.next_free fuel b (p `div` 4) (p `mod` 4) = Ok (S p `div` 4, S p `mod` 4)%nat.
Proof.
  intros Hw Hp Hf Hs Hfu. pose proof (length_slots b Hw) as Hlen.
  apply lookup_lt_Some in Hs as Hlt. pose proof (Nat.div_mod_eq p 4) as Ep. pose proof (Nat.mod_upper_bound p 4 ltac:(lia)) as Hm.
  set (d := (p `div` 4)%nat) in *. set (j := (p `mod` 4)%nat) in *.
  destruct fuel as [|[|fuel]]; [lia|lia|]. cbn [PM.next_free].
  destruct (read_slot_spec b d j Hw Hm ltac:(lia)) as (kv' & -> & E). rewrite <- Ep, Hp in E. injection E as <-.
  cbn [mbind res_bind]. rewrite (proj2 (Z.eqb_neq kv.1 0) Hf). destruct (Nat.eqb_spec j 3) as [E3|E3].
  - destruct (proj2 (chain_at_Some b (S d)) ltac:(lia)) as [c ->].
    destruct (read_slot_spec b (S d) 0 Hw ltac:(lia) ltac:(lia)) as (kv2 & -> & E2).
    replace (4 * S d + 0)%nat with (S p) in E2 by lia. rewrite Hs in E2. injection E2 as <-. cbn [mbind res_bind fst null_slot Z.eqb].
    destruct (div4 (S p) (S d) 0 ltac:(lia) ltac:(lia)) as [-> ->]. done.
  - destruct (read_slot_spec b d (S j) Hw ltac:(lia) ltac:(lia)) as (kv2 & -> & E2).
    replace (4 * d + S j)%nat with (S p) in E2 by lia. rewrite Hs in E2. injection E2 as <-. cbn [mbind res_bind]. cbn [fst null_slot].
    destruct (div4 (S p) d (S j) ltac:(lia) ltac:(lia)) as [-> ->]. done.
Qed.

Lemma go_S n kv : orig !! n = Some kv →
  filter go (take (S n) orig) = filter go (take n orig) ++ (if decide (go kv) then [kv] else []).
Proof. intros H. by rewrite (take_S_r _ _ _ H), list.filter_app. Qed.

Lemma go_fresh n kv : orig !! n = Some kv → full kv → kv.1 ∉ (filter go (take n orig)).*1.
Proof.
  intros H Hf. rewrite <- (take_drop_middle _ _ _ H), list.filter_app, filter_cons_True, fmap_app in Hnd by done.
  apply list.NoDup_app in Hnd as (_ & Hd & _). intros (x & Ex & [[Hx _] Hin]%list_elem_of_filter)%list_elem_of_fmap.
  apply (Hd x.1); [|rewrite <- Ex; simpl; set_solver]. apply list_elem_of_fmap. exists x. split; [done|].
  by apply list_elem_of_filter.
Qed.

Lemma moves_land ptr w : negb (Z.land (Z.shiftr ptr shift) (2 ^ k) =? 0) = moves shift k (ptr, w).
Proof. done. Qed.

Lemma i_ne : Z.to_nat i ≠ Z.to_nat (i + 2 ^ k).
Proof. pose proof (pow2_pos k Hk). lia. Qed.

Lemma k1_small : 2 ^ (k + 1) ≤ 2 ^ 62.
Proof. apply Z.pow_le_mono_r; lia. Qed.

Lemma grow_slot_go v0 n d j st kv : grow_inv v0 n st → orig !! n = Some kv → go kv → n = (4 * d + j)%nat → (j < 4)%nat →
  ∃ st', PM.grow_slot shift (2 ^ k) i d st j = Ok st' ∧ grow_inv v0 (S n) st'.
Proof.
  destruct st as [v ff], kv as [ptr w]. intros (b & nb & Hb & Hnb & Hlen & Hv & Hw & Hs & Hff & Hwn & Hdn & Hcn) Hn [Hf Hg] -> Hj.
  cbn [fst snd] in *. pose proof (lookup_lt_Some _ _ _ Hn) as Hlt. pose proof (length_slots b Hw) as Hls.
  rewrite Hs, length_front in Hls by lia. pose proof (pow2_pos k Hk) as Hpk. pose proof k1_small. pose proof i_ne as Hne.
  unfold PM.grow_slot. rewrite Hb. cbn [deref mbind res_bind].
  destruct (read_slot_spec b d j Hw Hj ltac:(lia)) as (kv & -> & E). rewrite Hs, (front_lookup _ _ Hn) in E.
  injection E as <-. cbn [mbind res_bind]. rewrite (proj2 (Z.eqb_neq ptr 0) Hf).
  rewrite (moves_land ptr w), Hg.
  destruct (write_slot_spec b d j null_slot Hw Hj ltac:(lia) ltac:(done)) as (b' & -> & Hw' & Hs' & _).
  cbn [mbind res_bind]. rewrite uadd_Ok by (rewrite Z.pow_add_r in * by lia; lia). cbn [mbind res_bind].
  unfold PM.len in *. rewrite length_insert, Hlen, hash_with_len_spec by lia. cbn [mbind res_bind].
  pose proof (hashZ_succ shift k (ptr, w) Hk) as Hh. rewrite Hg in Hh. cbn [fst] in Hh. rewrite Hh.
  rewrite (Hhash (ptr, w) (list_elem_of_lookup_2 _ _ _ Hn) Hf : hashZ shift k ptr = i), Z.eqb_refl. cbn [mbind res_bind rassert]. rewrite list_lookup_insert_ne, Hnb by done. cbn [deref mbind res_bind].
  pose proof (go_fresh _ _ Hn Hf) as Hfr. rewrite <- Hdn in Hfr.
  destruct (insert_spec nb ptr w Hwn Hfr Hf) as (nb' & -> & Hwn' & Hins). cbn [mbind res_bind].
  destruct (inserted_coalesced _ _ _ Hins Hf Hcn) as [Hdn' Hcn'].
  eexists. split; [done|]. exists b', nb'. cbn [fst snd].
  assert (Hns : ¬ stay (ptr, w)) by (intros [_ Hst]; by rewrite Hg in Hst).
  pose proof (lookup_lt_Some _ _ _ Hb). pose proof (lookup_lt_Some _ _ _ Hnb).
  split_and!.
  - rewrite list_lookup_insert_ne by done. by rewrite list_lookup_insert_eq by lia.
  - rewrite list_lookup_insert_eq; [done|]. rewrite length_insert. lia.
  - unfold PM.len. by rewrite !length_insert.
  - intros j' ? ?. rewrite !list_lookup_insert_ne by done. by apply Hv.
  - done.
  - by rewrite Hs', Hs, <- (front_S_gone _ _ Hn).
  - rewrite Hff. by eapply free_cursor_gone.
  - done.
  - rewrite Hdn', Hdn, (go_S _ _ Hn), decide_True by done. done.
  - done.
Qed.

Lemma grow_slot_null v0 n d j st kv : grow_inv v0 n st → orig !! n = Some kv → ¬ full kv → n = (4 * d + j)%nat → (j < 4)%nat →
  ∃ st', PM.grow_slot shift (2 ^ k) i d st j = Ok st' ∧ grow_inv v0 (S n) st'.
Proof.
  destruct st as [v ff]. intros (b & nb & Hb & Hnb & Hlen & Hv & Hw & Hs & Hff & Hwn & Hdn & Hcn) Hn Hf -> Hj.
  cbn [fst snd] in *. pose proof (lookup_lt_Some _ _ _ Hn) as Hlt. pose proof (length_slots b Hw) as Hls.
  rewrite Hs, length_front in Hls by lia. unfold PM.grow_slot. rewrite Hb. cbn [deref mbind res_bind].
  destruct (read_slot_spec b d j Hw Hj ltac:(lia)) as (kv' & -> & E). rewrite Hs, (front_lookup _ _ Hn) in E.
  injection E as <-. assert (kv = null_slot) as ->.
  { apply Hnull; [by eapply list_elem_of_lookup_2|]. unfold full in Hf. lia. }
  cbn [mbind res_bind null_slot Z.eqb].
  assert (Hns : ¬ stay null_slot) by (by intros [[] _]). assert (Hng : ¬ go null_slot) by (by intros [[] _]).
  eexists. split; [done|]. exists b, nb. cbn [fst snd]. split_and!; try done.
  - rewrite Hs, (front_S_gone _ _ Hn Hns), list_insert_id; [done|by apply front_lookup].
  - rewrite Hff. by eapply free_cursor_gone.
  - by rewrite Hdn, (go_S _ _ Hn), decide_False, app_nil_r.
Qed.

Lemma grow_slot_stay v0 n d j st kv : grow_inv v0 n st → orig !! n = Some kv → stay kv → n = (4 * d + j)%nat → (j < 4)%nat →
  ∃ st', PM.grow_slot shift (2 ^ k) i d st j = Ok st' ∧ grow_inv v0 (S n) st'.
Proof.
  destruct st as [v ff], kv as [ptr w]. intros (b & nb & Hb & Hnb & Hlen & Hv & Hw & Hs & Hff & Hwn & Hdn & Hcn) Hn [Hf Hg] En Hj.
  cbn [fst snd] in *. pose proof (lookup_lt_Some _ _ _ Hn) as Hlt. pose proof (length_slots b Hw) as Hls.
  rewrite Hs, length_front in Hls by lia. unfold PM.grow_slot. rewrite Hb. cbn [deref mbind res_bind].
  destruct (read_slot_spec b d j Hw Hj ltac:(lia)) as (kv & -> & E). rewrite <- En, Hs, (front_lookup _ _ Hn) in E.
  injection E as <-. cbn [mbind res_bind]. rewrite (proj2 (Z.eqb_neq ptr 0) Hf), (moves_land ptr w), Hg, Hlen.
  rewrite hash_with_len_spec by lia. cbn [mbind res_bind].
  pose proof (hashZ_succ shift k (ptr, w) Hk) as Hh. rewrite Hg, Z.add_0_r in Hh. cbn [fst] in Hh. rewrite Hh.
  rewrite (Hhash (ptr, w) (list_elem_of_lookup_2 _ _ _ Hn) Hf : hashZ shift k ptr = i), Z.eqb_refl. cbn [mbind res_bind rassert].
  assert (Hst : stay (ptr, w)) by done.
  assert (Hdn' : Bkt.dump nb = filter go (take (S n) orig)).
  { rewrite Hdn, (go_S _ _ Hn), decide_False, app_nil_r; [done|]. intros [_ Hgo]. by rewrite Hg in Hgo. }
  pose proof (kept_le n) as Hkl. pose proof (kept_S n _ Hn) as HkS. rewrite decide_True in HkS by done.
  pose proof (front_S_stay n _ Hn Hst) as HfS.
  rewrite Hff. unfold free_cursor. case_decide as Ek.
  - eexists. split; [done|]. exists b, nb. cbn [fst snd]. split_and!; try done.
    + rewrite HfS, Ek, list_insert_insert_eq, list_insert_id by (by apply front_lookup). done.
    + unfold free_cursor. rewrite HkS, length_app, decide_True; [done|]. simpl. lia.
  - destruct (write_slot_spec b d j null_slot Hw Hj ltac:(lia) ltac:(done)) as (b1 & -> & Hw1 & Hs1 & Hc1).
    cbn [mbind res_bind]. set (p := length (kept n)) in *.
    pose proof (Nat.div_mod_eq p 4) as Ep. pose proof (Nat.mod_upper_bound p 4 ltac:(lia)) as Hm.
    destruct (write_slot_spec b1 (p `div` 4) (p `mod` 4) (ptr, w) Hw1 Hm ltac:(lia)) as (b2 & -> & Hw2 & Hs2 & Hc2).
    { intros H. by destruct Hf. }
    rewrite <- Ep, Hs1, <- En, Hs, <- HfS in Hs2. cbn [mbind res_bind].
    rewrite (next_free_spec b2 p (ptr, w)); [|done| |done| |lia].
    + eexists. split; [done|]. exists b2, nb. cbn [fst snd]. pose proof i_ne. pose proof (lookup_lt_Some _ _ _ Hb).
      split_and!; try done.
      * by rewrite list_lookup_insert_eq by done.
      * by rewrite list_lookup_insert_ne by done.
      * unfold PM.len. by rewrite length_insert.
      * intros j' ? ?. rewrite list_lookup_insert_ne by done. by apply Hv.
      * unfold free_cursor. rewrite HkS, length_app, decide_False by (simpl; lia). simpl. by rewrite Nat.add_1_r.
    + rewrite Hs2, HfS. rewrite list_lookup_insert_eq; [done|]. rewrite length_insert, length_front by lia. lia.
    + rewrite Hs2. unfold front. rewrite lookup_app_r by (rewrite HkS, length_app; simpl; lia).
      rewrite HkS, length_app. cbn [length]. rewrite lookup_app_l by (rewrite length_replicate; lia).
      apply lookup_replicate. split; [done|lia].
Qed.

Lemma grow_slot_spec v0 n d j st : grow_inv v0 n st → (n < length orig)%nat → n = (4 * d + j)%nat → (j < 4)%nat →
  ∃ st', PM.grow_slot shift (2 ^ k) i d st j = Ok st' ∧ grow_inv v0 (S n) st'.
Proof.
  intros Hinv Hlt En Hj. destruct (lookup_lt_is_Some_2 _ _ Hlt) as [kv Hkv].
  destruct (decide (full kv)) as [Hf|Hf]; [|by eapply grow_slot_null].
  destruct (moves shift k kv) eqn:Hm; [eapply grow_slot_go|eapply grow_slot_stay]; done.
Qed.

Lemma grow_block_spec v0 d st : grow_inv v0 (4 * d) st → (4 * S d ≤ length orig)%nat →
  ∃ st', rfold (PM.grow_slot shift (2 ^ k) i d) (seq 0 4) st = Ok st' ∧ grow_inv v0 (4 * S d) st'.
Proof.
  intros H0 Hl. cbn [seq rfold].
  destruct (grow_slot_spec v0 (4 * d) d 0 st) as (s1 & -> & H1); [done|lia..|].
  destruct (grow_slot_spec v0 (S (4 * d)) d 1 s1) as (s2 & -> & H2); [done|lia..|].
  destruct (grow_slot_spec v0 (S (S (4 * d))) d 2 s2) as (s3 & -> & H3); [done|lia..|].
  destruct (grow_slot_spec v0 (S (S (S (4 * d)))) d 3 s3) as (s4 & -> & H4); [done|lia..|].
  exists s4. split; [done|]. by replace (4 * S d)%nat with (S (S (S (S (4 * d))))) by lia.
Qed.

Lemma grow_chain_spec v0 fuel d st : grow_inv v0 (4 * d) st → (0 < fuel)%nat → length orig = (4 * (d + fuel))%nat →
  ∃ st', PM.grow_chain fuel shift (2 ^ k) i d st = Ok st' ∧ grow_inv v0 (length orig) st'.
Proof.
  revert d st. induction fuel as [|fuel IH]; intros d st Hinv Hf Hl; [lia|]. cbn [PM.grow_chain].
  destruct (grow_block_spec v0 d st Hinv ltac:(lia)) as (s1 & -> & H1). cbn [mbind res_bind].
  pose proof H1 as (b & nb & Hb & _ & _ & _ & Hw & Hs & _). rewrite Hb. cbn [deref mbind res_bind].
  pose proof (length_slots b Hw) as Hls. rewrite Hs, length_front in Hls by lia.
  destruct (Bkt.chain_at b (S d)) eqn:Ec.
  - apply mk_is_Some, chain_at_Some in Ec. apply IH; [done|lia..].
  - assert (fuel = 0%nat) as ->.
    { destruct fuel; [done|]. destruct (proj2 (chain_at_Some b (S d))) as [? Hc]; [lia|congruence]. }
    exists s1. split; [done|]. by replace (length orig) with (4 * S d)%nat by lia.
Qed.

Lemma grow_inv_init v b : PM.len v = 2 ^ (k + 1) → v !! Z.to_nat i = Some b → wfb b → slots b = orig →
  v !! Z.to_nat (i + 2 ^ k) = Some Bkt.default → grow_inv v 0 (v, None).
Proof using Type.
  clear Hnull Hnd Hkb Hk Hi Hhash.
  intros Hl Hb Hw Hs Hn. exists b, Bkt.default. cbn [fst snd]. split_and!; try done; [|by exists 4%nat].
  simpl. split_and!; [done| |done]. set_solver.
Qed.
End grow_chain.

(** ** The map invariant

    Chain [i] of a table of [2^k] chains holds exactly the pairs of the
    abstract map [g] whose key hashes to [i], each once. *)
Definition bucket_ok (shift k : Z) (g : gmap Z Z) (i : Z) (b : Bucket) : Prop :=
  wfb b ∧ NoDup (Bkt.dump b).*1 ∧ ∀ kv, kv ∈ Bkt.dump b ↔ g !! kv.1 = Some kv.2 ∧ hashZ shift k kv.1 = i.

Definition map_inv_at (k : Z) (m : PtrHashMap) (g : gmap Z Z) : Prop :=
  0 ≤ k ≤ 62 ∧ PM.len (vec m) = 2 ^ k ∧ size m = Z.of_nat (base.size g) ∧ g !! 0 = None ∧
  ∀ j, 0 ≤ j < 2 ^ k → ∃ b, vec m !! Z.to_nat j = Some b ∧ bucket_ok (align_shift m) k g j b.

Definition map_inv (m : PtrHashMap) (g : gmap Z Z) : Prop := ∃ k, map_inv_at k m g.

Lemma dump_full b kv : kv ∈ Bkt.dump b → full kv.
Proof. rewrite dump_slots. by intros [? _]%list_elem_of_filter. Qed.

(** Restricting a chain to the pairs with a given new hash bit. *)
Lemma bucket_ok_split shift k g i b b' (P : slot → Prop) `{!∀ kv, Decision (P kv)} i' :
  (∀ kv, P kv → full kv) → (∀ kv, full kv → hashZ shift k kv.1 = i → P kv ↔ hashZ shift (k + 1) kv.1 = i') →
  (∀ kv : slot, hashZ shift (k + 1) kv.1 = i' → hashZ shift k kv.1 = i) →
  bucket_ok shift k g i b → wfb b' → Bkt.dump b' = filter P (slots b) → bucket_ok shift (k + 1) g i' b'.
Proof.
  intros HP HPi Hii (Hw & Hnd & Hm) Hw' Hd. unfold bucket_ok. refine (conj Hw' (conj _ _)).
  - rewrite Hd. replace (filter P (slots b)) with (filter P (Bkt.dump b)); [by apply NoDup_fmap_filter|].
    rewrite dump_slots. by apply list_filter_filter_l.
  - intros kv. rewrite Hd, list_elem_of_filter. split.
    + intros [Hp Hin]. assert (Hin' : kv ∈ Bkt.dump b) by (rewrite dump_slots; apply list_elem_of_filter; auto).
      apply Hm in Hin' as [Hg Hh]. split; [done|]. apply HPi; auto.
    + intros [Hg Hh]. assert (Hin : kv ∈ Bkt.dump b) by (apply Hm; auto). pose proof (dump_full _ _ Hin).
      rewrite dump_slots, list_elem_of_filter in Hin. split; [|tauto]. apply HPi; [done|auto|done].
Qed.

Lemma bucket_ok_stay shift k g i b b' : 0 ≤ k → 0 ≤ i < 2 ^ k → bucket_ok shift k g i b → wfb b' →
  Bkt.dump b' = filter (stay shift k) (slots b) → bucket_ok shift (k + 1) g i b'.
Proof.
  intros Hk Hi Hb Hw Hd. apply (bucket_ok_split shift k g i b b' (stay shift k)); try done.
  - by intros kv [? _].
  - intros kv Hf Hh. rewrite hashZ_succ, Hh by done. unfold stay. destruct (moves shift k kv); [|naive_solver lia].
    pose proof (pow2_pos k Hk). split; [naive_solver|lia].
  - intros kv Hh. rewrite hashZ_succ in Hh by done. pose proof (hashZ_bound shift k kv.1 Hk). destruct (moves shift k kv); lia.
Qed.

Lemma bucket_ok_go shift k g i b b' : 0 ≤ k → 0 ≤ i < 2 ^ k → bucket_ok shift k g i b → wfb b' →
  Bkt.dump b' = filter (go shift k) (slots b) → bucket_ok shift (k + 1) g (i + 2 ^ k) b'.
Proof.
  intros Hk Hi Hb Hw Hd. apply (bucket_ok_split shift k g i b b' (go shift k)); try done.
  - by intros kv [? _].
  - intros kv Hf Hh. rewrite hashZ_succ, Hh by done. unfold go. pose proof (pow2_pos k Hk).
    destruct (moves shift k kv); [naive_solver lia|]. split; [naive_solver|lia].
  - intros kv Hh. rewrite hashZ_succ in Hh by done. pose proof (hashZ_bound shift k kv.1 Hk). destruct (moves shift k kv); lia.
Qed.

Lemma grow_bucket_spec shift k g i v b : 0 ≤ k ≤ 61 → 0 ≤ i < 2 ^ k → PM.len v = 2 ^ (k + 1) →
  v !! Z.to_nat i = Some b → bucket_ok shift k g i b → v !! Z.to_nat (i + 2 ^ k) = Some Bkt.default →
  ∃ v' b' nb', PM.grow_bucket shift (2 ^ k) v i = Ok v' ∧ PM.len v' = 2 ^ (k + 1) ∧
    (∀ j, j ≠ Z.to_nat i → j ≠ Z.to_nat (i + 2 ^ k) → v' !! j = v !! j) ∧
    v' !! Z.to_nat i = Some b' ∧ v' !! Z.to_nat (i + 2 ^ k) = Some nb' ∧
    bucket_ok shift (k + 1) g i b' ∧ coalesced b' ∧ bucket_ok shift (k + 1) g (i + 2 ^ k) nb' ∧ coalesced nb'.
Proof.
  intros Hk Hi Hlen Hb Hok Hd. pose proof Hok as (Hw & Hnd & Hm).
  unfold PM.grow_bucket. rewrite Hb. cbn [deref mbind res_bind].
  destruct (grow_chain_spec shift k i ltac:(lia) Hi ltac:(lia) (slots b)) with (v0 := v) (fuel := Bkt.chain_len b) (d := 0%nat) (st := (v, @None (nat * nat)))
    as (st & -> & b' & nb' & Hb' & Hnb' & Hl' & Hv' & Hwb' & Hsb' & _ & Hwn' & Hdn' & Hcn').
  - intros kv. by apply slots_null.
  - intros kv Hin Hf. apply (Hm kv). rewrite dump_slots. by apply list_elem_of_filter.
  - by rewrite <- dump_slots.
  - by eapply grow_inv_init.
  - destruct b; simpl; lia.
  - rewrite Nat.add_0_l. by apply length_slots.
  - cbn [mbind res_bind]. exists st.1, b', nb'. split; [done|]. rewrite firstn_all in Hdn'.
    unfold front, kept in Hsb'. rewrite firstn_all, skipn_all, app_nil_r in Hsb'.
    assert (Hdb' : Bkt.dump b' = filter (stay shift k) (slots b)).
    { rewrite dump_slots, Hsb', list.filter_app, filter_full_null, app_nil_r.
      apply filter_all. intros x [[? _] _]%list_elem_of_filter. done. }
    refine (conj Hl' (conj Hv' (conj Hb' (conj Hnb' (conj _ (conj _ (conj _ Hcn'))))))).
    + eapply bucket_ok_stay; [lia|done..].
    + eexists. rewrite Hdb'. exact Hsb'.
    + eapply bucket_ok_go; [lia|done..].
Qed.

(** Progress of [grow]: the first [i] chains are split. *)
Definition grow_prog (shift k : Z) (g : gmap Z Z) (i : Z) (v : list Bucket) : Prop :=
  PM.len v = 2 ^ (k + 1) ∧
  ∀ j, 0 ≤ j < 2 ^ k → ∃ b nb, v !! Z.to_nat j = Some b ∧ v !! Z.to_nat (j + 2 ^ k) = Some nb ∧
    if decide (j < i)
    then (bucket_ok shift (k + 1) g j b ∧ coalesced b) ∧ (bucket_ok shift (k + 1) g (j + 2 ^ k) nb ∧ coalesced nb)
    else bucket_ok shift k g j b ∧ nb = Bkt.default.

Lemma grow_prog_step shift k g i v : 0 ≤ k ≤ 61 → 0 ≤ i < 2 ^ k → grow_prog shift k g i v →
  ∃ v', PM.grow_bucket shift (2 ^ k) v i = Ok v' ∧ grow_prog shift k g (i + 1) v'.
Proof.
  intros Hk Hi [Hl Hp]. destruct (Hp i Hi) as (b & nb & Hb & Hnb & Hif).
  rewrite decide_False in Hif by lia. destruct Hif as [Hok ->].
  destruct (grow_bucket_spec shift k g i v b) as (v' & b' & nb' & -> & Hl' & Hv' & Hb' & Hnb' & H1 & H2 & H3 & H4); [done..|].
  exists v'. split; [done|]. split; [done|]. intros j Hj. destruct (decide (j = i)) as [->|Hne].
  - exists b', nb'. rewrite decide_True by lia. done.
  - destruct (Hp j Hj) as (b2 & nb2 & Hb2 & Hnb2 & Hif). exists b2, nb2. rewrite !Hv' by lia.
    split; [done|]. split; [done|]. destruct (decide (j < i)); [rewrite decide_True by lia|rewrite decide_False by lia]; done.
Qed.

Lemma vec_lookup_lt v k j : PM.len v = 2 ^ k → 0 ≤ j < 2 ^ k → (Z.to_nat j < length v)%nat.
Proof. unfold PM.len. lia. Qed.

(** [grow] succeeds, keeps the contents and leaves every chain coalesced. *)
Lemma grow_spec k m g : map_inv_at k m g → k ≤ 61 →
  ∃ m', PM.grow m = Ok m' ∧ map_inv_at (k + 1) m' g ∧ Forall coalesced (vec m').
Proof.
  destruct m as [v sz shift]. intros (Hk & Hl & Hsz & H0 & Hv) Hk'. cbn [vec size align_shift] in *.
  pose proof (pow2_pos k ltac:(lia)) as Hpos. assert (H2k : 2 ^ (k + 1) = 2 ^ k * 2) by (by rewrite Z.pow_add_r by lia).
  assert (2 ^ (k + 1) ≤ 2 ^ 62) by (apply Z.pow_le_mono_r; lia).
  unfold PM.grow. cbn [vec size align_shift]. rewrite Hl, umul_Ok by lia. cbn [mbind res_bind]. rewrite <- H2k.
  rewrite (rassert_true (is_power_of_two _)) by (apply is_power_of_two_pow2; lia). cbn [mbind res_bind].
  assert (Hl2 : PM.len (v ++ replicate (Z.to_nat (2 ^ (k + 1) - 2 ^ k)) Bkt.default) = 2 ^ (k + 1)).
  { unfold PM.len in *. rewrite length_app, length_replicate. lia. }
  rewrite Hl2, rassert_true by apply Z.eqb_refl. cbn [mbind res_bind].
  destruct (rfold_zrange (grow_prog shift k g) (PM.grow_bucket shift (2 ^ k)) 0 (2 ^ k)
    (v ++ replicate (Z.to_nat (2 ^ (k + 1) - 2 ^ k)) Bkt.default)) as (v' & -> & Hl' & Hp'); [lia| | |].
  - split; [done|]. intros j Hj. destruct (Hv j Hj) as (b & Hb & Hok). exists b, Bkt.default.
    rewrite decide_False by lia. refine (conj _ (conj _ (conj Hok eq_refl))).
    + by apply lookup_app_l_Some.
    + unfold PM.len in Hl. rewrite lookup_app_r by lia. apply lookup_replicate. split; [done|lia].
  - intros i x Hi Hx. apply grow_prog_step; [lia|lia|done].
  - cbn [mbind res_bind]. eexists. split; [done|]. cbn [vec size align_shift].
    assert (Hall : ∀ j, 0 ≤ j < 2 ^ (k + 1) → ∃ b, v' !! Z.to_nat j = Some b ∧ bucket_ok shift (k + 1) g j b ∧ coalesced b).
    { intros j Hj. destruct (decide (j < 2 ^ k)).
      - destruct (Hp' j ltac:(lia)) as (b & nb & Hb & Hnb & Hif). rewrite decide_True in Hif by lia. naive_solver.
      - destruct (Hp' (j - 2 ^ k) ltac:(lia)) as (b & nb & Hb & Hnb & Hif). rewrite decide_True in Hif by lia.
        rewrite Z.sub_add in *. naive_solver. }
    split.
    + refine (conj _ (conj Hl' (conj Hsz (conj H0 _)))); [lia|]. intros j Hj. destruct (Hall j Hj) as (b & ? & ? & _). eauto.
    + apply Forall_lookup. intros n b Hb. pose proof (lookup_lt_Some _ _ _ Hb). unfold PM.len in Hl'.
      destruct (Hall (Z.of_nat n) ltac:(lia)) as (b' & Hb' & _ & Hc). rewrite Nat2Z.id in Hb'. by simplify_eq.
Qed.

(** *** One key at a time *)
Lemma hash_spec k m ptr : 0 ≤ k → PM.len (vec m) = 2 ^ k → PM.hash m ptr = Ok (hashZ (align_shift m) k ptr).
Proof. intros Hk Hl. unfold PM.hash. by rewrite Hl, hash_with_len_spec. Qed.

(** Replacing the chain of [ptr] after a change of [g] at [ptr]. *)
Lemma map_inv_update k v sz sz' shift g g' ptr b : map_inv_at k (mkMap v sz shift) g → g' !! 0 = None →
  sz' = Z.of_nat (base.size g') → (∀ p, p ≠ ptr → g' !! p = g !! p) → bucket_ok shift k g' (hashZ shift k ptr) b →
  map_inv_at k (mkMap (<[Z.to_nat (hashZ shift k ptr):=b]> v) sz' shift) g'.
Proof.
  intros (Hk & Hl & Hsz & H0 & Hv) H0' Hsz' Hg Hb. cbn [vec size align_shift] in *.
  pose proof (hashZ_bound shift k ptr ltac:(lia)) as Hh. pose proof (vec_lookup_lt v k _ Hl Hh).
  refine (conj Hk (conj _ (conj Hsz' (conj H0' _)))); cbn [vec align_shift].
  - unfold PM.len in *. by rewrite length_insert.
  - intros j Hj. destruct (decide (j = hashZ shift k ptr)) as [->|Hne].
    + exists b. by rewrite list_lookup_insert_eq.
    + destruct (Hv j Hj) as (b' & Hb' & Hw & Hnd & Hm). exists b'. rewrite list_lookup_insert_ne by lia.
      split; [done|]. refine (conj Hw (conj Hnd _)). intros kv. rewrite Hm.
      destruct (decide (kv.1 = ptr)) as [->|Hp]; [naive_solver|]. by rewrite Hg.
Qed.

Lemma bucket_insert_ok shift k g i b ptr v : bucket_ok shift k g i b → ptr ≠ 0 → g !! ptr = None → hashZ shift k ptr = i →
  ∃ b', Bkt.insert b ptr v = Ok b' ∧ bucket_ok shift k (<[ptr:=v]> g) i b'.
Proof.
  intros (Hw & Hnd & Hm) H0 Hg Hh.
  assert (Hfr : ptr ∉ (Bkt.dump b).*1).
  { intros ([p w] & E & Hin)%list_elem_of_fmap. apply Hm in Hin. simpl in *. naive_solver. }
  destruct (insert_spec b ptr v Hw Hfr H0) as (b' & -> & Hw' & Hi). exists b'. split; [done|].
  pose proof (inserted_dump _ _ _ Hi H0) as Hd. refine (conj Hw' (conj _ _)).
  - rewrite Hd. simpl. by apply list.NoDup_cons.
  - intros [p w]. rewrite Hd, elem_of_cons, Hm. cbn [fst snd]. rewrite lookup_insert_Some. naive_solver.
Qed.

Lemma bucket_delete_ok shift k g i b ptr v : bucket_ok shift k g i b → ptr ≠ 0 → g !! ptr = Some v → hashZ shift k ptr = i →
  ∃ b', Bkt.delete b ptr = Ok b' ∧ bucket_ok shift k (delete ptr g) i b'.
Proof.
  intros (Hw & Hnd & Hm) H0 Hg Hh. assert (Hin : (ptr, v) ∈ Bkt.dump b) by (by apply Hm).
  rewrite dump_slots, list_elem_of_filter in Hin. destruct Hin as [_ Hin].
  destruct (delete_spec b ptr Hw) as (b' & pre & w & post & -> & Hw' & Es & Hp & Es').
  { apply list_elem_of_fmap. by exists (ptr, v). }
  exists b'. split; [done|].
  assert (Hd : Bkt.dump b ≡ₚ (ptr, w) :: Bkt.dump b').
  { rewrite !dump_slots, Es, Es', !list.filter_app, filter_cons_True, (filter_cons_False _ null_slot)
      by (done || (intros H; by apply H)). by rewrite Permutation_middle. }
  rewrite Hd in Hnd. simpl in Hnd. apply list.NoDup_cons in Hnd as [Hnin Hnd].
  refine (conj Hw' (conj Hnd _)). intros [p x]. cbn [fst snd]. rewrite lookup_delete_Some. split.
  - intros Hx. assert (Hxb : (p, x) ∈ Bkt.dump b) by (rewrite Hd; set_solver). apply Hm in Hxb as [Hgx Hhx].
    split_and!; try done. intros <-. apply Hnin. apply list_elem_of_fmap. by exists (ptr, x).
  - intros [[Hne Hgx] Hhx]. assert (Hxb : (p, x) ∈ Bkt.dump b) by (by apply Hm).
    rewrite Hd, elem_of_cons in Hxb. naive_solver.
Qed.

(** ** Shrinking *)
Section shrink_chain.
Context (k i : Z) (Hk : 0 ≤ k) (Hi : 2 ^ k ≤ i < 2 ^ (k + 1)).
Context (b t0 : Bucket) (Hwb : wfb b) (Hnd : NoDup ((Bkt.dump b).*1 ++ (Bkt.dump t0).*1)).

Definition shrink_inv (v0 : list Bucket) (n : nat) (v : list Bucket) : Prop :=
  ∃ t, v !! Z.to_nat i = Some b ∧ v !! Z.to_nat (i - 2 ^ k) = Some t ∧ length v = length v0 ∧
    (∀ j, j ≠ Z.to_nat (i - 2 ^ k) → v !! j = v0 !! j) ∧
    wfb t ∧ Bkt.dump t ≡ₚ filter full (take n (slots b)) ++ Bkt.dump t0.

Lemma shrink_slot_spec v0 n d j v : shrink_inv v0 n v → (n < length (slots b))%nat → n = (4 * d + j)%nat → (j < 4)%nat →
  ∃ v', PM.shrink_slot (2 ^ k) i d v j = Ok v' ∧ shrink_inv v0 (S n) v'.
Proof.
  intros (t & Hb & Ht & Hl & Hv & Hwt & Hd) Hlt En Hj. pose proof (length_slots b Hwb). pose proof (pow2_pos k Hk).
  destruct (lookup_lt_is_Some_2 _ _ Hlt) as [[ptr w] Hkv].
  unfold PM.shrink_slot. rewrite Hb. cbn [deref mbind res_bind].
  destruct (read_slot_spec b d j Hwb Hj ltac:(lia)) as (kv & -> & E). rewrite <- En, Hkv in E. injection E as <-.
  cbn [mbind res_bind]. destruct (Z.eqb_spec ptr 0) as [->|Hp0]; cbn [negb].
  - eexists. split; [done|]. exists t. split_and!; try done.
    rewrite Hd, (take_S_r _ _ _ Hkv), list.filter_app, (filter_cons_False full), filter_nil, app_nil_r by (by intros []). done.
  - rewrite usub_Ok by lia. cbn [mbind res_bind]. rewrite Ht. cbn [deref mbind res_bind].
    assert (Hfr : ptr ∉ (Bkt.dump t).*1).
    { rewrite Hd, fmap_app, not_elem_of_app. rewrite (dump_slots b), <- (take_drop_middle _ _ _ Hkv), list.filter_app, filter_cons_True in Hnd by done.
      rewrite fmap_app in Hnd. apply list.NoDup_app in Hnd as (Hn1 & Hn2 & _). apply list.NoDup_app in Hn1 as (_ & Hn1 & _).
      split; [intros Hin; apply (Hn1 _ Hin)|apply Hn2]; simpl; set_solver. }
    destruct (insert_spec t ptr w Hwt Hfr Hp0) as (t' & -> & Hwt' & Hins). cbn [mbind res_bind].
    pose proof (inserted_dump _ _ _ Hins Hp0) as Hd'. pose proof (lookup_lt_Some _ _ _ Ht).
    eexists. split; [done|]. exists t'. split_and!; [| |by rewrite length_insert| |done|].
    + rewrite list_lookup_insert_ne by lia. done.
    + by rewrite list_lookup_insert_eq.
    + intros j' Hj'. rewrite list_lookup_insert_ne by done. by apply Hv.
    + rewrite Hd', Hd, (take_S_r _ _ _ Hkv), list.filter_app, (filter_cons_True full), filter_nil by done.
      rewrite <- app_assoc. apply Permutation_middle.
Qed.

Lemma shrink_block_spec v0 d v : shrink_inv v0 (4 * d) v → (4 * S d ≤ length (slots b))%nat →
  ∃ v', rfold (PM.shrink_slot (2 ^ k) i d) (seq 0 4) v = Ok v' ∧ shrink_inv v0 (4 * S d) v'.
Proof.
  intros H0 Hl. cbn [seq rfold].
  destruct (shrink_slot_spec v0 (4 * d) d 0 v) as (s1 & -> & H1); [done|lia..|].
  destruct (shrink_slot_spec v0 (S (4 * d)) d 1 s1) as (s2 & -> & H2); [done|lia..|].
  destruct (shrink_slot_spec v0 (S (S (4 * d))) d 2 s2) as (s3 & -> & H3); [done|lia..|].
  destruct (shrink_slot_spec v0 (S (S (S (4 * d)))) d 3 s3) as (s4 & -> & H4); [done|lia..|].
  exists s4. split; [done|]. by replace (4 * S d)%nat with (S (S (S (S (4 * d))))) by lia.
Qed.

Lemma shrink_chain_spec v0 fuel d v : shrink_inv v0 (4 * d) v → (0 < fuel)%nat → Bkt.chain_len b = (d + fuel)%nat →
  ∃ v', PM.shrink_chain fuel (2 ^ k) i d v = Ok v' ∧ shrink_inv v0 (length (slots b)) v'.
Proof.
  pose proof (length_slots b Hwb) as Hls.
  revert d v. induction fuel as [|fuel IH]; intros d st Hinv Hf Hl; [lia|]. cbn [PM.shrink_chain].
  destruct (shrink_block_spec v0 d st Hinv ltac:(lia)) as (s1 & -> & H1). cbn [mbind res_bind].
  pose proof H1 as (t & Hb & _). rewrite Hb. cbn [deref mbind res_bind].
  destruct (Bkt.chain_at b (S d)) eqn:Ec.
  - apply mk_is_Some, chain_at_Some in Ec. apply IH; [done|lia..].
  - assert (fuel = 0%nat) as ->.
    { destruct fuel; [done|]. destruct (proj2 (chain_at_Some b (S d))) as [? Hc]; [lia|congruence]. }
    exists s1. split; [done|]. by replace (length (slots b)) with (4 * S d)%nat by lia.
Qed.
End shrink_chain.

Lemma bucket_ok_merge shift k g j b nb t : 0 ≤ k → 0 ≤ j < 2 ^ k → bucket_ok shift (k + 1) g j b →
  bucket_ok shift (k + 1) g (j + 2 ^ k) nb → NoDup (Bkt.dump t).*1 → wfb t → Bkt.dump t ≡ₚ Bkt.dump nb ++ Bkt.dump b →
  bucket_ok shift k g j t.
Proof.
  intros Hk Hj (_ & _ & Hm) (_ & _ & Hm') Hnd Hw Hd. refine (conj Hw (conj Hnd _)). intros kv.
  rewrite Hd, elem_of_app, Hm, Hm'. rewrite hashZ_succ by done. pose proof (hashZ_bound shift k kv.1 Hk).
  destruct (moves shift k kv); (split; [intros [[? ?]|[? ?]]|intros [? ?]]); naive_solver lia.
Qed.

Lemma bucket_ok_disjoint shift k g i j b nb : i ≠ j → bucket_ok shift k g i b → bucket_ok shift k g j nb →
  NoDup ((Bkt.dump b).*1 ++ (Bkt.dump nb).*1).
Proof.
  intros Hne (_ & Hnd & Hm) (_ & Hnd' & Hm'). apply list.NoDup_app. refine (conj Hnd (conj _ Hnd')).
  intros p (kv & -> & H1)%list_elem_of_fmap (kv' & E & H2)%list_elem_of_fmap.
  apply Hm in H1 as [_ H1]. apply Hm' in H2 as [_ H2]. rewrite E in H1. congruence.
Qed.

(** Progress of [shrink]: the chains from [2^k] up to [i] are merged. *)
Definition shrink_prog (shift k : Z) (g : gmap Z Z) (i : Z) (v : list Bucket) : Prop :=
  PM.len v = 2 ^ (k + 1) ∧
  ∀ j, 0 ≤ j < 2 ^ k → ∃ b nb, v !! Z.to_nat j = Some b ∧ v !! Z.to_nat (j + 2 ^ k) = Some nb ∧
    bucket_ok shift (k + 1) g (j + 2 ^ k) nb ∧
    if decide (j + 2 ^ k < i) then bucket_ok shift k g j b else bucket_ok shift (k + 1) g j b.

Lemma shrink_prog_step shift k g i v : 0 ≤ k → 2 ^ k ≤ i < 2 ^ (k + 1) → shrink_prog shift k g i v →
  ∃ v', PM.shrink_bucket (2 ^ k) v i = Ok v' ∧ shrink_prog shift k g (i + 1) v'.
Proof.
  intros Hk Hi [Hl Hp]. assert (2 ^ (k + 1) = 2 ^ k * 2) as E2 by (by rewrite Z.pow_add_r).
  destruct (Hp (i - 2 ^ k) ltac:(lia)) as (t & b & Ht & Hb & Hokb & Hokt). rewrite Z.sub_add in *.
  rewrite decide_False in Hokt by lia. unfold PM.shrink_bucket. rewrite Hb. cbn [deref mbind res_bind].
  pose proof (pow2_pos k Hk). pose proof (bucket_ok_disjoint shift (k + 1) g i (i - 2 ^ k) b t ltac:(lia) Hokb Hokt) as Hnd.
  pose proof Hokb as (Hwb & _ & _). pose proof Hokt as (Hwt & _ & _).
  destruct (shrink_chain_spec k i Hk Hi b t Hwb Hnd v (Bkt.chain_len b) 0 v) as (v' & -> & t' & Hb' & Ht' & Hl' & Hv' & Hwt' & Hd').
  - exists t. done.
  - destruct b; simpl; lia.
  - lia.
  - exists v'. split; [done|]. split; [unfold PM.len in *; by rewrite Hl'|].
    rewrite firstn_all, <- dump_slots in Hd'. intros j Hj. destruct (decide (j = i - 2 ^ k)) as [->|Hne].
    + exists t', b. rewrite Z.sub_add, decide_True by lia. refine (conj Ht' (conj Hb' (conj Hokb _))).
      apply (bucket_ok_merge shift k g _ t b t'); try done; [by rewrite Z.sub_add|]. by rewrite Hd', fmap_app.
    + destruct (Hp j Hj) as (b2 & nb2 & Hb2 & Hnb2 & H2 & Hif). exists b2, nb2. rewrite !Hv' by lia.
      refine (conj Hb2 (conj Hnb2 (conj H2 _))).
      destruct (decide (j + 2 ^ k < i)); [rewrite decide_True by lia|rewrite decide_False by lia]; done.
Qed.

Lemma shrink_spec k m g : map_inv_at (k + 1) m g → 0 ≤ k →
  ∃ m', PM.shrink m = Ok m' ∧ map_inv_at k m' g.
Proof.
  destruct m as [v sz shift]. intros (Hk & Hl & Hsz & H0 & Hv) Hk'. cbn [vec size align_shift] in *.
  pose proof (pow2_pos k Hk'). assert (E2 : 2 ^ (k + 1) = 2 ^ k * 2) by (by rewrite Z.pow_add_r).
  unfold PM.shrink. cbv zeta. cbn [vec size align_shift]. rewrite Hl.
  assert (2 ^ (k + 1) `div` 2 = 2 ^ k) as -> by (rewrite E2; apply Z.div_mul; lia).
  destruct (rfold_zrange (shrink_prog shift k g) (PM.shrink_bucket (2 ^ k)) (2 ^ k) (2 ^ (k + 1)) v) as (v' & Hr & Hl' & Hp').
  - lia.
  - split; [done|]. intros j Hj. destruct (Hv j ltac:(lia)) as (b & Hb & Hok). destruct (Hv (j + 2 ^ k) ltac:(lia)) as (nb & Hnb & Hokn).
    exists b, nb. rewrite decide_False by lia. done.
  - intros i x Hi Hx. by apply shrink_prog_step.
  - rewrite Hr. cbn [mbind res_bind]. eexists. split; [done|]. refine (conj _ (conj _ (conj Hsz (conj H0 _)))); cbn [vec align_shift].
    + lia.
    + unfold PM.len in *. rewrite length_take. lia.
    + intros j Hj. destruct (Hp' j Hj) as (b & nb & Hb & _ & _ & Hif). exists b. rewrite decide_True in Hif by lia.
      split; [|done]. rewrite lookup_take_lt by lia. done.
Qed.

(** ** The map operations *)
Lemma new_spec key_align sz align : key_align ≤ align → 0 ≤ sz ≤ 2 ^ 62 →
  ∃ m, PM.new key_align sz align = Ok m ∧ map_inv m ∅.
Proof.
  intros Ha Hs. unfold PM.new. rewrite rassert_true by (by apply Z.leb_le). cbn [mbind res_bind].
  destruct (next_power_of_two_Ok sz) as [p Hp]; [lia|]. rewrite Hp. cbn [mbind res_bind].
  destruct (next_power_of_two_spec _ _ Hp) as (_ & H1 & (k & Hk & ->) & H2).
  assert (Hk62 : k ≤ 62).
  { destruct (decide (1 ≤ sz)) as [H|H].
    - specialize (H2 H). assert (2 ^ k < 2 ^ 63) as Hlt by lia. apply Z.pow_lt_mono_r_iff in Hlt; lia.
    - unfold next_power_of_two in Hp. rewrite (proj2 (Z.leb_le _ _)) in Hp by lia. injection Hp as Hp.
      change 1 with (2 ^ 0) in Hp. apply pow2_inj in Hp; lia. }
  eexists. split; [done|]. exists k. refine (conj _ (conj _ (conj eq_refl (conj eq_refl _)))); [lia| |].
  - unfold PM.len. cbn [vec]. rewrite length_replicate. lia.
  - intros j Hj. exists Bkt.default. cbn [vec align_shift]. split; [apply lookup_replicate; split; [done|lia]|].
    refine (conj _ (conj _ _)).
    + simpl. split_and!; [done| |done]. set_solver.
    + constructor.
    + intros kv. simpl. rewrite lookup_empty. set_solver.
Qed.

Lemma map_get_spec m g ptr v : map_inv m g → g !! ptr = Some v → PM.get m ptr = Ok v.
Proof.
  intros (k & Hk & Hl & Hsz & H0 & Hv) Hg. unfold PM.get, PM.get_bucket.
  rewrite (hash_spec k) by (done || lia). cbn [mbind res_bind].
  destruct (Hv (hashZ (align_shift m) k ptr)) as (b & -> & _ & Hnd & Hm); [apply hashZ_bound; lia|].
  cbn [deref mbind res_bind]. apply get_spec.
  - intros ->. congruence.
  - intros w [Hw _]%Hm. simpl in Hw. congruence.
  - by apply Hm.
Qed.

Lemma map_insert_spec m g ptr v : map_inv m g → ptr ≠ 0 → g !! ptr = None → Z.of_nat (base.size g) < 2 ^ 61 →
  ∃ m', PM.insert m ptr v = Ok m' ∧ map_inv m' (<[ptr:=v]> g).
Proof.
  intros (k0 & Hinv0) Hp Hg Hsz. unfold PM.insert.
  rewrite rassert_true by (by apply negb_true_iff, Z.eqb_neq). cbn [mbind res_bind].
  assert (∃ k m1, (if size m =? PM.len (vec m) then PM.grow m else Ok m) = Ok m1 ∧ map_inv_at k m1 g) as (k & m1 & -> & Hinv).
  { destruct (Z.eqb_spec (size m) (PM.len (vec m))) as [E|E]; [|eauto].
    pose proof Hinv0 as (Hk & Hl & Hs & _). rewrite Hl, Hs in E.
    assert (k0 ≤ 61). { assert (2 ^ k0 < 2 ^ 61) as Hlt by lia. apply Z.pow_lt_mono_r_iff in Hlt; lia. }
    destruct (grow_spec k0 m g Hinv0) as (m1 & -> & H1 & _); [done|]. eauto. }
  cbn [mbind res_bind]. destruct m1 as [v1 sz1 shift1]. pose proof Hinv as (Hk & Hl & Hs & H0 & Hv). cbn [vec size align_shift] in *.
  rewrite (hash_spec k) by (done || lia). cbn [mbind res_bind align_shift].
  destruct (Hv (hashZ shift1 k ptr)) as (b & -> & Hb); [apply hashZ_bound; lia|]. cbn [deref mbind res_bind].
  destruct (bucket_insert_ok _ _ _ _ _ ptr v Hb Hp Hg eq_refl) as (b' & -> & Hb'). cbn [mbind res_bind].
  rewrite uadd_Ok by lia. cbn [mbind res_bind]. eexists. split; [done|]. exists k.
  eapply map_inv_update; [done|by rewrite lookup_insert_ne| |intros q Hq; by rewrite lookup_insert_ne|done].
  rewrite map_size_insert_None by done. lia.
Qed.

Lemma map_delete_spec m g ptr v : map_inv m g → g !! ptr = Some v →
  ∃ m', PM.delete m ptr = Ok m' ∧ map_inv m' (delete ptr g).
Proof.
  intros (k0 & Hinv0) Hg. assert (Hp : ptr ≠ 0) by (intros ->; destruct Hinv0 as (_ & _ & _ & H0 & _); congruence).
  unfold PM.delete. rewrite rassert_true by (by apply negb_true_iff, Z.eqb_neq). cbn [mbind res_bind].
  assert (Hpos : (1 ≤ base.size g)%nat).
  { destruct (base.size g) eqn:E; [|lia]. apply map_size_empty_inv in E. by subst. }
  assert (∃ k m1, (if size m =? PM.len (vec m) / 2 then PM.shrink m else Ok m) = Ok m1 ∧ map_inv_at k m1 g) as (k & m1 & -> & Hinv).
  { destruct (Z.eqb_spec (size m) (PM.len (vec m) / 2)) as [E|E]; [|eauto].
    pose proof Hinv0 as (Hk & Hl & Hs & _). rewrite Hl, Hs in E.
    assert (k0 ≠ 0) by (intros ->; change (2 ^ 0 `div` 2) with 0 in E; lia).
    destruct (shrink_spec (k0 - 1) m g) as (m1 & -> & H1); [by rewrite Z.sub_add|lia|]. eauto. }
  cbn [mbind res_bind]. destruct m1 as [v1 sz1 shift1]. pose proof Hinv as (Hk & Hl & Hs & H0 & Hv). cbn [vec size align_shift] in *.
  rewrite (hash_spec k) by (done || lia). cbn [mbind res_bind align_shift].
  destruct (Hv (hashZ shift1 k ptr)) as (b & -> & Hb); [apply hashZ_bound; lia|]. cbn [deref mbind res_bind].
  destruct (bucket_delete_ok _ _ _ _ _ ptr v Hb Hp Hg eq_refl) as (b' & -> & Hb'). cbn [mbind res_bind].
  rewrite usub_Ok by lia. cbn [mbind res_bind]. eexists. split; [done|]. exists k.
  eapply map_inv_update; [done|by rewrite lookup_delete_ne| |intros q Hq; by rewrite lookup_delete_ne|done].
  rewrite map_size_delete_Some by eauto. lia.
Qed.

(** ** Sequences of operations *)
Inductive map_op := OInsert (ptr v : Z) | ODelete (ptr : Z) | OGet (ptr : Z).

(** The code, returning the values the lookups saw. *)
Fixpoint run_map (os : list map_op) (m : PtrHashMap) : res (list Z * PtrHashMap) :=
  match os with
  | [] => Ok ([], m)
  | OInsert p v :: os => m ← PM.insert m p v; run_map os m
  | ODelete p :: os => m ← PM.delete m p; run_map os m
  | OGet p :: os => v ← PM.get m p; '(vs, m) ← run_map os m; Ok (v :: vs, m)
  end.

(** The finite map it implements; [None] when the documented contract is
    broken (inserting a present or null key, deleting or reading an absent one). *)
Fixpoint abs_map (os : list map_op) (g : gmap Z Z) : option (list Z * gmap Z Z) :=
  match os with
  | [] => Some ([], g)
  | OInsert p v :: os => if decide (p ≠ 0 ∧ g !! p = None) then abs_map os (<[p:=v]> g) else None
  | ODelete p :: os => if decide (is_Some (g !! p)) then abs_map os (delete p g) else None
  | OGet p :: os => v ← g !! p; '(vs, g) ← abs_map os g; Some (v :: vs, g)
  end.

(** C5: the pointer map is a finite map.  A table made by [new] and driven by
    any sequence of inserts, deletes and lookups that respects the documented
    contract never panics, never touches a slot outside a chain and never
    loops, through every resize on the way; its lookups return what the finite
    map returns, and it ends representing the final finite map. *)
Theorem ptr_map_refines_finite_map (key_align sz align : Z) (os : list map_op) (vs : list Z) (g : gmap Z Z) :
  key_align ≤ align → 0 ≤ sz ≤ 2 ^ 62 → Z.of_nat (length os) < 2 ^ 61 → abs_map os ∅ = Some (vs, g) →
  ∃ m0 m, PM.new key_align sz align = Ok m0 ∧ run_map os m0 = Ok (vs, m) ∧ map_inv m g.
Proof.
  intros Ha Hs Hlen Habs. destruct (new_spec key_align sz align Ha Hs) as (m0 & Hnew & Hinv). exists m0.
  assert (∃ m, run_map os m0 = Ok (vs, m) ∧ map_inv m g) as (m & ? & ?); [|by exists m].
  assert (Hsz : Z.of_nat (length os + base.size (∅ : gmap Z Z)) < 2 ^ 61) by (rewrite map_size_empty; lia).
  clear Hnew Hlen. revert m0 vs Hinv Hsz Habs. generalize (∅ : gmap Z Z).
  induction os as [|[p v|p|p] os IH]; intros g0 m0 vs Hinv Hsz; cbn [abs_map run_map length] in *.
  - intros [= <- <-]. eauto.
  - case_decide as Hc; [|done]. destruct Hc as [Hp Hg]. intros Habs.
    destruct (map_insert_spec m0 g0 p v Hinv Hp Hg) as (m1 & -> & H1); [lia|]. cbn [mbind res_bind].
    eapply IH; [done| |done]. rewrite map_size_insert_None by done. lia.
  - case_decide as Hc; [|done]. destruct Hc as [v Hg]. intros Habs.
    destruct (map_delete_spec m0 g0 p v Hinv Hg) as (m1 & -> & H1). cbn [mbind res_bind].
    eapply IH; [done| |done]. rewrite map_size_delete_Some by eauto. lia.
  - intros (v & Hg & ([vs' g'] & Habs & [= <- <-])%bind_Some)%bind_Some.
    rewrite (map_get_spec m0 g0 p v Hinv Hg). cbn [mbind res_bind].
    destruct (IH g0 m0 vs' Hinv ltac:(lia) Habs) as (m & -> & ?). cbn. eauto.
Qed.

(** Forty keys through several doublings, half of them removed through a halving. *)
Definition demo_ops : list map_op :=
  ((fun i => OInsert (8 * i) (1000 + i)) <$> zrange 1 41) ++ ((fun i => ODelete (8 * i)) <$> zrange 1 31) ++
  ((fun i => OGet (8 * i)) <$> zrange 31 34).

Lemma ptr_map_refines_finite_map_witness :
  ∃ g m0 m, PM.new 8 1 8 = Ok m0 ∧ run_map demo_ops m0 = Ok ([1031; 1032; 1033], m) ∧ map_inv m g.
Proof.
  destruct (abs_map demo_ops ∅) as [[vs g]|] eqn:E; [|vm_compute in E; discriminate]. exists g.
  assert (vs = [1031; 1032; 1033]) as -> by (vm_compute in E; by injection E).
  apply (ptr_map_refines_finite_map 8 1 8 demo_ops [1031; 1032; 1033] g); [lia|lia|vm_compute; reflexivity|exact E].
Defined.

(** Doubling rehashes in place.  Growing a table that represents [g]
    succeeds, doubles the number of chains, still represents [g] under the
    wider hash, and leaves every chain coalesced: all full slots before all
    empty ones, so that a lookup stops at the first empty slot. *)
Theorem grow_preserves_and_coalesces (k : Z) (m : PtrHashMap) (g : gmap Z Z) :
  map_inv_at k m g → k ≤ 61 →
  ∃ m', PM.grow m = Ok m' ∧ map_inv_at (k + 1) m' g ∧ PM.len (vec m') = 2 * PM.len (vec m) ∧ Forall coalesced (vec m').
Proof.
  intros Hinv Hk. destruct (grow_spec k m g Hinv Hk) as (m' & ? & Hinv' & ?). exists m'. split_and!; try done.
  destruct Hinv as ((? & _) & -> & _), Hinv' as (_ & -> & _). rewrite Z.pow_add_r by lia. lia.
Qed.

(** A chain of two blocks with a hole, in a table of one chain. *)
Definition demo_bucket : Bucket :=
  mkBucket [(8, 1); (0, 0); (16, 2); (24, 3)] (Some (mkBucket [(32, 4); (0, 0); (0, 0); (0, 0)] None)).
Definition demo_map : PtrHashMap := mkMap [demo_bucket] 4 3.
Definition demo_g : gmap Z Z := list_to_map [(8, 1); (16, 2); (24, 3); (32, 4)].

Lemma grow_preserves_and_coalesces_witness :
  ∃ m', PM.grow demo_map = Ok m' ∧ map_inv_at (0 + 1) m' demo_g ∧ PM.len (vec m') = 2 * PM.len (vec demo_map) ∧
    Forall coalesced (vec m').
Proof.
  apply (grow_preserves_and_coalesces 0 demo_map demo_g); [|lia].
  refine (conj _ (conj eq_refl (conj eq_refl (conj eq_refl _)))); [lia|].
  intros j Hj. assert (j = 0) as -> by (simpl in Hj; lia). exists demo_bucket. split; [done|]. refine (conj _ (conj _ _)).
  - simpl. split_and!; [done| |done| |done]; intros kv Hkv Hz;
      repeat (apply elem_of_cons in Hkv as [->|Hkv]; [done|]); set_solver.
  - apply (bool_decide_unpack _). vm_compute. reflexivity.
  - intros [p v]. unfold hashZ. cbn [fst snd]. rewrite Z.pow_0_r, Z.mod_1_r. unfold demo_g.
    rewrite <- elem_of_list_to_map by (apply (bool_decide_unpack _); vm_compute; reflexivity).
    change (Bkt.dump demo_bucket) with [(8, 1); (16, 2); (24, 3); (32, 4)]. tauto.
Defined.

Example ptr_map_example :
  (m ← PM.new 8 1 8; m ← PM.insert m 64 1; m ← PM.insert m 72 2; m ← PM.insert m 80 3;
   m ← PM.delete m 72; v ← PM.get m 80; Ok (v, PM.dump_by_bucket m)) = Ok (3, [[(64, 1)]; []; [(80, 3)]; []]).
Proof. vm_compute. reflexivity. Qed.
