(* ===== verification/InitSystem.v ===== *)
(** * Initialization tracking

    Models [src/slab-alloc/src/init.rs]: the [InitSystem] trait with its laws,
    the no-op system, and the system that keeps an "initialized" bit in the low
    bit of a pointer.  The effect of [init] and [drop] on memory is the set of
    object addresses that currently hold a valid object ([objs]); the
    user's initializer and destructor are what adds and removes an address. *)

From Stdlib Require Import ZArith Lia.
From S2P Require Import Prelude.
From stdpp Require Import base numbers list gmap option.

Open Scope Z_scope.

(** [trait InitSystem].  [tracked s] is what a status says about the object:
    [None] for a system that does not track initialization. *)
Class InitSystem (Status : Type) := {
  status_initialized : Status;
  status_uninitialized : Status;
  min_align : Z;
  pack : Z → Status → Z;
  unpack_status : Z → Status;
  unpack_ptr : Z → Z;
  init : gset Z → Z → Status → gset Z;
  drop : gset Z → Z → Status → gset Z;
  tracked : Status → option bool;
  (** what the trait promises *)
  min_align_pow2 : ∃ k, 0 ≤ k ≤ 31 ∧ min_align = 2 ^ k;
  unpack_ptr_pack p s : is_usize p → (min_align | p) → unpack_ptr (pack p s) = p;
  unpack_status_pack p s : is_usize p → (min_align | p) → unpack_status (pack p s) = s;
  tracked_initialized b : tracked status_initialized = Some b → b = true;
  tracked_uninitialized b : tracked status_uninitialized = Some b → b = false;
  tracked_same s s' : tracked s = None → tracked s' = None;
  init_effect objs p s : init objs p s = if decide (tracked s = Some false) then {[p]} ∪ objs else objs;
  drop_effect objs p s : drop objs p s = if decide (tracked s = Some true) then objs ∖ {[p]} else objs;
}.

(** ** [NopInitSystem] *)
Module Nop.
Definition pack (ptr : Z) (_ : unit) : Z := ptr.
Definition unpack_status (_ : Z) : unit := tt.
Definition unpack_ptr (packed : Z) : Z := packed.
Definition init (objs : gset Z) (_ : Z) (_ : unit) : gset Z := objs.
Definition drop (objs : gset Z) (_ : Z) (_ : unit) : gset Z := objs.
End Nop.

(** ** [InitInitSystem] *)
Module InitInit.
Definition pack (ptr : Z) (status : bool) : Z := Z.lor ptr (if status then 1 else 0).
Definition unpack_status (packed : Z) : bool := Z.land packed 1 =? 1.
Definition unpack_ptr (packed : Z) : Z := Z.land packed (usize_max - 1).
(** [self.init.init(obj)] writes a valid object at [obj]. *)
Definition init (objs : gset Z) (obj : Z) (init : bool) : gset Z :=
  if negb init then {[obj]} ∪ objs else objs.
(** [drop_in_place(obj)] consumes the object at [obj]. *)
Definition drop (objs : gset Z) (obj : Z) (init : bool) : gset Z :=
  if init then objs ∖ {[obj]} else objs.
End InitInit.

(** ** Lemmas *)
#[export] Instance nop_init_system : InitSystem unit.
Proof.
  refine {| status_initialized := tt; status_uninitialized := tt; min_align := 1;
    pack := Nop.pack; unpack_status := Nop.unpack_status; unpack_ptr := Nop.unpack_ptr;
    init := Nop.init; drop := Nop.drop; tracked _ := None |}; try done.
  - exists 0. lia.
  - by intros ? [].
Defined.

Lemma pack_testbit p s n : is_usize p → (2 | p) → 0 ≤ n →
  Z.testbit (InitInit.pack p s) n = if decide (n = 0) then s else Z.testbit p n.
Proof.
  intros Hp [q ->] Hn. unfold InitInit.pack. rewrite Z.lor_spec.
  replace (if s then 1 else 0) with (Z.b2z s) by (by destruct s). case_decide as E.
  - subst n. rewrite Z.b2z_bit0, Z.bit0_odd, Z.odd_mul, andb_false_r. done.
  - replace (Z.testbit (Z.b2z s) n) with false; [by rewrite orb_false_r|].
    destruct s; simpl; [|by rewrite Z.bits_0]. symmetry. destruct n; [done|done|lia].
Qed.

Lemma init_unpack_ptr p s : is_usize p → (2 | p) → InitInit.unpack_ptr (InitInit.pack p s) = p.
Proof.
  intros Hp Hd. unfold InitInit.unpack_ptr. apply Z.bits_inj'. intros n Hn. rewrite Z.land_spec, pack_testbit by done.
  assert (Hmask : Z.testbit (usize_max - 1) n = bool_decide (0 < n < 64)).
  { change (usize_max - 1) with (Z.shiftl (Z.ones 63) 1). rewrite Z.shiftl_spec by done.
    destruct (decide (0 < n < 64)).
    - rewrite bool_decide_true, Z.ones_spec_low by lia. done.
    - rewrite bool_decide_false by done. destruct (decide (n = 0)) as [->|]; [done|]. apply Z.ones_spec_high. lia. }
  rewrite Hmask. destruct (decide (n = 0)) as [E|E].
  - subst. rewrite bool_decide_false, andb_false_r by lia. destruct Hd as [q ->]. by rewrite Z.bit0_odd, Z.odd_mul, andb_false_r.
  - destruct (decide (n < 64)).
    + rewrite bool_decide_true by lia. apply andb_true_r.
    + rewrite bool_decide_false, andb_false_r by lia. symmetry. destruct Hp.
      rewrite <- (Z.mod_small p (2 ^ 64)) by done. apply Z.mod_pow2_bits_high. lia.
Qed.

Lemma init_unpack_status p s : is_usize p → (2 | p) → InitInit.unpack_status (InitInit.pack p s) = s.
Proof.
  intros Hp Hd. unfold InitInit.unpack_status. change 1 with (Z.ones 1) at 1. rewrite Z.land_ones by lia.
  change (2 ^ 1) with 2. rewrite <- Z.bit0_mod, pack_testbit, decide_True by done. by destruct s.
Qed.

#[export] Instance init_init_system : InitSystem bool.
Proof.
  refine {| status_initialized := true; status_uninitialized := false; min_align := 2;
    pack := InitInit.pack; unpack_status := InitInit.unpack_status; unpack_ptr := InitInit.unpack_ptr;
    init := InitInit.init; drop := InitInit.drop; tracked s := Some s |}.
  - exists 1. lia.
  - apply init_unpack_ptr.
  - apply init_unpack_status.
  - by intros ? [= <-].
  - by intros ? [= <-].
  - done.
  - by intros objs p [].
  - by intros objs p [].
Defined.
