(* ===== verification/SlabLayout.v ===== *)
(** * The memory layout of a slab

    Models [Layout] of [src/slab-alloc/src/stack.rs] (where the header, the
    stack of free pointers and the objects of a slab go), and the choice of the
    slab size by [backing_size_for] of [aligned.rs] and [large.rs].

    A slab is laid out as header, padding, pointer stack, padding, objects.
    The loops that look for a size carry fuel; the theorems show the fuel they
    are given is enough. *)

From Stdlib Require Import ZArith Lia.
From S2P Require Import Prelude StdAlloc SlabUtil.
From stdpp Require Import base numbers list gmap option.

Open Scope Z_scope.

(** [mem::size_of::<SlabHeader>()]: stack size, color and two links. *)
Definition hdr_size : Z := 32.

Module SL.
(** [stack::Layout]. *)
Record SLayout := mkSLayout {
  num_obj : Z;
  obj_layout : Layout;
  stack_begin_offset : Z;
  array_begin_offset : Z;
  color_settings : Color.ColorSettings
}.

(** The [loop] of [for_slab_size]. *)
Fixpoint fit_loop (fuel : nat) (obj_size obj_align stack_begin_offset slab_size num_obj array_begin_offset : Z) :
    res (Z * Z) :=
  match fuel with
  | O => Fault NoFuel
  | S fuel =>
      candidate ← uadd num_obj 1;
      bytes ← Stk.bytes_for candidate;
      total_hdr_size ← uadd stack_begin_offset bytes;
      l ← unwrap (from_size_align total_hdr_size 1);
      let post_stack_padding := padding_needed_for l obj_align in
      begin ← uadd total_hdr_size post_stack_padding;
      body ← umul candidate obj_size;
      total ← uadd begin body;
      if total <=? slab_size then fit_loop fuel obj_size obj_align stack_begin_offset slab_size candidate begin
      else Ok (num_obj, array_begin_offset)
  end.

(** Each object that fits takes a stack cell of eight bytes. *)
Definition fit_fuel (slab_size : Z) : nat := S (Z.to_nat (slab_size / 8)).

Definition for_slab_size (layout : Layout) (slab_size : Z) : res (option (SLayout * Z)) :=
  let obj_size := layout_size layout in
  let obj_align := layout_align layout in
  pre_stack_padding ← Stk.padding_after hdr_size;
  stack_begin_offset ← uadd hdr_size pre_stack_padding;
  '(num_obj, array_begin_offset) ← fit_loop (fit_fuel slab_size) obj_size obj_align stack_begin_offset slab_size 0 0;
  if num_obj =? 0 then Ok None
  else
    _ ← rassert (0 <? array_begin_offset);
    u ← usub slab_size array_begin_offset;
    body ← umul num_obj obj_size;
    unused_space ← usub u body;
    color_settings ← Color.new obj_align unused_space;
    e ← uadd array_begin_offset (Color.max_color color_settings);
    e ← uadd e body;
    _ ← rassert (e <=? slab_size);
    Ok (Some (mkSLayout num_obj layout stack_begin_offset array_begin_offset color_settings, unused_space)).

Definition array_begin (l : SLayout) (slab color : Z) : res Z :=
  _ ← rassert (color <=? Color.max_color (color_settings l));
  a ← uadd slab (array_begin_offset l);
  uadd a color.

Definition stack_begin (l : SLayout) (slab : Z) : res Z := uadd slab (stack_begin_offset l).

Definition nth_obj (l : SLayout) (slab color n : Z) : res Z :=
  _ ← rassert (n <? num_obj l);
  a ← array_begin l slab color;
  o ← umul n (layout_size (obj_layout l));
  uadd a o.
End SL.

(** The closure [unused] of both [backing_size_for]s. *)
Definition unused_for (layout : Layout) (slab_size : Z) : res (option (Z * Z)) :=
  r ← SL.for_slab_size layout slab_size;
  Ok (match r with Some (l, unused) => Some (SL.num_obj l, unused) | None => None end).

Definition OBJECTS_PER_SLAB : Z := 8.

Module Aligned.
(** [PowerOfTwoIterator::next]. *)
Definition next (s : Z) : res (option (Z * Z)) :=
  d ← ushl s 1;
  if d =? 0 then Ok None else s' ← umul s 2; Ok (Some (s', s')).

Definition backing_size_for (PAGE_SIZE : Z) (layout : Layout) : res Z :=
  SizeSel.choose_size next (unused_for layout) OBJECTS_PER_SLAB 64 PAGE_SIZE.
End Aligned.

Module Large.
(** [PageIterator::next]. *)
Definition next (PAGE_SIZE s : Z) : res (option (Z * Z)) :=
  let n := wadd s PAGE_SIZE in
  if s <? n then Ok (Some (n, n)) else Ok None.

Definition init_size (PAGE_SIZE : Z) (layout : Layout) : res Z :=
  r ← umod (layout_size layout) PAGE_SIZE;
  if r =? 0 then Ok (layout_size layout)
  else q ← udiv (layout_size layout) PAGE_SIZE; umul q PAGE_SIZE.

(** More than eight objects fit by then. *)
Definition page_fuel (PAGE_SIZE : Z) (layout : Layout) : nat :=
  Z.to_nat ((9 * layout_size layout + layout_align layout + 128) / PAGE_SIZE + 2).

Definition backing_size_for (PAGE_SIZE : Z) (layout : Layout) : res Z :=
  init_size ← init_size PAGE_SIZE layout;
  SizeSel.choose_size (next PAGE_SIZE) (unused_for layout) OBJECTS_PER_SLAB (page_fuel PAGE_SIZE layout) init_size.
End Large.

(** ** The shape of a slab *)

(** Offset of the objects in a slab for [n] of them, before coloring. *)
Definition obj_off (align n : Z) : Z := let t := hdr_size + 8 * n in t + (- t) mod align.

Definition fits (l : Layout) (slab_size n : Z) : Prop :=
  obj_off (layout_align l) n + n * layout_size l ≤ slab_size.

#[export] Instance fits_dec l s n : Decision (fits l s n).
Proof. unfold fits. apply _. Defined.

(** Object layouts whose slabs stay inside the address space. *)
Definition obj_layout_ok (l : Layout) : Prop :=
  0 < layout_size l < 2 ^ 56 ∧ ∃ a, 0 ≤ a ≤ 31 ∧ layout_align l = 2 ^ a.

Definition slab_size_ok (s : Z) : Prop := 0 ≤ s < 2 ^ 62.

Lemma padding_mono t t' a : 0 < a → t ≤ t' → t + (- t) mod a ≤ t' + (- t') mod a.
Proof.
  intros Ha Ht. pose proof (Z.div_mod (- t) a ltac:(lia)) as E. pose proof (Z.div_mod (- t') a ltac:(lia)) as E'.
  assert (- t' / a ≤ - t / a) by (apply Z.div_le_mono; lia). nia.
Qed.

Lemma obj_off_bounds align n : 0 < align → hdr_size + 8 * n ≤ obj_off align n < hdr_size + 8 * n + align.
Proof. intros Ha. unfold obj_off. pose proof (Z.mod_pos_bound (- (hdr_size + 8 * n)) align Ha). lia. Qed.

Lemma obj_off_mono align n m : 0 < align → n ≤ m → obj_off align n ≤ obj_off align m.
Proof. intros Ha Hn. unfold obj_off. apply padding_mono; lia. Qed.

Lemma obj_off_aligned k n : 0 ≤ k → (2 ^ k | obj_off (2 ^ k) n).
Proof.
  intros Hk. pose proof (pow2_pos k Hk). apply Z.mod_divide; [lia|]. unfold obj_off. by apply padded_aligned.
Qed.

Lemma fits_mono l s n m : obj_layout_ok l → 0 ≤ n ≤ m → fits l s m → fits l s n.
Proof.
  intros (Hsz & a & Ha & E) Hn. unfold fits. pose proof (pow2_pos a ltac:(lia)).
  pose proof (obj_off_mono (layout_align l) n m ltac:(lia) ltac:(lia)). nia.
Qed.

Lemma obj_layout_align l : obj_layout_ok l → 0 < layout_align l ≤ 2 ^ 31.
Proof.
  intros (_ & a & Ha & ->). split; [apply pow2_pos; lia|]. apply Z.pow_le_mono_r; lia.
Qed.

(** One round of the loop computes [fits] for the candidate. *)
Lemma fit_loop_step fuel l s n off : obj_layout_ok l → slab_size_ok s → 0 ≤ n ≤ 2 ^ 59 → n * layout_size l ≤ s →
  SL.fit_loop (S fuel) (layout_size l) (layout_align l) hdr_size s n off =
  if decide (fits l s (n + 1))
  then SL.fit_loop fuel (layout_size l) (layout_align l) hdr_size s (n + 1) (obj_off (layout_align l) (n + 1))
  else Ok (n, off).
Proof.
  intros Hl Hs Hn Hfit. pose proof (obj_layout_align l Hl) as Hal. pose proof Hl as (Hsz & a & Ha & Ea).
  unfold slab_size_ok in Hs. cbn [SL.fit_loop]. rewrite uadd_Ok by lia. cbn [mbind res_bind].
  unfold Stk.bytes_for. rewrite (umul_Ok (n + 1) 8) by lia. cbn [mbind res_bind]. unfold hdr_size in *.
  rewrite uadd_Ok by lia. cbn [mbind res_bind].
  rewrite (from_size_align_Some _ 1 0) by (unfold usize_max; lia). cbn [unwrap mbind res_bind].
  rewrite Ea, padding_needed_for_spec by (cbn [layout_size]; lia). cbn [layout_size].
  pose proof (Z.mod_pos_bound (- (32 + (n + 1) * 8)) (2 ^ a)).
  rewrite uadd_Ok by lia. cbn [mbind res_bind]. rewrite umul_Ok by nia. cbn [mbind res_bind].
  rewrite uadd_Ok by nia. cbn [mbind res_bind].
  assert (32 + (n + 1) * 8 + (- (32 + (n + 1) * 8)) mod 2 ^ a = obj_off (2 ^ a) (n + 1)) as ->.
  { unfold obj_off, hdr_size. by rewrite (Z.mul_comm (n + 1) 8). }
  case_decide as Hd; unfold fits in Hd; rewrite Ea in Hd.
  - rewrite (proj2 (Z.leb_le _ _)) by done. done.
  - rewrite (proj2 (Z.leb_gt _ _)) by lia. done.
Qed.

Lemma fit_loop_spec fuel l s n off : obj_layout_ok l → slab_size_ok s → 0 ≤ n → (n = 0 ∨ fits l s n) →
  off = (if decide (n = 0) then 0 else obj_off (layout_align l) n) → s / 8 - n < Z.of_nat fuel →
  ∃ m, SL.fit_loop fuel (layout_size l) (layout_align l) hdr_size s n off =
       Ok (m, if decide (m = 0) then 0 else obj_off (layout_align l) m) ∧
    n ≤ m ∧ (m = 0 ∨ fits l s m) ∧ ¬ fits l s (m + 1).
Proof.
  intros Hl Hs. pose proof (obj_layout_align l Hl) as Hal. revert n off.
  assert (Hfn : ∀ m, 0 ≤ m → fits l s m → m ≤ s / 8 ∧ m * layout_size l ≤ s).
  { intros m Hm0 Hm. unfold fits in Hm. pose proof (obj_off_bounds (layout_align l) m ltac:(lia)).
    unfold hdr_size in *. destruct Hl as [? _]. split; [apply Z.div_le_lower_bound; nia|nia]. }
  assert (Hs8 : s / 8 ≤ 2 ^ 59) by (apply Z.div_le_upper_bound; unfold slab_size_ok in Hs; lia).
  induction fuel as [|fuel IH]; intros n off Hn Hfit Hoff Hfu.
  - exfalso. pose proof (Z.div_pos s 8). unfold slab_size_ok in Hs. destruct Hfit as [->|Hf]; [lia|].
    destruct (Hfn n Hn Hf). lia.
  - assert (n ≤ s / 8 ∧ n * layout_size l ≤ s) as [Hn8 Hns].
    { unfold slab_size_ok in Hs. pose proof (Z.div_pos s 8). destruct Hfit as [->|Hf]; [lia|by apply Hfn]. }
    rewrite fit_loop_step by (done || lia). destruct (decide (fits l s (n + 1))) as [Hd|Hd].
    + destruct (IH (n + 1) (obj_off (layout_align l) (n + 1))) as (m & -> & Hm & Hf & Hnf); [lia|auto| |lia|].
      * by rewrite decide_False by lia.
      * exists m. split_and!; [done|lia|done|done].
    + exists n. subst off. split_and!; [done|lia|done|done].
Qed.

(** What [for_slab_size] promises of the layout it returns. *)
Definition layout_for (l : Layout) (slab_size : Z) (sl : SL.SLayout) (unused : Z) : Prop :=
  1 ≤ SL.num_obj sl ∧ SL.obj_layout sl = l ∧ SL.stack_begin_offset sl = hdr_size ∧
  SL.array_begin_offset sl = obj_off (layout_align l) (SL.num_obj sl) ∧
  fits l slab_size (SL.num_obj sl) ∧ ¬ fits l slab_size (SL.num_obj sl + 1) ∧
  unused = slab_size - obj_off (layout_align l) (SL.num_obj sl) - SL.num_obj sl * layout_size l ∧
  Color.wf (layout_align l) (SL.color_settings sl) ∧
  Color.max_color (SL.color_settings sl) = unused / layout_align l * layout_align l.

Lemma for_slab_size_spec l s : obj_layout_ok l → slab_size_ok s →
  (SL.for_slab_size l s = Ok None ∧ ¬ fits l s 1) ∨
  (∃ sl unused, SL.for_slab_size l s = Ok (Some (sl, unused)) ∧ layout_for l s sl unused).
Proof.
  intros Hl Hs. pose proof (obj_layout_align l Hl) as Hal. unfold SL.for_slab_size.
  change (Stk.padding_after hdr_size) with (Ok 0 : res Z). cbn [mbind res_bind].
  change (uadd hdr_size 0) with (Ok hdr_size). cbn [mbind res_bind].
  destruct (fit_loop_spec (SL.fit_fuel s) l s 0 0) as (n & -> & Hn & Hf & Hnf); [done|done|lia|auto|done| |].
  { unfold SL.fit_fuel. unfold slab_size_ok in Hs. pose proof (Z.div_pos s 8). lia. }
  cbn [mbind res_bind]. destruct (Z.eqb_spec n 0) as [->|Hn0]; [by left|]. right.
  destruct Hf as [?|Hf]; [lia|]. rewrite decide_False by done.
  pose proof (obj_off_bounds (layout_align l) n ltac:(lia)) as Hob. pose proof Hf as Hf'. unfold fits in Hf'.
  unfold slab_size_ok, hdr_size in *. pose proof Hl as [Hsz _].
  rewrite rassert_true by (apply Z.ltb_lt; lia). cbn [mbind res_bind]. rewrite usub_Ok by nia. cbn [mbind res_bind].
  rewrite umul_Ok by nia. cbn [mbind res_bind]. rewrite usub_Ok by lia. cbn [mbind res_bind].
  set (unused := s - obj_off (layout_align l) n - n * layout_size l).
  destruct (color_new_wf (layout_align l) unused) as (cs & -> & Hwf & Hmax & _); [lia|unfold unused; nia|]. cbn [mbind res_bind].
  assert (Color.max_color cs ≤ unused) by (rewrite Hmax; pose proof (Z.mul_div_le unused (layout_align l)); lia).
  rewrite uadd_Ok by (unfold unused in *; nia). cbn [mbind res_bind]. rewrite uadd_Ok by (unfold unused in *; nia). cbn [mbind res_bind].
  rewrite rassert_true by (apply Z.leb_le; unfold unused in *; lia). cbn [mbind res_bind].
  eexists _, _. split; [done|]. unfold layout_for. cbn [SL.num_obj SL.obj_layout SL.stack_begin_offset SL.array_begin_offset SL.color_settings].
  split_and!; try done; lia.
Qed.

(** ** Addresses inside a slab *)
Definition obj_addr (sl : SL.SLayout) (slab color n : Z) : Z :=
  slab + SL.array_begin_offset sl + color + n * layout_size (SL.obj_layout sl).

Lemma layout_for_color_room l s sl u c : layout_for l s sl u → obj_layout_ok l → c ≤ Color.max_color (SL.color_settings sl) →
  SL.array_begin_offset sl + c + SL.num_obj sl * layout_size l ≤ s.
Proof.
  intros (H1 & _ & _ & -> & Hf & _ & Hu & _ & Hm) Hl Hc. pose proof (obj_layout_align l Hl).
  rewrite Hm in Hc. pose proof (Z.mul_div_le u (layout_align l)). lia.
Qed.

Lemma nth_obj_spec l s sl u slab c n : layout_for l s sl u → obj_layout_ok l → slab_size_ok s →
  0 ≤ slab → slab + s < 2 ^ 64 → 0 ≤ c ≤ Color.max_color (SL.color_settings sl) → 0 ≤ n < SL.num_obj sl →
  SL.nth_obj sl slab c n = Ok (obj_addr sl slab c n).
Proof.
  intros HL Hl Hs H0 Hfit Hc Hn. pose proof (layout_for_color_room _ _ _ _ c HL Hl ltac:(lia)) as Hroom.
  pose proof HL as (H1 & Ho & _ & Hab & _). pose proof (obj_layout_align l Hl). pose proof Hl as [? _].
  pose proof (obj_off_bounds (layout_align l) (SL.num_obj sl) ltac:(lia)). unfold hdr_size in *. rewrite <- Hab in *.
  unfold SL.nth_obj, SL.array_begin, obj_addr. rewrite Ho.
  rewrite (rassert_true (n <? _)) by (apply Z.ltb_lt; lia). cbn [mbind res_bind].
  rewrite rassert_true by (apply Z.leb_le; lia). cbn [mbind res_bind].
  rewrite (uadd_Ok slab) by nia. cbn [mbind res_bind]. rewrite (uadd_Ok _ c) by nia. cbn [mbind res_bind].
  rewrite umul_Ok by nia. cbn [mbind res_bind]. rewrite uadd_Ok by nia. done.
Qed.

Lemma obj_addr_aligned l s sl u slab c n : layout_for l s sl u → obj_layout_ok l → (layout_align l | slab) → (layout_align l | c) →
  (layout_align l | layout_size l) → (layout_align l | obj_addr sl slab c n).
Proof.
  intros (_ & Ho & _ & Hab & _) (_ & a & Ha & Ea) H1 H2 H3. unfold obj_addr. rewrite Hab, Ho. rewrite Ea in *.
  pose proof (obj_off_aligned a (SL.num_obj sl) ltac:(lia)).
  apply Z.divide_add_r; [|by apply Z.divide_mul_r]. do 2 (apply Z.divide_add_r; [|done]). done.
Qed.

(** C22: the layout of a slab.  A layout that [for_slab_size] returns for an
    object layout places, in every slab of the given size at an aligned address
    and for every color the allocator uses: the pointer stack after the
    header, every object after the stack and before the end of the slab,
    objects in order without overlap, each at the requested alignment; and it
    holds the largest number of objects that fits. *)
Theorem slab_layout_regions (l : Layout) (s : Z) (sl : SL.SLayout) (u slab c : Z) :
  obj_layout_ok l → slab_size_ok s → (layout_align l | layout_size l) →
  SL.for_slab_size l s = Ok (Some (sl, u)) →
  0 ≤ slab → slab + s < 2 ^ 64 → (layout_align l | slab) →
  0 ≤ c ≤ Color.max_color (SL.color_settings sl) → (layout_align l | c) →
  ¬ fits l s (SL.num_obj sl + 1) ∧
  ∃ stk, SL.stack_begin sl slab = Ok stk ∧ slab + hdr_size ≤ stk ∧ (8 | stk - slab) ∧
    ∀ n, 0 ≤ n < SL.num_obj sl →
      ∃ p, SL.nth_obj sl slab c n = Ok p ∧ (layout_align l | p) ∧
        stk + 8 * SL.num_obj sl ≤ p ∧ p + layout_size l ≤ slab + s ∧
        ∀ m q, n < m < SL.num_obj sl → SL.nth_obj sl slab c m = Ok q → p + layout_size l ≤ q.
Proof.
  intros Hl Hs Hdiv Hfor H0 Hslab Hal Hc Hca.
  assert (HL : layout_for l s sl u).
  { destruct (for_slab_size_spec l s Hl Hs) as [[E _]|(sl' & u' & E & HL)]; rewrite Hfor in E; [done|]. by simplify_eq. }
  pose proof (obj_layout_align l Hl) as Hpos. pose proof Hl as [Hsz _].
  pose proof HL as (H1 & Ho & Hst & Hab & _ & Hnf & _). split; [done|].
  pose proof (layout_for_color_room _ _ _ _ c HL Hl ltac:(lia)) as Hroom. unfold slab_size_ok in Hs.
  pose proof (obj_off_bounds (layout_align l) (SL.num_obj sl) ltac:(lia)) as Hob. rewrite <- Hab in Hob. unfold hdr_size in *.
  exists (slab + 32). split_and!; [unfold SL.stack_begin; rewrite Hst, uadd_Ok by lia; done|lia|exists 4; lia|].
  intros n Hn. exists (obj_addr sl slab c n). unfold obj_addr at 3 4 5. rewrite Ho. split_and!.
  - by eapply nth_obj_spec.
  - by eapply obj_addr_aligned.
  - nia.
  - nia.
  - intros m q Hm Hq. rewrite (nth_obj_spec l s sl u) in Hq by (done || lia). injection Hq as <-.
    unfold obj_addr. rewrite Ho. nia.
Qed.

Definition demo_layout : SL.SLayout := SL.mkSLayout 6 (mkLayout 600 8) 32 80 (Color.mkColorSettings 416 0).

Lemma slab_layout_regions_witness :
  SL.for_slab_size (mkLayout 600 8) 4096 = Ok (Some (demo_layout, 416)) ∧
  ∃ p, SL.nth_obj demo_layout 8192 416 3 = Ok p ∧ p + 600 ≤ 8192 + 4096.
Proof.
  split; [vm_compute; reflexivity|].
  destruct (slab_layout_regions (mkLayout 600 8) 4096 demo_layout 416 8192 416) as (_ & stk & _ & _ & _ & H).
  - split; [simpl; lia|]. exists 3. split; [lia|done].
  - unfold slab_size_ok. lia.
  - exists 75. done.
  - vm_compute. reflexivity.
  - lia.
  - lia.
  - exists 1024. done.
  - simpl. lia.
  - exists 52. done.
  - destruct (H 3) as (p & Hp & _ & _ & Hfit & _); [simpl; lia|]. exists p. split; [exact Hp|exact Hfit].
Defined.

(** Layouts that are not padded to their alignment are not honoured.  When
    the size of an object is not a multiple of its alignment, the second object
    of every slab that holds two is misaligned. *)
Theorem unpadded_layout_misaligns (l : Layout) (s : Z) (sl : SL.SLayout) (u slab c o : Z) :
  obj_layout_ok l → slab_size_ok s → ¬ (layout_align l | layout_size l) →
  SL.for_slab_size l s = Ok (Some (sl, u)) →
  0 ≤ slab → slab + s < 2 ^ 64 → (layout_align l | slab) →
  0 ≤ c ≤ Color.max_color (SL.color_settings sl) → (layout_align l | c) →
  2 ≤ SL.num_obj sl → SL.nth_obj sl slab c 1 = Ok o → ¬ (layout_align l | o).
Proof.
  intros Hl Hs Hdiv Hfor H0 Hslab Hal Hc Hca Hn Hobj Ho.
  assert (HL : layout_for l s sl u).
  { destruct (for_slab_size_spec l s Hl Hs) as [[E _]|(sl' & u' & E & HL)]; rewrite Hfor in E; [done|]. by simplify_eq. }
  rewrite (nth_obj_spec l s sl u) in Hobj by (done || lia). injection Hobj as <-. apply Hdiv.
  unfold obj_addr in Ho. destruct HL as (_ & HO & _ & Hab & _). rewrite HO, Z.mul_1_l, Hab in Ho.
  destruct Hl as (_ & a & Ha & Ea). rewrite Ea in *. pose proof (obj_off_aligned a (SL.num_obj sl) ltac:(lia)).
  eapply Z.divide_add_cancel_r; [|exact Ho]. do 2 (apply Z.divide_add_r; [|done]). done.
Qed.

Lemma unpadded_layout_misaligns_witness :
  ∃ sl u o, SL.for_slab_size (mkLayout 12 8) 4096 = Ok (Some (sl, u)) ∧ SL.nth_obj sl 8192 0 1 = Ok o ∧ ¬ (8 | o).
Proof.
  destruct (SL.for_slab_size (mkLayout 12 8) 4096) as [[[sl u]|]|] eqn:E; [|by vm_compute in E|by vm_compute in E].
  destruct (SL.nth_obj sl 8192 0 1) as [o|] eqn:Eo; [|exfalso; vm_compute in E; injection E as <- <-; by vm_compute in Eo].
  exists sl, u, o. split; [done|]. split; [done|].
  apply (unpadded_layout_misaligns (mkLayout 12 8) 4096 sl u 8192 0 o); try lia.
  - split; [cbn; lia|]. exists 3. split; [lia|done].
  - unfold slab_size_ok. lia.
  - intros [q Hq]. cbn in Hq. lia.
  - exact E.
  - exists 1024. done.
  - vm_compute in E. injection E as <- <-. cbn. lia.
  - exists 0. done.
  - vm_compute in E. injection E as <- <-. cbn. lia.
  - exact Eo.
Defined.

(** ** The choice of the slab size *)

(** The search ends when every state either yields a size that holds too many
    objects or moves to a state of smaller measure; it then returns a size [P]
    that holds objects. *)
Lemma choose_size_total {I : Type} (next : I → res (option (Z * I))) (unused : Z → res (option (Z * Z))) (max_objs : Z)
    (inv : I → Prop) (measure : I → nat) (P : Z → Prop) :
  (∀ st, inv st → ∃ s st' u, next st = Ok (Some (s, st')) ∧ unused s = Ok u ∧ (is_Some u → P s) ∧
     ((∃ o b, u = Some (o, b) ∧ max_objs < o) ∨ (inv st' ∧ (measure st' < measure st)%nat))) →
  ∀ fuel st, inv st → (measure st < fuel)%nat → ∃ r, SizeSel.choose_size next unused max_objs fuel st = Ok r ∧ P r.
Proof.
  intros Hstep fuel st Hinv Hfu. unfold SizeSel.choose_size.
  assert (∀ best mu, (∀ b, best = Some b → P b) →
    ∃ r, SizeSel.choose_size_loop next unused max_objs fuel st best mu = Ok (Some r) ∧ P r) as H.
  { revert st Hinv Hfu. induction fuel as [|fuel IH]; intros st Hinv Hfu best mu Hb; [lia|]. cbn [SizeSel.choose_size_loop].
    destruct (Hstep st Hinv) as (s & st' & u & -> & Hu & HP & Hor). cbn [mbind res_bind]. rewrite Hu. cbn [mbind res_bind].
    destruct u as [[o b]|].
    - specialize (HP ltac:(eauto)). destruct (Z.ltb_spec max_objs o); [destruct best; eauto|].
      destruct Hor as [(o' & b' & [= <- <-] & Ho)|[Hinv' Hm]]; [lia|].
      destruct (SizeSel.leq _ mu); apply IH; try done; try lia. by intros ? [= <-].
    - destruct Hor as [(o' & b' & [=] & _)|[Hinv' Hm]]. apply IH; (done || lia). }
  destruct (H None None) as (r & -> & HP); [done|]. cbn. eauto.
Qed.

(** A slab of this size or more holds more than eight objects. *)
Definition enough (l : Layout) : Z := 9 * layout_size l + layout_align l + 128.

Lemma unused_for_spec l s : obj_layout_ok l → slab_size_ok s →
  ∃ u, unused_for l s = Ok u ∧ (enough l ≤ s → ∃ o b, u = Some (o, b) ∧ OBJECTS_PER_SLAB < o) ∧
    (∀ o b, u = Some (o, b) → ∃ sl, SL.for_slab_size l s = Ok (Some (sl, b)) ∧ layout_for l s sl b).
Proof.
  intros Hl Hs. unfold unused_for. pose proof (obj_layout_align l Hl) as Hal.
  assert (H9 : enough l ≤ s → fits l s 9).
  { unfold enough, fits. pose proof (obj_off_bounds (layout_align l) 9 ltac:(lia)). unfold hdr_size in *. lia. }
  destruct (for_slab_size_spec l s Hl Hs) as [[-> Hnf]|(sl & b & -> & HL)]; cbn [mbind res_bind].
  - exists None. split_and!; [done| |done]. intros H. destruct Hnf. apply (fits_mono l s 1 9 Hl); [lia|auto].
  - eexists. split_and!; [done| |intros o b' [= <- <-]; eauto].
    intros H. exists (SL.num_obj sl), b. split; [done|]. pose proof HL as (H1 & _ & _ & _ & _ & Hnf & _).
    unfold OBJECTS_PER_SLAB. destruct (decide (8 < SL.num_obj sl)) as [|Hn]; [done|].
    destruct Hnf. apply (fits_mono l s _ 9 Hl); [lia|auto].
Qed.

Lemma aligned_next k : 0 ≤ k < 63 → Aligned.next (2 ^ k) = Ok (Some (2 ^ (k + 1), 2 ^ (k + 1))).
Proof.
  intros Hk. unfold Aligned.next, ushl. rewrite (proj2 (Z.ltb_lt 1 64)) by lia. cbn [mbind res_bind].
  assert (E : 2 ^ (k + 1) = 2 ^ k * 2) by (by rewrite Z.pow_add_r by lia).
  assert (2 ^ (k + 1) ≤ 2 ^ 63) by (apply Z.pow_le_mono_r; lia). pose proof (pow2_pos k ltac:(lia)).
  rewrite Z.shiftl_mul_pow2 by lia. unfold wrap. rewrite Z.pow_1_r, Z.mod_small, (proj2 (Z.eqb_neq _ _)) by lia.
  rewrite umul_Ok by lia. cbn [mbind res_bind]. by rewrite E.
Qed.


(** What the builder needs of a slab size: a slab layout exists for it. *)
Definition usable (l : Layout) (s : Z) : Prop :=
  slab_size_ok s ∧ ∃ sl b, SL.for_slab_size l s = Ok (Some (sl, b)) ∧ layout_for l s sl b.

Lemma enough_small l : obj_layout_ok l → 128 < enough l < 2 ^ 60.
Proof. intros Hl. pose proof (obj_layout_align l Hl). destruct Hl as [? _]. unfold enough. lia. Qed.

Lemma aligned_backing_size_spec (p : Z) (l : Layout) :
  obj_layout_ok l → 0 ≤ p ≤ 30 →
  ∃ k, Aligned.backing_size_for (2 ^ p) l = Ok (2 ^ k) ∧ p < k ≤ 61 ∧ usable l (2 ^ k) ∧
    (2 ^ k < 2 * enough l ∨ k = p + 1).
Proof.
  intros Hl Hp. pose proof (enough_small l Hl) as Hen.
  destruct (choose_size_total Aligned.next (unused_for l) OBJECTS_PER_SLAB
    (fun st => ∃ k, st = 2 ^ k ∧ p ≤ k ≤ 60 ∧ (2 ^ k < enough l ∨ k = p)) (fun st => Z.to_nat (60 - Z.log2 st))
    (fun s => ∃ k, s = 2 ^ k ∧ p < k ≤ 61 ∧ usable l s ∧ (2 ^ k < 2 * enough l ∨ k = p + 1))) with (fuel := 64%nat) (st := 2 ^ p)
    as (r & Hr & k & -> & Hk & Hu & Hsm).
  - intros st (k & -> & Hk & Hsm). exists (2 ^ (k + 1)), (2 ^ (k + 1)).
    assert (slab_size_ok (2 ^ (k + 1))) as Hok.
    { unfold slab_size_ok. pose proof (pow2_pos (k + 1)). assert (2 ^ (k + 1) ≤ 2 ^ 61) by (apply Z.pow_le_mono_r; lia). lia. }
    destruct (unused_for_spec l (2 ^ (k + 1)) Hl Hok) as (u & Hu & Hbig & Hsome). exists u.
    split_and!; [apply aligned_next; lia|done| |].
    + intros [[o b] ->]. exists (k + 1). split; [done|]. split; [lia|]. destruct (Hsome o b eq_refl) as (sl & ? & ?).
      split; [split; [done|]; eauto|]. destruct Hsm as [Hsm| ->]; [left|by right]. rewrite Z.pow_add_r by lia. lia.
    + destruct (decide (enough l ≤ 2 ^ (k + 1))) as [|Hlt]; [auto|]. right.
      assert (k + 1 < 60). { assert (2 ^ (k + 1) < 2 ^ 60) as H by lia. apply Z.pow_lt_mono_r_iff in H; lia. }
      split; [exists (k + 1); split; [done|split; [lia|left; lia]]|]. rewrite !Z.log2_pow2 by lia. lia.
  - exists p. split; [done|]. split; [lia|by right].
  - rewrite Z.log2_pow2 by lia. lia.
  - exists k. done.
Qed.

(** C23: aligned slabs always get a size.  For every object layout below 2^56
    bytes the search over powers of two ends, without overflow, in a size that
    is a power of two greater than a page and for which a slab layout exists:
    the [expect] of [choose_size] and the [unwrap] of [System::new] in the
    builder cannot fail. *)
Theorem aligned_backing_size_total (p : Z) (l : Layout) :
  obj_layout_ok l → 0 ≤ p ≤ 30 →
  ∃ k, Aligned.backing_size_for (2 ^ p) l = Ok (2 ^ k) ∧ p < k ≤ 61 ∧ usable l (2 ^ k).
Proof.
  intros Hl Hp. destruct (aligned_backing_size_spec p l Hl Hp) as (k & ? & ? & ? & _). eauto.
Qed.

Lemma aligned_backing_size_total_witness :
  ∃ k, Aligned.backing_size_for (2 ^ 12) (mkLayout 1000 8) = Ok (2 ^ k) ∧ 12 < k ≤ 61 ∧ usable (mkLayout 1000 8) (2 ^ k).
Proof.
  apply (aligned_backing_size_total 12 (mkLayout 1000 8)); [|lia].
  split; [simpl; lia|]. exists 3. split; [lia|done].
Defined.

Lemma large_next_spec page st : 0 < page ≤ 2 ^ 31 → 0 ≤ st < 2 ^ 61 →
  Large.next page st = Ok (Some (st + page, st + page)).
Proof.
  intros Hp Hst. unfold Large.next, wadd, wrap. rewrite Z.mod_small by lia. by rewrite (proj2 (Z.ltb_lt _ _)) by lia.
Qed.

Lemma large_init_spec page l : 0 < page ≤ 2 ^ 31 → obj_layout_ok l →
  ∃ i, Large.init_size page l = Ok i ∧ (page | i) ∧ 0 ≤ i ≤ layout_size l.
Proof.
  intros Hp (Hs & _). unfold Large.init_size. rewrite umod_Ok by lia. cbn [mbind res_bind].
  pose proof (Z.div_mod (layout_size l) page ltac:(lia)) as E. pose proof (Z.mod_pos_bound (layout_size l) page ltac:(lia)).
  destruct (Z.eqb_spec (layout_size l mod page) 0) as [E0|_].
  - exists (layout_size l). split; [done|]. split; [by apply Z.mod_divide; [lia|]|lia].
  - rewrite udiv_Ok by lia. cbn [mbind res_bind]. pose proof (Z.div_pos (layout_size l) page). rewrite umul_Ok by lia.
    exists (layout_size l / page * page). split; [done|]. split; [by exists (layout_size l / page)|lia].
Qed.

Lemma large_backing_size_spec (page : Z) (l : Layout) :
  obj_layout_ok l → 0 < page ≤ 2 ^ 31 →
  ∃ s, Large.backing_size_for page l = Ok s ∧ (page | s) ∧ 0 < s ∧ usable l s.
Proof.
  intros Hl Hp. pose proof (enough_small l Hl) as Hen. unfold Large.backing_size_for.
  destruct (large_init_spec page l Hp Hl) as (i & -> & Hi & Hi0). cbn [mbind res_bind]. pose proof Hl as [Hsz _].
  destruct (choose_size_total (Large.next page) (unused_for l) OBJECTS_PER_SLAB
    (fun st => (page | st) ∧ 0 ≤ st < enough l) (fun st => Z.to_nat ((enough l - st) / page))
    (fun s => (page | s) ∧ 0 < s ∧ usable l s)) with (fuel := Large.page_fuel page l) (st := i)
    as (r & Hr & ? & ? & ?).
  - intros st (Hd & Hst). exists (st + page), (st + page).
    assert (slab_size_ok (st + page)) as Hok by (unfold slab_size_ok; lia).
    assert (page | st + page) by (apply Z.divide_add_r; [done|apply Z.divide_refl]).
    destruct (unused_for_spec l (st + page) Hl Hok) as (u & Hu & Hbig & Hsome). exists u.
    split_and!; [apply large_next_spec; lia|done| |].
    + intros [[o b] ->]. split; [done|]. split; [lia|]. destruct (Hsome o b eq_refl) as (sl & ? & ?). split; [done|]. eauto.
    + destruct (decide (enough l ≤ st + page)) as [|Hlt]; [auto|]. right. split; [split; [done|lia]|].
      replace (enough l - (st + page)) with (enough l - st + -1 * page) by lia. rewrite Z.div_add by lia.
      assert (1 ≤ (enough l - st) / page) by (apply Z.div_le_lower_bound; lia). lia.
  - split; [done|]. unfold enough. pose proof (obj_layout_align l Hl). lia.
  - unfold Large.page_fuel, enough. pose proof (obj_layout_align l Hl).
    assert ((9 * layout_size l + layout_align l + 128 - i) / page ≤ (9 * layout_size l + layout_align l + 128) / page)
      by (apply Z.div_le_mono; lia).
    assert (0 ≤ (9 * layout_size l + layout_align l + 128 - i) / page) by (apply Z.div_pos; lia). lia.
  - eauto.
Qed.

(** Large slabs always get a size.  For every object layout below 2^56
    bytes the page-by-page search ends in a positive multiple of the page size
    for which a slab layout exists. *)
Theorem large_backing_size_total (page : Z) (l : Layout) :
  obj_layout_ok l → 0 < page ≤ 2 ^ 31 →
  ∃ s, Large.backing_size_for page l = Ok s ∧ (page | s) ∧ 0 < s ∧ usable l s.
Proof. apply large_backing_size_spec. Qed.

Lemma large_backing_size_total_witness :
  ∃ s, Large.backing_size_for 4096 (mkLayout 5000 8) = Ok s ∧ (4096 | s) ∧ 0 < s ∧ usable (mkLayout 5000 8) s.
Proof.
  apply (large_backing_size_total 4096 (mkLayout 5000 8)); [|lia].
  split; [simpl; lia|]. exists 3. split; [lia|done].
Defined.
