(* ===== verification/SlabIface.v ===== *)
(** * The interface between the slab allocator and its slabs

    The trait [SlabSystem] of [src/slab-alloc/src/lib.rs], with what its
    documentation promises as laws.  [SlabAlloc] is proved against this
    interface and [SlabSystem] implements it for the stack-based slabs.

    The abstract view of a slab is the list of all its objects and the list of
    those available for allocation, the next one to hand out last. *)

From Stdlib Require Import ZArith Lia.
From S2P Require Import Prelude SlabList InitSystem.
From stdpp Require Import base numbers list gmap option fin_maps.

Open Scope Z_scope.

Record SlabAbs := mkSlabAbs { sa_all : list Z; sa_avail : list Z }.

(** Slab address to abstract slab. *)
Abbreviation Slabs := (gmap Z SlabAbs).

(** Objects handed out: in a slab and not available in it. *)
Definition is_allocated (A : Slabs) (o : Z) : Prop :=
  ∃ p a, A !! p = Some a ∧ o ∈ sa_all a ∧ o ∉ sa_avail a.

Definition is_available (A : Slabs) (o : Z) : Prop := ∃ p a, A !! p = Some a ∧ o ∈ sa_avail a.

(** Slabs hold distinct objects, none shared, at nonnull machine addresses. *)
Definition abs_wf (A : Slabs) : Prop :=
  (∀ p a, A !! p = Some a →
     0 < p < 2 ^ 64 ∧ sa_all a ≠ [] ∧ NoDup (sa_all a) ∧ NoDup (sa_avail a) ∧ sa_avail a ⊆ sa_all a ∧
     ∀ o, o ∈ sa_all a → 0 < o < 2 ^ 64) ∧
  (∀ p q a b o, A !! p = Some a → A !! q = Some b → o ∈ sa_all a → o ∈ sa_all b → p = q).

(** Two heaps with the same links everywhere. *)
Definition same_links {H} `{!Linkable H} (m m' : gmap Z H) : Prop :=
  ∀ a, (fun n => (lk_next n, lk_prev n)) <$> m' !! a = (fun n => (lk_next n, lk_prev n)) <$> m !! a.

Section iface.
Context {Status : Type} `{!InitSystem Status}.

(** The status recorded for an object agrees with memory. *)
Definition status_ok (objs : gset Z) (o : Z) (st : Status) : Prop :=
  ∀ b, tracked st = Some b → b = bool_decide (o ∈ objs).

(** [trait SlabSystem].  [S] is the state of the system with the memory it
    works on: the heap of slab headers, and the set of addresses that hold
    valid objects. *)
Class SlabSystem (S H : Type) `{!Linkable H} := {
  sys_heap : S → gmap Z H;
  set_heap : S → gmap Z H → S;
  sys_objs : S → gset Z;
  set_objs : S → gset Z → S;
  sys_alloc_slab : S → res (Z * S);
  sys_dealloc_slab : S → Z → res S;
  sys_is_full : S → Z → res bool;
  sys_is_empty : S → Z → res bool;
  sys_alloc : S → Z → res (Z * Status * S);
  sys_dealloc : S → Z → Status → res (Z * bool * S);
  obj_align : Z;

  (** the abstraction *)
  sys_inv : S → Slabs → Prop;
  sys_inv_wf s A : sys_inv s A → abs_wf A;
  sys_inv_aligned s A p a o : sys_inv s A → A !! p = Some a → o ∈ sa_all a → (obj_align | o);
  sys_heap_dom s A : sys_inv s A → dom (sys_heap s) = dom A;

  (** the two parts of memory the allocator itself changes *)
  heap_set_heap s m : sys_heap (set_heap s m) = m;
  objs_set_heap s m : sys_objs (set_heap s m) = sys_objs s;
  heap_set_objs s o : sys_heap (set_objs s o) = sys_heap s;
  objs_set_objs s o : sys_objs (set_objs s o) = o;
  set_heap_inv s A xs m : sys_inv s A → LL.links_only xs (sys_heap s) m → sys_inv (set_heap s m) A;
  set_objs_inv s A objs : sys_inv s A → (∀ o, is_available A o → o ∈ objs ↔ o ∈ sys_objs s) →
    (∀ o, o ∈ objs → o ∈ sys_objs s ∨ is_allocated A o) → sys_inv (set_objs s objs) A;

  (** [alloc_slab]: null, or a new slab with null links, every object available. *)
  alloc_slab_spec s A : sys_inv s A →
    ∃ p s', sys_alloc_slab s = Ok (p, s') ∧ sys_objs s' = sys_objs s ∧
      ((p = 0 ∧ sys_inv s' A ∧ sys_heap s' = sys_heap s) ∨
       (A !! p = None ∧ ∃ all avail h, sys_inv s' (<[p:=mkSlabAbs all avail]> A) ∧ Permutation avail all ∧
          sys_heap s' = <[p:=h]> (sys_heap s) ∧ lk_next h = 0 ∧ lk_prev h = 0));

  (** [dealloc_slab] of a slab with every object available. *)
  dealloc_slab_spec s A p a : sys_inv s A → A !! p = Some a → Permutation (sa_avail a) (sa_all a) →
    ∃ s', sys_dealloc_slab s p = Ok s' ∧ sys_inv s' (delete p A) ∧ sys_heap s' = delete p (sys_heap s) ∧
      ∀ o, o ∈ sys_objs s' ↔ o ∈ sys_objs s ∧ (o ∈ sa_all a → ∀ st : Status, tracked st = None);

  is_full_spec s A p a : sys_inv s A → A !! p = Some a →
    sys_is_full s p = Ok (bool_decide (length (sa_avail a) = length (sa_all a)));
  is_empty_spec s A p a : sys_inv s A → A !! p = Some a →
    sys_is_empty s p = Ok (bool_decide (sa_avail a = []));

  (** [alloc] from a slab that is not empty. *)
  sys_alloc_spec s A p all avail o : sys_inv s A → A !! p = Some (mkSlabAbs all (avail ++ [o])) →
    ∃ st s', sys_alloc s p = Ok (o, st, s') ∧ status_ok (sys_objs s) o st ∧
      sys_inv s' (<[p:=mkSlabAbs all avail]> A) ∧ same_links (sys_heap s) (sys_heap s') ∧ sys_objs s' = sys_objs s;

  (** [dealloc] of an object that was handed out. *)
  sys_dealloc_spec s A p all avail o st : sys_inv s A → A !! p = Some (mkSlabAbs all avail) → o ∈ all → o ∉ avail →
    status_ok (sys_objs s) o st →
    ∃ s', sys_dealloc s o st = Ok (p, bool_decide (avail = []), s') ∧
      sys_inv s' (<[p:=mkSlabAbs all (avail ++ [o])]> A) ∧ same_links (sys_heap s) (sys_heap s') ∧
      sys_objs s' = sys_objs s;
}.
End iface.

(** ** Lemmas on links *)
Section links.
Context {H : Type} `{!Linkable H}.

Lemma same_links_lookup (m m' : gmap Z H) a n : same_links m m' → m !! a = Some n →
  ∃ n', m' !! a = Some n' ∧ lk_next n' = lk_next n ∧ lk_prev n' = lk_prev n.
Proof.
  intros Hs Ha. specialize (Hs a). rewrite Ha in Hs. destruct (m' !! a) as [n'|]; [|done]. simpl in Hs.
  injection Hs as ? ?. eauto.
Qed.

Lemma seg_same_links (m m' : gmap Z H) p xs q : same_links m m' → LL.seg m p xs q → LL.seg m' p xs q.
Proof.
  intros Hs. revert p. induction xs as [|x xs IH]; intros p; simpl; [done|]. intros (H0 & (n & Hn & Hp & Hq) & Hseg).
  destruct (same_links_lookup _ _ _ _ Hs Hn) as (n' & Hn' & En & Ep). split; [done|]. split; [|by apply IH].
  exists n'. by rewrite En, Ep.
Qed.

Lemma repr_same_links l (m m' : gmap Z H) xs : same_links m m' → LL.repr l m xs → LL.repr l m' xs.
Proof. intros Hs (? & Hseg & ?). split; [done|]. split; [by eapply seg_same_links|done]. Qed.

Lemma unlinked_same_links (m m' : gmap Z H) t : same_links m m' → LL.unlinked m t → LL.unlinked m' t.
Proof.
  intros Hs (H0 & n & Hn & Hp & Hq). split; [done|]. destruct (same_links_lookup _ _ _ _ Hs Hn) as (n' & Hn' & En & Ep).
  exists n'. by rewrite En, Ep.
Qed.

(** A list does not depend on nodes outside it. *)
Lemma seg_frame_ext (m m' : gmap Z H) p xs q : (∀ a, a ∈ xs → m' !! a = m !! a) → LL.seg m p xs q → LL.seg m' p xs q.
Proof.
  intros Hf. revert p. induction xs as [|x xs IH]; intros p; simpl; [done|]. intros (H0 & (n & Hn & Hpq) & Hseg).
  split; [done|]. split; [exists n; rewrite Hf by set_solver; done|]. apply IH; [|done]. intros a Ha. apply Hf. set_solver.
Qed.

Lemma repr_frame l (m m' : gmap Z H) xs : (∀ a, a ∈ xs → m' !! a = m !! a) → LL.repr l m xs → LL.repr l m' xs.
Proof. intros Hs (? & Hseg & ?). split; [done|]. split; [by eapply seg_frame_ext|done]. Qed.

Lemma unlinked_frame (m m' : gmap Z H) t : m' !! t = m !! t → LL.unlinked m t → LL.unlinked m' t.
Proof. intros E (H0 & n & Hn & ?). split; [done|]. exists n. by rewrite E. Qed.
End links.

(** ** Lemmas on abstract slabs *)
Lemma Permutation_full (all avail : list Z) : NoDup all → NoDup avail → avail ⊆ all →
  length avail = length all → Permutation avail all.
Proof.
  intros Hn Hn' Hs Hl. apply submseteq_length_Permutation; [by apply NoDup_submseteq|lia].
Qed.

(** Distinct machine addresses are fewer than 2^64. *)
Lemma usize_set_bound (X : gset Z) : (∀ x, x ∈ X → 0 < x < 2 ^ 64) → Z.of_nat (size X) < 2 ^ 64.
Proof.
  intros HX. assert (X ⊆ list_to_set (zrange 1 (2 ^ 64))) as Hsub.
  { intros x Hx. apply elem_of_list_to_set, elem_of_zrange. specialize (HX x Hx). lia. }
  apply subseteq_size in Hsub. rewrite size_list_to_set, length_zrange in Hsub by apply NoDup_zrange. lia.
Qed.

Lemma slabs_bound A : abs_wf A → Z.of_nat (size (dom A)) < 2 ^ 64.
Proof. intros [HA _]. apply usize_set_bound. intros p [a Ha]%elem_of_dom. by destruct (HA p a Ha). Qed.
