(* ===== verification/SlabAlloc.v ===== *)
(** * The slab allocator

    Models [SizedSlabAlloc] of [src/slab-alloc/src/lib.rs] over the
    [SlabSystem] interface: the freelist of slabs (partial slabs first, then
    full ones), the counters, the working set of full slabs, allocation,
    deallocation, collection of slabs that stayed full for a working period,
    and the destructor.  The current time is an argument, in nanoseconds. *)

From Stdlib Require Import ZArith Lia.
From S2P Require Import Prelude StdAlloc SlabUtil SlabList InitSystem SlabIface.
From stdpp Require Import base numbers list gmap option fin_maps.

Open Scope Z_scope.

Definition WORKING_PERIOD_SECONDS : Z := 15.

Record SizedSlabAlloc (S : Type) := mkSized {
  freelist : LinkedList;
  total_slabs : Z;
  num_full : Z;
  refcnt : Z;
  full_slab_working_set : WS.WorkingSet;
  slab_system : S;
  layout : Layout
}.
Arguments mkSized {S}.
Arguments freelist {S}.
Arguments total_slabs {S}.
Arguments num_full {S}.
Arguments refcnt {S}.
Arguments full_slab_working_set {S}.
Arguments slab_system {S}.
Arguments layout {S}.

Module SSA.
Section ops.
Context {Status : Type} `{!InitSystem Status} {S H : Type} `{!Linkable H} `{!SlabSystem (Status := Status) S H}.

Definition new (layout : Layout) (slabs : S) (now : Z) : SizedSlabAlloc S :=
  mkSized LL.new 0 0 0 (WS.new 0 now) slabs layout.

(** List operations run on the heap of the slab system. *)
Definition list_insert_back (x : SizedSlabAlloc S) (t : Z) : res (SizedSlabAlloc S) :=
  '(l, m) ← LL.insert_back (freelist x) (sys_heap (slab_system x)) t;
  Ok (mkSized l (total_slabs x) (num_full x) (refcnt x) (full_slab_working_set x) (set_heap (slab_system x) m) (layout x)).
Definition list_insert_front (x : SizedSlabAlloc S) (t : Z) : res (SizedSlabAlloc S) :=
  '(l, m) ← LL.insert_front (freelist x) (sys_heap (slab_system x)) t;
  Ok (mkSized l (total_slabs x) (num_full x) (refcnt x) (full_slab_working_set x) (set_heap (slab_system x) m) (layout x)).
Definition list_move_to_back (x : SizedSlabAlloc S) (t : Z) : res (SizedSlabAlloc S) :=
  '(l, m) ← LL.move_to_back (freelist x) (sys_heap (slab_system x)) t;
  Ok (mkSized l (total_slabs x) (num_full x) (refcnt x) (full_slab_working_set x) (set_heap (slab_system x) m) (layout x)).
Definition list_remove_front (x : SizedSlabAlloc S) : res (Z * SizedSlabAlloc S) :=
  '(t, l, m) ← LL.remove_front (freelist x) (sys_heap (slab_system x));
  Ok (t, mkSized l (total_slabs x) (num_full x) (refcnt x) (full_slab_working_set x) (set_heap (slab_system x) m) (layout x)).
Definition list_remove_back (x : SizedSlabAlloc S) : res (Z * SizedSlabAlloc S) :=
  '(t, l, m) ← LL.remove_back (freelist x) (sys_heap (slab_system x));
  Ok (t, mkSized l (total_slabs x) (num_full x) (refcnt x) (full_slab_working_set x) (set_heap (slab_system x) m) (layout x)).

Definition set_system (x : SizedSlabAlloc S) (s : S) : SizedSlabAlloc S :=
  mkSized (freelist x) (total_slabs x) (num_full x) (refcnt x) (full_slab_working_set x) s (layout x).
Definition set_counts (x : SizedSlabAlloc S) (total full rc : Z) : SizedSlabAlloc S :=
  mkSized (freelist x) total full rc (full_slab_working_set x) (slab_system x) (layout x).
Definition set_ws (x : SizedSlabAlloc S) (w : WS.WorkingSet) : SizedSlabAlloc S :=
  mkSized (freelist x) (total_slabs x) (num_full x) (refcnt x) w (slab_system x) (layout x).

Definition alloc_slab (x : SizedSlabAlloc S) : res (bool * SizedSlabAlloc S) :=
  '(new, s) ← sys_alloc_slab (slab_system x);
  let x := set_system x s in
  if new =? 0 then Ok (false, x)
  else
    x ← list_insert_back x new;
    total ← uadd (total_slabs x) 1;
    full ← uadd (num_full x) 1;
    Ok (true, set_counts x total full (refcnt x)).

(** [Err(Exhausted)] is [None]. *)
Definition alloc (x : SizedSlabAlloc S) : res (option Z * SizedSlabAlloc S) :=
  '(ok, x) ← (if ll_size (freelist x) =? 0 then alloc_slab x else Ok (true, x));
  if negb ok then Ok (None, x)
  else
    slab ← LL.peek_front (freelist x);
    full ← sys_is_full (slab_system x) slab;
    x ← (if (full : bool) then
           n ← usub (num_full x) 1;
           let x := set_counts x (total_slabs x) n (refcnt x) in
           Ok (set_ws x (WS.update_min (full_slab_working_set x) n))
         else Ok x);
    '(obj, init_status, s) ← sys_alloc (slab_system x) slab;
    let x := set_system x s in
    empty ← sys_is_empty (slab_system x) slab;
    x ← (if (empty : bool) then '(_, x) ← list_remove_front x; Ok x else Ok x);
    rc ← uadd (refcnt x) 1;
    let x := set_counts x (total_slabs x) (num_full x) rc in
    r ← umod obj (layout_align (layout x));
    _ ← rassert (r =? 0);
    let s := slab_system x in
    Ok (Some obj, set_system x (set_objs s (init (sys_objs s) obj init_status))).

(** The body of the loop of [garbage_collect_slabs]. *)
Definition collect_one (x : SizedSlabAlloc S) (_ : Z) : res (SizedSlabAlloc S) :=
  '(slab, x) ← list_remove_back x;
  s ← sys_dealloc_slab (slab_system x) slab;
  let x := set_system x s in
  total ← usub (total_slabs x) 1;
  full ← usub (num_full x) 1;
  Ok (set_counts x total full (refcnt x)).

Definition garbage_collect_slabs (x : SizedSlabAlloc S) (now : Z) : res (SizedSlabAlloc S) :=
  '(r, w) ← WS.refresh_now (full_slab_working_set x) WORKING_PERIOD_SECONDS now;
  let x := set_ws x w in
  match r with
  | Some min_full =>
      x ← rfold collect_one (zrange 0 min_full) x;
      Ok (set_ws x (WS.set (full_slab_working_set x) (num_full x)))
  | None => Ok x
  end.

Definition dealloc (x : SizedSlabAlloc S) (ptr now : Z) : res (SizedSlabAlloc S) :=
  r ← umod ptr (layout_align (layout x));
  _ ← rassert (r =? 0);
  '(slab, was_empty, s) ← sys_dealloc (slab_system x) ptr status_initialized;
  let x := set_system x s in
  is_full ← (sys_is_full (slab_system x) slab : res bool);
  x ← (match (was_empty : bool), (is_full : bool) with
       | false, true =>
           x ← list_move_to_back x slab;
           n ← uadd (num_full x) 1; Ok (set_counts x (total_slabs x) n (refcnt x))
       | true, true =>
           x ← list_insert_back x slab;
           n ← uadd (num_full x) 1; Ok (set_counts x (total_slabs x) n (refcnt x))
       | true, false => list_insert_front x slab
       | false, false => Ok x
       end);
  x ← (if (is_full : bool) then garbage_collect_slabs x now else Ok x);
  rc ← usub (refcnt x) 1;
  Ok (set_counts x (total_slabs x) (num_full x) rc).

(** The [while] of [Drop::drop]; it takes one slab off the list per round. *)
Fixpoint drop_loop (fuel : nat) (x : SizedSlabAlloc S) : res (SizedSlabAlloc S) :=
  match fuel with
  | O => Fault NoFuel
  | Datatypes.S fuel =>
      if 0 <? ll_size (freelist x) then
        '(slab, x) ← list_remove_front x;
        s ← sys_dealloc_slab (slab_system x) slab;
        drop_loop fuel (set_system x s)
      else Ok x
  end.

(** [Drop::drop] outside of a panic. *)
Definition drop (x : SizedSlabAlloc S) : res (SizedSlabAlloc S) :=
  _ ← rassert (refcnt x =? 0);
  drop_loop (Z.to_nat (ll_size (freelist x)) + 1) x.
End ops.
End SSA.

(** ** The invariant *)
Section proofs.
Context {Status : Type} `{!InitSystem Status} {S H : Type} `{!Linkable H} `{!SlabSystem (Status := Status) S H}.
Implicit Types x : SizedSlabAlloc S.

(** The freelist holds the slabs [xs]; every other slab has null links. *)
Definition linked x (A : Slabs) (xs : list Z) : Prop :=
  sys_inv (slab_system x) A ∧ LL.repr (freelist x) (sys_heap (slab_system x)) xs ∧
  (∀ p, p ∈ xs → p ∈ dom A) ∧ (∀ p, p ∈ dom A → p ∉ xs → LL.unlinked (sys_heap (slab_system x)) p).

(** Everything but the list and the heap is the same. *)
Definition same_rest x x' : Prop :=
  total_slabs x' = total_slabs x ∧ num_full x' = num_full x ∧ refcnt x' = refcnt x ∧
  full_slab_working_set x' = full_slab_working_set x ∧ layout x' = layout x ∧
  sys_objs (slab_system x') = sys_objs (slab_system x).

(** The same working period and layout, and the working set is the minimum of
    what it was and the number of full slabs now. *)
Definition same_env x x' : Prop :=
  WS.period_begin (full_slab_working_set x') = WS.period_begin (full_slab_working_set x) ∧ layout x' = layout x ∧
  WS.data (full_slab_working_set x') = Z.min (WS.data (full_slab_working_set x)) (num_full x').

Definition is_full_slab (a : SlabAbs) : Prop := length (sa_avail a) = length (sa_all a).
Definition is_partial_slab (a : SlabAbs) : Prop := sa_avail a ≠ [] ∧ ¬ is_full_slab a.

(** The allocator with slabs [A] has handed out exactly the objects [X]; all of
    the invariant but the reference count and the working set. *)
Definition core x (A : Slabs) (X : gset Z) : Prop :=
  ∃ ps fs, linked x A (ps ++ fs) ∧
    (∀ p, p ∈ ps → ∃ a, A !! p = Some a ∧ is_partial_slab a) ∧
    (∀ p, p ∈ fs → ∃ a, A !! p = Some a ∧ is_full_slab a) ∧
    (∀ p a, A !! p = Some a → p ∉ ps ++ fs → sa_avail a = []) ∧
    (∀ o, o ∈ X ↔ is_allocated A o) ∧
    (∀ o, o ∈ X → status_ok (sys_objs (slab_system x)) o status_initialized) ∧
    total_slabs x = Z.of_nat (size (dom A)) ∧ num_full x = Z.of_nat (length fs) ∧
    0 < layout_align (layout x) ∧ (layout_align (layout x) | obj_align).

Definition sized_inv x (A : Slabs) (X : gset Z) : Prop :=
  core x A X ∧ refcnt x = Z.of_nat (size X) ∧ 0 ≤ WS.data (full_slab_working_set x) ≤ num_full x.

(** *** The freelist *)
Lemma linked_short x A xs p : linked x A xs → p ∈ dom A → p ∉ xs → Z.of_nat (length xs) + 1 < 2 ^ 64.
Proof.
  intros (Hs & Hr & Hd & _) Hp Hpx. pose proof (slabs_bound A (sys_inv_wf _ _ Hs)) as Hb. pose proof Hr as (Hnd & _).
  assert (Hle : (size (list_to_set (C := gset Z) (p :: xs)) ≤ size (dom A))%nat).
  { apply subseteq_size. intros q. rewrite elem_of_list_to_set, elem_of_cons. intros [->|?]; [done|by apply Hd]. }
  rewrite size_list_to_set in Hle by (by apply list.NoDup_cons). simpl in Hle. lia.
Qed.

(** Restoring [linked] after a list operation that changed links only. *)
Lemma linked_relink x A xs l m xs' ys : linked x A xs → LL.repr l m xs' → LL.links_only ys (sys_heap (slab_system x)) m →
  (∀ p, p ∈ ys → p ∈ xs ∨ p ∈ xs') → (∀ p, p ∈ xs' → p ∈ dom A) → (∀ p, p ∈ xs → p ∉ xs' → LL.unlinked m p) →
  linked (mkSized l (total_slabs x) (num_full x) (refcnt x) (full_slab_working_set x) (set_heap (slab_system x) m) (layout x)) A xs'.
Proof.
  intros (Hs & Hr & Hd & Hu) Hr' HL Hys Hd' Hu'. unfold linked. cbn [slab_system freelist]. rewrite heap_set_heap.
  refine (conj _ (conj Hr' (conj Hd' _))); [by eapply set_heap_inv|].
  intros p Hp Hpx. destruct (decide (p ∈ xs)) as [|Hn]; [by apply Hu'|].
  destruct HL as [HL _]. eapply unlinked_frame; [apply HL|by apply Hu]. intros [?|?]%Hys; done.
Qed.

Lemma linked_insert_back x A xs p : linked x A xs → p ∈ dom A → p ∉ xs →
  ∃ x', SSA.list_insert_back x p = Ok x' ∧ linked x' A (xs ++ [p]) ∧ same_rest x x'.
Proof.
  intros HL Hp Hpx. pose proof (linked_short _ _ _ _ HL Hp Hpx) as Hlen. pose proof HL as (Hs & Hr & Hd & Hu).
  unfold SSA.list_insert_back.
  destruct (insert_back_spec _ _ _ _ Hr Hpx (Hu p Hp Hpx) Hlen) as (l' & m' & -> & Hr' & Hlo). cbn [mbind res_bind].
  eexists. split; [done|]. split; [|unfold same_rest; cbn; by rewrite objs_set_heap].
  eapply linked_relink; [done..| | |]; set_solver.
Qed.

Lemma linked_insert_front x A xs p : linked x A xs → p ∈ dom A → p ∉ xs →
  ∃ x', SSA.list_insert_front x p = Ok x' ∧ linked x' A (p :: xs) ∧ same_rest x x'.
Proof.
  intros HL Hp Hpx. pose proof (linked_short _ _ _ _ HL Hp Hpx) as Hlen. pose proof HL as (Hs & Hr & Hd & Hu).
  unfold SSA.list_insert_front.
  destruct (insert_front_spec _ _ _ _ Hr Hpx (Hu p Hp Hpx) Hlen) as (l' & m' & -> & Hr' & Hlo). cbn [mbind res_bind].
  eexists. split; [done|]. split; [|unfold same_rest; cbn; by rewrite objs_set_heap].
  eapply linked_relink; [done..| | |]; set_solver.
Qed.

Lemma linked_move_to_back x A l1 p l2 : linked x A (l1 ++ p :: l2) →
  ∃ x', SSA.list_move_to_back x p = Ok x' ∧ linked x' A (l1 ++ l2 ++ [p]) ∧ same_rest x x'.
Proof.
  intros HL. pose proof HL as (Hs & Hr & Hd & Hu). unfold SSA.list_move_to_back.
  destruct (move_to_back_spec _ _ _ _ _ Hr) as (l' & m' & -> & Hr' & Hlo). cbn [mbind res_bind].
  eexists. split; [done|]. split; [|unfold same_rest; cbn; by rewrite objs_set_heap].
  eapply linked_relink; [done..| | |]; set_solver.
Qed.

Lemma linked_remove_front x A p xs : linked x A (p :: xs) →
  ∃ x', SSA.list_remove_front x = Ok (p, x') ∧ linked x' A xs ∧ same_rest x x'.
Proof.
  intros HL. pose proof HL as (Hs & Hr & Hd & Hu). unfold SSA.list_remove_front.
  destruct (remove_front_spec _ _ _ _ Hr) as (l' & m' & -> & Hr' & Hun & Hlo). cbn [mbind res_bind].
  eexists. split; [done|]. split; [|unfold same_rest; cbn; by rewrite objs_set_heap].
  eapply linked_relink; [done..|set_solver|set_solver|]. intros q Hq Hnq. assert (q = p) as -> by set_solver. done.
Qed.

Lemma linked_remove_back x A xs p : linked x A (xs ++ [p]) →
  ∃ x', SSA.list_remove_back x = Ok (p, x') ∧ linked x' A xs ∧ same_rest x x'.
Proof.
  intros HL. pose proof HL as (Hs & Hr & Hd & Hu). unfold SSA.list_remove_back.
  destruct (remove_back_spec _ _ _ _ Hr) as (l' & m' & -> & Hr' & Hun & Hlo). cbn [mbind res_bind].
  eexists. split; [done|]. split; [|unfold same_rest; cbn; by rewrite objs_set_heap].
  eapply linked_relink; [done..|set_solver|set_solver|]. intros q Hq Hnq. assert (q = p) as -> by set_solver. done.
Qed.

Lemma linked_ext x x' A xs : slab_system x' = slab_system x → freelist x' = freelist x → linked x A xs → linked x' A xs.
Proof. unfold linked. by intros -> ->. Qed.

(** *** The slab system under a list *)
Lemma linked_set_links x A A' xs s' : linked x A xs → sys_inv s' A' → dom A' = dom A →
  same_links (sys_heap (slab_system x)) (sys_heap s') → linked (SSA.set_system x s') A' xs.
Proof.
  intros (Hs & Hr & Hd & Hu) Hs' Hdom HL. unfold linked. cbn. refine (conj Hs' (conj _ (conj _ _))).
  - by eapply repr_same_links.
  - intros p Hp. rewrite Hdom. auto.
  - intros p Hp Hpx. rewrite Hdom in Hp. eapply unlinked_same_links; [done|]. auto.
Qed.

Lemma linked_alloc_slab x A xs : linked x A xs →
  ∃ p s', sys_alloc_slab (slab_system x) = Ok (p, s') ∧ sys_objs s' = sys_objs (slab_system x) ∧
    ((p = 0 ∧ linked (SSA.set_system x s') A xs) ∨
     (p ≠ 0 ∧ A !! p = None ∧ ∃ all avail, linked (SSA.set_system x s') (<[p:=mkSlabAbs all avail]> A) xs ∧ Permutation avail all)).
Proof.
  intros (Hs & Hr & Hd & Hu). destruct (alloc_slab_spec _ _ Hs) as (p & s' & -> & Ho & Hor). exists p, s'.
  split; [done|]. split; [done|]. destruct Hor as [(-> & Hs' & Hh)|(Hp & all & avail & h & Hs' & Hperm & Hh & Hn & Hv)].
  - left. split; [done|]. unfold linked. cbn. rewrite Hh. done.
  - assert (p ≠ 0). { pose proof (sys_inv_wf _ _ Hs') as [Hw _]. specialize (Hw p _ (lookup_insert_eq _ _ _)) as [? _]. lia. }
    right. split; [done|]. split; [done|]. exists all, avail. split; [|done]. unfold linked. cbn. rewrite Hh.
    assert (Hpx : ∀ q, q ∈ xs → q ≠ p). { intros q Hq ->. apply Hd, elem_of_dom in Hq as [? ?]. congruence. }
    refine (conj Hs' (conj _ (conj _ _))).
    + eapply repr_frame; [|done]. intros a Ha. rewrite lookup_insert_ne; [done|]. intros ->. by destruct (Hpx a).
    + intros q Hq. rewrite dom_insert. set_solver.
    + intros q Hq Hqx. destruct (decide (q = p)) as [->|Hne].
      * split; [done|]. exists h. by rewrite lookup_insert_eq.
      * rewrite dom_insert in Hq. eapply unlinked_frame; [|apply Hu; set_solver]. by rewrite lookup_insert_ne.
Qed.

Lemma linked_dealloc_slab x A xs p a : linked x A xs → p ∉ xs → A !! p = Some a → Permutation (sa_avail a) (sa_all a) →
  ∃ s', sys_dealloc_slab (slab_system x) p = Ok s' ∧ linked (SSA.set_system x s') (delete p A) xs ∧
    ∀ o, o ∈ sys_objs s' ↔ o ∈ sys_objs (slab_system x) ∧ (o ∈ sa_all a → ∀ st : Status, tracked st = None).
Proof.
  intros (Hs & Hr & Hd & Hu) Hpx Hp Hperm. destruct (dealloc_slab_spec _ _ _ _ Hs Hp Hperm) as (s' & -> & Hs' & Hh & Ho).
  exists s'. split; [done|]. split; [|done]. unfold linked. cbn. rewrite Hh. refine (conj Hs' (conj _ (conj _ _))).
  - eapply repr_frame; [|done]. intros q Hq. rewrite lookup_delete_ne; [done|]. intros ->. done.
  - intros q Hq. rewrite dom_delete. specialize (Hd q Hq). set_solver.
  - intros q Hq Hqx. rewrite dom_delete in Hq. eapply unlinked_frame; [|apply Hu; set_solver]. rewrite lookup_delete_ne; [done|]. set_solver.
Qed.
(** *** The set of allocated objects *)
Lemma alloc_set A p all av o q : abs_wf A → A !! p = Some (mkSlabAbs all (av ++ [o])) →
  is_allocated (<[p:=mkSlabAbs all av]> A) q ↔ q = o ∨ is_allocated A q.
Proof.
  intros [Hw Hu] Hp. destruct (Hw p _ Hp) as (_ & _ & _ & Hnd & Hsub & _). cbn [sa_all sa_avail] in *.
  apply list.NoDup_app in Hnd as (_ & Hno & _). split.
  - intros (p' & a & Hp' & Hin & Hnin). destruct (decide (p' = p)) as [->|Hne].
    + rewrite lookup_insert_eq in Hp'. injection Hp' as <-. cbn [sa_all sa_avail] in *.
      destruct (decide (q = o)) as [|Hqo]; [by left|]. right. exists p. eexists. split; [done|]. cbn. set_solver.
    + rewrite lookup_insert_ne in Hp' by done. right. by exists p', a.
  - intros [->|(p' & a & Hp' & Hin & Hnin)].
    + exists p. eexists. rewrite lookup_insert_eq. split; [done|]. cbn. split; [apply Hsub; set_solver|].
      intros Ho. by apply (Hno o Ho), list_elem_of_singleton.
    + destruct (decide (p' = p)) as [->|Hne].
      * rewrite Hp in Hp'. injection Hp' as <-. exists p. eexists. rewrite lookup_insert_eq. split; [done|]. cbn in *. set_solver.
      * exists p', a. by rewrite lookup_insert_ne.
Qed.

Lemma not_allocated A p a o : abs_wf A → A !! p = Some a → o ∈ sa_avail a → ¬ is_allocated A o.
Proof.
  intros [Hw Hu] Hp Ho (p' & a' & Hp' & Hin & Hnin). destruct (Hw p _ Hp) as (_ & _ & _ & _ & Hsub & _).
  assert (p' = p) as -> by (eapply Hu; [done|done|done|by apply Hsub]). rewrite Hp in Hp'. by simplify_eq.
Qed.

Lemma new_slab_set A p all av q : A !! p = None → Permutation av all → is_allocated (<[p:=mkSlabAbs all av]> A) q ↔ is_allocated A q.
Proof.
  intros Hp Hperm. split.
  - intros (p' & a & Hp' & Hin & Hnin). apply lookup_insert_Some in Hp' as [[<- <-]|[_ Hp']]; [|by exists p', a].
    cbn in *. rewrite Hperm in Hnin. done.
  - intros (p' & a & Hp' & Hin & Hnin). exists p', a. rewrite lookup_insert_ne; [done|]. intros ->. by rewrite Hp in Hp'.
Qed.

Lemma drop_slab_set A p a q : A !! p = Some a → Permutation (sa_avail a) (sa_all a) → is_allocated (delete p A) q ↔ is_allocated A q.
Proof.
  intros Hp Hperm. split.
  - intros (p' & a' & Hp' & ?). apply lookup_delete_Some in Hp' as [_ Hp']. by exists p', a'.
  - intros (p' & a' & Hp' & Hin & Hnin). exists p', a'. rewrite lookup_delete_ne; [done|]. intros ->.
    rewrite Hp in Hp'. simplify_eq. rewrite Hperm in Hnin. done.
Qed.

Lemma dealloc_set A p all av o q : abs_wf A → A !! p = Some (mkSlabAbs all av) → o ∈ all → o ∉ av →
  is_allocated (<[p:=mkSlabAbs all (av ++ [o])]> A) q ↔ is_allocated A q ∧ q ≠ o.
Proof.
  intros [Hw Hu] Hp Ho Hno. split.
  - intros (p' & a & Hp' & Hin & Hnin). apply lookup_insert_Some in Hp' as [[<- <-]|[Hne Hp']].
    + cbn in *. split; [|set_solver]. exists p. eexists. split; [done|]. cbn. set_solver.
    + split; [by exists p', a|]. intros ->. apply Hne. by eapply Hu.
  - intros [(p' & a & Hp' & Hin & Hnin) Hq]. destruct (decide (p' = p)) as [->|Hne].
    + rewrite Hp in Hp'. injection Hp' as <-. exists p. eexists. rewrite lookup_insert_eq. split; [done|]. cbn in *. set_solver.
    + exists p', a. by rewrite lookup_insert_ne.
Qed.

(** *** Allocation *)
Lemma alloc_slab_inv x A X : sized_inv x A X → ll_size (freelist x) = 0 →
  ∃ ok x1, SSA.alloc_slab x = Ok (ok, x1) ∧ (full_slab_working_set x1 = full_slab_working_set x ∧ layout x1 = layout x) ∧
    if (ok : bool) then ∃ A1, sized_inv x1 A1 X ∧ ll_size (freelist x1) ≠ 0 else sized_inv x1 A X.
Proof.
  intros ((ps & fs & HL & Hps & Hfs & Hes & HX & HXs & Ht & Hn & Ha & Had) & Hr & Hws) Hz.
  assert (ps = [] ∧ fs = []) as [-> ->].
  { destruct HL as (_ & (_ & _ & Hsz & _) & _). rewrite Hz in Hsz. by destruct ps, fs. }
  unfold SSA.alloc_slab. destruct (linked_alloc_slab _ _ _ HL) as (p & s' & -> & Ho & Hor). cbn [mbind res_bind].
  destruct Hor as [(-> & HL')|(Hp & HpA & all & av & HL' & Hperm)].
  - exists false. eexists. split; [done|]. split; [done|]. split; [|done]. exists [], []. cbn. rewrite Ho. done.
  - rewrite (proj2 (Z.eqb_neq p 0) Hp). set (x0 := SSA.set_system x s') in *. set (A1 := <[p:=mkSlabAbs all av]> A) in *.
    destruct (linked_insert_back x0 A1 [] p HL') as (x1 & -> & HL1 & E1 & E2 & E3 & E4 & E5 & E6);
      [unfold A1; rewrite dom_insert; set_solver|set_solver|]. cbn [mbind res_bind]. cbn in E1, E2, E3, E4, E5, E6.
    assert (Hsz : size (dom A1) = Datatypes.S (size (dom A))).
    { unfold A1. rewrite dom_insert, size_union, size_singleton; [done|]. apply not_elem_of_dom in HpA. set_solver. }
    pose proof HL1 as (Hs1 & _). pose proof (slabs_bound A1 (sys_inv_wf _ _ Hs1)) as Hb. rewrite Hsz in Hb.
    rewrite E1, Ht, E2, Hn. res_step by lia. res_step by (cbn; lia).
    eexists true, _. split; [done|]. split; [by split; cbn; [rewrite E4|]|]. exists A1. split.
    + refine (conj _ (conj _ _)); [|cbn; by rewrite E3, Hr|cbn; rewrite E4, Hn in *; cbn in *; lia].
      exists [], [p]. split_and!; cbn [SSA.set_counts slab_system layout num_full total_slabs].
      * done.
      * set_solver.
      * intros q ->%list_elem_of_singleton. exists (mkSlabAbs all av). unfold A1. rewrite lookup_insert_eq.
        split; [done|]. unfold is_full_slab. cbn. by rewrite Hperm.
      * intros q a Hq Hnq. unfold A1 in Hq. rewrite lookup_insert_ne in Hq by set_solver. apply (Hes q a Hq). set_solver.
      * intros q. unfold A1. rewrite new_slab_set by done. apply HX.
      * rewrite E6, Ho. done.
      * rewrite Hsz. lia.
      * cbn. lia.
      * by rewrite E5.
      * by rewrite E5.
    + cbn. destruct HL1 as (_ & (_ & _ & -> & _) & _). cbn. lia.
Qed.

(** The part of [alloc] after the counters: pop an object off the front slab. *)
Lemma pop_front x A p rest all av o : linked x A (p :: rest) → A !! p = Some (mkSlabAbs all (av ++ [o])) →
  ∃ st s1 x2, sys_alloc (slab_system x) p = Ok (o, st, s1) ∧ status_ok (sys_objs (slab_system x)) o st ∧
    sys_is_empty s1 p = Ok (bool_decide (av = [])) ∧
    (if bool_decide (av = []) then '(_, x) ← SSA.list_remove_front (SSA.set_system x s1); Ok x else Ok (SSA.set_system x s1)) = Ok x2 ∧
    linked x2 (<[p:=mkSlabAbs all av]> A) (if decide (av = []) then rest else p :: rest) ∧ same_rest x x2.
Proof.
  intros HL Hp. pose proof HL as (Hs & _).
  destruct (sys_alloc_spec _ _ _ _ _ _ Hs Hp) as (st & s1 & -> & Hst & Hs1 & Hl1 & Ho1).
  assert (HL1 : linked (SSA.set_system x s1) (<[p:=mkSlabAbs all av]> A) (p :: rest)).
  { eapply linked_set_links; [done|done| |done]. rewrite dom_insert_lookup_L; [done|eauto]. }
  destruct (decide (av = [])) as [Hav|Hav].
  - destruct (linked_remove_front _ _ _ _ HL1) as (x2 & Hx2 & HL2 & Hsr). exists st, s1, x2.
    rewrite bool_decide_true by done. rewrite Hx2. split_and!; try done.
    + rewrite (is_empty_spec _ _ p _ Hs1 (lookup_insert_eq _ _ _)). cbn. by rewrite bool_decide_true.
    + destruct Hsr as (? & ? & ? & ? & ? & ?). unfold same_rest. cbn in *. by rewrite Ho1 in *.
  - exists st, s1, (SSA.set_system x s1). rewrite bool_decide_false by done. split_and!; try done.
    rewrite (is_empty_spec _ _ p _ Hs1 (lookup_insert_eq _ _ _)). cbn. by rewrite bool_decide_false.
Qed.

Lemma init_status_ok (objs : gset Z) (o : Z) (st : Status) q : status_ok objs o st →
  (q = o ∨ status_ok objs q status_initialized) → status_ok (init objs o st) q status_initialized.
Proof.
  intros Hst Hq b Hb. rewrite (tracked_initialized _ Hb). symmetry. apply bool_decide_eq_true. rewrite init_effect.
  destruct Hq as [->|Hq].
  - destruct (tracked st) as [b'|] eqn:E.
    + specialize (Hst b' E). destruct b'.
      * rewrite decide_False by done. symmetry in Hst. by apply bool_decide_eq_true in Hst.
      * rewrite decide_True by done. set_solver.
    + by rewrite (tracked_same _ status_initialized E) in Hb.
  - specialize (Hq b Hb). rewrite (tracked_initialized _ Hb) in Hq. symmetry in Hq. apply bool_decide_eq_true in Hq.
    case_decide; set_solver.
Qed.

Lemma init_other (objs : gset Z) (o : Z) (st : Status) q : q ≠ o → q ∈ init objs o st ↔ q ∈ objs.
Proof. intros Hq. rewrite init_effect. case_decide; set_solver. Qed.

(** Setting the memory of a freshly handed-out object. *)
Lemma linked_init x A xs o st : linked x A xs → is_allocated A o →
  linked (SSA.set_system x (set_objs (slab_system x) (init (sys_objs (slab_system x)) o st))) A xs.
Proof.
  intros (Hs & Hr & Hd & Hu) Ho. unfold linked. cbn. rewrite heap_set_objs.
  refine (conj _ (conj Hr (conj Hd Hu))). pose proof (sys_inv_wf _ _ Hs) as Hw. apply set_objs_inv; [done| |].
  - intros q (p & a & Hp & Hq). apply init_other. intros ->. by eapply not_allocated.
  - intros q Hq. destruct (decide (q = o)) as [->|Hne]; [by right|]. left. by apply init_other in Hq.
Qed.

(** The counter update of [alloc]: afterwards the front slab counts neither as
    partial nor as full. *)
Definition count_front x (full : bool) : res (SizedSlabAlloc S) :=
  if full then
    n ← usub (num_full x) 1;
    let x := SSA.set_counts x (total_slabs x) n (refcnt x) in
    Ok (SSA.set_ws x (WS.update_min (full_slab_working_set x) n))
  else Ok x.

Lemma count_front_spec x (A : Slabs) p rest ps fs a : ps ++ fs = p :: rest → A !! p = Some a → sa_all a ≠ [] →
  (∀ p, p ∈ ps → ∃ a, A !! p = Some a ∧ is_partial_slab a) → (∀ p, p ∈ fs → ∃ a, A !! p = Some a ∧ is_full_slab a) →
  num_full x = Z.of_nat (length fs) → 0 ≤ WS.data (full_slab_working_set x) ≤ num_full x →
  sa_avail a ≠ [] ∧
  ∃ xm ps0 fs0, count_front x (bool_decide (is_full_slab a)) = Ok xm ∧ rest = ps0 ++ fs0 ∧ ps0 ⊆ ps ∧ fs0 ⊆ fs ∧
    num_full xm = Z.of_nat (length fs0) ∧ 0 ≤ WS.data (full_slab_working_set xm) ≤ num_full xm ∧
    freelist xm = freelist x ∧ slab_system xm = slab_system x ∧ total_slabs xm = total_slabs x ∧
    refcnt xm = refcnt x ∧ same_env x xm.
Proof.
  intros E Hp Hall Hps Hfs Hn Hws. destruct ps as [|p0 ps'].
  - simpl in E. subst fs. destruct (Hfs p ltac:(set_solver)) as (a' & Hp' & Hf). rewrite Hp in Hp'. injection Hp' as <-.
    split; [intros Hav; unfold is_full_slab in Hf; rewrite Hav in Hf; by destruct (sa_all a)|].
    rewrite bool_decide_true by done. cbn [count_front]. cbn [length] in Hn. rewrite usub_Ok by lia. cbn [mbind res_bind].
    eexists _, [], rest. split; [done|]. unfold same_env, WS.update_min. cbn. case_match; cbn; split_and!; try done; try set_solver; lia.
  - simpl in E. injection E as -> <-. destruct (Hps p ltac:(set_solver)) as (a' & Hp' & Hne & Hnf). rewrite Hp in Hp'. injection Hp' as <-.
    split; [done|]. rewrite bool_decide_false by done. exists x, ps', fs. split; [done|]. unfold same_env. split_and!; try done; try set_solver; lia.
Qed.

(** The whole of [alloc] when the freelist is not empty. *)
Lemma alloc_nonempty x A X : sized_inv x A X → ll_size (freelist x) ≠ 0 →
  ∃ o x' A', SSA.alloc x = Ok (Some o, x') ∧ same_env x x' ∧ (o ∉ X) ∧ sized_inv x' A' ({[o]} ∪ X) ∧ (layout_align (layout x) | o).
Proof.
  intros ((ps & fs & HL & Hps & Hfs & Hes & HX & HXs & Ht & Hn & Ha & Had) & Hr & Hws) Hz.
  unfold SSA.alloc. rewrite (proj2 (Z.eqb_neq _ 0) Hz). cbn [mbind res_bind negb].
  pose proof HL as (Hs & Hrep & Hd & _). pose proof Hrep as (Hnd & _ & Hsz & _ & Hhd). pose proof (sys_inv_wf _ _ Hs) as Hw.
  destruct (ps ++ fs) as [|p rest] eqn:Exs; [by rewrite Hsz in Hz|].
  destruct Hhd as [Hhd _]; [done|]. unfold LL.peek_front. rewrite rassert_true by (apply Z.ltb_lt; rewrite Hsz; cbn; lia).
  cbn [mbind res_bind]. rewrite Hhd. cbn [hd].
  assert (Hpd : p ∈ dom A) by (apply Hd; set_solver). apply elem_of_dom in Hpd as [[all avl] Hp].
  rewrite (is_full_spec _ _ _ _ Hs Hp). cbn [mbind res_bind sa_avail sa_all].
  destruct (proj1 Hw p _ Hp) as (Hpb & Hall & Hndall & Hndav & Hsub & Hob). cbn [sa_all sa_avail] in *.
  destruct (count_front_spec x A p rest ps fs _ Exs Hp Hall Hps Hfs Hn Hws)
    as (Hav & xm & ps0 & fs0 & Hxm & -> & Hps0 & Hfs0 & Enf & Hws' & Ef & Es & Et & Er & Ep & El & Ed).
  unfold count_front, is_full_slab in Hxm. cbn [sa_all sa_avail] in Hxm, Hav. rewrite Hxm. cbn [mbind res_bind]. clear Hxm.
  destruct (exists_last Hav) as (av & o & ->).
  destruct (pop_front xm A p (ps0 ++ fs0) all av o) as (st & s1 & x2 & -> & Hst & Hemp & Hx2 & HL2 & E1 & E2 & E3 & E4 & E5 & E6);
    [by eapply linked_ext|done|]. rewrite Es in Hst.
  cbn [mbind res_bind]. cbn [SSA.set_system slab_system]. rewrite Hemp. cbn [mbind res_bind].
  fold (SSA.set_system xm s1). rewrite Hx2. cbn [mbind res_bind].
  assert (HoX : o ∉ X) by (rewrite HX; eapply not_allocated; [done..|cbn; set_solver]).
  assert (HX' : ∀ q, q ∈ {[o]} ∪ X ↔ is_allocated (<[p:=mkSlabAbs all av]> A) q).
  { intros q. rewrite alloc_set by done. rewrite <- HX. set_solver. }
  assert (Hrc : Z.of_nat (size ({[o]} ∪ X)) < 2 ^ 64).
  { apply usize_set_bound. intros q (p' & a & Hp' & Hq & _)%HX'. pose proof HL2 as (Hs2 & _).
    destruct (proj1 (sys_inv_wf _ _ Hs2) p' a Hp') as (_ & _ & _ & _ & _ & Hob'). auto. }
  rewrite size_union, size_singleton in Hrc by set_solver.
  rewrite E3, Er, Hr. res_step by lia. cbn [SSA.set_counts layout slab_system]. rewrite E5, El.
  assert (Hdiv : (layout_align (layout x) | o)).
  { eapply Z.divide_trans; [done|]. eapply sys_inv_aligned; [done..|]. cbn. apply Hsub. set_solver. }
  res_step by lia. rewrite (mod_0_divide _ _ Ha Hdiv). cbn [Z.eqb rassert mbind res_bind].
  eexists o, _, (<[p:=mkSlabAbs all av]> A). split; [done|]. split; [split_and!; cbn; congruence|]. split; [done|]. split; [|done].
  refine (conj _ (conj _ _)); [|cbn; rewrite size_union, size_singleton by set_solver; lia|cbn; rewrite E4, E2; lia].
  exists (if decide (av = []) then ps0 else p :: ps0), fs0.
  assert (Hlen : (length (av ++ [o]) ≤ length all)%nat).
  { apply submseteq_length. by apply NoDup_submseteq. }
  rewrite length_app in Hlen. cbn in Hlen. apply list.NoDup_cons in Hnd as [Hpr _].
  split_and!; cbn [SSA.set_counts SSA.set_system slab_system full_slab_working_set layout num_full refcnt total_slabs].
  - assert (HL3 := linked_init x2 _ _ o st HL2 (proj1 (HX' o) ltac:(set_solver))).
    eapply (linked_ext (SSA.set_system x2 _)); [done|done|]. by destruct (decide (av = [])).
  - intros q Hq. destruct (decide (q = p)) as [->|Hne].
    + eexists. rewrite lookup_insert_eq. split; [done|]. split; cbn; [by destruct (decide (av = [])); [set_solver|]|].
      unfold is_full_slab. cbn. lia.
    + rewrite lookup_insert_ne by done. apply Hps. apply Hps0. destruct (decide (av = [])); set_solver.
  - intros q Hq. rewrite lookup_insert_ne by set_solver. apply Hfs, Hfs0, Hq.
  - intros q a Hq Hnq. destruct (decide (q = p)) as [->|Hne].
    + rewrite lookup_insert_eq in Hq. injection Hq as <-. cbn. destruct (decide (av = [])); [done|set_solver].
    + rewrite lookup_insert_ne in Hq by done. apply (Hes q a Hq). rewrite elem_of_cons. intros [?|?]; [done|].
      destruct (decide (av = [])); set_solver.
  - done.
  - rewrite objs_set_objs, E6, Es. intros q Hq. apply init_status_ok; [done|]. set_solver.
  - rewrite E1, Et, Ht. by rewrite dom_insert_lookup_L by eauto.
  - lia.
  - by rewrite E5, El.
  - by rewrite E5, El.
Qed.

Lemma alloc_spec x A X : sized_inv x A X →
  ∃ r x' A', SSA.alloc x = Ok (r, x') ∧ same_env x x' ∧
    match r with
    | None => sized_inv x' A' X
    | Some o => (o ∉ X) ∧ sized_inv x' A' ({[o]} ∪ X) ∧ (layout_align (layout x) | o)
    end.
Proof.
  intros Hinv. destruct (decide (ll_size (freelist x) = 0)) as [Hz|Hz].
  - destruct (alloc_slab_inv x A X Hinv Hz) as (ok & x1 & Ha & El & Hok).
    assert (Hun : SSA.alloc x = if ok then SSA.alloc x1 else Ok (None, x1)).
    { unfold SSA.alloc at 1. rewrite (proj2 (Z.eqb_eq _ 0) Hz), Ha. cbn [mbind res_bind].
      destruct ok; [|done]. destruct Hok as (A1 & _ & Hz1). unfold SSA.alloc. by rewrite (proj2 (Z.eqb_neq _ 0) Hz1). }
    rewrite Hun. destruct El as [Ep El]. destruct ok.
    2: { exists None, x1, A. split; [done|]. split; [|done]. unfold same_env. rewrite Ep. split_and!; [done|done|]. destruct Hok as (_ & _ & Hw). rewrite Ep in Hw. lia. }
    destruct Hok as (A1 & Hinv1 & Hz1).
    destruct (alloc_nonempty x1 A1 X Hinv1 Hz1) as (o & x' & A' & -> & (Ep' & El' & Ed') & ? & ? & ?). exists (Some o), x', A'.
    rewrite <- El. split; [done|]. split; [split_and!; congruence|done].
  - destruct (alloc_nonempty x A X Hinv Hz) as (o & x' & A' & -> & ? & ? & ? & ?). by exists (Some o), x', A'.
Qed.

(** *** Collection of full slabs *)
Lemma full_perm A p a : abs_wf A → A !! p = Some a → is_full_slab a → Permutation (sa_avail a) (sa_all a).
Proof. intros [Hw _] Hp Hf. destruct (Hw p a Hp) as (_ & _ & ? & ? & ? & _). by apply Permutation_full. Qed.

(** Dropping a full slab keeps the memory of the objects handed out. *)
Lemma status_ok_dropped (objs objs' : gset Z) A p a o : abs_wf A → A !! p = Some a → Permutation (sa_avail a) (sa_all a) →
  (∀ o, o ∈ objs' ↔ o ∈ objs ∧ (o ∈ sa_all a → ∀ st : Status, tracked st = None)) → is_allocated A o →
  status_ok objs o status_initialized → status_ok objs' o status_initialized.
Proof.
  intros Hw Hp Hperm Ho Hal Hok b Hb. specialize (Hok b Hb). rewrite Hok. apply bool_decide_ext. rewrite Ho.
  split; [|tauto]. intros Hin. split; [done|]. intros Hall. exfalso.
  eapply (not_allocated A p a o); [done|done| |done]. by rewrite Hperm.
Qed.

Lemma dom_delete_size (A : Slabs) p a : A !! p = Some a → size (dom A) = Datatypes.S (size (dom (delete p A))).
Proof.
  intros Hp. rewrite dom_delete. assert (p ∈ dom A) by (by apply elem_of_dom_2 in Hp).
  rewrite (union_difference_singleton_L p (dom A)) at 1 by done. rewrite size_union, size_singleton by set_solver. done.
Qed.

Lemma collect_one_spec x A X i : core x A X → 1 ≤ num_full x →
  ∃ x' p a, SSA.collect_one x i = Ok x' ∧ A !! p = Some a ∧ is_full_slab a ∧ core x' (delete p A) X ∧
    num_full x' = num_full x - 1 ∧ refcnt x' = refcnt x ∧ full_slab_working_set x' = full_slab_working_set x ∧ layout x' = layout x ∧
    total_slabs x' = total_slabs x - 1.
Proof.
  intros (ps & fs & HL & Hps & Hfs & Hes & HX & HXs & Ht & Hn & Ha & Had) Hpos.
  destruct (@exists_last _ fs) as (fs' & f & ->); [intros ->; rewrite Hn in Hpos; cbn in Hpos; lia|].
  destruct (Hfs f ltac:(set_solver)) as (a & Hf & Hfull). pose proof HL as (Hs & Hrep & _). pose proof (sys_inv_wf _ _ Hs) as Hw.
  pose proof (full_perm A f a Hw Hf Hfull) as Hperm. pose proof Hrep as (Hnd & _).
  rewrite app_assoc in HL, Hnd. unfold SSA.collect_one.
  destruct (linked_remove_back _ _ _ _ HL) as (x1 & -> & HL1 & E1 & E2 & E3 & E4 & E5 & E6). cbn [mbind res_bind].
  apply list.NoDup_app in Hnd as (_ & Hnf & _).
  assert (Hf' : f ∉ ps ++ fs') by (intros H'; by apply (Hnf f H'), list_elem_of_singleton).
  destruct (linked_dealloc_slab x1 A _ f a HL1 Hf' Hf Hperm) as (s' & -> & HL2 & Ho). cbn [mbind res_bind].
  pose proof (dom_delete_size A f a Hf) as Hsz. cbn [SSA.set_system total_slabs num_full].
  rewrite E1, Ht, E2, Hn, length_app. cbn [length]. res_step by lia. res_step by lia.
  eexists _, f, a. split; [done|]. split; [done|]. split; [done|]. split; [|cbn; split_and!; [lia|done|done|done|lia]].
  exists ps, fs'. split_and!; cbn [SSA.set_counts SSA.set_system slab_system layout num_full total_slabs].
  - done.
  - intros q Hq. rewrite lookup_delete_ne by set_solver. auto.
  - intros q Hq. rewrite lookup_delete_ne by set_solver. apply Hfs. set_solver.
  - intros q b Hq Hnq. apply lookup_delete_Some in Hq as [Hne Hq]. apply (Hes q b Hq). set_solver.
  - intros q. rewrite drop_slab_set by done. apply HX.
  - intros q Hq. eapply status_ok_dropped; [done|done|done| |by apply HX|by apply HXs]. intros o. rewrite (Ho o), E6. done.
  - lia.
  - lia.
  - by rewrite E5.
  - by rewrite E5.
Qed.

(** Slabs only disappear, and only full ones. *)
Definition collected (A A' : Slabs) : Prop :=
  A' ⊆ A ∧ ∀ p a, A !! p = Some a → A' !! p = None → is_full_slab a.

Lemma collected_refl A : collected A A.
Proof. split; [done|]. intros p a H1 H2. by rewrite H1 in H2. Qed.

Lemma collected_delete A A' p a : collected A A' → A' !! p = Some a → is_full_slab a → collected A (delete p A').
Proof.
  intros [Hs Hf] Hp Ha. split; [etrans; [apply delete_subseteq|done]|]. intros q b Hq Hn.
  apply lookup_delete_None in Hn as [<-|Hn]; [|by eapply Hf].
  rewrite (lookup_weaken _ _ _ _ Hp Hs) in Hq. by simplify_eq.
Qed.

Lemma collect_loop x A X n : core x A X → 0 ≤ n ≤ num_full x →
  ∃ x' A', rfold SSA.collect_one (zrange 0 n) x = Ok x' ∧ core x' A' X ∧ collected A A' ∧
    num_full x' = num_full x - n ∧ refcnt x' = refcnt x ∧ full_slab_working_set x' = full_slab_working_set x ∧ layout x' = layout x ∧
    total_slabs x' = total_slabs x - n.
Proof.
  intros Hc Hn.
  destruct (rfold_zrange (fun i x' => ∃ A', core x' A' X ∧ collected A A' ∧ num_full x' = num_full x - i ∧
    refcnt x' = refcnt x ∧ full_slab_working_set x' = full_slab_working_set x ∧ layout x' = layout x ∧ total_slabs x' = total_slabs x - i)
    SSA.collect_one 0 n x) as (x' & -> & A' & ?).
  - lia.
  - exists A. split; [done|]. split; [apply collected_refl|]. split_and!; [lia|done|done|done|lia].
  - intros i x1 Hi (A1 & Hc1 & Hcol & E1 & E2 & E3 & E4 & E5).
    destruct (collect_one_spec x1 A1 X i Hc1 ltac:(lia)) as (x2 & p & a & -> & Hp & Hf & Hc2 & F1 & F2 & F3 & F4 & F5).
    exists x2. split; [done|]. exists (delete p A1). split; [done|]. split; [by eapply collected_delete|].
    split_and!; [lia|congruence|congruence|congruence|lia].
  - exists x', A'. done.
Qed.

(** A working period has passed. *)
Definition period_over x (now : Z) : Prop :=
  WORKING_PERIOD_SECONDS ≤ (now - WS.period_begin (full_slab_working_set x)) / 10 ^ 9.
#[export] Instance period_over_dec x now : Decision (period_over x now).
Proof. unfold period_over. apply _. Defined.

Lemma gc_spec x A X now : core x A X → 0 ≤ WS.data (full_slab_working_set x) ≤ num_full x →
  WS.period_begin (full_slab_working_set x) ≤ now →
  ∃ x' A', SSA.garbage_collect_slabs x now = Ok x' ∧ core x' A' X ∧ collected A A' ∧
    num_full x' = num_full x - (if decide (period_over x now) then WS.data (full_slab_working_set x) else 0) ∧
    refcnt x' = refcnt x ∧ 0 ≤ WS.data (full_slab_working_set x') ≤ num_full x' ∧
    WS.period_begin (full_slab_working_set x') ≤ now ∧ layout x' = layout x ∧
    total_slabs x' = total_slabs x - (if decide (period_over x now) then WS.data (full_slab_working_set x) else 0) ∧
    full_slab_working_set x' = (if decide (period_over x now) then WS.mkWS (num_full x') now else full_slab_working_set x).
Proof.
  intros Hc Hws Hnow. unfold SSA.garbage_collect_slabs, WS.refresh_now.
  destruct (Z.ltb_spec now (WS.period_begin (full_slab_working_set x))); [lia|].
  destruct (Z.leb_spec WORKING_PERIOD_SECONDS ((now - WS.period_begin (full_slab_working_set x)) / 10 ^ 9)) as [Hdue|Hdue]; cbn [mbind res_bind].
  - rewrite !decide_True by done. set (w := WS.mkWS _ now). destruct (collect_loop (SSA.set_ws x w) A X (WS.data (full_slab_working_set x)))
      as (x' & A' & -> & Hc' & Hcol & E1 & E2 & E3 & E4 & E5); [done|cbn; lia|]. cbn [mbind res_bind].
    eexists _, A'. split; [done|]. cbn in *. split_and!; try done; try lia; rewrite E3, ?decide_True by done; cbn; [lia|done].
  - eexists _, A. split; [done|]. cbn.
    rewrite !decide_False by (unfold period_over; lia). split; [done|]. split; [apply collected_refl|]. split_and!; try done; lia.
Qed.

(** *** Deallocation *)

(** The [match] of [dealloc]: where the slab goes in the freelist. *)
Definition place x (slab : Z) (was_empty is_full : bool) : res (SizedSlabAlloc S) :=
  match was_empty, is_full with
  | false, true =>
      x ← SSA.list_move_to_back x slab;
      n ← uadd (num_full x) 1; Ok (SSA.set_counts x (total_slabs x) n (refcnt x))
  | true, true =>
      x ← SSA.list_insert_back x slab;
      n ← uadd (num_full x) 1; Ok (SSA.set_counts x (total_slabs x) n (refcnt x))
  | true, false => SSA.list_insert_front x slab
  | false, false => Ok x
  end.

(** A slab that had an object handed out is in the partial part exactly when
    it had one available too. *)
Lemma slab_position A ps fs p all av o : abs_wf A → A !! p = Some (mkSlabAbs all av) → o ∈ all → o ∉ av →
  (∀ p, p ∈ ps → ∃ a, A !! p = Some a ∧ is_partial_slab a) → (∀ p, p ∈ fs → ∃ a, A !! p = Some a ∧ is_full_slab a) →
  (∀ p a, A !! p = Some a → p ∉ ps ++ fs → sa_avail a = []) →
  (p ∉ fs) ∧ (p ∈ ps ↔ av ≠ []).
Proof.
  intros Hw Hp Ho Hno Hps Hfs Hes. assert (Hnf : p ∉ fs).
  { intros Hin. destruct (Hfs p Hin) as (a & Hp' & Hf). rewrite Hp in Hp'. injection Hp' as <-.
    pose proof (full_perm A p _ Hw Hp Hf) as Hperm. cbn in Hperm. rewrite <- Hperm in Ho. done. }
  split; [done|]. split.
  - intros Hin. destruct (Hps p Hin) as (a & Hp' & Hne & _). rewrite Hp in Hp'. by injection Hp' as <-.
  - intros Hav. destruct (decide (p ∈ ps)) as [|Hn]; [done|]. destruct Hav. apply (Hes p _ Hp). set_solver.
Qed.

Lemma place_spec x ps fs A A1 X p all av o s' : linked x A (ps ++ fs) → linked (SSA.set_system x s') A1 (ps ++ fs) →
  A !! p = Some (mkSlabAbs all av) → o ∈ all → o ∉ av → A1 = <[p:=mkSlabAbs all (av ++ [o])]> A → core x A X →
  (∀ p, p ∈ ps → ∃ a, A !! p = Some a ∧ is_partial_slab a) → (∀ p, p ∈ fs → ∃ a, A !! p = Some a ∧ is_full_slab a) →
  (∀ p a, A !! p = Some a → p ∉ ps ++ fs → sa_avail a = []) → num_full x = Z.of_nat (length fs) →
  sys_objs s' = sys_objs (slab_system x) →
  ∃ x1, place (SSA.set_system x s') p (bool_decide (av = [])) (bool_decide (length (av ++ [o]) = length all)) = Ok x1 ∧
    core x1 A1 (X ∖ {[o]}) ∧ num_full x ≤ num_full x1 ∧ refcnt x1 = refcnt x ∧
    full_slab_working_set x1 = full_slab_working_set x ∧ layout x1 = layout x ∧ total_slabs x1 = total_slabs x.
Proof.
  intros HL HL1 Hp Ho Hno EA (_ & _ & _ & _ & _ & _ & HX & HXs & Ht & _ & Ha & Had) Hps Hfs Hes Hn Hobjs.
  pose proof HL as (Hs & _). pose proof (sys_inv_wf _ _ Hs) as Hw.
  destruct (slab_position A ps fs p all av o Hw Hp Ho Hno Hps Hfs Hes) as [Hpf Hpp].
  assert (HA1p : A1 !! p = Some (mkSlabAbs all (av ++ [o]))) by (subst A1; by rewrite lookup_insert_eq).
  assert (HA1 : ∀ q, q ≠ p → A1 !! q = A !! q) by (intros q Hq; subst A1; by rewrite lookup_insert_ne).
  assert (Hpd : p ∈ dom A1) by (by apply elem_of_dom_2 in HA1p).
  assert (Hdom : size (dom A1) = size (dom A)) by (subst A1; by rewrite dom_insert_lookup_L by eauto).
  assert (HX1 : ∀ q, q ∈ X ∖ {[o]} ↔ is_allocated A1 q).
  { intros q. subst A1. rewrite dealloc_set by done. rewrite <- HX. set_solver. }
  (* the invariant for any new split of the list *)
  assert (Hcore : ∀ x1 ps' fs' , linked x1 A1 (ps' ++ fs') → (∀ q, q ≠ p → q ∈ ps' ↔ q ∈ ps) → (∀ q, q ≠ p → q ∈ fs' ↔ q ∈ fs) →
    (p ∈ ps' → ¬ is_full_slab (mkSlabAbs all (av ++ [o]))) → (p ∈ fs' → is_full_slab (mkSlabAbs all (av ++ [o]))) →
    p ∈ ps' ++ fs' → sys_objs (slab_system x1) = sys_objs (slab_system x) → total_slabs x1 = total_slabs x →
    num_full x1 = Z.of_nat (length fs') → layout x1 = layout x → core x1 A1 (X ∖ {[o]})).
  { intros x1 ps' fs' HL' Eps Efs Hpp' Hpf' Hin Eo Et En El. exists ps', fs'. split_and!.
    - done.
    - intros q Hq. destruct (decide (q = p)) as [->|Hne].
      + eexists. split; [done|]. split; [cbn; by destruct av|]. auto.
      + rewrite HA1 by done. apply Hps. by apply Eps.
    - intros q Hq. destruct (decide (q = p)) as [->|Hne]; [eauto|]. rewrite HA1 by done. apply Hfs. by apply Efs.
    - intros q a Hq Hnq. destruct (decide (q = p)) as [->|Hne]; [done|]. rewrite HA1 in Hq by done. apply (Hes q a Hq).
      specialize (Eps q Hne). specialize (Efs q Hne). rewrite elem_of_app in *. tauto.
    - done.
    - intros q Hq. rewrite Eo. apply HXs. set_solver.
    - by rewrite Et, Hdom.
    - done.
    - by rewrite El.
    - by rewrite El. }
  pose proof HL1 as (Hs1 & (Hnd & _) & _). pose proof (slabs_bound A1 (sys_inv_wf _ _ Hs1)) as Hbd.
  unfold place. destruct (decide (av = [])) as [Hav|Hav];
    [rewrite bool_decide_true by done|rewrite bool_decide_false by done];
    destruct (decide (length (av ++ [o]) = length all)) as [Hlen|Hlen];
    [rewrite bool_decide_true by done|rewrite bool_decide_false by done|rewrite bool_decide_true by done|rewrite bool_decide_false by done].
  - assert (Hpl : p ∉ ps ++ fs) by (rewrite elem_of_app; tauto).
    pose proof (linked_short _ _ _ _ HL1 Hpd Hpl) as Hsh. rewrite length_app in Hsh.
    destruct (linked_insert_back _ _ _ _ HL1 Hpd Hpl) as (x1 & -> & HL2 & E1 & E2 & E3 & E4 & E5 & E6). cbn [mbind res_bind].
    rewrite E2. cbn [SSA.set_system num_full]. rewrite Hn. res_step by lia. eexists. split; [done|]. cbn.
    split; [|split_and!; [lia|done..]]. rewrite <- app_assoc in HL2.
    apply (Hcore _ ps (fs ++ [p])); cbn; [done|done|list_mem|tauto|done|list_mem|by rewrite E6, <- Hobjs|done| |done].
    rewrite length_app. cbn. lia.
  - assert (Hpl : p ∉ ps ++ fs) by (rewrite elem_of_app; tauto).
    destruct (linked_insert_front _ _ _ _ HL1 Hpd Hpl) as (x1 & -> & HL2 & E1 & E2 & E3 & E4 & E5 & E6).
    exists x1. split; [done|]. cbn in *. split; [|split_and!; [lia|done..]].
    apply (Hcore _ (p :: ps) fs); [done|list_mem|done|done|tauto|list_mem|by rewrite E6|done|by rewrite E2|done].
  - assert (Hin : p ∈ ps) by tauto. apply list_elem_of_split in Hin as (l1 & l2 & ->).
    rewrite <- app_assoc in HL1, Hnd. cbn in HL1, Hnd.
    assert (Hp12 : (p ∉ l1) ∧ p ∉ l2).
    { apply list.NoDup_app in Hnd as (_ & H1 & Hnd). apply list.NoDup_cons in Hnd as [H2 _]. split; [|set_solver].
      intros Hl. apply (H1 p Hl). set_solver. }
    destruct (linked_move_to_back _ _ _ _ _ HL1) as (x1 & -> & HL2 & E1 & E2 & E3 & E4 & E5 & E6). cbn [mbind res_bind].
    rewrite E2. cbn [SSA.set_system num_full]. rewrite Hn. 
    assert (Hb2 : Z.of_nat (length fs) + 1 < 2 ^ 64).
    { destruct HL2 as (_ & (_ & _ & _ & Hb2 & _) & _). rewrite !length_app in Hb2. cbn in Hb2. lia. }
    res_step by lia. eexists. split; [done|]. cbn. split; [|split_and!; [lia|done..]].
    rewrite !app_assoc, <- (app_assoc (l1 ++ l2)) in HL2.
    apply (Hcore _ (l1 ++ l2) (fs ++ [p])); cbn;
      [done|list_mem|list_mem|list_mem|done|list_mem|by rewrite E6, <- Hobjs|done|rewrite length_app; cbn; lia|done].
  - exists (SSA.set_system x s'). split; [done|]. cbn. split; [|split_and!; [lia|done..]].
    apply (Hcore _ ps fs); cbn; [done|done|done|done|tauto|list_mem|done|done|done|done].
Qed.

(** The slab of [o] gets [o] back, and is full then or not. *)
Definition put_back (A : Slabs) (o : Z) (A1 : Slabs) (full : bool) : Prop :=
  ∃ p all av, A !! p = Some (mkSlabAbs all av) ∧ o ∈ all ∧ (o ∉ av) ∧ A1 = <[p := mkSlabAbs all (av ++ [o])]> A ∧ full = bool_decide (length (av ++ [o]) = length all).

(** What [dealloc] does to the slabs and the working set: when it completes a
    slab and the working period is over, as many slabs as the working set says
    are freed and a new period begins; otherwise no slab is freed. *)
Definition dealloc_effect x x' (A A' : Slabs) (o now : Z) : Prop :=
  ∃ A1 full, put_back A o A1 full ∧ collected A1 A' ∧
    if full && bool_decide (period_over x now)
    then total_slabs x' = total_slabs x - WS.data (full_slab_working_set x) ∧ full_slab_working_set x' = WS.mkWS (num_full x') now
    else total_slabs x' = total_slabs x ∧ full_slab_working_set x' = full_slab_working_set x.

Lemma dealloc_spec x A X o now : sized_inv x A X → o ∈ X → WS.period_begin (full_slab_working_set x) ≤ now →
  ∃ x' A', SSA.dealloc x o now = Ok x' ∧ sized_inv x' A' (X ∖ {[o]}) ∧
    WS.period_begin (full_slab_working_set x') ≤ now ∧ layout x' = layout x ∧ dealloc_effect x x' A A' o now.
Proof.
  intros (Hc & Hr & Hws) Ho Hnow. pose proof Hc as (ps & fs & HL & Hps & Hfs & Hes & HX & HXs & Ht & Hn & Ha & Had).
  pose proof HL as (Hs & _). pose proof (sys_inv_wf _ _ Hs) as Hw.
  pose proof Ho as (p & [all av] & Hp & Hin & Hnin)%HX. cbn [sa_all sa_avail] in Hin, Hnin.
  assert (Hdiv : (layout_align (layout x) | o)) by (eapply Z.divide_trans; [done|by eapply sys_inv_aligned]).
  unfold SSA.dealloc. res_step by lia. rewrite (mod_0_divide _ _ Ha Hdiv). cbn [Z.eqb rassert mbind res_bind].
  destruct (sys_dealloc_spec _ _ p all av o status_initialized Hs Hp Hin Hnin (HXs o Ho)) as (s' & -> & Hs' & Hl' & Ho').
  cbn [mbind res_bind SSA.set_system slab_system]. rewrite (is_full_spec _ _ p _ Hs' (lookup_insert_eq _ _ _)).
  cbn [mbind res_bind sa_avail sa_all]. fold (SSA.set_system x s').
  destruct (place_spec x ps fs A (<[p:=mkSlabAbs all (av ++ [o])]> A) X p all av o s' HL) as (x1 & Hpl & Hc1 & Hnf & E1 & E2 & E3 & E4); try done.
  { eapply linked_set_links; [done|done| |done]. by rewrite dom_insert_lookup_L by eauto. }
  unfold place in Hpl. rewrite Hpl. cbn [mbind res_bind]. clear Hpl.
  assert (∃ x2 A2, (if bool_decide (length (av ++ [o]) = length all) then SSA.garbage_collect_slabs x1 now else Ok x1) = Ok x2 ∧
    core x2 A2 (X ∖ {[o]}) ∧ refcnt x2 = refcnt x ∧ 0 ≤ WS.data (full_slab_working_set x2) ≤ num_full x2 ∧
    WS.period_begin (full_slab_working_set x2) ≤ now ∧ layout x2 = layout x ∧ dealloc_effect x x2 A A2 o now) as (x2 & A2 & -> & Hc2 & F1 & F2 & F3 & F4 & F5).
  { set (A1 := <[p:=mkSlabAbs all (av ++ [o])]> A) in *. assert (Hput : put_back A o A1 (bool_decide (length (av ++ [o]) = length all))) by (by exists p, all, av).
    destruct (bool_decide (length _ = _)).
    - destruct (gc_spec x1 _ _ now Hc1) as (x2 & A2 & -> & ? & ? & _ & ? & ? & ? & ? & Et & Ew); [rewrite E2; lia|by rewrite E2|].
      exists x2, A2. split_and!; try done; try (lia || congruence). exists A1, true. split; [done|]. split; [done|]. cbn [andb].
      assert (Hov : period_over x1 now ↔ period_over x now) by (unfold period_over; by rewrite E2). rewrite <- E4, <- E2. rewrite (bool_decide_ext _ _ (symmetry Hov)).
      case_bool_decide; [rewrite decide_True in Et by done; rewrite decide_True in Ew by done; done|].
      rewrite decide_False in Et by done. rewrite decide_False in Ew by done. split; [lia|done].
    - eexists x1, _. rewrite E1, E2, E3. split_and!; try done; try lia. exists A1, false. split; [done|]. split; [apply collected_refl|done]. }
  cbn [mbind res_bind]. assert (Hsz : size X = Datatypes.S (size (X ∖ {[o]}))).
  { rewrite (union_difference_singleton_L o X) at 1 by done. rewrite size_union, size_singleton by set_solver. done. }
  rewrite F1, Hr. res_step by lia. eexists _, A2. split; [done|]. cbn. split; [|done].
  refine (conj _ (conj _ F2)); [done|]. cbn. lia.
Qed.

(** *** Destruction *)
Lemma drop_loop_spec fuel x A xs : linked x A xs → (∀ p, p ∈ dom A → p ∈ xs) →
  (∀ p a, A !! p = Some a → is_full_slab a) → (length xs < fuel)%nat →
  ∃ x', SSA.drop_loop fuel x = Ok x' ∧ sys_inv (slab_system x') ∅.
Proof.
  revert x A xs. induction fuel as [|fuel IH]; intros x A xs HL Hd Hf Hlen; [lia|].
  pose proof HL as (Hs & Hrep & Hd' & _). pose proof Hrep as (Hnd & _ & Hsz & _). cbn [SSA.drop_loop]. rewrite Hsz.
  destruct xs as [|p xs].
  - cbn. exists x. split; [done|]. assert (A = ∅) as ->; [|done]. apply map_empty. intros q.
    apply not_elem_of_dom. intros Hq%Hd. set_solver.
  - rewrite (proj2 (Z.ltb_lt _ _)) by (cbn; lia). destruct (linked_remove_front _ _ _ _ HL) as (x1 & -> & HL1 & _).
    cbn [mbind res_bind]. assert (Hp : p ∈ dom A) by (apply Hd'; set_solver). apply elem_of_dom in Hp as [a Hp].
    apply list.NoDup_cons in Hnd as [Hpx _].
    destruct (linked_dealloc_slab x1 A xs p a HL1 Hpx Hp) as (s' & -> & HL2 & _).
    { eapply full_perm; [by eapply sys_inv_wf|done|by eapply Hf]. }
    cbn [mbind res_bind]. eapply IH; [done| | |cbn in Hlen; lia].
    + intros q Hq. rewrite dom_delete in Hq. assert (q ∈ p :: xs) by (apply Hd; set_solver). set_solver.
    + intros q b Hq. apply lookup_delete_Some in Hq as [_ Hq]. by eapply Hf.
Qed.

Lemma drop_spec x A : sized_inv x A ∅ → ∃ x', SSA.drop x = Ok x' ∧ sys_inv (slab_system x') ∅.
Proof.
  intros ((ps & fs & HL & Hps & Hfs & Hes & HX & _) & Hr & _). unfold SSA.drop. rewrite Hr, size_empty.
  rewrite rassert_true by done. cbn [mbind res_bind]. pose proof HL as (Hs & (_ & _ & Hsz & _) & _).
  pose proof (sys_inv_wf _ _ Hs) as [Hw _].
  (* with nothing handed out, every slab is full *)
  assert (Hfull : ∀ p a, A !! p = Some a → is_full_slab a).
  { intros p a Hp. destruct (Hw p a Hp) as (_ & _ & Hnd & Hnd' & Hsub & _). unfold is_full_slab.
    apply Nat.le_antisymm; apply submseteq_length, NoDup_submseteq; try done. intros o Ho.
    destruct (decide (o ∈ sa_avail a)) as [|Hno]; [done|]. exfalso.
    assert (o ∈ (∅ : gset Z)) by (apply HX; by exists p, a). set_solver. }
  eapply drop_loop_spec; [done| |done|].
  - intros p [a Hp]%elem_of_dom. destruct (decide (p ∈ ps ++ fs)) as [|Hn]; [done|]. exfalso.
    pose proof (Hes p a Hp Hn) as Hav. pose proof (Hfull p a Hp) as Hf. unfold is_full_slab in Hf. rewrite Hav in Hf.
    destruct (Hw p a Hp) as (_ & Hall & _). by destruct (sa_all a).
  - rewrite Hsz. lia.
Qed.

Lemma new_inv layout s now : sys_inv s ∅ → 0 < layout_align layout → (layout_align layout | obj_align) →
  sized_inv (SSA.new layout s now) ∅ ∅.
Proof.
  intros Hs Ha Hd. refine (conj _ (conj _ _)); [|done|done]. exists [], [].
  assert (Hnone : ∀ o, ¬ is_allocated ∅ o) by (intros o (p & a & Hp & _); by rewrite lookup_empty in Hp).
  split_and!; try done; try set_solver. unfold linked. cbn. refine (conj Hs (conj _ (conj _ _))); try set_solver.
  refine (conj _ (conj _ (conj _ (conj _ _)))); try done. constructor.
Qed.

(** ** A client of the allocator

    A state of the program: the allocator, the objects the client holds, and
    the time of the last call. *)
Inductive client_step : (SizedSlabAlloc S * gset Z * Z) → (SizedSlabAlloc S * gset Z * Z) → Prop :=
  | step_alloc x X t o x' :
      SSA.alloc x = Ok (Some o, x') → client_step (x, X, t) (x', {[o]} ∪ X, t)
  | step_exhausted x X t x' :
      SSA.alloc x = Ok (None, x') → client_step (x, X, t) (x', X, t)
  | step_free x X t o t' x' :
      o ∈ X → t ≤ t' → SSA.dealloc x o t' = Ok x' → client_step (x, X, t) (x', X ∖ {[o]}, t').

Definition client_inv (l : Layout) (st : SizedSlabAlloc S * gset Z * Z) : Prop :=
  ∃ A, sized_inv st.1.1 A st.1.2 ∧ WS.period_begin (full_slab_working_set st.1.1) ≤ st.2 ∧ layout st.1.1 = l.

Lemma client_step_inv l y z : client_inv l y → client_step y z → client_inv l z.
Proof.
  intros (A & Hinv & Ht & El) Hstep. destruct Hstep as [x X t o x' Ha|x X t x' Ha|x X t o t' x' Ho Htt Hd]; cbn in *.
  - destruct (alloc_spec x A X Hinv) as (r & x1 & A' & E & (Ep & Ey & _) & Hr). rewrite Ha in E. injection E as <- <-.
    exists A'. cbn. rewrite Ep, Ey. split; [tauto|done].
  - destruct (alloc_spec x A X Hinv) as (r & x1 & A' & E & (Ep & Ey & _) & Hr). rewrite Ha in E. injection E as <- <-.
    exists A'. cbn. rewrite Ep, Ey. done.
  - destruct (dealloc_spec x A X o t' Hinv Ho ltac:(lia)) as (x1 & A' & E & Hinv' & Hp & Ey & _). rewrite Hd in E. injection E as <-.
    exists A'. cbn. by rewrite Ey.
Qed.

(** C1: the slab allocator is safe.  Take a fresh allocator over any slab
    system and let a client allocate, and free objects it holds, in any order.
    Then no call panics, overflows or follows a bad pointer; every allocation
    that succeeds returns an object the client does not hold, at the required
    alignment and initialized; and once the client holds nothing the
    destructor runs and returns every slab. *)
Theorem slab_alloc_safe (l : Layout) (s : S) (t0 : Z) (x : SizedSlabAlloc S) (X : gset Z) (t : Z) :
  sys_inv s ∅ → 0 < layout_align l → (layout_align l | obj_align) →
  rtc client_step (SSA.new l s t0, ∅, t0) (x, X, t) →
  (∃ r x', SSA.alloc x = Ok (r, x') ∧
     ∀ o, r = Some o → (o ∉ X) ∧ (layout_align l | o) ∧ status_ok (sys_objs (slab_system x')) o status_initialized) ∧
  (∀ o t', o ∈ X → t ≤ t' → ∃ x', SSA.dealloc x o t' = Ok x') ∧
  (X = ∅ → ∃ x', SSA.drop x = Ok x' ∧ sys_inv (slab_system x') ∅).
Proof.
  intros Hs Ha Hd Hreach. assert (client_inv l (x, X, t)) as (A & Hinv & Ht & <-).
  { eapply (rtc_ind_r (client_inv l)); [| |done].
    - exists ∅. split; [by apply new_inv|]. cbn. split; [lia|done].
    - intros y z _ Hstep. intros Hy. exact (client_step_inv l y z Hy Hstep). }
  split_and!.
  - destruct (alloc_spec x A X Hinv) as (r & x' & A' & -> & _ & Hr). exists r, x'. split; [done|]. intros o ->.
    destruct Hr as (? & Hinv' & ?). split_and!; try done. destruct Hinv' as ((? & ? & _ & _ & _ & _ & _ & HXs & _) & _).
    apply HXs. set_solver.
  - intros o t' Ho Ht'. destruct (dealloc_spec x A X o t' Hinv Ho) as (x' & ? & -> & _); [cbn in Ht; lia|]. eauto.
  - intros ->. by eapply drop_spec.
Qed.

(** ** The working set *)

(** The client, and the least number of full slabs seen between calls since the
    current working period began: it starts anew when the period does. *)
Inductive observed (l : Layout) (s : S) (t0 : Z) : SizedSlabAlloc S * gset Z * Z → Z → Prop :=
  | observed_new : observed l s t0 (SSA.new l s t0, ∅, t0) 0
  | observed_step y z m : observed l s t0 y m → client_step y z →
      observed l s t0 z
        (if decide (WS.period_begin (full_slab_working_set z.1.1) = WS.period_begin (full_slab_working_set y.1.1)) then Z.min m (num_full z.1.1) else num_full z.1.1).

Lemma alloc_observed x A X r x' : sized_inv x A X → SSA.alloc x = Ok (r, x') → same_env x x'.
Proof. intros Hi E. destruct (alloc_spec x A X Hi) as (r1 & x1 & A1 & E1 & He & _). rewrite E in E1. by injection E1 as <- <-. Qed.

(** The working set holds what was observed. *)
Lemma observed_data l s t0 y m : sys_inv s ∅ → 0 < layout_align l → (layout_align l | obj_align) → observed l s t0 y m →
  client_inv l y ∧ WS.data (full_slab_working_set y.1.1) = m.
Proof.
  intros Hs Ha Hd. induction 1 as [|y z m _ [Hinv Hm] Hstep].
  - split; [|done]. exists ∅. split; [by apply new_inv|]. cbn. split; [lia|done].
  - split; [by eapply client_step_inv|]. destruct Hinv as (A & Hi & Ht & El).
    destruct Hstep as [x X t o x' E|x X t x' E|x X t o t' x' Ho Htt E]; cbn in *.
    1,2: destruct (alloc_observed _ _ _ _ _ Hi E) as (Ep & _ & Ed); rewrite decide_True by done; congruence.
    destruct (dealloc_spec x A X o t' Hi Ho ltac:(lia)) as (x1 & A' & E1 & (_ & _ & Hw') & _ & _ & A1 & full & _ & _ & Heff). rewrite E in E1. injection E1 as <-.
    destruct (full && bool_decide (period_over x t')) eqn:Eb; destruct Heff as [_ Ew]; rewrite Ew in *; cbn [WS.period_begin WS.data] in *; [|rewrite decide_True by done; lia].
    rewrite decide_False; [done|]. intros Ep. apply andb_true_iff in Eb as [_ Hov%bool_decide_eq_true]. unfold period_over, WORKING_PERIOD_SECONDS in Hov.
    rewrite <- Ep, Z.sub_diag in Hov. by apply Hov.
Qed.

(** A client that runs: it allocates, or frees one of its objects. *)
Inductive client_op := CAlloc | CFree (t : Z).

Definition client_run (c : SizedSlabAlloc S * gset Z * Z * Z) (op : client_op) : res (SizedSlabAlloc S * gset Z * Z * Z) :=
  let '(x, X, t, m) := c in
  '(x', X', t') ← match op with
    | CAlloc => '(r, x') ← SSA.alloc x; Ok (x', match r with Some o => {[o]} ∪ X | None => X end, t)
    | CFree t' =>
        _ ← rassert (t <=? t');
        match elements X with
        | o :: _ => x' ← SSA.dealloc x o t'; Ok (x', X ∖ {[o]}, t')
        | [] => Fault Unreachable
        end
    end;
  Ok (x', X', t', if decide (WS.period_begin (full_slab_working_set x') = WS.period_begin (full_slab_working_set x)) then Z.min m (num_full x') else num_full x').

Lemma client_run_observed l s t0 ops c c' : observed l s t0 c.1 c.2 → rfold client_run ops c = Ok c' → observed l s t0 c'.1 c'.2.
Proof.
  revert c. induction ops as [|op ops IH]; intros [[[x X] t] m] Hobs E; cbn [rfold] in E; [by injection E as <-|].
  destruct (client_run (x, X, t, m) op) as [[[[x1 X1] t1] m1]|] eqn:E1; [|done]. apply (IH (x1, X1, t1, m1)); [|done]. clear IH E. unfold client_run in E1.
  apply res_bind_Ok in E1 as ([[x2 X2] t2] & E1 & E2). injection E2 as -> -> -> <-. cbn [fst snd] in *.
  apply (observed_step l s t0 (x, X, t) (x1, X1, t1) m Hobs). destruct op as [|t'].
  - apply res_bind_Ok in E1 as ([r x3] & E1 & E2). injection E2 as -> <- <-. destruct r; [by apply step_alloc|by apply step_exhausted].
  - apply res_bind_Ok in E1 as ([] & Ht%rassert_Ok & E1). destruct (elements X) as [|o os] eqn:Ex; [done|]. apply res_bind_Ok in E1 as (x3 & E1 & E2). injection E2 as -> <- <-.
    apply step_free; [apply elem_of_elements; rewrite Ex; left|lia|done].
Qed.

(** C21: collection frees exactly the idle slabs.  Take a client of a fresh
    allocator, and let [m] be the least number of full slabs there were between
    its calls since the current working period began.  Freeing an object [o] it
    holds succeeds and keeps everything else it holds; if [o] completes its slab
    and the working period (15 seconds) is over, exactly [m] slabs are freed and
    a new period begins; otherwise none is.  The slabs that are freed have all
    their objects available. *)
Theorem gc_frees_idle_slabs (l : Layout) (s : S) (t0 : Z) (x : SizedSlabAlloc S) (X : gset Z) (t m o t' : Z) :
  sys_inv s ∅ → 0 < layout_align l → (layout_align l | obj_align) → observed l s t0 (x, X, t) m → o ∈ X → t ≤ t' →
  0 ≤ m ≤ num_full x ∧
  ∃ x' A A1 A' full, SSA.dealloc x o t' = Ok x' ∧ sized_inv x A X ∧ sized_inv x' A' (X ∖ {[o]}) ∧ put_back A o A1 full ∧ collected A1 A' ∧
    total_slabs x' = total_slabs x - (if full && bool_decide (period_over x t') then m else 0).
Proof.
  intros Hs Ha Hd Hobs Ho Ht. destruct (observed_data l s t0 _ _ Hs Ha Hd Hobs) as [(A & Hi & Hp & El) Em]. cbn in Hi, Hp, Em. split; [rewrite <- Em; apply Hi|].
  destruct (dealloc_spec x A X o t' Hi Ho ltac:(lia)) as (x' & A' & E & Hi' & _ & _ & A1 & full & Hput & Hcol & Heff). exists x', A, A1, A', full. split_and!; try done.
  destruct (full && _); destruct Heff as [-> _]; lia.
Qed.
End proofs.
