(* ===== verification/Backing.v ===== *)
(** * Backing memory of slabs

    The [UntypedObjectAlloc] trait of [src/object-alloc/src/lib.rs], which
    hands out blocks of one fixed layout, as an interface with its documented
    laws; and [src/slab-alloc/src/backing.rs], which builds one from a general
    [Alloc] (of the standard library, here an interface too). *)

From Stdlib Require Import ZArith Lia.
From S2P Require Import Prelude StdAlloc.
From stdpp Require Import base numbers list gmap option.

Open Scope Z_scope.

(** A block of the address space for a layout. *)
Definition block_ok (l : Layout) (p : Z) : Prop :=
  0 < p ∧ p + layout_size l < 2 ^ 64 ∧ (layout_align l | p).

Definition disjoint_from (p n q m : Z) : Prop := p + n ≤ q ∨ q + m ≤ p.

(** [trait UntypedObjectAlloc]; [Err(Exhausted)] is [None].  [oa_live] is the
    set of blocks handed out and not returned. *)
Class UntypedObjectAlloc (B : Type) := {
  oa_layout : B → Layout;
  oa_alloc : B → res (option Z * B);
  oa_dealloc : B → Z → res B;
  oa_live : B → gset Z;
  oa_inv : B → Prop;
  oa_alloc_spec b : oa_inv b →
    ∃ r b', oa_alloc b = Ok (r, b') ∧ oa_inv b' ∧ oa_layout b' = oa_layout b ∧
      match r with
      | None => oa_live b' = oa_live b
      | Some p => block_ok (oa_layout b) p ∧
          (∀ q, q ∈ oa_live b → disjoint_from p (layout_size (oa_layout b)) q (layout_size (oa_layout b))) ∧
          oa_live b' = {[p]} ∪ oa_live b
      end;
  oa_dealloc_spec b p : oa_inv b → p ∈ oa_live b →
    ∃ b', oa_dealloc b p = Ok b' ∧ oa_inv b' ∧ oa_layout b' = oa_layout b ∧ oa_live b' = oa_live b ∖ {[p]};
}.

(** The standard library's [Alloc]: blocks of any supported layout. *)
Class Alloc (A : Type) := {
  al_alloc : A → Layout → res ((Z + AllocErr) * A);
  al_dealloc : A → Z → Layout → res A;
  al_live : A → gmap Z Layout;
  al_supports : Layout → Prop;
  al_inv : A → Prop;
  al_alloc_spec a l : al_inv a → al_supports l →
    ∃ r a', al_alloc a l = Ok (r, a') ∧ al_inv a' ∧
      match r with
      | inl p => block_ok l p ∧
          (∀ q lq, al_live a !! q = Some lq → disjoint_from p (layout_size l) q (layout_size lq)) ∧
          al_live a' = <[p:=l]> (al_live a)
      | inr (Exhausted _) => al_live a' = al_live a
      | inr AllocUnsupported => False
      end;
  al_dealloc_spec a p l : al_inv a → al_live a !! p = Some l →
    ∃ a', al_dealloc a p l = Ok a' ∧ al_inv a' ∧ al_live a' = delete p (al_live a);
}.

Module AOA.
Section ops.
Context {A : Type} `{!Alloc A}.

(** [AllocObjectAlloc]. *)
Record AllocObjectAlloc := mkAOA { aoa_alloc : A; aoa_layout : Layout }.

Definition new (alloc : A) (layout : Layout) : AllocObjectAlloc := mkAOA alloc layout.

Definition alloc (b : AllocObjectAlloc) : res (option Z * AllocObjectAlloc) :=
  '(r, a) ← al_alloc (aoa_alloc b) (aoa_layout b);
  match r with
  | inl ptr => Ok (Some ptr, mkAOA a (aoa_layout b))
  | inr (Exhausted _) => Ok (None, mkAOA a (aoa_layout b))
  | inr AllocUnsupported => Fault Unreachable
  end.

Definition dealloc (b : AllocObjectAlloc) (ptr : Z) : res AllocObjectAlloc :=
  a ← al_dealloc (aoa_alloc b) ptr (aoa_layout b);
  Ok (mkAOA a (aoa_layout b)).
End ops.
End AOA.

(** The backing allocators of the two features.  The global heap and the mmap
    allocators are parameters, as is the system's [hugepage_supported]. *)
Section providers.
Context {A : Type} `{!Alloc A} (PAGE_SIZE : Z).

(** [heap::get_aligned] and [heap::get_large]. *)
Definition heap_get_aligned (Heap : A) (layout : Layout) : res (option (AOA.AllocObjectAlloc (A := A))) :=
  if PAGE_SIZE <? layout_size layout then Ok None else Ok (Some (AOA.new Heap layout)).

Definition heap_get_large (Heap : A) (layout : Layout) : res (AOA.AllocObjectAlloc (A := A)) :=
  Ok (AOA.new Heap layout).

(** [mmap::get_aligned] (on Linux) and [mmap::get_large]; [map_default] and
    [map_huge n] are the allocators [MapAlloc::default] and the builder with
    [huge_pagesize(n)] construct. *)
Definition mmap_get_aligned (map_default : A) (map_huge : Z → A) (hugepage_supported : Z → bool) (layout : Layout) :
    res (option (AOA.AllocObjectAlloc (A := A))) :=
  _ ← rassert (layout_size layout =? layout_align layout);
  if negb (layout_size layout =? PAGE_SIZE) then
    if hugepage_supported (layout_size layout) then Ok (Some (AOA.new (map_huge (layout_size layout)) layout)) else Ok None
  else Ok (Some (AOA.new map_default layout)).

Definition mmap_get_large (map_default : A) (layout : Layout) : res (AOA.AllocObjectAlloc (A := A)) :=
  _ ← rassert (layout_align layout <=? PAGE_SIZE);
  Ok (AOA.new map_default layout).
End providers.

(** ** Lemmas *)
Lemma disjoint_from_sym p n q m : disjoint_from p n q m → disjoint_from q m p n.
Proof. unfold disjoint_from. tauto. Qed.

(** [AllocObjectAlloc] meets the interface for a layout its allocator
    supports. *)
#[export] Instance alloc_object_alloc {A} `{!Alloc A} : UntypedObjectAlloc (AOA.AllocObjectAlloc (A := A)).
Proof.
  refine {| oa_layout := AOA.aoa_layout; oa_alloc := AOA.alloc; oa_dealloc := AOA.dealloc;
    oa_live b := dom (filter (fun kl => kl.2 = AOA.aoa_layout b) (al_live (AOA.aoa_alloc b)));
    oa_inv b := al_inv (AOA.aoa_alloc b) ∧ al_supports (AOA.aoa_layout b) ∧ 0 < layout_size (AOA.aoa_layout b) |}.
  - intros [a l] (Hi & Hs & Hpos). unfold AOA.alloc. cbn. destruct (al_alloc_spec a l Hi Hs) as (r & a' & -> & Hi' & Hr). cbn [mbind res_bind].
    destruct r as [p|[req|]]; [| |done].
    + destruct Hr as (Hb & Hd & Hl). eexists _, _. split; [done|]. cbn. split; [done|]. split; [done|]. split; [done|]. split.
      * intros q (lq & Hq)%elem_of_dom. apply map_lookup_filter_Some in Hq as [Hq E]. cbn in E. subst lq. eauto.
      * rewrite Hl, map_filter_insert_True, dom_insert_L by done. done.
    + eexists _, _. split; [done|]. cbn. by rewrite Hr.
  - intros [a l] p (Hi & Hs & Hpos) Hp. cbn in *. apply elem_of_dom in Hp as [lp Hp].
    apply map_lookup_filter_Some in Hp as [Hp E]. cbn in E. subst lp. unfold AOA.dealloc. cbn.
    destruct (al_dealloc_spec a p l Hi Hp) as (a' & -> & Hi' & Hl). cbn. eexists. split; [done|]. cbn. split; [done|]. split; [done|].
    rewrite Hl, map_filter_delete, dom_delete_L. done.
Defined.

(** ** A heap to run with

    Hands out consecutive blocks of any layout below a limit. *)
Record BumpHeap := mkBumpHeap { bh_next : Z; bh_limit : Z; bh_live : gmap Z Layout }.

Definition bh_alloc (h : BumpHeap) (l : Layout) : res ((Z + AllocErr) * BumpHeap) :=
  let p := bh_next h + (- bh_next h) mod layout_align l in
  let n := p + layout_size l in
  if n <=? bh_limit h then Ok (inl p, mkBumpHeap n (bh_limit h) (<[p:=l]> (bh_live h))) else Ok (inr (Exhausted l), h).

Definition bh_dealloc (h : BumpHeap) (p : Z) (_ : Layout) : res BumpHeap :=
  Ok (mkBumpHeap (bh_next h) (bh_limit h) (delete p (bh_live h))).

Definition bh_inv (h : BumpHeap) : Prop :=
  0 < bh_next h ∧ bh_limit h < 2 ^ 62 ∧ ∀ q l, bh_live h !! q = Some l → 0 < layout_size l ∧ q + layout_size l ≤ bh_next h.

#[export] Instance bump_heap_alloc : Alloc BumpHeap.
Proof.
  refine {| al_alloc := bh_alloc; al_dealloc := bh_dealloc; al_live := bh_live; al_inv := bh_inv;
    al_supports l := 0 < layout_size l ∧ 0 < layout_align l |}.
  - intros h l (H1 & H2 & H3) [Hs Ha]. unfold bh_alloc. pose proof (Z.mod_pos_bound (- bh_next h) (layout_align l) Ha).
    set (p := bh_next h + (- bh_next h) mod layout_align l). destruct (Z.leb_spec (p + layout_size l) (bh_limit h)).
    + eexists _, _. split; [done|]. split; [|split; [|split; [|done]]].
      * unfold bh_inv. cbn. split_and!; [unfold p; lia|done|]. intros q lq Hq. apply lookup_insert_Some in Hq as [[<- <-]|[_ Hq]]; [lia|].
        apply H3 in Hq. unfold p. lia.
      * split; [unfold p; lia|]. split; [lia|]. apply Z.mod_divide; [lia|]. unfold p.
        rewrite Z.add_mod_idemp_r by lia. replace (bh_next h + - bh_next h) with 0 by lia. apply Z.mod_0_l. lia.
      * intros q lq Hq. apply H3 in Hq. unfold disjoint_from, p. lia.
    + eexists _, _. split; [done|]. done.
  - intros h p l (H1 & H2 & H3) Hp. eexists. split; [done|]. split; [|done]. unfold bh_inv. cbn. split_and!; try done.
    intros q lq Hq. apply lookup_delete_Some in Hq as [_ Hq]. eauto.
Defined.

