(* ===== verification/MmapAlloc.v ===== *)
(** * The page allocator over mmap

    Models [src/mmap-alloc/src/lib.rs] on Linux: the builder, the permissions,
    and the [Alloc] and [UntypedObjectAlloc] implementations of [MapAlloc].
    The kernel is a parameter: a state with the system calls the crate makes
    and their documented effect on the set of mapped pages and on memory. *)

From Stdlib Require Import ZArith Lia.
From S2P Require Import Prelude StdAlloc Backing.
From stdpp Require Import base numbers list gmap option fin_maps.

Open Scope Z_scope.

(** ** The kernel *)
Definition PROT_NONE : Z := 0.
Definition PROT_READ : Z := 1.
Definition PROT_WRITE : Z := 2.
Definition PROT_EXEC : Z := 4.
Definition MAP_PRIVATE : Z := 2.
Definition MAP_ANONYMOUS : Z := 32.
Definition MAP_POPULATE : Z := 32768.
Definition MREMAP_MAYMOVE : Z := 1.
Definition ENOMEM : Z := 12.

(** The pages (by number) that the bytes from [p] to [p + n] touch. *)
Definition pages_of (page p n : Z) : gset Z := list_to_set (zrange (p / page) ((p + n + page - 1) / page)).

(** The system calls.  A result is an address or an error number; [k_mapped] is
    the set of mapped pages and [k_byte] the contents of memory.  [k_ok] also
    says that the process stays below the system's limit on the number of
    mappings: [munmap] fails with ENOMEM only when it splits a mapping at that
    limit, and the source asserts that it does not ([unmap]); so the laws let
    [mmap] and [mremap] run out of memory, but not [munmap]. *)
Class Kernel (K : Type) := {
  k_page : Z;
  k_mmap : K → Z → Z → Z → (Z + Z) * K;
  k_munmap : K → Z → Z → Z * K;
  k_mremap : K → Z → Z → Z → Z → (Z + Z) * K;
  k_madvise : K → Z → Z → K;
  k_write : K → Z → Z → K;
  k_mapped : K → gset Z;
  k_byte : K → Z → Z;
  k_ok : K → Prop;
  k_page_pow2 : ∃ e, 0 ≤ e ≤ 31 ∧ k_page = 2 ^ e;
  (** an anonymous private mapping at no given address: a fresh, zeroed,
      page-aligned, nonnull range, or out of memory *)
  k_mmap_spec k n prot flags : k_ok k → 0 < n → flags = Z.lor MAP_ANONYMOUS MAP_PRIVATE ∨ flags = Z.lor (Z.lor MAP_ANONYMOUS MAP_PRIVATE) MAP_POPULATE →
    let '(r, k') := k_mmap k n prot flags in
    k_ok k' ∧
    match r with
    | inl p => 0 < p ∧ (k_page | p) ∧ p + n ≤ 2 ^ 63 ∧ pages_of k_page p n ## k_mapped k ∧
        k_mapped k' = pages_of k_page p n ∪ k_mapped k ∧ (∀ a, p ≤ a < p + n → k_byte k' a = 0) ∧
        (∀ a, a / k_page ∈ k_mapped k → k_byte k' a = k_byte k a)
    | inr e => e = ENOMEM ∧ k' = k
    end;
  k_munmap_spec k p n : k_ok k → (k_page | p) → 0 < n →
    let '(r, k') := k_munmap k p n in
    k_ok k' ∧ r = 0 ∧ k_mapped k' = k_mapped k ∖ pages_of k_page p n ∧
    (∀ a, a / k_page ∈ k_mapped k' → k_byte k' a = k_byte k a);
  (** a mapping resized in place, or moved when that is allowed *)
  k_mremap_spec k p old n flags : k_ok k → 0 < p → (k_page | p) → 0 < old → 0 < n → pages_of k_page p old ⊆ k_mapped k →
    let '(r, k') := k_mremap k p old n flags in
    k_ok k' ∧
    match r with
    | inl q => (flags = 0 → q = p) ∧ 0 < q ∧ (k_page | q) ∧ q + n ≤ 2 ^ 63 ∧
        pages_of k_page q n ## k_mapped k ∖ pages_of k_page p old ∧
        k_mapped k' = pages_of k_page q n ∪ (k_mapped k ∖ pages_of k_page p old) ∧
        (∀ i, 0 ≤ i < Z.min old n → k_byte k' (q + i) = k_byte k (p + i)) ∧
        (∀ a, a / k_page ∈ k_mapped k ∖ pages_of k_page p old → k_byte k' a = k_byte k a)
    | inr e => e = ENOMEM ∧ k' = k
    end;
  (** a store to mapped memory *)
  k_write_spec k a v : k_ok k → a / k_page ∈ k_mapped k →
    k_ok (k_write k a v) ∧ k_mapped (k_write k a v) = k_mapped k ∧ ∀ x, k_byte (k_write k a v) x = if decide (x = a) then v else k_byte k x;
  k_madvise_spec k p n : k_ok k → k_ok (k_madvise k p n) ∧ k_mapped (k_madvise k p n) = k_mapped k;
}.

(** ** The crate *)
Definition get_perm (read write exec : bool) : Z :=
  match read, write, exec with
  | false, false, false => PROT_NONE
  | true, false, false => PROT_READ
  | false, true, false => PROT_WRITE
  | false, false, true => PROT_EXEC
  | true, true, false => Z.lor PROT_READ PROT_WRITE
  | true, false, true => Z.lor PROT_READ PROT_EXEC
  | false, true, true => Z.lor PROT_WRITE PROT_EXEC
  | true, true, true => Z.lor (Z.lor PROT_READ PROT_WRITE) PROT_EXEC
  end.

(** [MapAllocBuilder]. *)
Record MapAllocBuilder := mkMapBuilder {
  b_read : bool; b_write : bool; b_exec : bool; b_commit : bool; b_pagesize : Z; b_obj_size : option Z }.

(** [MapAlloc]. *)
Record MapAlloc := mkMapAlloc {
  pagesize : Z; read : bool; write : bool; exec : bool; perms : Z; commit : bool; obj_size : Z }.

Module MB.
Definition build (b : MapAllocBuilder) : res MapAlloc :=
  obj_size ← match b_obj_size b with
    | Some obj_size =>
        r ← umod obj_size (b_pagesize b);
        _ ← rassert (r =? 0);
        Ok obj_size
    | None => Ok (b_pagesize b)
    end;
  Ok (mkMapAlloc (b_pagesize b) (b_read b) (b_write b) (b_exec b) (get_perm (b_read b) (b_write b) (b_exec b)) (b_commit b) obj_size).

Definition read (b : MapAllocBuilder) (read : bool) : MapAllocBuilder :=
  mkMapBuilder read (b_write b) (b_exec b) (b_commit b) (b_pagesize b) (b_obj_size b).
Definition write (b : MapAllocBuilder) (write : bool) : MapAllocBuilder :=
  mkMapBuilder (b_read b) write (b_exec b) (b_commit b) (b_pagesize b) (b_obj_size b).
Definition exec (b : MapAllocBuilder) (exec : bool) : MapAllocBuilder :=
  mkMapBuilder (b_read b) (b_write b) exec (b_commit b) (b_pagesize b) (b_obj_size b).
Definition no_write (b : MapAllocBuilder) : MapAllocBuilder :=
  mkMapBuilder (b_read b) false (b_exec b) (b_commit b) (b_pagesize b) (b_obj_size b).
Definition commit (b : MapAllocBuilder) (commit : bool) : MapAllocBuilder :=
  mkMapBuilder (b_read b) (b_write b) (b_exec b) commit (b_pagesize b) (b_obj_size b).
Definition obj_size (b : MapAllocBuilder) (obj_size : Z) : MapAllocBuilder :=
  mkMapBuilder (b_read b) (b_write b) (b_exec b) (b_commit b) (b_pagesize b) (Some obj_size).

(** [Default]; the page size is [sysconf::page::pagesize()]. *)
Definition default {K} `{!Kernel K} : MapAllocBuilder := mkMapBuilder true true false false k_page None.
End MB.

Definition next_multiple (size unit : Z) : res Z :=
  remainder ← umod size unit;
  if remainder =? 0 then Ok size else d ← usub unit remainder; uadd size d.

Module MMap.
Section ops.
Context {K : Type} `{!Kernel K}.

(** [map]; a failure other than out of memory panics. *)
Definition map (size perms : Z) (commit : bool) : M K (option Z) := fun k =>
  let flags := if commit then Z.lor (Z.lor MAP_ANONYMOUS MAP_PRIVATE) MAP_POPULATE else Z.lor MAP_ANONYMOUS MAP_PRIVATE in
  match k_mmap k size perms flags with
  | (inr e, k') => if e =? ENOMEM then Ok (None, k') else Fault Panicked
  | (inl ptr, k') => _ ← rassert (negb (ptr =? 0)); Ok (Some ptr, k')
  end.

(** [remap]; the assertion of the code is on the argument. *)
Definition remap (ptr old_size new_size : Z) (in_place : bool) : M K (option Z) := fun k =>
  let flags := if negb in_place then MREMAP_MAYMOVE else 0 in
  match k_mremap k ptr old_size new_size flags with
  | (inr e, k') => if e =? ENOMEM then Ok (None, k') else Fault Panicked
  | (inl result, k') => _ ← rassert (negb (ptr =? 0)); Ok (Some result, k')
  end.

Definition unmap (ptr size : Z) : M K unit := fun k =>
  let '(ret, k') := k_munmap k ptr size in
  _ ← rassert (ret =? 0); Ok (tt, k').

Definition uncommit_pages (ptr size : Z) : M K unit := fun k => Ok (tt, k_madvise k ptr size).

(** [MapAlloc::default]. *)
Definition default : res MapAlloc := MB.build MB.default.

Definition debug_verify_ptr (m : MapAlloc) (ptr : Z) (layout : Layout) : res unit :=
  r ← umod ptr (pagesize m);
  _ ← rassert (r =? 0);
  rassert (layout_align layout <=? pagesize m).

Definition uncommit (m : MapAlloc) (ptr : Z) (layout : Layout) : M K unit :=
  _ ← lift (rassert (0 <? layout_size layout));
  _ ← lift (debug_verify_ptr m ptr layout);
  uncommit_pages ptr (layout_size layout).

Definition alloc (m : MapAlloc) (layout : Layout) : M K (Z + AllocErr) :=
  _ ← lift (rassert (0 <? layout_size layout));
  if pagesize m <? layout_align layout then mret (inr AllocUnsupported)
  else
    size ← lift (next_multiple (layout_size layout) (pagesize m));
    r ← map size (perms m) (commit m);
    mret (match r with Some ptr => inl ptr | None => inr (Exhausted layout) end).

Definition dealloc (m : MapAlloc) (ptr : Z) (layout : Layout) : M K unit :=
  _ ← lift (rassert (0 <? layout_size layout));
  unmap ptr (layout_size layout).

Definition usable_size (m : MapAlloc) (layout : Layout) : res (Z * Z) :=
  _ ← rassert (0 <? layout_size layout);
  max_size ← next_multiple (layout_size layout) (pagesize m);
  lo ← usub max_size (pagesize m);
  lo ← uadd lo 1;
  Ok (lo, max_size).

Definition alloc_zeroed (m : MapAlloc) (layout : Layout) : M K (Z + AllocErr) :=
  _ ← lift (rassert (0 <? layout_size layout));
  alloc m layout.

Definition realloc (m : MapAlloc) (ptr : Z) (layout new_layout : Layout) : M K (Z + AllocErr) :=
  _ ← lift (rassert (0 <? layout_size layout));
  _ ← lift (rassert (0 <? layout_size new_layout));
  if pagesize m <? layout_align new_layout then mret (inr AllocUnsupported)
  else
    old_size ← lift (next_multiple (layout_size layout) (pagesize m));
    new_size ← lift (next_multiple (layout_size new_layout) (pagesize m));
    if old_size =? new_size then mret (inl ptr)
    else
      r ← remap ptr old_size (layout_size new_layout) false;
      mret (match r with Some p => inl p | None => inr (Exhausted new_layout) end).

(** [true] is [Ok(())], [false] is [Err(CannotReallocInPlace)]. *)
Definition resize_in_place (m : MapAlloc) (ptr : Z) (layout new_layout : Layout) : M K bool :=
  if pagesize m <? layout_align new_layout then mret false
  else
    old_size ← lift (next_multiple (layout_size layout) (pagesize m));
    new_size ← lift (next_multiple (layout_size new_layout) (pagesize m));
    if old_size =? new_size then mret true
    else
      r ← remap ptr old_size new_size true;
      match r with
      | Some new_ptr => _ ← lift (rassert (new_ptr =? ptr)); mret true
      | None => mret false
      end.

Definition grow_in_place (m : MapAlloc) (ptr : Z) (layout new_layout : Layout) : M K bool :=
  _ ← lift (rassert (0 <? layout_size layout));
  _ ← lift (rassert (0 <? layout_size new_layout));
  _ ← lift (rassert (layout_size layout <=? layout_size new_layout));
  _ ← lift (rassert (layout_align new_layout =? layout_align layout));
  resize_in_place m ptr layout new_layout.

Definition shrink_in_place (m : MapAlloc) (ptr : Z) (layout new_layout : Layout) : M K bool :=
  _ ← lift (rassert (0 <? layout_size layout));
  _ ← lift (rassert (0 <? layout_size new_layout));
  _ ← lift (rassert (layout_size new_layout <=? layout_size layout));
  _ ← lift (rassert (layout_align new_layout =? layout_align layout));
  resize_in_place m ptr layout new_layout.

(** [UntypedObjectAlloc for &MapAlloc]; [alloc_excess] is the standard
    library's, an [alloc] paired with the usable size. *)
Definition obj_layout (m : MapAlloc) : res Layout := unwrap (from_size_align (obj_size m) (pagesize m)).

Definition obj_alloc (m : MapAlloc) : M K (option Z) :=
  layout ← lift (obj_layout m);
  _ ← lift (usable_size m layout);
  r ← alloc m layout;
  match r with
  | inl ptr => mret (Some ptr)
  | inr (Exhausted _) => mret None
  | inr AllocUnsupported => throw Unreachable
  end.

Definition obj_dealloc (m : MapAlloc) (ptr : Z) : M K unit := unmap ptr (obj_size m).
End ops.
End MMap.

(** ** Pages *)
Section pages.
Context (P : Z) (HP : 0 < P).

Lemma elem_of_pages p n x : (P | p) → x ∈ pages_of P p n ↔ p ≤ x * P < p + n.
Proof.
  intros [a ->]. unfold pages_of. rewrite elem_of_list_to_set, elem_of_zrange, Z.div_mul by lia.
  replace (a * P + n + P - 1) with (n + P - 1 + a * P) by lia. rewrite Z.div_add by lia.
  pose proof (Z.div_mod (n + P - 1) P). pose proof (Z.mod_pos_bound (n + P - 1) P). split; [|nia].
  intros [H1 H2]. split; [nia|]. set (q := (n + P - 1) / P) in *. assert (x - a + 1 ≤ q) by lia. nia.
Qed.

(** Rounding the length up to whole pages does not add a page. *)
Lemma pages_of_round p n r : (P | p) → (P | r) → n ≤ r < n + P → pages_of P p r = pages_of P p n.
Proof.
  intros Hp [b ->] Hr. apply set_eq. intros x. rewrite !elem_of_pages by done. destruct Hp as [a ->]. split; [|lia].
  intros [? ?]. split; [lia|]. assert (x - a < b) by nia. nia.
Qed.

Lemma pages_head p n : (P | p) → 0 < n → p / P ∈ pages_of P p n.
Proof. intros Hp Hn. apply elem_of_pages; [done|]. destruct Hp as [a ->]. rewrite Z.div_mul by lia. lia. Qed.

(** Ranges that share no page share no byte. *)
Lemma pages_disjoint p n q m : (P | p) → (P | q) → 0 < n → 0 < m → pages_of P p n ## pages_of P q m → disjoint_from p n q m.
Proof.
  intros Hp Hq Hn Hm Hd. unfold disjoint_from. destruct (decide (p + n ≤ q)); [by left|]. destruct (decide (q + m ≤ p)); [by right|].
  exfalso. destruct (decide (p ≤ q)).
  - apply (Hd (q / P)); [|by apply pages_head]. apply elem_of_pages; [done|]. destruct Hq as [b ->]. rewrite Z.div_mul by lia. lia.
  - apply (Hd (p / P)); [by apply pages_head|]. apply elem_of_pages; [done|]. destruct Hp as [b ->]. rewrite Z.div_mul by lia. lia.
Qed.

Lemma page_of_byte p n a : (P | p) → p ≤ a < p + n → a / P ∈ pages_of P p n.
Proof.
  intros Hp Ha. apply elem_of_pages; [done|]. destruct Hp as [b ->]. pose proof (Z.div_mod a P). pose proof (Z.mod_pos_bound a P).
  split; [|lia]. assert (b ≤ a / P) by (apply Z.div_le_lower_bound; lia). nia.
Qed.

Lemma next_multiple_spec size : 0 ≤ size → size + P < 2 ^ 64 →
  ∃ r, next_multiple size P = Ok r ∧ (P | r) ∧ size ≤ r < size + P.
Proof.
  intros H0 H1. unfold next_multiple. res_step by lia. pose proof (Z.mod_pos_bound size P).
  destruct (Z.eqb_spec (size mod P) 0) as [E|E].
  - exists size. split_and!; [done| |lia|lia]. by apply Z.mod_divide; [lia|].
  - res_step by lia. rewrite uadd_Ok by lia. eexists. split_and!; [done| |lia|lia].
    exists (size / P + 1). pose proof (Z.div_mod size P). lia.
Qed.
End pages.

(** ** Blocks and pages

    [pinv base live mapped]: the mapped pages are those of [base] (the
    mappings of others) and of the blocks [live], which share no page. *)
Section blocks.
Context (P : Z) (HP : 0 < P).

Definition map_legal (l : Layout) : Prop := 0 < layout_size l < 2 ^ 62 ∧ 0 < layout_align l ≤ P ∧ (layout_align l | P).

Definition block_at (p : Z) (l : Layout) : Prop := map_legal l ∧ 0 < p ∧ (P | p) ∧ p + layout_size l ≤ 2 ^ 63.

Definition block_pages (p : Z) (l : Layout) : gset Z := pages_of P p (layout_size l).

Definition pinv (base : gset Z) (live : gmap Z Layout) (mapped : gset Z) : Prop :=
  (∀ x, x ∈ mapped ↔ x ∈ base ∨ ∃ p l, live !! p = Some l ∧ x ∈ block_pages p l) ∧
  (∀ p l, live !! p = Some l → block_at p l ∧ block_pages p l ## base) ∧
  (∀ p l q l', live !! p = Some l → live !! q = Some l' → p ≠ q → block_pages p l ## block_pages q l').

Lemma pinv_empty base : pinv base ∅ base.
Proof.
  split_and!.
  - intros x. split; [by left|]. intros [?|(p & l & Hp & _)]; [done|by rewrite lookup_empty in Hp].
  - intros p l Hp. by rewrite lookup_empty in Hp.
  - intros p l q l' Hp. by rewrite lookup_empty in Hp.
Qed.

Lemma pinv_fresh base live mapped p l : pinv base live mapped → block_at p l → block_pages p l ## mapped → live !! p = None.
Proof.
  intros (Hm & Hb & _) ((Hs & _) & _ & Hp & _) Hd. destruct (live !! p) as [l'|] eqn:E; [|done]. exfalso.
  destruct (Hb _ _ E) as [((Hs' & _) & _) _]. apply (Hd (p / P)); [by apply pages_head; [| |lia]|]. apply Hm. right.
  exists p, l'. split; [done|]. by apply pages_head; [| |lia].
Qed.

Lemma pinv_insert base live mapped p l : pinv base live mapped → block_at p l → block_pages p l ## mapped →
  pinv base (<[p:=l]> live) (block_pages p l ∪ mapped).
Proof.
  intros Hinv Hat Hd. pose proof (pinv_fresh _ _ _ _ _ Hinv Hat Hd) as Hnone. destruct Hinv as (Hm & Hb & Hdis).
  assert (Hother : ∀ q l', live !! q = Some l' → block_pages p l ## block_pages q l').
  { intros q l' Hq x Hx Hx'. apply (Hd x Hx). apply Hm. right. eauto. }
  split_and!.
  - intros x. rewrite elem_of_union, Hm. split.
    + intros [Hx|[Hx|(q & l' & Hq & Hx)]]; [|by left|].
      * right. exists p, l. by rewrite lookup_insert_eq.
      * right. exists q, l'. rewrite lookup_insert_ne by congruence. done.
    + intros [Hx|(q & l' & [[<- <-]|[_ Hq]]%lookup_insert_Some & Hx)]; [by right; left|by left|]. right. right. eauto.
  - intros q l' [[<- <-]|[_ Hq]]%lookup_insert_Some; [|by apply Hb]. split; [done|]. intros x Hx Hx'. apply (Hd x Hx), Hm. by left.
  - intros q1 l1 q2 l2 [[<- <-]|[? Hq1]]%lookup_insert_Some [[<- <-]|[? Hq2]]%lookup_insert_Some Hne.
    + done.
    + by apply (Hother q2).
    + symmetry. by apply (Hother q1).
    + by apply (Hdis q1 l1 q2 l2).
Qed.

Lemma pinv_delete base live mapped p l : pinv base live mapped → live !! p = Some l →
  pinv base (delete p live) (mapped ∖ block_pages p l).
Proof.
  intros (Hm & Hb & Hdis) Hp. split_and!.
  - intros x. rewrite elem_of_difference, Hm. split.
    + intros [[Hx|(q & l' & Hq & Hx)] Hn]; [by left|]. right. exists q, l'. split; [|done].
      apply lookup_delete_Some. split; [|done]. intros <-. by simplify_eq.
    + intros [Hx|(q & l' & [Hne Hq]%lookup_delete_Some & Hx)].
      * split; [by left|]. intros Hx'. destruct (Hb _ _ Hp) as [_ H]. by apply (H x).
      * split; [right; eauto|]. intros Hx'. by apply (Hdis p l q l' Hp Hq Hne x).
  - intros q l' [_ Hq]%lookup_delete_Some. by apply Hb.
  - intros q1 l1 q2 l2 [_ H1]%lookup_delete_Some [_ H2]%lookup_delete_Some. eauto.
Qed.

Lemma pinv_pages base live mapped p l : pinv base live mapped → live !! p = Some l → block_pages p l ⊆ mapped.
Proof. intros (Hm & _) Hp x Hx. apply Hm. right. eauto. Qed.

Lemma pinv_disjoint base live mapped p l q l' : pinv base live mapped → live !! p = Some l → live !! q = Some l' → p ≠ q →
  disjoint_from p (layout_size l) q (layout_size l').
Proof.
  intros (_ & Hb & Hdis) Hp Hq Hne. destruct (Hb _ _ Hp) as [((H1 & _) & _ & H2 & _) _], (Hb _ _ Hq) as [((H3 & _) & _ & H4 & _) _].
  eapply (pages_disjoint P HP); try done; try lia. eapply Hdis; done.
Qed.

(** A block whose size changes within its last page keeps its pages. *)
Lemma pinv_relabel base live mapped p l l' : pinv base live mapped → live !! p = Some l → block_at p l' →
  block_pages p l' = block_pages p l → pinv base (<[p:=l']> live) mapped.
Proof.
  intros Hinv Hp Hat E. pose proof (pinv_pages _ _ _ _ _ Hinv Hp). pose proof (pinv_delete _ _ _ _ _ Hinv Hp) as Hdel.
  apply (pinv_insert _ _ _ p l') in Hdel; [|done|rewrite E; set_solver].
  rewrite insert_delete_eq in Hdel. replace mapped with (block_pages p l' ∪ mapped ∖ block_pages p l); [done|].
  rewrite E. symmetry. by apply union_difference_L.
Qed.
End blocks.

(** ** The operations against the kernel *)
Section specs.
Context {K : Type} `{!Kernel K} (m : MapAlloc) (Hm : pagesize m = k_page).

#[local] Abbreviation legal := (map_legal k_page).
#[local] Abbreviation at_block := (block_at k_page).
#[local] Abbreviation bpages := (block_pages k_page).

Lemma k_page_pos : 0 < k_page.
Proof. destruct k_page_pow2 as (e & He & ->). apply pow2_pos. lia. Qed.

Lemma page_small : k_page ≤ 2 ^ 31.
Proof. destruct k_page_pow2 as (e & He & ->). apply Z.pow_le_mono_r; lia. Qed.

Lemma legal_round l : legal l → ∃ r, next_multiple (layout_size l) (pagesize m) = Ok r ∧ (k_page | r) ∧
  layout_size l ≤ r < layout_size l + k_page.
Proof.
  intros [Hs _]. rewrite Hm. pose proof k_page_pos. pose proof page_small. apply next_multiple_spec; lia.
Qed.

Lemma legal_align l : legal l → (pagesize m <? layout_align l) = false.
Proof. intros (_ & Ha & _). rewrite Hm. apply Z.ltb_ge. lia. Qed.

Lemma bpages_round l r p : (k_page | p) → (k_page | r) → layout_size l ≤ r < layout_size l + k_page → pages_of k_page p r = bpages p l.
Proof. intros. apply pages_of_round; [apply k_page_pos|done..]. Qed.

(** What a successful allocation gives. *)
Definition mapped_fresh (k : K) (p : Z) (l : Layout) (k' : K) : Prop :=
  at_block p l ∧ bpages p l ## k_mapped k ∧ k_mapped k' = bpages p l ∪ k_mapped k ∧
  (∀ a, p ≤ a < p + layout_size l → k_byte k' a = 0) ∧ (∀ a, a / k_page ∈ k_mapped k → k_byte k' a = k_byte k a).

Lemma map_alloc_spec k l : k_ok k → legal l → ∃ r k', MMap.alloc m l k = Ok (r, k') ∧ k_ok k' ∧
  match r with inl p => mapped_fresh k p l k' | inr (Exhausted l') => l' = l ∧ k' = k | inr AllocUnsupported => False end.
Proof.
  intros Hk Hl. destruct (legal_round l Hl) as (n & Hn & Hd & Hr). pose proof Hl as (Hs & _).
  unfold MMap.alloc. rewrite lift_assert by (apply Z.ltb_lt; lia). rewrite (legal_align l Hl), (lift_bind _ _ _ _ Hn).
  unfold MMap.map, mbind, M_bind. set (flags := if commit m then _ else _).
  assert (Hf : flags = Z.lor MAP_ANONYMOUS MAP_PRIVATE ∨ flags = Z.lor (Z.lor MAP_ANONYMOUS MAP_PRIVATE) MAP_POPULATE)
    by (unfold flags; destruct (commit m); auto).
  pose proof (k_mmap_spec k n (perms m) flags Hk ltac:(lia) Hf) as H. destruct (k_mmap k n (perms m) flags) as [[p|e] k'].
  - destruct H as (Hk' & Hp & Hpp & Hend & Hfr & Hmap & Hz & Hkeep).
    rewrite rassert_true by (apply negb_true_iff, Z.eqb_neq; lia). cbn [mbind res_bind]. exists (inl p), k'. split; [done|]. split; [done|].
    rewrite (bpages_round l n p) in Hfr, Hmap by done. split; [split_and!; (done || lia || apply Hl)|]. split_and!; try done. intros a Ha. apply Hz. lia.
  - destruct H as (Hk' & -> & ->). eexists _, _. split; [done|]. split; [done|]. done.
Qed.

Lemma map_dealloc_spec k p l : k_ok k → at_block p l → ∃ k', MMap.dealloc m p l k = Ok (tt, k') ∧ k_ok k' ∧
  k_mapped k' = k_mapped k ∖ bpages p l ∧ (∀ a, a / k_page ∈ k_mapped k' → k_byte k' a = k_byte k a).
Proof.
  intros Hk ((Hs & _) & Hp & Hd & _). unfold MMap.dealloc. rewrite lift_assert by (apply Z.ltb_lt; lia). unfold MMap.unmap.
  pose proof (k_munmap_spec k p (layout_size l) Hk Hd ltac:(lia)) as H. destruct (k_munmap k p (layout_size l)) as [ret k'].
  destruct H as (Hk' & -> & Hmap & Hb). eexists. split; [done|]. done.
Qed.

(** What a resized block looks like: its first bytes and everyone else's are
    kept. *)
Definition resized (k : K) (p : Z) (l : Layout) (q : Z) (l' : Layout) (k' : K) : Prop :=
  at_block q l' ∧ bpages q l' ## k_mapped k ∖ bpages p l ∧ k_mapped k' = bpages q l' ∪ (k_mapped k ∖ bpages p l) ∧
  (∀ i, 0 ≤ i < Z.min (layout_size l) (layout_size l') → k_byte k' (q + i) = k_byte k (p + i)) ∧
  (∀ a, a / k_page ∈ k_mapped k ∖ bpages p l → k_byte k' a = k_byte k a).

(** Sizes that round to the same number of pages. *)
Lemma resized_same k p l l' r : at_block p l → legal l' → bpages p l ⊆ k_mapped k → (k_page | r) →
  layout_size l ≤ r < layout_size l + k_page → layout_size l' ≤ r < layout_size l' + k_page → p + r ≤ 2 ^ 63 → resized k p l p l' k.
Proof.
  intros (Hl & Hp & Hd & Hend) Hl' Hsub Hr H1 H2 H3.
  assert (E : bpages p l' = bpages p l) by (rewrite <- (bpages_round l r p), <- (bpages_round l' r p); done).
  split; [split_and!; (done || lia || apply Hl')|]. split_and!; try done; rewrite E; [set_solver|by apply union_difference_L].
Qed.

Lemma remap_spec k p l l' old n in_place : k_ok k → at_block p l → legal l' → bpages p l ⊆ k_mapped k →
  (k_page | old) → layout_size l ≤ old < layout_size l + k_page → layout_size l' ≤ n < layout_size l' + k_page →
  n = layout_size l' ∨ (k_page | n) →
  ∃ r k', MMap.remap p old n in_place k = Ok (r, k') ∧ k_ok k' ∧
    match r with Some q => (in_place = true → q = p) ∧ resized k p l q l' k' | None => k' = k end.
Proof.
  intros Hk (Hl & Hp & Hd & Hend) Hl' Hsub Hod Hold Hn Hor. unfold MMap.remap. set (flags := if negb in_place then _ else _).
  pose proof Hl as (Hs & _). pose proof Hl' as (Hs' & _). pose proof (bpages_round l old p Hd Hod Hold) as Eold.
  pose proof (k_mremap_spec k p old n flags Hk Hp Hd ltac:(lia) ltac:(lia)) as H. rewrite Eold in H. specialize (H Hsub).
  destruct (k_mremap k p old n flags) as [[q|e] k'].
  - destruct H as (Hk' & Hpl & Hq & Hqd & Hqe & Hfr & Hmap & Hb & Hkeep). rewrite rassert_true by (apply negb_true_iff, Z.eqb_neq; lia).
    cbn [mbind res_bind]. exists (Some q), k'. split; [done|]. split; [done|]. split; [intros ->; by apply Hpl|].
    assert (E : pages_of k_page q n = bpages q l') by (destruct Hor as [->|?]; [done|by apply bpages_round]). rewrite E in Hfr, Hmap.
    split; [split_and!; (done || lia || apply Hl')|]. split_and!; try done. intros i Hi. apply Hb. lia.
  - destruct H as (Hk' & -> & ->). eexists _, _. split; [done|]. split; [done|]. done.
Qed.

Lemma round_room p l r : at_block p l → (k_page | r) → layout_size l ≤ r < layout_size l + k_page → p + r ≤ 2 ^ 63.
Proof.
  intros ((Hs & _) & _ & [a ->] & Hend) [b ->] Hr. destruct k_page_pow2 as (e & He & E). rewrite E in *.
  assert (E63 : 2 ^ 63 = 2 ^ (63 - e) * 2 ^ e) by (rewrite <- Z.pow_add_r by lia; f_equal; lia). rewrite E63 in *.
  pose proof (pow2_pos e ltac:(lia)). assert (a + b - 2 ^ (63 - e) < 1); nia.
Qed.

Lemma map_realloc_spec k p l l' : k_ok k → at_block p l → legal l' → bpages p l ⊆ k_mapped k →
  ∃ r k', MMap.realloc m p l l' k = Ok (r, k') ∧ k_ok k' ∧
    match r with inl q => resized k p l q l' k' | inr (Exhausted _) => k' = k | inr AllocUnsupported => False end.
Proof.
  intros Hk Hat Hl' Hsub. pose proof Hat as (Hl & _). destruct (legal_round l Hl) as (o & Ho & Hod & Hor), (legal_round l' Hl') as (n & Hn & Hnd & Hnr).
  pose proof Hl as (Hs & _). pose proof Hl' as (Hs' & _). pose proof k_page_pos.
  unfold MMap.realloc. rewrite lift_assert by (apply Z.ltb_lt; lia). rewrite lift_assert by (apply Z.ltb_lt; lia).
  rewrite (legal_align l' Hl'), (lift_bind _ _ _ _ Ho), (lift_bind _ _ _ _ Hn). destruct (Z.eqb_spec o n) as [->|Hne].
  - exists (inl p), k. split; [done|]. split; [done|]. apply (resized_same k p l l' n); try done. by apply (round_room p l).
  - destruct (remap_spec k p l l' o (layout_size l') false) as (r & k' & Er & Hk' & Hr); try done; [lia|by left|].
    unfold mbind, M_bind. rewrite Er. destruct r as [q|]; eexists _, _; (split; [done|]); (split; [done|]); [by destruct Hr|done].
Qed.

Lemma resize_in_place_spec k p l l' : k_ok k → at_block p l → legal l' → bpages p l ⊆ k_mapped k →
  ∃ b k', MMap.resize_in_place m p l l' k = Ok (b, k') ∧ k_ok k' ∧ if b : bool then resized k p l p l' k' else k' = k.
Proof.
  intros Hk Hat Hl' Hsub. pose proof Hat as (Hl & _). destruct (legal_round l Hl) as (o & Ho & Hod & Hor), (legal_round l' Hl') as (n & Hn & Hnd & Hnr).
  unfold MMap.resize_in_place. rewrite (legal_align l' Hl'), (lift_bind _ _ _ _ Ho), (lift_bind _ _ _ _ Hn).
  destruct (Z.eqb_spec o n) as [->|Hne].
  - exists true, k. split; [done|]. split; [done|]. apply (resized_same k p l l' n); try done. by apply (round_room p l).
  - destruct (remap_spec k p l l' o n true) as (r & k' & Er & Hk' & Hr); try done; [by right|].
    unfold mbind at 1, M_bind at 1. rewrite Er. destruct r as [q|]; [|by eexists _, _].
    destruct Hr as [Hq Hr]. rewrite Hq in Hr by done. rewrite lift_assert by (rewrite Hq; [apply Z.eqb_refl|done]). by eexists _, _.
Qed.
End specs.

(** ** Clients

    The kernel and the blocks a client holds. *)
Section client.
Context {K : Type} `{!Kernel K} (m : MapAlloc).

Inductive map_step : K * gmap Z Layout → K * gmap Z Layout → Prop :=
  | map_alloc k live l p k' : map_legal k_page l → MMap.alloc m l k = Ok (inl p, k') → map_step (k, live) (k', <[p:=l]> live)
  | map_alloc_err k live l e k' : map_legal k_page l → MMap.alloc m l k = Ok (inr e, k') → map_step (k, live) (k', live)
  | map_zeroed k live l p k' : map_legal k_page l → MMap.alloc_zeroed m l k = Ok (inl p, k') → map_step (k, live) (k', <[p:=l]> live)
  | map_dealloc k live p l k' : live !! p = Some l → MMap.dealloc m p l k = Ok (tt, k') → map_step (k, live) (k', delete p live)
  | map_realloc k live p l l' q k' : live !! p = Some l → map_legal k_page l' →
      MMap.realloc m p l l' k = Ok (inl q, k') → map_step (k, live) (k', <[q:=l']> (delete p live))
  | map_realloc_err k live p l l' e k' : live !! p = Some l → map_legal k_page l' →
      MMap.realloc m p l l' k = Ok (inr e, k') → map_step (k, live) (k', live)
  | map_resize k live p l l' (b : bool) k' : live !! p = Some l → map_legal k_page l' →
      MMap.grow_in_place m p l l' k = Ok (b, k') ∨ MMap.shrink_in_place m p l l' k = Ok (b, k') →
      map_step (k, live) (k', if b then <[p:=l']> live else live).

Definition map_inv (base : gset Z) (st : K * gmap Z Layout) : Prop := k_ok st.1 ∧ pinv k_page base st.2 (k_mapped st.1).

Lemma resized_inv base k live p l q l' k' : pinv k_page base live (k_mapped k) → live !! p = Some l → resized k p l q l' k' →
  pinv k_page base (<[q:=l']> (delete p live)) (k_mapped k').
Proof.
  intros Hinv Hp (Hat & Hfr & -> & _). apply pinv_insert; [apply k_page_pos| |done|done]. by apply pinv_delete.
Qed.

Context (Hm : pagesize m = k_page).

Lemma grow_shrink_resize k p l l' b k' : MMap.grow_in_place m p l l' k = Ok (b, k') ∨ MMap.shrink_in_place m p l l' k = Ok (b, k') →
  MMap.resize_in_place m p l l' k = Ok (b, k').
Proof.
  unfold MMap.grow_in_place, MMap.shrink_in_place. intros [H|H]; do 4 (apply lift_bind_inv in H as (? & _ & H)); done.
Qed.

Lemma map_step_inv base st st' : map_inv base st → map_step st st' → map_inv base st'.
Proof.
  intros [Hk Hinv] Hst. pose proof k_page_pos as HP.
  destruct Hst as [k live l p k' Hl E|k live l e k' Hl E|k live l p k' Hl E|k live p l k' Hp E|k live p l l' q k' Hp Hl' E|k live p l l' e k' Hp Hl' E|k live p l l' b k' Hp Hl' E];
    cbn [fst snd] in *; try (pose proof (proj1 (proj1 (proj2 Hinv) _ _ Hp)) as Hat; pose proof (pinv_pages _ _ _ _ _ _ Hinv Hp) as Hsub).
  - destruct (map_alloc_spec m Hm k l Hk Hl) as (r & k1 & E' & Hk' & Hr). rewrite E' in E. injection E as -> ->.
    destruct Hr as (Hat & Hd & Hmap & _). split; [done|]. cbn. rewrite Hmap. by apply pinv_insert.
  - destruct (map_alloc_spec m Hm k l Hk Hl) as (r & k1 & E' & Hk' & Hr). rewrite E' in E. injection E as -> ->.
    destruct e; [|done]. destruct Hr as [_ ->]. by split.
  - unfold MMap.alloc_zeroed in E. rewrite lift_assert in E by (apply Z.ltb_lt; apply Hl).
    destruct (map_alloc_spec m Hm k l Hk Hl) as (r & k1 & E' & Hk' & Hr). rewrite E' in E. injection E as -> ->.
    destruct Hr as (Hat & Hd & Hmap & _). split; [done|]. cbn. rewrite Hmap. by apply pinv_insert.
  - destruct (map_dealloc_spec m k p l Hk Hat) as (k1 & E' & Hk' & Hmap & _). rewrite E' in E. injection E as <-.
    split; [done|]. cbn. rewrite Hmap. by apply pinv_delete.
  -  destruct (map_realloc_spec m Hm k p l l' Hk Hat Hl') as (r & k1 & E' & Hk' & Hr); [done|]. rewrite E' in E. injection E as -> ->.
    split; [done|]. by eapply resized_inv.
  -  destruct (map_realloc_spec m Hm k p l l' Hk Hat Hl') as (r & k1 & E' & Hk' & Hr); [done|]. rewrite E' in E. injection E as -> ->.
    destruct e; [|done]. subst k'. by split.
  - apply grow_shrink_resize in E.  destruct (resize_in_place_spec m Hm k p l l' Hk Hat Hl') as (r & k1 & E' & Hk' & Hr); [done|]. rewrite E' in E. injection E as -> ->.
    destruct b; [|subst k'; by split]. split; [done|]. cbn. rewrite <- (insert_delete_eq live p). by eapply resized_inv.
Qed.

(** What the operations do in a reachable state: they never panic, and a
    failure changes nothing. *)
Definition map_ready (k : K) (live : gmap Z Layout) : Prop :=
  (∀ l, map_legal k_page l → ∃ r k', MMap.alloc m l k = Ok (r, k') ∧
    match r with
    | inl p => mapped_fresh k p l k' ∧ live !! p = None ∧ ∀ q lq, live !! q = Some lq → disjoint_from p (layout_size l) q (layout_size lq)
    | inr (Exhausted _) => k' = k
    | inr AllocUnsupported => False
    end) ∧
  ∀ p l, live !! p = Some l →
    (∃ k', MMap.dealloc m p l k = Ok (tt, k') ∧ k_mapped k' = k_mapped k ∖ block_pages k_page p l) ∧
    ∀ l', map_legal k_page l' →
      (∃ r k', MMap.realloc m p l l' k = Ok (r, k')) ∧
      (layout_align l' = layout_align l → layout_size l ≤ layout_size l' → ∃ b k', MMap.grow_in_place m p l l' k = Ok (b, k')) ∧
      (layout_align l' = layout_align l → layout_size l' ≤ layout_size l → ∃ b k', MMap.shrink_in_place m p l l' k = Ok (b, k')).

Lemma map_inv_ready base k live : map_inv base (k, live) → map_ready k live.
Proof.
  intros [Hk Hinv]. cbn in *. pose proof k_page_pos as HP. split.
  - intros l Hl. destruct (map_alloc_spec m Hm k l Hk Hl) as (r & k' & E & Hk' & Hr). exists r, k'. split; [done|].
    destruct r as [p|[l'|]]; [|by destruct Hr|done]. split; [done|]. destruct Hr as (Hat & Hd & Hmap & _).
    pose proof (pinv_fresh _ HP _ _ _ _ _ Hinv Hat Hd) as Hnone. split; [done|]. intros q lq Hq.
    pose proof (pinv_insert _ HP _ _ _ _ _ Hinv Hat Hd) as Hins. assert (p ≠ q) by congruence.
    apply (pinv_disjoint _ HP _ _ _ p l q lq Hins); [by rewrite lookup_insert_eq|by rewrite lookup_insert_ne|done].
  - intros p l Hp. pose proof (proj1 (proj1 (proj2 Hinv) _ _ Hp)) as Hat. pose proof (pinv_pages _ _ _ _ _ _ Hinv Hp) as Hsub. split.
    + destruct (map_dealloc_spec m k p l Hk Hat) as (k' & E & _ & Hmap & _). eauto.
    + intros l' Hl'. pose proof Hat as ((Hs & _) & _). pose proof Hl' as (Hs' & _).
      destruct (resize_in_place_spec m Hm k p l l' Hk Hat Hl' Hsub) as (b & k1 & Er & _). split_and!.
      * destruct (map_realloc_spec m Hm k p l l' Hk Hat Hl' Hsub) as (r & k' & E & _). eauto.
      * intros Ha Hle. exists b, k1. unfold MMap.grow_in_place. rewrite !lift_assert; try (apply Z.ltb_lt; lia); try (apply Z.leb_le; lia); [done|by apply Z.eqb_eq].
      * intros Ha Hle. exists b, k1. unfold MMap.shrink_in_place. rewrite !lift_assert; try (apply Z.ltb_lt; lia); try (apply Z.leb_le; lia); [done|by apply Z.eqb_eq].
Qed.

Lemma map_reach_inv k0 st : k_ok k0 → rtc map_step (k0, ∅) st → map_inv (k_mapped k0) st.
Proof.
  intros Hk Hr. assert (H0 : map_inv (k_mapped k0) (k0, ∅)) by (split; [done|apply pinv_empty]). revert H0.
  induction Hr as [|x y z Hxy _ IH]; [done|]. intros Hx. apply IH. by eapply map_step_inv.
Qed.

(** C14: pages are mapped exactly while they back a block.  After any sequence
    of allocations, releases, reallocations and in-place resizes of live
    blocks, the mapped pages are those that were mapped before the sequence
    and those of the live blocks, which are page-aligned, disjoint from the
    others and share no page; no operation of the allocator panics (on a system
    where [munmap] of a page-aligned range succeeds), and a fresh block is
    disjoint from every live one. *)
Theorem map_alloc_owns_pages (k0 k : K) (live : gmap Z Layout) :
  k_ok k0 → rtc map_step (k0, ∅) (k, live) → pinv k_page (k_mapped k0) live (k_mapped k) ∧ map_ready k live.
Proof.
  intros Hk Hr. pose proof (map_reach_inv k0 _ Hk Hr) as Hinv. split; [apply Hinv|by eapply map_inv_ready].
Qed.

(** C24: reallocation keeps contents.  When [realloc] of a live block succeeds,
    the new block is legal and holds the bytes of the old one up to the smaller
    size, every other live block keeps its bytes, and exactly the pages of the
    old block have been exchanged for those of the new one; when it fails,
    nothing has changed. *)
Theorem map_realloc_keeps_contents (k0 k : K) (live : gmap Z Layout) (p : Z) (l l' : Layout) r k' :
  k_ok k0 → rtc map_step (k0, ∅) (k, live) → live !! p = Some l → map_legal k_page l' → MMap.realloc m p l l' k = Ok (r, k') →
  match r with
  | inl q => block_at k_page q l' ∧ (∀ i, 0 ≤ i < Z.min (layout_size l) (layout_size l') → k_byte k' (q + i) = k_byte k (p + i)) ∧
      (∀ q' lq i, q' ≠ p → live !! q' = Some lq → 0 ≤ i < layout_size lq → k_byte k' (q' + i) = k_byte k (q' + i)) ∧
      k_mapped k' = block_pages k_page q l' ∪ (k_mapped k ∖ block_pages k_page p l)
  | inr (Exhausted _) => k' = k
  | inr AllocUnsupported => False
  end.
Proof.
  intros Hk Hr Hp Hl' E. destruct (map_reach_inv k0 _ Hk Hr) as [Hk1 Hinv]. cbn in *. pose proof k_page_pos as HP.
  pose proof (proj1 (proj1 (proj2 Hinv) _ _ Hp)) as Hat. pose proof (pinv_pages _ _ _ _ _ _ Hinv Hp) as Hsub.
  destruct (map_realloc_spec m Hm k p l l' Hk1 Hat Hl' Hsub) as (r' & k1 & E' & Hk' & Hres). rewrite E' in E. injection E as -> ->.
  destruct r as [q|[|]]; [|done|done]. destruct Hres as (Hq & Hfr & Hmap & Hb & Hkeep).
  refine (conj Hq (conj Hb (conj _ Hmap))). intros q' lq i Hne Hlq Hi. apply Hkeep.
  pose proof (proj1 (proj1 (proj2 Hinv) _ _ Hlq)) as ((_ & _) & _ & Hqd & _).
  assert (Hpg : (q' + i) / k_page ∈ block_pages k_page q' lq) by (apply page_of_byte; [done..|lia]).
  apply elem_of_difference. split; [by eapply pinv_pages|]. intros Hx. destruct Hinv as (_ & _ & Hd). by apply (Hd q' lq p l Hlq Hp Hne _ Hpg).
Qed.

(** The usable size is exact.  [usable_size] gives the smallest and the
    largest size that occupy the same whole pages as the given layout. *)
Theorem usable_size_exact (l : Layout) : map_legal k_page l →
  ∃ lo hi, MMap.usable_size m l = Ok (lo, hi) ∧ lo ≤ layout_size l ≤ hi ∧
    ∀ s p, 0 < s → (k_page | p) → pages_of k_page p s = block_pages k_page p l ↔ lo ≤ s ≤ hi.
Proof.
  intros Hl. pose proof Hl as (Hs & _). destruct (legal_round m Hm l Hl) as (r & Hr & Hd & Hrr). pose proof k_page_pos as HP.
  destruct Hd as [c ->]. assert (1 ≤ c) by nia. pose proof page_small. unfold MMap.usable_size. rewrite rassert_true, bind_Ok by (apply Z.ltb_lt; lia).
  rewrite Hr, bind_Ok, Hm. rewrite usub_Ok, bind_Ok by nia. rewrite uadd_Ok, bind_Ok by lia.
  eexists _, _. split; [done|]. split; [lia|]. intros s p Hs0 Hp. unfold block_pages. split.
  - intros E. pose proof (elem_of_pages _ HP p s) as H1. pose proof (elem_of_pages _ HP p (layout_size l)) as H2. rewrite E in H1.
    destruct Hp as [a ->]. split.
    + assert (Hin : a + c - 1 ∈ pages_of k_page (a * k_page) (layout_size l)) by (apply H2; [by exists a|nia]).
      apply H1 in Hin; [nia|by exists a].
    + destruct (decide (s ≤ c * k_page)); [done|]. assert (Hin : a + c ∈ pages_of k_page (a * k_page) (layout_size l)).
      { apply H1; [by exists a|nia]. }
      apply H2 in Hin; [nia|by exists a].
  - intros Hsr. rewrite <- (pages_of_round _ HP p s (c * k_page)) by (done || lia || by exists c).
    apply pages_of_round; (done || lia || by exists c).
Qed.
End client.

(** ** [MapAlloc] meets the [Alloc] interface

    The state of the interface is the kernel, with the live blocks as ghost
    state. *)
Record MapState (K : Type) := mkMapState { ms_alloc : MapAlloc; ms_kernel : K; ms_live : gmap Z Layout }.
Arguments mkMapState {K}.
Arguments ms_alloc {K}.
Arguments ms_kernel {K}.
Arguments ms_live {K}.

Section alloc_instance.
Context {K : Type} `{!Kernel K}.

Definition ms_do_alloc (s : MapState K) (l : Layout) : res ((Z + AllocErr) * MapState K) :=
  '(r, k) ← MMap.alloc (ms_alloc s) l (ms_kernel s);
  Ok (r, mkMapState (ms_alloc s) k (match r with inl p => <[p:=l]> (ms_live s) | inr _ => ms_live s end)).

Definition ms_do_dealloc (s : MapState K) (p : Z) (l : Layout) : res (MapState K) :=
  '(_, k) ← MMap.dealloc (ms_alloc s) p l (ms_kernel s);
  Ok (mkMapState (ms_alloc s) k (delete p (ms_live s))).

#[export] Instance map_state_alloc : Alloc (MapState K).
Proof.
  refine {| al_alloc := ms_do_alloc; al_dealloc := ms_do_dealloc; al_live := ms_live; al_supports := map_legal k_page;
    al_inv s := pagesize (ms_alloc s) = k_page ∧ ∃ base, map_inv base (ms_kernel s, ms_live s) |}.
  - intros [m k live] l [Hm [base Hinv]] Hl. cbn in *. destruct (map_inv_ready m Hm base k live Hinv) as [Ha _].
    destruct (Ha l Hl) as (r & k' & E & Hr). unfold ms_do_alloc. cbn. rewrite E. cbn. eexists _, _. split; [done|]. cbn.
    destruct r as [p|[l'|]]; [| |done].
    + destruct Hr as (Hfr & Hnone & Hdis). split.
      * split; [done|]. exists base. eapply (map_step_inv m Hm base (k, live)); [done|by apply map_alloc].
      * split; [|done]. destruct Hfr as (((Hs & Ha1 & Ha2) & Hp & Hd & Hend) & _). unfold block_ok. split; [done|]. split; [lia|].
        by eapply Z.divide_trans.
    + subst k'. split; [|done]. split; [done|by exists base].
  - intros [m k live] p l [Hm [base Hinv]] Hp. cbn in *. destruct (map_inv_ready m Hm base k live Hinv) as [_ Hd].
    destruct (Hd p l Hp) as [(k' & E & _) _]. unfold ms_do_dealloc. cbn. rewrite E. cbn. eexists. split; [done|]. cbn. split; [|done].
    split; [done|]. exists base. eapply (map_step_inv m Hm base (k, live)); [done|by eapply map_dealloc].
Defined.
End alloc_instance.

(** ** A kernel to run with

    Hands out consecutive pages and resizes only by shrinking. *)
Record ToyKernel := mkToy { t_next : Z; t_mapped : gset Z; t_bytes : gmap Z Z }.

Definition toy_mmap (k : ToyKernel) (n prot flags : Z) : (Z + Z) * ToyKernel :=
  let p := t_next k * 4096 in
  let next := (p + n + 4095) / 4096 in
  if next <=? 2 ^ 28 then (inl p, mkToy next (pages_of 4096 p n ∪ t_mapped k) (t_bytes k)) else (inr ENOMEM, k).

Definition toy_munmap (k : ToyKernel) (p n : Z) : Z * ToyKernel := (0, mkToy (t_next k) (t_mapped k ∖ pages_of 4096 p n) (t_bytes k)).

Definition toy_mremap (k : ToyKernel) (p old n flags : Z) : (Z + Z) * ToyKernel :=
  if n <=? old then (inl p, mkToy (t_next k) (pages_of 4096 p n ∪ (t_mapped k ∖ pages_of 4096 p old)) (t_bytes k)) else (inr ENOMEM, k).

Definition toy_write (k : ToyKernel) (a v : Z) : ToyKernel := mkToy (t_next k) (t_mapped k) (<[a:=v]> (t_bytes k)).

Definition toy_byte (k : ToyKernel) (a : Z) : Z := default 0 (t_bytes k !! a).

Definition toy_ok (k : ToyKernel) : Prop :=
  1 ≤ t_next k ≤ 2 ^ 28 ∧ (∀ x, x ∈ t_mapped k → x < t_next k) ∧ (∀ a, is_Some (t_bytes k !! a) → a < t_next k * 4096).

Lemma toy_mmap_spec k n prot flags : toy_ok k → 0 < n → let '(r, k') := toy_mmap k n prot flags in
  toy_ok k' ∧
  match r with
  | inl p => 0 < p ∧ (4096 | p) ∧ p + n ≤ 2 ^ 63 ∧ pages_of 4096 p n ## t_mapped k ∧
      t_mapped k' = pages_of 4096 p n ∪ t_mapped k ∧ (∀ a, p ≤ a < p + n → toy_byte k' a = 0) ∧
      (∀ a, a / 4096 ∈ t_mapped k → toy_byte k' a = toy_byte k a)
  | inr e => e = ENOMEM ∧ k' = k
  end.
Proof.
  intros (H1 & H2 & H3) Hn. unfold toy_mmap. set (p := t_next k * 4096). set (next := (p + n + 4095) / 4096).
  pose proof (Z.div_mod (p + n + 4095) 4096). pose proof (Z.mod_pos_bound (p + n + 4095) 4096). fold next in H.
  assert (Hpd : (4096 | p)) by (by exists (t_next k)). destruct (Z.leb_spec next (2 ^ 28)); [|by split].
  split; [split_and!; cbn|]; try lia.
  - intros x [Hx|Hx]%elem_of_union; [apply elem_of_pages in Hx; [lia|lia|done]|apply H2 in Hx; lia].
  - intros a Ha. apply H3 in Ha. lia.
  - split_and!; try done; try lia.
    + intros x Hx Hx'. apply H2 in Hx'. apply elem_of_pages in Hx; [lia|lia|done].
    + intros a Ha. unfold toy_byte. cbn. destruct (t_bytes k !! a) eqn:E; [|done]. pose proof (H3 a ltac:(by rewrite E)). lia.
Qed.

#[export] Instance toy_kernel : Kernel ToyKernel.
Proof.
  refine {| k_page := 4096; k_mmap := toy_mmap; k_munmap := toy_munmap; k_mremap := toy_mremap; k_madvise k _ _ := k; k_write := toy_write;
    k_mapped := t_mapped; k_byte := toy_byte; k_ok := toy_ok |}.
  - exists 12. split; [lia|done].
  - intros k n prot flags Hk Hn _. by apply toy_mmap_spec.
  - intros k p n (H1 & H2 & H3) Hd Hn. cbn. split; [|done]. split_and!; cbn; try done; try lia. intros x [Hx _]%elem_of_difference. by apply H2.
  - intros k p old n flags (H1 & H2 & H3) Hp Hd Hold Hn Hsub. unfold toy_mremap. destruct (Z.leb_spec n old); [|by split].
    assert (Hin : pages_of 4096 p n ⊆ pages_of 4096 p old) by (intros x; rewrite !elem_of_pages by (done || lia); lia).
    split; [split_and!; cbn; try lia|].
    + intros x [Hx|[Hx _]%elem_of_difference]%elem_of_union; auto.
    + done.
    + assert (Hlast : (p + n - 1) / 4096 < t_next k) by (apply H2, Hsub, Hin, page_of_byte; (done || lia)).
      pose proof (Z.div_mod (p + n - 1) 4096). pose proof (Z.mod_pos_bound (p + n - 1) 4096).
      split_and!; try done; try lia. set_solver.
  - intros k a v (H1 & H2 & H3) Ha. split; [|split; [done|]].
    + split_and!; cbn; try done; try lia. intros x Hx. destruct (decide (x = a)) as [->|].
      * apply H2 in Ha. pose proof (Z.div_mod a 4096). pose proof (Z.mod_pos_bound a 4096). lia.
      * rewrite lookup_insert_ne in Hx by done. by apply H3.
    + intros x. unfold toy_byte. cbn. destruct (decide (x = a)) as [->|]; [by rewrite lookup_insert_eq|by rewrite lookup_insert_ne].
  - done.
Defined.

Definition toy_alloc : MapAlloc := mkMapAlloc 4096 true true false 3 false 4096.
Definition toy_k0 : ToyKernel := mkToy 16 {[15]} (<[61440:=7]> ∅).

Lemma toy_k0_ok : k_ok toy_k0.
Proof.
  split_and!; cbn; try lia. - intros x ->%elem_of_singleton. lia.
  - intros a [v Hv]. apply lookup_insert_Some in Hv as [[<- _]|[_ Hv]]; [lia|by rewrite lookup_empty in Hv].
Qed.

Lemma toy_page : pagesize toy_alloc = @k_page ToyKernel toy_kernel.
Proof. reflexivity. Qed.

Lemma toy_legal n : 0 < n < 2 ^ 62 → map_legal (@k_page ToyKernel toy_kernel) (mkLayout n 8).
Proof. intros. split_and!; cbn; try lia. by exists 512. Qed.

(** After a block is mapped and released, exactly the first mappings remain. *)
Lemma map_alloc_owns_pages_witness :
  ∃ p k1 k2, MMap.alloc toy_alloc (mkLayout 5000 8) toy_k0 = Ok (inl p, k1) ∧ MMap.dealloc toy_alloc p (mkLayout 5000 8) k1 = Ok (tt, k2) ∧
    pinv 4096 (k_mapped toy_k0) (delete p (<[p:=mkLayout 5000 8]> ∅)) (k_mapped k2).
Proof.
  destruct (MMap.alloc toy_alloc (mkLayout 5000 8) toy_k0) as [[[p|] k1]|] eqn:E1; [|by vm_compute in E1|by vm_compute in E1].
  destruct (MMap.dealloc toy_alloc p (mkLayout 5000 8) k1) as [[[] k2]|] eqn:E2; [|exfalso; vm_compute in E1; injection E1 as <- <-; by vm_compute in E2].
  exists p, k1, k2. split; [done|]. split; [done|].
  apply (map_alloc_owns_pages toy_alloc toy_page toy_k0 k2 (delete p (<[p:=mkLayout 5000 8]> ∅))); [exact toy_k0_ok|].
  eapply rtc_l; [exact (map_alloc toy_alloc toy_k0 ∅ _ p k1 (toy_legal 5000 (conj eq_refl eq_refl)) E1)|]. apply rtc_once. eapply map_dealloc; [apply lookup_insert_eq|exact E2].
Defined.

Lemma map_realloc_keeps_contents_witness :
  ∃ p k1 q k2, MMap.alloc toy_alloc (mkLayout 10000 8) toy_k0 = Ok (inl p, k1) ∧
    MMap.realloc toy_alloc p (mkLayout 10000 8) (mkLayout 100 8) k1 = Ok (inl q, k2) ∧ k_byte k2 (q + 3) = k_byte k1 (p + 3).
Proof.
  destruct (MMap.alloc toy_alloc (mkLayout 10000 8) toy_k0) as [[[p|] k1]|] eqn:E1; [|by vm_compute in E1|by vm_compute in E1].
  destruct (MMap.realloc toy_alloc p (mkLayout 10000 8) (mkLayout 100 8) k1) as [[[q|] k2]|] eqn:E2;
    [|exfalso; vm_compute in E1; injection E1 as <- <-; by vm_compute in E2..].
  exists p, k1, q, k2. split; [done|]. split; [done|].
  apply (map_realloc_keeps_contents toy_alloc toy_page toy_k0 k1 (<[p:=mkLayout 10000 8]> ∅) p (mkLayout 10000 8) (mkLayout 100 8) (inl q) k2).
  - exact toy_k0_ok.
  - exact (rtc_once _ _ (map_alloc toy_alloc toy_k0 ∅ _ p k1 (toy_legal 10000 (conj eq_refl eq_refl)) E1)).
  - apply lookup_insert_eq.
  - exact (toy_legal 100 (conj eq_refl eq_refl)).
  - exact E2.
  - cbn. lia.
Defined.

Lemma usable_size_exact_witness :
  ∃ lo hi, MMap.usable_size toy_alloc (mkLayout 5000 8) = Ok (lo, hi) ∧ lo ≤ 5000 ≤ hi.
Proof.
  destruct (usable_size_exact (K := ToyKernel) toy_alloc toy_page (mkLayout 5000 8)) as (lo & hi & H1 & H2 & _); [exact (toy_legal 5000 (conj eq_refl eq_refl))|].
  exists lo, hi. split; [exact H1|exact H2].
Defined.
