(* ===== verification/BsAlloc.v ===== *)
(** * The bootstrap allocator

    Models [src/bsalloc/src/bsalloc.rs] and [src/bsalloc/src/lib.rs]: two small
    caches of free blocks in arrays of atomic pointers, over the page allocator
    of [MmapAlloc].  The operations are given twice: as the sequential functions
    of the code, and as the atomic steps (one swap, one system call) that
    several threads interleave. *)

From Stdlib Require Import ZArith Lia.
From S2P Require Import Prelude StdAlloc Backing MmapAlloc.
From AAC_tactics Require Import AAC.
From AAC_tactics Require Instances.
From stdpp Require Import base numbers list gmap option fin_maps relations.
Import Instances.Lists.

Open Scope Z_scope.

(** Lists up to permutation, for [aac_reflexivity]. *)
#[local] Instance perm_lift {A} : AAC_lift (@Permutation A) (@Permutation A).
Proof.
  constructor; [apply Permutation_Equivalence|]. intros x y H x' y' H'. split; intros; [rewrite <- H, <- H'|rewrite H, H']; done.
Qed.

(** ** The caches *)

(** [Cache] of [sized_cache!]; [CACHE_SIZE] is the length of the array. *)
Record Cache := mkCache { object_size : Z; cache_layout : Layout; cache : list Z }.

(** [GlobalAllocator] with the kernel it calls. *)
Record Global (K : Type) := mkGlobal { small_objs : Cache; large_objs : Cache; ma : MapAlloc; kern : K }.
Arguments mkGlobal {K}.
Arguments small_objs {K}.
Arguments large_objs {K}.
Arguments ma {K}.
Arguments kern {K}.

(** Which cache serves a request. *)
Inductive class := Small | Large.

Definition RAND_A : Z := 16807.

(** [rng]: the address of a local variable, scrambled. *)
Definition rng (seed : Z) : res Z := umul seed RAND_A.

Module BS.
(** [Cache::new]; every slot is null. *)
Definition cache_new (cache_size : nat) (obj_size : Z) : res Cache :=
  l ← unwrap (from_size_align obj_size 1);
  Ok (mkCache obj_size l (replicate cache_size 0)).

Definition cache_len (c : Cache) : Z := Z.of_nat (length (cache c)).

(** [PATIENCE]. *)
Definition patience (c : Cache) : nat := Z.to_nat (Z.shiftr (cache_len c) 2).

(** [swap] on the slot [i]; [get_unchecked] beyond the array is undefined. *)
Definition swap (c : Cache) (i v : Z) : res (Z * Cache) :=
  old ← deref (cache c !! Z.to_nat i);
  Ok (old, mkCache (object_size c) (cache_layout c) (<[Z.to_nat i:=v]> (cache c))).

Section ops.
Context {K : Type} `{!Kernel K}.

#[local] Abbreviation G := (Global K).

Definition get_cache (g : G) (k : class) : Cache := match k with Small => small_objs g | Large => large_objs g end.
Definition set_cache (g : G) (k : class) (c : Cache) : G :=
  match k with
  | Small => mkGlobal c (large_objs g) (ma g) (kern g)
  | Large => mkGlobal (small_objs g) c (ma g) (kern g)
  end.
Definition set_kern (g : G) (k : K) : G := mkGlobal (small_objs g) (large_objs g) (ma g) k.

(** Calls of the page allocator. *)
Definition ma_alloc (g : G) (l : Layout) : res ((Z + AllocErr) * G) :=
  '(r, k) ← MMap.alloc (ma g) l (kern g); Ok (r, set_kern g k).
Definition ma_dealloc (g : G) (p : Z) (l : Layout) : res G :=
  '(_, k) ← MMap.dealloc (ma g) p l (kern g); Ok (set_kern g k).

(** The first slot and the stride of a search. *)
Definition probe (c : Cache) (seed : Z) : res (Z * Z) :=
  start ← rng seed;
  cur_slot ← umod start (cache_len c);
  t ← umul cur_slot 2;
  stride ← uadd t 1;
  Ok (cur_slot, stride).

Definition next_slot (c : Cache) (cur_slot stride : Z) : res Z :=
  s ← uadd cur_slot stride; umod s (cache_len c).

(** The loop of [Cache::alloc]: [Some] is the early return. *)
Fixpoint alloc_loop (n : nat) (k : class) (cur_slot stride : Z) (g : G) : res (option Z * G) :=
  match n with
  | O => Ok (None, g)
  | S n' =>
      '(p, c) ← swap (get_cache g k) cur_slot 0;
      if p =? 0 then s ← next_slot (get_cache g k) cur_slot stride; alloc_loop n' k s stride (set_cache g k c)
      else Ok (Some p, set_cache g k c)
  end.

Definition cache_alloc (g : G) (k : class) (seed : Z) : res ((Z + AllocErr) * G) :=
  '(cur_slot, stride) ← probe (get_cache g k) seed;
  '(r, g) ← alloc_loop (patience (get_cache g k)) k cur_slot stride g;
  match r with
  | Some p => Ok (inl p, g)
  | None => ma_alloc g (cache_layout (get_cache g k))
  end.

(** The loop of [Cache::free]: the block in hand at the end, if any. *)
Fixpoint free_loop (n : nat) (k : class) (cur_ptr cur_slot stride : Z) (g : G) : res (option Z * G) :=
  match n with
  | O => Ok (Some cur_ptr, g)
  | S n' =>
      '(old, c) ← swap (get_cache g k) cur_slot cur_ptr;
      if old =? 0 then Ok (None, set_cache g k c)
      else s ← next_slot (get_cache g k) cur_slot stride; free_loop n' k old s stride (set_cache g k c)
  end.

Definition cache_free (g : G) (k : class) (item seed : Z) : res G :=
  '(cur_slot, stride) ← probe (get_cache g k) seed;
  '(r, g) ← free_loop (patience (get_cache g k)) k item cur_slot stride g;
  match r with
  | None => Ok g
  | Some p => ma_dealloc g p (cache_layout (get_cache g k))
  end.

(** [GlobalAllocator::new]. *)
Definition new (k : K) : res G :=
  s ← cache_new 8 (Z.shiftl 1 10);
  l ← cache_new 4 (Z.shiftl 18 10);
  m ← MMap.default;
  Ok (mkGlobal s l m k).

Definition class_of (g : G) (size : Z) : option class :=
  if size <? object_size (small_objs g) then Some Small
  else if size <? object_size (large_objs g) then Some Large
  else None.

(** [GlobalAllocator::alloc]. *)
Definition alloc (g : G) (size seed : Z) : res ((Z + AllocErr) * G) :=
  match class_of g size with
  | Some k => cache_alloc g k seed
  | None => l ← unwrap (from_size_align size 1); ma_alloc g l
  end.

(** [GlobalAllocator::free]. *)
Definition free (g : G) (item size seed : Z) : res G :=
  match class_of g size with
  | Some k => cache_free g k item seed
  | None => l ← unwrap (from_size_align size 1); ma_dealloc g item l
  end.

(** [Alloc for &BsAlloc]. *)
Definition bs_alloc (g : G) (l : Layout) (seed : Z) : res ((Z + AllocErr) * G) := alloc g (layout_size l) seed.
Definition bs_dealloc (g : G) (item : Z) (l : Layout) (seed : Z) : res G := free g item (layout_size l) seed.

(** [assert_nonoverlapping]: the first range, in lexicographic order, ends
    before the second begins. *)
Definition pair_le (r1 r2 : Z * Z) : bool := (r1.1 <? r2.1) || ((r1.1 =? r2.1) && (r1.2 <=? r2.2)).
Definition assert_nonoverlapping (r1 r2 : Z * Z) : res unit :=
  let b := (if pair_le r1 r2 then r1 else r2).2 in
  let c := (if pair_le r1 r2 then r2 else r1).1 in
  rassert (b <=? c).

(** [ptr::copy_nonoverlapping]. *)
Definition copy (k : K) (src dst n : Z) : K :=
  foldl (fun k i => k_write k (dst + i) (k_byte k (src + i))) k (zrange 0 n).

Definition bs_realloc (g : G) (ptr : Z) (old_l new_l : Layout) (seed1 seed2 : Z) : res (Z * G) :=
  '(r, g) ← bs_alloc g new_l seed1;
  new_memory ← match r with inl p => Ok p | inr _ => Fault Panicked end;
  e1 ← uadd ptr (layout_size old_l);
  e2 ← uadd new_memory (layout_size new_l);
  _ ← assert_nonoverlapping (ptr, e1) (new_memory, e2);
  let g := set_kern g (copy (kern g) ptr new_memory (Z.min (layout_size old_l) (layout_size new_l))) in
  g ← bs_dealloc g ptr old_l seed2;
  Ok (new_memory, g).
End ops.
End BS.

(** ** Threads

    A thread between two atomic actions: [Alloc] and [Free] are in the loops of
    the caches with [i] tries left, [AllocMap] and [FreeMap] are about to call
    the page allocator. *)
Inductive tstate :=
  | Idle
  | Alloc (n : Z) (k : class) (i : nat) (slot stride : Z)
  | AllocMap (n : Z) (l : Layout)
  | Free (p : Z) (k : class) (i : nat) (slot stride : Z)
  | FreeMap (p : Z) (l : Layout).

Section threads.
Context {K : Type} `{!Kernel K}.

#[local] Abbreviation G := (Global K).

Definition start_alloc (g : G) (n seed : Z) : res tstate :=
  match BS.class_of g n with
  | Some k => '(slot, stride) ← BS.probe (BS.get_cache g k) seed; Ok (Alloc n k (BS.patience (BS.get_cache g k)) slot stride)
  | None => l ← unwrap (from_size_align n 1); Ok (AllocMap n l)
  end.

Definition start_free (g : G) (p n seed : Z) : res tstate :=
  match BS.class_of g n with
  | Some k => '(slot, stride) ← BS.probe (BS.get_cache g k) seed; Ok (Free p k (BS.patience (BS.get_cache g k)) slot stride)
  | None => l ← unwrap (from_size_align n 1); Ok (FreeMap p l)
  end.

(** One atomic action: the next state and, when an allocation ends, the block
    (with the requested size) handed to the client. *)
Definition tstep (g : G) (t : tstate) : res (tstate * G * option (Z * Z)) :=
  match t with
  | Idle => Ok (Idle, g, None)
  | Alloc n k O _ _ => Ok (AllocMap n (cache_layout (BS.get_cache g k)), g, None)
  | Alloc n k (S i) slot stride =>
      '(p, c) ← BS.swap (BS.get_cache g k) slot 0;
      if p =? 0 then s ← BS.next_slot (BS.get_cache g k) slot stride; Ok (Alloc n k i s stride, BS.set_cache g k c, None)
      else Ok (Idle, BS.set_cache g k c, Some (p, n))
  | AllocMap n l =>
      '(r, g) ← BS.ma_alloc g l;
      Ok (Idle, g, match r with inl p => Some (p, n) | inr _ => None end)
  | Free p k O _ _ => Ok (FreeMap p (cache_layout (BS.get_cache g k)), g, None)
  | Free p k (S i) slot stride =>
      '(old, c) ← BS.swap (BS.get_cache g k) slot p;
      if old =? 0 then Ok (Idle, BS.set_cache g k c, None)
      else s ← BS.next_slot (BS.get_cache g k) slot stride; Ok (Free old k i s stride, BS.set_cache g k c, None)
  | FreeMap p l => g ← BS.ma_dealloc g p l; Ok (Idle, g, None)
  end.

(** Threads that share the allocator, and the blocks clients own. *)
Definition config : Type := G * list tstate * list (Z * Z).

Definition request_ok (n seed : Z) : Prop := 0 ≤ n < 2 ^ 61 ∧ 0 ≤ seed < 2 ^ 49.

Inductive cstep : config → config → Prop :=
  | step_start_alloc g ts ow t n seed s : ts !! t = Some Idle → request_ok n seed → start_alloc g n seed = Ok s →
      cstep (g, ts, ow) (g, <[t:=s]> ts, ow)
  | step_start_free g ts ow ow' t p n seed s : ts !! t = Some Idle → request_ok n seed → ow ≡ₚ (p, n) :: ow' →
      start_free g p n seed = Ok s → cstep (g, ts, ow) (g, <[t:=s]> ts, ow')
  | step_thread g ts ow t s s' g' ev : ts !! t = Some s → tstep g s = Ok (s', g', ev) →
      cstep (g, ts, ow) (g', <[t:=s']> ts, option_list ev ++ ow).
End threads.

(** ** The stock of blocks

    Every block mapped by the allocator is in exactly one place: a slot of a
    cache, the hands of a thread that releases it, or the client. *)
Section stock.
Context {K : Type} `{!Kernel K}.

#[local] Abbreviation G := (Global K).

Definition stock_inv (base : gset Z) (k : K) (st : list (Z * Layout)) : Prop :=
  NoDup st.*1 ∧ map_inv base (k, list_to_map st).

Lemma stock_inv_perm base k st st' : st ≡ₚ st' → stock_inv base k st → stock_inv base k st'.
Proof.
  intros Hp [Hn Hm]. assert (Hn' : NoDup st'.*1) by (by rewrite <- Hp). split; [done|].
  by rewrite <- (list_to_map_proper st st').
Qed.

Lemma stock_inv_alloc base m k st l : pagesize m = k_page → stock_inv base k st → map_legal k_page l →
  ∃ r k', MMap.alloc m l k = Ok (r, k') ∧ stock_inv base k' (match r with inl p => (p, l) :: st | inr _ => st end).
Proof.
  intros Hm [Hn Hi] Hl. destruct (map_inv_ready m Hm base k _ Hi) as [Ha _]. destruct (Ha l Hl) as (r & k' & E & Hr).
  exists r, k'. split; [done|]. destruct r as [p|[?|]]; [|subst k'; by split|done]. destruct Hr as (_ & Hnone & _). split.
  - cbn. apply list.NoDup_cons. split; [|done]. by apply not_elem_of_list_to_map.
  - rewrite list_to_map_cons. eapply (map_step_inv m Hm base (k, list_to_map st)); [done|by apply map_alloc].
Qed.

Lemma stock_inv_dealloc base m k st p l : pagesize m = k_page → stock_inv base k ((p, l) :: st) →
  ∃ k', MMap.dealloc m p l k = Ok (tt, k') ∧ stock_inv base k' st.
Proof.
  intros Hm [Hn Hi]. cbn in Hn. apply list.NoDup_cons in Hn as [Hp Hn]. destruct (map_inv_ready m Hm base k _ Hi) as [_ Hd].
  assert (Hl : list_to_map (M := gmap Z Layout) ((p, l) :: st) !! p = Some l) by (rewrite list_to_map_cons; apply lookup_insert_eq).
  destruct (Hd p l Hl) as [(k' & E & _) _]. exists k'. split; [done|]. split; [done|].
  assert (E' : list_to_map st = delete p (list_to_map (M := gmap Z Layout) ((p, l) :: st))).
  { rewrite list_to_map_cons, delete_insert_id; [done|]. by apply not_elem_of_list_to_map. }
  rewrite E'. eapply (map_step_inv m Hm base (k, _)); [done|by eapply map_dealloc].
Qed.

(** A block of the stock is a nonnull page-aligned range. *)
Lemma stock_inv_block base k st p l : stock_inv base k st → (p, l) ∈ st → block_at k_page p l.
Proof. intros [Hn [_ (_ & Hb & _)]] Hin. by apply Hb, elem_of_list_to_map. Qed.
End stock.

Definition nz1 (p : Z) : list Z := if decide (p = 0) then [] else [p].
Definition nz (ps : list Z) : list Z := filter (fun p => p ≠ 0) ps.

Lemma nz_cons p ps : nz (p :: ps) = nz1 p ++ nz ps.
Proof. unfold nz, nz1. rewrite filter_cons. destruct (decide (p = 0)), (decide (p ≠ 0)); done. Qed.

Lemma nz_app l l' : nz (l ++ l') = nz l ++ nz l'.
Proof. apply list.filter_app. Qed.

(** A swap exchanges the block of a slot for another. *)
Lemma swap_spec c i v : 0 ≤ i < BS.cache_len c → ∃ old c', BS.swap c i v = Ok (old, c') ∧
  object_size c' = object_size c ∧ cache_layout c' = cache_layout c ∧ length (cache c') = length (cache c) ∧
  nz1 old ++ nz (cache c') ≡ₚ nz1 v ++ nz (cache c).
Proof.
  intros Hi. unfold BS.cache_len in Hi. destruct (lookup_lt_is_Some_2 (cache c) (Z.to_nat i)) as [old Hold]; [lia|].
  unfold BS.swap. rewrite Hold. cbn. eexists _, _. split; [done|]. cbn. split; [done|]. split; [done|]. split; [apply length_insert|].
  pose proof (take_drop_middle _ _ _ Hold) as E. rewrite <- E at 2. rewrite insert_take_drop by (apply lookup_lt_Some in Hold; lia).
  rewrite !nz_app, !nz_cons. aac_reflexivity.
Qed.

Definition class_layout (k : class) : Layout := match k with Small => mkLayout 1024 1 | Large => mkLayout 18432 1 end.
Definition size_class (n : Z) : option class := if n <? 1024 then Some Small else if n <? 18432 then Some Large else None.
Definition size_layout (n : Z) : Layout := match size_class n with Some k => class_layout k | None => mkLayout n 1 end.
Definition class_slots (k : class) : Z := match k with Small => 8 | Large => 4 end.

Definition tag (k : class) (ps : list Z) : list (Z * Layout) := (fun p => (p, class_layout k)) <$> ps.

Definition hand (t : tstate) : list (Z * Layout) :=
  match t with Free p k _ _ _ => [(p, class_layout k)] | FreeMap p l => [(p, l)] | _ => [] end.

Definition owned (ow : list (Z * Z)) : list (Z * Layout) := (fun pn => (pn.1, size_layout pn.2)) <$> ow.

Lemma tag_app k l l' : tag k (l ++ l') = tag k l ++ tag k l'.
Proof. apply fmap_app. Qed.

Lemma tag_perm k l l' : l ≡ₚ l' → tag k l ≡ₚ tag k l'.
Proof. apply fmap_Permutation. Qed.

Section invariant.
Context {K : Type} `{!Kernel K}.

#[local] Abbreviation G := (Global K).

Definition cached (k : class) (g : G) : list (Z * Layout) := tag k (nz (cache (BS.get_cache g k))).

Definition stock (g : G) (ts : list tstate) (ow : list (Z * Z)) : list (Z * Layout) :=
  cached Small g ++ cached Large g ++ concat (hand <$> ts) ++ owned ow.

(** What [GlobalAllocator::new] fixes. *)
Definition gshape (g : G) : Prop :=
  pagesize (ma g) = k_page ∧
  ∀ k, object_size (BS.get_cache g k) = layout_size (class_layout k) ∧ cache_layout (BS.get_cache g k) = class_layout k ∧
    BS.cache_len (BS.get_cache g k) = class_slots k.

Definition slot_ok (k : class) (slot stride : Z) : Prop := 0 ≤ slot < class_slots k ∧ 0 ≤ stride < 2 ^ 62.

Definition twf (t : tstate) : Prop :=
  match t with
  | Idle => True
  | Alloc n k _ slot stride => size_class n = Some k ∧ slot_ok k slot stride
  | AllocMap n l => l = size_layout n ∧ map_legal k_page l
  | Free _ k _ slot stride => slot_ok k slot stride
  | FreeMap _ _ => True
  end.

Definition bs_inv (base : gset Z) (c : config) : Prop :=
  let '(g, ts, ow) := c in gshape g ∧ Forall twf ts ∧ stock_inv base (kern g) (stock g ts ow).

Lemma class_layout_legal k : map_legal k_page (class_layout k).
Proof. pose proof k_page_pos. destruct k; (split_and!; cbn; try lia; apply Z.divide_1_l). Qed.

Lemma class_of_shape g n : gshape g → BS.class_of g n = size_class n.
Proof.
  intros [_ Hs]. destruct (Hs Small) as (E1 & _), (Hs Large) as (E2 & _). unfold BS.class_of, size_class. cbn in *. by rewrite E1, E2.
Qed.

Lemma set_cache_shape g k c : gshape g → object_size c = object_size (BS.get_cache g k) → cache_layout c = cache_layout (BS.get_cache g k) →
  length (cache c) = length (cache (BS.get_cache g k)) → gshape (BS.set_cache g k c).
Proof.
  intros [Hm Hs] E1 E2 E3. split; [by destruct k|]. intros k'. destruct (Hs k) as (F1 & F2 & F3), (Hs k') as (G1 & G2 & G3).
  unfold BS.cache_len in *. destruct k, k'; cbn in *; split_and!; congruence.
Qed.

Lemma probe_spec g k seed : gshape g → 0 ≤ seed < 2 ^ 49 → ∃ slot stride, BS.probe (BS.get_cache g k) seed = Ok (slot, stride) ∧ slot_ok k slot stride.
Proof.
  intros [_ Hs] Hseed. destruct (Hs k) as (_ & _ & E). unfold BS.probe, rng, RAND_A. rewrite umul_Ok, bind_Ok by lia. rewrite E.
  assert (0 < class_slots k ≤ 8) by (destruct k; cbn; lia). rewrite umod_Ok, bind_Ok by lia.
  pose proof (Z.mod_pos_bound (seed * 16807) (class_slots k)). rewrite umul_Ok, bind_Ok by lia. rewrite uadd_Ok, bind_Ok by lia.
  eexists _, _. split; [done|]. unfold slot_ok. lia.
Qed.

Lemma next_slot_spec g k slot stride : gshape g → slot_ok k slot stride →
  ∃ s, BS.next_slot (BS.get_cache g k) slot stride = Ok s ∧ slot_ok k s stride.
Proof.
  intros [_ Hs] [H1 H2]. destruct (Hs k) as (_ & _ & E). unfold BS.next_slot. rewrite E. assert (0 < class_slots k ≤ 8) by (destruct k; cbn; lia).
  rewrite uadd_Ok, bind_Ok by lia. rewrite umod_Ok by lia. eexists. split; [done|]. split; [|done]. apply Z.mod_pos_bound. lia.
Qed.

(** A swap in a cache exchanges a block of the stock. *)
Lemma cache_swap g k slot stride v ts ow : gshape g → slot_ok k slot stride →
  ∃ old c, BS.swap (BS.get_cache g k) slot v = Ok (old, c) ∧ gshape (BS.set_cache g k c) ∧ kern (BS.set_cache g k c) = kern g ∧
    tag k (nz1 old) ++ stock (BS.set_cache g k c) ts ow ≡ₚ tag k (nz1 v) ++ stock g ts ow.
Proof.
  intros Hg [Hs _]. pose proof Hg as [_ Hsh]. destruct (Hsh k) as (_ & _ & E).
  destruct (swap_spec (BS.get_cache g k) slot v) as (old & c & Es & E1 & E2 & E3 & Hp); [lia|].
  exists old, c. split; [done|]. split; [by apply set_cache_shape|]. split; [by destruct k|].
  apply (tag_perm k) in Hp. rewrite !tag_app in Hp. unfold stock, cached. destruct k; cbn in *.
  - aac_rewrite Hp. aac_reflexivity.
  - aac_rewrite Hp. aac_reflexivity.
Qed.

Lemma stock_thread g ts ow t s s' : ts !! t = Some s → hand s ++ stock g (<[t:=s']> ts) ow ≡ₚ hand s' ++ stock g ts ow.
Proof. intros Ht. pose proof (hands_insert hand ts t s s' Ht) as Hp. unfold stock. aac_rewrite Hp. aac_reflexivity. Qed.

Lemma stock_own g ts ow p n : stock g ts ((p, n) :: ow) ≡ₚ [(p, size_layout n)] ++ stock g ts ow.
Proof.
  unfold stock. change (owned ((p, n) :: ow)) with ([(p, size_layout n)] ++ owned ow). aac_reflexivity.
Qed.

Lemma size_layout_class n k : size_class n = Some k → size_layout n = class_layout k.
Proof. unfold size_layout. by intros ->. Qed.

Lemma size_layout_legal n : 0 ≤ n < 2 ^ 61 → map_legal k_page (size_layout n).
Proof.
  intros Hn. unfold size_layout. destruct (size_class n) as [k|] eqn:E; [apply class_layout_legal|]. unfold size_class in E.
  destruct (Z.ltb_spec n 1024); [done|]. pose proof k_page_pos. split_and!; cbn; try lia. apply Z.divide_1_l.
Qed.

(** A block that is held is not null. *)
Lemma stock_nonnull base k st p l : stock_inv base k st → (p, l) ∈ st → p ≠ 0.
Proof. intros Hi Hin. destruct (stock_inv_block base k st p l Hi Hin) as (_ & ? & _). lia. Qed.

Lemma hand_stock g ts ow t s b : ts !! t = Some s → b ∈ hand s → b ∈ stock g ts ow.
Proof.
  intros Ht Hb. pose proof (stock_thread g ts ow t s Idle Ht) as Hp. cbn in Hp. rewrite <- Hp. apply elem_of_app. by left.
Qed.

Lemma alloc_step_ok base g ts ow t n k i slot stride : bs_inv base (g, ts, ow) → ts !! t = Some (Alloc n k (S i) slot stride) →
  ∃ s' g' ev, tstep g (Alloc n k (S i) slot stride) = Ok (s', g', ev) ∧ bs_inv base (g', <[t:=s']> ts, option_list ev ++ ow).
Proof.
  intros (Hg & Hts & Hst) Ht. destruct (Forall_lookup_1 _ _ _ _ Hts Ht) as [Hn Hslot]. cbn [tstep].
  destruct (cache_swap g k slot stride 0 ts ow Hg Hslot) as (p & c & -> & Hg1 & Hk1 & Hperm). rewrite bind_Ok. destruct (Z.eqb_spec p 0) as [->|Hp].
  - destruct (next_slot_spec g k slot stride Hg Hslot) as (s & -> & Hs). rewrite bind_Ok. eexists _, _, _. split; [done|]. split; [done|].
    split; [by apply Forall_insert|]. rewrite Hk1. eapply stock_inv_perm; [|exact Hst]. symmetry.
    rewrite (stock_thread _ ts ow t _ (Alloc n k i s stride) Ht : stock _ _ _ ≡ₚ stock _ _ _). exact Hperm.
  - eexists _, _, _. split; [done|]. split; [done|]. split; [by apply Forall_insert|]. rewrite Hk1. eapply stock_inv_perm; [|exact Hst]. symmetry.
    cbn [option_list option_rect app]. rewrite stock_own, (stock_thread _ ts ow t _ Idle Ht : stock _ _ _ ≡ₚ stock _ _ _), (size_layout_class n k Hn).
    unfold nz1 in Hperm. rewrite decide_False in Hperm by done. exact Hperm.
Qed.

Lemma free_step_ok base g ts ow t p k i slot stride : bs_inv base (g, ts, ow) → ts !! t = Some (Free p k (S i) slot stride) →
  ∃ s' g' ev, tstep g (Free p k (S i) slot stride) = Ok (s', g', ev) ∧ bs_inv base (g', <[t:=s']> ts, option_list ev ++ ow).
Proof.
  intros (Hg & Hts & Hst) Ht. pose proof (Forall_lookup_1 _ _ _ _ Hts Ht) as Hslot. cbn [tstep].
  assert (Hp : p ≠ 0) by (eapply stock_nonnull; [exact Hst|]; eapply hand_stock; [exact Ht|]; by left).
  destruct (cache_swap g k slot stride p ts ow Hg Hslot) as (q & c & -> & Hg1 & Hk1 & Hperm). rewrite bind_Ok.
  unfold nz1 in Hperm at 2. rewrite decide_False in Hperm by done. destruct (Z.eqb_spec q 0) as [->|Hq].
  - eexists _, _, _. split; [done|]. split; [done|]. split; [by apply Forall_insert|]. rewrite Hk1. eapply stock_inv_perm; [|exact Hst].
    apply (Permutation_app_inv_l [(p, class_layout k)]). cbn [option_list option_rect app].
    change (tag k [p] ++ stock g ts ow) with ([(p, class_layout k)] ++ stock g ts ow) in Hperm.
    rewrite <- Hperm. symmetry. exact (stock_thread _ ts ow t _ Idle Ht).
  - destruct (next_slot_spec g k slot stride Hg Hslot) as (s & -> & Hs). rewrite bind_Ok. eexists _, _, _. split; [done|]. split; [done|].
    split; [by apply Forall_insert|]. rewrite Hk1. eapply stock_inv_perm; [|exact Hst].
    apply (Permutation_app_inv_l [(p, class_layout k)]). cbn [option_list option_rect app].
    unfold nz1 in Hperm. rewrite decide_False in Hperm by done.
    change (tag k [p] ++ stock g ts ow) with ([(p, class_layout k)] ++ stock g ts ow) in Hperm.
    rewrite <- Hperm. symmetry. exact (stock_thread _ ts ow t _ (Free q k i s stride) Ht).
Qed.

Lemma tstep_ok base g ts ow t s : bs_inv base (g, ts, ow) → ts !! t = Some s →
  ∃ s' g' ev, tstep g s = Ok (s', g', ev) ∧ bs_inv base (g', <[t:=s']> ts, option_list ev ++ ow).
Proof.
  intros Hinv Ht. pose proof Hinv as (Hg & Hts & Hst). pose proof (Forall_lookup_1 _ _ _ _ Hts Ht) as Hs. pose proof Hg as [Hm Hsh].
  assert (Hsame : ∀ s', hand s' = hand s → twf s' → bs_inv base (g, <[t:=s']> ts, ow)).
  { intros s' Eh Hs'. split; [done|]. split; [by apply Forall_insert|]. eapply stock_inv_perm; [|exact Hst]. symmetry.
    apply (Permutation_app_inv_l (hand s)). rewrite (stock_thread g ts ow t s s' Ht). by rewrite Eh. }
  destruct s as [|n k [|i] slot stride|n l|p k [|i] slot stride|p l].
  - exists Idle, g, None. split; [done|]. by apply Hsame.
  - destruct Hs as [Hn _]. destruct (Hsh k) as (_ & El & _). cbn [tstep]. eexists _, _, _. split; [done|]. apply Hsame; [done|].
    cbn. rewrite El. split; [by rewrite (size_layout_class n k)|apply class_layout_legal].
  - by apply alloc_step_ok.
  - destruct Hs as [-> Hl]. cbn [tstep]. unfold BS.ma_alloc. destruct (stock_inv_alloc base (ma g) (kern g) _ (size_layout n) Hm Hst Hl) as (r & k' & -> & Hst').
    rewrite !bind_Ok. eexists _, _, _. split; [done|]. split; [done|]. split; [by apply Forall_insert|]. cbn [BS.set_kern kern].
    eapply stock_inv_perm; [|exact Hst']. symmetry. destruct r as [p|e]; cbn [option_list option_rect app].
    + rewrite stock_own. apply (Permutation_app_head [_]). exact (stock_thread _ ts ow t _ Idle Ht).
    + exact (stock_thread _ ts ow t _ Idle Ht).
  - destruct (Hsh k) as (_ & El & _). cbn [tstep]. eexists _, _, _. split; [done|]. apply Hsame; [|done]. cbn. by rewrite El.
  - by apply free_step_ok.
  - cbn [tstep]. unfold BS.ma_dealloc. pose proof (stock_thread g ts ow t _ Idle Ht) as Hp. cbn [hand app] in Hp. symmetry in Hp.
    pose proof (stock_inv_perm _ _ _ _ Hp Hst) as Hst1. destruct (stock_inv_dealloc base (ma g) (kern g) _ p l Hm Hst1) as (k' & -> & Hst').
    rewrite !bind_Ok. eexists _, _, _. split; [done|]. split; [done|]. split; [by apply Forall_insert|]. exact Hst'.
Qed.
End invariant.

(** ** Reachable configurations *)
Section reachable.
Context {K : Type} `{!Kernel K}.

#[local] Abbreviation G := (Global K).

Lemma start_alloc_ok (g : G) n seed : gshape g → request_ok n seed → ∃ s, start_alloc g n seed = Ok s ∧ hand s = [] ∧ twf s.
Proof.
  intros Hg [Hn Hseed]. unfold start_alloc. rewrite class_of_shape by done. destruct (size_class n) as [k|] eqn:E.
  - destruct (probe_spec g k seed Hg Hseed) as (slot & stride & -> & Hs). rewrite bind_Ok. by eexists.
  - rewrite (from_size_align_Some n 1 0) by (done || lia || (unfold usize_max; lia)). eexists. split; [done|]. split; [done|].
    assert (El : mkLayout n 1 = size_layout n) by (unfold size_layout; by rewrite E). cbn. rewrite El. split; [done|by apply size_layout_legal].
Qed.

Lemma start_free_ok (g : G) p n seed : gshape g → request_ok n seed →
  ∃ s, start_free g p n seed = Ok s ∧ hand s = [(p, size_layout n)] ∧ twf s.
Proof.
  intros Hg [Hn Hseed]. unfold start_free. rewrite class_of_shape by done. unfold size_layout. destruct (size_class n) as [k|] eqn:E.
  - destruct (probe_spec g k seed Hg Hseed) as (slot & stride & -> & Hs). rewrite bind_Ok. by eexists.
  - rewrite (from_size_align_Some n 1 0) by (done || lia || (unfold usize_max; lia)). by eexists.
Qed.

Lemma cstep_inv base (c c' : config) : bs_inv base c → cstep c c' → bs_inv base c'.
Proof.
  intros Hinv Hst. destruct Hst as [g ts ow t n seed s Ht Hr E|g ts ow ow' t p n seed s Ht Hr Hp E|g ts ow t s s' g' ev Ht E]; pose proof Hinv as (Hg & Hts & Hs).
  - destruct (start_alloc_ok g n seed Hg Hr) as (s' & E' & Hh & Hw). rewrite E' in E. injection E as ->. split; [done|]. split; [by apply Forall_insert|].
    eapply stock_inv_perm; [|exact Hs]. symmetry. pose proof (stock_thread g ts ow t Idle s Ht) as Hperm. by rewrite Hh in Hperm.
  - destruct (start_free_ok g p n seed Hg Hr) as (s' & E' & Hh & Hw). rewrite E' in E. injection E as ->. split; [done|]. split; [by apply Forall_insert|].
    eapply stock_inv_perm; [|exact Hs]. pose proof (stock_thread g ts ow' t Idle s Ht) as Hperm. rewrite Hh in Hperm. cbn [hand app] in Hperm. rewrite Hperm.
    assert (Hown : stock g ts ow ≡ₚ stock g ts ((p, n) :: ow')) by (unfold stock, owned; by rewrite Hp). rewrite Hown. by rewrite stock_own.
  - destruct (tstep_ok base g ts ow t s Hinv Ht) as (s1 & g1 & e1 & E' & Hinv'). rewrite E' in E. by injection E as -> -> ->.
Qed.

Lemma new_ok (k : K) : k_ok k → ∃ g, BS.new k = Ok g ∧ ∀ n, bs_inv (k_mapped k) (g, replicate n Idle, []).
Proof.
  intros Hk. eexists. split; [unfold BS.new; vm_compute BS.cache_new; reflexivity|]. intros n. split; [|split].
  - split; [done|]. by intros [].
  - by apply Forall_replicate.
  - assert (Hst : ∀ g : G, cache (small_objs g) = replicate 8 0 → cache (large_objs g) = replicate 4 0 → stock g (replicate n Idle) [] = []).
    { intros g E1 E2. unfold stock, cached. cbn [BS.get_cache]. rewrite E1, E2. cbn. induction n; [done|]. cbn. exact IHn. }
    rewrite Hst by done. split; [constructor|]. split; [done|]. apply pinv_empty.
Qed.

(** C8: no block is ever in two places.  However threads interleave the atomic
    steps of their allocations and releases (each swap of a cache slot, each
    system call), the blocks that clients own are distinct and disjoint as byte
    ranges, none of them sits in a cache or in the hands of a thread releasing
    it, the mapped pages are exactly those mapped at the start and those of the
    blocks in the caches, in transit and owned (nothing leaks), and no step
    panics. *)
Theorem bs_blocks_owned_once (k0 : K) (g0 : G) (n : nat) (g : G) (ts : list tstate) (ow : list (Z * Z)) :
  k_ok k0 → BS.new k0 = Ok g0 → rtc cstep (g0, replicate n Idle, []) (g, ts, ow) →
  NoDup ow.*1 ∧
  (∀ i j p s q s', i ≠ j → ow !! i = Some (p, s) → ow !! j = Some (q, s') →
     disjoint_from p (layout_size (size_layout s)) q (layout_size (size_layout s'))) ∧
  (∀ k p, p ∈ ow.*1 → (p ∉ cache (BS.get_cache g k)) ∧ (p ∉ (concat (hand <$> ts)).*1)) ∧
  pinv k_page (k_mapped k0) (list_to_map (stock g ts ow)) (k_mapped (kern g)) ∧
  ∀ t s, ts !! t = Some s → ∃ s' g' ev, tstep g s = Ok (s', g', ev).
Proof.
  intros Hk Hnew Hr. destruct (new_ok k0 Hk) as (g1 & E & Hinv0). rewrite Hnew in E. injection E as <-. specialize (Hinv0 n).
  assert (Hinv : bs_inv (k_mapped k0) (g, ts, ow)).
  { clear Hk Hnew. induction Hr as [|x y z Hxy _ IH]; [done|]. apply IH. by eapply cstep_inv. }
  clear Hinv0 Hr. pose proof Hinv as (Hg & Hts & Hn & Hmi). pose proof Hmi as [_ Hp]. cbn [snd fst] in Hp.
  assert (Hown : (owned ow).*1 = ow.*1) by (unfold owned; rewrite <- list_fmap_compose; by apply list_fmap_ext; intros).
  assert (Hnd : NoDup ow.*1).
  { unfold stock in Hn. rewrite !fmap_app, Hown in Hn. apply NoDup_app in Hn as (_ & _ & Hn). apply NoDup_app in Hn as (_ & _ & Hn). by apply NoDup_app in Hn as (_ & _ & Hn). }
  refine (conj Hnd (conj _ (conj _ (conj Hp _)))).
  - intros i j p s q s' Hij Hi Hj.
    assert (Hlive : ∀ i p s, ow !! i = Some (p, s) → list_to_map (M := gmap Z Layout) (stock g ts ow) !! p = Some (size_layout s)).
    { intros i' p' x Hx. apply elem_of_list_to_map; [done|]. unfold stock. rewrite !elem_of_app. do 3 right.
      apply list_elem_of_fmap. exists (p', x). split; [done|]. by eapply list_elem_of_lookup_2. }
    apply (pinv_disjoint _ k_page_pos _ _ _ p _ q _ Hp); [by eapply Hlive..|]. intros ->. apply Hij.
    eapply (NoDup_lookup ow.*1 i j q Hnd); by rewrite list_lookup_fmap, ?Hi, ?Hj.
  - intros k p Hpo. rewrite <- Hown in Hpo. unfold stock in Hn. rewrite !fmap_app in Hn.
    assert (Hp0 : p ≠ 0).
    { apply list_elem_of_fmap in Hpo as ([p' l] & -> & Hin). apply (stock_nonnull (k_mapped k0) (kern g) (stock g ts ow) p' l); [apply Hinv|].
      unfold stock. rewrite !elem_of_app. right. right. right. exact Hin. }
    assert (Hc : ∀ k, p ∈ cache (BS.get_cache g k) → p ∈ (cached k g).*1).
    { intros k' Hin. unfold cached, tag. rewrite <- list_fmap_compose, list_elem_of_fmap. exists p. split; [done|]. by apply list_elem_of_filter. }
    apply NoDup_app in Hn as (_ & H1 & Hn). apply NoDup_app in Hn as (_ & H2 & Hn). apply NoDup_app in Hn as (_ & H3 & _). split.
    + intros Hin%Hc. destruct k; [apply (H1 p Hin)|apply (H2 p Hin)]; rewrite !elem_of_app; auto.
    + intros Hin. by apply (H3 p Hin).
  - intros t s Ht. destruct (tstep_ok (k_mapped k0) g ts ow t s Hinv Ht) as (s' & g' & ev & E & _). eauto.
Qed.
End reachable.

(** ** The sequential functions *)
Section sequential.
Context {K : Type} `{!Kernel K}.

#[local] Abbreviation G := (Global K).

(** A thread that runs alone until it is idle. *)
Fixpoint trun (fuel : nat) (g : G) (t : tstate) : res (G * option (Z * Z)) :=
  match fuel with
  | O => Fault NoFuel
  | S f =>
      '(t', g', ev) ← tstep g t;
      match t' with Idle => Ok (g', ev) | _ => trun f g' t' end
  end.

Definition handed (n : Z) (r : Z + AllocErr) : option (Z * Z) := match r with inl p => Some (p, n) | inr _ => None end.

Lemma alloc_map_run f g n l : trun (S f) g (AllocMap n l) = ('(r, g) ← BS.ma_alloc g l; Ok (g, handed n r)).
Proof. cbn [trun tstep]. destruct (BS.ma_alloc g l) as [[r g']|]; [|done]. by destruct r. Qed.

Lemma alloc_loop_run i : ∀ f g n k slot stride, (i < f)%nat →
  trun (S f) g (Alloc n k i slot stride) =
  ('(r, g) ← BS.alloc_loop i k slot stride g;
  match r with
  | Some p => Ok (g, Some (p, n))
  | None => '(r, g) ← BS.ma_alloc g (cache_layout (BS.get_cache g k)); Ok (g, handed n r)
  end).
Proof.
  induction i as [|i IH]; intros f g n k slot stride Hf; (destruct f as [|f]; [lia|]).
  - cbn [trun tstep BS.alloc_loop]. rewrite !bind_Ok. apply alloc_map_run.
  - remember (S f) as f'. cbn [trun tstep BS.alloc_loop]. destruct (BS.swap _ slot 0) as [[p c]|]; [|done]. rewrite !bind_Ok.
    destruct (p =? 0); [|done]. destruct (BS.next_slot _ slot stride) as [s|]; [|done]. rewrite !bind_Ok. subst f'. apply IH. lia.
Qed.

Lemma free_loop_run i : ∀ f g p k slot stride, (i < f)%nat →
  trun (S f) g (Free p k i slot stride) =
  ('(r, g) ← BS.free_loop i k p slot stride g;
  match r with
  | None => Ok (g, None)
  | Some p => g ← BS.ma_dealloc g p (cache_layout (BS.get_cache g k)); Ok (g, None)
  end).
Proof.
  induction i as [|i IH]; intros f g p k slot stride Hf; (destruct f as [|f]; [lia|]).
  - cbn [trun tstep BS.free_loop]. rewrite !bind_Ok. cbn [trun tstep]. by destruct (BS.ma_dealloc _ _ _).
  - remember (S f) as f'. cbn [trun tstep BS.free_loop]. destruct (BS.swap _ slot p) as [[q c]|]; [|done]. rewrite !bind_Ok.
    destruct (q =? 0); [done|]. destruct (BS.next_slot _ slot stride) as [s|]; [|done]. rewrite !bind_Ok. subst f'. apply IH. lia.
Qed.

(** The functions are their steps.  A thread that runs alone performs
    exactly the sequential [GlobalAllocator::alloc] and
    [GlobalAllocator::free], faults included, within a number of steps bounded
    by the patience of the caches. *)
Theorem bs_solo_run_is_sequential (g : G) (p n seed : Z) (fuel : nat) :
  (∀ k, (BS.patience (BS.get_cache g k) + 1 < fuel)%nat) →
  (s ← start_alloc g n seed; trun fuel g s) = ('(r, g) ← BS.alloc g n seed; Ok (g, handed n r)) ∧
  (s ← start_free g p n seed; trun fuel g s) = (g ← BS.free g p n seed; Ok (g, None)).
Proof.
  intros Hf. destruct fuel as [|f]; [by specialize (Hf Small); lia|]. unfold start_alloc, start_free, BS.alloc, BS.free.
  destruct (BS.class_of g n) as [k|].
  - specialize (Hf k). unfold BS.cache_alloc, BS.cache_free. destruct (BS.probe _ seed) as [[slot stride]|]; [|done].
    rewrite !bind_Ok, alloc_loop_run, free_loop_run by lia. split.
    + destruct (BS.alloc_loop _ _ _ _ _) as [[[q|] g']|]; done.
    + destruct (BS.free_loop _ _ _ _ _ _) as [[[q|] g']|]; [|done|done]. rewrite !bind_Ok. done.
  - destruct (unwrap _) as [l|]; [|done]. rewrite !bind_Ok. split; [apply alloc_map_run|]. cbn [trun tstep]. by destruct (BS.ma_dealloc _ _ _).
Qed.
End sequential.

(** ** A run with two threads *)
Definition toy_bs : res (Global ToyKernel) := BS.new toy_k0.

Lemma bs_solo_run_is_sequential_witness :
  ∃ g, toy_bs = Ok g ∧ (s ← start_alloc g 100 4096; trun 4 g s) = ('(r, g) ← BS.alloc g 100 4096; Ok (g, handed 100 r)).
Proof.
  destruct toy_bs as [g|] eqn:E; [|by vm_compute in E]. exists g. split; [done|].
  apply (bs_solo_run_is_sequential g 0 100 4096 4). vm_compute in E. injection E as <-. intros []; vm_compute; lia.
Defined.

(** Two threads ask for a block at the same time; each gets its own. *)
Lemma bs_blocks_owned_once_witness :
  ∃ g g' p q, toy_bs = Ok g ∧ rtc cstep (g, [Idle; Idle], []) (g', [Idle; Idle], [(q, 20000); (p, 30000)]) ∧
    disjoint_from q 20000 p 30000.
Proof.
  destruct toy_bs as [g|] eqn:E; [|by vm_compute in E].
  destruct (BS.ma_alloc g (mkLayout 30000 1)) as [[[p|] g1]|] eqn:E1; [|exfalso; vm_compute in E; injection E as <-; by vm_compute in E1..].
  destruct (BS.ma_alloc g1 (mkLayout 20000 1)) as [[[q|] g2]|] eqn:E2;
    [|exfalso; vm_compute in E; injection E as <-; vm_compute in E1; injection E1 as <- <-; by vm_compute in E2..].
  assert (Hr : rtc cstep (g, replicate 2 Idle, []) (g2, [Idle; Idle], [(q, 20000); (p, 30000)])).
  { assert (H1 : start_alloc g 30000 4096 = Ok (AllocMap 30000 (mkLayout 30000 1))) by (vm_compute in E; injection E as <-; done).
    assert (H2 : start_alloc g 20000 4096 = Ok (AllocMap 20000 (mkLayout 20000 1))) by (vm_compute in E; injection E as <-; done).
    eapply rtc_l; [eapply (step_start_alloc g _ _ 0%nat 30000 4096); [done|by split|exact H1]|].
    eapply rtc_l; [eapply (step_start_alloc g _ _ 1%nat 20000 4096); [done|by split|exact H2]|].
    eapply rtc_l; [eapply (step_thread g _ _ 0%nat _ Idle g1 (Some (p, 30000))); [done|cbn [tstep]; by rewrite E1]|].
    eapply rtc_l; [eapply (step_thread g1 _ _ 1%nat _ Idle g2 (Some (q, 20000))); [done|cbn [tstep]; by rewrite E2]|]. reflexivity. }
  exists g, g2, p, q. split; [done|]. split; [exact Hr|].
  destruct (bs_blocks_owned_once toy_k0 g 2 g2 _ _ toy_k0_ok E Hr) as (_ & Hd & _).
  exact (Hd 0%nat 1%nat q 20000 p 30000 ltac:(done) eq_refl eq_refl).
Defined.
