(* ===== verification/Bag.v ===== *)
(** * Bags: the traits of bagpipe

    Models [src/bagpipe/src/bag.rs]: the operations of [SharedWeakBag] with the
    default methods that retry until they succeed, what a bag promises its
    clients as laws, and the default methods of [WeakBag].  A call is a function
    of the bag: calls do not overlap here (for queues whose calls do, see
    FaaQueue). *)

From Stdlib Require Import ZArith Lia.
From stdpp Require Import base numbers list option.
From S2P Require Import Prelude.

Inductive PopStatus := Empty | TransientFailure.

Definition PopResult (T : Type) : Type := T + PopStatus.

(** The required methods of the trait. *)
Class SharedWeakBag (B Item : Type) := {
  bag_new : B;
  bag_try_push : Item → B → res ((unit + Item) * B);
  bag_try_pop : B → res (PopResult Item * B)
}.

(** The loops of the default methods, for a bag or for a handle on one:
    [push], [push_mut] and [pop], [pop_mut]. *)
Section Loops.
  Context {S Item : Type} (try_push : Item → S → res ((unit + Item) * S)) (try_pop : S → res (PopResult Item * S)).

Fixpoint push_loop (fuel : nat) (it : Item) (s : S) : res S :=
  match fuel with
  | O => Fault NoFuel
  | Datatypes.S f =>
      '(r, s') ← try_push it s;
      match r with
      | inl _ => Ok s'
      | inr old_item => push_loop f old_item s'
      end
  end.

Fixpoint pop_loop (fuel : nat) (s : S) : res (option Item * S) :=
  match fuel with
  | O => Fault NoFuel
  | Datatypes.S f =>
      '(r, s') ← try_pop s;
      match r with
      | inl it => Ok (Some it, s')
      | inr Empty => Ok (None, s')
      | inr TransientFailure => pop_loop f s'
      end
  end.

(** [WeakBag::bulk_add]. *)
Definition bulk_add_loop (fuel : nat) (l : list Item) (s : S) : res S := rfold (fun s it => push_loop fuel it s) l s.
End Loops.

Definition push `{SharedWeakBag B Item} : nat → Item → B → res B := push_loop bag_try_push.
Definition pop `{SharedWeakBag B Item} : nat → B → res (option Item * B) := pop_loop bag_try_pop.

(** ** What a bag promises

    A bag holds a multiset of items.  A push adds its item or gives it back; a
    pop takes an item, or answers [Empty] only when there is none, or may fail
    for now.  Failures end: after so many of them in a row the call succeeds,
    which for pushes has a bound. *)
Class BagLaws (B Item : Type) `{SharedWeakBag B Item} := {
  bag_item : Item → Prop;
  bag_ok : B → Prop;
  bag_contents : B → list Item;
  push_retries : B → nat;
  pop_retries : B → nat;
  push_limit : nat;
  bag_new_law : bag_ok bag_new ∧ bag_contents bag_new = [];
  push_limit_law b : bag_ok b → (push_retries b ≤ push_limit)%nat;
  bag_items_law b : bag_ok b → Forall bag_item (bag_contents b);
  bag_push_law b it : bag_ok b → bag_item it →
    ∃ r b', bag_try_push it b = Ok (r, b') ∧ bag_ok b' ∧
      match r with
      | inl _ => bag_contents b' ≡ₚ it :: bag_contents b
      | inr it' => it' = it ∧ bag_contents b' ≡ₚ bag_contents b ∧ (push_retries b' < push_retries b)%nat
      end;
  bag_pop_law b : bag_ok b →
    ∃ r b', bag_try_pop b = Ok (r, b') ∧ bag_ok b' ∧
      match r with
      | inl it => bag_contents b ≡ₚ it :: bag_contents b' ∧ (pop_retries b' ≤ pop_retries b)%nat
      | inr Empty => bag_contents b = [] ∧ bag_contents b' = [] ∧ (pop_retries b' ≤ pop_retries b)%nat
      | inr TransientFailure => bag_contents b' ≡ₚ bag_contents b ∧ (pop_retries b' < pop_retries b)%nat
      end
}.

(** [RevocableWeakBag]: an item may be taken back out of the bag it was pushed
    to.  A revocation may fail although the item is there. *)
Class RevocableWeakBag (B Item : Type) := bag_revoke : Item → B → res (bool * B).

Class RevocableLaws (B Item : Type) `{BagLaws B Item} `{!RevocableWeakBag B Item} :=
  bag_revoke_law (b : B) (it : Item) : bag_ok b → bag_item it →
    ∃ r b', bag_revoke it b = Ok (r, b') ∧ bag_ok b' ∧ (if r then bag_contents b ≡ₚ it :: bag_contents b' else bag_contents b' ≡ₚ bag_contents b) ∧
      (pop_retries b' ≤ pop_retries b)%nat.

Section Lawful.
  Context `{BagLaws B Item}.
  Implicit Types b : B.

(** [push] succeeds, after at most [push_retries] failures. *)
Lemma push_ends fuel : ∀ b it, bag_ok b → bag_item it → (push_retries b < fuel)%nat →
  ∃ b', push fuel it b = Ok b' ∧ bag_ok b' ∧ bag_contents b' ≡ₚ it :: bag_contents b.
Proof.
  induction fuel as [|f IH]; intros b it Hb Hit Hf; [lia|]. unfold push. cbn [push_loop].
  destruct (bag_push_law b it Hb Hit) as ([[]|it'] & b' & -> & Hb' & Hr); rewrite bind_Ok; [eauto|].
  destruct Hr as (-> & Hc & Hlt). destruct (IH b' it Hb' Hit) as (b2 & E & Hb2 & Hc2); [lia|]. exists b2. by rewrite <- Hc.
Qed.

(** [pop] returns an item, or that there is none. *)
Lemma pop_ends fuel : ∀ b, bag_ok b → (pop_retries b < fuel)%nat →
  ∃ o b', pop fuel b = Ok (o, b') ∧ bag_ok b' ∧ bag_contents b ≡ₚ option_list o ++ bag_contents b' ∧ (o = None → bag_contents b = []) ∧
    (pop_retries b' ≤ pop_retries b)%nat.
Proof.
  induction fuel as [|f IH]; intros b Hb Hf; [lia|]. unfold pop. cbn [pop_loop].
  destruct (bag_pop_law b Hb) as ([it|[]] & b' & -> & Hb' & Hr); rewrite bind_Ok.
  - exists (Some it), b'. by destruct Hr.
  - destruct Hr as (E1 & E2 & Hle). exists None, b'. split_and!; [done|done|by rewrite E1, E2|done|done].
  - destruct Hr as (Hc & Hlt). destruct (IH b' Hb') as (o & b2 & E & Hb2 & Hc2 & Hn & Hle); [lia|]. exists o, b2. split_and!; [done|done|by rewrite <- Hc| |lia].
    intros ->. apply Permutation_nil_r. rewrite <- Hc. by rewrite (Hn eq_refl).
Qed.
End Lawful.

(** ** The bags of crossbeam

    [TreiberStack], [SegQueue] and [MsQueue] are outside the repository: what is
    used of them is a push that does not fail and a pop that returns an item if
    there is one.  They are bags that never fail. *)
Class Crossbeam (S Item : Type) := {
  cb_new : S;
  cb_push : Item → S → S;
  cb_pop : S → option Item * S
}.

Class CrossbeamLaws (S Item : Type) `{Crossbeam S Item} := {
  cb_items : S → list Item;
  cb_new_law : cb_items cb_new = [];
  cb_push_law s it : cb_items (cb_push it s) ≡ₚ it :: cb_items s;
  cb_pop_law s : cb_items s ≡ₚ option_list (cb_pop s).1 ++ cb_items (cb_pop s).2;
  cb_pop_none s : (cb_pop s).1 = None → cb_items s = []
}.

Section CrossbeamBag.
  Context `{CrossbeamLaws St Item}.

Definition cb_try_push (t : Item) (s : St) : res ((unit + Item) * St) := Ok (inl tt, cb_push t s).
Definition cb_try_pop (s : St) : res (PopResult Item * St) :=
  match cb_pop s with
  | (Some it, s') => Ok (inl it, s')
  | (None, s') => Ok (inr Empty, s')
  end.

Definition crossbeam_bag : SharedWeakBag St Item := {| bag_new := cb_new; bag_try_push := cb_try_push; bag_try_pop := cb_try_pop |}.

Program Definition crossbeam_bag_laws : BagLaws St Item (H := crossbeam_bag) := {|
  bag_item := fun _ => True;
  bag_ok := fun _ => True;
  bag_contents := cb_items;
  push_retries := fun _ => 0%nat;
  pop_retries := fun _ => 0%nat;
  push_limit := 0%nat
|}.
Next Obligation. split; [done|apply cb_new_law]. Qed.
Next Obligation. intros b _. cbn. lia. Qed.
Next Obligation. intros b _. by apply Forall_true. Qed.
Next Obligation. intros b it _ _. eexists _, _. split; [done|]. split; [done|]. apply cb_push_law. Qed.
Next Obligation.
  intros b _. cbn. unfold cb_try_pop. pose proof (cb_pop_law b) as Hp. pose proof (cb_pop_none b) as Hn. destruct (cb_pop b) as [[it|] b']; eexists _, _; (split; [done|]; split; [done|]); cbn in *; [done|].
  specialize (Hn eq_refl). rewrite Hn in Hp. apply Permutation_nil_l in Hp. done.
Qed.
End CrossbeamBag.

(** A stack of words, as a list. *)
Module ListStack.
#[local] Instance ops : Crossbeam (list Z) Z := {
  cb_new := [];
  cb_push := cons;
  cb_pop := fun l => match l with [] => (None, []) | x :: l' => (Some x, l') end
}.
#[local] Program Instance laws : CrossbeamLaws (list Z) Z := { cb_items := fun l => l }.
Next Obligation. done. Qed.
Next Obligation. done. Qed.
Next Obligation. by intros [|x l]. Qed.
Next Obligation. by intros [|x l]. Qed.
Definition bag : SharedWeakBag (list Z) Z := crossbeam_bag.
Definition bag_laws : BagLaws (list Z) Z (H := bag) := crossbeam_bag_laws.
End ListStack.
