(* ===== verification/FaaQueue.v ===== *)
(** * The fetch-and-add queue of bagpipe

    Models [FAAQueueLowLevel] of [src/bagpipe/src/queue.rs], with and without
    revocation, as the atomic steps of any number of threads.  Items are
    pointers (the [Node] instance for [*mut T]): words other than 0 and
    [SENTINEL].  Nodes that were unlinked are never freed here: when they may be
    freed, and which calls that endangers ([revoke] holds no guard), is the
    subject of FaaReclaim. *)

From Stdlib Require Import ZArith Lia.
From stdpp Require Import base numbers list gmap option relations.
From S2P Require Import Prelude Bag.

Open Scope Z_scope.

Definition SMALL_SEG_SHIFT : Z := 8.
Definition SMALL_SEG_SIZE : Z := Z.shiftl 1 SMALL_SEG_SHIFT.
Definition SENTINEL : Z := unot 0.

(** [FAANode]: the addresses of nodes are their positions in the list of all
    nodes. *)
Record FAANode := mkNode { head_index : Z; tail_index : Z; data : list Z; next : option nat }.

(** A queue, and the revocation handles of items (absent when zero): the cell,
    by node and index, the item was pushed to. *)
Record FAAQueue := mkQueue { nodes : list FAANode; head : nat; tail : nat; handles : gmap Z (nat * Z) }.

(** [Node::zeros_small], [FAANode::new_empty] and [FAANode::new]. *)
Definition zeros_small : list Z := replicate (Z.to_nat SMALL_SEG_SIZE) 0.
Definition new_empty : FAANode := mkNode 0 0 zeros_small None.
Definition new_node (item : Z) : FAANode := mkNode 0 1 (<[0%nat := item]> zeros_small) None.

Definition new : FAAQueue := mkQueue [new_empty] 0 0 ∅.

(** Reads and writes of nodes. *)
Definition node (q : FAAQueue) (n : nat) : res FAANode := deref (nodes q !! n).
Definition set_node (q : FAAQueue) (n : nat) (nd : FAANode) : FAAQueue := mkQueue (<[n := nd]> (nodes q)) (head q) (tail q) (handles q).
Definition set_cell (q : FAAQueue) (n : nat) (nd : FAANode) (ix v : Z) : FAAQueue :=
  set_node q n (mkNode (head_index nd) (tail_index nd) (<[Z.to_nat ix := v]> (data nd)) (next nd)).
Definition set_tail (q : FAAQueue) (t : nat) : FAAQueue := mkQueue (nodes q) (head q) t (handles q).
Definition set_head (q : FAAQueue) (h : nat) : FAAQueue := mkQueue (nodes q) h (tail q) (handles q).

(** [RevokeFunc::store]: the handle of an item, for queues that can revoke. *)
Definition store_handle (rv : bool) (q : FAAQueue) (item : Z) (c : option (nat * Z)) : FAAQueue :=
  if rv then mkQueue (nodes q) (head q) (tail q) (partial_alter (fun _ => c) item (handles q)) else q.

(** Where a thread is in [try_push], [try_pop] or [revoke]; the names are of
    the atomic operation that comes next. *)
Inductive pc :=
  | Idle
  | PLoad (it : Z)                              (* load self.tail *)
  | PInc (it : Z) (t : nat)                     (* fetch_add tail_index *)
  | PIsTail (it : Z) (t : nat)                  (* is_tail *)
  | PNext (it : Z) (t : nat)                    (* load tail.next *)
  | PCasTail (it : Z) (t n : nat)               (* cas self.tail to the next node *)
  | PNew (it : Z) (t : nat)                     (* cas tail.next to a new node *)
  | PAdv (it : Z) (t n : nat)                   (* cas self.tail to the new node *)
  | PStore (it : Z) (t : nat) (ix : Z)          (* store the handle *)
  | PCas (it : Z) (t : nat) (ix : Z)            (* cas the cell *)
  | DLoad                                       (* load self.head *)
  | DHeadIx (h : nat)                           (* load head_index *)
  | DTailIx (h : nat) (hi : Z)                  (* load tail_index *)
  | DEmpty (h : nat) (hi ti : Z)                (* load head.next, test *)
  | DInc (h : nat)                              (* fetch_add head_index *)
  | DNext (h : nat)                             (* load head.next *)
  | DCas (h n : nat)                            (* cas self.head *)
  | DSwap (h : nat) (ix : Z)                    (* swap the cell *)
  | DErase (it : Z)                             (* reset the handle *)
  | RLoad (it : Z)                              (* load the handle *)
  | RCas (it : Z) (n : nat) (ix : Z).           (* cas the cell *)

(** Calls and results. *)
Inductive event :=
  | Push (it : Z) | PushOk (it : Z) | PushErr (it : Z)
  | Popped (it : Z) | PopEmpty | PopTransient
  | Revoked (it : Z) | NotRevoked (it : Z).

#[export] Instance event_eq_dec : EqDecision event.
Proof. solve_decision. Defined.

(** One atomic operation of a thread, the state it moves to, and the result
    when the call returns.  Unlinking a node ([DCas]) does not free it here. *)
Definition tstep (rv : bool) (p : pc) (q : FAAQueue) : res (pc * FAAQueue * option event) :=
  match p with
  | Idle => Ok (Idle, q, None)
  | PLoad it => Ok (PInc it (tail q), q, None)
  | PInc it t =>
      nd ← node q t;
      let ix := tail_index nd in
      let q' := set_node q t (mkNode (head_index nd) (wadd ix 1) (data nd) (next nd)) in
      if SMALL_SEG_SIZE <=? ix then Ok (PIsTail it t, q', None) else Ok (PStore it t ix, q', None)
  | PIsTail it t => if bool_decide (tail q = t) then Ok (PNext it t, q, None) else Ok (PLoad it, q, None)
  | PNext it t =>
      nd ← node q t;
      match next nd with Some n => Ok (PCasTail it t n, q, None) | None => Ok (PNew it t, q, None) end
  | PCasTail it t n => Ok (PLoad it, if bool_decide (tail q = t) then set_tail q n else q, None)
  | PNew it t =>
      nd ← node q t;
      match next nd with
      | None =>
          let n := length (nodes q) in
          let q' := set_node q t (mkNode (head_index nd) (tail_index nd) (data nd) (Some n)) in
          Ok (PAdv it t n, mkQueue (nodes q' ++ [new_node it]) (head q) (tail q) (handles q), None)
      | Some _ => Ok (PLoad it, q, None)
      end
  | PAdv it t n => Ok (Idle, if bool_decide (tail q = t) then set_tail q n else q, Some (PushOk it))
  | PStore it t ix => Ok (PCas it t ix, store_handle rv q it (Some (t, ix)), None)
  | PCas it t ix =>
      nd ← node q t;
      v ← deref (data nd !! Z.to_nat ix);
      if v =? 0 then Ok (Idle, set_cell q t nd ix it, Some (PushOk it)) else Ok (Idle, q, Some (PushErr it))
  | DLoad => Ok (DHeadIx (head q), q, None)
  | DHeadIx h => nd ← node q h; Ok (DTailIx h (head_index nd), q, None)
  | DTailIx h hi => nd ← node q h; Ok (DEmpty h hi (tail_index nd), q, None)
  | DEmpty h hi ti =>
      nd ← node q h;
      if (ti <=? hi) && bool_decide (next nd = None) then Ok (Idle, q, Some PopEmpty) else Ok (DInc h, q, None)
  | DInc h =>
      nd ← node q h;
      let ix := head_index nd in
      let q' := set_node q h (mkNode (wadd ix 1) (tail_index nd) (data nd) (next nd)) in
      if SMALL_SEG_SIZE <=? ix then Ok (DNext h, q', None) else Ok (DSwap h ix, q', None)
  | DNext h =>
      nd ← node q h;
      match next nd with Some n => Ok (DCas h n, q, None) | None => Ok (Idle, q, Some PopEmpty) end
  | DCas h n => Ok (DLoad, if bool_decide (head q = h) then set_head q n else q, None)
  | DSwap h ix =>
      nd ← node q h;
      v ← deref (data nd !! Z.to_nat ix);
      let q' := set_cell q h nd ix SENTINEL in
      if (v =? 0) || (v =? SENTINEL) then Ok (Idle, q', Some PopTransient) else Ok (DErase v, q', None)
  | DErase it => Ok (Idle, store_handle rv q it None, Some (Popped it))
  | RLoad it =>
      match handles q !! it with Some (n, ix) => Ok (RCas it n ix, q, None) | None => Ok (Idle, q, Some (NotRevoked it)) end
  | RCas it n ix =>
      nd ← node q n;
      v ← deref (data nd !! Z.to_nat ix);
      if v =? it then Ok (Idle, set_cell q n nd ix SENTINEL, Some (Revoked it)) else Ok (Idle, q, Some (NotRevoked it))
  end.

(** ** Threads that share a queue *)

(** An item that may be pushed (the assertions of [as_usize]). *)
Definition is_item (v : Z) : bool := negb (v =? 0) && negb (v =? SENTINEL).

(** The queue, the threads, and the calls and results so far. *)
Record config := mkConfig { cq : FAAQueue; threads : list pc; history : list event }.

(** A thread makes a step of its call, or calls [try_push], [try_pop] or
    [revoke] when it is in none. *)
Inductive qstep (rv : bool) : config → config → Prop :=
  | step_run q ts hist i p p' q' e : ts !! i = Some p → tstep rv p q = Ok (p', q', e) →
      qstep rv (mkConfig q ts hist) (mkConfig q' (<[i := p']> ts) (hist ++ option_list e))
  | step_push q ts hist i it : ts !! i = Some Idle → is_item it = true →
      qstep rv (mkConfig q ts hist) (mkConfig q (<[i := PLoad it]> ts) (hist ++ [Push it]))
  | step_pop q ts hist i : ts !! i = Some Idle →
      qstep rv (mkConfig q ts hist) (mkConfig q (<[i := DLoad]> ts) hist)
  | step_revoke q ts hist i it : ts !! i = Some Idle → is_item it = true →
      qstep rv (mkConfig q ts hist) (mkConfig q (<[i := RLoad it]> ts) hist).

Definition start (n : nat) : config := mkConfig new (replicate n Idle) [].

(** A call run without interruption: its result and the queue after it. *)
Fixpoint solo (rv : bool) (fuel : nat) (p : pc) (q : FAAQueue) : res (event * FAAQueue) :=
  match fuel with
  | O => Fault NoFuel
  | S f =>
      '(p', q', e) ← tstep rv p q;
      match e with Some e => Ok (e, q') | None => solo rv f p' q' end
  end.
Definition try_push (rv : bool) (fuel : nat) (it : Z) (q : FAAQueue) : res (event * FAAQueue) :=
  _ ← rassert (is_item it); solo rv fuel (PLoad it) q.
Definition try_pop (rv : bool) (fuel : nat) (q : FAAQueue) : res (event * FAAQueue) := solo rv fuel DLoad q.
Definition revoke (rv : bool) (fuel : nat) (it : Z) (q : FAAQueue) : res (event * FAAQueue) :=
  _ ← rassert (is_item it); solo rv fuel (RLoad it) q.

(** ** Contents *)
Definition items (l : list Z) : list Z := base.filter is_item l.

(** The items in the cells, in the order of the cells. *)
Definition contents (q : FAAQueue) : list Z := items (concat (data <$> nodes q)).

Definition count (x : Z) (l : list Z) : Z := Z.of_nat (length (base.filter (fun y => y = x) l)).

(** The item a thread has taken or has yet to push. *)
Definition carried (p : pc) : list Z :=
  match p with
  | PLoad it | PInc it _ | PIsTail it _ | PNext it _ | PCasTail it _ _ | PNew it _ | PStore it _ _ | PCas it _ _ | DErase it => [it]
  | _ => []
  end.

(** What calls brought into the queue and what results took out of it. *)
Definition pushed (e : event) : list Z := match e with Push it => [it] | _ => [] end.
Definition returned (e : event) : list Z := match e with PushErr it | Popped it | Revoked it => [it] | _ => [] end.

(** ** Lemmas on contents *)
Lemma items_app l1 l2 : items (l1 ++ l2) = items l1 ++ items l2.
Proof. apply list.filter_app. Qed.

Lemma items_none l : Forall (fun v => is_item v = false) l → items l = [].
Proof. induction 1 as [|v l Hv _ IH]; [done|]. unfold items. rewrite filter_cons_False by (rewrite Hv; tauto). exact IH. Qed.

Lemma items_one v : is_item v = true → items [v] = [v].
Proof. intros H. unfold items. by rewrite filter_cons_True by (by rewrite H). Qed.

Lemma items_zero v : is_item v = false → items [v] = [].
Proof. intros H. apply items_none. by constructor. Qed.

Lemma is_item_sentinel : is_item SENTINEL = false.
Proof. done. Qed.

Lemma is_item_test v : (v =? 0) || (v =? SENTINEL) = negb (is_item v).
Proof. unfold is_item. by destruct (v =? 0), (v =? SENTINEL). Qed.

Lemma contents_set_node q n nd nd' : nodes q !! n = Some nd → data nd' = data nd → contents (set_node q n nd') = contents q.
Proof. intros Hn Hd. unfold contents, set_node. cbn. by rewrite list_fmap_insert, list_insert_id by (by rewrite list_lookup_fmap, Hn, Hd). Qed.

(** The items before cell [j] of node [n], in it, and behind it. *)
Lemma contents_cell q n nd j v : nodes q !! n = Some nd → data nd !! j = Some v →
  ∃ b, contents q = items (concat (data <$> take n (nodes q)) ++ take j (data nd)) ++ items [v] ++ b ∧
    b = items (drop (S j) (data nd) ++ concat (data <$> drop (S n) (nodes q))) ∧
    ∀ nd' v', data nd' = <[j := v']> (data nd) →
      contents (set_node q n nd') = items (concat (data <$> take n (nodes q)) ++ take j (data nd)) ++ items [v'] ++ b.
Proof.
  intros Hn Hj. exists (items (drop (S j) (data nd) ++ concat (data <$> drop (S n) (nodes q)))). split; [|split; [done|]].
  - unfold contents. rewrite <- (take_drop_middle _ _ _ Hn) at 1. rewrite fmap_app, fmap_cons, concat_app. cbn [concat].
    rewrite <- (take_drop_middle _ _ _ Hj) at 1. rewrite !items_app, <- (app_assoc (items (take j (data nd)))), <- !app_assoc. f_equal. f_equal.
    change (v :: drop (S j) (data nd)) with ([v] ++ drop (S j) (data nd)). by rewrite items_app, <- app_assoc.
  - intros nd' v' Hd. unfold contents, set_node. cbn. rewrite insert_take_drop by (by eapply lookup_lt_Some).
    rewrite fmap_app, fmap_cons, concat_app. cbn [concat]. rewrite Hd, insert_take_drop by (by eapply lookup_lt_Some).
    rewrite !items_app, <- (app_assoc (items (take j (data nd)))), <- !app_assoc. f_equal. f_equal.
    change (v' :: drop (S j) (data nd)) with ([v'] ++ drop (S j) (data nd)). by rewrite items_app, <- app_assoc.
Qed.

(** ** The invariant *)

(** What a thread relies on at each of its steps. *)
Definition pc_ok (q : FAAQueue) (p : pc) : Prop :=
  match p with
  | Idle | DLoad => True
  | PLoad it | DErase it | RLoad it => is_item it = true
  | PInc it t => is_item it = true ∧ (t ≤ tail q)%nat
  | PIsTail it t | PNext it t | PNew it t => is_item it = true ∧ (t ≤ tail q)%nat ∧ ∃ nd, nodes q !! t = Some nd ∧ SMALL_SEG_SIZE ≤ tail_index nd
  | PCasTail it t n => is_item it = true ∧ n = S t ∧ (n < length (nodes q))%nat
  | PAdv it t n => n = S t ∧ (n < length (nodes q))%nat
  | PStore it t ix | PCas it t ix => is_item it = true ∧ 0 ≤ ix < SMALL_SEG_SIZE ∧ ∃ nd, nodes q !! t = Some nd ∧ ix < tail_index nd
  | DHeadIx h | DTailIx h _ | DEmpty h _ _ | DInc h => (h < length (nodes q))%nat
  | DNext h => ∃ nd, nodes q !! h = Some nd ∧ SMALL_SEG_SIZE ≤ head_index nd
  | DCas h n => n = S h ∧ (n < length (nodes q))%nat ∧ ∃ nd, nodes q !! h = Some nd ∧ SMALL_SEG_SIZE ≤ head_index nd
  | DSwap h ix => 0 ≤ ix < SMALL_SEG_SIZE ∧ ∃ nd, nodes q !! h = Some nd ∧ ix < head_index nd
  | RCas it n ix => is_item it = true ∧ (n < length (nodes q))%nat ∧ 0 ≤ ix < SMALL_SEG_SIZE
  end.

(** Queues only grow. *)
Definition grows (q q' : FAAQueue) : Prop :=
  (tail q ≤ tail q')%nat ∧
  ∀ i nd, nodes q !! i = Some nd → ∃ nd', nodes q' !! i = Some nd' ∧ head_index nd ≤ head_index nd' ∧ tail_index nd ≤ tail_index nd'.

Lemma grows_len q q' : grows q q' → (length (nodes q) ≤ length (nodes q'))%nat.
Proof.
  intros [_ H]. destruct (decide (length (nodes q') < length (nodes q))%nat) as [Hlt|]; [|lia].
  destruct (lookup_lt_is_Some_2 (nodes q) (length (nodes q'))) as [nd Hnd]; [lia|]. destruct (H _ _ Hnd) as (nd' & Hl%lookup_lt_Some & _). lia.
Qed.

Lemma pc_ok_grows q q' p : grows q q' → pc_ok q p → pc_ok q' p.
Proof.
  intros Hg Hp. pose proof (grows_len q q' Hg). destruct Hg as [Ht Hn].
  destruct p; cbn in *; try done; try lia; try (intuition lia);
    repeat match goal with H : _ ∧ _ |- _ => destruct H | H : ∃ _, _ |- _ => destruct H | H : nodes q !! _ = Some _ |- _ => apply Hn in H as (? & ? & ? & ?) end;
    split_and?; try done; try lia; (eexists; split; [eassumption|lia]).
Qed.

Lemma grows_refl q : grows q q.
Proof. split; [done|]. intros i nd H. by exists nd. Qed.

Lemma grows_node q n nd nd' : nodes q !! n = Some nd → head_index nd ≤ head_index nd' → tail_index nd ≤ tail_index nd' → grows q (set_node q n nd').
Proof.
  intros Hn Hh Ht. split; [done|]. intros i nd0 Hi. cbn. destruct (decide (n = i)) as [->|Hne].
  - rewrite Hn in Hi. injection Hi as <-. exists nd'. rewrite list_lookup_insert_eq by (by eapply lookup_lt_Some). done.
  - exists nd0. by rewrite list_lookup_insert_ne.
Qed.

(** The shape of the linked list: [k] operations have run. *)
Record q_ok (k : Z) (q : FAAQueue) : Prop := {
  ok_head : (head q < length (nodes q))%nat;
  ok_tail : (tail q < length (nodes q))%nat;
  ok_data i nd : nodes q !! i = Some nd → length (data nd) = Z.to_nat SMALL_SEG_SIZE;
  ok_index i nd : nodes q !! i = Some nd → 0 ≤ head_index nd ≤ k ∧ 0 ≤ tail_index nd ≤ k;
  ok_next i nd : nodes q !! i = Some nd → next nd = if decide (S i < length (nodes q))%nat then Some (S i) else None;
  ok_past i nd : nodes q !! i = Some nd → (i < head q)%nat → SMALL_SEG_SIZE ≤ head_index nd;
  ok_full i nd : nodes q !! i = Some nd → (S i < length (nodes q))%nat → SMALL_SEG_SIZE ≤ tail_index nd;
  ok_fresh i nd j v : nodes q !! i = Some nd → data nd !! j = Some v → tail_index nd ≤ Z.of_nat j → is_item v = false;
  ok_handles it n ix : handles q !! it = Some (n, ix) → (n < length (nodes q))%nat ∧ 0 ≤ ix < SMALL_SEG_SIZE
}.

(** With the threads: cells behind the head are used up or about to be; the
    tail is the last node, or the thread that appended one is about to move it;
    and what was pushed is in the queue, with a thread, or was returned. *)
Record inv (k : Z) (c : config) : Prop := {
  inv_q : q_ok k (cq c);
  inv_pcs p : p ∈ threads c → pc_ok (cq c) p;
  inv_used i nd j v : nodes (cq c) !! i = Some nd → data nd !! j = Some v → Z.of_nat j < head_index nd → v ≠ SENTINEL → DSwap i (Z.of_nat j) ∈ threads c;
  inv_lag : S (tail (cq c)) = length (nodes (cq c)) ∨
    (S (S (tail (cq c))) = length (nodes (cq c)) ∧ ∃ it, PAdv it (tail (cq c)) (S (tail (cq c))) ∈ threads c);
  inv_items : concat (pushed <$> history c) ≡ₚ contents (cq c) ++ concat (carried <$> threads c) ++ concat (returned <$> history c)
}.

Lemma q_ok_later k q : q_ok k q → q_ok (k + 1) q.
Proof. intros []. split; try done. intros i nd Hi. specialize (ok_index0 i nd Hi). lia. Qed.

(** Changing a node in place. *)
Lemma q_ok_node k q n nd nd' : q_ok k q → nodes q !! n = Some nd → length (data nd') = length (data nd) → next nd' = next nd →
  head_index nd ≤ head_index nd' ≤ k + 1 → tail_index nd ≤ tail_index nd' ≤ k + 1 →
  (∀ j v, data nd' !! j = Some v → tail_index nd' ≤ Z.of_nat j → is_item v = false) → q_ok (k + 1) (set_node q n nd').
Proof.
  intros [H1 H2 H3 H4 H5 H6 H7 H8 H9] Hn Hl Hnx Hh Ht Hf. pose proof (lookup_lt_Some _ _ _ Hn) as Hlt.
  assert (Hcase : ∀ i x, nodes (set_node q n nd') !! i = Some x → (i = n ∧ x = nd') ∨ (i ≠ n ∧ nodes q !! i = Some x)).
  { intros i x Hx. cbn in Hx. apply list_lookup_insert_Some in Hx as [(-> & -> & _)|[? ?]]; [by left|by right]. }
  split; cbn [head tail handles set_node nodes]; rewrite ?length_insert; try done.
  - intros i x [[-> ->]|[_ Hx]]%Hcase; [rewrite Hl; by eapply H3|by eapply H3].
  - intros i x [[-> ->]|[_ Hx]]%Hcase; [pose proof (H4 _ _ Hn)|pose proof (H4 _ _ Hx)]; lia.
  - intros i x [[-> ->]|[_ Hx]]%Hcase; [rewrite Hnx; by apply H5|by apply H5].
  - intros i x [[-> ->]|[_ Hx]]%Hcase Hi; [pose proof (H6 _ _ Hn Hi); lia|by eapply H6].
  - intros i x [[-> ->]|[_ Hx]]%Hcase Hi; [pose proof (H7 _ _ Hn Hi); lia|by eapply H7].
  - intros i x j v [[-> ->]|[_ Hx]]%Hcase Hj Hi; [by eapply Hf|by eapply H8].
Qed.

Lemma q_ok_get k q n : q_ok k q → (n < length (nodes q))%nat → ∃ nd, nodes q !! n = Some nd ∧ node q n = Ok nd.
Proof. intros _ Hn. destruct (lookup_lt_is_Some_2 _ _ Hn) as [nd Hnd]. exists nd. unfold node. by rewrite Hnd. Qed.

Lemma q_ok_cell k q n nd ix : q_ok k q → nodes q !! n = Some nd → 0 ≤ ix < SMALL_SEG_SIZE → ∃ v, data nd !! Z.to_nat ix = Some v.
Proof. intros Hq Hn Hix. apply lookup_lt_is_Some_2. rewrite (ok_data _ _ Hq _ _ Hn). lia. Qed.

Section step.
Context (rv : bool) (k : Z) (q : FAAQueue) (ts : list pc) (hist : list event) (i : nat) (p : pc).
Context (Hk : 0 ≤ k < 2 ^ 63) (Hinv : inv k (mkConfig q ts hist)) (Hi : ts !! i = Some p).

(** A step preserves the invariant if it does what it must to the queue. *)
Lemma inv_step p' q' e : grows q q' → q_ok (k + 1) q' → pc_ok q' p' →
  (∀ n nd j v, nodes q' !! n = Some nd → data nd !! j = Some v → Z.of_nat j < head_index nd → v ≠ SENTINEL → DSwap n (Z.of_nat j) ∈ <[i := p']> ts) →
  (S (tail q') = length (nodes q') ∨ (S (S (tail q')) = length (nodes q') ∧ ∃ it, PAdv it (tail q') (S (tail q')) ∈ <[i := p']> ts)) →
  concat (pushed <$> option_list e) ++ contents q ++ carried p ≡ₚ contents q' ++ carried p' ++ concat (returned <$> option_list e) →
  inv (k + 1) (mkConfig q' (<[i := p']> ts) (hist ++ option_list e)).
Proof.
  intros Hg Hq Hp Hu Hl Hb. destruct Hinv as [_ Hpcs _ _ Hit]. cbn in *. split; cbn; try done.
  - intros p0 [->|Hin]%elem_of_insert_inv; [done|]. eapply pc_ok_grows; [exact Hg|]. by apply Hpcs.
  - rewrite !fmap_app, !concat_app. eapply balance_step; [exact Hit|by apply hands_insert|exact Hb].
Qed.

Lemma lag_keep p' : (∀ it t n, p ≠ PAdv it t n) →
  S (tail q) = length (nodes q) ∨ (S (S (tail q)) = length (nodes q) ∧ ∃ it, PAdv it (tail q) (S (tail q)) ∈ <[i := p']> ts).
Proof.
  intros Hne. destruct (inv_lag _ _ Hinv) as [H|[H [it Hit]]]; [by left|right]. split; [done|]. exists it. eapply elem_of_insert_ne; [done|done|].
  intros Heq. by eapply Hne.
Qed.

Lemma used_keep p' n nd j v : (∀ h ix, p ≠ DSwap h ix) → nodes q !! n = Some nd → data nd !! j = Some v → Z.of_nat j < head_index nd → v ≠ SENTINEL →
  DSwap n (Z.of_nat j) ∈ <[i := p']> ts.
Proof.
  intros Hne Hn Hj Hlt Hv. eapply elem_of_insert_ne; [done|by eapply (inv_used _ _ Hinv)|]. intros Heq. by eapply Hne.
Qed.

(** Steps that only read, or change the handles. *)
Lemma inv_read p' e : (∀ h ix, p ≠ DSwap h ix) → (∀ it t n, p ≠ PAdv it t n) → pc_ok q p' →
  concat (pushed <$> option_list e) ++ carried p ≡ₚ carried p' ++ concat (returned <$> option_list e) → inv (k + 1) (mkConfig q (<[i := p']> ts) (hist ++ option_list e)).
Proof.
  intros H1 H2 Hp Hb. apply inv_step; [apply grows_refl|apply q_ok_later, Hinv|done| |by apply lag_keep|].
  - intros n nd j v Hn Hj Hlt Hv. by eapply used_keep.
  - rewrite (Permutation_app_comm (contents q)), app_assoc, Hb. solve_Permutation.
Qed.

Lemma inv_handle p' e it c : (∀ h ix, p ≠ DSwap h ix) → (∀ it t n, p ≠ PAdv it t n) → pc_ok q p' →
  (∀ n ix, c = Some (n, ix) → (n < length (nodes q))%nat ∧ 0 ≤ ix < SMALL_SEG_SIZE) →
  concat (pushed <$> option_list e) ++ carried p ≡ₚ carried p' ++ concat (returned <$> option_list e) →
  inv (k + 1) (mkConfig (store_handle rv q it c) (<[i := p']> ts) (hist ++ option_list e)).
Proof.
  intros H1 H2 Hp Hc Hb. unfold store_handle. destruct rv; [|by apply inv_read]. destruct (inv_read p' e H1 H2 Hp Hb) as [[] Hpcs ? ? ?]. split; try done.
  split; try done. cbn. intros it0 n ix. destruct (decide (it0 = it)) as [->|Hne]; [rewrite lookup_partial_alter_eq; apply Hc|].
  rewrite lookup_partial_alter_ne by done. by apply ok_handles0.
Qed.

(** Advancing an index of node [n] from [nd] to [nd']. *)
Lemma inv_index p' n nd nd' : (∀ h ix, p ≠ DSwap h ix) → (∀ it t n, p ≠ PAdv it t n) → nodes q !! n = Some nd → data nd' = data nd → next nd' = next nd →
  head_index nd ≤ head_index nd' ≤ k + 1 → tail_index nd ≤ tail_index nd' ≤ k + 1 →
  (head_index nd < head_index nd' → head_index nd < SMALL_SEG_SIZE → head_index nd' = head_index nd + 1 ∧ p' = DSwap n (head_index nd)) →
  carried p' = carried p → pc_ok (set_node q n nd') p' → inv (k + 1) (mkConfig (set_node q n nd') (<[i := p']> ts) (hist ++ [])).
Proof.
  intros H1 H2 Hn Hd Hx Hh Ht Hs Hc Hp. pose proof (inv_q _ _ Hinv) as Hq. cbn [cq] in Hq. apply (inv_step p' (set_node q n nd') None).
  - by eapply grows_node; [done|lia|lia].
  - apply (q_ok_node k q n nd); try done; [by rewrite Hd|]. rewrite Hd. intros j v Hj Hlt. eapply (ok_fresh _ _ Hq); [done|done|lia].
  - done.
  - cbn. intros n0 nd0 j v Hn0 Hj Hlt Hv. apply list_lookup_insert_Some in Hn0 as [(-> & -> & _)|[Hne Hn0]]; [|by eapply used_keep].
    rewrite Hd in Hj. destruct (decide (Z.of_nat j < head_index nd)) as [Hlt'|Hge]; [by eapply used_keep|].
    assert (Z.of_nat j < SMALL_SEG_SIZE). { apply lookup_lt_Some in Hj. rewrite (ok_data _ _ Hq _ _ Hn) in Hj. lia. }
    destruct Hs as [Hs ->]; [lia|lia|]. replace (Z.of_nat j) with (head_index nd) by lia. by eapply elem_of_insert_eq.
  - cbn. rewrite length_insert. by apply lag_keep.
  - rewrite (contents_set_node q n nd), Hc, app_nil_r by done. done.
Qed.

Lemma inv_tail p' e t : (∀ h ix, p ≠ DSwap h ix) → (∀ it t' n, p = PAdv it t' n → t' = t) → (S t < length (nodes q))%nat → pc_ok (if bool_decide (tail q = t) then set_tail q (S t) else q) p' →
  concat (pushed <$> option_list e) ++ carried p ≡ₚ carried p' ++ concat (returned <$> option_list e) →
  inv (k + 1) (mkConfig (if bool_decide (tail q = t) then set_tail q (S t) else q) (<[i := p']> ts) (hist ++ option_list e)).
Proof.
  intros H1 H2 Hlt Hp Hb. pose proof (inv_q _ _ Hinv) as Hq. cbn [cq] in Hq.
  assert (Hcont : concat (pushed <$> option_list e) ++ contents q ++ carried p ≡ₚ contents q ++ carried p' ++ concat (returned <$> option_list e)).
  { rewrite (Permutation_app_comm (contents q)), app_assoc, Hb. solve_Permutation. }
  case_bool_decide as Ht.
  - apply inv_step; [|destruct (q_ok_later _ _ Hq); by split|done| | |exact Hcont].
    + split; [cbn; lia|]. intros n nd Hn. by exists nd.
    + cbn. intros n nd j v Hn Hj Hl Hv. by eapply used_keep.
    + cbn. left. destruct (inv_lag _ _ Hinv) as [H|[H _]]; cbn in H; lia.
  - apply inv_step; [apply grows_refl|by apply q_ok_later|done| | |exact Hcont].
    + intros n nd j v Hn Hj Hl Hv. by eapply used_keep.
    + destruct (inv_lag _ _ Hinv) as [H|[H [it Hit]]]; cbn in *; [by left|right]. split; [done|]. exists it.
      eapply elem_of_insert_ne; [done|done|]. intros Heq. by apply Ht, (H2 it (tail q) (S (tail q))).
Qed.

Lemma inv_here : pc_ok q p.
Proof. apply (inv_pcs _ _ Hinv), list_elem_of_lookup. by exists i. Qed.

Lemma inv_head h n : p = DCas h n → inv (k + 1) (mkConfig (if bool_decide (head q = h) then set_head q n else q) (<[i := DLoad]> ts) (hist ++ [])).
Proof.
  intros Ep. pose proof (inv_q _ _ Hinv) as Hq. cbn [cq] in Hq. pose proof inv_here as Hp. rewrite Ep in Hp. destruct Hp as (-> & Hlt & nd & Hnd & Hge).
  assert (HA : ∀ it t m, p ≠ PAdv it t m) by (by rewrite Ep). assert (HD : ∀ h ix, p ≠ DSwap h ix) by (by rewrite Ep).
  case_bool_decide as Hh; [|by apply (inv_read DLoad None); [| | |rewrite Ep]]. apply (inv_step DLoad (set_head q (S h)) None).
  - split; [done|]. intros n nd0 Hn. by exists nd0.
  - destruct (q_ok_later _ _ Hq). split; try done. cbn. intros n nd0 Hn Hlt'. destruct (decide (n = h)) as [->|]; [congruence|]. eapply ok_past0; [done|lia].
  - done.
  - cbn. intros n nd0 j v Hn Hj Hl Hv. by eapply used_keep.
  - by apply lag_keep.
  - rewrite Ep. cbn. by rewrite !app_nil_r.
Qed.

(** Writing [w] over [v] in cell [ix] of node [n]: an item over zero, or the
    sentinel. *)
Lemma inv_cell p' e n nd ix v w : (∀ it t m, p ≠ PAdv it t m) → (∀ h jx, p = DSwap h jx → h = n ∧ jx = ix ∧ w = SENTINEL) → 0 ≤ ix < SMALL_SEG_SIZE →
  nodes q !! n = Some nd → data nd !! Z.to_nat ix = Some v → w = SENTINEL ∨ (v = 0 ∧ ix < tail_index nd) → pc_ok q p' →
  concat (pushed <$> option_list e) ++ items [v] ++ carried p ≡ₚ items [w] ++ carried p' ++ concat (returned <$> option_list e) →
  inv (k + 1) (mkConfig (set_cell q n nd ix w) (<[i := p']> ts) (hist ++ option_list e)).
Proof.
  intros H1 H2 Hix Hn Hv Hw Hp Hb. pose proof (inv_q _ _ Hinv) as Hq. cbn [cq] in Hq. pose proof (ok_index _ _ Hq _ _ Hn) as Hidx.
  assert (Hg : grows q (set_cell q n nd ix w)) by (eapply grows_node; [done|done|done]). apply inv_step; [done| |by eapply pc_ok_grows| | |].
  - apply (q_ok_node k q n nd); try done; cbn; try lia; [by rewrite length_insert|].
    intros j u Hj Hlt. apply list_lookup_insert_Some in Hj as [(<- & <- & _)|[_ Hj]]; [|by eapply (ok_fresh _ _ Hq)].
    destruct Hw as [->|[_ ?]]; [done|lia].
  - cbn. intros n0 nd0 j u Hn0 Hj Hlt Hu. apply list_lookup_insert_Some in Hn0 as [(<- & <- & _)|[Hne Hn0]]; cbn in *.
    + apply list_lookup_insert_Some in Hj as [(<- & <- & _)|[Hne Hj]].
      * destruct Hw as [->|[-> _]]; [done|]. eapply elem_of_insert_ne; [done|eapply (inv_used _ _ Hinv); [done|exact Hv|lia|done]|].
        intros Heq. symmetry in Heq. apply H2 in Heq as (_ & _ & ?). done.
      * eapply elem_of_insert_ne; [done|eapply (inv_used _ _ Hinv); done|]. intros Heq. symmetry in Heq. apply H2 in Heq as (_ & Heq & _). lia.
    + eapply elem_of_insert_ne; [done|eapply (inv_used _ _ Hinv); done|]. intros Heq. symmetry in Heq. apply H2 in Heq as (Heq & _). done.
  - cbn. rewrite length_insert. by apply lag_keep.
  - destruct (contents_cell q n nd (Z.to_nat ix) v Hn Hv) as (b & E & _ & E'). unfold set_cell. rewrite (E' _ w) by done. rewrite E.
    set (a := items (_ ++ _)). trans (a ++ b ++ (concat (pushed <$> option_list e) ++ items [v] ++ carried p)); [solve_Permutation|]. rewrite Hb. solve_Permutation.
Qed.

(** Appending a node. *)
Lemma inv_new t nd it : p = PNew it t → nodes q !! t = Some nd → next nd = None →
  inv (k + 1) (mkConfig (mkQueue (<[t := mkNode (head_index nd) (tail_index nd) (data nd) (Some (length (nodes q)))]> (nodes q) ++ [new_node it]) (head q) (tail q) (handles q))
    (<[i := PAdv it t (length (nodes q))]> ts) (hist ++ [])).
Proof.
  intros Ep Hn Hx. pose proof (inv_q _ _ Hinv) as Hq. cbn [cq] in Hq. pose proof (lookup_lt_Some _ _ _ Hn) as Hlt.
  pose proof inv_here as Hp. rewrite Ep in Hp. destruct Hp as (Hit & Htl & nd0 & Hnd0 & Hge). rewrite Hn in Hnd0. injection Hnd0 as <-.
  pose proof (ok_next _ _ Hq _ _ Hn) as Hnx. rewrite Hx in Hnx. case_decide as Hlast; [done|]. pose proof (ok_tail _ _ Hq) as Htlt.
  set (nd1 := mkNode (head_index nd) (tail_index nd) (data nd) (Some (length (nodes q)))). set (q' := mkQueue _ _ _ _).
  assert (Hlen : length (nodes q') = S (length (nodes q))) by (cbn; rewrite length_app, length_insert; cbn; lia).
  assert (Hcase : ∀ m x, nodes q' !! m = Some x → (m = t ∧ x = nd1) ∨ (m ≠ t ∧ (m < length (nodes q))%nat ∧ nodes q !! m = Some x) ∨ (m = length (nodes q) ∧ x = new_node it)).
  { intros m x Hm. cbn in Hm. apply lookup_app_Some in Hm as [Hm|[Hm1 Hm2]].
    - apply list_lookup_insert_Some in Hm as [(-> & -> & _)|[? Hm]]; [by left|right; left]. split_and!; [done|by eapply lookup_lt_Some|done].
    - right; right. rewrite length_insert in *. apply list_lookup_singleton_Some in Hm2 as [? <-]. split; [lia|done]. }
  pose proof (ok_index _ _ Hq _ _ Hn) as Hidx.
  apply (inv_step _ q' None).
  - split; [done|]. intros m x Hm. pose proof (lookup_lt_Some _ _ _ Hm). cbn. rewrite lookup_app_l by (by rewrite length_insert).
    destruct (decide (t = m)) as [<-|]; [rewrite list_lookup_insert_eq by done; exists nd1; by simplify_eq|rewrite list_lookup_insert_ne by done; by exists x].
  - pose proof Hq as []. split; rewrite ?Hlen; cbn [head tail handles q'].
    + lia.
    + lia.
    + intros m x [[-> ->]|[(_ & _ & Hm)|[_ ->]]]%Hcase; [exact (ok_data0 _ _ Hn)|by eapply ok_data0|unfold new_node; cbn [data]; by rewrite length_insert].
    + intros m x [[-> ->]|[(_ & _ & Hm)|[_ ->]]]%Hcase; [cbn; lia|pose proof (ok_index0 _ _ Hm); lia|cbn; lia].
    + intros m x [[-> ->]|[(Hne & Hlm & Hm)|[-> ->]]]%Hcase.
      * rewrite decide_True by lia. cbn. f_equal. lia.
      * rewrite decide_True by lia. rewrite (ok_next0 _ _ Hm), decide_True by lia. done.
      * rewrite decide_False by lia. done.
    + intros m x [[-> ->]|[(_ & _ & Hm)|[-> ->]]]%Hcase Hlh; [by apply (ok_past0 _ _ Hn)|by eapply ok_past0|lia].
    + intros m x [[-> ->]|[(Hne & Hlm & Hm)|[-> ->]]]%Hcase Hlm'; [done|eapply ok_full0; [done|lia]|lia].
    + intros m x j v [[-> ->]|[(_ & _ & Hm)|[-> ->]]]%Hcase Hj Htj; [by eapply (ok_fresh0 _ _ _ _ Hn)|by eapply ok_fresh0|].
      cbn in Hj, Htj. apply list_lookup_insert_Some in Hj as [(<- & _ & _)|[_ Hj]]; [lia|]. apply lookup_replicate in Hj as [-> _]. done.
    + intros it0 m ix Hm. apply ok_handles0 in Hm. lia.
  - cbn [pc_ok]. rewrite Hlen. lia.
  - intros m x j v [[-> ->]|[(_ & _ & Hm)|[-> ->]]]%Hcase Hj Hl Hv; [by eapply used_keep; [by rewrite Ep|exact Hn|..]|by eapply used_keep; [by rewrite Ep|..]|cbn in Hl; lia].
  - right. rewrite Hlen. cbn [tail q']. assert (tail q = t) as -> by lia. split; [lia|]. exists it. replace (S t) with (length (nodes q)) by lia. by eapply elem_of_insert_eq.
  - rewrite Ep. cbn [option_list option_rect fmap list_fmap concat app carried]. rewrite app_nil_r. unfold contents. cbn [nodes q'].
    rewrite fmap_app, concat_app, items_app, list_fmap_insert, list_insert_id by (by rewrite list_lookup_fmap, Hn).
    apply Permutation_app_head. cbn [fmap list_fmap concat]. rewrite app_nil_r. unfold new_node. cbn [data]. change zeros_small with (0 :: replicate 255 0). cbn [insert list_insert].
    change (it :: replicate 255 0) with ([it] ++ replicate 255 0). rewrite items_app, items_one by done. rewrite (items_none (replicate 255 0)); [done|]. by apply Forall_replicate.
Qed.
End step.

(** The items of a cell write balance. *)
Ltac balance :=
  cbn [option_list option_rect fmap list_fmap concat app carried pushed returned]; repeat first [rewrite items_zero by done | rewrite items_one by done]; done.

Lemma wadd_1 k x : 0 ≤ x ≤ k → k < 2 ^ 63 → wadd x 1 = x + 1.
Proof. intros. apply Z.mod_small. lia. Qed.

(** A step of [try_push] succeeds and preserves the invariant. *)
Lemma tstep_push rv k q ts hist i p : 0 ≤ k < 2 ^ 63 → inv k (mkConfig q ts hist) → ts !! i = Some p →
  match p with PLoad _ | PInc _ _ | PIsTail _ _ | PNext _ _ | PCasTail _ _ _ | PNew _ _ | PAdv _ _ _ | PStore _ _ _ | PCas _ _ _ => True | _ => False end →
  ∃ p' q' e, tstep rv p q = Ok (p', q', e) ∧ inv (k + 1) (mkConfig q' (<[i := p']> ts) (hist ++ option_list e)).
Proof.
  intros Hk Hinv Hi Hcl. pose proof (inv_q _ _ Hinv) as Hq. cbn [cq] in Hq. pose proof (inv_here _ _ _ _ _ _ Hinv Hi) as Hp.
  pose proof (ok_tail _ _ Hq) as Htl.
  destruct p as [|it|it t|it t|it t|it t n|it t|it t n|it t ix|it t ix| | | | | | | | | | |]; try done; cbn [tstep pc_ok] in *.
  - eexists _, _, _. split; [done|]. apply (inv_read k q ts hist i (PLoad it) Hinv Hi _ None); [done|done|done|done].
  - destruct Hp as [Hit Ht]. destruct (q_ok_get k q t Hq) as (nd & Hn & ->); [lia|]. rewrite bind_Ok. pose proof (ok_index _ _ Hq _ _ Hn) as Hidx.
    rewrite (wadd_1 k) by lia. pose proof (lookup_lt_Some _ _ _ Hn) as Hlt. destruct (Z.leb_spec SMALL_SEG_SIZE (tail_index nd)); eexists _, _, None; (split; [done|]);
      (eapply (inv_index k q ts hist i (PInc it t) Hinv Hi); [done|done|exact Hn|done|done|cbn; lia|cbn; lia|cbn; lia|done|]); cbn; rewrite list_lookup_insert_eq by done.
    + split_and!; [done|done|]. eexists. split; [done|]. cbn. lia.
    + split_and!; [done|lia|lia|]. eexists. split; [done|]. cbn. lia.
  - pose proof Hp as [Hit _]. case_bool_decide; eexists _, _, None; (split; [done|]); by apply (inv_read k q ts hist i (PIsTail it t) Hinv Hi _ None).
  - destruct Hp as (Hit & Ht & nd & Hn & Hge). unfold node. rewrite Hn. cbn [deref]. rewrite bind_Ok. destruct (next nd) as [n|] eqn:Hx; eexists _, _, None; (split; [done|]).
    + apply (inv_read k q ts hist i (PNext it t) Hinv Hi _ None); try done. rewrite (ok_next _ _ Hq _ _ Hn) in Hx. case_decide; [|done]. injection Hx as <-. done.
    + apply (inv_read k q ts hist i (PNext it t) Hinv Hi _ None); try done. split_and!; [done|done|]. by exists nd.
  - destruct Hp as (Hit & -> & Hlt). eexists _, _, None. split; [done|]. by apply (inv_tail k q ts hist i (PCasTail it t (S t)) Hinv Hi _ None).
  - destruct Hp as (Hit & Ht & nd & Hn & Hge). unfold node. rewrite Hn. cbn [deref]. rewrite bind_Ok. destruct (next nd) as [n|] eqn:Hx; eexists _, _, None; (split; [done|]).
    + by apply (inv_read k q ts hist i (PNew it t) Hinv Hi _ None).
    + apply (inv_new k q ts hist i (PNew it t) Hk Hinv Hi); [done|done|done].
  - destruct Hp as (-> & Hlt). eexists _, _, _. split; [done|]. apply (inv_tail k q ts hist i (PAdv it t (S t)) Hinv Hi _ (Some (PushOk it))); try done. by intros ??? [= _ -> _].
  - destruct Hp as (Hit & Hix & nd & Hn & Hlt). eexists _, _, None. split; [done|].
    apply (inv_handle rv k q ts hist i (PStore it t ix) Hinv Hi _ None); try done; [split_and!; [done|lia|lia|by exists nd]|].
    intros n jx [= <- <-]. split; [by eapply lookup_lt_Some|done].
  - destruct Hp as (Hit & Hix & nd & Hn & Hlt). unfold node. rewrite Hn. cbn [deref]. rewrite bind_Ok. destruct (q_ok_cell k q t nd ix Hq Hn Hix) as [v Hv].
    rewrite Hv. cbn [deref]. rewrite bind_Ok. destruct (Z.eqb_spec v 0) as [->|Hne]; eexists _, _, _; (split; [done|]).
    + apply (inv_cell k q ts hist i (PCas it t ix) Hinv Hi _ (Some (PushOk it)) t nd ix 0 it); try done; [by right|]. balance.
    + by apply (inv_read k q ts hist i (PCas it t ix) Hinv Hi _ (Some (PushErr it))).
Qed.

(** So does a step of [try_pop], of [revoke], or of no call. *)
Lemma tstep_pop rv k q ts hist i p : 0 ≤ k < 2 ^ 63 → inv k (mkConfig q ts hist) → ts !! i = Some p →
  match p with PLoad _ | PInc _ _ | PIsTail _ _ | PNext _ _ | PCasTail _ _ _ | PNew _ _ | PAdv _ _ _ | PStore _ _ _ | PCas _ _ _ => False | _ => True end →
  ∃ p' q' e, tstep rv p q = Ok (p', q', e) ∧ inv (k + 1) (mkConfig q' (<[i := p']> ts) (hist ++ option_list e)).
Proof.
  intros Hk Hinv Hi Hcl. pose proof (inv_q _ _ Hinv) as Hq. cbn [cq] in Hq. pose proof (inv_here _ _ _ _ _ _ Hinv Hi) as Hp.
  destruct p as [| | | | | | | | | | |h|h hi|h hi ti|h|h|h n|h ix|it|it|it n ix]; try done; cbn [tstep pc_ok] in *.
  - eexists _, _, None. split; [done|]. by apply (inv_read k q ts hist i Idle Hinv Hi _ None).
  - eexists _, _, None. split; [done|]. apply (inv_read k q ts hist i DLoad Hinv Hi _ None); try done. apply (ok_head _ _ Hq).
  - destruct (q_ok_get k q h Hq Hp) as (nd & Hn & ->). rewrite bind_Ok. eexists _, _, None. split; [done|]. by apply (inv_read k q ts hist i (DHeadIx h) Hinv Hi _ None).
  - destruct (q_ok_get k q h Hq Hp) as (nd & Hn & ->). rewrite bind_Ok. eexists _, _, None. split; [done|]. by apply (inv_read k q ts hist i (DTailIx h hi) Hinv Hi _ None).
  - destruct (q_ok_get k q h Hq Hp) as (nd & Hn & ->). rewrite bind_Ok. case_match; eexists _, _, _; (split; [done|]);
      [by apply (inv_read k q ts hist i (DEmpty h hi ti) Hinv Hi _ (Some PopEmpty))|by apply (inv_read k q ts hist i (DEmpty h hi ti) Hinv Hi _ None)].
  - destruct (q_ok_get k q h Hq Hp) as (nd & Hn & ->). rewrite bind_Ok. pose proof (ok_index _ _ Hq _ _ Hn) as Hidx.
    rewrite (wadd_1 k) by lia. destruct (Z.leb_spec SMALL_SEG_SIZE (head_index nd)); eexists _, _, None; (split; [done|]);
      (eapply (inv_index k q ts hist i (DInc h) Hinv Hi); [done|done|exact Hn|done|done|cbn; lia|cbn; lia| |done|]); cbn; rewrite ?list_lookup_insert_eq by done; try lia.
    + eexists. split; [done|]. cbn. lia.
    + done.
    + split_and!; [lia|lia|]. eexists. split; [done|]. cbn. lia.
  - destruct Hp as (nd & Hn & Hge). unfold node. rewrite Hn. cbn [deref]. rewrite bind_Ok. destruct (next nd) as [n|] eqn:Hx; eexists _, _, _; (split; [done|]).
    + apply (inv_read k q ts hist i (DNext h) Hinv Hi _ None); try done. rewrite (ok_next _ _ Hq _ _ Hn) in Hx. case_decide; [|done]. injection Hx as <-.
      split_and!; [done|done|by exists nd].
    + by apply (inv_read k q ts hist i (DNext h) Hinv Hi _ (Some PopEmpty)).
  - eexists _, _, None. split; [done|]. by apply (inv_head k q ts hist i (DCas h n) Hinv Hi).
  - destruct Hp as (Hix & nd & Hn & Hlt). unfold node. rewrite Hn. cbn [deref]. rewrite bind_Ok. destruct (q_ok_cell k q h nd ix Hq Hn Hix) as [v Hv].
    rewrite Hv. cbn [deref]. rewrite bind_Ok, is_item_test. destruct (is_item v) eqn:Hv'; cbn [negb]; eexists _, _, _; (split; [done|]).
    + apply (inv_cell k q ts hist i (DSwap h ix) Hinv Hi _ None h nd ix v SENTINEL); try done; [by intros ?? [= <- <-]|by left|]. balance.
    + apply (inv_cell k q ts hist i (DSwap h ix) Hinv Hi _ (Some PopTransient) h nd ix v SENTINEL); try done; [by intros ?? [= <- <-]|by left|]. balance.
  - eexists _, _, _. split; [done|]. by apply (inv_handle rv k q ts hist i (DErase it) Hinv Hi _ (Some (Popped it))).
  - destruct (handles q !! it) as [[n ix]|] eqn:Hh; eexists _, _, _; (split; [done|]).
    + apply (inv_read k q ts hist i (RLoad it) Hinv Hi _ None); try done. apply (ok_handles _ _ Hq) in Hh. split; [done|]. lia.
    + by apply (inv_read k q ts hist i (RLoad it) Hinv Hi _ (Some (NotRevoked it))).
  - destruct Hp as (Hit & Hlt & Hix). destruct (q_ok_get k q n Hq Hlt) as (nd & Hn & ->). rewrite bind_Ok. destruct (q_ok_cell k q n nd ix Hq Hn Hix) as [v Hv].
    rewrite Hv. cbn [deref]. rewrite bind_Ok. destruct (Z.eqb_spec v it) as [->|Hne]; eexists _, _, _; (split; [done|]).
    + apply (inv_cell k q ts hist i (RCas it n ix) Hinv Hi _ (Some (Revoked it)) n nd ix it SENTINEL); try done; [by left|]. balance.
    + by apply (inv_read k q ts hist i (RCas it n ix) Hinv Hi _ (Some (NotRevoked it))).
Qed.

Lemma tstep_inv rv k q ts hist i p : 0 ≤ k < 2 ^ 63 → inv k (mkConfig q ts hist) → ts !! i = Some p →
  ∃ p' q' e, tstep rv p q = Ok (p', q', e) ∧ inv (k + 1) (mkConfig q' (<[i := p']> ts) (hist ++ option_list e)).
Proof. intros Hk Hinv Hi. destruct p; first [by apply tstep_push|by apply tstep_pop]. Qed.

Lemma qstep_inv rv k c c' : 0 ≤ k < 2 ^ 63 → inv k c → qstep rv c c' → inv (k + 1) c'.
Proof.
  intros Hk Hinv Hs. destruct Hs as [q ts hist i p p' q' e Hi E|q ts hist i it Hi Hit|q ts hist i Hi|q ts hist i it Hi Hit].
  - destruct (tstep_inv rv k q ts hist i p Hk Hinv Hi) as (p1 & q1 & e1 & E1 & H1). rewrite E in E1. by simplify_eq.
  - by apply (inv_read k q ts hist i Idle Hinv Hi (PLoad it) (Some (Push it))).
  - rewrite <- (app_nil_r hist). by apply (inv_read k q ts hist i Idle Hinv Hi DLoad None).
  - rewrite <- (app_nil_r hist). by apply (inv_read k q ts hist i Idle Hinv Hi (RLoad it) None).
Qed.

Lemma contents_new : contents new = [].
Proof. unfold contents. cbn [nodes new fmap list_fmap concat]. rewrite app_nil_r. apply items_none. cbn [data new_empty]. by apply Forall_replicate. Qed.

Lemma inv_start m : inv 0 (start m).
Proof.
  split; cbn [start cq threads history].
  - split; cbn; try lia.
    + intros [|i] nd; cbn; [intros [= <-]|done]. by vm_compute.
    + intros [|i] nd; cbn; [intros [= <-]|done]. cbn. lia.
    + intros [|i] nd; cbn; [intros [= <-]|done]. done.
    + intros [|i] nd j v; cbn; [intros [= <-]|done]. intros Hj _. cbn [data new_empty] in Hj. unfold zeros_small in Hj. by apply lookup_replicate in Hj as [-> _].
    + intros it n ix H. done.
  - intros p Hp. apply elem_of_replicate in Hp as [-> _]. done.
  - intros [|i] nd j v; cbn; [intros [= <-]|done]. cbn. lia.
  - by left.
  - rewrite contents_new. cbn. induction m; cbn; [done|]. by rewrite IHm at 1.
Qed.

Lemma nsteps_inv rv n c c' k : nsteps (qstep rv) n c c' → inv k c → 0 ≤ k → k + Z.of_nat n < 2 ^ 63 → inv (k + Z.of_nat n) c'.
Proof.
  intros Hn. revert k. induction Hn as [c|n c1 c2 c3 Hs _ IH]; intros k Hinv Hk Hb; [by rewrite Z.add_0_r|].
  replace (k + Z.of_nat (S n)) with (k + 1 + Z.of_nat n) by lia. apply IH; [|lia|lia]. eapply qstep_inv; [|exact Hinv|exact Hs]. lia.
Qed.

(** C9: no item of the queue is lost or duplicated.  Whatever any number of
    threads do with the queue (fewer than 2^63 atomic operations in all, so
    that the counters do not wrap): every access is to a node that was allocated
    and to a cell within it (unlinked nodes are not freed in this model, see
    FaaReclaim for what happens when they are); the items pushed so far are,
    with multiplicity, those in the cells, those threads are about to push or to
    return, and those that were returned by [try_pop], by [revoke] or by a
    [try_push] that failed; and an item in a cell can still be taken: its cell
    is not behind the head, or a thread is about to empty it. *)
Theorem faa_queue_conserves (rv : bool) (m n : nat) (c : config) : nsteps (qstep rv) n (start m) c → Z.of_nat n < 2 ^ 63 →
  (∀ i p, threads c !! i = Some p → ∃ r, tstep rv p (cq c) = Ok r) ∧
  concat (pushed <$> history c) ≡ₚ contents (cq c) ++ concat (carried <$> threads c) ++ concat (returned <$> history c) ∧
  (∀ a nd j v, nodes (cq c) !! a = Some nd → data nd !! j = Some v → is_item v = true →
     ((head (cq c) ≤ a)%nat ∧ head_index nd ≤ Z.of_nat j ∨ DSwap a (Z.of_nat j) ∈ threads c) ∧ Z.of_nat j < tail_index nd).
Proof.
  intros Hn Hb. pose proof (nsteps_inv rv n _ _ 0 Hn (inv_start m)) as Hinv. cbn in Hinv. specialize (Hinv ltac:(lia) ltac:(lia)).
  pose proof (inv_q _ _ Hinv) as Hq. split; [|split; [apply Hinv|]].
  - intros i p Hi. destruct c as [q ts hist]. destruct (tstep_inv rv (Z.of_nat n) q ts hist i p) as (p' & q' & e & E & _); [lia|done|done|]. eauto.
  - intros a nd j v Ha Hj Hv. pose proof (lookup_lt_Some _ _ _ Hj) as Hlt. rewrite (ok_data _ _ Hq _ _ Ha) in Hlt. split.
    + destruct (decide (head_index nd ≤ Z.of_nat j)) as [Hle|Hgt].
      * left. split; [|done]. destruct (decide (head (cq c) ≤ a)%nat); [done|]. pose proof (ok_past _ _ Hq _ _ Ha). lia.
      * right. eapply (inv_used _ _ Hinv); [done|done|lia|]. intros ->. done.
    + destruct (decide (Z.of_nat j < tail_index nd)); [done|]. pose proof (ok_fresh _ _ Hq _ _ _ _ Ha Hj). rewrite Hv in *. naive_solver lia.
Qed.

(** ** The queue at rest *)

(** No thread is in a call. *)
Record rest (k : Z) (q : FAAQueue) : Prop := {
  rest_ok : q_ok k q;
  rest_used i nd j v : nodes q !! i = Some nd → data nd !! j = Some v → Z.of_nat j < head_index nd → v = SENTINEL;
  rest_tail : S (tail q) = length (nodes q)
}.

(** Counters at rest stay below a bound for good: a node's head index passes
    [SMALL_SEG_SIZE] only when the head leaves it or to catch up with its tail
    index, and its tail index only when the tail leaves it. *)
Definition bounded (k : Z) (q : FAAQueue) : Prop := ∀ i nd, nodes q !! i = Some nd →
  head_index nd ≤ k + (if decide (i < head q)%nat then 1 else 0) ∧ tail_index nd ≤ k + (if decide (i < tail q)%nat then 1 else 0).

Definition settled (k : Z) (q : FAAQueue) : Prop := SMALL_SEG_SIZE ≤ k < 2 ^ 62 ∧ rest (k + 1) q ∧ bounded k q.

(** How often a push, or a pop, may have to be retried: cells left to reach. *)
Definition push_retry (q : FAAQueue) : nat := match nodes q !! tail q with Some nd => Z.to_nat (SMALL_SEG_SIZE - tail_index nd) | None => 0 end.
Definition pop_retry (q : FAAQueue) : nat := sum_list_with (fun nd => Z.to_nat (SMALL_SEG_SIZE - head_index nd)) (nodes q).

Lemma bounded_node k q n nd' : bounded k q →
  head_index nd' ≤ k + (if decide (n < head q)%nat then 1 else 0) → tail_index nd' ≤ k + (if decide (n < tail q)%nat then 1 else 0) → bounded k (set_node q n nd').
Proof. intros Hb H1 H2 i x Hx. cbn in *. apply list_lookup_insert_Some in Hx as [(-> & -> & _)|[_ Hx]]; [done|by apply Hb]. Qed.

Lemma bounded_same k q q' : bounded k q → nodes q' = nodes q → head q' = head q → tail q' = tail q → bounded k q'.
Proof. intros Hb H1 H2 H3. unfold bounded. by rewrite H1, H2, H3. Qed.

Lemma settle k K q : SMALL_SEG_SIZE ≤ k < 2 ^ 62 → rest K q → bounded k q → settled k q.
Proof.
  intros Hk [[] Hu Ht] Hb. split; [done|]. split; [|done]. split; [split; try done|done|done].
  intros i nd Hi. pose proof (ok_index0 _ _ Hi). pose proof (Hb _ _ Hi). repeat case_decide; lia.
Qed.

Lemma inv_rest k c : inv k c → Forall (fun p => p = Idle) (threads c) → rest k (cq c).
Proof.
  intros Hinv Hall. assert (Hno : ∀ p, p ∈ threads c → p = Idle) by (intros p (i & Hi)%list_elem_of_lookup; by eapply (Forall_lookup_1 _ _ _ _ Hall Hi)).
  split; [apply Hinv| |].
  - intros i nd j v Hi Hj Hlt. destruct (decide (v = SENTINEL)) as [|Hne]; [done|]. by pose proof (Hno _ (inv_used _ _ Hinv _ _ _ _ Hi Hj Hlt Hne)).
  - destruct (inv_lag _ _ Hinv) as [H|[_ [it H]]]; [done|]. by apply Hno in H.
Qed.

Lemma rest_inv k q : rest k q → inv k (mkConfig q [Idle] (Push <$> contents q)).
Proof.
  intros [Hq Hu Ht]. split; cbn; try done.
  - intros p Hp. by apply list_elem_of_singleton in Hp as ->.
  - intros i nd j v Hi Hj Hlt Hv. by destruct Hv; eapply Hu.
  - by left.
  - assert (∀ l, concat (pushed <$> (Push <$> l)) = l) as -> by (intros l; induction l as [|x l IH]; cbn; congruence).
    assert (∀ l, concat (returned <$> (Push <$> l)) = []) as -> by (intros l; induction l as [|x l IH]; cbn; done). by rewrite app_nil_r.
Qed.

Lemma tstep_event rv p q p' q' e : tstep rv p q = Ok (p', q', Some e) → p' = Idle.
Proof.
  destruct p; cbn; unfold node; intros H;
    repeat (match type of H with context [deref ?x] => destruct x; cbn in H end || case_match; cbn in H); by simplify_eq.
Qed.

Lemma solo_rest rv fuel : ∀ k q p hist e q', 0 ≤ k → k + Z.of_nat fuel < 2 ^ 63 → inv k (mkConfig q [p] hist) → solo rv fuel p q = Ok (e, q') → rest (k + Z.of_nat fuel) q'.
Proof.
  assert (Hmono : ∀ a b q, a ≤ b → rest a q → rest b q).
  { intros a b q Hab [[] ? ?]. split; [split; try done|done|done]. intros i nd Hi. specialize (ok_index0 i nd Hi). lia. }
  induction fuel as [|f IH]; intros k q p hist e q' Hk Hb Hinv E; [done|]. cbn [solo] in E.
  destruct (tstep_inv rv k q [p] hist 0 p) as (p1 & q1 & e1 & E1 & H1); [lia|done|done|]. rewrite E1, bind_Ok in E. cbn in H1. destruct e1 as [e1|].
  - injection E as <- <-. apply tstep_event in E1 as ->. eapply (Hmono (k + 1)); [lia|]. apply (inv_rest _ _ H1). by repeat constructor.
  - replace (k + Z.of_nat (S f)) with (k + 1 + Z.of_nat f) by lia. eapply IH; [lia|lia|exact H1|exact E].
Qed.

Lemma solo_run rv f p q p' q' : tstep rv p q = Ok (p', q', None) → solo rv (S f) p q = solo rv f p' q'.
Proof. intros E. cbn [solo]. by rewrite E. Qed.

Lemma solo_ret rv f p q p' q' e : tstep rv p q = Ok (p', q', Some e) → solo rv (S f) p q = Ok (e, q').
Proof. intros E. cbn [solo]. by rewrite E. Qed.

Lemma node_Ok q n nd : nodes q !! n = Some nd → node q n = Ok nd.
Proof. unfold node. by intros ->. Qed.

(** Nothing lies behind the next cell of the last node. *)
Lemma rest_behind k q nd j : rest k q → nodes q !! tail q = Some nd → tail_index nd ≤ Z.of_nat j →
  items (drop j (data nd) ++ concat (data <$> drop (S (tail q)) (nodes q))) = [].
Proof.
  intros [Hq _ Ht] Hn Hj. rewrite (drop_ge (nodes q)) by lia. rewrite app_nil_r. apply items_none, Forall_lookup_2. intros i v Hi. rewrite lookup_drop in Hi.
  eapply (ok_fresh _ _ Hq); [done|done|lia].
Qed.

Lemma store_handle_same rv q it c : nodes (store_handle rv q it c) = nodes q ∧ head (store_handle rv q it c) = head q ∧ tail (store_handle rv q it c) = tail q.
Proof. unfold store_handle. by destruct rv. Qed.

Lemma push_rest rv k q it : settled k q → is_item it = true →
  ∃ e q', solo rv 8 (PLoad it) q = Ok (e, q') ∧ bounded k q' ∧
    (e = PushOk it ∧ contents q' = contents q ++ [it] ∨ e = PushErr it ∧ contents q' = contents q ∧ (push_retry q' < push_retry q)%nat).
Proof.
  intros (Hk & Hr & Hbd) Hit. assert (SMALL_SEG_SIZE = 256) by done. pose proof Hr as [Hq _ Ht]. destruct (q_ok_get _ q (tail q) Hq (ok_tail _ _ Hq)) as (nd & Hn & En).
  pose proof (ok_index _ _ Hq _ _ Hn) as Hidx. pose proof (lookup_lt_Some _ _ _ Hn) as Hlt. destruct (Hbd _ _ Hn) as [Hbh Hbt]. rewrite (decide_False (P := (tail q < tail q)%nat)) in Hbt by lia.
  rewrite (solo_run rv 7 (PLoad it) q _ _ eq_refl). set (t := tail q) in *. set (ix := tail_index nd) in *.
  set (nd1 := mkNode (head_index nd) (ix + 1) (data nd) (next nd)). set (q1 := set_node q t nd1).
  assert (Hn1 : nodes q1 !! t = Some nd1) by (cbn; by apply list_lookup_insert_eq).
  assert (Ec1 : contents q1 = contents q) by (by apply (contents_set_node q t nd)).
  destruct (Z.leb_spec SMALL_SEG_SIZE ix) as [Hge|Hsm].
  - rewrite (solo_run rv 6 (PInc it t) q (PIsTail it t) q1).
    2: { cbn [tstep]. rewrite En, bind_Ok, (wadd_1 (k + 1)) by lia. fold ix. by rewrite (proj2 (Z.leb_le _ _) Hge). }
    rewrite (solo_run rv 5 (PIsTail it t) q1 (PNext it t) q1) by (cbn; by rewrite bool_decide_eq_true_2).
    assert (Hx : next nd1 = None) by (cbn; rewrite (ok_next _ _ Hq _ _ Hn), decide_False by lia; done).
    rewrite (solo_run rv 4 (PNext it t) q1 (PNew it t) q1) by (cbn [tstep]; by rewrite (node_Ok q1 t nd1 Hn1), bind_Ok, Hx).
    rewrite (solo_run rv 3 (PNew it t) q1 _ _) by (cbn [tstep]; by rewrite (node_Ok q1 t nd1 Hn1), bind_Ok, Hx).
    rewrite (solo_ret rv 2 (PAdv it t _) _ _ _ (PushOk it)) by (cbn [tstep]; by rewrite bool_decide_eq_true_2). eexists _, _. split; [done|]. split; [|left; split; [done|]].
    { intros i x. cbn [nodes set_tail head tail set_node q1]. rewrite list_insert_insert_eq, length_insert. intros [Hx0|[Hx0 Hx1]]%lookup_app_Some.
      - apply list_lookup_insert_Some in Hx0 as [(<- & <- & _)|[Hne Hi]]; cbn [head_index tail_index nd1].
        + split; [done|]. rewrite decide_True by lia. lia.
        + pose proof (Hbd _ _ Hi). pose proof (lookup_lt_Some _ _ _ Hi). rewrite (decide_True (P := (i < length (nodes q))%nat)) by lia. repeat case_decide; lia.
      - apply list_lookup_singleton_Some in Hx1 as [_ <-]. cbn. repeat case_decide; lia. }
    unfold contents. cbn [nodes set_tail]. rewrite fmap_app, concat_app, items_app. f_equal.
    + cbn [nodes set_node q1]. rewrite list_insert_insert_eq, list_fmap_insert, list_insert_id by (by rewrite list_lookup_fmap, Hn). done.
    + cbn [fmap list_fmap concat]. rewrite app_nil_r. change (data (new_node it)) with ([it] ++ replicate 255 0). rewrite items_app, items_one by done.
      rewrite (items_none (replicate 255 0)); [done|]. by apply Forall_replicate.
  - rewrite (solo_run rv 6 (PInc it t) q (PStore it t ix) q1).
    2: { cbn [tstep]. rewrite En, bind_Ok, (wadd_1 (k + 1)) by lia. fold ix. by rewrite (proj2 (Z.leb_gt _ _) Hsm). }
    rewrite (solo_run rv 5 (PStore it t ix) q1 (PCas it t ix) _) by done. set (q2 := store_handle rv q1 it _).
    destruct (store_handle_same rv q1 it (Some (t, ix))) as (Hs2 & Hh2 & Ht2). fold q2 in Hs2, Hh2, Ht2.
    assert (Hn2 : nodes q2 !! t = Some nd1) by (by rewrite Hs2). destruct (q_ok_cell _ q t nd ix Hq Hn) as [v Hv]; [unfold ix; lia|].
    assert (Ec2 : contents q2 = contents q) by (unfold contents; rewrite Hs2; exact Ec1).
    assert (Hbd2 : bounded k q2).
    { eapply bounded_same; [|exact Hs2|exact Hh2|exact Ht2]. apply bounded_node; [done|done|]. cbn [tail_index nd1]. repeat case_decide; lia. }
    destruct (Z.eqb_spec v 0) as [->|Hne].
    + rewrite (solo_ret rv 4 (PCas it t ix) q2 Idle (set_cell q2 t nd1 ix it) (PushOk it)).
      2: { cbn [tstep]. rewrite (node_Ok q2 t nd1 Hn2), bind_Ok. change (data nd1) with (data nd). by rewrite Hv. }
      eexists _, _. split; [done|]. split; [|left; split; [done|]].
      { destruct (Hbd2 _ _ Hn2) as [Hb1 Hb2]. apply bounded_node; [exact Hbd2|exact Hb1|exact Hb2]. }
      destruct (contents_cell q2 t nd1 (Z.to_nat ix) 0 Hn2 Hv) as (b & E & Eb & E').
      unfold set_cell. rewrite (E' _ it) by done. rewrite <- Ec2, E, items_one by done. rewrite (items_zero 0) by done.
      assert (b = []) as ->; [|by rewrite !app_nil_r].
      rewrite Eb, Hs2. cbn [nodes set_node q1]. rewrite drop_insert_lt by lia. change (data nd1) with (data nd). apply (rest_behind _ q nd (S (Z.to_nat ix)) Hr Hn). fold ix. lia.
    + rewrite (solo_ret rv 4 (PCas it t ix) q2 Idle q2 (PushErr it)).
      2: { cbn [tstep]. rewrite (node_Ok q2 t nd1 Hn2), bind_Ok. change (data nd1) with (data nd). rewrite Hv. cbn [deref]. by rewrite bind_Ok, (proj2 (Z.eqb_neq v 0) Hne). }
      eexists _, _. split; [done|]. split; [done|]. right. split; [done|]. split; [done|]. unfold push_retry. rewrite Hs2, Ht2. fold t. change (tail q1) with t. rewrite Hn, Hn1. cbn. lia.
Qed.

(** Nothing lies before the next cell of the first node. *)
Lemma rest_before k q nd j : rest k q → nodes q !! head q = Some nd → Z.of_nat j ≤ head_index nd →
  items (concat (data <$> take (head q) (nodes q)) ++ take j (data nd)) = [].
Proof.
  intros [Hq Hu _] Hn Hj. rewrite items_app. rewrite (items_none (take j (data nd))), app_nil_r.
  - apply items_none, Forall_concat, Forall_fmap, Forall_lookup_2. intros i nd0 Hi. apply lookup_take_Some in Hi as [Hi Hlt]. apply Forall_lookup_2. intros j0 v Hv.
    rewrite (Hu i nd0 j0 v Hi Hv); [done|]. pose proof (ok_past _ _ Hq _ _ Hi Hlt). pose proof (lookup_lt_Some _ _ _ Hv) as Hl.
    rewrite (ok_data _ _ Hq _ _ Hi) in Hl. lia.
  - apply Forall_lookup_2. intros j0 v Hv. apply lookup_take_Some in Hv as [Hv Hlt]. rewrite (Hu _ _ _ _ Hn Hv); [done|lia].
Qed.

(** The queue is empty when the last node is used up or has nothing yet. *)
Lemma rest_empty k q nd : rest k q → nodes q !! head q = Some nd → next nd = None → tail_index nd ≤ head_index nd ∨ SMALL_SEG_SIZE ≤ head_index nd → contents q = [].
Proof.
  intros Hr Hn Hx Hlast. pose proof Hr as [Hq Hu Ht]. pose proof (ok_next _ _ Hq _ _ Hn) as Hnx. rewrite Hx in Hnx. case_decide; [done|]. pose proof (ok_head _ _ Hq).
  unfold contents. rewrite <- (take_drop_middle _ _ _ Hn), fmap_app, fmap_cons, concat_app. cbn [concat]. rewrite (drop_ge (nodes q)) by lia. cbn [fmap list_fmap concat].
  rewrite app_nil_r, items_app. pose proof (rest_before k q nd 0 Hr Hn) as Hb. rewrite take_0, app_nil_r in Hb. rewrite Hb by (pose proof (ok_index _ _ Hq _ _ Hn); lia).
  apply items_none, Forall_lookup_2. intros j v Hv. destruct (decide (Z.of_nat j < head_index nd)) as [Hlt|Hge]; [by rewrite (Hu _ _ _ _ Hn Hv Hlt)|].
  pose proof (lookup_lt_Some _ _ _ Hv) as Hl. rewrite (ok_data _ _ Hq _ _ Hn) in Hl. eapply (ok_fresh _ _ Hq); [done|done|lia].
Qed.

(** Moving the head past a node that is used up. *)
Lemma rest_advance k q nd nd1 : rest k q → nodes q !! head q = Some nd → (S (head q) < length (nodes q))%nat → SMALL_SEG_SIZE ≤ head_index nd → head_index nd ≤ k →
  nd1 = mkNode (head_index nd + 1) (tail_index nd) (data nd) (next nd) → rest (k + 1) (set_head (set_node q (head q) nd1) (S (head q))).
Proof.
  intros [Hq Hu Ht] Hn Hlt Hge Hk ->. pose proof (ok_index _ _ Hq _ _ Hn) as Hidx. set (nd1 := mkNode _ _ _ _).
  assert (Hq1 : q_ok (k + 1) (set_node q (head q) nd1)).
  { eapply q_ok_node; [done|exact Hn|done|done|cbn; lia|cbn; lia|]. intros j v Hj Htj. by eapply (ok_fresh _ _ Hq). }
  destruct Hq1.
  split; [split; try done|..].
  - cbn. by rewrite length_insert.
  - cbn. intros i nd0 Hi Hlt'. cbn in ok_past0. destruct (decide (i = head q)) as [->|]; [|eapply ok_past0; [exact Hi|lia]].
    rewrite list_lookup_insert_eq in Hi by (by eapply lookup_lt_Some). injection Hi as <-. cbn. lia.
  - cbn. intros i nd0 j v Hi Hj Hlt'. apply list_lookup_insert_Some in Hi as [(<- & <- & _)|[_ Hi]]; [|by eapply Hu]. cbn in *. eapply Hu; [done|done|].
    pose proof (lookup_lt_Some _ _ _ Hj) as Hl. rewrite (ok_data _ _ Hq _ _ Hn) in Hl. lia.
  - cbn. by rewrite length_insert.
Qed.

(** A call from rest ends at rest. *)
Lemma solo_settled rv fuel k q p e q' : settled k q → p = DLoad ∨ (∃ it, p = PLoad it ∧ is_item it = true) ∨ (∃ it, p = RLoad it ∧ is_item it = true) → Z.of_nat fuel < 2 ^ 61 →
  solo rv fuel p q = Ok (e, q') → bounded k q' → settled k q'.
Proof.
  intros (Hk & Hr & _) Hp Hf E Hb. assert (SMALL_SEG_SIZE = 256) by done.
  assert (∃ hist, inv (k + 1 + 1) (mkConfig q [p] hist)) as [hist Hinv].
  { pose proof (rest_inv _ _ Hr) as H1. destruct Hp as [->|[(it & -> & Hit)|(it & -> & Hit)]]; eexists; (eapply qstep_inv; [|exact H1|]; [lia|]);
      [by apply (step_pop rv q [Idle] _ 0)|by apply (step_push rv q [Idle] _ 0)|by apply (step_revoke rv q [Idle] _ 0)]. }
  eapply settle; [done| |done]. eapply solo_rest; [| |exact Hinv|exact E]; lia.
Qed.

(** What a pop may answer, and what it leaves. *)
Definition pop_result (q : FAAQueue) (e : event) (q' : FAAQueue) : Prop :=
  (∃ x, e = Popped x ∧ contents q = x :: contents q' ∧ (pop_retry q' ≤ pop_retry q)%nat) ∨
  (e = PopEmpty ∧ contents q = [] ∧ contents q' = [] ∧ (pop_retry q' ≤ pop_retry q)%nat) ∨
  (e = PopTransient ∧ contents q' = contents q ∧ (pop_retry q' < pop_retry q)%nat).

(** One round of [try_pop] answers, or moves the head by a node. *)
Section PopRound.
  Context (rv : bool) (k : Z) (q : FAAQueue) (nd : FAANode).
  Hypothesis (Hset : settled k q) (Hn : nodes q !! head q = Some nd).

Let h := head q.
Let hi := head_index nd.
Let nd1 := mkNode (hi + 1) (tail_index nd) (data nd) (next nd).
Let q1 := set_node q h nd1.

Definition answers : Prop := ∃ e q', (∀ f, solo rv (7 + f) DLoad q = Ok (e, q')) ∧ settled k q' ∧ pop_result q e q'.

Definition moves (q2 : FAAQueue) : Prop :=
  (∀ f, solo rv (7 + f) DLoad q = solo rv f DLoad q2) ∧ settled k q2 ∧ contents q2 = contents q ∧ (pop_retry q2 ≤ pop_retry q)%nat ∧
  length (nodes q2) = length (nodes q) ∧ head q2 = S (head q).

Lemma answers_intro e q' : (∀ f, solo rv (7 + f) DLoad q = Ok (e, q')) → bounded k q' → pop_result q e q' → answers.
Proof. intros E Hb Hres. exists e, q'. split_and!; [done| |done]. eapply (solo_settled rv 7); [done|by left|lia|exact (E 0%nat)|done]. Qed.

Lemma round_facts : node q h = Ok nd ∧ (h < length (nodes q))%nat ∧ 0 ≤ hi ≤ k ∧ tail_index nd ≤ k + 1 ∧ (tail_index nd ≤ k ∨ next nd ≠ None) ∧ SMALL_SEG_SIZE = 256 ∧ k < 2 ^ 62.
Proof.
  destruct Hset as (Hk & Hr & Hbd). pose proof (ok_index _ _ (rest_ok _ _ Hr) _ _ Hn). destruct (Hbd _ _ Hn) as [H1 H2].
  rewrite decide_False in H1 by lia. fold hi in H1. pose proof (ok_next _ _ (rest_ok _ _ Hr) _ _ Hn) as Hx. pose proof (rest_tail _ _ Hr).
  pose proof (lookup_lt_Some _ _ _ Hn) as Hl. assert (Hl' : (h < length (nodes q))%nat) by exact Hl.
  split_and!; [by apply node_Ok|exact Hl'|lia|lia|case_decide; lia| |done|lia]. rewrite Hx. repeat case_decide; [by right|left; lia..].
Qed.

Lemma round_start f : solo rv (7 + f) DLoad q = solo rv (4 + f) (DEmpty h hi (tail_index nd)) q.
Proof.
  destruct round_facts as [En _]. cbn [Nat.add]. rewrite (solo_run rv _ DLoad q _ _ eq_refl). fold h.
  rewrite (solo_run rv _ (DHeadIx h) q (DTailIx h hi) q) by (cbn [tstep]; by rewrite En).
  by rewrite (solo_run rv _ (DTailIx h hi) q (DEmpty h hi (tail_index nd)) q) by (cbn [tstep]; by rewrite En).
Qed.

Lemma round_inc f : (tail_index nd <=? hi) && bool_decide (next nd = None) = false →
  solo rv (7 + f) DLoad q = solo rv (2 + f) (if SMALL_SEG_SIZE <=? hi then DNext h else DSwap h hi) q1.
Proof.
  intros Hne. destruct round_facts as (En & _ & Hhi & _ & _ & _ & Hk). rewrite round_start. cbn [Nat.add].
  rewrite (solo_run rv _ (DEmpty h hi (tail_index nd)) q (DInc h) q) by (cbn [tstep]; by rewrite En, bind_Ok, Hne).
  apply solo_run. cbn [tstep]. rewrite En, bind_Ok, (wadd_1 k) by (fold hi; lia). fold hi. by destruct (SMALL_SEG_SIZE <=? hi).
Qed.

Lemma round_empty : tail_index nd ≤ hi → next nd = None → answers.
Proof.
  intros H1 H2. destruct round_facts as (En & _). destruct Hset as (_ & Hr & Hbd). apply (answers_intro PopEmpty q); [|done|].
  - intros f. rewrite round_start. apply (solo_ret rv _ _ _ Idle). cbn [tstep]. by rewrite En, bind_Ok, (proj2 (Z.leb_le _ _) H1), H2.
  - right; left. by rewrite (rest_empty _ q nd Hr Hn H2 (or_introl H1)).
Qed.

Lemma q1_facts : nodes q1 !! h = Some nd1 ∧ contents q1 = contents q ∧
  (pop_retry q1 + Z.to_nat (SMALL_SEG_SIZE - hi) = pop_retry q + Z.to_nat (SMALL_SEG_SIZE - (hi + 1)))%nat.
Proof.
  split_and!.
  - cbn. apply list_lookup_insert_eq. by eapply lookup_lt_Some.
  - by apply (contents_set_node q h nd).
  - exact (sum_list_with_insert (fun nd => Z.to_nat (SMALL_SEG_SIZE - head_index nd)) (nodes q) h nd nd1 Hn).
Qed.

(** The head node is used up. *)
Lemma round_past : SMALL_SEG_SIZE ≤ hi → hi < tail_index nd ∨ next nd ≠ None →
  answers ∨ ∃ q2, moves q2.
Proof.
  intros Hge Hne. destruct round_facts as (En & Hlt & Hhi & Ht1 & Ht2 & H256 & Hk). destruct q1_facts as (Hn1 & Ec1 & Er1).
  pose proof Hset as (_ & Hr & Hbd). pose proof (ok_next _ _ (rest_ok _ _ Hr) _ _ Hn) as Hnx. fold h in Hnx.
  assert (Hstep : ∀ f, solo rv (7 + f) DLoad q = solo rv (2 + f) (DNext h) q1).
  { intros f. rewrite round_inc; [by rewrite (proj2 (Z.leb_le _ _) Hge)|]. apply andb_false_iff. rewrite Z.leb_gt, bool_decide_eq_false. naive_solver. }
  case_decide as Hlast.
  - right. exists (set_head q1 (S h)). split_and!; [|eapply (settle k (k + 1 + 1)); [apply Hset| |]|exact Ec1|unfold pop_retry in *; cbn in *; lia|cbn; by rewrite length_insert|done].
    + intros f. rewrite Hstep. cbn [Nat.add]. rewrite (solo_run rv _ (DNext h) q1 (DCas h (S h)) q1) by (cbn [tstep]; rewrite (node_Ok q1 h nd1 Hn1), bind_Ok; cbn [next nd1]; by rewrite Hnx).
      apply solo_run. cbn [tstep]. by rewrite bool_decide_eq_true_2.
    + apply (rest_advance (k + 1) q nd nd1 Hr Hn); [done|done|fold hi; lia|done].
    + intros i x Hx. cbn in Hx |- *. apply list_lookup_insert_Some in Hx as [(<- & <- & _)|[_ Hx]].
      * cbn. rewrite decide_True by lia. split; [lia|]. apply (Hbd _ _ Hn).
      * pose proof (Hbd _ _ Hx). repeat case_decide; lia.
  - left. apply (answers_intro PopEmpty q1).
    + intros f. rewrite Hstep. apply (solo_ret rv _ _ _ Idle). cbn [tstep]. rewrite (node_Ok q1 h nd1 Hn1), bind_Ok. cbn [next nd1]. by rewrite Hnx.
    + destruct (Hbd _ _ Hn). apply bounded_node; [done| |done]. cbn [head_index nd1]. destruct Hne as [Hne|], Ht2 as [Ht2|]; try done. repeat case_decide; lia.
    + right; left. rewrite Ec1, (rest_empty _ q nd Hr Hn Hnx) by (by right). split_and!; try done. lia.
Qed.

(** A cell of the head node is taken. *)
Lemma round_swap : hi < SMALL_SEG_SIZE → hi < tail_index nd ∨ next nd ≠ None → answers.
Proof.
  intros Hsm Hne. destruct round_facts as (En & Hlt & Hhi & Ht1 & Ht2 & H256 & Hk). destruct q1_facts as (Hn1 & Ec1 & Er1). pose proof Hset as (Hkk & Hr & Hbd).
  assert (Hstep : ∀ f, solo rv (7 + f) DLoad q = solo rv (2 + f) (DSwap h hi) q1).
  { intros f. rewrite round_inc; [by rewrite (proj2 (Z.leb_gt _ _) Hsm)|]. apply andb_false_iff. rewrite Z.leb_gt, bool_decide_eq_false. naive_solver. }
  destruct (q_ok_cell _ q h nd hi (rest_ok _ _ Hr) Hn) as [v Hv]; [lia|]. set (q2 := set_cell q1 h nd1 hi SENTINEL).
  assert (Hsw : tstep rv (DSwap h hi) q1 = if is_item v then Ok (DErase v, q2, None) else Ok (Idle, q2, Some PopTransient)).
  { cbn [tstep]. rewrite (node_Ok q1 h nd1 Hn1), bind_Ok. change (data nd1) with (data nd). rewrite Hv. cbn [deref]. rewrite bind_Ok, is_item_test. by destruct (is_item v). }
  pose proof (rest_before _ q nd (Z.to_nat hi) Hr Hn) as Hbf. fold h hi in Hbf. specialize (Hbf ltac:(lia)).
  destruct (contents_cell q1 h nd1 (Z.to_nat hi) v Hn1 Hv) as (b & E & _ & E'). cbn [nodes q1 set_node] in E, E'. rewrite take_insert_ge in E, E' by lia.
  change (data nd1) with (data nd) in E, E'. rewrite Hbf in E, E'.
  assert (E1 : contents q = items [v] ++ b) by (by rewrite <- Ec1, E).
  assert (E2 : contents q2 = b).
  { unfold q2, set_cell. rewrite (E' _ SENTINEL) by done. by rewrite (items_zero SENTINEL). }
  assert (Hb2 : bounded k q2).
  { destruct (Hbd _ _ Hn). apply bounded_node; [apply bounded_node; [done| |done]| |done]; cbn [head_index nd1]; repeat case_decide; lia. }
  assert (Er2 : (pop_retry q2 < pop_retry q)%nat).
  { pose proof (sum_list_with_insert (fun nd => Z.to_nat (SMALL_SEG_SIZE - head_index nd)) (nodes q1) h nd1 (mkNode (head_index nd1) (tail_index nd1) (<[Z.to_nat hi:=SENTINEL]> (data nd1)) (next nd1)) Hn1) as Hs.
    change (sum_list_with _ (<[h:=_]> (nodes q1))) with (pop_retry q2) in Hs. change (sum_list_with _ (nodes q1)) with (pop_retry q1) in Hs. cbn [head_index] in Hs. lia. }
  destruct (is_item v) eqn:Eit.
  - destruct (store_handle_same rv q2 v None) as (S1 & S2 & S3). apply (answers_intro (Popped v) (store_handle rv q2 v None)); [|by eapply bounded_same|].
    + intros f. rewrite Hstep. cbn [Nat.add]. rewrite (solo_run _ _ _ _ _ _ Hsw). by apply (solo_ret rv _ _ _ Idle).
    + left. exists v. split; [done|]. split; [|unfold pop_retry at 1; rewrite S1; fold (pop_retry q2); lia].
      rewrite E1, items_one by done. cbn. f_equal. rewrite <- E2. unfold contents. by rewrite S1.
  - apply (answers_intro PopTransient q2); [|done|].
    + intros f. rewrite Hstep. by apply (solo_ret rv _ _ _ Idle).
    + right; right. split_and!; [done| |done]. by rewrite E2, E1, items_zero.
Qed.
End PopRound.

Lemma pop_round rv k q : settled k q → answers rv k q ∨ ∃ q2, moves rv k q q2.
Proof.
  intros Hs. destruct (lookup_lt_is_Some_2 (nodes q) (head q)) as [nd Hn]; [apply Hs|].
  destruct (decide (tail_index nd ≤ head_index nd)) as [Hle|Hgt]; [destruct (next nd) as [n|] eqn:Hx|]; [|left; by eapply round_empty|].
  all: assert (Hne : head_index nd < tail_index nd ∨ next nd ≠ None) by (first [left; lia|right; by rewrite Hx]).
  all: destruct (decide (SMALL_SEG_SIZE ≤ head_index nd)); [by eapply round_past|left; eapply round_swap; [done|done|lia|done]].
Qed.

Lemma pop_rest rv k d : ∀ q, settled k q → (length (nodes q) = head q + S d)%nat →
  ∃ e q', solo rv (7 * S d) DLoad q = Ok (e, q') ∧ settled k q' ∧ pop_result q e q'.
Proof.
  induction d as [|d IH]; intros q Hs Hd.
  all: destruct (pop_round rv k q Hs) as [(e & q' & E & H)|(q2 & E & Hs2 & Ec & Er & El & Eh)].
  - exists e, q'. split; [exact (E 0%nat)|done].
  - pose proof (ok_head _ _ (rest_ok _ _ (proj1 (proj2 Hs2)))). lia.
  - exists e, q'. split; [|done]. replace (7 * S (S d))%nat with (7 + 7 * S d)%nat by lia. apply E.
  - destruct (IH q2 Hs2) as (e & q' & E' & Hs' & Hr); [lia|]. exists e, q'. replace (7 * S (S d))%nat with (7 + 7 * S d)%nat by lia. rewrite E.
    split_and!; [done|done|]. unfold pop_result in *. rewrite Ec in Hr. naive_solver lia.
Qed.

Lemma reach_settled rv m n c : nsteps (qstep rv) n (start m) c → Z.of_nat n < 2 ^ 61 → Forall (fun p => p = Idle) (threads c) → settled (2 ^ 61) (cq c).
Proof.
  intros Hn Hb Hidle. pose proof (nsteps_inv rv n _ _ 0 Hn (inv_start m)) as Hinv. cbn in Hinv. specialize (Hinv ltac:(lia) ltac:(lia)).
  pose proof (inv_rest _ _ Hinv Hidle) as Hr. eapply settle; [by split|done|]. intros i nd Hi. pose proof (ok_index _ _ (rest_ok _ _ Hr) _ _ Hi).
  repeat case_decide; lia.
Qed.

Lemma settled_push rv k q it : settled k q → is_item it = true → ∃ e q', try_push rv 8 it q = Ok (e, q') ∧ settled k q' ∧
  (e = PushOk it ∧ contents q' = contents q ++ [it] ∨ e = PushErr it ∧ contents q' = contents q ∧ (push_retry q' < push_retry q)%nat).
Proof.
  intros Hs Hit. destruct (push_rest rv k q it Hs Hit) as (e & q' & E & Hb & Hr). exists e, q'. unfold try_push. rewrite Hit. split_and!; [done| |done].
  eapply (solo_settled rv 8); [done|right; left; by exists it|lia|exact E|done].
Qed.

(** The fuel of a pop: 7 operations for each node. *)
Lemma settled_pop rv k q : settled k q → ∃ e q', try_pop rv (7 * (length (nodes q) - head q)) q = Ok (e, q') ∧ settled k q' ∧ pop_result q e q'.
Proof.
  intros Hs. pose proof (ok_head _ _ (rest_ok _ _ (proj1 (proj2 Hs)))). destruct (pop_rest rv k (length (nodes q) - head q - 1) q Hs) as (e & q' & E & H'); [lia|].
  exists e, q'. split; [|done]. rewrite <- E. unfold try_pop. f_equal. lia.
Qed.

(** A revocation takes two operations. *)
Lemma settled_revoke rv k q it : settled k q → is_item it = true → ∃ e q', revoke rv 2 it q = Ok (e, q') ∧ settled k q' ∧
  (e = Revoked it ∧ contents q ≡ₚ it :: contents q' ∨ e = NotRevoked it ∧ contents q' = contents q) ∧ pop_retry q' = pop_retry q.
Proof.
  intros Hs Hit. pose proof Hs as (_ & Hr & Hbd). unfold revoke. rewrite Hit. cbn [rassert]. rewrite bind_Ok.
  assert (Hend : ∀ e q', solo rv 2 (RLoad it) q = Ok (e, q') → bounded k q' → settled k q').
  { intros e q' E Hb. eapply (solo_settled rv 2); [done|right; right; by exists it|lia|exact E|exact Hb]. }
  destruct (handles q !! it) as [[n ix]|] eqn:Eh.
  2: { assert (E : solo rv 2 (RLoad it) q = Ok (NotRevoked it, q)) by (apply (solo_ret rv 1 _ _ Idle); cbn [tstep]; by rewrite Eh).
       exists (NotRevoked it), q. split_and!; [done|by eapply Hend|by right|done]. }
  destruct (ok_handles _ _ (rest_ok _ _ Hr) _ _ _ Eh) as [Hn Hix]. destruct (q_ok_get _ q n (rest_ok _ _ Hr) Hn) as (nd & Hnd & En).
  destruct (q_ok_cell _ q n nd ix (rest_ok _ _ Hr) Hnd Hix) as [v Hv].
  assert (E1 : solo rv 2 (RLoad it) q = solo rv 1 (RCas it n ix) q) by (apply solo_run; cbn [tstep]; by rewrite Eh). rewrite E1 in *.
  destruct (Z.eqb_spec v it) as [->|Hne].
  - set (q' := set_cell q n nd ix SENTINEL).
    assert (E : solo rv 1 (RCas it n ix) q = Ok (Revoked it, q')) by (apply (solo_ret rv 0 _ _ Idle); cbn [tstep]; rewrite En, bind_Ok, Hv; cbn [deref]; by rewrite bind_Ok, Z.eqb_refl).
    exists (Revoked it), q'. destruct (contents_cell q n nd (Z.to_nat ix) it Hnd Hv) as (b & Eb & _ & E').
    split_and!; [done|eapply Hend; [exact E|]| |].
    + destruct (Hbd _ _ Hnd) as [Hb1 Hb2]. by apply bounded_node.
    + left. split; [done|]. unfold q', set_cell. rewrite (E' _ SENTINEL) by done. rewrite Eb, items_one, (items_zero SENTINEL) by done. symmetry. apply Permutation_middle.
    + unfold pop_retry, q', set_cell. cbn [nodes set_node].
      pose proof (sum_list_with_insert (fun nd => Z.to_nat (SMALL_SEG_SIZE - head_index nd)) (nodes q) n nd (mkNode (head_index nd) (tail_index nd) (<[Z.to_nat ix:=SENTINEL]> (data nd)) (next nd)) Hnd) as Hsum. cbn [head_index] in Hsum. lia.
  - assert (E : solo rv 1 (RCas it n ix) q = Ok (NotRevoked it, q)) by (apply (solo_ret rv 0 _ _ Idle); cbn [tstep]; rewrite En, bind_Ok, Hv; cbn [deref]; by rewrite bind_Ok, (proj2 (Z.eqb_neq v it) Hne)).
    exists (NotRevoked it), q. split_and!; [done|by eapply Hend|by right|done].
Qed.

(** C12: between calls the queue is first-in, first-out.  When no thread is in a
    call the queue is settled, and then stays so: a push needs at most 8 atomic
    operations and a pop at most 7 for each node from the head on; a push puts
    the item behind all others, or gives it back and changes nothing; a pop
    returns the oldest item, or answers that the queue is empty, which it is, or
    asks to retry and changes nothing. *)
Theorem faa_queue_fifo (rv : bool) :
  (∀ m n c, nsteps (qstep rv) n (start m) c → Z.of_nat n < 2 ^ 61 → Forall (fun p => p = Idle) (threads c) → settled (2 ^ 61) (cq c)) ∧
  (∀ k q it, settled k q → is_item it = true → ∃ e q', try_push rv 8 it q = Ok (e, q') ∧ settled k q' ∧
     (e = PushOk it ∧ contents q' = contents q ++ [it] ∨ e = PushErr it ∧ contents q' = contents q)) ∧
  (∀ k q, settled k q → ∃ e q', try_pop rv (7 * (length (nodes q) - head q)) q = Ok (e, q') ∧ settled k q' ∧
     ((∃ x, e = Popped x ∧ contents q = x :: contents q') ∨ (e = PopEmpty ∧ contents q = [] ∧ contents q' = []) ∨ (e = PopTransient ∧ contents q' = contents q))).
Proof.
  split; [|split].
  - intros m n c. apply reach_settled.
  - intros k q it Hs Hit. destruct (settled_push rv k q it Hs Hit) as (e & q' & E & Hs' & Hr). exists e, q'. naive_solver.
  - intros k q Hs. destruct (settled_pop rv k q Hs) as (e & q' & E & Hs' & Hr). exists e, q'. unfold pop_result in Hr. naive_solver.
Qed.

(** ** The queue as a bag *)
Section FaaBag.
  Context (rv : bool).

Definition faa_try_push (it : Z) (q : FAAQueue) : res ((unit + Z) * FAAQueue) :=
  '(e, q') ← try_push rv 8 it q;
  match e with PushOk _ => Ok (inl tt, q') | _ => Ok (inr it, q') end.

Definition faa_try_pop (q : FAAQueue) : res (PopResult Z * FAAQueue) :=
  '(e, q') ← try_pop rv (7 * (length (nodes q) - head q)) q;
  Ok (match e with Popped x => inl x | PopEmpty => inr Empty | _ => inr TransientFailure end, q').

#[export] Instance faa_bag : SharedWeakBag FAAQueue Z := { bag_new := new; bag_try_push := faa_try_push; bag_try_pop := faa_try_pop }.

Lemma new_settled : settled (2 ^ 61) new.
Proof. apply (reach_settled rv 0 0 (start 0)); [constructor|lia|constructor]. Qed.

Lemma contents_items q : Forall (fun it => is_item it = true) (contents q).
Proof. apply list.Forall_forall. intros x Hx. apply list_elem_of_filter in Hx as [Hx _]. by destruct (is_item x). Qed.

#[export] Program Instance faa_bag_laws : BagLaws FAAQueue Z := {
  bag_item := fun it => is_item it = true;
  bag_ok := fun q => settled (2 ^ 61) q;
  bag_contents := contents;
  push_retries := push_retry;
  pop_retries := pop_retry;
  push_limit := Z.to_nat SMALL_SEG_SIZE
}.
Next Obligation. split; [exact new_settled|exact contents_new]. Qed.
Next Obligation.
  intros q Hs. cbn. unfold push_retry. case_match eqn:Hn; [|lia]. pose proof (ok_index _ _ (rest_ok _ _ (proj1 (proj2 Hs))) _ _ Hn). lia.
Qed.
Next Obligation. intros q _. apply contents_items. Qed.
Next Obligation.
  intros q it Hs Hit. destruct (settled_push rv _ q it Hs Hit) as (e & q' & E & Hs' & [[-> Hc]|(-> & Hc & Hlt)]); cbn; unfold faa_try_push; rewrite E, bind_Ok; eexists _, _;
    (split; [done|]; split; [done|]); cbn; [by rewrite Hc, <- Permutation_cons_append|by rewrite Hc].
Qed.
Next Obligation.
  intros q Hs. destruct (settled_pop rv _ q Hs) as (e & q' & E & Hs' & [(x & -> & Hc & Hle)|[(-> & Hc & Hc' & Hle)|(-> & Hc & Hlt)]]); cbn [bag_try_pop faa_bag]; unfold faa_try_pop; rewrite E, bind_Ok; eexists _, _;
    (split; [done|]; split; [done|]); cbn; [by rewrite Hc|done|by rewrite Hc].
Qed.

Definition faa_revoke (it : Z) (q : FAAQueue) : res (bool * FAAQueue) :=
  '(e, q') ← revoke rv 2 it q;
  Ok (match e with Revoked _ => true | _ => false end, q').

#[export] Instance faa_revocable : RevocableWeakBag FAAQueue Z := faa_revoke.

#[export] Instance faa_revocable_laws : RevocableLaws FAAQueue Z.
Proof.
  intros q it Hs Hit. destruct (settled_revoke rv _ q it Hs Hit) as (e & q' & E & Hs' & Hc & Hp). unfold bag_revoke, faa_revocable, faa_revoke. rewrite E, bind_Ok.
  eexists _, _. split; [done|]. split; [done|]. cbn. split; [|lia]. destruct Hc as [[-> Hc]|[-> ->]]; done.
Qed.
End FaaBag.

(** Retrying ends.  With no other thread in a call, [push] succeeds after
    at most as many failures as the last node has cells left, and [pop] takes
    an item, or finds that there is none, after at most as many as there are
    cells ahead of the head; what they leave is settled again. *)
Theorem faa_queue_retries_end (rv : bool) (m n : nat) (c : config) : nsteps (qstep rv) n (start m) c → Z.of_nat n < 2 ^ 61 → Forall (fun p => p = Idle) (threads c) →
  (∀ it, is_item it = true → ∃ q', push (H := faa_bag rv) (S (push_retry (cq c))) it (cq c) = Ok q' ∧ settled (2 ^ 61) q' ∧ contents q' ≡ₚ it :: contents (cq c)) ∧
  (∃ o q', pop (H := faa_bag rv) (S (pop_retry (cq c))) (cq c) = Ok (o, q') ∧ settled (2 ^ 61) q' ∧ contents (cq c) ≡ₚ option_list o ++ contents q' ∧
     (o = None ↔ contents (cq c) = [])).
Proof.
  intros Hn Hb Hidle. pose proof (reach_settled rv m n c Hn Hb Hidle) as Hs. split.
  - intros it Hit. apply (push_ends (H0 := faa_bag_laws rv) _ (cq c) it Hs Hit). cbn. lia.
  - destruct (pop_ends (H0 := faa_bag_laws rv) (S (pop_retry (cq c))) (cq c) Hs) as (o & q' & E & Hs' & Hc & Hn' & _); [cbn; lia|]. exists o, q'. split_and!; [done|done|done|].
    split; [done|]. intros Hnil. cbn in Hc. rewrite Hnil in Hc. apply Permutation_nil_l in Hc. destruct o; [done|done].
Qed.

(** A run of two threads, of which one pushes. *)
Lemma sample_run : ∃ c, nsteps (qstep true) 5 (start 2) c ∧ history c = [Push 4096; PushOk 4096] ∧ threads c = [Idle; Idle].
Proof.
  eexists. split.
  - eapply nsteps_l; [apply (step_push true _ _ _ 0 4096); reflexivity|]. do 3 (eapply nsteps_l; [eapply (step_run true _ _ _ 0); reflexivity|]).
    eapply nsteps_l; [eapply (step_run true _ _ _ 0); reflexivity|]. apply nsteps_O.
  - done.
Qed.

Lemma faa_queue_conserves_witness : ∃ c, history c = [Push 4096; PushOk 4096] ∧ threads c = [Idle; Idle] ∧ contents (cq c) ≡ₚ [4096].
Proof.
  destruct sample_run as (c & Hn & Hh & Ht). exists c. split; [done|]. split; [done|].
  destruct (faa_queue_conserves true 2 5 c Hn ltac:(lia)) as (_ & Hp & _). rewrite Hh, Ht in Hp. cbn in Hp. rewrite app_nil_r in Hp. by symmetry.
Defined.

Lemma faa_queue_retries_end_witness : ∃ c, history c = [Push 4096; PushOk 4096] ∧ threads c = [Idle; Idle] ∧
  ∃ o q', pop (H := faa_bag true) (S (pop_retry (cq c))) (cq c) = Ok (o, q') ∧ (o = None ↔ contents (cq c) = []).
Proof.
  destruct sample_run as (c & Hn & Hh & Ht). exists c. split; [done|]. split; [done|].
  destruct (faa_queue_retries_end true 2 5 c Hn ltac:(lia)) as (_ & o & q' & E & _ & _ & Ho); [rewrite Ht; by repeat constructor|]. by exists o, q'.
Defined.
