(* ===== verification/FaaReclaim.v ===== *)
(** * Unlinked nodes of the queue and the epoch guards

    FaaQueue keeps every node readable.  Here unlinked nodes are reclaimed, as
    [guard.unlinked] allows ([src/bagpipe/src/queue.rs], [try_pop]): a node may
    be freed once every thread that held a guard when the head left it has
    dropped that guard.  [try_push] and [try_pop] hold a guard for the whole
    call; [revoke] takes none.  The theorems say which accesses can meet a node
    that is gone. *)

From Stdlib Require Import ZArith Lia.
From stdpp Require Import base numbers list gmap option relations.
From S2P Require Import Prelude Bag FaaQueue.

Open Scope Z_scope.

(** Whether a thread holds a guard: in [try_push] and [try_pop]. *)
Definition pinned (p : pc) : bool := match p with Idle | RLoad _ | RCas _ _ _ => false | _ => true end.

(** Whether a thread is in [try_pop]. *)
Definition popping (p : pc) : bool :=
  match p with DLoad | DHeadIx _ | DTailIx _ _ | DEmpty _ _ _ | DInc _ | DNext _ | DCas _ _ | DSwap _ _ | DErase _ => true | _ => false end.

(** The node whose memory the next operation of a thread reads or writes. *)
Definition accesses (p : pc) : option nat :=
  match p with
  | PInc _ t | PNext _ t | PNew _ t | PCas _ t _ => Some t
  | DHeadIx h | DTailIx h _ | DEmpty h _ _ | DInc h | DNext h | DSwap h _ => Some h
  | RCas _ n _ => Some n
  | _ => None
  end.

(** The threads and the queue, the position of the head when each thread took
    its guard (of use while it holds one), and the nodes that were freed. *)
Record rconfig := mkR { r_conf : config; pins : list nat; dead : list nat }.

(** The steps of the queue; a call of [try_push] or [try_pop] takes a guard.
    The head leaves nodes in order, so the nodes unlinked before a guard was
    taken are those before the head at that time; a node may be freed when it
    is unlinked and every guard in force was taken after that. *)
Inductive rstep (rv : bool) : rconfig → rconfig → Prop :=
  | r_run q ts hist ps d i p p' q' e : ts !! i = Some p → tstep rv p q = Ok (p', q', e) →
      rstep rv (mkR (mkConfig q ts hist) ps d) (mkR (mkConfig q' (<[i := p']> ts) (hist ++ option_list e)) ps d)
  | r_push q ts hist ps d i it : ts !! i = Some Idle → is_item it = true →
      rstep rv (mkR (mkConfig q ts hist) ps d) (mkR (mkConfig q (<[i := PLoad it]> ts) (hist ++ [Push it])) (<[i := head q]> ps) d)
  | r_pop q ts hist ps d i : ts !! i = Some Idle →
      rstep rv (mkR (mkConfig q ts hist) ps d) (mkR (mkConfig q (<[i := DLoad]> ts) hist) (<[i := head q]> ps) d)
  | r_revoke q ts hist ps d i it : ts !! i = Some Idle → is_item it = true →
      rstep rv (mkR (mkConfig q ts hist) ps d) (mkR (mkConfig q (<[i := RLoad it]> ts) hist) ps d)
  | r_reclaim q ts hist ps d n : (n < head q)%nat →
      (∀ i p h, ts !! i = Some p → pinned p = true → ps !! i = Some h → (n < h)%nat) →
      rstep rv (mkR (mkConfig q ts hist) ps d) (mkR (mkConfig q ts hist) ps (n :: d)).

Definition r_start (n : nat) : rconfig := mkR (start n) (replicate n 0%nat) [].

(** ** What guards protect *)

(** The nodes a guard protects are those from its head on; a pop stays there. *)
Record guard_ok (q : FAAQueue) (d : list nat) (p : pc) (h : nat) : Prop := {
  guard_head : (h ≤ head q)%nat;
  guard_dead n : n ∈ d → (n < h)%nat;
  guard_pop n : popping p = true → accesses p = Some n → (h ≤ n)%nat
}.

Record r_inv (k : Z) (c : rconfig) : Prop := {
  r_queue : inv k (r_conf c);
  r_pins : length (pins c) = length (threads (r_conf c));
  r_dead n : n ∈ dead c → (n < head (cq (r_conf c)))%nat;
  r_guard i p h : threads (r_conf c) !! i = Some p → pinned p = true → pins c !! i = Some h → guard_ok (cq (r_conf c)) (dead c) p h
}.

Lemma inv_later k c : inv k c → inv (k + 1) c.
Proof. intros []. split; try done. by apply q_ok_later. Qed.

(** A step keeps its guard or ends the call, moves the head only forward, and a
    pop goes on with the node it is at, or with the head. *)
Lemma tstep_guard rv p q p' q' e : pc_ok q p → tstep rv p q = Ok (p', q', e) →
  (head q ≤ head q')%nat ∧ (pinned p' = true → pinned p = true) ∧
  (popping p' = true → popping p = true ∧ ∀ n, accesses p' = Some n → accesses p = Some n ∨ n = head q').
Proof.
  intros Hok E. destruct p; cbn [tstep] in E; repeat (first [apply res_bind_Ok in E as (? & ? & E) | case_match]); simplify_eq; cbn in *; unfold store_handle;
    repeat case_match; simplify_eq; cbn; try lia; try (split_and!; naive_solver lia).
  apply bool_decide_eq_true in H. split; [lia|]. naive_solver.
Qed.

Lemma guard_forward q d p h q' p' : guard_ok q d p h → (head q ≤ head q')%nat →
  (popping p' = true → popping p = true ∧ ∀ n, accesses p' = Some n → accesses p = Some n ∨ n = head q') → guard_ok q' d p' h.
Proof.
  intros [H1 H2 H3] Hle Hp. split; [lia|done|]. intros n Hpop Ha. destruct (Hp Hpop) as [Hpop' Hn]. destruct (Hn n Ha) as [?| ->]; [by apply H3|lia].
Qed.

Lemma r_inv_call k q ts hist ps d i p' hist' h : r_inv k (mkR (mkConfig q ts hist) ps d) → inv (k + 1) (mkConfig q (<[i := p']> ts) hist') →
  accesses p' = None → ts !! i = Some Idle → h = head q → r_inv (k + 1) (mkR (mkConfig q (<[i := p']> ts) hist') (<[i := h]> ps) d).
Proof.
  intros [H1 H2 H3 H4] Hinv Hacc Hi ->. cbn in *. split; cbn; [done|by rewrite !length_insert|done|].
  intros j p h Hj Hp Hh. destruct (decide (i = j)) as [->|Hne].
  - rewrite list_lookup_insert_eq in Hj by (by eapply lookup_lt_Some). injection Hj as <-.
    rewrite list_lookup_insert_eq in Hh by (rewrite H2; by eapply lookup_lt_Some). injection Hh as <-. split; [done|done|congruence].
  - rewrite list_lookup_insert_ne in Hj by done. rewrite list_lookup_insert_ne in Hh by done. by eapply H4.
Qed.

Lemma rstep_inv rv k c c' : 0 ≤ k < 2 ^ 63 → r_inv k c → rstep rv c c' → r_inv (k + 1) c'.
Proof.
  intros Hk Hinv Hs. pose proof Hinv as [H1 H2 H3 H4].
  destruct Hs as [q ts hist ps d i p p' q' e Hi E|q ts hist ps d i it Hi Hit|q ts hist ps d i Hi|q ts hist ps d i it Hi Hit|q ts hist ps d n Hn Hp]; cbn in *.
  - assert (Hok : pc_ok q p) by (apply (inv_pcs _ _ H1); by eapply list_elem_of_lookup_2). destruct (tstep_guard rv p q p' q' e Hok E) as (Hle & Hpin & Hpop). split; cbn.
    + eapply (qstep_inv rv); [done|exact H1|by eapply step_run].
    + by rewrite length_insert.
    + intros n Hn. specialize (H3 n Hn). lia.
    + intros j p1 h Hj Hp1 Hh. destruct (decide (i = j)) as [->|Hne].
      * rewrite list_lookup_insert_eq in Hj by (by eapply lookup_lt_Some). injection Hj as <-. eapply guard_forward; [by eapply (H4 j p h); auto|done|done].
      * rewrite list_lookup_insert_ne in Hj by done. eapply guard_forward; [by eapply (H4 j p1 h)|done|]. intros Hpo. split; [done|]. intros n ?. by left.
  - apply (r_inv_call k q ts hist); try done. eapply (qstep_inv rv); [done|exact H1|by eapply step_push].
  - apply (r_inv_call k q ts hist); try done. eapply (qstep_inv rv); [done|exact H1|by eapply step_pop].
  - split; cbn; [eapply (qstep_inv rv); [done|exact H1|by eapply step_revoke]|by rewrite length_insert|done|]. intros j p h Hj Hp Hh.
    apply list_lookup_insert_Some in Hj as [(_ & <- & _)|[_ Hj]]; [done|]. by eapply H4.
  - split; cbn; [by apply inv_later|done| |].
    + intros x [->|Hx]%elem_of_cons; [done|by apply H3].
    + intros j p h Hj Hpi Hh. destruct (H4 j p h Hj Hpi Hh) as [G1 G2 G3]. split; [done| |done]. intros x [->|Hx]%elem_of_cons; [by eapply Hp|by apply G2].
Qed.

Lemma r_inv_start m : r_inv 0 (r_start m).
Proof.
  split; cbn; [apply inv_start|by rewrite !length_replicate|by intros n ?%elem_of_nil|]. intros i p h Hp Hpi. by apply lookup_replicate in Hp as [-> _].
Qed.

Lemma rsteps_inv rv n m c : nsteps (rstep rv) n (r_start m) c → Z.of_nat n < 2 ^ 63 → r_inv (Z.of_nat n) c.
Proof.
  assert (Hgen : ∀ n c c' k, nsteps (rstep rv) n c c' → r_inv k c → 0 ≤ k → k + Z.of_nat n < 2 ^ 63 → r_inv (k + Z.of_nat n) c').
  { clear. intros n c c' k Hn. revert k. induction Hn as [c|n c1 c2 c3 Hs _ IH]; intros k Hi Hk Hb; [by rewrite Z.add_0_r|].
    replace (k + Z.of_nat (S n)) with (k + 1 + Z.of_nat n) by lia. apply IH; [|lia|lia]. eapply rstep_inv; [|exact Hi|exact Hs]. lia. }
  intros Hn Hb. apply (Hgen n _ _ 0 Hn (r_inv_start m)); lia.
Qed.

(** C38: epoch guards protect pops.  Let unlinked nodes be freed as early as the
    guards allow, in any interleaving of fewer than 2^63 steps: [try_pop] never
    reads or writes a node that was freed, and a [try_push] can only meet one
    that the head had already left when the call began, so that the tail was
    behind the head then; no node of the queue, from the head on, is freed. *)
Theorem guards_protect_pops (rv : bool) (m n : nat) (c : rconfig) : nsteps (rstep rv) n (r_start m) c → Z.of_nat n < 2 ^ 63 →
  (∀ x, x ∈ dead c → (x < head (cq (r_conf c)))%nat) ∧
  (∀ i p x, threads (r_conf c) !! i = Some p → pinned p = true → accesses p = Some x → x ∈ dead c →
     popping p = false ∧ ∃ h, pins c !! i = Some h ∧ (x < h)%nat).
Proof.
  intros Hn Hb. destruct (rsteps_inv rv n m c Hn Hb) as [H1 H2 H3 H4]. split; [done|]. intros i p x Hi Hp Ha Hx.
  destruct (lookup_lt_is_Some_2 (pins c) i) as [h Hh]; [rewrite H2; by eapply lookup_lt_Some|]. destruct (H4 i p h Hi Hp Hh) as [G1 G2 G3]. split; [|exists h; auto].
  destruct (popping p) eqn:Epop; [|done]. specialize (G2 x Hx). specialize (G3 x eq_refl Ha). lia.
Qed.

(** ** Accesses to freed nodes *)

(** Executions, by the thread that moves next. *)
Inductive action := Run (i : nat) | CallPush (i : nat) (it : Z) | CallPop (i : nat) | CallRevoke (i : nat) (it : Z) | Reclaim (n : nat).

Definition guards_after (ts : list pc) (ps : list nat) (n : nat) : bool :=
  forallb (fun '(p, h) => negb (pinned p) || (n <? h)%nat) (zip ts ps).

Definition exec (rv : bool) (c : rconfig) (a : action) : res rconfig :=
  let 'mkR (mkConfig q ts hist) ps d := c in
  match a with
  | Run i => p ← deref (ts !! i); '(p', q', e) ← tstep rv p q; Ok (mkR (mkConfig q' (<[i := p']> ts) (hist ++ option_list e)) ps d)
  | CallPush i it =>
      _ ← rassert (is_item it);
      match ts !! i with Some Idle => Ok (mkR (mkConfig q (<[i := PLoad it]> ts) (hist ++ [Push it])) (<[i := head q]> ps) d) | _ => Fault Unreachable end
  | CallPop i => match ts !! i with Some Idle => Ok (mkR (mkConfig q (<[i := DLoad]> ts) hist) (<[i := head q]> ps) d) | _ => Fault Unreachable end
  | CallRevoke i it =>
      _ ← rassert (is_item it);
      match ts !! i with Some Idle => Ok (mkR (mkConfig q (<[i := RLoad it]> ts) hist) ps d) | _ => Fault Unreachable end
  | Reclaim n =>
      _ ← rassert ((n <? head q)%nat && guards_after ts ps n);
      Ok (mkR (mkConfig q ts hist) ps (n :: d))
  end.

Lemma guards_after_spec ts ps n i p h : guards_after ts ps n = true → ts !! i = Some p → pinned p = true → ps !! i = Some h → (n < h)%nat.
Proof.
  unfold guards_after. intros Hg Hi Hp Hh. rewrite forallb_forall in Hg. specialize (Hg (p, h)). cbn in Hg. rewrite Hp in Hg. cbn in Hg.
  apply Nat.ltb_lt, Hg, list_elem_of_In, list_elem_of_lookup. exists i. apply lookup_zip_with_Some. by exists p, h.
Qed.

Lemma exec_rstep rv c a c' : exec rv c a = Ok c' → rstep rv c c'.
Proof.
  destruct c as [[q ts hist] ps d]. destruct a as [i|i it|i|i it|n]; cbn [exec]; intros E.
  - destruct (ts !! i) as [p|] eqn:Ei; [|done]. cbn [deref] in E. rewrite bind_Ok in E. apply res_bind_Ok in E as ([[p' q'] e] & E1 & E). injection E as <-. by eapply r_run.
  - apply res_bind_Ok in E as ([] & E1%rassert_Ok & E). destruct (ts !! i) as [[]|] eqn:Ei; try done. injection E as <-. by apply r_push.
  - destruct (ts !! i) as [[]|] eqn:Ei; try done. injection E as <-. by apply r_pop.
  - apply res_bind_Ok in E as ([] & E1%rassert_Ok & E). destruct (ts !! i) as [[]|] eqn:Ei; try done. injection E as <-. by apply r_revoke.
  - apply res_bind_Ok in E as ([] & [E1%Nat.ltb_lt E2]%rassert_Ok%andb_true_iff & E). injection E as <-. apply r_reclaim; [done|]. intros i p h. by apply guards_after_spec.
Qed.

Lemma execs_rsteps rv l c c' : rfold (exec rv) l c = Ok c' → nsteps (rstep rv) (length l) c c'.
Proof.
  revert c. induction l as [|a l IH]; intros c E; cbn [rfold] in E; [injection E as <-; apply nsteps_O|].
  destruct (exec rv c a) as [c1|] eqn:E1; [|done]. eapply nsteps_l; [by eapply exec_rstep|by apply IH].
Qed.

(** Thread 0 pushes the items 8, 16, ... until the first node is full. *)
Definition item (j : nat) : Z := 8 * (Z.of_nat j + 1).
Definition whole (a : action) (i steps : nat) : list action := a :: replicate steps (Run i).

Definition filling (k : nat) (d : list Z) (hd : gmap Z (nat * Z)) (hist : list event) : rconfig :=
  mkR (mkConfig (mkQueue [mkNode 0 (Z.of_nat k) d None] 0 0 hd) (replicate 4 Idle) hist) (replicate 4 0%nat) [].

Lemma item_ok j : is_item (item j) = true.
Proof.
  unfold is_item, item. rewrite (proj2 (Z.eqb_neq _ 0)) by lia. cbn [negb andb]. destruct (Z.eqb_spec (8 * (Z.of_nat j + 1)) SENTINEL) as [E|]; [|done].
  apply (f_equal (fun z => z mod 8)) in E. by rewrite Z.mul_comm, Z_mod_mult in E.
Qed.

(** Symbolic execution: the tests that depend on the round. *)
Ltac run_step := repeat (rewrite bind_Ok || (progress cbn) || rewrite bind_Ok).

Lemma fill_step k d hd hist : (k < 256)%nat → d !! k = Some 0 →
  ∃ hist', rfold (exec true) (whole (CallPush 0 (item k)) 0 4) (filling k d hd hist) = Ok (filling (S k) (<[k := item k]> d) (<[item k := (0%nat, Z.of_nat k)]> hd) hist').
Proof.
  intros Hk Hd. eexists. cbn [whole replicate rfold exec filling]. rewrite item_ok. cbn [rassert]. run_step.
  rewrite (proj2 (Z.leb_gt SMALL_SEG_SIZE _)) by (change SMALL_SEG_SIZE with 256; lia). run_step. rewrite (wadd_1 256) by lia. unfold FaaQueue.node. run_step. rewrite Nat2Z.id, Hd. run_step.
  unfold filling, set_cell. cbn -[Z.of_nat]. rewrite Nat2Z.id. replace (Z.of_nat (S k)) with (Z.of_nat k + 1) by lia. reflexivity.
Qed.

Lemma fill_run k : (k ≤ 256)%nat → ∃ d hd hist, nsteps (rstep true) (k * 5) (r_start 4) (filling k d hd hist) ∧ length d = 256%nat ∧
  (∀ j, (j < k)%nat → d !! j = Some (item j)) ∧ (∀ j, (k ≤ j < 256)%nat → d !! j = Some 0) ∧ ((0 < k)%nat → hd !! item 0 = Some (0%nat, 0)).
Proof.
  induction k as [|k IH]; intros Hk.
  - exists zeros_small, ∅, []. split; [apply nsteps_O|]. split_and!; [done|lia| |lia]. intros j Hj. apply lookup_replicate. split; [done|]. change (Z.to_nat SMALL_SEG_SIZE) with 256%nat. lia.
  - destruct IH as (d & hd & hist & Hr & Hlen & Hd & Hz & Hh); [lia|]. destruct (fill_step k d hd hist ltac:(lia) (Hz k ltac:(lia))) as [hist' E].
    eexists _, _, hist'. split; [cbn [Nat.mul]; rewrite Nat.add_comm; eapply nsteps_trans; [exact Hr|exact (execs_rsteps _ _ _ _ E)]|]. split_and!.
    + by rewrite length_insert.
    + intros j Hj. destruct (decide (j = k)) as [->|]; [apply list_lookup_insert_eq; lia|]. rewrite list_lookup_insert_ne by done. apply Hd. lia.
    + intros j Hj. rewrite list_lookup_insert_ne by lia. apply Hz. lia.
    + intros _. destruct k as [|k]; [apply lookup_insert_eq|]. rewrite lookup_insert_ne by (unfold item; lia). apply Hh. lia.
Qed.

(** Thread 3 has read the handle of the first item and is about to revoke it;
    thread 0 has appended a second node but not moved the tail; thread 1 has
    taken [j] items of the first node. *)
Definition draining (j : nat) (d : list Z) (hd : gmap Z (nat * Z)) (hist : list event) : rconfig :=
  mkR (mkConfig (mkQueue [mkNode (Z.of_nat j) 257 d (Some 1%nat); new_node 4096] 0 0 hd) [PAdv 4096 0 1; Idle; Idle; RCas 8 0 0] hist) (replicate 4 0%nat) [].

Lemma append_step d hd hist : hd !! 8 = Some (0%nat, 0) →
  ∃ hist', rfold (exec true) (whole (CallRevoke 3 8) 3 1 ++ whole (CallPush 0 4096) 0 5) (filling 256 d hd hist) = Ok (draining 0 d hd hist').
Proof.
  intros Hh. eexists. cbn [app whole replicate rfold exec filling]. change (is_item 8) with true. change (is_item 4096) with true. cbn [rassert]. change (Z.of_nat 256) with 256. run_step.
  rewrite Hh. run_step. change (is_item 4096) with true. run_step. change (SMALL_SEG_SIZE <=? 256) with true. run_step. reflexivity.
Qed.

Lemma drain_step j d hd hist : (j < 256)%nat → d !! j = Some (item j) →
  ∃ hd' hist', rfold (exec true) (whole (CallPop 1) 1 7) (draining j d hd hist) = Ok (draining (S j) (<[j := SENTINEL]> d) hd' hist').
Proof.
  intros Hj Hd. eexists _, _. cbn [whole replicate rfold exec draining]. run_step. rewrite andb_false_r. run_step.
  rewrite (proj2 (Z.leb_gt SMALL_SEG_SIZE _)) by (change SMALL_SEG_SIZE with 256; lia). run_step. rewrite (wadd_1 256) by lia. unfold FaaQueue.node. run_step. rewrite Nat2Z.id, Hd. run_step.
  rewrite is_item_test, item_ok. run_step.
  unfold draining, set_cell. cbn -[Z.of_nat]. rewrite Nat2Z.id. replace (Z.of_nat (S j)) with (Z.of_nat j + 1) by lia. reflexivity.
Qed.

Lemma drain_run j d hd hist : (j ≤ 256)%nat → (∀ i, (i < 256)%nat → d !! i = Some (item i)) → ∃ d' hd' hist', nsteps (rstep true) (j * 8) (draining 0 d hd hist) (draining j d' hd' hist') ∧
  ∀ i, (j ≤ i < 256)%nat → d' !! i = Some (item i).
Proof.
  intros Hj Hd. induction j as [|j IH]; [exists d, hd, hist; split; [apply nsteps_O|]; intros i Hi; apply Hd; lia|].
  destruct IH as (d1 & hd1 & hist1 & Hr & Hd1); [lia|]. destruct (drain_step j d1 hd1 hist1 ltac:(lia) (Hd1 j ltac:(lia))) as (hd2 & hist2 & E).
  exists (<[j := SENTINEL]> d1), hd2, hist2. split; [cbn [Nat.mul]; rewrite Nat.add_comm; eapply nsteps_trans; [exact Hr|exact (execs_rsteps _ _ _ _ E)]|]. intros i Hi. rewrite list_lookup_insert_ne by lia. apply Hd1. lia.
Qed.

(** Thread 1 then unlinks the first node, thread 2 reads the tail, which is
    still there, and thread 0 returns: no guard is older than the unlinking. *)
Lemma unlink_step d hd hist : ∃ c, rfold (exec true) (whole (CallPop 1) 1 14 ++ whole (CallPush 2 8192) 2 1 ++ [Run 0; Reclaim 0]) (draining 256 d hd hist) = Ok c ∧
  threads (r_conf c) = [Idle; Idle; PInc 8192 0; RCas 8 0 0] ∧ pins c = [0%nat; 0%nat; 1%nat; 0%nat] ∧ dead c = [0%nat].
Proof. eexists. split; [reflexivity|]. split; [reflexivity|]. split; reflexivity. Qed.

Lemma stale_run : ∃ n c, Z.of_nat n < 2 ^ 63 ∧ nsteps (rstep true) n (r_start 4) c ∧
  threads (r_conf c) = [Idle; Idle; PInc 8192 0; RCas 8 0 0] ∧ pins c = [0%nat; 0%nat; 1%nat; 0%nat] ∧ dead c = [0%nat].
Proof.
  destruct (fill_run 256 ltac:(lia)) as (d & hd & hist & Hr & _ & Hd & _ & Hh). destruct (append_step d hd hist (Hh ltac:(lia))) as (hist1 & E1).
  destruct (drain_run 256 d hd hist1 ltac:(lia) Hd) as (d2 & hd2 & hist2 & Hr2 & _). destruct (unlink_step d2 hd2 hist2) as (c & E3 & Hc).
  eexists _, c. split; [|split; [|exact Hc]].
  2: { eapply nsteps_trans; [exact Hr|]. eapply nsteps_trans; [exact (execs_rsteps _ _ _ _ E1)|]. eapply nsteps_trans; [exact Hr2|exact (execs_rsteps _ _ _ _ E3)]. }
  cbn [app whole replicate length]. lia.
Qed.

(** C39: freed nodes can be accessed.  There is an execution in which a node is
    freed as the guards allow and, after that, [revoke], which holds no guard,
    is about to compare and swap a cell of that node (it read the handle of an
    item that was popped since), and a [try_push] that began when the tail was
    still behind the head is about to increment that node's tail index. *)
Theorem freed_nodes_accessed :
  ∃ c it it', rtc (rstep true) (r_start 4) c ∧ dead c = [0%nat] ∧ RCas it 0 0 ∈ threads (r_conf c) ∧ PInc it' 0 ∈ threads (r_conf c).
Proof.
  destruct stale_run as (n & c & _ & Hn & Ht & _ & Hdead). exists c, 8, 8192. split; [by apply (rtc_nsteps_2 n)|]. split; [exact Hdead|]. rewrite Ht. split; set_solver.
Qed.

(** ** Witness *)
Lemma guards_protect_pops_witness : ∃ c p, threads (r_conf c) !! 2%nat = Some p ∧ accesses p = Some 0%nat ∧ 0%nat ∈ dead c ∧ popping p = false ∧ (0 < head (cq (r_conf c)))%nat.
Proof.
  destruct stale_run as (n & c & Hb & Hn & Ht & Hp & Hd). assert (Hdead : 0%nat ∈ dead c) by (rewrite Hd; left).
  destruct (guards_protect_pops true 4 n c Hn Hb) as [H1 H2]. assert (Hi : threads (r_conf c) !! 2%nat = Some (PInc 8192 0)) by (rewrite Ht; reflexivity).
  destruct (H2 2%nat (PInc 8192 0) 0%nat Hi eq_refl eq_refl Hdead) as [Hpop _].
  exists c, (PInc 8192 0). split; [exact Hi|]. split; [reflexivity|]. split; [exact Hdead|]. split; [exact Hpop|exact (H1 0%nat Hdead)].
Defined.
