(* ===== verification/BagPipe.v ===== *)
(** * BagPipe: a bag made of many bags

    Models [src/bagpipe/src/lib.rs] over any [SharedWeakBag]: the shared state
    (the pipes and the counters of the size guess), the handles threads hold on
    it, and every operation of a handle.  Calls do not overlap; which handle
    calls next is arbitrary.  The default schedules are modelled, not those of
    the feature [prime_schedules]. *)

From Stdlib Require Import ZArith Lia.
From stdpp Require Import base numbers list option sorting.
From S2P Require Import Prelude Bag.

Open Scope Z_scope.

Definition THRESHOLD_DIFF : Z := 4.
Definition N_COUNTERS : Z := 4.

(** [isize]: checked addition, and wrapping for [fetch_add]. *)
Definition iadd (a b : Z) : res Z := if (- 2 ^ 63 <=? a + b) && (a + b <? 2 ^ 63) then Ok (a + b) else Fault Overflow.
Definition iwrap (x : Z) : Z := (x + 2 ^ 63) mod 2 ^ 64 - 2 ^ 63.

(** [Vec::dedup]: of a run of equal elements the first stays. *)
Fixpoint dedup (l : list Z) : list Z :=
  match l with
  | x :: ((y :: _) as l') => if x =? y then dedup l' else x :: dedup l'
  | _ => l
  end.

(** [BagPipe]: a handle.  The [Arc] on the shared state is left out. *)
Record BagPipe := mkPipe { offset : Z; stride : Z; push_failures : Z; pop_failures : Z; cur_diff : Z }.

(** [BagPipeState]: shared by the handles. *)
Record BagPipeState (B : Type) := mkState { all_refs : Z; counters : list Z; pipes : list B }.
Arguments mkState {B} all_refs counters pipes.
Arguments all_refs {B} b.
Arguments counters {B} b.
Arguments pipes {B} b.

Section Pipes.
  Context `{SharedWeakBag B Item}.
  Implicit Types st : BagPipeState B.

(** [BagPipeState::new_size] and [BagPipeState::new]. *)
Definition state_new_size (sz : Z) : res (BagPipeState B) :=
  len ← next_power_of_two sz;
  Ok (mkState 1 (replicate (Z.to_nat N_COUNTERS) 0) (replicate (Z.to_nat len) bag_new)).

(** [BagPipe::new_size_cleanup], [new_size] and, for the number of processors,
    [new]. *)
Definition new_size (size : Z) : res (BagPipe * BagPipeState B) :=
  _ ← rassert (0 <? size);
  st ← state_new_size size;
  Ok (mkPipe 1 1 0 0 0, st).
Definition new (num_cpus : Z) : res (BagPipe * BagPipeState B) :=
  n ← umul num_cpus 2;
  st ← state_new_size n;
  Ok (mkPipe 1 1 0 0 0, st).

Definition len st : Z := Z.of_nat (length (pipes st)).
Definition pipe st (ix : Z) : res B := deref (pipes st !! Z.to_nat ix).
Definition set_pipe st (ix : Z) (b : B) : BagPipeState B := mkState (all_refs st) (counters st) (<[Z.to_nat ix := b]> (pipes st)).

(** [Clone::clone]. *)
Definition clone st : res (BagPipe * BagPipeState B) :=
  let st' := mkState (wadd (all_refs st) 1) (counters st) (pipes st) in
  seed ← uadd (all_refs st) 1;
  seed2 ← umul seed 2;
  off ← uadd seed2 1;
  mask ← usub (len st) 1;
  Ok (mkPipe (Z.land off mask) off 0 0 0, st').

(** [BagPipeState::try_push_internal]: its loop, which ends with [push] when the
    push has to succeed. *)
Fixpoint try_push_loop (fuel : nat) (str : Z) (succeed_final : bool) (remaining : nat) (ix : Z) (it : Item) st : res ((bool + Item) * BagPipeState B) :=
  match remaining with
  | O => Ok (inr it, st)
  | S r =>
      mask ← usub (len st) 1;
      let ix := Z.land ix mask in
      b ← pipe st ix;
      if succeed_final && (r =? 0)%nat then
        b' ← push fuel it b;
        Ok (inl false, set_pipe st ix b')
      else
        '(x, b') ← bag_try_push it b;
        match x with
        | inl _ => Ok (inl true, set_pipe st ix b')
        | inr item => ix' ← uadd ix str; try_push_loop fuel str succeed_final r ix' item (set_pipe st ix b')
        end
  end.
Definition try_push_internal (fuel : nat) (it : Item) (off str max_failures : Z) (succeed_final : bool) st : res ((bool + Item) * BagPipeState B) :=
  _ ← rassert (is_power_of_two (len st));
  try_push_loop fuel str succeed_final (Z.to_nat max_failures) off it st.

(** [BagPipeState::try_pop_internal]: its loop.  [seen] are the pipes found
    empty, which the assertion before [Empty] compares with all pipes. *)
Fixpoint try_pop_loop (str : Z) (remaining : nat) (ix empties : Z) (seen : list Z) st : res (PopResult Item * BagPipeState B) :=
  match remaining with
  | O => Fault NoFuel
  | S r =>
      mask ← usub (len st) 1;
      let ix := Z.land ix mask in
      b ← pipe st ix;
      '(x, b') ← bag_try_pop b;
      let st' := set_pipe st ix b' in
      match x with
      | inl it => Ok (inl it, st')
      | inr status =>
          let '(empties', seen') := match status with Empty => (empties + 1, seen ++ [ix]) | TransientFailure => (0, seen) end in
          ix' ← uadd ix str;
          if (r =? 0)%nat then Ok (inr TransientFailure, st')
          else if empties' =? len st then
            _ ← rassert (bool_decide (dedup (merge_sort Z.le seen') = zrange 0 (len st)));
            Ok (inr Empty, st')
          else try_pop_loop str r ix' empties' seen' st'
      end
  end.
Definition try_pop_internal (off str max_failures : Z) st : res (PopResult Item * BagPipeState B) :=
  _ ← rassert (is_power_of_two (len st));
  _ ← rassert (0 <? max_failures);
  try_pop_loop str (Z.to_nat max_failures) off 0 [] st.

(** [push_diff] and [propagate_diff]. *)
Definition push_diff (s : BagPipe * BagPipeState B) : res (BagPipeState B) :=
  let '(bp, st) := s in
  let i := Z.to_nat (offset bp mod N_COUNTERS) in
  c ← deref (counters st !! i);
  Ok (mkState (all_refs st) (<[i := iwrap (c + cur_diff bp)]> (counters st)) (pipes st)).

Definition set_diff (bp : BagPipe) (d : Z) : BagPipe := mkPipe (offset bp) (stride bp) (push_failures bp) (pop_failures bp) d.

Definition propagate_diff (d : Z) (s : BagPipe * BagPipeState B) : res (BagPipe * BagPipeState B) :=
  let '(bp, st) := s in
  n ← iadd (cur_diff bp) d;
  let bp := set_diff bp n in
  if (THRESHOLD_DIFF <=? n) || (n <=? - THRESHOLD_DIFF) then
    st' ← push_diff (bp, st);
    Ok (set_diff bp 0, st')
  else Ok (bp, st).

(** [Drop] of a handle. *)
Definition drop_pipe (s : BagPipe * BagPipeState B) : res (BagPipeState B) := if cur_diff s.1 =? 0 then Ok s.2 else push_diff s.

(** [size_guess]. *)
Definition size_guess st : res Z := total ← rfold iadd (counters st) 0; Ok (Z.max 0 total).

(** What a failed or a successful call leaves in the handle. *)
Definition push_failed (bp : BagPipe) : res BagPipe :=
  off ← uadd (offset bp) (stride bp); n ← uadd (push_failures bp) 1; Ok (mkPipe off (stride bp) n (pop_failures bp) (cur_diff bp)).
Definition pop_failed (bp : BagPipe) : res BagPipe :=
  off ← uadd (offset bp) (stride bp); n ← uadd (pop_failures bp) 1; Ok (mkPipe off (stride bp) (push_failures bp) n (cur_diff bp)).
Definition push_done (bp : BagPipe) : BagPipe := mkPipe (offset bp) (stride bp) (Z.shiftr (push_failures bp) 1) (pop_failures bp) (cur_diff bp).
Definition pop_done (bp : BagPipe) : BagPipe := mkPipe (offset bp) (stride bp) (push_failures bp) (Z.shiftr (pop_failures bp) 1) (cur_diff bp).

(** [try_push_mut], [try_pop_mut], [push_mut]; [pop_mut] is the default. *)
Definition try_push_mut (it : Item) (s : BagPipe * BagPipeState B) : res ((unit + Item) * (BagPipe * BagPipeState B)) :=
  let '(bp, st) := s in
  n ← uadd (push_failures bp) 1;
  '(x, st') ← try_push_internal 0 it (offset bp) (stride bp) n false st;
  match x with
  | inl _ => s' ← propagate_diff 1 (push_done bp, st'); Ok (inl tt, s')
  | inr item => bp' ← push_failed bp; Ok (inr item, (bp', st'))
  end.

Definition try_pop_mut (s : BagPipe * BagPipeState B) : res (PopResult Item * (BagPipe * BagPipeState B)) :=
  let '(bp, st) := s in
  n2 ← umul (pop_failures bp) 2;
  n ← uadd n2 1;
  '(x, st') ← try_pop_internal (offset bp) (stride bp) n st;
  match x with
  | inr TransientFailure => bp' ← pop_failed bp; Ok (inr TransientFailure, (bp', st'))
  | inr Empty => Ok (inr Empty, (pop_done bp, st'))
  | inl item => s' ← propagate_diff (-1) (pop_done bp, st'); Ok (inl item, s')
  end.

Definition push_mut (fuel : nat) (it : Item) (s : BagPipe * BagPipeState B) : res (BagPipe * BagPipeState B) :=
  '(x, (bp, st)) ← try_push_mut it s;
  match x with
  | inl _ => Ok (bp, st)
  | inr it =>
      n ← uadd (push_failures bp) 1;
      '(y, st') ← try_push_internal fuel it (offset bp) (stride bp) n true st;
      match y with
      | inl true => propagate_diff 1 (push_done bp, st')
      | inl false => bp' ← push_failed bp; propagate_diff 1 (bp', st')
      | inr _ => Fault Unreachable
      end
  end.

Definition pop_mut (fuel : nat) : BagPipe * BagPipeState B → res (option Item * (BagPipe * BagPipeState B)) := pop_loop try_pop_mut fuel.

(** [bulk_add]: the loop that pushes one item, and the loop over items, which
    counts them. *)
Fixpoint bulk_push (fuel : nat) (str : Z) (cur_index : Z) (it : Item) st : res (Z * BagPipeState B) :=
  match fuel with
  | O => Fault NoFuel
  | S f =>
      mask ← usub (len st) 1;
      let ix := Z.land cur_index mask in
      b ← pipe st ix;
      '(x, b') ← bag_try_push it b;
      ix' ← uadd ix str;
      match x with
      | inl _ => Ok (ix', set_pipe st ix b')
      | inr old_item => bulk_push f str ix' old_item (set_pipe st ix b')
      end
  end.
Definition bulk_add (fuel : nat) (l : list Item) (s : BagPipe * BagPipeState B) : res (BagPipe * BagPipeState B) :=
  let '(bp, st) := s in
  '(_, n_iters, st') ← rfold (fun '(cur_index, n_iters, st) it =>
    '(ix, st) ← bulk_push fuel (stride bp) cur_index it st; n ← iadd n_iters 1; Ok (ix, n, st)) l (offset bp, 0, st);
  propagate_diff n_iters (bp, st').

(** [BagPipe::revoke]: the handle of an item leads to its cell, in whichever
    pipe that is; the counters stay. *)
Fixpoint revoke_in `{!RevocableWeakBag B Item} (it : Item) (l : list B) : res (bool * list B) :=
  match l with
  | [] => Ok (false, [])
  | b :: l' =>
      '(r, b') ← bag_revoke it b;
      if (r : bool) then Ok (true, b' :: l') else '(r', l'') ← revoke_in it l'; Ok (r', b' :: l'')
  end.
Definition revoke `{!RevocableWeakBag B Item} (it : Item) st : res (bool * BagPipeState B) :=
  '(r, l) ← revoke_in it (pipes st);
  Ok (r, mkState (all_refs st) (counters st) l).

(** [BagCleanup::cleanup_all], which the state's [Drop] calls: the items passed
    to [cleanup]. *)
Fixpoint drain (fuel : nat) (retries : nat) (b : B) : res (list Item) :=
  match fuel with
  | O => Fault NoFuel
  | S f =>
      '(o, b') ← pop retries b;
      match o with Some p => l ← drain f retries b'; Ok (p :: l) | None => Ok [] end
  end.
Definition cleanup_all (fuel retries : nat) st : res (list Item) := rfold (fun l b => l' ← drain fuel retries b; Ok (l ++ l')) (pipes st) [].
End Pipes.

(** ** Schedules *)

(** A schedule with an odd stride visits every pipe in as many steps as there
    are pipes, a power of two. *)
Lemma odd_inverse str k : 0 ≤ k → Z.odd str = true → ∃ u v, u * str + v * 2 ^ k = 1.
Proof.
  intros Hk Hodd. pattern k. revert k Hk. apply natlike_ind; [exists 0, 1; lia|]. intros k Hk (u & v & E). rewrite Z.pow_succ_r by done.
  destruct (Z.odd v) eqn:Hv.
  - assert (He : Z.odd (v - str) = false) by (by rewrite Z.odd_sub, Hv, Hodd). rewrite <- Z.negb_even, negb_false_iff in He. apply Z.even_spec in He as [w Hw].
    exists (u + 2 ^ k), w. transitivity (u * str + 2 ^ k * str + 2 * w * 2 ^ k); [ring|]. rewrite <- Hw. rewrite <- E. ring.
  - rewrite <- Z.negb_even, negb_false_iff in Hv. apply Z.even_spec in Hv as [w ->]. exists u, w. rewrite <- E. ring.
Qed.

Lemma stride_covers ix str k p : 0 ≤ k → Z.odd str = true → 0 ≤ p < 2 ^ k → ∃ j, 1 ≤ j ≤ 2 ^ k ∧ (ix - j * str) mod 2 ^ k = p.
Proof.
  intros Hk Hodd Hp. destruct (odd_inverse str k Hk Hodd) as (u & v & E). pose proof (pow2_pos k Hk). set (n := 2 ^ k) in *.
  set (j := (u * (ix - p) - 1) mod n + 1). pose proof (Z.mod_pos_bound (u * (ix - p) - 1) n). exists j. split; [unfold j; lia|].
  symmetry. pose proof (Z.div_mod (u * (ix - p) - 1) n ltac:(lia)) as Hdm. set (c := (u * (ix - p) - 1) / n) in *.
  apply (Z.mod_unique_pos _ _ (c * str + v * (ix - p))); [done|].
  assert (Hj : j = u * (ix - p) - n * c) by (unfold j; lia). rewrite Hj. replace u with (u * 1) by lia.
  transitivity ((ix - p) * (1 - u * str) + n * (c * str) + p); [ring|]. replace (1 - u * str) with (v * n) by lia. ring.
Qed.

(** [dedup] of a sorted list. *)
Lemma dedup_elem l x : x ∈ dedup l ↔ x ∈ l.
Proof.
  induction l as [|a [|b l] IH]; [done|done|]. cbn [dedup]. destruct (Z.eqb_spec a b) as [->|]; [rewrite IH, !elem_of_cons; tauto|].
  rewrite elem_of_cons, IH. by rewrite (elem_of_cons (b :: l)).
Qed.

Lemma dedup_sorted l : StronglySorted Z.le l → StronglySorted Z.lt (dedup l).
Proof.
  induction l as [|a [|b l] IH]; intros Hs; [constructor|repeat constructor|]. apply StronglySorted_inv in Hs as [Hs Ha]. cbn [dedup].
  destruct (Z.eqb_spec a b) as [->|Hne]; [by apply IH|]. constructor; [by apply IH|]. apply list.Forall_forall. intros x Hx. apply (dedup_elem (b :: l)) in Hx.
  apply StronglySorted_inv in Hs as [_ Hb]. inversion Ha; subst. apply elem_of_cons in Hx as [->|Hx]; [lia|].
  pose proof (proj1 (list.Forall_forall _ _) Hb x Hx). cbn in *. lia.
Qed.

Lemma zrange_sorted a b : StronglySorted Z.lt (zrange a b).
Proof.
  unfold zrange. remember (Z.to_nat (b - a)) as n eqn:En. clear En. generalize 0%nat as m. induction n as [|n IH]; intros m; [constructor|].
  cbn. constructor; [apply IH|]. apply list.Forall_forall. intros x (i & -> & Hi%elem_of_seq)%list_elem_of_fmap. lia.
Qed.

(** The assertion of [try_pop_internal] holds when every pipe was seen. *)
Lemma seen_all l n : (∀ x, x ∈ l ↔ 0 ≤ x < n) → dedup (merge_sort Z.le l) = zrange 0 n.
Proof.
  intros Hl. assert (Hs : StronglySorted Z.lt (dedup (merge_sort Z.le l))) by (apply dedup_sorted, StronglySorted_merge_sort; [intros ? ? ?; lia|apply _]).
  assert (Hirr : ∀ l, StronglySorted Z.lt l → NoDup l).
  { intros l0. induction 1 as [|x l0 _ IH Hx]; constructor; [|done]. intros Hin. pose proof (proj1 (list.Forall_forall _ _) Hx x Hin). lia. }
  assert (AntiSymm eq Z.lt) by (intros ? ?; lia).
  apply (StronglySorted_unique Z.lt); [done|apply zrange_sorted|]. apply NoDup_Permutation; [by apply Hirr|apply NoDup_zrange|].
  intros x. rewrite dedup_elem, merge_sort_Permutation, Hl, elem_of_zrange. done.
Qed.

(** ** The shared state *)
Section PipesOk.
  Context `{BagLaws B Item}.
  Implicit Types st : BagPipeState B.

Definition contents st : list Item := concat (bag_contents <$> pipes st).

Record st_ok st : Prop := {
  ok_len : ∃ k, 0 ≤ k < 64 ∧ len st = 2 ^ k;
  ok_pipes : Forall bag_ok (pipes st);
  ok_counters : length (counters st) = Z.to_nat N_COUNTERS
}.

(** How often calls on the pipes may have to be retried. *)
Definition push_total st : nat := sum_list_with push_retries (pipes st).
Definition pop_total st : nat := sum_list_with pop_retries (pipes st).

(** The pipe at an index of a schedule. *)
Lemma pipe_at st ix : st_ok st → ∃ b, pipes st !! Z.to_nat (ix mod len st) = Some b ∧ bag_ok b ∧ 0 ≤ ix mod len st < len st ∧
  usub (len st) 1 = Ok (len st - 1) ∧ Z.land ix (len st - 1) = ix mod len st ∧ pipe st (ix mod len st) = Ok b.
Proof.
  intros [(k & Hk & Hl) Hp _]. pose proof (pow2_pos k ltac:(lia)). pose proof (Z.mod_pos_bound ix (len st) ltac:(lia)) as Hb.
  destruct (lookup_lt_is_Some_2 (pipes st) (Z.to_nat (ix mod len st))) as [b Hlk]; [unfold len in *; lia|].
  exists b. split_and!; [done|by eapply Forall_lookup_1|lia|lia|apply usub_Ok; lia|rewrite Hl; apply land_pow2_pred; lia|unfold pipe; by rewrite Hlk].
Qed.

Lemma set_pipe_ok st j b b' : st_ok st → pipes st !! Z.to_nat j = Some b → bag_ok b' → st_ok (set_pipe st j b').
Proof.
  intros [Hl Hp Hc] Hj Hb. split; [|by apply Forall_insert|done]. destruct Hl as (k & Hk & Hl). exists k. split; [done|]. by rewrite <- Hl; unfold len; cbn; rewrite length_insert.
Qed.

Lemma set_pipe_len st j b : len (set_pipe st j b) = len st.
Proof. unfold len. cbn. by rewrite length_insert. Qed.

(** One pipe changes: what it held before and holds now. *)
Lemma set_pipe_contents st j b b' l l' : pipes st !! Z.to_nat j = Some b → l ++ bag_contents b ≡ₚ l' ++ bag_contents b' → l ++ contents st ≡ₚ l' ++ contents (set_pipe st j b').
Proof.
  intros Hj Hb. pose proof (hands_insert bag_contents (pipes st) _ b b' Hj) as Hh. unfold contents. cbn [pipes set_pipe].
  apply (Permutation_app_inv_l (bag_contents b)). trans ((l ++ bag_contents b) ++ concat (bag_contents <$> pipes st)); [solve_Permutation|]. rewrite Hb.
  trans (l' ++ (bag_contents b' ++ concat (bag_contents <$> pipes st))); [solve_Permutation|]. rewrite <- Hh. solve_Permutation.
Qed.

Lemma set_pipe_totals st j b b' : pipes st !! Z.to_nat j = Some b →
  (push_total (set_pipe st j b') + push_retries b = push_total st + push_retries b')%nat ∧ (pop_total (set_pipe st j b') + pop_retries b = pop_total st + pop_retries b')%nat.
Proof. intros Hj. split; by apply (sum_list_with_insert _ (pipes st)). Qed.

Lemma retries_le (f : B → nat) l b : b ∈ l → (f b ≤ sum_list_with f l)%nat.
Proof. induction 1 as [|? ? ? _ IH]; cbn; lia. Qed.

Lemma contents_nil st : contents st = [] ↔ ∀ j b, pipes st !! j = Some b → bag_contents b = [].
Proof.
  unfold contents. split.
  - intros Hn j b Hj. apply elem_of_nil_inv. intros x Hx. assert (Hin : x ∈ concat (bag_contents <$> pipes st)); [|rewrite Hn in Hin; by apply elem_of_nil in Hin].
    apply list_elem_of_In, in_concat. exists (bag_contents b). rewrite <- !list_elem_of_In. split; [|done]. apply list_elem_of_fmap_2. by eapply list_elem_of_lookup_2.
  - intros Ha. apply concat_nil_Forall. apply Forall_fmap, Forall_lookup_2. intros j b Hj. by eapply Ha.
Qed.

Lemma ok_is_power st : st_ok st → is_power_of_two (len st) = true.
Proof. intros [(k & Hk & ->) _ _]. apply is_power_of_two_pow2. lia. Qed.

(** A state with other pipes only. *)
Definition same_rest st st' : Prop := all_refs st' = all_refs st ∧ counters st' = counters st ∧ len st' = len st.

Lemma same_rest_set st j b : same_rest st (set_pipe st j b).
Proof. split_and!; [done|done|apply set_pipe_len]. Qed.

Lemma same_rest_step st j b st' : same_rest (set_pipe st j b) st' → same_rest st st'.
Proof. intros (H1 & H2 & H3). split_and!; [done|done|by rewrite H3, set_pipe_len]. Qed.

Lemma len_bound st : st_ok st → 1 ≤ len st ≤ 2 ^ 63.
Proof. intros [(k & Hk & ->) _ _]. pose proof (pow2_pos k ltac:(lia)). pose proof (Z.pow_le_mono_r 2 k 63). lia. Qed.

(** A push adds its item to some pipe, or every try failed. *)
Lemma try_push_loop_ok fuel str sf n : ∀ ix it st, st_ok st → bag_item it → 0 ≤ str < 2 ^ 63 → (sf = true → (push_total st < fuel)%nat) →
  ∃ r st', try_push_loop fuel str sf n ix it st = Ok (r, st') ∧ st_ok st' ∧ same_rest st st' ∧
    match r with
    | inl _ => contents st' ≡ₚ it :: contents st
    | inr it' => it' = it ∧ contents st' ≡ₚ contents st ∧ (push_total st' + n ≤ push_total st)%nat ∧ (sf = true → n = 0%nat)
    end.
Proof.
  induction n as [|n IH]; intros ix it st Hst Hit Hstr Hf; cbn [try_push_loop]; [exists (inr it), st; split_and!; try done; lia|].
  destruct (pipe_at st ix Hst) as (b & Hlk & Hb & Hj & E1 & E2 & E3). rewrite E1, bind_Ok. cbv zeta. rewrite E2, E3, bind_Ok. clear E1 E2 E3. set (j := ix mod len st) in *. pose proof (len_bound st Hst).
  destruct (sf && (n =? 0)%nat) eqn:Esf.
  - apply andb_true_iff in Esf as [-> _]. pose proof (retries_le push_retries (pipes st) b ltac:(by eapply list_elem_of_lookup_2)).
    destruct (push_ends fuel b it Hb Hit) as (b' & -> & Hb' & Hc); [unfold push_total in Hf; lia|]. rewrite bind_Ok. exists (inl false), (set_pipe st j b').
    split_and!; [done|by eapply set_pipe_ok|apply same_rest_set|]. symmetry. apply (set_pipe_contents st j b b' [it] []); [done|]. by rewrite Hc.
  - destruct (bag_push_law b it Hb Hit) as ([[]|it'] & b' & -> & Hb' & Hr); rewrite bind_Ok.
    + exists (inl true), (set_pipe st j b').
      split_and!; [done|by eapply set_pipe_ok|apply same_rest_set|]. symmetry. apply (set_pipe_contents st j b b' [it] []); [done|]. by rewrite Hr.
    + destruct Hr as (-> & Hc & Hlt). rewrite uadd_Ok, bind_Ok by lia. destruct (set_pipe_totals st j b b' Hlk) as [Ht _].
      destruct (IH (j + str) it (set_pipe st j b')) as (r & st' & E & Hst' & Hsame & Hr); [by eapply set_pipe_ok|done|done|intros Hsf; specialize (Hf Hsf); lia|].
      exists r, st'. split_and!; [done|done|by eapply same_rest_step|].
      assert (Hcc : contents (set_pipe st j b') ≡ₚ contents st) by (symmetry; apply (set_pipe_contents st j b b' [] []); [done|by cbn; rewrite Hc]).
      destruct r as [?|it']; [by rewrite Hr, Hcc|]. destruct Hr as (-> & Hc' & Hle & Hz). split_and!; [done|by rewrite Hc'|lia|].
      intros ->. rewrite (Hz eq_refl) in Esf. done.
Qed.

(** The pipes the last steps of the schedule found empty. *)
Definition emptied st (str ix empties : Z) (seen : list Z) : Prop :=
  0 ≤ empties < len st ∧ (∀ x, x ∈ seen → 0 ≤ x < len st) ∧
  ∀ j, 1 ≤ j ≤ empties → (ix - j * str) mod len st ∈ seen ∧ ∀ b, pipes st !! Z.to_nat ((ix - j * str) mod len st) = Some b → bag_contents b = [].

Lemma emptied_step st str ix empties seen b' : st_ok st → emptied st str ix empties seen → bag_contents b' = [] →
  let st' := set_pipe st (ix mod len st) b' in
  (∀ x, x ∈ seen ++ [ix mod len st] → 0 ≤ x < len st) ∧
  ∀ j, 1 ≤ j ≤ empties + 1 → (ix mod len st + str - j * str) mod len st ∈ seen ++ [ix mod len st] ∧
    ∀ b, pipes st' !! Z.to_nat ((ix mod len st + str - j * str) mod len st) = Some b → bag_contents b = [].
Proof.
  intros Hst (He & Hs & Ha) Hb st'. pose proof (len_bound st Hst). set (n := len st) in *. pose proof (Z.mod_pos_bound ix n ltac:(lia)). split.
  - intros x [Hx| ->%list_elem_of_singleton]%elem_of_app; [by apply Hs|done].
  - intros j Hj. assert (Hm : (ix mod n + str - j * str) mod n = (ix - (j - 1) * str) mod n).
    { replace (ix mod n + str - j * str) with (ix mod n - (j - 1) * str) by ring. apply Zminus_mod_idemp_l. }
    rewrite Hm. clear Hm. destruct (decide (j = 1)) as [->|Hne].
    + replace (ix - (1 - 1) * str) with ix by ring. split; [apply elem_of_app; right; by apply list_elem_of_singleton|]. intros b Hlk. cbn in Hlk.
      rewrite list_lookup_insert_eq in Hlk by (by apply lookup_lt_Some in Hlk; rewrite length_insert in Hlk). by injection Hlk as <-.
    + destruct (Ha (j - 1) ltac:(lia)) as [Hin Hc]. split; [apply elem_of_app; by left|]. intros b Hlk. cbn in Hlk.
      apply list_lookup_insert_Some in Hlk as [(_ & <- & _)|[_ Hlk]]; [done|by apply Hc].
Qed.

(** Once as many steps in a row found their pipe empty as there are pipes, the
    bag is empty and the assertion holds. *)
Lemma emptied_all st str ix seen : st_ok st → Z.odd str = true → (∀ x, x ∈ seen → 0 ≤ x < len st) →
  (∀ j, 1 ≤ j ≤ len st → (ix - j * str) mod len st ∈ seen ∧ ∀ b, pipes st !! Z.to_nat ((ix - j * str) mod len st) = Some b → bag_contents b = []) →
  contents st = [] ∧ dedup (merge_sort Z.le seen) = zrange 0 (len st).
Proof.
  intros Hst Hodd Hs Ha. pose proof Hst as [(k & Hk & Hl) _ _].
  assert (Hcov : ∀ p, 0 ≤ p < len st → ∃ j, 1 ≤ j ≤ len st ∧ (ix - j * str) mod len st = p) by (rewrite Hl; intros p; apply stride_covers; [lia|done]).
  split.
  - apply contents_nil. intros p b Hp. pose proof (lookup_lt_Some _ _ _ Hp). destruct (Hcov (Z.of_nat p)) as (j & Hj & E); [unfold len; lia|].
    apply (Ha j Hj). rewrite E. by rewrite Nat2Z.id.
  - apply seen_all. intros x. split; [apply Hs|]. intros Hx. destruct (Hcov x Hx) as (j & Hj & <-). by apply Ha.
Qed.

(** What a pop answers: an item it takes out; [Empty] for an empty bag only; and
    [TransientFailure] only while the number of tries is too small for the
    failures the pipes may still have. *)
Definition pop_answer st (n : Z) (r : PopResult Item) st' : Prop :=
  match r with
  | inl it => contents st ≡ₚ it :: contents st'
  | inr Empty => contents st = [] ∧ contents st' = []
  | inr TransientFailure => contents st' ≡ₚ contents st ∧ n ≤ (Z.of_nat (pop_total st) + 1) * len st
  end ∧ (pop_total st' ≤ pop_total st)%nat.

Lemma pop_answer_later st st1 st' n n1 r : contents st1 ≡ₚ contents st → (pop_total st1 ≤ pop_total st)%nat → pop_answer st1 n1 r st' →
  (n1 ≤ (Z.of_nat (pop_total st1) + 1) * len st1 → n ≤ (Z.of_nat (pop_total st) + 1) * len st) → pop_answer st n r st'.
Proof.
  intros Hcc Ht [Hr Hle] Hn. split; [|lia]. destruct r as [it|[]]; [by rewrite <- Hcc| |].
  - destruct Hr as [E1 E2]. split; [|done]. rewrite E1 in Hcc. by apply Permutation_nil_l in Hcc.
  - destruct Hr as [Hr1 Hr2]. split; [by rewrite Hr1|by apply Hn].
Qed.

Lemma try_pop_loop_ok str n : ∀ ix empties seen st, st_ok st → Z.odd str = true → 0 ≤ str < 2 ^ 63 → emptied st str ix empties seen → (0 < n)%nat →
  ∃ r st', try_pop_loop str n ix empties seen st = Ok (r, st') ∧ st_ok st' ∧ same_rest st st' ∧ pop_answer st (Z.of_nat n + empties) r st'.
Proof.
  induction n as [|n IH]; intros ix empties seen st Hst Hodd Hstr Hem Hn; [lia|]. clear Hn. cbn [try_pop_loop].
  destruct (pipe_at st ix Hst) as (b & Hlk & Hb & Hj & E1 & E2 & E3). rewrite E1, bind_Ok. cbv zeta. rewrite E2, E3, bind_Ok. clear E1 E2 E3.
  set (j := ix mod len st) in *. pose proof (len_bound st Hst) as Hlen.
  destruct (bag_pop_law b Hb) as (x & b' & -> & Hb' & Hr). rewrite bind_Ok. set (st1 := set_pipe st j b').
  assert (Hst1 : st_ok st1) by (by eapply set_pipe_ok). pose proof (set_pipe_len st j b') as Hl1. fold st1 in Hl1. pose proof (same_rest_set st j b') as Hsm. fold st1 in Hsm.
  destruct (set_pipe_totals st j b b' Hlk) as [_ Ht]. fold st1 in Ht. destruct Hem as (He & Hem).
  destruct x as [it|[]].
  - destruct Hr as [Hc Hle]. exists (inl it), st1. split_and!; [done|done|done|split]; [|lia]. apply (set_pipe_contents st j b b' [] [it]); [done|by cbn; rewrite Hc].
  - destruct Hr as (Hc & Hc' & Hle). rewrite uadd_Ok, bind_Ok by lia.
    assert (Hcc : contents st1 ≡ₚ contents st) by (symmetry; apply (set_pipe_contents st j b b' [] []); [done|by cbn; rewrite Hc, Hc']).
    destruct (emptied_step st str ix empties seen b' Hst (conj He Hem) Hc') as [Hs1 Ha1]. fold j in Hs1, Ha1. fold st1 in Ha1.
    destruct (Nat.eqb_spec n 0) as [->|Hn].
    + exists (inr TransientFailure), st1. split_and!; [done|done|done|]. split; [split; [done|]|lia]. nia.
    + destruct (Z.eqb_spec (empties + 1) (len st)) as [Hfull|Hne].
      * rewrite <- Hl1 in Hs1, Ha1. destruct (emptied_all st1 str (j + str) (seen ++ [j]) Hst1 Hodd Hs1) as [Hnil Hseen]; [intros i Hi; apply Ha1; lia|].
        rewrite Hl1 in Hseen. rewrite bool_decide_eq_true_2 by done. cbn. exists (inr Empty), st1. split_and!; [done|done|done|]. split; [split; [|done]|lia].
        rewrite Hnil in Hcc. by apply Permutation_nil_l in Hcc.
      * destruct (IH (j + str) (empties + 1) (seen ++ [j]) st1 Hst1 Hodd Hstr) as (r & st' & E & Hst' & Hsame & Hr); [|lia|].
        { unfold emptied. rewrite Hl1. split; [lia|done]. }
        exists r, st'. split_and!; [done|done|by eapply same_rest_step|]. eapply pop_answer_later; [exact Hcc|lia|exact Hr|intros Hr2; rewrite Hl1 in Hr2; nia].
  - destruct Hr as (Hc & Hlt). rewrite uadd_Ok, bind_Ok by lia.
    assert (Hcc : contents st1 ≡ₚ contents st) by (symmetry; apply (set_pipe_contents st j b b' [] []); [done|by cbn; rewrite Hc]).
    destruct (Nat.eqb_spec n 0) as [->|Hn].
    + exists (inr TransientFailure), st1. split_and!; [done|done|done|]. split; [split; [done|]|lia]. nia.
    + destruct (Z.eqb_spec 0 (len st)) as [Hz|Hnz]; [lia|].
      destruct (IH (j + str) 0 seen st1 Hst1 Hodd Hstr) as (r & st' & E & Hst' & Hsame & Hr); [|lia|].
      { split_and!; [lia|lia|by rewrite Hl1; apply Hem|lia]. }
      exists r, st'. split_and!; [done|done|by eapply same_rest_step|]. eapply pop_answer_later; [exact Hcc|lia|exact Hr|intros Hr2; rewrite Hl1 in Hr2; nia].
Qed.

(** ** Handles *)

(** A handle that can take [n] more failed calls without overflow. *)
Record room (n : Z) (bp : BagPipe) : Prop := {
  room_stride : Z.odd (stride bp) = true ∧ 0 ≤ stride bp < 2 ^ 63;
  room_offset : 0 ≤ offset bp ∧ offset bp + n * stride bp < 2 ^ 64;
  room_push : 0 ≤ push_failures bp ∧ push_failures bp + n < 2 ^ 62;
  room_pop : 0 ≤ pop_failures bp ∧ pop_failures bp + n < 2 ^ 62;
  room_diff : - THRESHOLD_DIFF < cur_diff bp < THRESHOLD_DIFF
}.

(** The sum of the counters and a handle's difference changes by [d], up to
    multiples of 2^64, and the sum of their magnitudes by no more. *)
Definition csum st : Z := foldr Z.add 0 (counters st).
Definition cabs st : Z := foldr Z.add 0 (Z.abs <$> counters st).
Definition balance (d : Z) (s s' : BagPipe * BagPipeState B) : Prop := ∃ z,
  csum s'.2 + cur_diff s'.1 = csum s.2 + cur_diff s.1 + d + z * 2 ^ 64 ∧ cabs s'.2 + Z.abs (cur_diff s'.1) ≤ cabs s.2 + Z.abs (cur_diff s.1) + Z.abs d.

Lemma room_mono n m bp : m ≤ n → room n bp → room m bp.
Proof. intros Hle []. split; try done; [|lia..]. split; [lia|]. nia. Qed.

Lemma iwrap_spec x : ∃ z, iwrap x = x + z * 2 ^ 64 ∧ Z.abs (iwrap x) ≤ Z.abs x.
Proof.
  unfold iwrap. pose proof (Z.div_mod (x + 2 ^ 63) (2 ^ 64) ltac:(lia)). pose proof (Z.mod_pos_bound (x + 2 ^ 63) (2 ^ 64) ltac:(lia)).
  exists (- ((x + 2 ^ 63) / 2 ^ 64)). split; [lia|]. destruct (decide (- 2 ^ 63 ≤ x < 2 ^ 63)) as [Hx|Hx]; [|lia]. rewrite (Z.mod_small (x + 2 ^ 63)) by lia. lia.
Qed.

Lemma csum_insert l i c x : l !! i = Some c → foldr Z.add 0 (<[i := x]> l) = foldr Z.add 0 l + x - c.
Proof.
  revert i. induction l as [|a l IH]; intros [|i] Hi; cbn in Hi; simplify_eq; [cbn; lia|].
  change (a + foldr Z.add 0 (<[i := x]> l) = a + foldr Z.add 0 l + x - c). rewrite (IH i) by done. lia.
Qed.

Lemma push_diff_ok bp st : st_ok st → 0 ≤ offset bp → ∃ st', push_diff (bp, st) = Ok st' ∧ st_ok st' ∧ pipes st' = pipes st ∧ all_refs st' = all_refs st ∧
  ∃ z, csum st' = csum st + cur_diff bp + z * 2 ^ 64 ∧ cabs st' ≤ cabs st + Z.abs (cur_diff bp).
Proof.
  intros [Hl Hp Hc] Ho. unfold push_diff. pose proof (Z.mod_pos_bound (offset bp) N_COUNTERS ltac:(done)).
  destruct (lookup_lt_is_Some_2 (counters st) (Z.to_nat (offset bp mod N_COUNTERS))) as [c Hlk]; [rewrite Hc; lia|]. rewrite Hlk. cbn [deref]. rewrite bind_Ok.
  eexists. split; [done|]. split; [split; [done|done|cbn; by rewrite length_insert]|]. split; [done|]. split; [done|].
  destruct (iwrap_spec (c + cur_diff bp)) as (z & Hz & Ha). exists z. unfold csum, cabs. cbn [counters]. rewrite list_fmap_insert, (csum_insert _ _ c) by done.
  rewrite (csum_insert _ _ (Z.abs c)) by (by rewrite list_lookup_fmap, Hlk). rewrite Hz in *. lia.
Qed.

Lemma propagate_diff_ok n d bp st : room n bp → st_ok st → - 2 ^ 62 < d < 2 ^ 62 →
  ∃ bp' st', propagate_diff d (bp, st) = Ok (bp', st') ∧ room n bp' ∧ st_ok st' ∧ pipes st' = pipes st ∧ all_refs st' = all_refs st ∧
    stride bp' = stride bp ∧ balance d (bp, st) (bp', st').
Proof.
  intros Hroom Hst Hd. pose proof (room_diff _ _ Hroom) as Hdiff. assert (THRESHOLD_DIFF = 4) by done. unfold propagate_diff, iadd.
  rewrite (proj2 (Z.leb_le _ _)), (proj2 (Z.ltb_lt _ _)) by lia. cbn [andb]. rewrite bind_Ok.
  destruct ((THRESHOLD_DIFF <=? cur_diff bp + d) || (cur_diff bp + d <=? - THRESHOLD_DIFF)) eqn:E.
  - destruct (push_diff_ok (set_diff bp (cur_diff bp + d)) st Hst) as (st' & -> & Hst' & Hp & Hr & z & Hz); [apply Hroom|]. rewrite bind_Ok.
    eexists _, _. split; [done|]. destruct Hroom. split_and!; [split; try done; cbn; lia|done|done|done|done|]. exists z. cbn in *. lia.
  - apply orb_false_iff in E as [E1%Z.leb_gt E2%Z.leb_gt]. eexists _, _. split; [done|]. destruct Hroom. split_and!; [split; try done; cbn; lia|done|done|done|done|].
    exists 0. cbn. lia.
Qed.

Lemma pipes_contents st st' : pipes st' = pipes st → contents st' = contents st ∧ len st' = len st ∧ push_total st' = push_total st ∧ pop_total st' = pop_total st.
Proof. intros E. unfold contents, len, push_total, pop_total. by rewrite E. Qed.

Lemma same_rest_sum st st' : same_rest st st' → csum st' = csum st ∧ cabs st' = cabs st.
Proof. intros (_ & E & _). unfold csum, cabs. by rewrite E. Qed.

Lemma push_failed_ok n bp : room (n + 1) bp → 0 ≤ n → ∃ bp', push_failed bp = Ok bp' ∧ room n bp' ∧ stride bp' = stride bp ∧ cur_diff bp' = cur_diff bp.
Proof.
  intros [] Hn. unfold push_failed. rewrite !uadd_Ok by nia. rewrite !bind_Ok. eexists. split; [done|]. split_and!; [split; cbn; [done|nia|lia|lia|done]|done|done].
Qed.

Lemma pop_failed_ok n bp : room (n + 1) bp → 0 ≤ n →
  ∃ bp', pop_failed bp = Ok bp' ∧ room n bp' ∧ stride bp' = stride bp ∧ cur_diff bp' = cur_diff bp ∧ pop_failures bp' = pop_failures bp + 1.
Proof.
  intros [] Hn. unfold pop_failed. rewrite !uadd_Ok by nia. rewrite !bind_Ok. eexists. split; [done|]. split_and!; [split; cbn; [done|nia|lia|lia|done]|done|done|done].
Qed.

Lemma shiftr_half x : 0 ≤ x → 0 ≤ Z.shiftr x 1 ≤ x.
Proof. intros Hx. rewrite Z.shiftr_div_pow2 by lia. change (2 ^ 1) with 2. pose proof (Z.div_pos x 2). pose proof (Z.div_le_upper_bound x 2 x). lia. Qed.

Lemma push_done_ok n bp : room n bp → 0 ≤ n → room n (push_done bp).
Proof. intros [] Hn. pose proof (shiftr_half (push_failures bp)). split; cbn; try done; lia. Qed.

Lemma pop_done_ok n bp : room n bp → 0 ≤ n → room n (pop_done bp).
Proof. intros [] Hn. pose proof (shiftr_half (pop_failures bp)). split; cbn; try done; lia. Qed.

(** ** The operations of a handle *)
Definition good (n : Z) (s : BagPipe * BagPipeState B) : Prop := room n s.1 ∧ st_ok s.2.
Definition kept (s s' : BagPipe * BagPipeState B) : Prop := stride s'.1 = stride s.1 ∧ all_refs s'.2 = all_refs s.2 ∧ len s'.2 = len s.2.

(** A call on the pipes that succeeded, once the difference is propagated. *)
Lemma settle_diff n d bp bp1 st st1 : room n bp1 → st_ok st1 → same_rest st st1 → stride bp1 = stride bp → cur_diff bp1 = cur_diff bp → - 2 ^ 62 < d < 2 ^ 62 →
  ∃ s', propagate_diff d (bp1, st1) = Ok s' ∧ good n s' ∧ kept (bp, st) s' ∧ pipes s'.2 = pipes st1 ∧ balance d (bp, st) s'.
Proof.
  intros Hroom Hst Hsame Hs Hc Hd. destruct (propagate_diff_ok n d bp1 st1 Hroom Hst Hd) as (bp' & st' & E & Hr' & Hst' & Hp & Ha & Hs' & z & Hz).
  exists (bp', st'). pose proof (same_rest_sum _ _ Hsame). destruct Hsame as (E1 & E2 & E3). destruct (pipes_contents st1 st' Hp) as (_ & E4 & _).
  split_and!; [done|done|split_and!; cbn; congruence|done|]. exists z. cbn in *. lia.
Qed.

Lemma try_push_mut_ok n it s : good (n + 1) s → 0 ≤ n → bag_item it →
  ∃ r s', try_push_mut it s = Ok (r, s') ∧ good n s' ∧ kept s s' ∧
    match r with
    | inl _ => contents s'.2 ≡ₚ it :: contents s.2 ∧ balance 1 s s'
    | inr it' => it' = it ∧ contents s'.2 ≡ₚ contents s.2 ∧ balance 0 s s' ∧ (push_total s'.2 < push_total s.2)%nat
    end.
Proof.
  destruct s as [bp st]. intros [Hroom Hst] Hn Hit. cbn [fst snd] in *. pose proof Hroom as [[_ Hstr] _ [Hpf0 Hpf] _ _]. unfold try_push_mut, try_push_internal.
  rewrite uadd_Ok, bind_Ok, ok_is_power by (done || lia). cbn [rassert]. rewrite bind_Ok.
  destruct (try_push_loop_ok 0 (stride bp) false (Z.to_nat (push_failures bp + 1)) (offset bp) it st Hst Hit Hstr) as (r & st1 & -> & Hst1 & Hsame & Hr); [done|]. rewrite bind_Ok.
  destruct r as [x|it'].
  - destruct (settle_diff n 1 bp (push_done bp) st st1) as (s' & -> & Hg & Hk & Hp & Hb); [apply push_done_ok; [eapply room_mono; [|done]|]; lia|done|done|done|done|lia|].
    rewrite bind_Ok. exists (inl tt), s'. split_and!; [done|done|done| |done]. by rewrite (proj1 (pipes_contents _ _ Hp)).
  - destruct Hr as (-> & Hc & Hle & _). destruct (push_failed_ok n bp Hroom Hn) as (bp' & -> & Hr' & Hs' & Hd'). rewrite bind_Ok. exists (inr it), (bp', st1).
    pose proof (same_rest_sum _ _ Hsame). destruct Hsame as (E1 & E2 & E3). split_and!; [done|done|split_and!; cbn; congruence|done|done|exists 0; cbn; lia|cbn; lia].
Qed.

Lemma try_pop_mut_ok n s : good (n + 1) s → 0 ≤ n →
  ∃ r s', try_pop_mut s = Ok (r, s') ∧ good n s' ∧ kept s s' ∧ (pop_total s'.2 ≤ pop_total s.2)%nat ∧
    match r with
    | inl it => contents s.2 ≡ₚ it :: contents s'.2 ∧ balance (-1) s s'
    | inr Empty => contents s.2 = [] ∧ contents s'.2 = [] ∧ balance 0 s s'
    | inr TransientFailure => contents s'.2 ≡ₚ contents s.2 ∧ balance 0 s s' ∧ pop_failures s'.1 = pop_failures s.1 + 1 ∧
        2 * pop_failures s.1 + 1 ≤ (Z.of_nat (pop_total s.2) + 1) * len s.2
    end.
Proof.
  destruct s as [bp st]. intros [Hroom Hst] Hn. cbn [fst snd] in *. pose proof Hroom as [[Hodd Hstr] _ _ [Hpf0 Hpf] _]. unfold try_pop_mut, try_pop_internal.
  rewrite umul_Ok, bind_Ok, uadd_Ok, bind_Ok, ok_is_power by (done || lia).
  rewrite (rassert_true (0 <? _)) by (apply Z.ltb_lt; lia). cbn [rassert]. rewrite !bind_Ok.
  pose proof (len_bound st Hst).
  destruct (try_pop_loop_ok (stride bp) (Z.to_nat (pop_failures bp * 2 + 1)) (offset bp) 0 [] st Hst Hodd Hstr) as (r & st1 & -> & Hst1 & Hsame & Hr & Hle);
    [split_and!; try lia; by intros x Hx%elem_of_nil|lia|]. rewrite bind_Ok.
  pose proof (same_rest_sum _ _ Hsame) as Hsum. pose proof Hsame as (E1 & E2 & E3).
  destruct r as [it|[]].
  - destruct (settle_diff n (-1) bp (pop_done bp) st st1) as (s' & -> & Hg & Hk & Hp & Hb); [apply pop_done_ok; [eapply room_mono; [|done]|]; lia|done|done|done|done|lia|].
    rewrite bind_Ok. destruct (pipes_contents _ _ Hp) as (Ec & _ & _ & Et). exists (inl it), s'. split_and!; [done|done|done|cbn; lia|by cbn; rewrite Ec|done].
  - destruct Hr as [Hc Hc']. exists (inr Empty), (pop_done bp, st1).
    split_and!; [done|split; [apply pop_done_ok; [eapply room_mono; [|done]; lia|done]|done]|done|done|done|done|exists 0; cbn; lia].
  - destruct Hr as [Hc Hmax]. destruct (pop_failed_ok n bp Hroom Hn) as (bp' & -> & Hr' & Hs' & Hd' & Hp'). rewrite bind_Ok. exists (inr TransientFailure), (bp', st1).
    split_and!; [done|done|split_and!; cbn; congruence|done|done|exists 0; cbn; lia|done|cbn; lia].
Qed.

Lemma push_total_bound st : st_ok st → (push_total st ≤ length (pipes st) * push_limit)%nat.
Proof.
  intros [_ Hp _]. unfold push_total. induction Hp as [|b l Hb _ IH]; cbn; [lia|]. pose proof (push_limit_law b Hb). lia.
Qed.

(** The fuel that pushes that must succeed need. *)
Definition push_fuel st : nat := S (length (pipes st) * push_limit).

Lemma push_mut_ok n fuel it s : good (n + 2) s → 0 ≤ n → bag_item it → (push_fuel s.2 ≤ fuel)%nat →
  ∃ s', push_mut fuel it s = Ok s' ∧ good n s' ∧ kept s s' ∧ contents s'.2 ≡ₚ it :: contents s.2 ∧ balance 1 s s'.
Proof.
  intros Hg Hn Hit Hfu. unfold push_mut. replace (n + 2) with (n + 1 + 1) in Hg by lia.
  destruct (try_push_mut_ok (n + 1) it s Hg ltac:(lia) Hit) as (r & [bp st] & -> & [Hroom Hst] & Hk & Hr). cbn [fst snd] in *. rewrite bind_Ok. destruct r as [[]|it'].
  - destruct Hr as [Hc Hb]. exists (bp, st). split_and!; try done. split; [eapply room_mono; [|done]; lia|done].
  - destruct Hr as (-> & Hc & [z Hb] & _). destruct Hk as (K1 & K2 & K3). cbn in K1, K2, K3, Hb. pose proof Hroom as [[_ Hstr] _ [Hpf0 Hpf] _ _]. unfold try_push_internal.
    rewrite uadd_Ok, bind_Ok, ok_is_power by (done || lia). cbn [rassert]. rewrite bind_Ok.
    destruct (try_push_loop_ok fuel (stride bp) true (Z.to_nat (push_failures bp + 1)) (offset bp) it st Hst Hit Hstr) as (r & st1 & -> & Hst1 & Hsame & Hr).
    { intros _. pose proof (push_total_bound st Hst). unfold push_fuel, len in *. assert (length (pipes s.2) = length (pipes st)) as El by lia. rewrite El in Hfu. lia. }
    rewrite bind_Ok. destruct r as [x|it']; [|destruct Hr as (_ & _ & _ & Hz); specialize (Hz eq_refl); lia].
    assert (Hfin : ∀ bp1, room n bp1 → stride bp1 = stride bp → cur_diff bp1 = cur_diff bp →
      ∃ s', propagate_diff 1 (bp1, st1) = Ok s' ∧ good n s' ∧ kept s s' ∧ contents s'.2 ≡ₚ it :: contents s.2 ∧ balance 1 s s').
    { intros bp1 H1 H2 H3. destruct (settle_diff n 1 bp bp1 st st1 H1 Hst1 Hsame H2 H3) as (s' & E & Hg' & (M1 & M2 & M3) & Hp & [z' Hb']); [lia|].
      exists s'. split_and!; [done|done|split_and!; cbn in *; congruence|by rewrite (proj1 (pipes_contents _ _ Hp)), Hr, Hc|]. exists (z + z'). cbn in *. lia. }
    destruct x; [apply Hfin; [|done|done]; apply push_done_ok; [eapply room_mono; [|done]|]; lia|].
    destruct (push_failed_ok n bp Hroom Hn) as (bp' & -> & H1 & H2 & H3). rewrite bind_Ok. by apply Hfin.
Qed.

(** [pop_mut] ends once the number of tries exceeds the failures to come. *)
Lemma pop_mut_ok fuel : ∀ n s, good (n + Z.of_nat fuel) s → 0 ≤ n → (Z.of_nat (pop_total s.2) + 1) * len s.2 ≤ 2 * (pop_failures s.1 + Z.of_nat fuel) - 2 → (0 < fuel)%nat →
  ∃ o s', pop_mut fuel s = Ok (o, s') ∧ good n s' ∧ kept s s' ∧ contents s.2 ≡ₚ option_list o ++ contents s'.2 ∧ (o = None → contents s.2 = []) ∧
    balance (- Z.of_nat (length (option_list o))) s s' ∧ (pop_total s'.2 ≤ pop_total s.2)%nat.
Proof.
  induction fuel as [|f IH]; intros n s Hg Hn Hm Hf; [lia|]. unfold pop_mut. cbn [pop_loop]. replace (n + Z.of_nat (S f)) with (n + Z.of_nat f + 1) in Hg by lia.
  destruct (try_pop_mut_ok _ s Hg ltac:(lia)) as (r & s1 & -> & Hg1 & Hk & Ht & Hr). rewrite bind_Ok. pose proof (len_bound s.2 (proj2 Hg)).
  assert (Hg2 : good n s1) by (split; [eapply room_mono; [|apply Hg1]; lia|apply Hg1]).
  destruct r as [it|[]].
  - destruct Hr as [Hc Hb]. by exists (Some it), s1.
  - destruct Hr as (E1 & E2 & Hb). exists None, s1. split_and!; [done|done|done|by rewrite E1, E2|done|done|done].
  - destruct Hr as (Hc & [z Hb] & Hpf & Hmax). destruct Hk as (K1 & K2 & K3).
    destruct (IH n s1 Hg1 Hn) as (o & s' & E & Hg' & (M1 & M2 & M3) & Hc' & Ho & [z' Hb'] & Ht'); [rewrite Hpf, K3; nia|nia|].
    exists o, s'. split_and!; [done|done|split_and!; congruence|by rewrite <- Hc| |exists (z + z'); lia|lia].
    intros ->. apply Permutation_nil_r. rewrite <- Hc. by rewrite (Ho eq_refl).
Qed.

Lemma bulk_push_ok str fuel : ∀ ix it st, st_ok st → bag_item it → 0 ≤ str < 2 ^ 63 → (push_total st < fuel)%nat →
  ∃ ix' st', bulk_push fuel str ix it st = Ok (ix', st') ∧ st_ok st' ∧ same_rest st st' ∧ contents st' ≡ₚ it :: contents st.
Proof.
  induction fuel as [|f IH]; intros ix it st Hst Hit Hstr Hf; [lia|]. cbn [bulk_push].
  destruct (pipe_at st ix Hst) as (b & Hlk & Hb & Hj & E1 & E2 & E3). rewrite E1, bind_Ok. cbv zeta. rewrite E2, E3, bind_Ok. clear E1 E2 E3.
  set (j := ix mod len st) in *. pose proof (len_bound st Hst).
  destruct (bag_push_law b it Hb Hit) as ([[]|it'] & b' & -> & Hb' & Hr); rewrite bind_Ok, uadd_Ok, bind_Ok by lia.
  - exists (j + str), (set_pipe st j b'). split_and!; [done|by eapply set_pipe_ok|apply same_rest_set|]. symmetry. apply (set_pipe_contents st j b b' [it] []); [done|]. by rewrite Hr.
  - destruct Hr as (-> & Hc & Hlt). destruct (set_pipe_totals st j b b' Hlk) as [Ht _].
    destruct (IH (j + str) it (set_pipe st j b')) as (ix' & st' & E & Hst' & Hsame & Hr); [by eapply set_pipe_ok|done|done|lia|].
    exists ix', st'. split_and!; [done|done|by eapply same_rest_step|]. rewrite Hr. constructor. symmetry. apply (set_pipe_contents st j b b' [] []); [done|by cbn; rewrite Hc].
Qed.

(** The loop of [bulk_add]. *)
Lemma bulk_loop_ok str fuel l : ∀ ix k st, st_ok st → Forall bag_item l → 0 ≤ str < 2 ^ 63 → (length (pipes st) * push_limit < fuel)%nat → 0 ≤ k → k + Z.of_nat (length l) < 2 ^ 62 →
  ∃ ix' st', rfold (fun '(cur_index, n_iters, st) it => '(ix, st) ← bulk_push fuel str cur_index it st; n ← iadd n_iters 1; Ok (ix, n, st)) l (ix, k, st) =
      Ok (ix', k + Z.of_nat (length l), st') ∧ st_ok st' ∧ same_rest st st' ∧ contents st' ≡ₚ l ++ contents st.
Proof.
  induction l as [|it l IH]; intros ix k st Hst Hl Hstr Hf Hk Hb; cbn [rfold length] in *; [exists ix, st; by rewrite Z.add_0_r|].
  apply Forall_cons in Hl as [Hit Hl]. pose proof (push_total_bound st Hst).
  destruct (bulk_push_ok str fuel ix it st Hst Hit Hstr) as (ix1 & st1 & -> & Hst1 & Hsame1 & Hc1); [lia|]. rewrite bind_Ok.
  assert (iadd k 1 = Ok (k + 1)) as -> by (unfold iadd; rewrite (proj2 (Z.leb_le _ _)), (proj2 (Z.ltb_lt _ _)) by lia; done). rewrite bind_Ok.
  destruct (IH ix1 (k + 1) st1) as (ix' & st' & E & Hst' & Hsame & Hc); [done|done|done| |lia|lia|].
  { destruct Hsame1 as (_ & _ & E3). unfold len in E3. assert (length (pipes st1) = length (pipes st)) as -> by lia. done. }
  exists ix', st'. rewrite E. split_and!; [f_equal; f_equal; f_equal; lia|done| |].
  - destruct Hsame1 as (?&?&?), Hsame as (?&?&?). split_and!; congruence.
  - rewrite Hc, Hc1. solve_Permutation.
Qed.

Lemma bulk_add_ok n fuel l s : good n s → Forall bag_item l → Z.of_nat (length l) < 2 ^ 62 → (push_fuel s.2 ≤ fuel)%nat →
  ∃ s', bulk_add fuel l s = Ok s' ∧ good n s' ∧ kept s s' ∧ contents s'.2 ≡ₚ l ++ contents s.2 ∧ balance (Z.of_nat (length l)) s s'.
Proof.
  destruct s as [bp st]. intros [Hroom Hst] Hl Hb Hfu. cbn [fst snd] in *. unfold bulk_add.
  destruct (bulk_loop_ok (stride bp) fuel l (offset bp) 0 st Hst Hl) as (ix' & st1 & E & Hst1 & Hsame & Hc); [apply Hroom|unfold push_fuel in Hfu; lia|lia|lia|].
  setoid_rewrite E. rewrite bind_Ok. destruct (settle_diff n (Z.of_nat (length l)) bp bp st st1 Hroom Hst1 Hsame) as (s' & E' & Hg & Hk & Hp & Hbal); [done|done|lia|].
  exists s'. split_and!; [done|done|done| |done]. by rewrite (proj1 (pipes_contents _ _ Hp)).
Qed.

Lemma revoke_in_ok `{!RevocableWeakBag B Item} `{!RevocableLaws B Item} it l : Forall bag_ok l → bag_item it →
  ∃ r l', revoke_in it l = Ok (r, l') ∧ Forall bag_ok l' ∧ length l' = length l ∧
    (if r then concat (bag_contents <$> l) ≡ₚ it :: concat (bag_contents <$> l') else concat (bag_contents <$> l') ≡ₚ concat (bag_contents <$> l)).
Proof.
  intros Hl Hit. induction Hl as [|b l Hb Hl (r2 & l2 & E2 & Hl2 & Hn2 & Hc2)]; [by exists false, []|]. cbn [revoke_in].
  destruct (bag_revoke_law b it Hb Hit) as ([] & b' & -> & Hb' & Hc & _); rewrite bind_Ok.
  - exists true, (b' :: l). split_and!; [done|by constructor|done|]. cbn. by rewrite Hc.
  - rewrite E2, bind_Ok. exists r2, (b' :: l2). split_and!; [done|by constructor|cbn; by f_equal|]. destruct r2; cbn; [rewrite Hc2, Hc; solve_Permutation|by rewrite Hc, Hc2].
Qed.

Lemma revoke_ok `{!RevocableWeakBag B Item} `{!RevocableLaws B Item} it st : st_ok st → bag_item it →
  ∃ r st', revoke it st = Ok (r, st') ∧ st_ok st' ∧ same_rest st st' ∧ (if r then contents st ≡ₚ it :: contents st' else contents st' ≡ₚ contents st).
Proof.
  intros [Hl Hp Hc] Hit. destruct (revoke_in_ok it (pipes st) Hp Hit) as (r & l & E & Hl' & Hn & Hcl). unfold revoke. rewrite E, bind_Ok. eexists _, _. split; [done|].
  assert (Hlen : len (mkState (all_refs st) (counters st) l) = len st) by (unfold len; cbn; by rewrite Hn). split_and!; [split|split_and!| ]; try done; by rewrite Hlen.
Qed.

Lemma drop_pipe_ok n bp st : room n bp → st_ok st → ∃ st', drop_pipe (bp, st) = Ok st' ∧ st_ok st' ∧ pipes st' = pipes st ∧ all_refs st' = all_refs st ∧
  ∃ z, csum st' = csum st + cur_diff bp + z * 2 ^ 64 ∧ cabs st' ≤ cabs st + Z.abs (cur_diff bp).
Proof.
  intros Hroom Hst. unfold drop_pipe. cbn [fst snd]. destruct (Z.eqb_spec (cur_diff bp) 0) as [E|_].
  - exists st. split_and!; try done. exists 0. lia.
  - apply push_diff_ok; [done|apply Hroom].
Qed.

(** A clone has an odd stride. *)
Lemma clone_ok n st : st_ok st → 0 ≤ n < 2 ^ 62 → 1 ≤ all_refs st → (2 * all_refs st + 3) * (n + 1) < 2 ^ 63 →
  ∃ bp st', clone st = Ok (bp, st') ∧ room n bp ∧ cur_diff bp = 0 ∧ st_ok st' ∧ pipes st' = pipes st ∧ counters st' = counters st ∧ all_refs st' = all_refs st + 1.
Proof.
  intros Hst Hn Hr Hb. unfold clone. pose proof (len_bound st Hst). pose proof Hst as [(k & Hk & Hl) Hp Hc].
  rewrite uadd_Ok, bind_Ok, umul_Ok, bind_Ok, uadd_Ok, bind_Ok, usub_Ok, bind_Ok by nia. eexists _, _. split; [done|].
  set (off := (all_refs st + 1) * 2 + 1). assert (Hoff : 0 ≤ Z.land off (len st - 1) ≤ off).
  { rewrite Hl, land_pow2_pred by lia. pose proof (pow2_pos k ltac:(lia)). split; [apply Z.mod_pos_bound; lia|apply Z.mod_le; lia]. }
  assert (Hoff2 : off < 2 ^ 63 ∧ off + n * off < 2 ^ 63) by (unfold off; nia).
  split_and!; [split; cbn; fold off; [split; [|lia]|lia|lia|lia|done]|done|split; [by exists k|done|done]|done|done|].
  - unfold off. replace ((all_refs st + 1) * 2 + 1) with (1 + 2 * (all_refs st + 1)) by lia. by rewrite Z.odd_add_mul_2.
  - cbn. unfold wadd, wrap. apply Z.mod_small. nia.
Qed.

Lemma state_new_size_ok sz : sz ≤ 2 ^ 63 → ∃ st, state_new_size sz = Ok st ∧ st_ok st ∧ contents st = [] ∧ csum st = 0 ∧ cabs st = 0 ∧ all_refs st = 1 ∧ sz ≤ len st.
Proof.
  intros Hsz. unfold state_new_size. destruct (next_power_of_two_Ok sz Hsz) as [p Hp]. rewrite Hp, bind_Ok. destruct (next_power_of_two_spec sz p Hp) as (H1 & H2 & (k & Hk & ->) & _).
  eexists. split; [done|]. destruct bag_new_law as [Hok Hnil]. unfold len. cbn [pipes]. split_and!; [split; cbn; [|by apply Forall_replicate|done]| |done|done|done|].
  - exists k. split; [done|]. unfold len. cbn. rewrite length_replicate. lia.
  - apply contents_nil. cbn. intros j b [-> _]%lookup_replicate. done.
  - rewrite length_replicate. lia.
Qed.

(** [drain] empties a bag, [cleanup_all] all of them. *)
Lemma drain_ok fuel : ∀ retries b, bag_ok b → (pop_retries b < retries)%nat → (length (bag_contents b) < fuel)%nat → ∃ l, drain fuel retries b = Ok l ∧ l ≡ₚ bag_contents b.
Proof.
  induction fuel as [|f IH]; intros retries b Hb Hr Hf; [lia|]. cbn [drain]. destruct (pop_ends retries b Hb Hr) as (o & b' & -> & Hb' & Hc & Ho & Hle). rewrite bind_Ok.
  destruct o as [p|]; [|exists []; by rewrite (Ho eq_refl)]. cbn in Hc. pose proof (Permutation_length Hc) as Hlen. cbn in Hlen.
  destruct (IH retries b' Hb') as (l & -> & Hl); [lia|lia|]. exists (p :: l). split; [done|]. by rewrite Hl, Hc.
Qed.

Lemma cleanup_all_ok fuel retries st : st_ok st → (pop_total st < retries)%nat → (length (contents st) < fuel)%nat → ∃ l, cleanup_all fuel retries st = Ok l ∧ l ≡ₚ contents st.
Proof.
  intros [_ Hp _]. unfold cleanup_all, contents, pop_total. cut (∀ a, (sum_list_with pop_retries (pipes st) < retries)%nat →
    (length (concat (bag_contents <$> pipes st)) < fuel)%nat → ∃ l, rfold (fun l b => l' ← drain fuel retries b; Ok (l ++ l')) (pipes st) a = Ok l ∧ l ≡ₚ a ++ concat (bag_contents <$> pipes st)); [intros Hx; apply (Hx [])|].
  induction Hp as [|b l Hb _ IH]; intros a Hr Hf; cbn in *; [exists a; by rewrite app_nil_r|]. rewrite length_app in Hf.
  destruct (drain_ok fuel retries b Hb) as (l1 & -> & Hl1); [lia|lia|]. rewrite bind_Ok. destruct (IH (a ++ l1)) as (l2 & -> & Hl2); [lia|lia|].
  exists l2. split; [done|]. by rewrite Hl2, Hl1, app_assoc.
Qed.

(** ** Handles that share a bag *)
End PipesOk.

(** The shared state, the handles (none once dropped), and the items calls put
    in and took out. *)
Record sys (B Item : Type) := mkSys { shared : BagPipeState B; handles : list (option BagPipe); ins : list Item; outs : list Item }.
Arguments mkSys {B Item} shared handles ins outs.
Arguments shared {B Item} s.
Arguments handles {B Item} s.
Arguments ins {B Item} s.
Arguments outs {B Item} s.

(** A call on a handle; [pop_mut] is a sequence of [try_pop_mut]. *)
Inductive call (Item : Type) :=
  | Clone (i : nat)
  | Drop (i : nat)
  | TryPush (i : nat) (it : Item)
  | TryPop (i : nat)
  | PushMut (i : nat) (it : Item)
  | BulkAdd (i : nat) (l : list Item).
Arguments Clone {Item} i.
Arguments Drop {Item} i.
Arguments TryPush {Item} i it.
Arguments TryPop {Item} i.
Arguments PushMut {Item} i it.
Arguments BulkAdd {Item} i l.

Definition call_handle {Item} (c : call Item) : nat := match c with Clone i | Drop i | TryPush i _ | TryPop i | PushMut i _ | BulkAdd i _ => i end.

Section System.
  Context `{BagLaws B Item}.
  Implicit Types s : sys B Item.

Definition update s (i : nat) (x : BagPipe * BagPipeState B) (l l' : list Item) : sys B Item :=
  mkSys x.2 (<[i := Some x.1]> (handles s)) (ins s ++ l) (outs s ++ l').

(** A call through the live handle [bp]. *)
Definition exec_on (c : call Item) (bp : BagPipe) s : res (sys B Item) :=
  let i := call_handle c in
  let h := (bp, shared s) in
  match c with
  | Clone _ => '(bp', st') ← clone (shared s); Ok (mkSys st' (handles s ++ [Some bp']) (ins s) (outs s))
  | Drop _ => st' ← drop_pipe h; Ok (mkSys st' (<[i := None]> (handles s)) (ins s) (outs s))
  | TryPush _ it => '(r, h') ← try_push_mut it h; Ok (update s i h' (match r with inl _ => [it] | inr _ => [] end) [])
  | TryPop _ => '(r, h') ← try_pop_mut h; Ok (update s i h' [] (match r with inl it => [it] | inr _ => [] end))
  | PushMut _ it => h' ← push_mut (push_fuel (shared s)) it h; Ok (update s i h' [it] [])
  | BulkAdd _ l => h' ← bulk_add (push_fuel (shared s)) l h; Ok (update s i h' l [])
  end.

(** Only live handles can be called. *)
Definition exec s (c : call Item) : res (sys B Item) := match handles s !! call_handle c with Some (Some bp) => exec_on c bp s | _ => Ok s end.

Definition run (size : Z) (cs : list (call Item)) : res (sys B Item) := '(bp, st) ← new_size size; rfold exec cs (mkSys st [Some bp] [] []).

Definition call_ok (c : call Item) : Prop :=
  match c with
  | TryPush _ it | PushMut _ it => bag_item it
  | BulkAdd _ l => Forall bag_item l ∧ Z.of_nat (length l) < 2 ^ 62
  | _ => True
  end.

Definition diff_of (o : option BagPipe) : Z := default 0 (cur_diff <$> o).
Definition diffs s : Z := foldr Z.add 0 (diff_of <$> handles s).
Definition adiffs s : Z := foldr Z.add 0 (Z.abs ∘ diff_of <$> handles s).

(** With room for [n] more failures in every handle, and [m] clones so far. *)
Record sys_ok (n m : Z) s : Prop := {
  sys_st : st_ok (shared s);
  sys_room i bp : handles s !! i = Some (Some bp) → room n bp;
  sys_refs : all_refs (shared s) = m;
  sys_items : ins s ≡ₚ contents (shared s) ++ outs s;
  sys_count : ∃ z, csum (shared s) + diffs s = Z.of_nat (length (contents (shared s))) + z * 2 ^ 64 ∧
    cabs (shared s) + adiffs s ≤ Z.of_nat (length (ins s)) + Z.of_nat (length (outs s))
}.

Lemma diffs_insert s i bp o : handles s !! i = Some (Some bp) →
  foldr Z.add 0 (diff_of <$> <[i := o]> (handles s)) = diffs s + diff_of o - cur_diff bp ∧
  foldr Z.add 0 (Z.abs ∘ diff_of <$> <[i := o]> (handles s)) = adiffs s + Z.abs (diff_of o) - Z.abs (cur_diff bp).
Proof. intros Hi. unfold diffs, adiffs. rewrite !list_fmap_insert. split; apply csum_insert; by rewrite list_lookup_fmap, Hi. Qed.

Lemma sys_mono n m n' s : n' ≤ n → sys_ok n m s → sys_ok n' m s.
Proof. intros Hle []. split; try done. intros i bp Hi. eapply room_mono; [done|by eapply sys_room0]. Qed.

(** A call that puts [l] in and takes [l'] out. *)
Lemma update_ok n n' m s i bp x l l' : sys_ok n m s → handles s !! i = Some (Some bp) → good n' x → n' ≤ n → kept (bp, shared s) x →
  l ++ contents (shared s) ≡ₚ l' ++ contents x.2 → balance (Z.of_nat (length l) - Z.of_nat (length l')) (bp, shared s) x → sys_ok n' m (update s i x l l').
Proof.
  intros [Hst Hroom Hrefs Hitems [z Hz]] Hi [Hr' Hst'] Hle (K1 & K2 & K3) Hc [z' Hz']. cbn in K1, K2, K3, Hz'. split; cbn; [done| |congruence| |].
  - intros j bp' Hj. apply list_lookup_insert_Some in Hj as [(_ & [= <-] & _)|[_ Hj]]; [done|]. eapply room_mono; [done|by eapply Hroom].
  - rewrite Hitems. trans ((l ++ contents (shared s)) ++ outs s); [solve_Permutation|]. rewrite Hc. solve_Permutation.
  - pose proof (Permutation_length Hc) as Hlen. rewrite !length_app in Hlen. destruct (diffs_insert s i bp (Some x.1) Hi) as [D1 D2]. exists (z + z').
    unfold diffs, adiffs. cbn [handles update ins outs]. rewrite D1, D2, !length_app. cbn. lia.
Qed.

(** A new handle on the pipes. *)
Lemma sys_add_handle n m s bp st : sys_ok (n + 2) m s → room n bp → cur_diff bp = 0 → st_ok st → pipes st = pipes (shared s) → counters st = counters (shared s) → all_refs st = all_refs (shared s) + 1 →
  sys_ok n (m + 1) (mkSys st (handles s ++ [Some bp]) (ins s) (outs s)).
Proof.
  intros [_ Hrm Href Hit [z Hz]] Hr Hd Hst Hp Hcs Href'. destruct (pipes_contents _ _ Hp) as [Hc _]. split; cbn; [done| |lia|by rewrite Hc|].
  - intros j bp0 [Hj|[_ Hj]]%lookup_app_Some; [eapply room_mono; [|by eapply Hrm]; lia|]. apply list_lookup_singleton_Some in Hj as [_ [= <-]]. done.
  - exists z. rewrite Hc. unfold csum, cabs, diffs, adiffs in *. cbn [handles]. rewrite Hcs, !fmap_app, !foldr_app. cbn. rewrite Hd. done.
Qed.

Lemma exec_call_ok n m s c : sys_ok (n + 2) m s → 0 ≤ n < 2 ^ 61 → 1 ≤ m → (2 * m + 3) * (n + 1) < 2 ^ 63 → call_ok c →
  ∃ s' m', exec s c = Ok s' ∧ m ≤ m' ≤ m + 1 ∧ sys_ok n m' s'.
Proof.
  intros Hs Hn Hm Hb Hc. unfold exec. destruct (handles s !! call_handle c) as [[bp|]|] eqn:Hi; [|exists s, m; (split_and!; [done|lia..|]); eapply sys_mono; [|done]; lia..].
  pose proof (sys_room _ _ _ Hs _ _ Hi) as Hroom. pose proof (sys_st _ _ _ Hs) as Hst. replace (n + 2) with (n + 1 + 1) in Hroom by lia.
  assert (Hupd : ∀ x l l', good n x → kept (bp, shared s) x → l ++ contents (shared s) ≡ₚ l' ++ contents x.2 →
    balance (Z.of_nat (length l) - Z.of_nat (length l')) (bp, shared s) x → ∃ s' m', Ok (update s (call_handle c) x l l') = Ok s' ∧ m ≤ m' ≤ m + 1 ∧ sys_ok n m' s').
  { intros x l l' H1 H2 H3 H4. eexists _, m. split_and!; [done|lia..|]. eapply update_ok; [done|done|done|lia|done|done|done]. }
  assert (Hg : ∀ x, good (n + 1) x → good n x) by (intros x [? ?]; split; [eapply room_mono; [|done]; lia|done]).
  destruct c as [i|i|i it|i|i it|i l]; cbn [exec_on call_handle call_ok] in *.
  - destruct (clone_ok n (shared s) Hst) as (bp' & st' & -> & Hr' & Hd' & Hst' & Hp & Hcs & Href); [lia|rewrite (sys_refs _ _ _ Hs); lia|rewrite (sys_refs _ _ _ Hs); lia|].
    rewrite bind_Ok. eexists _, (m + 1). split_and!; [done|lia..|]. by apply sys_add_handle.
  - destruct (drop_pipe_ok _ bp (shared s) Hroom Hst) as (st' & -> & Hst' & Hp & Href & z' & Hz'). rewrite bind_Ok. eexists _, m. split_and!; [done|lia..|].
    destruct Hs as [_ Hrm Href0 Hit [z Hz]]. destruct (pipes_contents _ _ Hp) as [Hc' _]. split; cbn; [done| |lia|by rewrite Hc'|].
    + intros j bp0 Hj. apply list_lookup_insert_Some in Hj as [(_ & ? & _)|[_ Hj]]; [done|]. eapply room_mono; [|by eapply Hrm]; lia.
    + destruct (diffs_insert s i bp None Hi) as [D1 D2]. exists (z + z'). rewrite Hc'. unfold diffs, adiffs. cbn [handles]. rewrite D1, D2. cbn. lia.
  - destruct (try_push_mut_ok (n + 1) it (bp, shared s) (conj Hroom Hst) ltac:(lia) Hc) as (r & x & -> & Hgx & Hk & Hr). rewrite bind_Ok. apply Hupd; [by apply Hg|done|..];
      destruct r as [[]|it']; destruct Hr as [Hr1 Hr2]; cbn; [by rewrite Hr1|symmetry; apply Hr2|done|apply Hr2].
  - destruct (try_pop_mut_ok (n + 1) (bp, shared s) (conj Hroom Hst) ltac:(lia)) as (r & x & -> & Hgx & Hk & _ & Hr). rewrite bind_Ok. apply Hupd; [by apply Hg|done|..];
      destruct r as [it|[]]; cbn in *; try apply Hr; [destruct Hr as (-> & -> & _)|symmetry; apply Hr]; done.
  - destruct (push_mut_ok n (push_fuel (shared s)) it (bp, shared s)) as (x & E & Hgx & Hk & Hcx & Hbx); [split; [by replace (n + 2) with (n + 1 + 1) by lia|done]|lia|done|done|].
    rewrite E, bind_Ok. apply Hupd; [done|done|by cbn; rewrite Hcx|done].
  - destruct Hc as [Hl Hlen]. destruct (bulk_add_ok (n + 1) (push_fuel (shared s)) l (bp, shared s)) as (x & E & Hgx & Hk & Hcx & Hbx); [split; [by eapply room_mono; [|done]; lia|done]|done|done|done|].
    rewrite E, bind_Ok. apply Hupd; [by apply Hg|done|by cbn; rewrite Hcx|]. cbn. by rewrite Z.sub_0_r.
Qed.

Lemma rfold_exec cs : ∀ n m s, sys_ok (n + 2 * Z.of_nat (length cs)) m s → 0 ≤ n → n + 2 * Z.of_nat (length cs) < 2 ^ 61 → 1 ≤ m →
  (2 * (m + Z.of_nat (length cs)) + 3) * (n + 2 * Z.of_nat (length cs) + 1) < 2 ^ 63 → Forall call_ok cs → ∃ s' m', rfold exec cs s = Ok s' ∧ sys_ok n m' s'.
Proof.
  induction cs as [|c cs IH]; intros n m s Hs Hn Hb Hm Hmb Hcs; cbn [rfold length] in *; [exists s, m; by rewrite Z.add_0_r in Hs|].
  apply Forall_cons in Hcs as [Hc Hcs]. replace (n + 2 * Z.of_nat (S (length cs))) with (n + 2 * Z.of_nat (length cs) + 2) in Hs by lia.
  destruct (exec_call_ok _ m s c Hs) as (s1 & m1 & -> & Hm1 & Hs1); [lia|lia|nia|done|]. eapply IH; [exact Hs1|done|lia|lia|nia|done].
Qed.

Lemma sys_new size n : 1 ≤ size ≤ 2 ^ 63 → 0 ≤ n < 2 ^ 61 → ∃ bp st, new_size size = Ok (bp, st) ∧ sys_ok n 1 (mkSys st [Some bp] [] []) ∧ contents st = [].
Proof.
  intros Hsz Hn. unfold new_size. rewrite (rassert_true (0 <? size)) by (apply Z.ltb_lt; lia). rewrite bind_Ok.
  destruct (state_new_size_ok size) as (st & -> & Hst & Hnil & Hsum & Habs & Href & _); [lia|]. rewrite bind_Ok. eexists _, _. split; [done|]. split; [|done].
  split; cbn; [done| |done|by rewrite Hnil|].
  - intros i bp Hi. destruct i; [|done]. injection Hi as <-. split; cbn; split; done || lia.
  - exists 0. unfold diffs, adiffs. cbn. rewrite Hnil. cbn. lia.
Qed.

Lemma run_ok size cs : 1 ≤ size ≤ 2 ^ 63 → Forall call_ok cs → Z.of_nat (length cs) < 2 ^ 29 → ∃ s m, run size cs = Ok s ∧ sys_ok 2 m s.
Proof.
  intros Hsz Hcs Hlen. unfold run. destruct (sys_new size (2 + 2 * Z.of_nat (length cs)) Hsz) as (bp & st & -> & Hs & _); [lia|]. rewrite bind_Ok.
  apply (rfold_exec cs 2 1); [done|lia|lia|lia|nia|done].
Qed.

Lemma rfold_iadd l : ∀ a, Z.abs a + foldr Z.add 0 (Z.abs <$> l) < 2 ^ 63 → rfold iadd l a = Ok (a + foldr Z.add 0 l).
Proof.
  assert (Hpos : ∀ l, 0 ≤ foldr Z.add 0 (Z.abs <$> l)) by (intros l0; induction l0; cbn; lia).
  induction l as [|x l IH]; intros a Ha; cbn [rfold foldr fmap list_fmap] in *; [f_equal; lia|]. pose proof (Hpos l).
  assert (iadd a x = Ok (a + x)) as -> by (unfold iadd; rewrite (proj2 (Z.leb_le _ _)), (proj2 (Z.ltb_lt _ _)) by lia; done).
  rewrite IH by lia. f_equal. lia.
Qed.

(** C10: a bag of pipes keeps its items.  Any sequence of calls (fewer than
    2^29, so that offsets do not overflow) on any handles of a new bag returns
    without a panic; the items put in are, with multiplicity, those in the pipes
    and those taken out, and a call that fails puts or takes none; and once every
    handle is dropped, [size_guess] is the number of items. *)
Theorem bagpipe_conserves (size : Z) (cs : list (call Item)) : 1 ≤ size ≤ 2 ^ 63 → Forall call_ok cs → Z.of_nat (length cs) < 2 ^ 29 →
  ∃ s, run size cs = Ok s ∧ ins s ≡ₚ contents (shared s) ++ outs s ∧
    (Forall (fun o => o = None) (handles s) → Z.of_nat (length (ins s)) + Z.of_nat (length (outs s)) < 2 ^ 63 →
     size_guess (shared s) = Ok (Z.of_nat (length (contents (shared s))))).
Proof.
  intros Hsz Hcs Hlen. destruct (run_ok size cs Hsz Hcs Hlen) as (s & m & E & [Hst _ _ Hit (z & Hz & Ha)]). exists s. split; [done|]. split; [done|].
  intros Hnone Hb. assert (Hd : diffs s = 0 ∧ adiffs s = 0).
  { unfold diffs, adiffs. induction Hnone as [|o l -> _ IH]; [done|]. cbn. destruct IH as [-> ->]. done. }
  pose proof (Permutation_length Hit) as Hl. rewrite length_app in Hl. unfold size_guess. rewrite rfold_iadd by (cbn [Z.abs]; unfold cabs in Ha; lia). rewrite bind_Ok.
  assert (Hle : Z.abs (csum (shared s)) ≤ cabs (shared s)) by (unfold csum, cabs; induction (counters (shared s)); cbn; lia).
  f_equal. change (foldr Z.add 0 (counters (shared s))) with (csum (shared s)). lia.
Qed.

(** C13: a pop of a bag of pipes is right about emptiness.  Through any handle
    of a bag that calls have been made on, [try_pop_mut] returns, its debug
    assertion on the pipes it saw holds, and it takes an item out, or answers
    [Empty] when every pipe is empty, or fails for now, which it cannot once the
    number of tries, which grows with each failure, exceeds the failures the
    pipes have left. *)
Theorem bagpipe_pop_sound (size : Z) (cs : list (call Item)) (s : sys B Item) (i : nat) (bp : BagPipe) : 1 ≤ size ≤ 2 ^ 63 → Forall call_ok cs → Z.of_nat (length cs) < 2 ^ 29 →
  run size cs = Ok s → handles s !! i = Some (Some bp) →
  ∃ r bp' st', try_pop_mut (bp, shared s) = Ok (r, (bp', st')) ∧
    match r with
    | inl it => contents (shared s) ≡ₚ it :: contents st'
    | inr Empty => contents (shared s) = [] ∧ contents st' = []
    | inr TransientFailure => contents st' ≡ₚ contents (shared s) ∧ pop_failures bp' = pop_failures bp + 1 ∧
        2 * pop_failures bp + 1 ≤ (Z.of_nat (pop_total (shared s)) + 1) * len (shared s)
    end.
Proof.
  intros Hsz Hcs Hlen E Hi. destruct (run_ok size cs Hsz Hcs Hlen) as (s' & m & E' & Hs). rewrite E in E'. injection E' as <-.
  destruct (try_pop_mut_ok 1 (bp, shared s)) as (r & [bp' st'] & E2 & _ & _ & _ & Hr); [split; [by eapply sys_room|apply Hs]|lia|].
  exists r, bp', st'. split; [done|]. cbn in *. destruct r as [it|[]]; naive_solver.
Qed.

(** C31: [pop_mut], which retries, ends: with fuel for half the tries after which
    [try_pop_mut] can no longer fail, and room for the offset, it takes an item
    out or finds the bag empty. *)
Theorem bagpipe_pop_mut_ends (size : Z) (cs : list (call Item)) (s : sys B Item) (i fuel : nat) (bp : BagPipe) :
  1 ≤ size ≤ 2 ^ 63 → Forall call_ok cs → Z.of_nat (length cs) < 2 ^ 29 → run size cs = Ok s → handles s !! i = Some (Some bp) →
  (Z.of_nat (pop_total (shared s)) + 1) * len (shared s) ≤ 2 * Z.of_nat fuel - 2 → offset bp + Z.of_nat fuel * stride bp < 2 ^ 64 →
  pop_failures bp + Z.of_nat fuel < 2 ^ 62 → push_failures bp + Z.of_nat fuel < 2 ^ 62 →
  ∃ o bp' st', pop_mut fuel (bp, shared s) = Ok (o, (bp', st')) ∧ contents (shared s) ≡ₚ option_list o ++ contents st' ∧ (o = None ↔ contents (shared s) = []).
Proof.
  intros Hsz Hcs Hlen E Hi Hf Hoff Hpop Hpush. destruct (run_ok size cs Hsz Hcs Hlen) as (s' & m & E' & Hs). rewrite E in E'. injection E' as <-.
  pose proof (sys_room _ _ _ Hs _ _ Hi) as Hroom. pose proof (len_bound _ (sys_st _ _ _ Hs)).
  destruct (pop_mut_ok fuel 0 (bp, shared s)) as (o & [bp' st'] & E2 & _ & _ & Hc & Ho & _); [|lia| |nia|].
  - split; [|apply Hs]. destruct Hroom. split; cbn; [done|split; [lia|nia]|lia|lia|done].
  - cbn. pose proof (room_pop _ _ Hroom). lia.
  - exists o, bp', st'. split_and!; [done|done|]. split; [done|]. intros Hnil. cbn in Hc. rewrite Hnil in Hc. apply Permutation_nil_l in Hc. by destruct o.
Qed.

(** Dropping a bag cleans up every item it holds: [cleanup_all], with fuel
    for the items and the failed pops, passes to [cleanup] exactly the contents. *)
Theorem bagpipe_cleanup_all (size : Z) (cs : list (call Item)) (s : sys B Item) (fuel retries : nat) : 1 ≤ size ≤ 2 ^ 63 → Forall call_ok cs → Z.of_nat (length cs) < 2 ^ 29 →
  run size cs = Ok s → (length (contents (shared s)) < fuel)%nat → (pop_total (shared s) < retries)%nat →
  ∃ l, cleanup_all fuel retries (shared s) = Ok l ∧ ins s ≡ₚ l ++ outs s.
Proof.
  intros Hsz Hcs Hlen E Hf Hr. destruct (run_ok size cs Hsz Hcs Hlen) as (s' & m & E' & Hs). rewrite E in E'. injection E' as <-.
  destruct (cleanup_all_ok fuel retries (shared s) (sys_st _ _ _ Hs) Hr Hf) as (l & El & Hl). exists l. split; [done|]. by rewrite Hl, (sys_items _ _ _ Hs).
Qed.
End System.

(** ** A bag of two stacks *)
Definition sample_calls : list (call Z) := [TryPush 0 5; Clone 0; PushMut 1 7; BulkAdd 0 [8; 9]; TryPop 1; Drop 1; Drop 0].
Definition sample_open : list (call Z) := [TryPush 0 5; Clone 0; PushMut 1 7].

Lemma sample_calls_ok : Forall (call_ok (H0 := ListStack.bag_laws)) sample_calls.
Proof. repeat constructor. Qed.

Lemma sample_open_ok : Forall (call_ok (H0 := ListStack.bag_laws)) sample_open.
Proof. repeat constructor. Qed.

Lemma bagpipe_conserves_witness : ∃ s, run (H0 := ListStack.bag_laws) 2 sample_calls = Ok s ∧ size_guess (shared s) = Ok 3 ∧
  ins s ≡ₚ contents (H0 := ListStack.bag_laws) (shared s) ++ outs s.
Proof.
  destruct (bagpipe_conserves (H0 := ListStack.bag_laws) 2 sample_calls) as (s & E & Hp & Hg); [lia|exact sample_calls_ok|cbn; lia|]. exists s. split; [done|].
  vm_compute in E. injection E as <-. split; [|done]. apply Hg; [by repeat constructor|cbn; lia].
Defined.

Lemma bagpipe_pop_sound_witness : ∃ s bp r bp' st', run (H0 := ListStack.bag_laws) 2 sample_open = Ok s ∧ handles s !! 1%nat = Some (Some bp) ∧
  try_pop_mut (H := ListStack.bag) (bp, shared s) = Ok (r, (bp', st')).
Proof.
  eexists _, _. edestruct (bagpipe_pop_sound (H0 := ListStack.bag_laws) 2 sample_open) as (r & bp' & st' & E & _); [lia|exact sample_open_ok|cbn; lia|vm_compute; reflexivity|by instantiate (2 := 1%nat)|].
  exists r, bp', st'. split_and!; [vm_compute; reflexivity|reflexivity|exact E].
Defined.

Lemma bagpipe_pop_mut_ends_witness : ∃ s bp o bp' st', run (H0 := ListStack.bag_laws) 2 sample_open = Ok s ∧ handles s !! 1%nat = Some (Some bp) ∧
  pop_mut (H := ListStack.bag) 2 (bp, shared s) = Ok (o, (bp', st')).
Proof.
  eexists _, _. edestruct (fun s => bagpipe_pop_mut_ends (H0 := ListStack.bag_laws) 2 sample_open s 1 2) as (o & bp' & st' & E & _);
    [lia|exact sample_open_ok|cbn; lia|vm_compute; reflexivity|reflexivity|by vm_compute|by vm_compute|by vm_compute|by vm_compute|].
  exists o, bp', st'. split_and!; [vm_compute; reflexivity|reflexivity|exact E].
Defined.

Lemma bagpipe_cleanup_all_witness : ∃ s l, run (H0 := ListStack.bag_laws) 2 sample_open = Ok s ∧
  cleanup_all (H := ListStack.bag) 3 1 (shared s) = Ok l ∧ ins s ≡ₚ l ++ outs s.
Proof.
  eexists. edestruct (fun s => bagpipe_cleanup_all (H0 := ListStack.bag_laws) 2 sample_open s 3 1) as (l & E & Hl); [lia|exact sample_open_ok|cbn; lia|vm_compute; reflexivity|cbn; lia|cbn; lia|].
  exists l. split_and!; [vm_compute; reflexivity|exact E|exact Hl].
Defined.
