(* ===== verification/Primes.v ===== *)
(** * Prime schedules

    Models [src/bagpipe/src/primes.rs] and the code of [src/bagpipe/src/lib.rs] under
    the feature [prime_schedules]: handles walk the pipes with strides from a table
    of primes instead of odd numbers.  The table is what its name says, and such
    handles keep what the bag's theorems ask of a handle. *)

From Stdlib Require Import ZArith Lia Znumtheory.
From stdpp Require Import base numbers list sorting.
From S2P Require Import Prelude Bag FaaQueue BagPipe.

Open Scope Z_scope.

Definition PRIMES : list Z :=
[
   3; 5; 7; 11; 13; 17; 19; 23; 29; 31; 37; 41; 43; 47; 53; 59;
   61; 67; 71; 73; 79; 83; 89; 97; 101; 103; 107; 109; 113; 127; 131; 137;
   139; 149; 151; 157; 163; 167; 173; 179; 181; 191; 193; 197; 199; 211; 223; 227;
   229; 233; 239; 241; 251; 257; 263; 269; 271; 277; 281; 283; 293; 307; 311; 313;
   317; 331; 337; 347; 349; 353; 359; 367; 373; 379; 383; 389; 397; 401; 409; 419;
   421; 431; 433; 439; 443; 449; 457; 461; 463; 467; 479; 487; 491; 499; 503; 509;
   521; 523; 541; 547; 557; 563; 569; 571; 577; 587; 593; 599; 601; 607; 613; 617;
   619; 631; 641; 643; 647; 653; 659; 661; 673; 677; 683; 691; 701; 709; 719; 727;
   733; 739; 743; 751; 757; 761; 769; 773; 787; 797; 809; 811; 821; 823; 827; 829;
   839; 853; 857; 859; 863; 877; 881; 883; 887; 907; 911; 919; 929; 937; 941; 947;
   953; 967; 971; 977; 983; 991; 997; 1009; 1013; 1019; 1021; 1031; 1033; 1039; 1049; 1051;
   1061; 1063; 1069; 1087; 1091; 1093; 1097; 1103; 1109; 1117; 1123; 1129; 1151; 1153; 1163; 1171;
   1181; 1187; 1193; 1201; 1213; 1217; 1223; 1229; 1231; 1237; 1249; 1259; 1277; 1279; 1283; 1289;
   1291; 1297; 1301; 1303; 1307; 1319; 1321; 1327; 1361; 1367; 1373; 1381; 1399; 1409; 1423; 1427;
   1429; 1433; 1439; 1447; 1451; 1453; 1459; 1471; 1481; 1483; 1487; 1489; 1493; 1499; 1511; 1523;
   1531; 1543; 1549; 1553; 1559; 1567; 1571; 1579; 1583; 1597; 1601; 1607; 1609; 1613; 1619; 1621;
   1627; 1637; 1657; 1663; 1667; 1669; 1693; 1697; 1699; 1709; 1721; 1723; 1733; 1741; 1747; 1753;
   1759; 1777; 1783; 1787; 1789; 1801; 1811; 1823; 1831; 1847; 1861; 1867; 1871; 1873; 1877; 1879;
   1889; 1901; 1907; 1913; 1931; 1933; 1949; 1951; 1973; 1979; 1987; 1993; 1997; 1999; 2003; 2011;
   2017; 2027; 2029; 2039; 2053; 2063; 2069; 2081; 2083; 2087; 2089; 2099; 2111; 2113; 2129; 2131;
   2137; 2141; 2143; 2153; 2161; 2179; 2203; 2207; 2213; 2221; 2237; 2239; 2243; 2251; 2267; 2269;
   2273; 2281; 2287; 2293; 2297; 2309; 2311; 2333; 2339; 2341; 2347; 2351; 2357; 2371; 2377; 2381;
   2383; 2389; 2393; 2399; 2411; 2417; 2423; 2437; 2441; 2447; 2459; 2467; 2473; 2477; 2503; 2521;
   2531; 2539; 2543; 2549; 2551; 2557; 2579; 2591; 2593; 2609; 2617; 2621; 2633; 2647; 2657; 2659;
   2663; 2671; 2677; 2683; 2687; 2689; 2693; 2699; 2707; 2711; 2713; 2719; 2729; 2731; 2741; 2749;
   2753; 2767; 2777; 2789; 2791; 2797; 2801; 2803; 2819; 2833; 2837; 2843; 2851; 2857; 2861; 2879;
   2887; 2897; 2903; 2909; 2917; 2927; 2939; 2953; 2957; 2963; 2969; 2971; 2999; 3001; 3011; 3019;
   3023; 3037; 3041; 3049; 3061; 3067; 3079; 3083; 3089; 3109; 3119; 3121; 3137; 3163; 3167; 3169;
   3181; 3187; 3191; 3203; 3209; 3217; 3221; 3229; 3251; 3253; 3257; 3259; 3271; 3299; 3301; 3307;
   3313; 3319; 3323; 3329; 3331; 3343; 3347; 3359; 3361; 3371; 3373; 3389; 3391; 3407; 3413; 3433;
   3449; 3457; 3461; 3463; 3467; 3469; 3491; 3499; 3511; 3517; 3527; 3529; 3533; 3539; 3541; 3547;
   3557; 3559; 3571; 3581; 3583; 3593; 3607; 3613; 3617; 3623; 3631; 3637; 3643; 3659; 3671; 3673;
   3677; 3691; 3697; 3701; 3709; 3719; 3727; 3733; 3739; 3761; 3767; 3769; 3779; 3793; 3797; 3803;
   3821; 3823; 3833; 3847; 3851; 3853; 3863; 3877; 3881; 3889; 3907; 3911; 3917; 3919; 3923; 3929;
   3931; 3943; 3947; 3967; 3989; 4001; 4003; 4007; 4013; 4019; 4021; 4027; 4049; 4051; 4057; 4073;
   4079; 4091; 4093; 4099; 4111; 4127; 4129; 4133; 4139; 4153; 4157; 4159; 4177; 4201; 4211; 4217;
   4219; 4229; 4231; 4241; 4243; 4253; 4259; 4261; 4271; 4273; 4283; 4289; 4297; 4327; 4337; 4339;
   4349; 4357; 4363; 4373; 4391; 4397; 4409; 4421; 4423; 4441; 4447; 4451; 4457; 4463; 4481; 4483;
   4493; 4507; 4513; 4517; 4519; 4523; 4547; 4549; 4561; 4567; 4583; 4591; 4597; 4603; 4621; 4637;
   4639; 4643; 4649; 4651; 4657; 4663; 4673; 4679; 4691; 4703; 4721; 4723; 4729; 4733; 4751; 4759;
   4783; 4787; 4789; 4793; 4799; 4801; 4813; 4817; 4831; 4861; 4871; 4877; 4889; 4903; 4909; 4919;
   4931; 4933; 4937; 4943; 4951; 4957; 4967; 4969; 4973; 4987; 4993; 4999; 5003; 5009; 5011; 5021;
   5023; 5039; 5051; 5059; 5077; 5081; 5087; 5099; 5101; 5107; 5113; 5119; 5147; 5153; 5167; 5171;
   5179; 5189; 5197; 5209; 5227; 5231; 5233; 5237; 5261; 5273; 5279; 5281; 5297; 5303; 5309; 5323;
   5333; 5347; 5351; 5381; 5387; 5393; 5399; 5407; 5413; 5417; 5419; 5431; 5437; 5441; 5443; 5449;
   5471; 5477; 5479; 5483; 5501; 5503; 5507; 5519; 5521; 5527; 5531; 5557; 5563; 5569; 5573; 5581;
   5591; 5623; 5639; 5641; 5647; 5651; 5653; 5657; 5659; 5669; 5683; 5689; 5693; 5701; 5711; 5717;
   5737; 5741; 5743; 5749; 5779; 5783; 5791; 5801; 5807; 5813; 5821; 5827; 5839; 5843; 5849; 5851;
   5857; 5861; 5867; 5869; 5879; 5881; 5897; 5903; 5923; 5927; 5939; 5953; 5981; 5987; 6007; 6011;
   6029; 6037; 6043; 6047; 6053; 6067; 6073; 6079; 6089; 6091; 6101; 6113; 6121; 6131; 6133; 6143;
   6151; 6163; 6173; 6197; 6199; 6203; 6211; 6217; 6221; 6229; 6247; 6257; 6263; 6269; 6271; 6277;
   6287; 6299; 6301; 6311; 6317; 6323; 6329; 6337; 6343; 6353; 6359; 6361; 6367; 6373; 6379; 6389;
   6397; 6421; 6427; 6449; 6451; 6469; 6473; 6481; 6491; 6521; 6529; 6547; 6551; 6553; 6563; 6569;
   6571; 6577; 6581; 6599; 6607; 6619; 6637; 6653; 6659; 6661; 6673; 6679; 6689; 6691; 6701; 6703;
   6709; 6719; 6733; 6737; 6761; 6763; 6779; 6781; 6791; 6793; 6803; 6823; 6827; 6829; 6833; 6841;
   6857; 6863; 6869; 6871; 6883; 6899; 6907; 6911; 6917; 6947; 6949; 6959; 6961; 6967; 6971; 6977;
   6983; 6991; 6997; 7001; 7013; 7019; 7027; 7039; 7043; 7057; 7069; 7079; 7103; 7109; 7121; 7127;
   7129; 7151; 7159; 7177; 7187; 7193; 7207; 7211; 7213; 7219; 7229; 7237; 7243; 7247; 7253; 7283;
   7297; 7307; 7309; 7321; 7331; 7333; 7349; 7351; 7369; 7393; 7411; 7417; 7433; 7451; 7457; 7459;
   7477; 7481; 7487; 7489; 7499; 7507; 7517; 7523; 7529; 7537; 7541; 7547; 7549; 7559; 7561; 7573;
   7577; 7583; 7589; 7591; 7603; 7607; 7621; 7639; 7643; 7649; 7669; 7673; 7681; 7687; 7691; 7699;
   7703; 7717; 7723; 7727; 7741; 7753; 7757; 7759; 7789; 7793; 7817; 7823; 7829; 7841; 7853; 7867;
   7873; 7877; 7879; 7883; 7901; 7907; 7919; 7927; 7933; 7937; 7949; 7951; 7963; 7993; 8009; 8011;
   8017; 8039; 8053; 8059; 8069; 8081; 8087; 8089; 8093; 8101; 8111; 8117; 8123; 8147; 8161; 8167].

Definition get (p : Z) : res Z := i ← umod p 1024; unwrap (PRIMES !! Z.to_nat i).

Section handles.
  Context `{SharedWeakBag B Item}.

(** [new_size_cleanup] and, for the number of processors, [new]. *)
Definition new_size_primes (size : Z) : res (BagPipe * BagPipeState B) :=
  offset ← get 1;
  _ ← rassert (0 <? size);
  st ← state_new_size size;
  Ok (mkPipe offset offset 0 0 0, st).
Definition new_primes (num_cpus : Z) : res (BagPipe * BagPipeState B) :=
  offset ← get 1;
  n ← umul num_cpus 2;
  st ← state_new_size n;
  Ok (mkPipe offset offset 0 0 0, st).

(** [Clone::clone]. *)
Definition clone_primes (st : BagPipeState B) : res (BagPipe * BagPipeState B) :=
  let st' := mkState (wadd (all_refs st) 1) (counters st) (pipes st) in
  seed ← uadd (all_refs st) 1;
  offset ← get seed;
  mask ← usub (len st) 1;
  Ok (mkPipe (Z.land offset mask) offset 0 0 0, st').
End handles.

(** ** Trial division *)
Fixpoint no_divisor (n : Z) (ds : list Z) : bool :=
  match ds with
  | [] => true
  | d :: ds => if d <? n then if n mod d =? 0 then false else no_divisor n ds else true
  end.
Definition prime_b (n : Z) : bool := if 1 <? n then no_divisor n (zrange 2 91) else false.

Lemma no_divisor_spec n j : ∀ a, 0 < a → no_divisor n (zrange a (a + Z.of_nat j)) = true ↔ ∀ d, a ≤ d < a + Z.of_nat j → d < n → ¬ (d | n).
Proof.
  induction j as [|j IH]; intros a Ha; [rewrite zrange_nil by lia; split; [intros _ d; lia|done]|]. rewrite zrange_cons by lia. cbn [no_divisor]. destruct (Z.ltb_spec a n) as [Hlt|Hge].
  2: { split; [intros _ d; lia|done]. }
  replace (a + Z.of_nat (S j)) with (a + 1 + Z.of_nat j) by lia. destruct (Z.eqb_spec (n mod a) 0) as [E|E]; [split; [done|]|rewrite IH by lia; split].
  - intros Hd. exfalso. apply (Hd a); [lia|done|]. by apply Z.mod_divide; [lia|].
  - intros Hd d Hr Hdn. destruct (decide (d = a)) as [->|]; [rewrite <- Z.mod_divide by lia; done|]. apply Hd; [lia|done].
  - intros Hd d Hr. apply Hd. lia.
Qed.

Lemma prime_b_spec n : n < 91 * 91 → prime_b n = true ↔ prime n.
Proof.
  intros Hn. unfold prime_b. rewrite <- prime_alt. destruct (Z.ltb_spec 1 n) as [H1|H1]; [|split; [done|intros [? _]; lia]]. change 91 with (2 + Z.of_nat 89). rewrite no_divisor_spec by lia. split.
  - intros Hd. split; [done|]. intros d Hd1 [e He]. assert (Hsmall : ∀ x y, 1 < x < n → n = y * x → 91 ≤ x).
    { intros x y Hx E. destruct (Z.le_gt_cases 91 x); [done|]. exfalso. apply (Hd x); [lia|lia|by exists y]. }
    assert (1 < e < n) by nia. pose proof (Hsmall d e Hd1 He). pose proof (Hsmall e d ltac:(lia) ltac:(lia)). nia.
  - intros [_ Hp] d Hd Hlt. apply Hp. lia.
Qed.

(** The reference: the odd primes below 8168, by trial division. *)
Definition odd_primes : list Z := List.filter prime_b (zrange 3 8168).

Lemma table_eq : PRIMES = odd_primes.
Proof. vm_compute. reflexivity. Qed.

Lemma elem_of_table q : q ∈ PRIMES ↔ prime q ∧ 3 ≤ q < 8168.
Proof.
  rewrite table_eq. unfold odd_primes. rewrite list_elem_of_In, filter_In, <- list_elem_of_In, elem_of_zrange. split; intros [H1 H2]; (split; [|done]) || (split; [done|]); apply prime_b_spec; (lia || done).
Qed.

(** The strides are odd primes, and small. *)
Lemma get_ok p : 0 ≤ p → ∃ q, get p = Ok q ∧ q ∈ PRIMES ∧ prime q ∧ 3 ≤ q < 8168 ∧ Z.odd q = true.
Proof.
  intros Hp. unfold get. rewrite umod_Ok, bind_Ok by lia. pose proof (Z.mod_pos_bound p 1024 ltac:(lia)).
  destruct (lookup_lt_is_Some_2 PRIMES (Z.to_nat (p mod 1024))) as [q Hq]; [change (length PRIMES) with 1024%nat; lia|]. rewrite Hq. exists q. split; [done|].
  apply list_elem_of_lookup_2 in Hq. pose proof (proj1 (elem_of_table q) Hq) as [Hpr Hr]. split_and!; try done; try lia.
  rewrite <- Z.negb_even. destruct (Z.even q) eqn:Ev; [|done]. apply Z.even_spec in Ev as [w ->]. apply prime_alt in Hpr as [_ Hpr]. exfalso. apply (Hpr 2); [lia|]. by exists w; lia.
Qed.

(** C33: the table of primes.  [PRIMES] has 1024 entries in increasing order, and
    they are the odd primes below 8168, every one of them. *)
Theorem primes_table : length PRIMES = 1024%nat ∧ StronglySorted Z.lt PRIMES ∧ ∀ q, q ∈ PRIMES ↔ prime q ∧ 3 ≤ q < 8168.
Proof.
  split; [done|]. split; [|exact elem_of_table]. apply (bool_decide_unpack _). vm_compute. exact I.
Qed.

(** ** Bags whose handles follow prime schedules *)
Section schedules.
  Context `{BagLaws B Item}.
  Implicit Types s : sys B Item.

Definition exec_primes s (c : call Item) : res (sys B Item) :=
  match c with
  | Clone i =>
      match handles s !! i with
      | Some (Some _) => '(bp, st) ← clone_primes (shared s); Ok (mkSys st (handles s ++ [Some bp]) (ins s) (outs s))
      | _ => Ok s
      end
  | _ => exec s c
  end.
Definition run_primes (size : Z) (cs : list (call Item)) : res (sys B Item) := '(bp, st) ← new_size_primes size; rfold exec_primes cs (mkSys st [Some bp] [] []).

Lemma clone_primes_ok n (st : BagPipeState B) : st_ok st → 0 ≤ n < 2 ^ 50 → 0 ≤ all_refs st < 2 ^ 62 →
  ∃ bp st', clone_primes st = Ok (bp, st') ∧ prime (stride bp) ∧ room n bp ∧ cur_diff bp = 0 ∧ st_ok st' ∧ pipes st' = pipes st ∧ counters st' = counters st ∧ all_refs st' = all_refs st + 1.
Proof.
  intros Hst Hn Hr. unfold clone_primes. pose proof (len_bound st Hst). pose proof Hst as [(k & Hk & Hl) Hp Hc]. destruct (get_ok (all_refs st + 1) ltac:(lia)) as (q & Eq & _ & Hq & Hr' & Hodd).
  rewrite uadd_Ok, bind_Ok, Eq, bind_Ok, usub_Ok, bind_Ok by lia. eexists _, _. split; [done|].
  assert (Hoff : 0 ≤ Z.land q (len st - 1) ≤ q) by (rewrite Hl, land_pow2_pred by lia; pose proof (pow2_pos k ltac:(lia)); split; [apply Z.mod_pos_bound; lia|apply Z.mod_le; lia]).
  split_and!; [done|split; cbn; [split; [done|lia]|split; [lia|nia]|lia|lia|done]|done|split; [by exists k|done|done]|done|done|]. cbn. unfold wadd, wrap. apply Z.mod_small. lia.
Qed.

(** A prime schedule visits every pipe. *)
Lemma prime_covers (st : BagPipeState B) q ix p : st_ok st → q ∈ PRIMES → 0 ≤ p < len st → ∃ j, 1 ≤ j ≤ len st ∧ (ix + j * q) mod len st = p.
Proof.
  intros [(k & Hk & Hl) _ _] Hq Hp. rewrite Hl in *. apply elem_of_table in Hq as [Hq Hr]. assert (Hodd : Z.odd (- q) = true).
  { rewrite Z.odd_opp. destruct (Z.odd q) eqn:E; [done|]. rewrite <- Z.negb_even, negb_false_iff in E. apply Z.even_spec in E as [w ->]. apply prime_alt in Hq as [_ Hq]. exfalso. apply (Hq 2); [lia|]. exists w. lia. }
  destruct (stride_covers ix (- q) k p ltac:(lia) Hodd Hp) as (j & Hj & E). exists j. split; [done|]. by replace (ix + j * q) with (ix - j * - q) by lia.
Qed.

Lemma exec_primes_ok n m s c : sys_ok (n + 2) m s → 0 ≤ n < 2 ^ 50 → 1 ≤ m → (2 * m + 3) * (n + 1) < 2 ^ 63 → m < 2 ^ 62 → call_ok c →
  ∃ s' m', exec_primes s c = Ok s' ∧ m ≤ m' ≤ m + 1 ∧ sys_ok n m' s'.
Proof.
  intros Hs Hn Hm Hb Hm' Hc. destruct c as [i|i|i it|i|i it|i l]; cbn [exec_primes]; try (apply exec_call_ok; [done|lia|done|done|done]).
  destruct (handles s !! i) as [[bp|]|] eqn:Hi; [|exists s, m; (split_and!; [done|lia..|]); eapply sys_mono; [|done]; lia..].
  destruct (clone_primes_ok n (shared s) (sys_st _ _ _ Hs)) as (bp' & st' & -> & _ & Hr' & Hd' & Hst' & Hp & Hcs & Href); [lia|rewrite (sys_refs _ _ _ Hs); lia|].
  rewrite bind_Ok. eexists _, (m + 1). split_and!; [done|lia..|]. by apply sys_add_handle.
Qed.

Lemma rfold_primes cs : ∀ n m s, sys_ok (n + 2 * Z.of_nat (length cs)) m s → 0 ≤ n → n + 2 * Z.of_nat (length cs) < 2 ^ 50 → 1 ≤ m →
  (2 * (m + Z.of_nat (length cs)) + 3) * (n + 2 * Z.of_nat (length cs) + 1) < 2 ^ 63 → Forall call_ok cs → ∃ s' m', rfold exec_primes cs s = Ok s' ∧ sys_ok n m' s'.
Proof.
  induction cs as [|c cs IH]; intros n m s Hs Hn Hb Hm Hmb Hcs; cbn [rfold length] in *; [exists s, m; by rewrite Z.add_0_r in Hs|].
  apply Forall_cons in Hcs as [Hc Hcs]. replace (n + 2 * Z.of_nat (S (length cs))) with (n + 2 * Z.of_nat (length cs) + 2) in Hs by lia.
  destruct (exec_primes_ok _ m s c Hs) as (s1 & m1 & -> & Hm1 & Hs1); [lia|lia|nia|nia|done|]. eapply IH; [exact Hs1|done|lia|lia|nia|done].
Qed.

Lemma run_primes_ok size cs : 1 ≤ size ≤ 2 ^ 63 → Forall call_ok cs → Z.of_nat (length cs) < 2 ^ 29 → ∃ s m, run_primes size cs = Ok s ∧ sys_ok 2 m s.
Proof.
  intros Hsz Hcs Hlen. unfold run_primes, new_size_primes. destruct (get_ok 1 ltac:(lia)) as (q & -> & _ & _ & Hq & Hodd). rewrite bind_Ok, rassert_true, bind_Ok by (apply Z.ltb_lt; lia).
  destruct (state_new_size_ok size) as (st & -> & Hst & Hnil & Hsum & Habs & Href & _); [lia|]. rewrite !bind_Ok. apply (rfold_primes cs 2 1); [|lia|lia|lia|nia|done].
  split; cbn; [done| |done|by rewrite Hnil|].
  - intros i bp Hi. destruct i; [|done]. injection Hi as <-. split; cbn; split; done || lia || nia.
  - exists 0. unfold diffs, adiffs. cbn. rewrite Hnil. cbn. lia.
Qed.

(** C34: prime schedules work.  Under the feature [prime_schedules], any sequence
    of calls (fewer than 2^29) on any handles of a new bag returns without a
    panic, no item is lost or made, and a pop through any handle takes an item
    or fails for now, unless every pipe is empty: schedules that step by an entry
    of the table visit every pipe. *)
Theorem prime_schedules_conserve (size : Z) (cs : list (call Item)) : 1 ≤ size ≤ 2 ^ 63 → Forall call_ok cs → Z.of_nat (length cs) < 2 ^ 29 →
  ∃ s, run_primes size cs = Ok s ∧ ins s ≡ₚ contents (shared s) ++ outs s ∧
    (∀ i bp, handles s !! i = Some (Some bp) → ∃ r bp' st', try_pop_mut (bp, shared s) = Ok (r, (bp', st')) ∧
       match r with inl it => contents (shared s) ≡ₚ it :: contents st' | inr Empty => contents (shared s) = [] | inr TransientFailure => contents st' ≡ₚ contents (shared s) end) ∧
    ∀ p ix x, 0 ≤ p → get p = Ok x → ∀ j, 0 ≤ j < len (shared s) → ∃ n, 1 ≤ n ≤ len (shared s) ∧ (ix + n * x) mod len (shared s) = j.
Proof.
  intros Hsz Hcs Hlen. destruct (run_primes_ok size cs Hsz Hcs Hlen) as (s & m & E & Hs). exists s. split; [done|]. split; [apply Hs|]. split.
  - intros i bp Hi. destruct (try_pop_mut_ok 1 (bp, shared s)) as (r & [bp' st'] & Ep & _ & _ & _ & Hr); [split; [exact (sys_room _ _ _ Hs i bp Hi)|apply Hs]|lia|].
    exists r, bp', st'. split; [done|]. destruct r as [it|[]]; cbn in Hr; naive_solver.
  - intros p ix x Hp Ex j Hj. destruct (get_ok p Hp) as (q & Eq & Hq & _). rewrite Ex in Eq. injection Eq as <-. eapply prime_covers; [apply Hs|done|done].
Qed.
End schedules.

Lemma prime_schedules_conserve_witness : ∃ s, run_primes (H0 := faa_bag_laws false) 2 [PushMut 0 64; Clone 0; PushMut 1 128; TryPop 0] = Ok s ∧ ins s ≡ₚ contents (H0 := faa_bag_laws false) (shared s) ++ outs s.
Proof.
  destruct (prime_schedules_conserve (H0 := faa_bag_laws false) 2 [PushMut 0 64; Clone 0; PushMut 1 128; TryPop 0]) as (s & E & Hs & _); [lia|repeat constructor; cbn; lia|cbn; lia|]. exists s. split; [exact E|exact Hs].
Defined.
