(* ===== verification/MallocBind.v ===== *)
(** * The C allocation API over a Rust allocator

    Models [src/malloc-bind/src/lib.rs]: the traits [LayoutFinder] and
    [Malloc], whose methods implement [malloc], [free], [calloc], [realloc] and
    their relatives in terms of a Rust allocator and a map from pointers to
    layouts.  The target system is a parameter, as the code selects it with
    [cfg!]; assertions and overflow checks are on (a debug build). *)

From Stdlib Require Import ZArith Lia.
From S2P Require Import Prelude StdAlloc Backing.
From stdpp Require Import base numbers list gmap option fin_maps relations.

Open Scope Z_scope.

Definition EINVAL : Z := 22.
Definition ENOMEM : Z := 12.
Definition WORD_SIZE : Z := 8.

Inductive target_os := Linux | Macos | Windows.

#[export] Instance target_os_eq_dec : EqDecision target_os.
Proof. solve_decision. Defined.

(** ** Interfaces *)

(** [trait LayoutFinder]; [lf_view] is the mapping it stores.  The laws are those
    of a finder that tolerates every call (a map from pointers to layouts):
    an insertion replaces what was there, and deleting an absent mapping does
    nothing.  The trait allows implementations to rely on more, namely that an
    inserted pointer is new and a deleted one is present; [c_realloc] and
    [c_reallocf] do not keep to that (they delete the mapping of the new
    pointer, see [realloc_moved_leaks_layout]), so for a stricter finder
    nothing is claimed. *)
Class LayoutFinder (F : Type) := {
  get_layout : F → Z → res Layout;
  insert_layout : F → Z → Layout → F;
  delete_layout : F → Z → F;
  lf_view : F → gmap Z Layout;
  get_layout_spec f p l : lf_view f !! p = Some l → get_layout f p = Ok l;
  insert_layout_spec f p l : lf_view (insert_layout f p l) = <[p:=l]> (lf_view f);
  delete_layout_spec f p : lf_view (delete_layout f p) = delete p (lf_view f);
}.

(** The allocator: the standard library's [Alloc] for [&Self], with the memory
    it manages.  [ra_same a a'] is what no operation may change: the contents
    of the blocks live before and after. *)
Class RustAlloc (A : Type) := {
  ra_alloc : A → Layout → res ((Z + AllocErr) * A);
  ra_alloc_zeroed : A → Layout → res ((Z + AllocErr) * A);
  ra_dealloc : A → Z → Layout → res A;
  ra_realloc : A → Z → Layout → Layout → res ((Z + AllocErr) * A);
  ra_live : A → gmap Z Layout;
  ra_byte : A → Z → Z;
  ra_inv : A → Prop;
  ra_supports : Layout → Prop;
  ra_alloc_spec a l : ra_inv a → ra_supports l → ∃ r a', ra_alloc a l = Ok (r, a') ∧ ra_inv a' ∧
    match r with
    | inl p => block_ok l p ∧ (∀ q lq, ra_live a !! q = Some lq → disjoint_from p (layout_size l) q (layout_size lq)) ∧
        ra_live a !! p = None ∧ ra_live a' = <[p:=l]> (ra_live a) ∧
        (∀ q lq i, ra_live a !! q = Some lq → 0 ≤ i < layout_size lq → ra_byte a' (q + i) = ra_byte a (q + i))
    | inr (Exhausted _) => a' = a
    | inr AllocUnsupported => False
    end;
  ra_alloc_zeroed_spec a l : ra_inv a → ra_supports l → ∃ r a', ra_alloc_zeroed a l = Ok (r, a') ∧ ra_inv a' ∧
    match r with
    | inl p => block_ok l p ∧ (∀ q lq, ra_live a !! q = Some lq → disjoint_from p (layout_size l) q (layout_size lq)) ∧
        ra_live a !! p = None ∧ ra_live a' = <[p:=l]> (ra_live a) ∧
        (∀ q lq i, ra_live a !! q = Some lq → 0 ≤ i < layout_size lq → ra_byte a' (q + i) = ra_byte a (q + i)) ∧
        (∀ i, 0 ≤ i < layout_size l → ra_byte a' (p + i) = 0)
    | inr (Exhausted _) => a' = a
    | inr AllocUnsupported => False
    end;
  ra_dealloc_spec a p l : ra_inv a → ra_live a !! p = Some l → ∃ a', ra_dealloc a p l = Ok a' ∧ ra_inv a' ∧
    ra_live a' = delete p (ra_live a) ∧
    (∀ q lq i, ra_live a' !! q = Some lq → 0 ≤ i < layout_size lq → ra_byte a' (q + i) = ra_byte a (q + i));
  ra_realloc_spec a p l l' : ra_inv a → ra_live a !! p = Some l → ra_supports l' → ∃ r a', ra_realloc a p l l' = Ok (r, a') ∧ ra_inv a' ∧
    match r with
    | inl q => block_ok l' q ∧ (∀ q' lq, q' ≠ p → ra_live a !! q' = Some lq → disjoint_from q (layout_size l') q' (layout_size lq)) ∧
        delete p (ra_live a) !! q = None ∧ ra_live a' = <[q:=l']> (delete p (ra_live a)) ∧
        (∀ i, 0 ≤ i < Z.min (layout_size l) (layout_size l') → ra_byte a' (q + i) = ra_byte a (p + i)) ∧
        (∀ q' lq i, q' ≠ p → ra_live a !! q' = Some lq → 0 ≤ i < layout_size lq → ra_byte a' (q' + i) = ra_byte a (q' + i))
    | inr (Exhausted _) => a' = a
    | inr AllocUnsupported => False
    end;
}.

(** ** The crate *)
Definition roundup (n multiple : Z) : res Z :=
  if n =? 0 then Ok multiple
  else
    remainder ← umod n multiple;
    if remainder =? 0 then Ok n
    else s ← uadd n multiple; usub s remainder.

Definition layout_from_size_align (size align : Z) : res Layout := unwrap (from_size_align size align).

(** The program state a call works on: the allocator, the finder, [errno] and
    the pointer-sized cells a caller passes by address. *)
Record CHeap (A F : Type) := mkHeap { h_alloc : A; h_finder : F; h_errno : Z; h_cells : gmap Z Z }.
Arguments mkHeap {A F}.
Arguments h_alloc {A F}.
Arguments h_finder {A F}.
Arguments h_errno {A F}.
Arguments h_cells {A F}.

Module C.
Section ops.
Context {A F : Type} `{!RustAlloc A} `{!LayoutFinder F} (os : target_os) (pagesize : Z).

#[local] Abbreviation H := (CHeap A F).

Definition MIN_ALIGN : Z := match os with Linux => 8 | Macos => 16 | Windows => 16 end.

Definition is_linux : bool := bool_decide (os = Linux).

Definition call_alloc (f : A → res ((Z + AllocErr) * A)) : M H (Z + AllocErr) := fun h =>
  '(r, a) ← f (h_alloc h); Ok (r, mkHeap a (h_finder h) (h_errno h) (h_cells h)).
Definition call_dealloc (p : Z) (l : Layout) : M H unit := fun h =>
  a ← ra_dealloc (h_alloc h) p l; Ok (tt, mkHeap a (h_finder h) (h_errno h) (h_cells h)).
Definition put_layout (p : Z) (l : Layout) : M H unit := fun h =>
  Ok (tt, mkHeap (h_alloc h) (insert_layout (h_finder h) p l) (h_errno h) (h_cells h)).
Definition drop_layout (p : Z) : M H unit := fun h =>
  Ok (tt, mkHeap (h_alloc h) (delete_layout (h_finder h) p) (h_errno h) (h_cells h)).
Definition find_layout (p : Z) : M H Layout := fun h => l ← get_layout (h_finder h) p; Ok (l, h).
Definition set_errno (e : Z) : M H unit := fun h => Ok (tt, mkHeap (h_alloc h) (h_finder h) e (h_cells h)).
Definition write_cell (p v : Z) : M H unit := fun h => Ok (tt, mkHeap (h_alloc h) (h_finder h) (h_errno h) (<[p:=v]> (h_cells h))).

(** The [match] on the allocation that every function repeats. *)
Definition finish (layout : Layout) (r : Z + AllocErr) : M H Z :=
  match r with
  | inl ptr => _ ← put_layout ptr layout; mret ptr
  | inr (Exhausted _) => _ ← set_errno ENOMEM; mret 0
  | inr AllocUnsupported => throw Aborted
  end.

Definition c_malloc (size : Z) : M H Z :=
  if is_linux && (size =? 0) then mret 0
  else
    size ← lift (roundup size MIN_ALIGN);
    layout ← lift (layout_from_size_align size MIN_ALIGN);
    r ← call_alloc (fun a => ra_alloc a layout);
    finish layout r.

Definition c_free (ptr : Z) : M H unit :=
  if ptr =? 0 then mret tt
  else
    layout ← find_layout ptr;
    _ ← drop_layout ptr;
    call_dealloc ptr layout.

Definition c_cfree (ptr : Z) : M H unit := c_free ptr.

Definition c_calloc (nmemb size : Z) : M H Z :=
  if is_linux && ((nmemb =? 0) || (size =? 0)) then mret 0
  else
    n ← lift (umul nmemb size);
    total_size ← lift (roundup n MIN_ALIGN);
    layout ← lift (layout_from_size_align total_size MIN_ALIGN);
    r ← call_alloc (fun a => ra_alloc_zeroed a layout);
    finish layout r.

Definition c_valloc (size : Z) : M H Z :=
  if is_linux && (size =? 0) then mret 0
  else
    size ← lift (roundup size pagesize);
    layout ← lift (layout_from_size_align size pagesize);
    r ← call_alloc (fun a => ra_alloc a layout);
    finish layout r.

Definition c_pvalloc (size : Z) : M H Z :=
  if size =? 0 then mret 0
  else
    size ← lift (roundup size pagesize);
    layout ← lift (layout_from_size_align size pagesize);
    r ← call_alloc (fun a => ra_alloc a layout);
    finish layout r.

(** On success the layout of the returned pointer is replaced: the pattern
    variable of the code shadows the argument. *)
Definition c_realloc (ptr size : Z) : M H Z :=
  if ptr =? 0 then c_malloc size
  else if negb (bool_decide (os = Macos)) && (size =? 0) then _ ← c_free ptr; mret 0
  else
    size ← lift (roundup size MIN_ALIGN);
    layout ← find_layout ptr;
    new_layout ← lift (layout_from_size_align size MIN_ALIGN);
    r ← call_alloc (fun a => ra_realloc a ptr layout new_layout);
    match r with
    | inl ptr => _ ← drop_layout ptr; _ ← put_layout ptr new_layout; mret ptr
    | inr (Exhausted _) => _ ← set_errno ENOMEM; mret 0
    | inr AllocUnsupported => throw Aborted
    end.

Definition c_reallocf (ptr size : Z) : M H Z :=
  if ptr =? 0 then c_malloc size
  else
    size ← lift (roundup size MIN_ALIGN);
    layout ← find_layout ptr;
    new_layout ← lift (layout_from_size_align size MIN_ALIGN);
    r ← call_alloc (fun a => ra_realloc a ptr layout new_layout);
    match r with
    | inl ptr => _ ← drop_layout ptr; _ ← put_layout ptr new_layout; mret ptr
    | inr (Exhausted _) => _ ← c_free ptr; _ ← set_errno ENOMEM; mret 0
    | inr AllocUnsupported => throw Aborted
    end.

Definition c_posix_memalign (memptr alignment size : Z) : M H Z :=
  if (alignment <=? WORD_SIZE) || negb (is_power_of_two alignment) then mret EINVAL
  else if is_linux && (size =? 0) then _ ← write_cell memptr 0; mret 0
  else
    size ← lift (roundup size alignment);
    layout ← lift (layout_from_size_align size alignment);
    r ← call_alloc (fun a => ra_alloc a layout);
    match r with
    | inl ptr => _ ← put_layout ptr layout; _ ← write_cell memptr ptr; mret 0
    | inr (Exhausted _) => mret ENOMEM
    | inr AllocUnsupported => throw Aborted
    end.

Definition c_memalign (alignment size : Z) : M H Z :=
  if negb (is_power_of_two alignment) then _ ← set_errno EINVAL; mret 0
  else if size =? 0 then mret 0
  else
    size ← lift (roundup size alignment);
    layout ← lift (layout_from_size_align size alignment);
    r ← call_alloc (fun a => ra_alloc a layout);
    finish layout r.

Definition c_aligned_alloc (alignment size : Z) : M H Z :=
  if negb (is_power_of_two alignment) then _ ← set_errno EINVAL; mret 0
  else
    r ← lift (umod size alignment);
    if negb (r =? 0) then _ ← set_errno EINVAL; mret 0
    else c_memalign alignment size.

Definition c__aligned_malloc (size alignment : Z) : M H Z :=
  if negb (is_power_of_two alignment) || (size =? 0) then _ ← set_errno EINVAL; mret 0
  else
    size ← lift (roundup size alignment);
    layout ← lift (layout_from_size_align size alignment);
    r ← call_alloc (fun a => ra_alloc a layout);
    finish layout r.
End ops.
End C.

(** ** Requests *)
Lemma roundup_spec n m : 0 ≤ n → 0 < m → n + m < 2 ^ 64 →
  ∃ k, roundup n m = Ok k ∧ (m | k) ∧ n ≤ k ∧ m ≤ k ≤ n + m.
Proof.
  intros Hn Hm Hs. unfold roundup. destruct (Z.eqb_spec n 0) as [->|Hn0].
  { exists m. split_and!; try done; try lia. }
  rewrite umod_Ok, bind_Ok by lia. pose proof (Z.mod_pos_bound n m Hm). pose proof (Z.div_mod n m). destruct (Z.eqb_spec (n mod m) 0) as [E|E].
  - exists n. assert (1 ≤ n / m) by nia. split_and!; try done; try nia. by apply Z.mod_divide; [lia|].
  - rewrite uadd_Ok, bind_Ok, usub_Ok by lia. eexists. pose proof (Z.div_pos n m). split_and!; [done| |lia|nia|lia].
    exists (n / m + 1). lia.
Qed.

(** The layouts the API asks the allocator for. *)
Definition c_layout (l : Layout) : Prop :=
  0 < layout_size l ≤ 2 ^ 63 ∧ (layout_align l | layout_size l) ∧ ∃ k, 0 ≤ k ≤ 31 ∧ layout_align l = 2 ^ k.

Lemma request_layout n k : 0 ≤ n ≤ 2 ^ 62 → 0 ≤ k ≤ 31 →
  ∃ s l, roundup n (2 ^ k) = Ok s ∧ layout_from_size_align s (2 ^ k) = Ok l ∧ c_layout l ∧ n ≤ layout_size l ∧ layout_align l = 2 ^ k.
Proof.
  intros Hn Hk. assert (2 ^ k ≤ 2 ^ 31) by (apply Z.pow_le_mono_r; lia). pose proof (pow2_pos k ltac:(lia)).
  destruct (roundup_spec n (2 ^ k)) as (s & Hs & Hd & H1 & H2); [lia..|]. exists s, (mkLayout s (2 ^ k)). split; [done|].
  unfold layout_from_size_align. rewrite (from_size_align_Some _ _ k) by (done || lia || (unfold usize_max; lia)).
  split; [done|]. split; [|done]. split_and!; cbn; try done; try lia. by exists k.
Qed.

(** ** The state of the heap *)
Section heap.
Context {A F : Type} `{!RustAlloc A} `{!LayoutFinder F}.

#[local] Abbreviation H := (CHeap A F).

Definition live (h : H) : gmap Z Layout := ra_live (h_alloc h).
Definition byte (h : H) (a : Z) : Z := ra_byte (h_alloc h) a.

(** Every live block can be looked up with its layout. *)
Definition heap_inv (h : H) : Prop := ra_inv (h_alloc h) ∧ ∀ p l, live h !! p = Some l → lf_view (h_finder h) !! p = Some l.

(** The contents of the blocks [m] are the same. *)
Definition same_bytes (m : gmap Z Layout) (h h' : H) : Prop :=
  ∀ q lq i, m !! q = Some lq → 0 ≤ i < layout_size lq → byte h' (q + i) = byte h (q + i).

(** [r] is a fresh block [l]. *)
Definition got_block (l : Layout) (h : H) (r : Z) (h' : H) : Prop :=
  block_ok l r ∧ live h !! r = None ∧ live h' = <[r:=l]> (live h) ∧ same_bytes (live h) h h' ∧
  ∀ q lq, live h !! q = Some lq → disjoint_from r (layout_size l) q (layout_size lq).

(** A null pointer: no memory was allocated, and [errno] is set unless the
    request was for nothing. *)
Definition got_null (n : Z) (h : H) (r : Z) (h' : H) : Prop :=
  r = 0 ∧ h_alloc h' = h_alloc h ∧ (n = 0 ∧ h' = h ∨ h_errno h' = ENOMEM).

(** The outcome of a request for [n] bytes at a multiple of [align]. *)
Definition fresh (n align : Z) (h : H) (r : Z) (h' : H) : Prop :=
  got_null n h r h' ∨ ∃ l, n ≤ layout_size l ∧ layout_align l = align ∧ got_block l h r h'.

Lemma heap_inv_insert h h' p l : heap_inv h → ra_inv (h_alloc h') → live h' = <[p:=l]> (live h) →
  lf_view (h_finder h') = <[p:=l]> (lf_view (h_finder h)) → heap_inv h'.
Proof.
  intros [_ Hv] Hi' Hl Hf. split; [done|]. intros q lq. rewrite Hl, Hf. intros [[<- <-]|[? Hq]]%lookup_insert_Some.
  - by rewrite lookup_insert_eq.
  - rewrite lookup_insert_ne by done. by apply Hv.
Qed.

Lemma heap_inv_errno h e : heap_inv h → heap_inv (mkHeap (h_alloc h) (h_finder h) e (h_cells h)).
Proof. done. Qed.

Lemma finish_alloc_spec h l : heap_inv h → ra_supports l →
  ∃ r h', (r ← C.call_alloc (fun a => ra_alloc a l); C.finish l r) h = Ok (r, h') ∧ heap_inv h' ∧ (r = 0 ∧ h_alloc h' = h_alloc h ∧ h_errno h' = ENOMEM ∨ got_block l h r h').
Proof.
  intros Hh Hl. pose proof Hh as [Hi _]. destruct (ra_alloc_spec (h_alloc h) l Hi Hl) as (r & a' & E & Hi' & Hr).
  rewrite (M_bind_run _ _ _ r (mkHeap a' (h_finder h) (h_errno h) (h_cells h))); [|unfold C.call_alloc; by rewrite E].
  destruct r as [p|[l'|]]; [| |done].
  - destruct Hr as (Hb & Hd & Hn & Hlive & Hby). eexists p, _. split; [done|]. split; [|right].
    + eapply (heap_inv_insert h _ p l); [done|done|done|apply insert_layout_spec].
    + by split_and!.
  - subst a'. eexists 0, _. split; [done|]. split; [done|by left].
Qed.

Lemma finish_zeroed_spec h l : heap_inv h → ra_supports l →
  ∃ r h', (r ← C.call_alloc (fun a => ra_alloc_zeroed a l); C.finish l r) h = Ok (r, h') ∧ heap_inv h' ∧ (r = 0 ∧ h_alloc h' = h_alloc h ∧ h_errno h' = ENOMEM ∨ got_block l h r h') ∧
    (r ≠ 0 → ∀ i, 0 ≤ i < layout_size l → byte h' (r + i) = 0).
Proof.
  intros Hh Hl. pose proof Hh as [Hi _]. destruct (ra_alloc_zeroed_spec (h_alloc h) l Hi Hl) as (r & a' & E & Hi' & Hr).
  rewrite (M_bind_run _ _ _ r (mkHeap a' (h_finder h) (h_errno h) (h_cells h))); [|unfold C.call_alloc; by rewrite E].
  destruct r as [p|[l'|]]; [| |done].
  - destruct Hr as (Hb & Hd & Hn & Hlive & Hby & Hz). eexists p, _. split; [done|]. split; [|split; [right|done]].
    + eapply (heap_inv_insert h _ p l); [done|done|done|apply insert_layout_spec].
    + by split_and!.
  - subst a'. eexists 0, _. split; [done|]. split; [done|]. split; [by left|done].
Qed.

Lemma free_spec h p : heap_inv h → p = 0 ∨ is_Some (live h !! p) →
  ∃ h', C.c_free p h = Ok (tt, h') ∧ heap_inv h' ∧ (if decide (p = 0) then h' = h else live h' = delete p (live h)) ∧ same_bytes (live h') h h' ∧
    h_cells h' = h_cells h.
Proof.
  intros [Hi Hv] Hp. unfold C.c_free. destruct (Z.eqb_spec p 0) as [->|Hne]; [by exists h|]. destruct Hp as [?|[l Hl]]; [done|].
  rewrite (M_bind_run _ _ _ l h); [|unfold C.find_layout; by rewrite (get_layout_spec _ _ l) by auto].
  rewrite (M_bind_run _ _ _ tt (mkHeap (h_alloc h) (delete_layout (h_finder h) p) (h_errno h) (h_cells h))) by done.
  destruct (ra_dealloc_spec (h_alloc h) p l Hi Hl) as (a' & E & Hi' & Hlive & Hb). unfold C.call_dealloc. cbn. rewrite E. cbn.
  eexists. split; [done|]. rewrite decide_False by done. split; [|done]. split; [done|]. unfold live. cbn. rewrite Hlive, delete_layout_spec.
  intros q lq [? Hq]%lookup_delete_Some. rewrite lookup_delete_ne by done. by apply Hv.
Qed.

(** The outcome of resizing the block [p] of layout [l]. *)
Definition resized (p n align : Z) (l : Layout) (h : H) (r : Z) (h' : H) : Prop :=
  ∃ l', n ≤ layout_size l' ∧ layout_align l' = align ∧ block_ok l' r ∧ live h' = <[r:=l']> (delete p (live h)) ∧
    (∀ i, 0 ≤ i < Z.min (layout_size l) (layout_size l') → byte h' (r + i) = byte h (p + i)) ∧
    same_bytes (delete p (live h)) h h' ∧
    (∀ q lq, q ≠ p → live h !! q = Some lq → disjoint_from r (layout_size l') q (layout_size lq)).

Lemma realloc_call_spec h p l l' : heap_inv h → live h !! p = Some l → ra_supports l' →
  ∃ r h', C.call_alloc (fun a => ra_realloc a p l l') h = Ok (r, h') ∧ h_finder h' = h_finder h ∧ h_cells h' = h_cells h ∧
    match r with
    | inl q => heap_inv (mkHeap (h_alloc h') (insert_layout (delete_layout (h_finder h') q) q l') (h_errno h') (h_cells h')) ∧
        resized p (layout_size l') (layout_align l') l h q h'
    | inr (Exhausted _) => h' = h
    | inr AllocUnsupported => False
    end.
Proof.
  intros [Hi Hv] Hp Hl'. destruct (ra_realloc_spec (h_alloc h) p l l' Hi Hp Hl') as (r & a' & E & Hi' & Hr). unfold C.call_alloc. rewrite E. cbn.
  eexists r, _. split; [done|]. cbn. split; [done|]. split; [done|]. destruct r as [q|[?|]]; [|subst a'; by destruct h|done].
  destruct Hr as (Hb & Hd & Hn & Hlive & Hby & Hoth). split; [split; [done|]|].
  - unfold live. cbn. rewrite Hlive, insert_layout_spec, delete_layout_spec. intros x lx [[<- <-]|[Hne [Hnp Hx]%lookup_delete_Some]]%lookup_insert_Some.
    + by rewrite lookup_insert_eq.
    + rewrite lookup_insert_ne, lookup_delete_ne by done. by apply Hv.
  - exists l'. split_and!; try done. intros x lx i [? Hx]%lookup_delete_Some Hii. by apply (Hoth x lx).
Qed.
End heap.

(** ** Calls *)
Inductive c_op :=
  | Malloc (n : Z) | Free (p : Z) | Cfree (p : Z) | Calloc (nmemb n : Z) | Valloc (n : Z) | Pvalloc (n : Z)
  | Realloc (p n : Z) | Reallocf (p n : Z) | PosixMemalign (memptr align n : Z) | Memalign (align n : Z)
  | AlignedAlloc (align n : Z) | WinAlignedMalloc (n align : Z).

Section calls.
Context {A F : Type} `{!RustAlloc A} `{!LayoutFinder F} (os : target_os) (pagesize : Z).

#[local] Abbreviation H := (CHeap A F).
#[local] Abbreviation min_al := (C.MIN_ALIGN os).

Definition exec (op : c_op) : M H Z :=
  match op with
  | Malloc n => C.c_malloc os n
  | Free p => _ ← C.c_free p; mret 0
  | Cfree p => _ ← C.c_cfree p; mret 0
  | Calloc k n => C.c_calloc os k n
  | Valloc n => C.c_valloc os pagesize n
  | Pvalloc n => C.c_pvalloc pagesize n
  | Realloc p n => C.c_realloc os p n
  | Reallocf p n => C.c_reallocf os p n
  | PosixMemalign m a n => C.c_posix_memalign os m a n
  | Memalign a n => C.c_memalign a n
  | AlignedAlloc a n => C.c_aligned_alloc a n
  | WinAlignedMalloc n a => C.c__aligned_malloc n a
  end.

(** The contract of a C caller: pointers to live blocks (or null), and sizes
    for which the rounded request is a layout. *)
Definition size_ok (n : Z) : Prop := 0 ≤ n ≤ 2 ^ 62.
Definition align_ok (a : Z) : Prop := 0 ≤ a ≤ 2 ^ 31.
Definition ptr_ok (h : H) (p : Z) : Prop := p = 0 ∨ is_Some (live h !! p).

Definition c_legal (h : H) (op : c_op) : Prop :=
  match op with
  | Malloc n | Valloc n | Pvalloc n => size_ok n
  | Free p | Cfree p => ptr_ok h p
  | Calloc k n => 0 ≤ k ∧ 0 ≤ n ∧ size_ok (k * n)
  | Realloc p n | Reallocf p n => ptr_ok h p ∧ size_ok n
  | PosixMemalign _ a n | Memalign a n | AlignedAlloc a n | WinAlignedMalloc n a => align_ok a ∧ size_ok n
  end.

(** What each call promises. *)
Definition rejected (h : H) (r : Z) (h' : H) : Prop := r = 0 ∧ h_alloc h' = h_alloc h ∧ h_errno h' = EINVAL.

Definition freed (p : Z) (h h' : H) : Prop := live h' = delete p (live h) ∧ same_bytes (live h') h h'.

Definition c_post (op : c_op) (h : H) (r : Z) (h' : H) : Prop :=
  match op with
  | Malloc n => fresh n min_al h r h'
  | Free p | Cfree p => if decide (p = 0) then h' = h else freed p h h'
  | Calloc k n => fresh (k * n) min_al h r h' ∧ (r ≠ 0 → ∀ i, 0 ≤ i < k * n → byte h' (r + i) = 0)
  | Valloc n | Pvalloc n => fresh n pagesize h r h'
  | Realloc p n =>
      if decide (p = 0) then fresh n min_al h r h'
      else if decide (n = 0 ∧ os ≠ Macos) then r = 0 ∧ freed p h h'
      else r = 0 ∧ h_alloc h' = h_alloc h ∧ h_errno h' = ENOMEM ∨ ∃ l, live h !! p = Some l ∧ resized p n min_al l h r h'
  | Reallocf p n =>
      if decide (p = 0) then fresh n min_al h r h'
      else r = 0 ∧ freed p h h' ∧ h_errno h' = ENOMEM ∨ ∃ l, live h !! p = Some l ∧ resized p n min_al l h r h'
  | PosixMemalign m a n =>
      if decide (a ≤ WORD_SIZE ∨ is_power_of_two a = false) then r = EINVAL ∧ h' = h
      else r = ENOMEM ∧ h' = h ∨
        r = 0 ∧ ∃ q, h_cells h' = <[m:=q]> (h_cells h) ∧
          (q = 0 ∧ n = 0 ∧ h_alloc h' = h_alloc h ∨ ∃ l, n ≤ layout_size l ∧ layout_align l = a ∧ got_block l h q h')
  | Memalign a n => if is_power_of_two a then fresh n a h r h' else rejected h r h'
  | AlignedAlloc a n => if is_power_of_two a && (n mod a =? 0) then fresh n a h r h' else rejected h r h'
  | WinAlignedMalloc n a => if is_power_of_two a && negb (n =? 0) then fresh n a h r h' else rejected h r h'
  end.

Definition c_step (h h' : H) : Prop := ∃ op r, c_legal h op ∧ exec op h = Ok (r, h').
End calls.

(** ** The calls meet their promises *)
Section correct.
Context {A F : Type} `{!RustAlloc A} `{!LayoutFinder F} (os : target_os) (pagesize : Z).
Context (Hsup : ∀ l, c_layout l → ra_supports l) (Hpage : ∃ k, 0 ≤ k ≤ 31 ∧ pagesize = 2 ^ k).

#[local] Abbreviation H := (CHeap A F).

Lemma min_al_pow2 : ∃ k, 0 ≤ k ≤ 31 ∧ C.MIN_ALIGN os = 2 ^ k.
Proof. destruct os; [exists 3|exists 4|exists 4]; by split. Qed.

Lemma align_pow2 a : align_ok a → is_power_of_two a = true → ∃ k, 0 ≤ k ≤ 31 ∧ a = 2 ^ k.
Proof.
  intros [_ Ha] (k & Hk & ->)%is_power_of_two_spec. exists k. split; [|done]. split; [done|]. apply (Z.pow_le_mono_r_iff 2); lia.
Qed.

(** The body shared by the functions that allocate uninitialized memory. *)
Lemma request_spec (h : H) n a : heap_inv h → size_ok n → (∃ k, 0 ≤ k ≤ 31 ∧ a = 2 ^ k) →
  ∃ r h', (size ← lift (roundup n a); layout ← lift (layout_from_size_align size a);
           r ← C.call_alloc (fun x => ra_alloc x layout); C.finish layout r) h = Ok (r, h') ∧ heap_inv h' ∧ fresh n a h r h'.
Proof.
  intros Hh Hn (k & Hk & ->). destruct (request_layout n k Hn Hk) as (s & l & E1 & E2 & Hl & Hnl & Hal).
  rewrite (lift_bind _ _ _ _ E1), (lift_bind _ _ _ _ E2). destruct (finish_alloc_spec h l Hh (Hsup l Hl)) as (r & h' & E & Hh' & Hr).
  exists r, h'. split; [done|]. split; [done|]. destruct Hr as [(-> & ? & ?)|Hr]; [left|right; eauto]. split_and!; try done. by right.
Qed.

(** A request for nothing that returns null. *)
Lemma fresh_nothing (h : H) a : fresh 0 a h 0 h.
Proof. left. split_and!; try done. by left. Qed.

Lemma malloc_ok (h : H) n : heap_inv h → size_ok n → ∃ r h', C.c_malloc os n h = Ok (r, h') ∧ heap_inv h' ∧ fresh n (C.MIN_ALIGN os) h r h'.
Proof.
  intros Hh Hn. unfold C.c_malloc. destruct (C.is_linux os && (n =? 0)) eqn:E; [|by apply request_spec, min_al_pow2].
  apply andb_true_iff in E as [_ ->%Z.eqb_eq]. exists 0, h. split; [done|]. split; [done|]. apply fresh_nothing.
Qed.

Lemma calloc_ok (h : H) k n : heap_inv h → 0 ≤ k → 0 ≤ n → size_ok (k * n) →
  ∃ r h', C.c_calloc os k n h = Ok (r, h') ∧ heap_inv h' ∧ c_post os pagesize (Calloc k n) h r h'.
Proof.
  intros Hh Hk Hn Hs. unfold C.c_calloc. destruct (C.is_linux os && ((k =? 0) || (n =? 0))) eqn:E.
  { apply andb_true_iff in E as [_ E]. exists 0, h. split; [done|]. split; [done|]. split; [|done].
    replace (k * n) with 0; [apply fresh_nothing|]. apply orb_true_iff in E as [->%Z.eqb_eq| ->%Z.eqb_eq]; lia. }
  unfold size_ok in Hs. rewrite (lift_bind _ (k * n)) by (apply umul_Ok; lia).
  destruct min_al_pow2 as (e & He & Ea). rewrite Ea.
  destruct (request_layout (k * n) e Hs He) as (s & l & E1 & E2 & Hl & Hnl & Hal).
  rewrite (lift_bind _ _ _ _ E1), (lift_bind _ _ _ _ E2). destruct (finish_zeroed_spec h l Hh (Hsup l Hl)) as (r & h' & Er & Hh' & Hr & Hz).
  exists r, h'. split; [done|]. split; [done|]. split.
  - destruct Hr as [(-> & ? & ?)|Hr]; [left|right; eauto]; [split_and!; try done; by right|]. exists l. by rewrite Ea.
  - intros Hr0 i Hi. apply Hz; [done|]. lia.
Qed.

Lemma realloc_ok (h : H) p n : heap_inv h → ptr_ok h p → size_ok n →
  ∃ r h', C.c_realloc os p n h = Ok (r, h') ∧ heap_inv h' ∧ c_post os pagesize (Realloc p n) h r h'.
Proof.
  intros Hh Hp Hn. unfold C.c_realloc, c_post. destruct (Z.eqb_spec p 0) as [->|Hp0]; [destruct (decide (0 = 0)); [by apply malloc_ok|done]|].
  destruct (decide (p = 0)) as [?|_]; [done|]. destruct Hp as [?|[l Hl]]; [done|].
  destruct (decide (n = 0 ∧ os ≠ Macos)) as [[-> Hos]|Hcase].
  - rewrite bool_decide_false by done. cbn [negb andb Z.eqb]. destruct (free_spec h p Hh) as (h' & E & Hh' & Hf & Hb & _); [by right|].
    rewrite decide_False in Hf by done. rewrite (M_bind_run _ _ _ tt h') by done. exists 0, h'. by split_and!.
  - assert (negb (bool_decide (os = Macos)) && (n =? 0) = false) as ->.
    { destruct (bool_decide_reflect (os = Macos)); [done|]. cbn. apply Z.eqb_neq. intros ->. by apply Hcase. }
    destruct min_al_pow2 as (e & He & Ea). rewrite Ea. destruct (request_layout n e Hn He) as (s & l' & E1 & E2 & Hl' & Hnl & Hal).
    rewrite (lift_bind _ _ _ _ E1). rewrite (M_bind_run _ _ _ l h) by (unfold C.find_layout; rewrite (get_layout_spec _ _ l); [done|by apply Hh]).
    rewrite (lift_bind _ _ _ _ E2). destruct (realloc_call_spec h p l l' Hh Hl (Hsup l' Hl')) as (r & h1 & E & Hf & Hc & Hr).
    rewrite (M_bind_run _ _ _ r h1) by done. destruct r as [q|[?|]]; [| |done].
    + destruct Hr as [Hinv (l2 & H2 & H3 & H4)]. eexists q, _. split; [done|]. split; [done|]. right. exists l. split; [done|].
      exists l2. split; [lia|]. split; [congruence|]. exact H4.
    + subst h1. eexists 0, _. split; [done|]. split; [done|]. by left.
Qed.

Lemma reallocf_ok (h : H) p n : heap_inv h → ptr_ok h p → size_ok n →
  ∃ r h', C.c_reallocf os p n h = Ok (r, h') ∧ heap_inv h' ∧ c_post os pagesize (Reallocf p n) h r h'.
Proof.
  intros Hh Hp Hn. unfold C.c_reallocf, c_post. destruct (Z.eqb_spec p 0) as [->|Hp0]; [destruct (decide (0 = 0)); [by apply malloc_ok|done]|].
  destruct (decide (p = 0)) as [?|_]; [done|]. destruct Hp as [?|[l Hl]]; [done|].
  destruct min_al_pow2 as (e & He & Ea). rewrite Ea. destruct (request_layout n e Hn He) as (s & l' & E1 & E2 & Hl' & Hnl & Hal).
  rewrite (lift_bind _ _ _ _ E1). rewrite (M_bind_run _ _ _ l h) by (unfold C.find_layout; rewrite (get_layout_spec _ _ l); [done|by apply Hh]).
  rewrite (lift_bind _ _ _ _ E2). destruct (realloc_call_spec h p l l' Hh Hl (Hsup l' Hl')) as (r & h1 & E & Hf & Hc & Hr).
  rewrite (M_bind_run _ _ _ r h1) by done. destruct r as [q|[?|]]; [| |done].
  - destruct Hr as [Hinv (l2 & H2 & H3 & H4)]. eexists q, _. split; [done|]. split; [done|]. right. exists l. split; [done|].
    exists l2. split; [lia|]. split; [congruence|]. exact H4.
  - subst h1. destruct (free_spec h p Hh) as (h' & Ef & Hh' & Hfr & Hb & _); [by right|]. rewrite decide_False in Hfr by done.
    rewrite (M_bind_run _ _ _ tt h') by done. eexists 0, _. split; [done|]. split; [done|]. left. by split_and!.
Qed.

Lemma posix_memalign_ok (h : H) m a n : heap_inv h → align_ok a → size_ok n →
  ∃ r h', C.c_posix_memalign os m a n h = Ok (r, h') ∧ heap_inv h' ∧ c_post os pagesize (PosixMemalign m a n) h r h'.
Proof.
  intros Hh Ha Hn. unfold C.c_posix_memalign, c_post. destruct (decide (a ≤ WORD_SIZE ∨ is_power_of_two a = false)) as [Hbad|Hgood].
  { assert ((a <=? WORD_SIZE) || negb (is_power_of_two a) = true) as ->.
    { apply orb_true_iff. destruct Hbad as [?| ->]; [left; by apply Z.leb_le|by right]. }
    by exists EINVAL, h. }
  assert (Hp : is_power_of_two a = true) by (destruct (is_power_of_two a); [done|tauto]).
  rewrite Hp, (proj2 (Z.leb_gt a WORD_SIZE)) by lia. cbn [orb negb]. destruct (C.is_linux os && (n =? 0)) eqn:E0.
  { apply andb_true_iff in E0 as [_ ->%Z.eqb_eq]. eexists 0, _. split; [done|]. split; [done|]. right. split; [done|]. exists 0. split; [done|]. by left. }
  destruct (align_pow2 a Ha Hp) as (k & Hk & ->). destruct (request_layout n k Hn Hk) as (s & l & E1 & E2 & Hl & Hnl & Hal).
  rewrite (lift_bind _ _ _ _ E1), (lift_bind _ _ _ _ E2). pose proof Hh as [Hi _].
  destruct (ra_alloc_spec (h_alloc h) l Hi (Hsup l Hl)) as (r & a' & E & Hi' & Hr).
  rewrite (M_bind_run _ _ _ r (mkHeap a' (h_finder h) (h_errno h) (h_cells h))) by (unfold C.call_alloc; by rewrite E).
  destruct r as [p|[?|]]; [| |done].
  - destruct Hr as (Hb & Hd & Hnone & Hlive & Hby). eexists 0, _. split; [done|].
    split; [by eapply (heap_inv_insert h _ p l); [| | |apply insert_layout_spec]|]. right. split; [done|]. exists p. split; [done|]. right.
    exists l. by split_and!.
  - subst a'. destruct h. eexists ENOMEM, _. split; [done|]. split; [done|]. by left.
Qed.

Lemma memalign_ok (h : H) a n : heap_inv h → align_ok a → size_ok n →
  ∃ r h', C.c_memalign a n h = Ok (r, h') ∧ heap_inv h' ∧ c_post os pagesize (Memalign a n) h r h'.
Proof.
  intros Hh Ha Hn. unfold C.c_memalign, c_post. destruct (is_power_of_two a) eqn:Hp; cbn [negb].
  - destruct (Z.eqb_spec n 0) as [->|]; [exists 0, h; split; [done|]; split; [done|]; apply fresh_nothing|].
    by apply request_spec, align_pow2.
  - eexists 0, _. split; [done|]. by split.
Qed.

Lemma exec_ok (h : H) op : heap_inv h → c_legal h op → ∃ r h', exec os pagesize op h = Ok (r, h') ∧ heap_inv h' ∧ c_post os pagesize op h r h'.
Proof.
  intros Hh Hop. destruct op as [n|p|p|k n|n|n|p n|p n|m a n|a n|a n|n a]; cbn [exec c_legal] in *.
  - by apply malloc_ok.
  - destruct (free_spec h p Hh Hop) as (h' & E & Hh' & Hf & Hb & _). rewrite (M_bind_run _ _ _ tt h') by done. exists 0, h'.
    split; [done|]. split; [done|]. cbn. by destruct (decide (p = 0)).
  - unfold C.c_cfree. destruct (free_spec h p Hh Hop) as (h' & E & Hh' & Hf & Hb & _). rewrite (M_bind_run _ _ _ tt h') by done. exists 0, h'.
    split; [done|]. split; [done|]. cbn. by destruct (decide (p = 0)).
  - destruct Hop as (? & ? & ?). by apply calloc_ok.
  - unfold C.c_valloc. destruct (C.is_linux os && (n =? 0)) eqn:E; [|by apply request_spec].
    apply andb_true_iff in E as [_ ->%Z.eqb_eq]. exists 0, h. split; [done|]. split; [done|]. apply fresh_nothing.
  - unfold C.c_pvalloc. destruct (Z.eqb_spec n 0) as [->|]; [|by apply request_spec]. exists 0, h. split; [done|]. split; [done|]. apply fresh_nothing.
  - destruct Hop. by apply realloc_ok.
  - destruct Hop. by apply reallocf_ok.
  - destruct Hop. by apply posix_memalign_ok.
  - destruct Hop. by apply memalign_ok.
  - destruct Hop as [Ha Hn]. unfold C.c_aligned_alloc, c_post. destruct (is_power_of_two a) eqn:Hp; cbn [negb andb]; [|by eexists 0, _].
    destruct (align_pow2 a Ha Hp) as (k & Hk & Ek). pose proof (pow2_pos k ltac:(lia)).
    rewrite (lift_bind _ (n mod a)) by (apply umod_Ok; lia). destruct (Z.eqb_spec (n mod a) 0); cbn [negb]; [|by eexists 0, _].
    pose proof (memalign_ok h a n Hh Ha Hn) as Hm. cbn [c_post] in Hm. by rewrite Hp in Hm.
  - destruct Hop as [Ha Hn]. unfold C.c__aligned_malloc, c_post. destruct (is_power_of_two a) eqn:Hp; cbn [negb orb andb]; [|by eexists 0, _].
    destruct (Z.eqb_spec n 0); cbn [negb]; [by eexists 0, _|]. by apply request_spec, align_pow2.
Qed.
End correct.

(** ** Properties of the API *)
Section theorems.
Context {A F : Type} `{!RustAlloc A} `{!LayoutFinder F} (os : target_os) (pagesize : Z).

#[local] Abbreviation H := (CHeap A F).

(** C15: the C API is safe over any allocator that supports its requests and any
    finder that tolerates its calls.  From a heap whose live blocks are all
    known to the finder, any sequence of calls with live (or null) pointers,
    sizes (products, for [calloc]) up to 2^62 and alignments up to 2^31 keeps
    that property, and the next such call returns without panicking or aborting
    with the outcome spelled out in [c_post]: a fresh, disjoint, large enough and
    aligned block, or null with [errno] set and nothing allocated; zeroed memory
    from [calloc]; contents kept by [realloc]; a released block from [free];
    alignments the code rejects, which for [posix_memalign] include the word
    size itself, although its documentation admits it.  Larger sizes are
    outside: there the arithmetic overflows, see [oversized_requests_overflow]. *)
Theorem c_api_safe (h0 h : H) (op : c_op) :
  (∀ l, c_layout l → ra_supports l) → (∃ k, 0 ≤ k ≤ 31 ∧ pagesize = 2 ^ k) →
  heap_inv h0 → rtc (c_step os pagesize) h0 h → c_legal h op →
  ∃ r h', exec os pagesize op h = Ok (r, h') ∧ heap_inv h' ∧ c_post os pagesize op h r h'.
Proof.
  intros Hsup Hpage Hh0 Hr Hop. apply exec_ok; [done..| |done]. induction Hr as [|x y z (o & r & Ho & E) _ IH]; [done|].
  apply IH; [|done]. destruct (exec_ok os pagesize Hsup Hpage x o Hh0 Ho) as (r' & h' & E' & Hh' & _). rewrite E' in E. by injection E as <- <-.
Qed.

(** A block obtained from [malloc] and released again leaves the live
    blocks and their contents as they were. *)
Theorem malloc_free_roundtrip (h h1 : H) (n r : Z) :
  (∀ l, c_layout l → ra_supports l) → heap_inv h → size_ok n → C.c_malloc os n h = Ok (r, h1) →
  ∃ h2, C.c_free r h1 = Ok (tt, h2) ∧ heap_inv h2 ∧ live h2 = live h ∧ same_bytes (live h) h h2.
Proof.
  intros Hsup Hh Hn E. destruct (malloc_ok os Hsup h n Hh Hn) as (r' & h' & E' & Hh1 & Hf). rewrite E' in E. injection E as -> ->.
  destruct Hf as [(-> & Ea & _)|(l & _ & _ & (Hb & Hnone & Hlive & Hby & _))].
  - exists h1. split; [done|]. unfold live, same_bytes, byte. by rewrite Ea.
  - destruct (free_spec h1 r Hh1) as (h2 & E2 & Hh2 & Hf & Hb2 & _); [right; rewrite Hlive, lookup_insert_eq; eauto|].
    rewrite decide_False in Hf by (destruct Hb; lia). exists h2. split; [done|]. split; [done|].
    assert (El : live h2 = live h) by (rewrite Hf, Hlive; by apply delete_insert_id). split; [done|].
    intros q lq i Hq Hi. rewrite <- (Hby q lq i Hq Hi). apply (Hb2 q lq i); [|done]. by rewrite El.
Qed.

(** C25: a [realloc] that moves a block leaves the finder with the layout of the
    address it moved from.  The pattern variable shadows the argument, so the
    layout of the new address is deleted instead of that of the old one: the
    old address is no longer live, but is still found. *)
Theorem realloc_moved_leaks_layout (h h' : H) (p n r : Z) (l : Layout) :
  (∀ l, c_layout l → ra_supports l) → heap_inv h → size_ok n → p ≠ 0 → n ≠ 0 → live h !! p = Some l →
  C.c_realloc os p n h = Ok (r, h') → r ≠ 0 → r ≠ p →
  live h' !! p = None ∧ lf_view (h_finder h') !! p = Some l.
Proof.
  intros Hsup Hh Hn Hp0 Hn0 Hl E Hr0 Hrp. unfold C.c_realloc in E. rewrite (proj2 (Z.eqb_neq p 0)), (proj2 (Z.eqb_neq n 0)), andb_false_r in E by done.
  destruct (min_al_pow2 os) as (e & He & Ea). rewrite Ea in E. destruct (request_layout n e Hn He) as (s & l' & E1 & E2 & Hl' & Hnl & Hal).
  rewrite (lift_bind _ _ _ _ E1) in E. rewrite (M_bind_run _ _ _ l h) in E by (unfold C.find_layout; rewrite (get_layout_spec _ _ l); [done|by apply Hh]).
  rewrite (lift_bind _ _ _ _ E2) in E. destruct (realloc_call_spec h p l l' Hh Hl (Hsup l' Hl')) as (q & h1 & Ec & Hf & Hc & Hr).
  rewrite (M_bind_run _ _ _ q h1) in E by done. destruct q as [q|[?|]]; [|by injection E as <- <-|done].
  injection E as -> <-. destruct Hr as [_ (l2 & _ & _ & _ & Hlive & _)]. unfold live in *. cbn in *. split.
  - rewrite Hlive, lookup_insert_ne, lookup_delete_eq by done. done.
  - rewrite insert_layout_spec, delete_layout_spec, lookup_insert_ne, lookup_delete_ne, Hf by done. by apply Hh.
Qed.

(** Requests that do not fit a machine word panic.  The products and sums
    of [calloc] and [malloc] are not checked, so instead of a null pointer and
    [ENOMEM] the arithmetic overflows. *)
Theorem oversized_requests_overflow (h : H) (k n : Z) :
  0 < k → 0 < n →
  (2 ^ 64 ≤ k * n → C.c_calloc os k n h = Fault Overflow) ∧
  (2 ^ 64 ≤ n + C.MIN_ALIGN os → n mod C.MIN_ALIGN os ≠ 0 → C.c_malloc os n h = Fault Overflow).
Proof.
  intros Hk Hn. destruct (min_al_pow2 os) as (e & He & Ea). pose proof (pow2_pos e ltac:(lia)). split.
  - intros Hbig. unfold C.c_calloc. rewrite (proj2 (Z.eqb_neq k 0)), (proj2 (Z.eqb_neq n 0)) by lia. cbn [orb]. rewrite andb_false_r.
    unfold umul. by rewrite (proj2 (Z.ltb_ge (k * n) (2 ^ 64))) by lia.
  - intros Hbig Hm. unfold C.c_malloc. rewrite (proj2 (Z.eqb_neq n 0)) by lia. rewrite andb_false_r. unfold roundup.
    rewrite (proj2 (Z.eqb_neq n 0)) by lia. rewrite umod_Ok, bind_Ok, (proj2 (Z.eqb_neq (n mod C.MIN_ALIGN os) 0)) by (done || lia).
    unfold uadd. by rewrite (proj2 (Z.ltb_ge (n + C.MIN_ALIGN os) (2 ^ 64))) by lia.
Qed.

(** The alignments [posix_memalign] rejects.  It returns [EINVAL], with
    nothing changed, exactly for the alignments that are not a power of two
    greater than the word size; the documentation admits the word size too. *)
Theorem posix_memalign_einval (h h' : H) (memptr a n r : Z) :
  (∀ l, c_layout l → ra_supports l) → heap_inv h → align_ok a → size_ok n → C.c_posix_memalign os memptr a n h = Ok (r, h') →
  (r = EINVAL ↔ a ≤ WORD_SIZE ∨ is_power_of_two a = false) ∧ (r = EINVAL → h' = h).
Proof.
  intros Hsup Hh Ha Hn E. destruct (posix_memalign_ok os 1 Hsup h memptr a n Hh Ha Hn) as (r' & h1 & E' & _ & Hp).
  rewrite E' in E. injection E as -> ->. cbn [c_post] in Hp. destruct (decide _) as [Hb|Hg].
  - destruct Hp as [-> ->]. done.
  - destruct Hp as [[-> ->]|[-> _]]; (split; [|done]); (split; [done|tauto]).
Qed.
End theorems.

(** ** An allocator to run with

    The consecutive heap with the contents of memory; [realloc] always moves. *)
Record BumpMem := mkMem { bm_heap : BumpHeap; bm_byte : Z → Z }.

Definition bm_alloc (a : BumpMem) (l : Layout) : res ((Z + AllocErr) * BumpMem) :=
  '(r, h) ← bh_alloc (bm_heap a) l; Ok (r, mkMem h (bm_byte a)).

Definition bm_alloc_zeroed (a : BumpMem) (l : Layout) : res ((Z + AllocErr) * BumpMem) :=
  '(r, h) ← bh_alloc (bm_heap a) l;
  Ok (r, mkMem h (match r with inl p => fun x => if (p <=? x) && (x <? p + layout_size l) then 0 else bm_byte a x | inr _ => bm_byte a end)).

Definition bm_dealloc (a : BumpMem) (p : Z) (l : Layout) : res BumpMem :=
  h ← bh_dealloc (bm_heap a) p l; Ok (mkMem h (bm_byte a)).

Definition bm_realloc (a : BumpMem) (p : Z) (l l' : Layout) : res ((Z + AllocErr) * BumpMem) :=
  '(r, h) ← bh_alloc (bm_heap a) l';
  match r with
  | inl q =>
      h ← bh_dealloc h p l;
      Ok (inl q, mkMem h (fun x => if (q <=? x) && (x <? q + layout_size l') then bm_byte a (p + (x - q)) else bm_byte a x))
  | inr e => Ok (inr e, mkMem h (bm_byte a))
  end.

(** A write to a fresh block does not touch a disjoint one. *)
Lemma outside_range p n q m i : disjoint_from p n q m → 0 ≤ i < m → (p <=? q + i) && (q + i <? p + n) = false.
Proof.
  unfold disjoint_from. intros Hd Hi. apply andb_false_iff. destruct Hd; [right; apply Z.ltb_ge; lia|left; apply Z.leb_gt; lia].
Qed.

Lemma bh_fresh h l p h' : bh_inv h → 0 < layout_align l → bh_alloc h l = Ok (inl p, h') → bh_live h !! p = None.
Proof.
  intros (_ & _ & Hb) Ha E. unfold bh_alloc in E. case_match; [|done]. injection E as <- _.
  pose proof (Z.mod_pos_bound (- bh_next h) (layout_align l) Ha). destruct (bh_live h !! _) as [lp|] eqn:Ep; [|done].
  specialize (Hb _ _ Ep). lia.
Qed.

#[export] Instance bump_mem : RustAlloc BumpMem.
Proof.
  refine {| ra_alloc := bm_alloc; ra_alloc_zeroed := bm_alloc_zeroed; ra_dealloc := bm_dealloc; ra_realloc := bm_realloc;
    ra_live a := bh_live (bm_heap a); ra_byte := bm_byte; ra_inv a := bh_inv (bm_heap a); ra_supports l := 0 < layout_size l ∧ 0 < layout_align l |}.
  - intros [h f] l Hi Hs. cbn in *. destruct (@al_alloc_spec _ bump_heap_alloc h l Hi Hs) as (r & h' & E & Hi' & Hr). cbn in E. unfold bm_alloc. cbn. rewrite E. cbn.
    eexists _, _. split; [done|]. split; [done|]. destruct r as [p|[?|]]; [| |done].
    + destruct Hr as (H1 & H2 & H3). split_and!; try done; try apply H1. eapply bh_fresh; [done|apply Hs|done].
    + cbn in Hr. unfold bh_alloc in E. case_match; [done|]. by injection E as _ <-.
  - intros [h f] l Hi Hs. cbn in *. destruct (@al_alloc_spec _ bump_heap_alloc h l Hi Hs) as (r & h' & E & Hi' & Hr). cbn in E. unfold bm_alloc_zeroed. cbn. rewrite E. cbn.
    eexists _, _. split; [done|]. split; [done|]. destruct r as [p|[?|]]; [| |done].
    + destruct Hr as (H1 & H2 & H3). split_and!; try done; try apply H1; [eapply bh_fresh; [done|apply Hs|done]| |].
      * intros q lq i Hq Hii. cbn. by rewrite (outside_range p (layout_size l) q (layout_size lq) i (H2 q lq Hq) Hii).
      * intros i Hii. cbn. rewrite (proj2 (Z.leb_le _ _)), (proj2 (Z.ltb_lt _ _)) by lia. done.
    + cbn in Hr. unfold bh_alloc in E. case_match; [done|]. by injection E as _ <-.
  - intros [h f] p l Hi Hp. cbn in *. destruct (@al_dealloc_spec _ bump_heap_alloc h p l Hi Hp) as (h' & E & Hi' & Hl). cbn in E. injection E as <-.
    eexists. split; [done|]. split; [exact Hi'|done].
  - intros [h f] p l l' Hi Hp Hs. cbn in *. destruct (@al_alloc_spec _ bump_heap_alloc h l' Hi Hs) as (r & h' & E & Hi' & Hr). cbn in E. unfold bm_realloc. cbn. rewrite E. cbn.
    destruct r as [q|[?|]]; [| |done].
    + destruct Hr as (H1 & H2 & H3). assert (Hq : bh_live h !! q = None) by (eapply bh_fresh; [done|apply Hs|done]).
      assert (p ≠ q) by congruence. assert (Hp' : bh_live h' !! p = Some l) by (cbn in H3; by rewrite H3, lookup_insert_ne).
      destruct (@al_dealloc_spec _ bump_heap_alloc h' p l Hi' Hp') as (h2 & E2 & Hi2 & Hl2). cbn in E2. injection E2 as E2. rewrite E2. eexists _, _. split; [done|]. split; [done|].
      cbn in *. split_and!; try done; try apply H1.
      * intros q' lq _ Hq'. eauto.
      * by rewrite lookup_delete_ne.
      * by rewrite Hl2, H3, delete_insert_ne.
      * intros i Hii. cbn. rewrite (proj2 (Z.leb_le _ _)), (proj2 (Z.ltb_lt _ _)) by lia. cbn. f_equal. lia.
      * intros q' lq i _ Hq' Hii. by rewrite (outside_range q (layout_size l') q' (layout_size lq) i (H2 q' lq Hq') Hii).
    + eexists _, _. split; [done|]. cbn in Hr. unfold bh_alloc in E. case_match; [done|]. injection E as _ <-. done.
Defined.

(** A finder that is the map itself. *)
#[export] Instance map_finder : LayoutFinder (gmap Z Layout).
Proof.
  refine {| get_layout f p := deref (f !! p); insert_layout f p l := <[p:=l]> f; delete_layout f p := delete p f; lf_view f := f |}; [|done..].
  by intros f p l ->.
Defined.

Definition demo_heap : CHeap BumpMem (gmap Z Layout) := mkHeap (mkMem (mkBumpHeap 4096 (2 ^ 40) ∅) (fun a => a)) ∅ 0 ∅.

Lemma demo_heap_inv : heap_inv demo_heap.
Proof.
  split; [split_and!; [done|done|]|]; intros p l Hp; cbn in Hp; discriminate Hp.
Qed.

Lemma demo_supports (l : Layout) : c_layout l → ra_supports l.
Proof. intros (H1 & _ & k & Hk & E). split; [lia|]. rewrite E. apply pow2_pos. lia. Qed.

Lemma c_api_safe_witness :
  ∃ r h', exec Linux 4096 (Realloc 4096 100) (mkHeap (mkMem (mkBumpHeap 4112 (2 ^ 40) (<[4096:=mkLayout 16 8]> ∅)) (fun a => a)) (<[4096:=mkLayout 16 8]> ∅) 0 ∅) = Ok (r, h') ∧
    heap_inv h' ∧ r = 4112.
Proof.
  destruct (c_api_safe Linux 4096 demo_heap
    (mkHeap (mkMem (mkBumpHeap 4112 (2 ^ 40) (<[4096:=mkLayout 16 8]> ∅)) (fun a => a)) (<[4096:=mkLayout 16 8]> ∅) 0 ∅) (Realloc 4096 100)) as (r & h' & E & Hh & _).
  - exact demo_supports.
  - exists 12. split; [lia|done].
  - exact demo_heap_inv.
  - apply rtc_once. exists (Malloc 12), 4096. split; [split; discriminate|]. vm_compute. reflexivity.
  - split; [right; eexists; reflexivity|split; discriminate].
  - exists r, h'. split; [exact E|]. split; [exact Hh|]. vm_compute in E. by injection E as <- _.
Defined.

Lemma malloc_free_roundtrip_witness :
  ∃ r h1 h2, C.c_malloc Linux 24 demo_heap = Ok (r, h1) ∧ C.c_free r h1 = Ok (tt, h2) ∧ live h2 = live demo_heap.
Proof.
  destruct (C.c_malloc Linux 24 demo_heap) as [[r h1]|] eqn:E; [|by vm_compute in E].
  destruct (malloc_free_roundtrip Linux demo_heap h1 24 r) as (h2 & E2 & _ & Hl & _).
  - exact demo_supports.
  - exact demo_heap_inv.
  - split; discriminate.
  - exact E.
  - exists r, h1, h2. split; [done|]. split; [exact E2|exact Hl].
Defined.

Definition demo_moved : CHeap BumpMem (gmap Z Layout) :=
  mkHeap (mkMem (mkBumpHeap 4112 (2 ^ 40) (<[4096:=mkLayout 16 8]> ∅)) (fun a => a)) (<[4096:=mkLayout 16 8]> ∅) 0 ∅.

Lemma demo_moved_inv : heap_inv demo_moved.
Proof.
  split; [split_and!; [done|done|]|]; intros p l Hp; cbn in *; [|exact Hp].
  apply lookup_insert_Some in Hp as [[<- <-]|[_ Hp]]; [cbn; lia|by rewrite lookup_empty in Hp].
Qed.

Lemma realloc_moved_leaks_layout_witness :
  ∃ r h', C.c_realloc Linux 4096 100 demo_moved = Ok (r, h') ∧ live h' !! 4096 = None ∧ lf_view (h_finder h') !! 4096 = Some (mkLayout 16 8).
Proof.
  destruct (C.c_realloc Linux 4096 100 demo_moved) as [[r h']|] eqn:E; [|by vm_compute in E]. exists r, h'. split; [done|].
  assert (Hr : r = 4112) by (clear -E; vm_compute in E; by injection E as <- _).
  apply (realloc_moved_leaks_layout Linux demo_moved h' 4096 100 r (mkLayout 16 8)).
  - exact demo_supports.
  - exact demo_moved_inv.
  - split; discriminate.
  - discriminate.
  - discriminate.
  - reflexivity.
  - exact E.
  - rewrite Hr. discriminate.
  - rewrite Hr. discriminate.
Defined.

Lemma oversized_requests_overflow_witness :
  C.c_calloc Linux (2 ^ 40) (2 ^ 30) demo_heap = Fault Overflow ∧ C.c_malloc Linux (2 ^ 64 - 1) demo_heap = Fault Overflow.
Proof.
  split.
  - apply (oversized_requests_overflow Linux demo_heap (2 ^ 40) (2 ^ 30)); [reflexivity|reflexivity|discriminate].
  - apply (oversized_requests_overflow Linux demo_heap 1 (2 ^ 64 - 1)); [reflexivity|reflexivity|discriminate|discriminate].
Defined.

Lemma posix_memalign_einval_witness :
  ∃ r h', C.c_posix_memalign Linux 64 8 100 demo_heap = Ok (r, h') ∧ (r = EINVAL ↔ 8 ≤ WORD_SIZE ∨ is_power_of_two 8 = false).
Proof.
  destruct (C.c_posix_memalign Linux 64 8 100 demo_heap) as [[r h']|] eqn:E; [|by vm_compute in E]. exists r, h'. split; [done|].
  apply (posix_memalign_einval Linux demo_heap h' 64 8 100 r).
  - exact demo_supports.
  - exact demo_heap_inv.
  - split; discriminate.
  - split; discriminate.
  - exact E.
Defined.
