(* ===== verification/ElfSources.v ===== *)
(** * Memory sources of elfmalloc

    Models [src/elfmalloc/src/utils.rs] (the [mmap] helpers, [Lazy] values and
    [TypedArray]) and [src/elfmalloc/src/sources.rs] (the [MemorySource]s
    [MmapSource] and [Creek]), over the page allocator of [MmapAlloc]. *)

From Stdlib Require Import ZArith Lia.
From S2P Require Import Prelude StdAlloc Backing MmapAlloc.
From stdpp Require Import base numbers list gmap option fin_maps.

Open Scope Z_scope.

(** ** [utils::mmap] *)
Module EMap.
Section ops.
Context {K : Type} `{!Kernel K}.

(** [MapAllocBuilder::default().exec(true).build()]. *)
Definition page_source : res MapAlloc := MB.build (MB.exec MB.default true).

Definition page_size : Z := k_page.

Definition fallible_map (size : Z) : M K (option Z) :=
  m ← lift page_source;
  l ← lift (unwrap (from_size_align size 1));
  r ← MMap.alloc m l;
  mret (match r with inl s => Some s | inr _ => None end).

Definition map (size : Z) : M K Z := r ← fallible_map size; lift (unwrap r).

Definition unmap (p len : Z) : M K unit :=
  m ← lift page_source;
  l ← lift (unwrap (from_size_align len 1));
  MMap.dealloc m p l.

Definition uncommit (p len : Z) : M K unit :=
  m ← lift page_source;
  l ← lift (unwrap (from_size_align len 1));
  MMap.uncommit m p l.
End ops.
End EMap.

(** ** [utils::Lazy] *)
Record Lazy (P T : Type) := mkLazy { lazy_params : P; lazy_val : option T }.
Arguments mkLazy {P T}.
Arguments lazy_params {P T}.
Arguments lazy_val {P T}.

Module Lz.
Section ops.
Context {P T : Type} (init : P → T).

Definition new (params : P) : Lazy P T := mkLazy params None.
Definition clone (l : Lazy P T) : Lazy P T := mkLazy (lazy_params l) None.
(** [deref] and [deref_mut]: the value, and the cell after the access. *)
Definition deref (l : Lazy P T) : T * Lazy P T :=
  match lazy_val l with
  | Some v => (v, l)
  | None => let v := init (lazy_params l) in (v, mkLazy (lazy_params l) (Some v))
  end.
End ops.
End Lz.

(** ** [utils::TypedArray] *)
Record TypedArray := mkArr { ta_data : Z; ta_len : Z; ta_mapped : Z }.

Module TA.
Section ops.
Context {K : Type} `{!Kernel K} (size_of_T : Z).

Definition new (size : Z) : M K TypedArray :=
  bytes ← lift (umul size_of_T size);
  rem ← lift (umod bytes EMap.page_size);
  q ← lift (udiv bytes EMap.page_size);
  n_pages ← lift (uadd q (Z.min 1 rem));
  region_size ← lift (umul n_pages EMap.page_size);
  mem ← EMap.map region_size;
  mret (mkArr mem size region_size).

Definition get (a : TypedArray) (n : Z) : Z := ta_data a + n * size_of_T.

(** [iter]: the addresses the iterator yields. *)
Definition iter (a : TypedArray) : list Z := get a <$> zrange 0 (ta_len a).

Definition len (a : TypedArray) : Z := ta_len a.

Definition destroy (a : TypedArray) : M K unit := EMap.unmap (ta_data a) (ta_mapped a).
End ops.
End TA.

(** ** [sources::MmapSource] *)
Record MmapSource := mkMmapSource { ms_page_size : Z }.

Module MSrc.
Section ops.
Context {K : Type} `{!Kernel K}.

Definition new (page_size : Z) : res MmapSource := p ← next_power_of_two page_size; Ok (mkMmapSource p).

Definition mod_size (x n : Z) : res Z := m ← usub n 1; Ok (Z.land x m).

Definition carve (s : MmapSource) (npages : Z) : M K (option Z) :=
  let page_size := ms_page_size s in
  let system_page_size := EMap.page_size in
  if page_size <=? system_page_size then
    n ← lift (umul npages page_size); EMap.fallible_map n
  else
    target_size ← lift (umul npages page_size);
    req_size ← lift (uadd target_size page_size);
    r ← EMap.fallible_map req_size;
    match r with
    | None => mret None
    | Some mem =>
        m ← lift (mod_size mem system_page_size);
        _ ← lift (rassert (m =? 0));
        rem1 ← lift (mod_size mem page_size);
        rem2 ← lift (usub page_size rem1);
        res ← lift (uadd mem rem2);
        m ← lift (mod_size res page_size);
        _ ← lift (rassert (m =? 0));
        _ ← (if 0 <? rem1 then t ← lift (uadd res target_size); EMap.unmap t rem1 else mret tt);
        _ ← (if 0 <? rem2 then EMap.unmap mem rem2 else mret tt);
        mret (Some res)
    end.
End ops.
End MSrc.

(** ** [sources::Creek]

    The bump counter is shared by the clones of a creek; it lives in the slush
    page and is updated by an atomic [fetch_add], so [carve] is one step on it. *)
Record Creek := mkCreek { cr_page_size : Z; cr_map : Z * Z; cr_base : Z; cr_slush : Z }.

Module Crk.
Section ops.
Context {K : Type} `{!Kernel K}.

Definition check_bump (c : Creek) : res unit := rassert (negb (cr_slush c =? 0)).

Definition carve (c : Creek) (bump npages : Z) : res (option Z * Z) :=
  _ ← check_bump c;
  let bump' := wadd bump npages in
  s ← uadd bump npages;
  t ← umul s (cr_page_size c);
  if t <? (cr_map c).2 then
    off ← umul bump (cr_page_size c);
    p ← uadd (cr_base c) off;
    Ok (Some p, bump')
  else Ok (None, bump').

(** The loop of [new]: a heap of the largest size that can be mapped. *)
Fixpoint get_heap (fuel : nat) (heap_size : Z) : M K (Z * Z) :=
  match fuel with
  | O => throw NoFuel
  | S f =>
      if 2 ^ 30 <? heap_size then
        r ← EMap.fallible_map heap_size;
        match r with
        | Some heap => mret (heap, heap_size)
        | None => get_heap f (heap_size / 2)
        end
      else throw Panicked
  end.

(** The tail of [new]: the slush page at the first page boundary of the heap,
    the first page to carve after it. *)
Definition place (page_size orig_base heap_size : Z) : res Creek :=
  rem ← umod orig_base page_size;
  base ← (if orig_base =? 0 then uadd orig_base page_size
          else if negb (rem =? 0) then d ← usub page_size rem; uadd orig_base d
          else Ok orig_base);
  real ← uadd base page_size;
  Ok (mkCreek page_size (orig_base, heap_size) real base).

Definition new (page_size : Z) : M K Creek :=
  _ ← lift (rassert (is_power_of_two page_size));
  _ ← lift (rassert (8 <? page_size));
  '(orig_base, heap_size) ← get_heap 12 (Z.shiftl 2 40);
  lift (place page_size orig_base heap_size).

Definition contains (c : Creek) (it : Z) : res bool :=
  _ ← check_bump c;
  hi ← uadd (cr_base c) (cr_map c).2;
  Ok ((cr_base c <=? it) && (it <? hi)).

Definition clone (c : Creek) : res Creek := _ ← check_bump c; Ok c.

(** [MapAddr::drop]: the last clone unmaps the heap. *)
Definition drop (c : Creek) : M K unit := EMap.unmap (cr_map c).1 (cr_map c).2.
End ops.
End Crk.

(** ** Mapping and unmapping *)
Section maps.
Context {K : Type} `{!Kernel K}.

(** A region of [n] bytes at [p] that was mapped between [k] and [k']: fresh,
    zeroed, and nothing else changed. *)
Definition fresh_region (k : K) (p n : Z) (k' : K) : Prop :=
  0 < p ∧ (k_page | p) ∧ p + n ≤ 2 ^ 63 ∧ pages_of k_page p n ## k_mapped k ∧ k_mapped k' = pages_of k_page p n ∪ k_mapped k ∧
  (∀ a, p ≤ a < p + n → k_byte k' a = 0) ∧ (∀ a, a / k_page ∈ k_mapped k → k_byte k' a = k_byte k a).

Lemma page_source_ok : ∃ m, EMap.page_source = Ok m ∧ pagesize m = k_page.
Proof. by eexists. Qed.

Lemma byte_layout n : 0 < n < 2 ^ 62 → unwrap (from_size_align n 1) = Ok (mkLayout n 1) ∧ map_legal k_page (mkLayout n 1).
Proof.
  intros Hn. split.
  - rewrite (from_size_align_Some n 1 0) by (done || lia || (unfold usize_max; lia)). done.
  - pose proof k_page_pos. split_and!; cbn; try lia. apply Z.divide_1_l.
Qed.

Lemma fallible_map_spec k n : k_ok k → 0 < n < 2 ^ 62 →
  ∃ r k', EMap.fallible_map n k = Ok (r, k') ∧ k_ok k' ∧ match r with Some p => fresh_region k p n k' | None => k' = k end.
Proof.
  intros Hk Hn. destruct page_source_ok as (m & Em & Hm), (byte_layout n Hn) as [El Hl]. unfold EMap.fallible_map.
  rewrite (lift_bind _ _ _ _ Em), (lift_bind _ _ _ _ El). destruct (map_alloc_spec m Hm k _ Hk Hl) as (r & k' & E & Hk' & Hr).
  rewrite (M_bind_run _ _ _ r k') by done. eexists _, _. split; [done|]. split; [done|]. destruct r as [p|[?|]]; [|by destruct Hr|done].
  destruct Hr as ((_ & H1 & H2 & H3) & H4 & H5 & H6 & H7). by split_and!.
Qed.

Lemma unmap_spec k p n : k_ok k → 0 < p → (k_page | p) → p + n ≤ 2 ^ 63 → 0 < n < 2 ^ 62 →
  ∃ k', EMap.unmap p n k = Ok (tt, k') ∧ k_ok k' ∧ k_mapped k' = k_mapped k ∖ pages_of k_page p n ∧
    (∀ a, a / k_page ∈ k_mapped k' → k_byte k' a = k_byte k a).
Proof.
  intros Hk Hp Hd Hend Hn. destruct page_source_ok as (m & Em & Hm), (byte_layout n Hn) as [El Hl]. unfold EMap.unmap.
  rewrite (lift_bind _ _ _ _ Em), (lift_bind _ _ _ _ El).
  destruct (map_dealloc_spec m k p (mkLayout n 1) Hk) as (k' & E & Hk' & Hmap & Hb); [by split_and!; try apply Hl|]. eauto.
Qed.

(** Memory that is uncommitted stays mapped. *)
Lemma uncommit_spec k p n : k_ok k → (k_page | p) → 0 < n < 2 ^ 62 → ∃ k', EMap.uncommit p n k = Ok (tt, k') ∧ k_ok k' ∧ k_mapped k' = k_mapped k.
Proof.
  intros Hk Hp Hn. destruct (k_madvise_spec k p n Hk) as [Hk' Hm]. destruct page_source_ok as (mm & Em & Hmm), (byte_layout n Hn) as [El _]. unfold EMap.uncommit.
  rewrite (lift_bind _ _ _ _ Em), (lift_bind _ _ _ _ El). unfold MMap.uncommit. cbn [layout_size]. rewrite lift_assert by (apply Z.ltb_lt; lia). unfold MMap.debug_verify_ptr. rewrite Hmm. pose proof k_page_pos.
  rewrite (lift_bind _ tt) by (rewrite umod_Ok, bind_Ok by lia; rewrite mod_0_divide by done; cbn; by rewrite (proj2 (Z.leb_le _ _)) by lia).
  eexists. split; [done|]. by split.
Qed.

(** A nonempty array maps a fresh region that holds it, or panics for lack of
    memory. *)
Lemma typed_array_new_spec (sz n : Z) (k : K) : k_ok k → 0 < sz → 0 < n → sz * n < 2 ^ 61 →
  TA.new sz n k = Fault UnwrapNone ∨
  ∃ a k', TA.new sz n k = Ok (a, k') ∧ k_ok k' ∧ ta_len a = n ∧ sz * n ≤ ta_mapped a < 2 ^ 62 ∧ fresh_region k (ta_data a) (ta_mapped a) k'.
Proof.
  intros Hk Hsz Hn Hb. unfold TA.new. pose proof k_page_pos as HP. pose proof page_small as HPs. assert (0 < sz * n) by nia.
  rewrite (lift_bind _ (sz * n)) by (apply umul_Ok; lia). unfold EMap.page_size.
  rewrite (lift_bind _ ((sz * n) mod k_page)) by (apply umod_Ok; lia). rewrite (lift_bind _ ((sz * n) / k_page)) by (apply udiv_Ok; lia).
  pose proof (Z.mod_pos_bound (sz * n) k_page HP). pose proof (Z.div_mod (sz * n) k_page). pose proof (Z.div_pos (sz * n) k_page).
  set (c := (sz * n) / k_page + Z.min 1 ((sz * n) mod k_page)) in *.
  assert (Hreg : sz * n ≤ c * k_page < sz * n + k_page).
  { unfold c. specialize (H1 ltac:(lia)). clear H2 c. revert H0 H1. generalize ((sz * n) mod k_page), ((sz * n) / k_page). intros r q Hr Hq.
    destruct (decide (r = 0)); [replace (Z.min 1 r) with 0 by lia|replace (Z.min 1 r) with 1 by lia]; lia. }
  assert (0 < c) by nia.
  rewrite (lift_bind _ c) by (apply uadd_Ok; fold c; nia). rewrite (lift_bind _ (c * k_page)) by (apply umul_Ok; lia).
  clearbody c. clear H0 H1 H2. unfold EMap.map. assert (Hc62 : 0 < c * k_page < 2 ^ 62) by lia.
  destruct (fallible_map_spec k (c * k_page) Hk Hc62) as ([p|] & k' & Er & Hk' & Hr); [right|left; unfold mbind, M_bind; by rewrite Er].
  assert (Em : (r ← EMap.fallible_map (c * k_page); lift (unwrap r)) k = Ok (p, k')) by (by rewrite (M_bind_run _ _ _ (Some p) k')).
  rewrite (M_bind_run _ _ _ p k' Em). eexists _, _. split; [done|]. split; [done|]. split; [done|]. split; [cbn; lia|exact Hr].
Qed.

(** An array of no elements cannot be made: the mapping of no bytes fails the
    assertion of the mapping allocator. *)
Lemma typed_array_empty (sz : Z) (k : K) : 0 < sz → TA.new sz 0 k = Fault AssertFailed.
Proof.
  intros Hsz. pose proof k_page_pos as HP. unfold TA.new. rewrite Z.mul_0_r || idtac. rewrite (lift_bind _ 0) by (rewrite umul_Ok by lia; f_equal; lia). unfold EMap.page_size.
  rewrite (lift_bind _ 0) by (rewrite umod_Ok by lia; done). rewrite (lift_bind _ 0) by (rewrite udiv_Ok by lia; done). rewrite (lift_bind _ 0) by done. rewrite (lift_bind _ 0) by (rewrite umul_Ok by lia; done).
  destruct page_source_ok as (m & Em & _). unfold EMap.map, EMap.fallible_map.
  assert (El : unwrap (from_size_align 0 1) = Ok (mkLayout 0 1)) by done.
  unfold mbind, M_bind, lift. rewrite Em, El. done.
Qed.

(** Arrays give back what they map.  [TypedArray::new] for a nonempty array
    either panics for lack of memory or maps fresh zeroed pages in which every
    element the iterator yields lies; [destroy] restores exactly the mappings
    from before. *)
Theorem typed_array_roundtrip (sz n : Z) (k k1 : K) (a : TypedArray) :
  k_ok k → 0 < sz → 0 < n → sz * n < 2 ^ 61 → TA.new sz n k = Ok (a, k1) →
  (∀ x, x ∈ TA.iter sz a → ta_data a ≤ x ∧ x + sz ≤ ta_data a + ta_mapped a) ∧ fresh_region k (ta_data a) (ta_mapped a) k1 ∧
  ∃ k2, TA.destroy a k1 = Ok (tt, k2) ∧ k_mapped k2 = k_mapped k ∧ ∀ x, x / k_page ∈ k_mapped k → k_byte k2 x = k_byte k x.
Proof.
  intros Hk Hsz Hn Hb E. destruct (typed_array_new_spec sz n k Hk Hsz Hn Hb) as [E'|(a' & k' & E' & Hk' & Hlen & Hm & Hr)]; [congruence|].
  rewrite E in E'. injection E' as <- <-. split; [|split; [done|]].
  - intros x (i & -> & Hi%elem_of_zrange)%list_elem_of_fmap. unfold TA.get. rewrite Hlen in Hi. nia.
  - destruct Hr as (Hp0 & Hpd & Hpe & H4 & H5 & H6 & H7). unfold TA.destroy. assert (0 < sz * n) by nia.
    destruct (unmap_spec k1 (ta_data a) (ta_mapped a) Hk' Hp0 Hpd Hpe) as (k2 & E2 & _ & Hm2 & Hb2); [lia|]. exists k2. split; [done|].
    assert (Em2 : k_mapped k2 = k_mapped k) by (rewrite Hm2, H5; set_solver). split; [done|].
    intros x Hx. rewrite Hb2 by (by rewrite Em2). by apply H7.
Qed.

Lemma mod_size_ok x e : 0 ≤ e ≤ 62 → MSrc.mod_size x (2 ^ e) = Ok (x mod 2 ^ e).
Proof. intros He. pose proof (pow2_pos e ltac:(lia)). unfold MSrc.mod_size. rewrite usub_Ok, bind_Ok, land_pow2_pred by lia. done. Qed.

(** Trimming a mapping at both ends leaves the pages between. *)
Lemma pages_trim mem n lo hi (X : gset Z) : (k_page | mem) → (k_page | n) → (k_page | lo) → (k_page | hi) → 0 ≤ lo → 0 ≤ hi → lo + hi ≤ n →
  pages_of k_page mem n ## X →
  (pages_of k_page mem n ∪ X) ∖ pages_of k_page (mem + n - hi) hi ∖ pages_of k_page mem lo = pages_of k_page (mem + lo) (n - lo - hi) ∪ X.
Proof.
  intros Hm Hn Hlo Hhi H1 H2 H3 Hd. pose proof k_page_pos as HP. apply set_eq. intros x.
  assert (HX : x ∈ X → ¬ mem ≤ x * k_page < mem + n) by (intros Hx Hp; apply (Hd x); [by apply elem_of_pages|done]).
  assert (k_page | mem + lo) by (by apply Z.divide_add_r). assert (k_page | mem + n - hi) by (apply Z.divide_sub_r; [by apply Z.divide_add_r|done]).
  rewrite !elem_of_difference, !elem_of_union, !elem_of_pages by done.
  split; [|intros [?|Hx]; [lia|specialize (HX Hx); split; [split; [by right|lia]|lia]]].
  intros [[[?|?] ?] ?]; [left; lia|by right].
Qed.

(** Unmapping the slack at both ends of an overlarge mapping. *)
Lemma trim_spec k k1 mem target ps rem1 : k_ok k1 → fresh_region k mem (target + ps) k1 → (k_page | ps) → (k_page | target) → (k_page | rem1) →
  0 < target → 0 ≤ rem1 < ps → target + ps < 2 ^ 62 →
  ∃ k3, (_ ← (if 0 <? rem1 then t ← lift (uadd (mem + (ps - rem1)) target); EMap.unmap t rem1 else mret tt);
         _ ← (if 0 <? ps - rem1 then EMap.unmap mem (ps - rem1) else mret tt);
         mret (Some (mem + (ps - rem1)))) k1 = Ok (Some (mem + (ps - rem1)), k3) ∧
    k_ok k3 ∧ fresh_region k (mem + (ps - rem1)) target k3.
Proof.
  intros Hk1 (H1 & H2 & H3 & H4 & H5 & H6 & H7) Hpp Hpt Hp1 Ht Hrem Hb. pose proof k_page_pos as HP.
  assert (Htail : ∃ k2, (if 0 <? rem1 then t ← lift (uadd (mem + (ps - rem1)) target); EMap.unmap t rem1 else mret tt) k1 = Ok (tt, k2) ∧ k_ok k2 ∧
    k_mapped k2 = k_mapped k1 ∖ pages_of k_page (mem + (target + ps) - rem1) rem1 ∧ (∀ a, a / k_page ∈ k_mapped k2 → k_byte k2 a = k_byte k1 a)).
  { destruct (Z.ltb_spec 0 rem1).
    - rewrite (lift_bind _ (mem + (target + ps) - rem1)) by (rewrite uadd_Ok by lia; f_equal; lia).
      apply unmap_spec; [done|lia| |lia|lia]. apply Z.divide_sub_r; [|done]. apply Z.divide_add_r; [done|by apply Z.divide_add_r].
    - exists k1. split; [done|]. split; [done|]. split; [|done]. assert (rem1 = 0) as -> by lia. apply set_eq. intros x.
      rewrite elem_of_difference, elem_of_pages; [|done|rewrite Z.sub_0_r; apply Z.divide_add_r; [done|by apply Z.divide_add_r]]. intuition lia. }
  destruct Htail as (k2 & Ek2 & Hk2 & Hm2 & Hb2). rewrite (M_bind_run _ _ _ tt k2) by done.
  rewrite (proj2 (Z.ltb_lt 0 (ps - rem1))) by lia.
  destruct (unmap_spec k2 mem (ps - rem1) Hk2 H1 H2) as (k3 & Ek3 & Hk3 & Hm3 & Hb3); [lia|lia|].
  rewrite (M_bind_run _ _ _ tt k3) by done. exists k3. split; [done|]. split; [done|].
  assert (Hp2 : (k_page | ps - rem1)) by (by apply Z.divide_sub_r).
  assert (Hfin : k_mapped k3 = pages_of k_page (mem + (ps - rem1)) target ∪ k_mapped k).
  { rewrite Hm3, Hm2, H5, pages_trim; try done; try lia; [|by apply Z.divide_add_r]. do 2 f_equal. lia. }
  assert (Hfr : ∀ a, a / k_page ∈ k_mapped k3 → k_byte k3 a = k_byte k1 a).
  { intros a Ha. rewrite Hb3 by done. apply Hb2. rewrite Hm3 in Ha. set_solver. }
  split_and!; try done; try lia.
  + by apply Z.divide_add_r.
  + intros x Hx Hx'. apply (H4 x); [|done]. apply elem_of_pages in Hx; [|done|by apply Z.divide_add_r]. apply elem_of_pages; [done|done|lia].
  + intros a Ha. rewrite Hfr; [apply H6; lia|]. rewrite Hfin. apply elem_of_union_l, page_of_byte; [done|by apply Z.divide_add_r|done].
  + intros a Ha. rewrite Hfr by (rewrite Hfin; by apply elem_of_union_r). by apply H7.
Qed.

(** [carve], with the state of the system. *)
Lemma mmap_carve_spec (e npages : Z) (k : K) :
  k_ok k → 0 ≤ e ≤ 40 → 1 ≤ npages → npages * 2 ^ e < 2 ^ 61 →
  ∃ r k', MSrc.carve (mkMmapSource (2 ^ e)) npages k = Ok (r, k') ∧ k_ok k' ∧
    match r with Some p => (2 ^ e | p) ∧ fresh_region k p (npages * 2 ^ e) k' | None => k' = k end.
Proof.
  intros Hk He Hn Hb. destruct k_page_pow2 as (s & Hs & Es). pose proof (pow2_pos e ltac:(lia)) as Hpe. pose proof k_page_pos as HP.
  unfold MSrc.carve, EMap.page_size. cbn [ms_page_size]. destruct (Z.leb_spec (2 ^ e) k_page) as [Hle|Hgt].
  - rewrite (lift_bind _ (npages * 2 ^ e)) by (apply umul_Ok; lia).
    assert (Hn62 : 0 < npages * 2 ^ e < 2 ^ 62) by nia. destruct (fallible_map_spec k (npages * 2 ^ e) Hk Hn62) as (r & k' & E & Hk' & Hr).
    exists r, k'. split; [done|]. split; [done|]. destruct r as [p|]; [|done]. split; [|done]. destruct Hr as (_ & Hd & _). eapply Z.divide_trans; [|done].
    rewrite Es in *. apply pow2_divide. split; [lia|]. apply (Z.pow_le_mono_r_iff 2); lia.
  - assert (Hpp : (k_page | 2 ^ e)). { rewrite Es in *. apply pow2_divide. split; [lia|]. apply Z.lt_le_incl, (Z.pow_lt_mono_r_iff 2); lia. }
    assert (2 ^ e ≤ 2 ^ 40) by (apply Z.pow_le_mono_r; lia). set (target := npages * 2 ^ e) in *. assert (0 < target) by (unfold target; nia).
    assert (Hpt : (k_page | target)) by (by apply Z.divide_mul_r). assert (Hreq : 0 < target + 2 ^ e < 2 ^ 62) by lia.
    rewrite (lift_bind _ target) by (apply umul_Ok; fold target; lia). rewrite (lift_bind _ (target + 2 ^ e)) by (apply uadd_Ok; lia).
    destruct (fallible_map_spec k (target + 2 ^ e) Hk Hreq) as ([mem|] & k1 & E & Hk1 & Hr).
    2: { rewrite (M_bind_run _ _ _ None k1) by done. subst k1. by exists None, k. }
    rewrite (M_bind_run _ _ _ (Some mem) k1) by done. pose proof Hr as (H1 & H2 & H3 & _).
    pose proof (Z.mod_pos_bound mem (2 ^ e) Hpe) as Hrem. pose proof (Z.div_mod mem (2 ^ e)) as Hdm.
    assert (Hp1 : (k_page | mem mod 2 ^ e)).
    { replace (mem mod 2 ^ e) with (mem - 2 ^ e * (mem / 2 ^ e)) by lia. apply Z.divide_sub_r; [done|by apply Z.divide_mul_l]. }
    set (rem1 := mem mod 2 ^ e) in *.
    rewrite (lift_bind _ 0); [|rewrite Es, mod_size_ok by lia; rewrite <- Es; f_equal; by apply mod_0_divide].
    rewrite lift_assert by done. rewrite (lift_bind _ rem1) by (by apply mod_size_ok; lia).
    rewrite (lift_bind _ (2 ^ e - rem1)) by (apply usub_Ok; lia). rewrite (lift_bind _ (mem + (2 ^ e - rem1))) by (apply uadd_Ok; lia).
    assert (Hres : (2 ^ e | mem + (2 ^ e - rem1))) by (exists (mem / 2 ^ e + 1); lia).
    rewrite (lift_bind _ 0) by (rewrite mod_size_ok by lia; f_equal; by apply mod_0_divide). rewrite lift_assert by done.
    destruct (trim_spec k k1 mem target (2 ^ e) rem1 Hk1 Hr Hpp Hpt Hp1) as (k3 & Ek3 & Hk3 & Hfr); [done|done|lia|].
    exists (Some (mem + (2 ^ e - rem1))), k3. split; [exact Ek3|]. split; [done|]. by split.
Qed.

(** Pages carved from the operating system are exact.  For page sizes that
    are powers of two (also those larger than the system's), [carve] returns an
    address that is a multiple of the page size and maps exactly the requested
    pages, fresh and zeroed, unmapping the slack it needed for the alignment;
    when memory is exhausted nothing changes; it never panics. *)
Theorem mmap_carve_exact (e npages : Z) (k : K) :
  k_ok k → 0 ≤ e ≤ 40 → 1 ≤ npages → npages * 2 ^ e < 2 ^ 61 →
  ∃ r k', MSrc.carve (mkMmapSource (2 ^ e)) npages k = Ok (r, k') ∧
    match r with Some p => (2 ^ e | p) ∧ fresh_region k p (npages * 2 ^ e) k' | None => k' = k end.
Proof.
  intros Hk He Hn Hb. destruct (mmap_carve_spec e npages k Hk He Hn Hb) as (r & k' & E & _ & Hr). by exists r, k'.
Qed.
End maps.

(** ** Creeks *)

(** The regions [(address, bytes)] a sequence of carves hands out, in order; the
    clones of a creek share its counter, so the sequence is that of all threads. *)
Fixpoint carves (c : Creek) (bump : Z) (reqs : list Z) : res (list (Z * Z)) :=
  match reqs with
  | [] => Ok []
  | n :: rest =>
      '(r, bump') ← Crk.carve c bump n;
      out ← carves c bump' rest;
      Ok (match r with Some p => (p, n * cr_page_size c) :: out | None => out end)
  end.

Definition disjoint_regions (r1 r2 : Z * Z) : Prop := r1.1 + r1.2 ≤ r2.1 ∨ r2.1 + r2.2 ≤ r1.1.

(** A creek placed in the heap [orig, orig + heap). *)
Definition creek_wf (c : Creek) : Prop :=
  0 < cr_page_size c ∧ cr_slush c ≠ 0 ∧ 0 ≤ (cr_map c).1 ∧ (cr_page_size c | (cr_map c).2) ∧ (cr_page_size c | cr_base c) ∧
  (cr_map c).1 + cr_page_size c ≤ cr_base c ∧ 0 ≤ cr_base c ∧ cr_base c + (cr_map c).2 < usize_max.

Definition carve_total (bump : Z) (reqs : list Z) : Z := foldr Z.add bump reqs.

Lemma carve_spec c bump n : creek_wf c → 0 ≤ bump → 0 ≤ n → (bump + n) * cr_page_size c < 2 ^ 64 →
  ∃ r, Crk.carve c bump n = Ok (r, bump + n) ∧
    match r with
    | Some p => p = cr_base c + bump * cr_page_size c ∧ (bump + n) * cr_page_size c ≤ (cr_map c).2 - cr_page_size c
    | None => (cr_map c).2 ≤ (bump + n) * cr_page_size c
    end.
Proof.
  intros (Hps & Hs & Ho & [h Hh] & _ & Hb & Hb0 & Hbnd) Hbu Hn Hov. unfold Crk.carve, Crk.check_bump, usize_max in *.
  rewrite (proj2 (Z.eqb_neq _ _) Hs). cbn [negb rassert].
  assert (Hs64 : bump + n < 2 ^ 64) by (clear - Hps Hov Hbu Hn; nia). assert (Hw : wadd bump n = bump + n) by (apply Z.mod_small; lia).
  rewrite bind_Ok, Hw, uadd_Ok, bind_Ok, (umul_Ok (bump + n)), bind_Ok by done.
  destruct (Z.ltb_spec ((bump + n) * cr_page_size c) (cr_map c).2) as [Hlt|Hge]; [|by eexists].
  assert (bump * cr_page_size c ≤ (bump + n) * cr_page_size c) by (apply Z.mul_le_mono_nonneg_r; lia).
  rewrite umul_Ok, bind_Ok, uadd_Ok, bind_Ok by lia. eexists. split; [done|]. split; [done|]. rewrite Hh in *.
  apply Z.mul_lt_mono_pos_r in Hlt; [|done]. replace (h * cr_page_size c - cr_page_size c) with ((h - 1) * cr_page_size c) by lia.
  apply Z.mul_le_mono_nonneg_r; lia.
Qed.

(** Carved regions are whole aligned pages between the slush page and the end
    of the heap, one after the other. *)
Lemma carves_spec c reqs : creek_wf c → ∀ bump, 0 ≤ bump → Forall (λ n, 0 ≤ n) reqs → carve_total bump reqs * cr_page_size c < 2 ^ 64 →
  ∃ out, carves c bump reqs = Ok out ∧
    Forall (λ r, (cr_page_size c | r.1) ∧ cr_base c + bump * cr_page_size c ≤ r.1 ∧ r.1 + r.2 ≤ cr_base c + (cr_map c).2 - cr_page_size c) out ∧
    ForallOrdPairs disjoint_regions out.
Proof.
  intros Hc. pose proof Hc as (Hps & _ & _ & _ & Hbd & _).
  induction reqs as [|n reqs IH]; intros bump Hb Hall Ht; [exists []; repeat constructor|].
  apply Forall_cons in Hall as [Hn Hall]. unfold carve_total in *. cbn [foldr] in Ht.
  assert (Hsum : ∀ b, foldr Z.add b reqs = b + foldr Z.add 0 reqs) by (clear; intros b; induction reqs as [|x l IH]; cbn; lia).
  assert (Hpos : 0 ≤ foldr Z.add 0 reqs) by (clear -Hall; induction Hall; cbn; lia). rewrite (Hsum bump) in Ht.
  destruct (carve_spec c bump n Hc Hb Hn) as (r & E & Hr); [nia|]. cbn [carves]. rewrite E, bind_Ok.
  destruct (IH (bump + n)) as (out & Eo & Hin & Hord); [lia|done|rewrite Hsum; nia|]. rewrite Eo, bind_Ok. eexists. split; [done|].
  assert (Hin' : Forall (λ r, (cr_page_size c | r.1) ∧ cr_base c + bump * cr_page_size c ≤ r.1 ∧ r.1 + r.2 ≤ cr_base c + (cr_map c).2 - cr_page_size c) out).
  { eapply Forall_impl; [exact Hin|]. cbn. intros x (? & ? & ?). split_and!; [done|nia|done]. }
  destruct r as [p|]; [|by split]. destruct Hr as [-> Hlim]. split; constructor; try done; cbn.
  - split_and!; [|lia|lia]. apply Z.divide_add_r; [done|]. apply Z.divide_factor_r.
  - eapply Forall_impl; [exact Hin|]. cbn. intros x (? & ? & ?). left. cbn. lia.
Qed.

(** Where [new] places a creek, for a heap that is a multiple of the page size. *)
Lemma place_spec_creek ps orig heap : 0 < ps → 0 < orig → (ps | heap) → 0 < heap → orig + heap + 2 * ps < usize_max →
  ∃ c, Crk.place ps orig heap = Ok c ∧ creek_wf c ∧ cr_page_size c = ps ∧ cr_map c = (orig, heap) ∧
    cr_base c = orig + ps + (if decide (orig mod ps = 0) then 0 else ps - orig mod ps).
Proof.
  intros Hps Ho Hd Hh Hb. pose proof (Z.mod_pos_bound orig ps Hps) as Hm. pose proof (Z.div_mod orig ps ltac:(lia)) as Hdm. unfold usize_max in *.
  unfold Crk.place, creek_wf. rewrite umod_Ok, bind_Ok by lia. rewrite (proj2 (Z.eqb_neq orig 0)) by lia.
  destruct (decide (orig mod ps = 0)) as [E|E].
  - rewrite E. cbn [negb Z.eqb]. rewrite bind_Ok, uadd_Ok, bind_Ok by lia. eexists. split; [done|]. cbn. unfold usize_max.
    split; [|split_and!; (done || lia)]. split_and!; try lia; [done|]. apply Z.divide_add_r; [apply Z.mod_divide; lia|apply Z.divide_refl].
  - rewrite (proj2 (Z.eqb_neq _ 0) E). cbn [negb]. rewrite usub_Ok, bind_Ok, uadd_Ok, bind_Ok, uadd_Ok, bind_Ok by lia. eexists. split; [done|].
    cbn. unfold usize_max. split; [|split_and!; (done || lia)]. split_and!; try lia; [done|]. exists (orig / ps + 2). lia.
Qed.

Section creeks.
Context {K : Type} `{!Kernel K}.

Lemma get_heap_spec k fuel e : k_ok k → 30 ≤ e ≤ 41 → (Z.to_nat (e - 30) < fuel)%nat →
  Crk.get_heap fuel (2 ^ e) k = Fault Panicked ∨
  ∃ p e' k', Crk.get_heap fuel (2 ^ e) k = Ok ((p, 2 ^ e'), k') ∧ 30 < e' ≤ e ∧ k_ok k' ∧ fresh_region k p (2 ^ e') k'.
Proof.
  revert e. induction fuel as [|f IH]; intros e Hk He Hf; [lia|]. cbn [Crk.get_heap]. destruct (Z.ltb_spec (2 ^ 30) (2 ^ e)) as [Hlt|]; [|by left].
  apply Z.pow_lt_mono_r_iff in Hlt; [|lia|lia]. assert (2 ^ e ≤ 2 ^ 41) by (apply Z.pow_le_mono_r; lia). pose proof (pow2_pos e ltac:(lia)).
  destruct (fallible_map_spec k (2 ^ e) Hk) as (r & k' & E & Hk' & Hr); [lia|]. rewrite (M_bind_run _ _ _ r k') by done.
  destruct r as [p|]; [right; exists p, e, k'; split_and!; (done || lia)|]. subst k'.
  replace (2 ^ e / 2) with (2 ^ (e - 1)) by (rewrite Z.pow_sub_r by lia; done).
  destruct (IH (e - 1) Hk) as [?|(p & e' & k' & ? & ? & ?)]; [lia|lia|by left|right]. exists p, e', k'. split_and!; (done || lia || apply H2 || apply H3).
Qed.

(** C26: creeks hand out disjoint pages of their heap.  [Creek::new] panics for
    lack of memory or maps a fresh heap, and when that heap starts at a multiple
    of the creek's page size, then whatever pages the threads that share the
    creek carve, in any order and until it is exhausted, every result is a
    multiple of the page size, lies in the mapped heap behind the page that
    holds the shared counter, and no two results overlap. *)
Theorem creek_carves_disjoint (e : Z) (k : K) (reqs : list Z) :
  k_ok k → 4 ≤ e ≤ 30 → Forall (λ n, 0 ≤ n) reqs → carve_total 0 reqs * 2 ^ e < 2 ^ 64 →
  Crk.new (2 ^ e) k = Fault Panicked ∨
  ∃ c orig heap k', Crk.new (2 ^ e) k = Ok (c, k') ∧ cr_map c = (orig, heap) ∧ fresh_region k orig heap k' ∧
    ((2 ^ e | orig) → ∃ out, carves c 0 reqs = Ok out ∧ cr_slush c = orig ∧
       Forall (λ r, (2 ^ e | r.1) ∧ orig + 2 ^ e ≤ r.1 ∧ r.1 + r.2 ≤ orig + heap) out ∧ ForallOrdPairs disjoint_regions out).
Proof.
  intros Hk He Hall Ht. pose proof (pow2_pos e ltac:(lia)) as Hpe. unfold Crk.new.
  assert (2 ^ 4 ≤ 2 ^ e ≤ 2 ^ 30) by (split; apply Z.pow_le_mono_r; lia).
  rewrite lift_assert by (by apply is_power_of_two_pow2; lia). rewrite lift_assert by (apply Z.ltb_lt; lia).
  change (Z.shiftl 2 40) with (2 ^ 41). destruct (get_heap_spec k 12 41 Hk) as [E|(p & e' & k' & E & He' & Hk' & Hr)]; [lia|cbn; lia| |].
  { left. unfold mbind at 1, M_bind. by rewrite E. }
  right. rewrite (M_bind_run _ _ _ (p, 2 ^ e') k') by done. pose proof Hr as (Hp & _ & Hend & _).
  assert (Hdiv : (2 ^ e | 2 ^ e')) by (apply pow2_divide; lia). pose proof (pow2_pos e' ltac:(lia)).
  assert (Hroom : p + 2 ^ e' + 2 * 2 ^ e < usize_max) by (unfold usize_max; lia).
  destruct (place_spec_creek (2 ^ e) p (2 ^ e') Hpe Hp Hdiv ltac:(lia) Hroom) as (c & Ec & Hwf & Eps & Em & Eb).
  exists c, p, (2 ^ e'), k'. split; [unfold lift; by rewrite Ec|]. split; [done|]. split; [done|]. intros Ha%Z.mod_divide; [|lia].
  destruct (carves_spec c reqs Hwf 0) as (out & Eo & Hin & Hord); [lia|done|by rewrite Eps|]. exists out. split; [done|].
  rewrite decide_True in Eb by done. split; [|split; [|done]].
  - clear -Ec Ha Hp Hpe. unfold Crk.place in Ec. rewrite umod_Ok, bind_Ok, Ha in Ec by lia. rewrite (proj2 (Z.eqb_neq p 0)) in Ec by lia.
    cbn [negb Z.eqb] in Ec. rewrite bind_Ok in Ec. inv_res. done.
  - eapply Forall_impl; [exact Hin|]. rewrite Eps, Em, Eb. cbn. intros x (? & ? & ?). split_and!; [done|lia|lia].
Qed.
End creeks.

(** A creek whose heap is not aligned to its page size gives out memory it
    does not own.  [new] then skips to the next page boundary, but [carve] and
    [contains] compare against the size of the whole heap: asking for all but
    one page of the heap succeeds and ends past the mapping, and addresses past
    the mapping count as contained. *)
Theorem creek_carve_leaves_mapping (ps orig heap : Z) :
  0 < ps → 0 < orig → (ps | heap) → 2 * ps ≤ heap → orig + heap + 2 * ps < usize_max → ¬ (ps | orig) →
  ∃ c p, Crk.place ps orig heap = Ok c ∧ Crk.carve c 0 (heap / ps - 1) = Ok (Some p, heap / ps - 1) ∧
    orig + heap < p + (heap / ps - 1) * ps ∧ Crk.contains c (orig + heap) = Ok true.
Proof.
  intros Hps Ho Hd Hh Hb Ha. destruct (place_spec_creek ps orig heap Hps Ho Hd ltac:(lia) Hb) as (c & Ec & Hwf & Eps & Em & Eb).
  rewrite decide_False in Eb by (by rewrite Z.mod_divide by lia). pose proof (Z.mod_pos_bound orig ps Hps). pose proof Hd as [h Hdh].
  assert (Hq : heap / ps = h) by (rewrite Hdh; apply Z.div_mul; lia). unfold usize_max in *. rewrite Hq.
  destruct (carve_spec c 0 (h - 1) Hwf) as (r & E & Hr); [lia|nia|rewrite Eps; nia|]. rewrite Eps, Em, Eb in Hr. cbn [snd] in Hr.
  destruct r as [p|]; [|nia]. destruct Hr as [Ep _]. exists c, p. split; [done|]. split; [done|]. split; [nia|].
  unfold Crk.contains, Crk.check_bump. destruct Hwf as (_ & Hs & _). rewrite (proj2 (Z.eqb_neq _ _) Hs). cbn [negb rassert].
  rewrite bind_Ok, Em, Eb. cbn [snd]. rewrite uadd_Ok, bind_Ok by lia. f_equal. apply andb_true_iff. rewrite Z.leb_le, Z.ltb_lt. nia.
Qed.

(** ** Witnesses *)
Lemma typed_array_roundtrip_witness :
  ∃ a k1 k2, TA.new (K := ToyKernel) 24 300 toy_k0 = Ok (a, k1) ∧ TA.destroy (K := ToyKernel) a k1 = Ok (tt, k2) ∧ k_mapped k2 = k_mapped toy_k0.
Proof.
  destruct (TA.new (K := ToyKernel) 24 300 toy_k0) as [[a k1]|] eqn:E; [|by vm_compute in E].
  destruct (typed_array_roundtrip 24 300 toy_k0 k1 a toy_k0_ok eq_refl eq_refl eq_refl E) as (_ & _ & k2 & E2 & Hm & _).
  exists a, k1, k2. split; [reflexivity|]. split; [exact E2|exact Hm].
Defined.

Lemma mmap_carve_exact_witness :
  ∃ r k', MSrc.carve (K := ToyKernel) (mkMmapSource (2 ^ 14)) 2 toy_k0 = Ok (r, k').
Proof.
  destruct (mmap_carve_exact 14 2 toy_k0 toy_k0_ok) as (r & k' & E & _); [split; discriminate|discriminate|reflexivity|].
  exists r, k'. exact E.
Defined.

Lemma creek_carves_disjoint_witness : 
  Crk.new (K := ToyKernel) (2 ^ 12) toy_k0 = Fault Panicked ∨ ∃ c k', Crk.new (K := ToyKernel) (2 ^ 12) toy_k0 = Ok (c, k').
Proof.
  destruct (creek_carves_disjoint 12 toy_k0 [1; 3] toy_k0_ok) as [E|(c & o & h & k' & E & _)].
  - split; discriminate.
  - repeat constructor; discriminate.
  - reflexivity.
  - left. exact E.
  - right. exists c, k'. exact E.
Defined.

Lemma creek_carve_leaves_mapping_witness : ∃ c p, Crk.place (2 ^ 21) 4096 (2 ^ 31) = Ok c ∧ Crk.carve c 0 1023 = Ok (Some p, 1023) ∧ 4096 + 2 ^ 31 < p + 1023 * 2 ^ 21.
Proof.
  destruct (creek_carve_leaves_mapping (2 ^ 21) 4096 (2 ^ 31)) as (c & p & H1 & H2 & H3 & _);
    [reflexivity|reflexivity|exists 1024; reflexivity|discriminate|reflexivity| |exists c, p; split; [exact H1|split; [exact H2|exact H3]]].
  intros [z Hz]. lia.
Defined.
