(* ===== verification/F64.v ===== *)
(** * IEEE double precision

    The [f64] arithmetic [compute_metadata] of elfmalloc scores layouts with:
    the specification of binary64 of the standard library, and the facts on
    signs and comparison the choice of a layout depends on. *)

From Stdlib Require Import ZArith Lia SpecFloat.
From S2P Require Import Prelude.
From stdpp Require Import base numbers list option.

Open Scope Z_scope.

Abbreviation f64 := spec_float.

Definition prec64 : Z := 53.
Definition emax64 : Z := 1024.

(** [n as f64] for an unsigned integer. *)
Definition f_of_usize (n : Z) : f64 := binary_normalize prec64 emax64 n 0 false.
Definition f_mul (x y : f64) : f64 := SFmul prec64 emax64 x y.
Definition f_div (x y : f64) : f64 := SFdiv prec64 emax64 x y.
Definition f_sub (x y : f64) : f64 := SFsub prec64 emax64 x y.
Definition f_abs (x : f64) : f64 := SFabs x.
Definition f_neg (x : f64) : f64 := SFopp x.
Definition f_lt (x y : f64) : bool := SFltb x y.
(** [x as usize]: truncation, saturating at the ends. *)
Definition f_to_usize (x : f64) : Z :=
  match x with
  | S754_finite false m e => Z.min (Z.shiftl (Zpos m) e) usize_max
  | S754_infinity false => usize_max
  | _ => 0
  end.

(** A nonzero number of sign [s] whose exponent is at least [lo]. *)
Definition signed (s : bool) (lo : Z) (x : f64) : Prop :=
  match x with S754_finite s' _ e => s' = s ∧ lo ≤ e | S754_infinity s' => s' = s | _ => False end.

Lemma signed_lt lo lo' x y : signed true lo x → signed false lo' y → f_lt x y = true.
Proof. destruct x as [|[]| |[]], y as [|[]| |[]]; cbn; naive_solver. Qed.

Lemma signed_mono s lo lo' x : lo' ≤ lo → signed s lo x → signed s lo' x.
Proof. destruct x; cbn; try done. intros ? [-> ?]. split; [done|lia]. Qed.

(** ** Rounding keeps the sign and does not underflow *)
Lemma digits2_log2 p : Zpos (digits2_pos p) = Z.log2 (Zpos p) + 1.
Proof.
  induction p as [p IH|p IH|]; [| |done].
  - cbn [digits2_pos]. rewrite Pos2Z.inj_succ, IH, Pos2Z.inj_xI, Z.log2_succ_double by lia. lia.
  - cbn [digits2_pos]. rewrite Pos2Z.inj_succ, IH, Pos2Z.inj_xO, Z.log2_double by lia. lia.
Qed.

Lemma Zdigits2_log2 m : 0 < m → Zdigits2 m = Z.log2 m + 1.
Proof. destruct m; [lia|intros _; apply digits2_log2|lia]. Qed.

Lemma shr_1_m r : 0 ≤ shr_m r → shr_m (shr_1 r) = shr_m r / 2.
Proof.
  destruct r as [m r s]. cbn [shr_m]. intros H. rewrite <- Z.div2_div. by destruct m as [|[]|]; cbn.
Qed.

Lemma iter_shr p : ∀ r, 0 ≤ shr_m r → shr_m (SpecFloat.iter_pos shr_1 p r) = shr_m r / 2 ^ Zpos p.
Proof.
  assert (Hdd : ∀ a b c, 0 ≤ b → 0 ≤ c → a / 2 ^ b / 2 ^ c = a / 2 ^ (b + c)).
  { intros a b c Hb Hc. pose proof (pow2_pos b Hb). pose proof (pow2_pos c Hc). by rewrite Z.div_div, <- Z.pow_add_r by lia. }
  assert (Hnn : ∀ a b, 0 ≤ a → 0 ≤ b → 0 ≤ a / 2 ^ b) by (intros a b Ha Hb; apply Z.div_pos; [done|by apply pow2_pos]).
  induction p as [p IH|p IH|]; intros r Hr; cbn [SpecFloat.iter_pos].
  - assert (E1 : shr_m (shr_1 r) = shr_m r / 2 ^ 1) by (by apply shr_1_m).
    assert (0 ≤ shr_m (shr_1 r)) by (rewrite E1; by apply Hnn).
    rewrite (IH (SpecFloat.iter_pos shr_1 p (shr_1 r))), (IH (shr_1 r)), E1, !Hdd; try lia; [f_equal; f_equal; lia|].
    rewrite IH by done. by apply Hnn.
  - rewrite (IH (SpecFloat.iter_pos shr_1 p r)), (IH r), Hdd; try lia; [f_equal; f_equal; lia|]. rewrite IH by done. by apply Hnn.
  - by apply shr_1_m.
Qed.

Lemma shr_fexp_pos m e l : 0 < m → emin prec64 emax64 ≤ e →
  ∃ r e', shr_fexp prec64 emax64 m e l = (r, e') ∧ 0 < shr_m r ∧ e ≤ e'.
Proof.
  intros Hm He. unfold shr_fexp, shr. rewrite Zdigits2_log2 by done. pose proof (Z.log2_nonneg m) as Hl.
  assert (Hmr : shr_m (shr_record_of_loc m l) = m) by (by destruct l as [|[]]).
  destruct (fexp prec64 emax64 (Z.log2 m + 1 + e) - e) as [|n|n] eqn:E; eexists _, _; (split; [done|]); rewrite ?Hmr; [lia| |lia].
  rewrite iter_shr, Hmr by lia. split; [|lia]. apply Z.div_str_pos. unfold fexp, prec64 in *.
  assert (Zpos n ≤ Z.log2 m) by lia. pose proof (Z.log2_spec m Hm). split; [by apply pow2_pos|].
  pose proof (Z.pow_le_mono_r 2 (Zpos n) (Z.log2 m)). lia.
Qed.

Lemma round_aux_signed s m e l : 0 < m → emin prec64 emax64 ≤ e → signed s e (binary_round_aux prec64 emax64 s m e l).
Proof.
  intros Hm He. unfold binary_round_aux. destruct (shr_fexp_pos m e l Hm He) as (r & e' & -> & Hr & He').
  assert (Hrd : 0 < round_nearest_even (shr_m r) (loc_of_shr_record r)) by (unfold round_nearest_even; repeat case_match; lia).
  destruct (shr_fexp_pos _ e' loc_Exact Hrd ltac:(lia)) as (r2 & e2 & -> & Hr2 & He2).
  destruct (shr_m r2); [lia| |lia]. case_match; [|done]. split; [done|lia].
Qed.

(** ** Small integers are exact *)
Definition f_int (n : Z) : f64 := S754_finite false (Z.to_pos (n * 2 ^ (52 - Z.log2 n))) (Z.log2 n - 52).

Lemma f_int_mantissa n : 0 < n < 2 ^ 53 → 2 ^ 52 ≤ n * 2 ^ (52 - Z.log2 n) < 2 ^ 53.
Proof.
  intros Hn. pose proof (Z.log2_spec n ltac:(lia)) as [H1 H2]. pose proof (Z.log2_nonneg n).
  assert (Z.log2 n < 53) by (apply Z.log2_lt_pow2; lia). pose proof (pow2_pos (52 - Z.log2 n) ltac:(lia)) as Hp.
  replace (2 ^ 52) with (2 ^ Z.log2 n * 2 ^ (52 - Z.log2 n)) by (rewrite <- Z.pow_add_r by lia; f_equal; lia).
  replace (2 ^ 53) with (2 ^ Z.succ (Z.log2 n) * 2 ^ (52 - Z.log2 n)) by (rewrite <- Z.pow_add_r by lia; f_equal; lia).
  split; [apply Z.mul_le_mono_nonneg_r|apply Z.mul_lt_mono_pos_r]; lia.
Qed.

Lemma round_exact s m e : 2 ^ 52 ≤ Zpos m < 2 ^ 53 → emin prec64 emax64 ≤ e ≤ 100 →
  binary_round_aux prec64 emax64 s (Zpos m) e loc_Exact = S754_finite s m e.
Proof.
  intros Hm He. assert (Hd : Zdigits2 (Zpos m) = 53).
  { rewrite Zdigits2_log2 by lia. assert (Z.log2 (Zpos m) = 52); [|lia]. apply Z.log2_unique; [lia|]. exact Hm. }
  unfold binary_round_aux, shr_fexp. rewrite Hd. assert (Hz : fexp prec64 emax64 (53 + e) - e = 0) by (unfold fexp, emin, prec64, emax64 in *; lia).
  rewrite Hz. cbn [shr shr_record_of_loc shr_m loc_of_shr_record round_nearest_even]. rewrite Hd, Hz. cbn [shr shr_record_of_loc shr_m].
  rewrite (proj2 (Z.leb_le _ _)); [done|]. unfold emax64, prec64. lia.
Qed.

Lemma shl_align_pos m d : Zpos (Pos.iter xO m d) = Zpos m * 2 ^ Zpos d.
Proof.
  induction d as [|d IH] using Pos.peano_ind; [cbn; lia|].
  rewrite Pos.iter_succ, Pos2Z.inj_xO, IH, Pos2Z.inj_succ, Z.pow_succ_r by lia. lia.
Qed.

Lemma f_of_usize_exact n : 0 < n < 2 ^ 53 → f_of_usize n = f_int n.
Proof.
  intros Hn. destruct n as [|p|]; [lia| |lia]. unfold f_of_usize, binary_normalize, binary_round, f_int.
  pose proof (f_int_mantissa _ Hn) as Hm. assert (Hl : Z.log2 (Zpos p) < 53) by (apply Z.log2_lt_pow2; lia). pose proof (Z.log2_nonneg (Zpos p)).
  rewrite digits2_log2. unfold shl_align. assert (fexp prec64 emax64 (Z.log2 (Zpos p) + 1 + 0) - 0 = Z.log2 (Zpos p) - 52) as -> by (unfold fexp, emin, prec64, emax64; lia).
  destruct (Z.log2 (Zpos p) - 52) as [|d|d] eqn:E; [|lia|].
  - assert (El : Z.log2 (Zpos p) = 52) by lia. rewrite El in *. change (52 - 52) with 0 in *. rewrite Z.pow_0_r, Z.mul_1_r in *. 
    rewrite round_exact; [done|exact Hm|unfold emin, prec64, emax64; lia].
  - assert (E2 : Zpos (Pos.iter xO p d) = Zpos p * 2 ^ (52 - Z.log2 (Zpos p))) by (rewrite shl_align_pos; do 2 f_equal; lia).
    assert (fexp prec64 emax64 (Z.log2 (Zpos p) + 1 + 0) = Zneg d) as -> by (unfold fexp, emin, prec64, emax64; lia).
    rewrite round_exact; [|by rewrite E2|unfold emin, prec64, emax64; lia]. rewrite <- E2. done.
Qed.

Lemma f_lt_exact a b : 0 < a < 2 ^ 53 → 0 < b < 2 ^ 53 → f_lt (f_of_usize a) (f_of_usize b) = (a <? b).
Proof.
  intros Ha Hb. rewrite !f_of_usize_exact by done. pose proof (f_int_mantissa a Ha). pose proof (f_int_mantissa b Hb).
  unfold f_lt, f_int, SFltb, SFcompare. destruct (Z.compare_spec (Z.log2 a - 52) (Z.log2 b - 52)) as [E|E|E].
  - assert (El : Z.log2 a = Z.log2 b) by lia. rewrite El in *. change (Pos.compare_cont Eq ?x ?y) with (Pos.compare x y).
    rewrite Pos2Z.inj_compare, !Z2Pos.id by lia. assert (Z.log2 b < 53) by (apply Z.log2_lt_pow2; lia).
    rewrite <- Zmult_compare_compat_r by (apply Z.lt_gt, pow2_pos; lia). unfold Z.ltb. by destruct (a ?= b).
  - symmetry. apply Z.ltb_lt. apply Z.log2_lt_cancel. lia.
  - symmetry. apply Z.ltb_ge. apply Z.lt_le_incl, Z.log2_lt_cancel. lia.
Qed.

(** ** Signs of products and quotients *)
Lemma f_int_signed n : 0 < n < 2 ^ 53 → signed false (-52) (f_of_usize n).
Proof. intros Hn. rewrite f_of_usize_exact by done. cbn. pose proof (Z.log2_nonneg n). lia. Qed.

Lemma f_mul_signed s1 s2 lo1 lo2 x y : signed s1 lo1 x → signed s2 lo2 y → -1000 ≤ lo1 + lo2 → signed (xorb s1 s2) (lo1 + lo2) (f_mul x y).
Proof.
  destruct x as [|s| |s m e], y as [|s'| |s' m' e']; cbn [signed]; try done; try naive_solver.
  intros [-> He] [-> He'] Hlo. unfold f_mul, SFmul. apply (signed_mono _ (e + e')); [lia|].
  apply round_aux_signed; [lia|unfold emin, prec64, emax64; lia].
Qed.

Lemma f_div_signed s lo x n : signed s lo x → -500 ≤ lo → 0 < n < 2 ^ 53 → signed s (lo - 200) (f_div x (f_of_usize n)).
Proof.
  intros Hx Hlo Hn. pose proof (f_int_mantissa n Hn) as Hm. rewrite f_of_usize_exact by done. unfold f_int.
  assert (El : Z.log2 n < 53) by (apply Z.log2_lt_pow2; lia). pose proof (Z.log2_nonneg n) as Hl0.
  set (e2 := Z.log2 n - 52) in *. set (m2 := Z.to_pos _). assert (Em2 : Zpos m2 = n * 2 ^ (52 - Z.log2 n)) by (apply Z2Pos.id; lia).
  assert (Hd2 : Z.log2 (Zpos m2) = 52) by (rewrite Em2; by apply Z.log2_unique). clearbody m2.
  destruct x as [|s'| |s' m1 e1]; cbn in Hx; [done|subst; by destruct s|done|]. destruct Hx as [-> He1].
  unfold f_div, SFdiv, SFdiv_core_binary. rewrite !Zdigits2_log2, Hd2 by lia. pose proof (Z.log2_nonneg (Zpos m1)) as Hl1.
  assert (Ef : fexp prec64 emax64 (Z.log2 (Zpos m1) + 1 + e1 - (52 + 1 + e2)) = Z.log2 (Zpos m1) + 1 + e1 - (52 + 1 + e2) - 53)
    by (unfold fexp, emin, prec64, emax64; lia).
  rewrite Ef. clear Ef. set (e' := Z.min _ _). set (m' := match e1 - e2 - e' with Z0 => _ | Zpos _ => _ | Zneg _ => _ end).
  assert (He' : lo - 200 ≤ e' ∧ -1000 ≤ e') by lia.
  assert (Em' : m' = Zpos m1 * 2 ^ (e1 - e2 - e')).
  { unfold m'. destruct (e1 - e2 - e') as [|d|d] eqn:E; [lia|by apply Z.shiftl_mul_pow2|lia]. }
  assert (Hge : Zpos m2 ≤ m').
  { pose proof (Z.log2_spec (Zpos m1) ltac:(lia)) as [H1 _]. rewrite Em'.
    transitivity (2 ^ (Z.log2 (Zpos m1) + (e1 - e2 - e'))); [|rewrite Z.pow_add_r by lia; apply Z.mul_le_mono_nonneg_r; [apply Z.pow_nonneg|]; lia].
    transitivity (2 ^ 53); [lia|]. apply Z.pow_le_mono_r; lia. }
  pose proof (Z_div_mod m' (Zpos m2) ltac:(lia)) as Hdm. destruct (Z.div_eucl m' (Zpos m2)) as [q r].
  rewrite xorb_false_r. apply (signed_mono _ e'); [lia|]. apply round_aux_signed; [nia|unfold emin, prec64, emax64; lia].
Qed.

(** ** Exact products *)
Lemma iter_shr_exact p : ∀ m, 0 ≤ m → SpecFloat.iter_pos shr_1 p (Build_shr_record (m * 2 ^ Zpos p) false false) = Build_shr_record m false false.
Proof.
  assert (H1 : ∀ m, 0 ≤ m → shr_1 (Build_shr_record (m * 2) false false) = Build_shr_record m false false) by (intros m Hm; rewrite Z.mul_comm; destruct m; [done|done|lia]).
  induction p as [p IH|p IH|]; intros m Hm; cbn [SpecFloat.iter_pos]; [| |by rewrite Z.pow_1_r; apply H1].
  - replace (m * 2 ^ Zpos p~1) with (m * 2 ^ Zpos p * 2 ^ Zpos p * 2) by (rewrite (Pos2Z.inj_xI p), <- Z.add_diag, !Z.pow_add_r, Z.pow_1_r by lia; ring).
    pose proof (Z.pow_nonneg 2 (Zpos p) ltac:(lia)). rewrite H1, !IH; [done|lia|nia|nia].
  - replace (m * 2 ^ Zpos p~0) with (m * 2 ^ Zpos p * 2 ^ Zpos p) by (rewrite (Pos2Z.inj_xO p), <- Z.add_diag, Z.pow_add_r by lia; ring).
    pose proof (Z.pow_nonneg 2 (Zpos p) ltac:(lia)). rewrite !IH; [done|lia|nia].
Qed.

(** A normalized number is not changed by one. *)
Lemma log2_normal m : 2 ^ 52 ≤ m < 2 ^ 53 → Z.log2 m = 52.
Proof. intros Hm. by apply Z.log2_unique. Qed.

Lemma round_shifted s m e k : 2 ^ 52 ≤ Zpos m < 2 ^ 53 → 0 ≤ k → -1000 ≤ e ≤ 0 → binary_round_aux prec64 emax64 s (Zpos m * 2 ^ k) (e - k) loc_Exact = S754_finite s m e.
Proof.
  intros Hm Hk He. destruct (decide (k = 0)) as [->|Hk0].
  { rewrite Z.mul_1_r, Z.sub_0_r. apply round_exact; [done|unfold emin, prec64, emax64; lia]. }
  unfold binary_round_aux at 1, shr_fexp at 1. pose proof (pow2_pos k Hk) as Hp.
  rewrite Zdigits2_log2 by lia. rewrite Z.log2_mul_pow2, log2_normal by lia.
  assert (Hd : fexp prec64 emax64 (52 + k + 1 + (e - k)) - (e - k) = k) by (unfold fexp, emin, prec64, emax64; lia).
  replace (k + 52 + 1 + (e - k)) with (52 + k + 1 + (e - k)) by lia. rewrite Hd. destruct k as [|p|]; [done| |lia]. cbn [shr shr_record_of_loc]. rewrite iter_shr_exact by lia.
  cbn [shr_m loc_of_shr_record round_nearest_even]. replace (e - Zpos p + Zpos p) with e by lia.
  pose proof (round_exact s m e Hm ltac:(unfold emin, prec64, emax64; lia)) as Hr. unfold binary_round_aux, shr_fexp in Hr.
  rewrite Zdigits2_log2, log2_normal in Hr by lia. assert (Hz : fexp prec64 emax64 (52 + 1 + e) - e = 0) by (unfold fexp, emin, prec64, emax64; lia). rewrite Hz in Hr. cbn [shr shr_record_of_loc shr_m loc_of_shr_record round_nearest_even] in Hr.
  unfold shr_fexp. rewrite Zdigits2_log2, log2_normal, Hz by lia. cbn [shr shr_record_of_loc shr_m]. rewrite Zdigits2_log2, log2_normal, Hz in Hr by lia. exact Hr.
Qed.

Lemma f_one : f_of_usize 1 = S754_finite false (2 ^ 52)%positive (-52).
Proof. done. Qed.

Lemma f_mul_one s m e : 2 ^ 52 ≤ Zpos m < 2 ^ 53 → -900 ≤ e ≤ 0 → f_mul (S754_finite s m e) (f_of_usize 1) = S754_finite s m e ∧ f_mul (f_of_usize 1) (S754_finite s m e) = S754_finite s m e.
Proof.
  intros Hm He. rewrite f_one. unfold f_mul, SFmul. rewrite xorb_false_r, xorb_false_l. split.
  - rewrite Pos2Z.inj_mul. rewrite Pos2Z.inj_pow. apply (round_shifted s m e 52); [done|lia|lia].
  - rewrite Pos2Z.inj_mul, Z.mul_comm, Pos2Z.inj_pow. replace (-52 + e) with (e - 52) by lia. apply (round_shifted s m e 52); [done|lia|lia].
Qed.

(** ** Quotients *)

(** The number with mantissa [x], brought below [2 ^ 53]. *)
Definition f_norm (x e : Z) : f64 := if x <? 2 ^ 53 then S754_finite false (Z.to_pos x) e else S754_finite false (2 ^ 52)%positive (e + 1).

Lemma finish_norm x e : 2 ^ 52 ≤ x ≤ 2 ^ 53 → -900 ≤ e ≤ 0 →
  (let '(r, e') := shr_fexp prec64 emax64 x e loc_Exact in
   match shr_m r with Z0 => S754_zero false | Zpos m => if Z.leb e' (emax64 - prec64) then S754_finite false m e' else S754_infinity false | _ => S754_nan end) = f_norm x e.
Proof.
  intros Hx He. unfold shr_fexp, f_norm. rewrite Zdigits2_log2 by lia. destruct (Z.ltb_spec x (2 ^ 53)) as [Hlt|Hge].
  - rewrite log2_normal by lia. assert (Hz : fexp prec64 emax64 (52 + 1 + e) - e = 0) by (unfold fexp, emin, prec64, emax64; lia). rewrite Hz. cbn [shr shr_record_of_loc shr_m].
    destruct x; [lia| |lia]. rewrite (proj2 (Z.leb_le _ _)) by (unfold emax64, prec64; lia). done.
  - assert (x = 2 ^ 53) as -> by lia. rewrite Z.log2_pow2 by lia. assert (Hz : fexp prec64 emax64 (53 + 1 + e) - e = 1) by (unfold fexp, emin, prec64, emax64; lia). rewrite Hz.
    cbn [shr]. rewrite (proj2 (Z.leb_le _ _)) by (unfold emax64, prec64; lia). done.
Qed.

(** Where the exact value lies between two integers decides how it is rounded. *)
Lemma nearest_error d r q : 0 ≤ r < d → 0 ≤ q →
  2 * Z.abs (round_nearest_even q (new_location d r) * d - (q * d + r)) ≤ d ∧ q ≤ round_nearest_even q (new_location d r) ≤ q + 1.
Proof.
  intros Hr Hq. unfold new_location, new_location_even, new_location_odd, round_nearest_even. destruct (Z.even d) eqn:Ed; destruct (Z.eqb_spec r 0) as [->|Hr0]; [split; lia| |split; lia|].
  - destruct (Z.compare_spec (2 * r) d); [destruct (Z.even q)|..]; split; lia.
  - assert (Hodd : d mod 2 = 1) by (rewrite Zmod_odd, <- Z.negb_even, Ed; done). pose proof (Z.div_mod d 2 ltac:(lia)). destruct (Z.compare_spec (2 * r + 1) d); split; lia.
Qed.

Lemma nearest_error_half d r q : 0 ≤ r < d → 0 ≤ q → let x := shr_1 (shr_record_of_loc q (new_location d r)) in let y := round_nearest_even (shr_m x) (loc_of_shr_record x) in
  Z.abs (y * 2 * d - (q * d + r)) ≤ d ∧ q / 2 ≤ y ≤ q / 2 + 1.
Proof.
  intros Hr Hq. cbv zeta. set (rec := shr_record_of_loc q (new_location d r)). assert (Hm : shr_m rec = q) by (unfold rec; by destruct (new_location d r) as [|[]]).
  rewrite shr_1_m, Hm by (rewrite Hm; lia). assert (Hs : shr_1 rec = Build_shr_record (q / 2) (Z.odd q) (shr_r rec || shr_s rec)).
  { destruct rec as [m0 r0 s0]. cbn in Hm. subst m0. rewrite <- Z.div2_div. by destruct q as [|[]|]. }
  rewrite Hs. pose proof (Z.div_mod q 2 ltac:(lia)) as Hdm. rewrite Zmod_odd in Hdm.
  assert (Hrs : (shr_r rec || shr_s rec = false → r = 0)).
  { unfold rec, new_location, new_location_even, new_location_odd. assert (Hi : ∀ c, shr_r (shr_record_of_loc q (loc_Inexact c)) || shr_s (shr_record_of_loc q (loc_Inexact c)) = true) by (by intros []).
    destruct (Z.even d), (Z.eqb_spec r 0); try done; by rewrite Hi. }
  unfold loc_of_shr_record, round_nearest_even. destruct (Z.odd q), (shr_r rec || shr_s rec); try specialize (Hrs eq_refl); try destruct (Z.even (q / 2)); split; nia.
Qed.

Lemma round_quotient d r q e : 0 ≤ r < d → 2 ^ 52 ≤ q < 2 ^ 54 → -900 ≤ e ≤ -1 →
  ∃ x k, binary_round_aux prec64 emax64 false q e (new_location d r) = f_norm x (e + k) ∧ k = (if q <? 2 ^ 53 then 0 else 1) ∧ 2 ^ 52 ≤ x ≤ 2 ^ 53 ∧
    2 * Z.abs (x * 2 ^ k * d - (q * d + r)) ≤ 2 ^ k * d.
Proof.
  intros Hr Hq He. unfold binary_round_aux. destruct (Z.ltb_spec q (2 ^ 53)) as [Hlt|Hge].
  - destruct (nearest_error d r q Hr ltac:(lia)) as [Herr Hb]. eexists _, 0. split; [|split; [done|]].
    + unfold shr_fexp at 1. rewrite Zdigits2_log2, log2_normal by lia. assert (Hz : fexp prec64 emax64 (52 + 1 + e) - e = 0) by (unfold fexp, emin, prec64, emax64; lia). rewrite Hz. cbn [shr].
      assert (Hloc : ∀ l, shr_m (shr_record_of_loc q l) = q ∧ loc_of_shr_record (shr_record_of_loc q l) = l) by (by intros [|[]]). destruct (Hloc (new_location d r)) as [-> ->].
      rewrite Z.add_0_r. apply finish_norm; lia.
    + split; [lia|]. rewrite Z.pow_0_r. lia.
  - destruct (nearest_error_half d r q Hr ltac:(lia)) as [Herr Hb]. pose proof (Z.div_mod q 2 ltac:(lia)). pose proof (Z.mod_pos_bound q 2 ltac:(lia)).
    eexists _, 1. split; [|split; [done|]].
    + unfold shr_fexp at 1. rewrite Zdigits2_log2 by lia. assert (Hl : Z.log2 q = 53) by (apply Z.log2_unique; [lia|]; change (2 ^ Z.succ 53) with (2 ^ 54); lia). rewrite Hl.
      assert (Hz : fexp prec64 emax64 (53 + 1 + e) - e = 1) by (unfold fexp, emin, prec64, emax64; lia). rewrite Hz. cbn [shr SpecFloat.iter_pos]. apply finish_norm; lia.
    + split; [lia|]. rewrite Z.pow_1_r. lia.
Qed.

(** The quotient of two integers is the exact one, up to [2 ^ -54]. *)
Lemma f_div_ratio a u : 0 < a ≤ u → u < 2 ^ 53 → ∃ m E, f_div (f_of_usize a) (f_of_usize u) = S754_finite false m (- E) ∧ 2 ^ 52 ≤ Zpos m < 2 ^ 53 ∧ 52 ≤ E ≤ 200 ∧
  Z.abs (Zpos m * u - a * 2 ^ E) * 2 ^ 54 ≤ u * 2 ^ E.
Proof.
  intros Ha Hu. rewrite !f_of_usize_exact by lia. pose proof (f_int_mantissa a ltac:(lia)) as Hm1. pose proof (f_int_mantissa u ltac:(lia)) as Hm2.
  assert (Hla : 0 ≤ Z.log2 a ≤ Z.log2 u) by (split; [apply Z.log2_nonneg|apply Z.log2_le_mono; lia]). assert (Hlu : Z.log2 u < 53) by (apply Z.log2_lt_pow2; lia).
  set (la := Z.log2 a) in *. set (lu := Z.log2 u) in *. unfold f_int. fold la lu. set (m1 := a * 2 ^ (52 - la)) in *. set (m2 := u * 2 ^ (52 - lu)) in *.
  unfold f_div, SFdiv, SFdiv_core_binary. rewrite !Z2Pos.id by lia. rewrite !Zdigits2_log2, !log2_normal by lia.
  assert (Ef : Z.min (fexp prec64 emax64 (52 + 1 + (la - 52) - (52 + 1 + (lu - 52)))) (la - 52 - (lu - 52)) = la - lu - 53) by (unfold fexp, emin, prec64, emax64; lia). rewrite Ef. clear Ef.
  replace (la - 52 - (lu - 52) - (la - lu - 53)) with 53 by lia. rewrite Z.shiftl_mul_pow2 by lia. pose proof (Z_div_mod (m1 * 2 ^ 53) m2 ltac:(lia)) as Hdm. destruct (Z.div_eucl (m1 * 2 ^ 53) m2) as [q r]. destruct Hdm as [Hdm Hr].
  assert (Hq : 2 ^ 52 ≤ q < 2 ^ 54) by nia. cbn [xorb]. destruct (round_quotient m2 r q (la - lu - 53) Hr Hq ltac:(lia)) as (x & k & -> & Ek & Hx & Herr).
  assert (Hk : k = 0 ∨ k = 1 ∧ m2 ≤ m1) by (destruct (Z.ltb_spec q (2 ^ 53)); [by left|right; split; [done|nia]]). clear Ek.
  (* in terms of [a] and [u] *)
  set (E := lu - la + 53 - k). assert (HE : 2 * Z.abs (x * u - a * 2 ^ E) ≤ u).
  { replace (q * m2 + r) with (a * 2 ^ (52 - la) * 2 ^ 53) in Herr by (unfold m1 in Hdm; lia). unfold m2 in Herr.
    assert (Hp : 2 ^ (52 - la) * 2 ^ 53 = 2 ^ E * (2 ^ k * 2 ^ (52 - lu))) by (rewrite <- !Z.pow_add_r by (unfold E; lia); f_equal; unfold E; lia).
    assert (Hc : 0 < 2 ^ k * 2 ^ (52 - lu)) by (apply Z.mul_pos_pos; apply pow2_pos; lia). set (c := 2 ^ k * 2 ^ (52 - lu)) in *.
    replace (x * 2 ^ k * (u * 2 ^ (52 - lu)) - a * 2 ^ (52 - la) * 2 ^ 53) with (c * (x * u - a * 2 ^ E)) in Herr by (rewrite <- (Z.mul_assoc a), Hp; unfold c; ring).
    replace (2 ^ k * (u * 2 ^ (52 - lu))) with (c * u) in Herr by (unfold c; ring). rewrite Z.abs_mul, (Z.abs_eq c) in Herr by lia. apply (Z.mul_le_mono_pos_l _ _ c); [done|]. clearbody c. lia. }
  assert (HE53 : 53 ≤ E ∨ E = 52 ∧ a = u).
  { destruct Hk as [->|[-> Hge]]; [left; unfold E; lia|]. destruct (decide (la = lu)) as [El|]; [|left; unfold E; lia]. right. split; [unfold E; lia|]. unfold m1, m2 in Hge. rewrite El in Hge. pose proof (pow2_pos (52 - lu) ltac:(lia)). apply Z.mul_le_mono_pos_r in Hge; lia. }
  replace (la - lu - 53 + k) with (- E) by (unfold E; lia). assert (HEb : E ≤ 106) by (unfold E; lia). clearbody E. clear - HE HE53 Hx Ha Hu HEb. assert (HpE : 0 < 2 ^ E) by (apply pow2_pos; lia).
  assert (Hexact : E = 52 → x * u = a * 2 ^ E). { intros ->. destruct HE53 as [|[_ ->]]; [lia|]. rewrite (Z.mul_comm u), <- Z.mul_sub_distr_r, Z.abs_mul in HE. assert (x = 2 ^ 52) as ->; [|lia]. destruct (decide (x = 2 ^ 52)); [done|]. assert (1 * u ≤ Z.abs (x - 2 ^ 52) * Z.abs u) by (apply Z.mul_le_mono_nonneg; lia). lia. }
  unfold f_norm. destruct (Z.ltb_spec x (2 ^ 53)) as [Hlt|Hge].
  - exists (Z.to_pos x), E. rewrite Z2Pos.id by lia. split; [done|]. split; [lia|]. split; [lia|]. destruct HE53 as [H53|[HE0 _]]; [|rewrite (Hexact HE0), Z.sub_diag; apply Z.mul_nonneg_nonneg; lia].
    assert (2 ^ 53 ≤ 2 ^ E) by (apply Z.pow_le_mono_r; lia). transitivity (u * 2 ^ 53); [lia|apply Z.mul_le_mono_nonneg_l; lia].
  - assert (x = 2 ^ 53) as -> by lia. assert (H53 : 53 ≤ E) by (destruct HE53 as [|[-> ->]]; [done|]; specialize (Hexact eq_refl); lia).
    exists (2 ^ 52)%positive, (E - 1). split; [f_equal; lia|]. split; [done|]. split; [lia|]. rewrite Pos2Z.inj_pow.
    assert (H2 : 2 ^ E = 2 * 2 ^ (E - 1)) by (rewrite <- Z.pow_succ_r by lia; f_equal; lia). rewrite H2 in *.
    assert (2 ^ 52 ≤ 2 ^ (E - 1)) by (apply Z.pow_le_mono_r; lia). transitivity (u * 2 ^ 52); [lia|apply Z.mul_le_mono_nonneg_l; lia].
Qed.

(** Normalized numbers are compared by value. *)
Lemma norm_lt m E m' E' : 2 ^ 52 ≤ Zpos m < 2 ^ 53 → 2 ^ 52 ≤ Zpos m' < 2 ^ 53 → 0 ≤ E → 0 ≤ E' → Zpos m * 2 ^ E' < Zpos m' * 2 ^ E →
  f_lt (S754_finite false m (- E)) (S754_finite false m' (- E')) = true.
Proof.
  intros Hm Hm' HE HE' Hlt. unfold f_lt, SFltb, SFcompare. destruct (Z.compare_spec (- E) (- E')) as [He|He|He]; [|done|].
  - assert (E = E') as -> by lia. change (Pos.compare_cont Eq m m') with (Pos.compare m m'). pose proof (pow2_pos E' HE'). apply Z.mul_lt_mono_pos_r in Hlt; [|done]. by rewrite (proj2 (Pos.compare_lt_iff m m')).
  - exfalso. assert (Hp : 2 ^ E' = 2 * 2 ^ E * 2 ^ (E' - E - 1)) by (rewrite <- Z.pow_succ_r, <- Z.pow_add_r by lia; f_equal; lia). pose proof (pow2_pos E HE). pose proof (pow2_pos (E' - E - 1) ltac:(lia)).
    assert (Zpos m' * 2 ^ E ≤ 2 ^ 53 * 2 ^ E) by (apply Z.mul_le_mono_nonneg_r; lia). assert (2 ^ 52 * 2 ^ E' ≤ Zpos m * 2 ^ E') by (apply Z.mul_le_mono_nonneg_r; lia).
    assert (2 * 2 ^ E * 1 ≤ 2 * 2 ^ E * 2 ^ (E' - E - 1)) by (apply Z.mul_le_mono_nonneg_l; lia). lia.
Qed.

(** Quotients by the same integer are ordered as the dividends, strictly. *)
Lemma f_div_lt a b u : 0 < a < b → b ≤ u < 2 ^ 53 → f_lt (f_div (f_of_usize a) (f_of_usize u)) (f_div (f_of_usize b) (f_of_usize u)) = true.
Proof.
  intros Ha Hb. destruct (f_div_ratio a u ltac:(lia) ltac:(lia)) as (m & E & -> & Hm & HE & Herr). destruct (f_div_ratio b u ltac:(lia) ltac:(lia)) as (m' & E' & -> & Hm' & HE' & Herr').
  apply norm_lt; [done|done|lia|lia|]. pose proof (pow2_pos E ltac:(lia)) as HpE. pose proof (pow2_pos E' ltac:(lia)) as HpE'. set (P := 2 ^ E) in *. set (P' := 2 ^ E') in *.
  (* the difference of the quotients exceeds the two errors *)
  assert (H1 : (Zpos m * u - a * P) * 2 ^ 54 * P' ≤ u * P * P') by (apply Z.mul_le_mono_nonneg_r; lia).
  assert (H2 : (b * P' - Zpos m' * u) * 2 ^ 54 * P ≤ u * P' * P) by (apply Z.mul_le_mono_nonneg_r; lia).
  assert (H3 : 1 * (P * P') ≤ (b - a) * (P * P')) by (apply Z.mul_le_mono_nonneg_r; [apply Z.mul_nonneg_nonneg|]; lia). assert (HPP : 0 < P * P') by (by apply Z.mul_pos_pos).
  assert (H4 : u * (P * P') < 2 ^ 53 * (P * P')) by (apply Z.mul_lt_mono_pos_r; lia). apply (Z.mul_lt_mono_pos_l u); [lia|]. lia.
Qed.

(** ** Products with a factor of at most one *)
Definition f_le_one (x : f64) : Prop :=
  match x with S754_finite false m e => e ≤ 0 ∧ Zpos m ≤ 2 ^ (- e) | S754_finite true _ _ | S754_zero _ => True | _ => False end.

Lemma shr_fexp_floor m e l : 0 ≤ m → ∃ r k, shr_fexp prec64 emax64 m e l = (r, e + k) ∧ k = Z.max 0 (fexp prec64 emax64 (Zdigits2 m + e) - e) ∧ shr_m r = m / 2 ^ k ∧
  ((2 ^ k | m) → l = loc_Exact → loc_of_shr_record r = loc_Exact).
Proof.
  intros Hm. unfold shr_fexp, shr. assert (Hmr : ∀ l, shr_m (shr_record_of_loc m l) = m) by (by intros [|[]]).
  destruct (fexp prec64 emax64 (Zdigits2 m + e) - e) as [|p|p]; [exists (shr_record_of_loc m l), 0|eexists _, (Zpos p)|exists (shr_record_of_loc m l), 0].
  - rewrite Z.add_0_r, Hmr, Z.div_1_r. split_and!; try done. by intros _ ->.
  - split; [done|]. split; [lia|]. split; [rewrite iter_shr, Hmr by (by rewrite Hmr); done|]. intros [z ->] ->. pose proof (pow2_pos (Zpos p) ltac:(lia)). cbn [shr_record_of_loc]. rewrite iter_shr_exact; [done|nia].
  - rewrite Z.add_0_r, Hmr, Z.div_1_r. split_and!; try done. by intros _ ->.
Qed.

Lemma round_even_bound q l : q ≤ round_nearest_even q l ≤ q + 1 ∧ (l = loc_Exact → round_nearest_even q l = q).
Proof. destruct l as [|[]]; cbn; [|destruct (Z.even q)|..]; split; try done; lia. Qed.

Lemma trunc_le z e k n : 0 ≤ k → 0 ≤ n → e ≤ 0 → z * 2 ^ k ≤ n * 2 ^ (- e) → Z.shiftl z (e + k) ≤ n.
Proof.
  intros Hk Hn He H. destruct (Z.le_gt_cases 0 (e + k)) as [Hp|Hp].
  - rewrite Z.shiftl_mul_pow2 by done. assert (Ek : 2 ^ k = 2 ^ (e + k) * 2 ^ (- e)) by (rewrite <- Z.pow_add_r by lia; f_equal; lia). rewrite Ek, Z.mul_assoc in H. pose proof (pow2_pos (- e) ltac:(lia)). by apply Z.mul_le_mono_pos_r in H.
  - rewrite Z.shiftl_div_pow2 by lia. pose proof (pow2_pos k Hk). pose proof (pow2_pos (- (e + k)) ltac:(lia)). apply Z.div_le_upper_bound; [done|].
    assert (Ee : 2 ^ (- e) = 2 ^ (- (e + k)) * 2 ^ k) by (rewrite <- Z.pow_add_r by lia; f_equal; lia). rewrite Ee, Z.mul_assoc in H. apply Z.mul_le_mono_pos_r in H; [lia|done].
Qed.

(** A fraction of an integer does not exceed it. *)
Lemma f_mul_le n x : 0 < n < 2 ^ 53 → f_le_one x → f_to_usize (f_mul (f_of_usize n) x) ≤ n.
Proof.
  intros Hn Hx. rewrite f_of_usize_exact by done. pose proof (f_int_mantissa n Hn) as Hm. unfold f_int. set (mn := n * 2 ^ (52 - Z.log2 n)) in *.
  assert (Hln : 0 ≤ Z.log2 n ≤ 52) by (split; [apply Z.log2_nonneg|]; apply Z.lt_succ_r, Z.log2_lt_pow2; lia). set (en := Z.log2 n - 52) in *. assert (Emn : mn = n * 2 ^ (- en)) by (unfold mn, en; do 2 f_equal; lia).
  destruct x as [sx|sx| |[] mc ec]; cbn [f_mul SFmul f_to_usize]; try done; [lia| |].
  { unfold f_mul, SFmul. cbn [xorb]. unfold binary_round_aux. repeat case_match; cbn; lia. }
  destruct Hx as [Hec Hmc]. unfold f_mul, SFmul. cbn [xorb]. rewrite Pos2Z.inj_mul, Z2Pos.id by lia. set (p := mn * Zpos mc). assert (Hp0 : 0 < p) by (unfold p; lia).
  assert (Hpow : 0 < 2 ^ (- ec)) by (apply pow2_pos; lia). assert (Hp : p ≤ mn * 2 ^ (- ec)) by (apply Z.mul_le_mono_nonneg_l; lia).
  unfold binary_round_aux. destruct (shr_fexp_floor p (en + ec) loc_Exact) as (r & k & -> & Ek & Er & Hex); [lia|]. rewrite Er.
  assert (Hk : 0 ≤ k ∧ en + ec + k ≤ en).
  { split; [lia|]. rewrite Ek, Zdigits2_log2 by done. assert (Z.log2 p < 53 - ec). { apply Z.log2_lt_pow2; [done|]. replace (53 - ec) with (53 + - ec) by lia. rewrite Z.pow_add_r by lia. nia. }
    unfold fexp, emin, prec64, emax64. lia. }
  destruct (round_even_bound (p / 2 ^ k) (loc_of_shr_record r)) as [Hy Hy']. set (y := round_nearest_even _ _) in *. pose proof (pow2_pos k ltac:(lia)) as Hk0.
  assert (Hyn : y ≤ n * 2 ^ (- (en + ec + k))).
  { set (N := n * 2 ^ (- (en + ec + k))). assert (EN : N * 2 ^ k = mn * 2 ^ (- ec)) by (unfold N; rewrite Emn, <- !Z.mul_assoc, <- !Z.pow_add_r by lia; do 2 f_equal; lia).
    assert (HqN : p / 2 ^ k ≤ N) by (apply Z.div_le_upper_bound; lia). destruct (decide (p / 2 ^ k = N)) as [EqN|]; [|lia].
    assert (Hpe : p = N * 2 ^ k) by (pose proof (Z.mul_div_le p (2 ^ k) Hk0); rewrite EqN in *; lia). rewrite Hy'; [lia|]. apply Hex; [rewrite Hpe; apply Z.divide_factor_r|done]. }
  assert (Hy0 : 0 ≤ y) by (pose proof (Z.div_pos p (2 ^ k) ltac:(lia) Hk0); lia).
  destruct (shr_fexp_floor y (en + ec + k) loc_Exact Hy0) as (r2 & k2 & -> & Ek2 & Er2 & _). assert (Hk2 : 0 ≤ k2) by lia. pose proof (pow2_pos k2 Hk2).
  assert (Hz : shr_m r2 * 2 ^ k2 ≤ n * 2 ^ (- (en + ec + k))) by (rewrite Er2; pose proof (Z.mul_div_le y (2 ^ k2)); lia).
  destruct (shr_m r2) as [|z|]; [cbn; lia| |cbn; lia]. destruct (Z.leb_spec (en + ec + k + k2) (emax64 - prec64)) as [Hle|Hgt]; cbn [f_to_usize].
  - etransitivity; [apply Z.le_min_l|]. apply (trunc_le _ _ k2); [done|lia|lia|exact Hz].
  - exfalso. unfold emax64, prec64 in Hgt. pose proof (trunc_le (Zpos z) (en + ec + k) k2 n Hk2 ltac:(lia) ltac:(lia) Hz) as Ht. rewrite Z.shiftl_mul_pow2 in Ht by lia.
    assert (2 ^ 53 ≤ 2 ^ (en + ec + k + k2)) by (apply Z.pow_le_mono_r; lia). nia.
Qed.
