(* ===== verification/SlagMeta.v ===== *)
(** * Slag metadata of elfmalloc

    Models [src/elfmalloc/src/alloc_type.rs] and the module [metadata] of
    [src/elfmalloc/src/slag.rs]: the layout of a slag (header, bit-set,
    objects) that [compute_metadata] searches for a size class. *)

From Stdlib Require Import ZArith Lia SpecFloat.
From S2P Require Import Prelude F64.
From stdpp Require Import base numbers list option.

Open Scope Z_scope.

Inductive AllocType := SmallSlag | BigSlag | Large.

#[export] Instance AllocType_eq_dec : EqDecision AllocType.
Proof. solve_decision. Defined.

Record Metadata := mkMeta {
  object_size : Z;
  n_objects : Z;
  n_bitset_words : Z;
  total_bytes : Z;
  bitset_offset : Z;
  objects_offset : Z;
  object_mask : Z;
  bit_rep_shift : Z;
  local_index : Z;
  cutoff_objects : Z;
  usable_size : Z;
  ty : AllocType
}.

(** [Word::bits()], [size_of::<Word>()]; [Slag] is a [repr(C)] header of a tag
    and three words. *)
Definition bits : Z := 64.
Definition word_size : Z := 8.
Definition slag_size : Z := Z.max 32 64.

Module Meta.

Definition bitset_bytes (n_objects gran : Z) : res Z :=
  bits' ← umul n_objects gran;
  r ← umod bits' bits;
  q ← udiv bits' bits;
  words ← (if r =? 0 then Ok q else uadd q 1);
  umul words word_size.

Definition align_padding (alignment n_objects gran : Z) : res Z :=
  _ ← rassert (is_power_of_two alignment);
  b ← bitset_bytes n_objects gran;
  h_bitset_size ← uadd slag_size b;
  s ← uadd h_bitset_size (alignment - 1);
  usub (Z.land s (unot (alignment - 1))) h_bitset_size.

Definition total_bytes (size gran n_objects : Z) : res Z :=
  padding ← (if is_power_of_two size then align_padding size n_objects gran else Ok 0);
  b ← bitset_bytes n_objects gran;
  s ← uadd slag_size b;
  s ← uadd s padding;
  o ← umul n_objects size;
  uadd s o.

(** The loop that packs objects while they fit in [usable]. *)
Fixpoint pack (fuel : nat) (size gran usable n_objects : Z) : res Z :=
  match fuel with
  | O => Fault NoFuel
  | S f =>
      n ← uadd n_objects 1;
      t ← total_bytes size gran n;
      if usable <? t then Ok n_objects else pack f size gran usable n
  end.

Definition one : f64 := f_of_usize 1.

(** How many objects fit: the loop started at one object; it ends before it has
    packed as many objects as there are usable bytes. *)
Definition pack_objects (size gran usable : Z) : res Z := pack (S (Z.to_nat usable)) size gran usable 1.

(** [meta_inner], over the function that packs the objects. *)
Definition meta_inner_by (packer : Z → Z → Z → res Z) (size page_size round_up_to_shift local_index : Z) (cutoff_factor : f64) (usable_size : Z) :
    res (f64 * Z * Metadata) :=
  let usable_size := Z.min usable_size page_size in
  round_up_to_bytes ← ushl 1 round_up_to_shift;
  rem ← umod size round_up_to_bytes;
  padding_per_object ← (if rem =? 0 then Ok 0 else usub round_up_to_bytes rem);
  padded_size ← uadd size padding_per_object;
  gran ← udiv padded_size round_up_to_bytes;
  _ ← rassert (0 <? usable_size);
  _ ← rassert (0 <? round_up_to_bytes);
  _ ← rassert (is_power_of_two round_up_to_bytes);
  _ ← rassert (0 <? gran);
  _ ← rassert (if gran =? 1 then is_power_of_two padded_size else true);
  let bits_per_object := Z.shiftr padded_size round_up_to_shift in
  r ← umod bits bits_per_object;
  slush_size ← usub bits_per_object r;
  let mult := if bits <? slush_size then f_neg one else one in
  n_objects ← packer padded_size gran usable_size;
  align_padding ← (if is_power_of_two padded_size then align_padding padded_size n_objects gran else Ok 0);
  t ← total_bytes padded_size gran n_objects;
  w ← umul n_objects padding_per_object;
  t ← usub t w;
  b ← bitset_bytes n_objects gran;
  t ← usub t b;
  t ← usub t slag_size;
  t ← usub t align_padding;
  let bs := f_of_usize t in
  let u := f_of_usize usable_size in
  let score := f_div (f_mul (if f_lt u bs then f_neg one else one) bs) u in
  let header_offset := slag_size in
  n_words ← udiv b word_size;
  ab ← uadd align_padding b;
  Ok (f_mul score mult, n_words,
      {| SlagMeta.n_objects := n_objects; SlagMeta.n_bitset_words := n_words; SlagMeta.total_bytes := page_size;
         SlagMeta.bitset_offset := header_offset; SlagMeta.objects_offset := header_offset + ab;
         SlagMeta.object_size := padded_size; SlagMeta.object_mask := 1;
         SlagMeta.bit_rep_shift := trailing_zeros round_up_to_bytes; SlagMeta.local_index := local_index;
         SlagMeta.cutoff_objects := Z.max 1 (f_to_usize (f_mul (f_of_usize n_objects) cutoff_factor));
         SlagMeta.usable_size := usable_size; SlagMeta.ty := SmallSlag |}).

Definition meta_inner := meta_inner_by pack_objects.

Definition test_meta : Metadata := mkMeta 0 0 0 0 0 0 0 0 0 0 0 SmallSlag.

Definition tolerance : f64 := f_div one (f_of_usize 100000).

(** The comparison of the [fold]: keep [o1] or take [o2]. *)
Definition better (o1 o2 : f64 * Z * Metadata) : f64 * Z * Metadata :=
  if f_lt o1.1.1 o2.1.1 || (f_lt (f_abs (f_sub o1.1.1 o2.1.1)) tolerance && (o2.1.2 <? o1.1.2)) then o2 else o1.

Fixpoint mask_loop (fuel : nat) (bits_per_object cur_bit mask : Z) : res Z :=
  match fuel with
  | O => Fault NoFuel
  | S f =>
      if cur_bit <? bits then
        b ← ushl 1 cur_bit;
        c ← uadd cur_bit bits_per_object;
        mask_loop f bits_per_object c (Z.lor mask b)
      else Ok mask
  end.

Definition set_mask (meta : Metadata) (mask : Z) (ty : AllocType) : Metadata :=
  mkMeta (object_size meta) (n_objects meta) (n_bitset_words meta) (SlagMeta.total_bytes meta) (bitset_offset meta) (objects_offset meta)
    mask (bit_rep_shift meta) (local_index meta) (cutoff_objects meta) (usable_size meta) ty.

(** The search over the shifts and the mask, over the candidate of a shift. *)
Definition search (inner : Z → res (f64 * Z * Metadata)) (obj_size : Z) (ty : AllocType) : res Metadata :=
  p ← next_power_of_two obj_size;
  '(_, _, meta) ← rfold (fun o1 shift => o2 ← inner shift; Ok (better o1 o2))
    (zrange 1 (trailing_zeros p + 1)) (f_neg (f_of_usize 10), 1000, test_meta);
  let bits_per_object := Z.shiftr (object_size meta) (bit_rep_shift meta) in
  mask ← mask_loop (S (Z.to_nat bits)) bits_per_object 0 0;
  Ok (set_mask meta mask ty).

Definition compute_metadata (obj_size page_size local_index : Z) (cutoff_factor : f64) (usable_size : Z) (ty : AllocType) : res Metadata :=
  search (fun shift => meta_inner obj_size page_size shift local_index cutoff_factor usable_size) obj_size ty.

End Meta.

(** ** What a layout must satisfy *)

(** Bits per object in the bit-set, words of a bit-set of [n] objects, padding
    before the objects, bytes of the whole layout. *)
Definition bits_per_object (m : Metadata) : Z := Z.shiftr (object_size m) (bit_rep_shift m).
Definition words_for (n g : Z) : Z := (n * g + 63) / 64.
Definition pad_for (size n g : Z) : Z := if is_power_of_two size then (- (64 + 8 * words_for n g)) mod size else 0.
Definition total_for (size g n : Z) : Z := 64 + 8 * words_for n g + pad_for size n g + n * size.

(** The bits of an object that straddles a word boundary that fall in the next word. *)
Definition slush (b : Z) : Z := b - 64 mod b.

(** A layout for objects of [size] bytes: sizes round up to a multiple of the
    unit [2 ^ bit_rep_shift], the bit-set holds all objects' bits, the objects
    follow it (aligned to their size when that is a power of two), and no
    further object would fit in [usable]. *)
Definition layout_ok (size usable page : Z) (m : Metadata) : Prop :=
  let b := bits_per_object m in
  let unit := 2 ^ bit_rep_shift m in
  1 ≤ bit_rep_shift m < 54 ∧ 1 ≤ b ∧ object_size m = b * unit ∧ size ≤ object_size m < size + unit ∧ object_size m < 2 * size ∧
  slush b ≤ 64 ∧ 1 ≤ n_objects m < 2 ^ 53 ∧ n_bitset_words m = words_for (n_objects m) b ∧
  bitset_offset m = 64 ∧ objects_offset m = 64 + 8 * words_for (n_objects m) b + pad_for (object_size m) (n_objects m) b ∧
  (2 ≤ n_objects m → total_for (object_size m) b (n_objects m) ≤ usable) ∧ usable < total_for (object_size m) b (n_objects m + 1) ∧
  total_bytes m = page ∧ usable_size m = usable ∧ 1 ≤ cutoff_objects m.

Definition mask_ok (m : Metadata) : Prop := 0 ≤ object_mask m < 2 ^ 64 ∧ ∀ i, 0 ≤ i < 64 → Z.testbit (object_mask m) i = (i mod bits_per_object m =? 0).

Lemma words_for_bound n g : 0 ≤ n → 0 ≤ g → n * g ≤ 64 * words_for n g ≤ n * g + 63.
Proof.
  intros. unfold words_for. pose proof (Z.div_mod (n * g + 63) 64 ltac:(lia)). pose proof (Z.mod_pos_bound (n * g + 63) 64 ltac:(lia)). lia.
Qed.

Lemma pad_for_bound size n g : 0 < size → 0 ≤ pad_for size n g < size.
Proof. intros. unfold pad_for. case_match; [by apply Z.mod_pos_bound|lia]. Qed.

Lemma pad_for_aligned size n g : 0 < size → is_power_of_two size = true → (size | 64 + 8 * words_for n g + pad_for size n g).
Proof.
  intros Hs Hp. unfold pad_for. rewrite Hp. set (x := 64 + _). apply Z.mod_divide; [lia|]. rewrite Zplus_mod_idemp_r, Z.add_opp_diag_r. by apply Z.mod_0_l; lia.
Qed.

Lemma bitset_bytes_ok n g : 0 ≤ n → 0 ≤ g → n * g < 2 ^ 62 → Meta.bitset_bytes n g = Ok (8 * words_for n g).
Proof.
  intros Hn Hg Hb. pose proof (words_for_bound n g Hn Hg). unfold Meta.bitset_bytes, bits, word_size.
  rewrite umul_Ok, bind_Ok, umod_Ok, bind_Ok, udiv_Ok, bind_Ok by lia.
  pose proof (Z.div_mod (n * g) 64 ltac:(lia)). pose proof (Z.mod_pos_bound (n * g) 64 ltac:(lia)).
  assert (0 ≤ n * g) by lia. destruct (Z.eqb_spec ((n * g) mod 64) 0).
  - assert (n * g / 64 = words_for n g) as -> by lia. rewrite bind_Ok, umul_Ok by lia. f_equal. lia.
  - assert (n * g / 64 + 1 = words_for n g) as E by lia. rewrite uadd_Ok, bind_Ok, E, umul_Ok by lia. f_equal. lia.
Qed.

Lemma align_padding_ok size n g : 0 < size < 2 ^ 60 → is_power_of_two size = true → 0 ≤ n → 0 ≤ g → n * g < 2 ^ 60 →
  Meta.align_padding size n g = Ok (pad_for size n g).
Proof.
  intros Hs Hp Hn Hg Hb. pose proof (words_for_bound n g Hn Hg) as Hw. unfold Meta.align_padding, pad_for, slag_size. change (Z.max 32 64) with 64.
  rewrite Hp. cbn [rassert]. rewrite bind_Ok, bitset_bytes_ok, bind_Ok, uadd_Ok, bind_Ok, uadd_Ok, bind_Ok by lia.
  apply is_power_of_two_spec in Hp as (k & Hk & ->). assert (k < 60) by (apply (Z.pow_lt_mono_r_iff 2); lia).
  set (x := 64 + 8 * words_for n g) in *. rewrite land_unot_pow2 by (unfold is_usize; lia). pose proof (pow2_pos k Hk).
  pose proof (Z.mod_pos_bound (x + (2 ^ k - 1)) (2 ^ k) ltac:(lia)). rewrite usub_Ok by lia. f_equal.
  apply (Z.mod_unique _ _ (- ((x + (2 ^ k - 1)) / 2 ^ k))); [left; lia|]. pose proof (Z.div_mod (x + (2 ^ k - 1)) (2 ^ k) ltac:(lia)). lia.
Qed.

Lemma padding_ok size n g : 0 < size < 2 ^ 60 → 0 ≤ n → 0 ≤ g → n * g < 2 ^ 60 →
  (if is_power_of_two size then Meta.align_padding size n g else Ok 0) = Ok (pad_for size n g).
Proof. intros. destruct (is_power_of_two size) eqn:E; [by apply align_padding_ok|unfold pad_for; by rewrite E]. Qed.

Lemma total_bytes_ok size n g : 0 < size < 2 ^ 60 → 0 ≤ n → 0 ≤ g → n * g < 2 ^ 60 → n * size < 2 ^ 61 →
  Meta.total_bytes size g n = Ok (total_for size g n).
Proof.
  intros. pose proof (words_for_bound n g ltac:(done) ltac:(done)). pose proof (pad_for_bound size n g ltac:(lia)). unfold Meta.total_bytes, slag_size.
  change (Z.max 32 64) with 64. rewrite padding_ok, bind_Ok, bitset_bytes_ok, bind_Ok by lia. rewrite uadd_Ok, bind_Ok, uadd_Ok, bind_Ok, umul_Ok, bind_Ok by lia.
  unfold total_for. by rewrite uadd_Ok by lia.
Qed.

(** The packing loop ends and is maximal. *)
Lemma total_for_ge size g n : 0 < size → 0 ≤ g → 0 ≤ n → n * size ≤ total_for size g n.
Proof.
  intros Hs Hg Hn. unfold total_for. pose proof (words_for_bound n g Hn Hg). pose proof (pad_for_bound size n g Hs).
  assert (0 ≤ n * g) by (by apply Z.mul_nonneg_nonneg). lia.
Qed.

Lemma pack_ok size g usable : 0 < size < 2 ^ 54 → 0 ≤ g ≤ size → 0 ≤ usable < 2 ^ 53 → ∀ fuel n, 1 ≤ n → n * size ≤ usable + size →
  usable + 1 < n + Z.of_nat fuel → (n = 1 ∨ total_for size g n ≤ usable) →
  ∃ n', Meta.pack fuel size g usable n = Ok n' ∧ 1 ≤ n' ∧ n' * size ≤ usable + size ∧ (n' = 1 ∨ total_for size g n' ≤ usable) ∧ usable < total_for size g (n' + 1).
Proof.
  intros Hs Hg Hu. induction fuel as [|f IH]; intros n Hn Hns Hf Hfit.
  { exfalso. destruct Hfit as [->|Hfit]; [lia|]. pose proof (total_for_ge size g n). nia. }
  cbn [Meta.pack]. assert (Hng : (n + 1) * g ≤ (n + 1) * size) by (apply Z.mul_le_mono_nonneg_l; lia).
  assert (n + 1 < 2 ^ 64) by nia. rewrite uadd_Ok, bind_Ok, total_bytes_ok, bind_Ok by lia.
  destruct (Z.ltb_spec usable (total_for size g (n + 1))) as [Hlt|Hle]; [by exists n|].
  pose proof (total_for_ge size g (n + 1)). apply IH; [lia|lia|lia|by right].
Qed.

(** Rounding a size up to a multiple of [2 ^ sh]. *)
Lemma round_up_ok size sh : 2 ≤ size → 1 ≤ sh → 2 ^ sh < 2 * size →
  ∃ pad g, (if size mod 2 ^ sh =? 0 then Ok 0 else usub (2 ^ sh) (size mod 2 ^ sh)) = Ok pad ∧ 0 ≤ pad < 2 ^ sh ∧ size + pad = g * 2 ^ sh ∧ 1 ≤ g ∧ size + pad < 2 * size.
Proof.
  intros Hs Hsh Hlt. pose proof (pow2_pos sh ltac:(lia)) as Hp. pose proof (Z.div_mod size (2 ^ sh) ltac:(lia)) as Hdm.
  pose proof (Z.mod_pos_bound size (2 ^ sh) Hp) as Hm. pose proof (Z.div_pos size (2 ^ sh) ltac:(lia) Hp) as Hd.
  destruct (Z.eqb_spec (size mod 2 ^ sh) 0) as [E|E].
  - exists 0, (size / 2 ^ sh). split_and!; try done; try lia; nia.
  - exists (2 ^ sh - size mod 2 ^ sh), (size / 2 ^ sh + 1). split; [apply usub_Ok; lia|]. split_and!; try lia.
    destruct (decide (size / 2 ^ sh = 0)) as [E0|]; [rewrite E0 in *; lia|]. assert (2 ^ sh * 1 ≤ 2 ^ sh * (size / 2 ^ sh)) by (apply Z.mul_le_mono_nonneg_l; lia). lia.
Qed.

Lemma one_signed : signed false (-52) Meta.one.
Proof. by apply f_int_signed. Qed.

Lemma neg_one_signed : signed true (-52) (f_neg Meta.one).
Proof. done. Qed.

Lemma score_signed n u neg : 0 < n < 2 ^ 53 → 0 < u < 2 ^ 53 → n ≤ u →
  signed neg (-500) (f_mul (f_div (f_mul (if f_lt (f_of_usize u) (f_of_usize n) then f_neg Meta.one else Meta.one) (f_of_usize n)) (f_of_usize u))
    (if neg then f_neg Meta.one else Meta.one)).
Proof.
  intros Hn Hu Hle. rewrite f_lt_exact, (proj2 (Z.ltb_ge u n)) by lia.
  pose proof (f_mul_signed false false _ _ _ _ one_signed (f_int_signed n Hn) ltac:(lia)) as H1. cbn [xorb] in H1.
  apply (f_div_signed _ _ _ u) in H1; [|lia|done].
  assert (H2 : signed neg (-52) (if neg then f_neg Meta.one else Meta.one)) by (by destruct neg).
  pose proof (f_mul_signed _ _ _ _ _ _ H1 H2 ltac:(lia)) as H3. eapply signed_mono, H3. lia.
Qed.

(** The score of a layout of [n] objects of [size] bytes. *)
Definition score_of (n size u : Z) : f64 := f_div (f_of_usize (n * size)) (f_of_usize u).

Lemma score_exact t u : 0 < t ≤ u → u < 2 ^ 53 →
  f_mul (f_div (f_mul (if f_lt (f_of_usize u) (f_of_usize t) then f_neg Meta.one else Meta.one) (f_of_usize t)) (f_of_usize u)) Meta.one = f_div (f_of_usize t) (f_of_usize u).
Proof.
  intros Ht Hu. rewrite f_lt_exact, (proj2 (Z.ltb_ge u t)) by lia. unfold Meta.one. pose proof (f_int_mantissa t ltac:(lia)) as Hm.
  assert (Et : f_mul (f_of_usize 1) (f_of_usize t) = f_of_usize t).
  { rewrite (f_of_usize_exact t) by lia. pose proof (Z.log2_nonneg t). assert (Z.log2 t < 53) by (apply Z.log2_lt_pow2; lia). apply f_mul_one; [rewrite Z2Pos.id; lia|lia]. }
  rewrite Et. destruct (f_div_ratio t u Ht Hu) as (m & E & -> & Hm' & HE & _). apply f_mul_one; [done|lia].
Qed.

(** Every candidate is a layout, scored positively when objects straddle at
    most one word boundary, by the share of the usable bytes in objects, and
    negatively otherwise. *)
Definition candidate (size usable page : Z) (cf : f64) (o : f64 * Z * Metadata) : Prop :=
  let m := o.2 in let b := bits_per_object m in let unit := 2 ^ bit_rep_shift m in
  1 ≤ bit_rep_shift m < 54 ∧ 1 ≤ b ∧ object_size m = b * unit ∧ size ≤ object_size m < size + unit ∧ object_size m < 2 * size ∧
  1 ≤ n_objects m < 2 ^ 53 ∧ n_bitset_words m = words_for (n_objects m) b ∧
  bitset_offset m = 64 ∧ objects_offset m = 64 + 8 * words_for (n_objects m) b + pad_for (object_size m) (n_objects m) b ∧
  (2 ≤ n_objects m → total_for (object_size m) b (n_objects m) ≤ usable) ∧ usable < total_for (object_size m) b (n_objects m + 1) ∧
  total_bytes m = page ∧ usable_size m = usable ∧ cutoff_objects m = Z.max 1 (f_to_usize (f_mul (f_of_usize (n_objects m)) cf)) ∧
  n_objects m * size ≤ usable ∧ o.1.2 = n_bitset_words m ∧ (slush b ≤ 64 → o.1.1 = score_of (n_objects m) size usable).

Lemma meta_inner_ok size page sh li cf us : let usable := Z.min us page in
  2 ≤ size ≤ usable → usable < 2 ^ 53 → 1 ≤ sh → 2 ^ sh < 2 * size →
  ∃ o, Meta.meta_inner size page sh li cf us = Ok o ∧ candidate size usable page cf o ∧ bit_rep_shift o.2 = sh ∧
    signed (bool_decide (64 < slush (bits_per_object o.2))) (-500) o.1.1.
Proof.
  intros usable Hs Hu Hsh Hlt. assert (Hsh54 : sh < 54).
  { apply (Z.pow_lt_mono_r_iff 2); [lia|lia|]. change (2 ^ 54) with (2 * 2 ^ 53). lia. }
  pose proof (pow2_pos sh ltac:(lia)) as Hp. unfold Meta.meta_inner, Meta.meta_inner_by. fold usable.
  assert (Es : ushl 1 sh = Ok (2 ^ sh)).
  { unfold ushl. rewrite (proj2 (Z.ltb_lt _ _)) by lia. f_equal. rewrite Z.shiftl_1_l. apply Z.mod_small. split; [lia|apply Z.pow_lt_mono_r; lia]. }
  rewrite Es, bind_Ok, umod_Ok, bind_Ok by lia.
  destruct (round_up_ok size sh) as (pad & g & -> & Hpad & Epad & Hg & Hpad2); [lia|done|done|]. rewrite bind_Ok.
  assert (size + pad < 2 ^ 54) by lia. rewrite uadd_Ok, bind_Ok, udiv_Ok, bind_Ok by lia.
  assert (Eg : (size + pad) / 2 ^ sh = g) by (rewrite Epad; apply Z.div_mul; lia). rewrite Eg, Z.shiftr_div_pow2, Eg by lia.
  assert (Hgs : 0 ≤ g ≤ size + pad) by nia.
  rewrite (proj2 (Z.ltb_lt 0 usable)), (proj2 (Z.ltb_lt 0 (2 ^ sh))), (proj2 (Z.ltb_lt 0 g)), is_power_of_two_pow2 by lia. cbn [rassert]. rewrite !bind_Ok.
  assert ((if g =? 1 then is_power_of_two (size + pad) else true) = true) as ->.
  { destruct (Z.eqb_spec g 1) as [->|]; [|done]. rewrite Epad, Z.mul_1_l. apply is_power_of_two_pow2. lia. }
  cbn [rassert]. rewrite bind_Ok. unfold bits. rewrite umod_Ok, bind_Ok by lia. pose proof (Z.mod_pos_bound 64 g ltac:(lia)).
  rewrite usub_Ok, bind_Ok by lia. fold (slush g).
  unfold Meta.pack_objects. destruct (pack_ok (size + pad) g usable ltac:(lia) Hgs ltac:(lia) (S (Z.to_nat usable)) 1) as (n & -> & Hn1 & Hns & Hfit & Hmax); [lia..|by left|].
  rewrite bind_Ok. assert (Hng : n * g ≤ n * (size + pad)) by (apply Z.mul_le_mono_nonneg_l; lia).
  pose proof (pad_for_bound (size + pad) n g ltac:(lia)). pose proof (words_for_bound n g ltac:(lia) ltac:(lia)).
  assert (0 ≤ n * g) by (apply Z.mul_nonneg_nonneg; lia).
  rewrite padding_ok, bind_Ok, total_bytes_ok, bind_Ok by lia. assert (Hnp : n * pad ≤ n * (size + pad)) by (apply Z.mul_le_mono_nonneg_l; lia).
  rewrite umul_Ok, bind_Ok by lia. unfold total_for at 1.
  rewrite usub_Ok, bind_Ok, bitset_bytes_ok, bind_Ok, usub_Ok, bind_Ok, usub_Ok, bind_Ok, usub_Ok, bind_Ok by (unfold slag_size; lia).
  rewrite udiv_Ok, bind_Ok, uadd_Ok, bind_Ok by (unfold word_size; lia).
  eexists. split; [done|]. unfold candidate, bits_per_object. cbn [fst snd object_size bit_rep_shift n_objects n_bitset_words bitset_offset objects_offset SlagMeta.total_bytes usable_size cutoff_objects].
  assert (Et : 64 + 8 * words_for n g + pad_for (size + pad) n g + n * (size + pad) - n * pad - 8 * words_for n g - slag_size - pad_for (size + pad) n g = n * size)
    by (unfold slag_size; lia). rewrite Et.
  assert (Hnu : n * size ≤ usable). { destruct Hfit as [->|Hfit]; [lia|]. pose proof (total_for_ge (size + pad) g n). lia. }
  assert (Hn0 : 0 < n * size) by (apply Z.mul_pos_pos; lia).
  assert (Em : (if 64 <? slush g then f_neg Meta.one else Meta.one) = (if bool_decide (64 < slush g) then f_neg Meta.one else Meta.one))
    by (case_bool_decide; [by rewrite (proj2 (Z.ltb_lt _ _)) by done|by rewrite (proj2 (Z.ltb_ge _ _)) by lia]).
  rewrite Em, trailing_zeros_pow2, Z.shiftr_div_pow2, Eg by lia. split; [|split; [reflexivity|apply score_signed; lia]].
  assert (8 * words_for n g / word_size = words_for n g) as -> by (unfold word_size; rewrite Z.mul_comm; apply Z.div_mul; lia).
  assert (n < 2 ^ 53) by (assert (n * 1 ≤ n * (size + pad)) by (apply Z.mul_le_mono_nonneg_l; lia); destruct Hfit; [lia|]; pose proof (total_for_ge (size + pad) g n); lia).
  split_and!; try done; try lia.
  intros Hsl. rewrite bool_decide_false by lia. apply score_exact; lia.
Qed.

(** When the rotation of [Slag::init] is right: one bit per object, a single
    word, or objects that do not fill words exactly. *)
Definition init_good (m : Metadata) : Prop :=
  bits_per_object m = 1 ∨ n_bitset_words m = 1 ∨ (64 mod bits_per_object m ≠ 0 ∧ slush (bits_per_object m) < 64).

Lemma words_for_mono n n' g g' : 0 ≤ n ≤ n' → 0 ≤ g ≤ g' → words_for n g ≤ words_for n' g'.
Proof. intros Hn Hg. unfold words_for. apply Z.div_le_mono; [lia|]. assert (n * g ≤ n' * g') by (apply Z.mul_le_mono_nonneg; lia). lia. Qed.

(** Aligned objects start at the next multiple of their size. *)
Lemma round_up_mono s x y : 0 < s → x ≤ y → x + (- x) mod s ≤ y + (- y) mod s.
Proof.
  intros Hs Hxy. pose proof (Z.div_mod (- x) s ltac:(lia)) as Hx. pose proof (Z.div_mod (- y) s ltac:(lia)) as Hy.
  assert (- y / s ≤ - x / s) by (apply Z.div_le_mono; lia). nia.
Qed.

Lemma total_for_mono k n n' g g' : 0 ≤ k → 0 ≤ n ≤ n' → 0 ≤ g ≤ g' → total_for (2 ^ k) g n ≤ total_for (2 ^ k) g' n'.
Proof.
  intros Hk Hn Hg. unfold total_for, pad_for. rewrite is_power_of_two_pow2 by done. pose proof (pow2_pos k Hk) as Hp. pose proof (words_for_mono n n' g g' Hn Hg).
  pose proof (round_up_mono (2 ^ k) (64 + 8 * words_for n g) (64 + 8 * words_for n' g') Hp ltac:(lia)). assert (n * 2 ^ k ≤ n' * 2 ^ k) by (apply Z.mul_le_mono_nonneg_r; lia). lia.
Qed.

(** Where the rotation goes wrong, an object has [2 ^ j] bits. *)
Lemma bad_bits m : 1 ≤ bits_per_object m → slush (bits_per_object m) ≤ 64 → init_good m ∨ (2 ≤ bits_per_object m ∧ n_bitset_words m ≠ 1 ∧ ∃ j, 0 ≤ j ∧ bits_per_object m = 2 ^ j).
Proof.
  intros Hb Hs. unfold init_good. set (b := bits_per_object m) in *. destruct (decide (b = 1)) as [|H1]; [tauto|]. destruct (decide (n_bitset_words m = 1)) as [|Hw]; [tauto|].
  destruct (decide (64 mod b ≠ 0 ∧ slush b < 64)) as [|Hn]; [tauto|]. right. split; [lia|]. split; [done|].
  assert (Hle : b ≤ 128). { unfold slush in Hs. destruct (Z.le_gt_cases b 64); [lia|]. rewrite Z.mod_small in Hs; lia. }
  assert (Hall : forallb (fun b => (negb (64 mod b =? 0) && (b - 64 mod b <? 64)) || is_power_of_two b) (zrange 1 129) = true) by (by vm_compute).
  assert (Hbz : b ∈ zrange 1 129) by (apply elem_of_zrange; lia). rewrite forallb_forall in Hall. specialize (Hall b (proj1 (list_elem_of_In _ _) Hbz)).
  apply orb_prop in Hall as [[Ha Hc]%andb_prop|Hp]; [|by apply is_power_of_two_spec in Hp]. exfalso. apply Hn. split; [|by apply Z.ltb_lt]. intros E0. by rewrite E0 in Ha.
Qed.

(** A layout with one bit per object is not scored below one of the same object
    size with several: it has at least as many objects, and fewer words if it has
    no more. *)
Lemma tolerance_zero x : (∃ m e, x = S754_finite false m e) → f_lt (f_abs (f_sub x x)) Meta.tolerance = true.
Proof. intros (m & e & ->). unfold f_sub, SFsub. rewrite Z.sub_diag. reflexivity. Qed.

Lemma one_bit_preferred size usable page cf o1 o2 : 2 ≤ size ≤ usable → usable < 2 ^ 53 → candidate size usable page cf o1 → candidate size usable page cf o2 →
  slush (bits_per_object o1.2) ≤ 64 → bits_per_object o2.2 = 1 → object_size o1.2 = object_size o2.2 → 2 ≤ bits_per_object o1.2 → n_bitset_words o1.2 ≠ 1 → Meta.better o1 o2 = o2.
Proof.
  intros Hs Hu (A1 & A2 & A3 & A4 & A5 & A6 & A7 & _ & _ & A10 & _ & _ & _ & _ & A15 & A16 & A17) (B1 & B2 & B3 & B4 & B5 & B6 & B7 & _ & _ & _ & B11 & _ & _ & _ & B15 & B16 & B17) Hsl Hb Ho H2 Hw.
  rewrite Hb in *. rewrite Z.mul_1_l in B3. specialize (A17 Hsl). specialize (B17 ltac:(done)). rewrite Ho, B3 in A10. rewrite B3 in B11. set (n1 := n_objects o1.2) in *. set (n2 := n_objects o2.2) in *. set (b := bits_per_object o1.2) in *.
  assert (Hn : n1 ≤ n2).
  { destruct (Z.le_gt_cases n1 n2) as [|Hlt]; [done|exfalso]. specialize (A10 ltac:(lia)). pose proof (total_for_mono (bit_rep_shift o2.2) (n2 + 1) n1 1 b ltac:(lia) ltac:(lia) ltac:(lia)). lia. }
  unfold Meta.better. rewrite A16, B16, A17, B17. unfold score_of. destruct (decide (n1 = n2)) as [En|Hne].
  - rewrite En. destruct (f_div_ratio (n2 * size) usable ltac:(split; [apply Z.mul_pos_pos|]; lia) Hu) as (m & E & -> & _). rewrite tolerance_zero by eauto.
    rewrite A7, B7, En in *. pose proof (words_for_bound n2 b ltac:(lia) ltac:(lia)). pose proof (words_for_bound n2 1 ltac:(lia) ltac:(lia)). assert (2 * n2 ≤ n2 * b) by (rewrite Z.mul_comm; apply Z.mul_le_mono_nonneg_l; lia).
    assert (words_for n2 1 < words_for n2 b); [|by rewrite (proj2 (Z.ltb_lt _ _)), orb_true_r by done].
    assert (words_for n2 b ≠ 1) by done. destruct (Z.le_gt_cases n2 64); [assert (words_for n2 1 = 1) by lia; assert (2 ≤ words_for n2 b) by lia; lia|lia].
  - assert (n1 * size < n2 * size) by (apply Z.mul_lt_mono_pos_r; lia). rewrite f_div_lt; [done|split; [apply Z.mul_pos_pos|]; lia|lia].
Qed.

(** The search ends in a candidate with a positive score: the last candidate
    (one bit per object) always has one, and is preferred to those whose
    bit-set the initialization gets wrong. *)
Lemma search_ok size page li cf us K : let usable := Z.min us page in
  2 ≤ size ≤ usable → usable < 2 ^ 53 → 1 ≤ K → size ≤ 2 ^ K < 2 * size →
  ∃ o, rfold (fun o1 shift => o2 ← Meta.meta_inner size page shift li cf us; Ok (Meta.better o1 o2)) (zrange 1 (K + 1))
    (f_neg (f_of_usize 10), 1000, Meta.test_meta) = Ok o ∧ candidate size usable page cf o ∧ slush (bits_per_object o.2) ≤ 64 ∧ init_good o.2.
Proof.
  intros usable Hs Hu HK HK2.
  destruct (rfold_zrange (fun i o => (signed true (-500) o.1.1 ∧ i ≤ K) ∨
      (signed false (-500) o.1.1 ∧ candidate size usable page cf o ∧ slush (bits_per_object o.2) ≤ 64 ∧ (K < i → init_good o.2)))
    (fun o1 shift => o2 ← Meta.meta_inner size page shift li cf us; Ok (Meta.better o1 o2)) 1 (K + 1) (f_neg (f_of_usize 10), 1000, Meta.test_meta))
    as (o & E & Ho); [lia|left; split; [done|lia]| |exists o; split; [done|]; destruct Ho as [[_ ?]|(_ & ? & ? & Hg)]; [lia|split_and!; [done|done|apply Hg; lia]]].
  intros i o1 Hi Ho1. assert (2 ^ i ≤ 2 ^ K) by (apply Z.pow_le_mono_r; lia).
  destruct (meta_inner_ok size page i li cf us) as (o2 & -> & Hc & Hbr & Hsg); [done|done|lia|lia|]. rewrite bind_Ok. eexists. split; [done|].
  fold usable in Hc. assert (Hlast : i = K → bits_per_object o2.2 = 1 ∧ object_size o2.2 = 2 ^ K).
  { intros ->. destruct Hc as (_ & Hb & Ho & Hos & _). rewrite Hbr in *. assert (Eb : bits_per_object o2.2 = 1); [|rewrite Eb in Ho; split; [done|lia]].
    clear -Hb Ho Hos HK2 Hs. rewrite Ho in Hos. set (b := bits_per_object _) in *. nia. }
  assert (Hgood2 : i = K → init_good o2.2) by (intros Ei; left; by apply Hlast).
  destruct (decide (64 < slush (bits_per_object o2.2))) as [Hsl|Hsl]; [rewrite bool_decide_true in Hsg by done|rewrite bool_decide_false in Hsg by lia].
  - assert (i < K) by (destruct (decide (i = K)) as [->|]; [destruct (Hlast eq_refl) as [E1 _]; rewrite E1 in Hsl; by vm_compute in Hsl|lia]). unfold Meta.better.
    destruct Ho1 as [[Hneg _]|(P1 & P2 & P3 & _)]; case_match; [left; split; [done|lia]..| |]; [left; split; [done|lia]|right; split_and!; [done|done|done|lia]].
  - assert (Hnew : signed false (-500) o2.1.1 ∧ candidate size usable page cf o2 ∧ slush (bits_per_object o2.2) ≤ 64 ∧ (K < i + 1 → init_good o2.2)) by (split_and!; [done|done|lia|intros ?; apply Hgood2; lia]).
    destruct Ho1 as [[Hneg _]|(P1 & P2 & P3 & P4)]; [unfold Meta.better; rewrite (signed_lt _ _ _ _ Hneg Hsg); by right|]. right. destruct (decide (i = K)) as [->|Hne].
    + destruct (Hlast eq_refl) as [Eb Eo]. pose proof P2 as (Q1 & Q2 & Q3 & Q4 & Q5 & _). destruct (bad_bits o1.2 Q2 P3) as [Hg|(H2 & Hw & j & Hj & Ej)].
      { unfold Meta.better. case_match; [done|]. split_and!; [done|done|done|done]. }
      rewrite (one_bit_preferred size usable page cf o1 o2); try done.
      rewrite Eo. rewrite Ej, <- Z.pow_add_r in Q3 by lia. rewrite Q3 in *. f_equal. apply Z.le_antisymm; apply Z.lt_succ_r, (Z.pow_lt_mono_r_iff 2); try lia; rewrite Z.pow_succ_r by lia; lia.
    + unfold Meta.better. case_match; [done|]. split_and!; [done|done|done|lia].
Qed.

(** The mask of the first word has the bits that are multiples of [b]. *)
Lemma mask_loop_ok b : 1 ≤ b → b < 2 ^ 60 → ∀ fuel q mask, 0 ≤ q → 1 ≤ Z.of_nat fuel → 65 - q * b ≤ Z.of_nat fuel → q * b < 2 ^ 61 →
  0 ≤ mask < 2 ^ 64 → (∀ i, 0 ≤ i < 64 → Z.testbit mask i = (i mod b =? 0) && (i <? q * b)) →
  ∃ mask', Meta.mask_loop fuel b (q * b) mask = Ok mask' ∧ 0 ≤ mask' < 2 ^ 64 ∧ ∀ i, 0 ≤ i < 64 → Z.testbit mask' i = (i mod b =? 0).
Proof.
  intros Hb Hb2. induction fuel as [|f IH]; intros q mask Hq Hf1 Hf Hqb Hm Hbits; [lia|].
  cbn [Meta.mask_loop]. unfold bits. destruct (Z.ltb_spec (q * b) 64) as [Hlt|Hge].
  2: { exists mask. split; [done|]. split; [done|]. intros i Hi. rewrite Hbits by done. rewrite (proj2 (Z.ltb_lt i (q * b))) by lia. by rewrite andb_true_r. }
  assert (0 ≤ q * b) by lia. assert (Hsm : 0 ≤ 2 ^ (q * b) < 2 ^ 64) by (split; [apply Z.pow_nonneg; lia|apply Z.pow_lt_mono_r; lia]).
  unfold ushl. rewrite (proj2 (Z.ltb_lt _ _)) by lia. rewrite bind_Ok, uadd_Ok, bind_Ok by lia.
  assert (wrap (Z.shiftl 1 (q * b)) = 2 ^ (q * b)) as -> by (rewrite Z.shiftl_1_l; by apply Z.mod_small).
  replace (q * b + b) with ((q + 1) * b) by lia. apply IH; [lia|lia|lia|lia|by apply lor_bound|].
  intros i Hi. rewrite Z.lor_spec, Hbits, Z.pow2_bits_eqb by lia. destruct (Z.eqb_spec (q * b) i) as [<-|Hne].
  - rewrite Z.mod_mul by lia. rewrite orb_true_r. symmetry. apply andb_true_iff. split; [done|]. apply Z.ltb_lt. lia.
  - rewrite orb_false_r. destruct (Z.eqb_spec (i mod b) 0) as [E|]; [|done]. cbn [andb].
    apply Z.mod_divide in E as [z ->]; [|lia]. assert (z ≠ q) by naive_solver.
    apply Bool.eq_true_iff_eq. rewrite !Z.ltb_lt, <- !Z.mul_lt_mono_pos_r by lia. lia.
Qed.

(** The search always ends in a layout; what it does not check is that one
    object fits. *)
Lemma compute_metadata_full size page li us cf t : 2 ≤ size ≤ Z.min us page → Z.min us page < 2 ^ 53 →
  ∃ m, Meta.compute_metadata size page li cf us t = Ok m ∧ layout_ok size (Z.min us page) page m ∧ mask_ok m ∧ ty m = t ∧ init_good m ∧ (f_le_one cf → cutoff_objects m ≤ n_objects m).
Proof.
  intros Hs Hmax. unfold Meta.compute_metadata, Meta.search. destruct (next_power_of_two_Ok size) as [p Ep]; [lia|].
  rewrite Ep, bind_Ok. apply next_power_of_two_spec in Ep as (Hp1 & Hp2 & (K & HK & ->) & Hp3). rewrite trailing_zeros_pow2 by lia.
  assert (1 ≤ K) by (destruct (decide (K = 0)) as [->|]; [cbn in Hp1|]; lia).
  destruct (search_ok size page li cf us K) as ([[sc w] m] & E & Hc & Hsl & Hgood); [lia|done|done|lia|]. rewrite E, bind_Ok. cbn [snd] in *.
  pose proof Hc as (C1 & C2 & C3 & C4 & C5 & C6 & C7 & C8 & C9 & C10 & C11 & C12 & C13 & C14 & _). fold (bits_per_object m). cbn [snd] in *.
  set (b := bits_per_object m) in *. assert (Hunit : 2 ≤ 2 ^ bit_rep_shift m) by (apply (Z.pow_le_mono_r 2 1); lia).
  assert (Hbs : 2 * b ≤ object_size m) by (rewrite C3, Z.mul_comm; apply Z.mul_le_mono_nonneg_l; lia).
  change (S (Z.to_nat bits)) with 65%nat.
  destruct (mask_loop_ok b C2 ltac:(lia) 65%nat 0 0) as (mask & Em & Hm1 & Hm2); [lia..| |].
  { intros i Hi. rewrite Z.bits_0, (proj2 (Z.ltb_ge i (0 * b))) by lia. by rewrite andb_false_r. }
  change (0 * b) with 0 in Em. rewrite Em, bind_Ok. eexists. split; [done|].
  assert (C14' : 1 ≤ cutoff_objects m) by lia.
  split; [exact (conj C1 (conj C2 (conj C3 (conj C4 (conj C5 (conj Hsl (conj C6 (conj C7 (conj C8 (conj C9 (conj C10 (conj C11 (conj C12 (conj C13 C14'))))))))))))))|].
  split; [by split|]. split; [done|]. split; [exact Hgood|]. intros Hcf. cbn. rewrite C14. pose proof (f_mul_le (n_objects m) cf ltac:(lia) Hcf). lia.
Qed.

Lemma compute_metadata_ok size page li us cf t : 2 ≤ size ≤ Z.min us page → Z.min us page < 2 ^ 53 →
  ∃ m, Meta.compute_metadata size page li cf us t = Ok m ∧ layout_ok size (Z.min us page) page m ∧ mask_ok m ∧ ty m = t.
Proof. intros Hs Hmax. destruct (compute_metadata_full size page li us cf t Hs Hmax) as (m & ? & ? & ? & ? & _). by exists m. Qed.

(** Bits of the bit-set are few. *)
Lemma layout_bits size u page m : layout_ok size u page m → 2 ≤ size ≤ u → u < 2 ^ 53 → n_objects m * bits_per_object m < 2 ^ 60.
Proof.
  intros (C1 & C2 & C3 & C4 & C5 & _ & C6 & _ & _ & _ & C10 & _) Hs Hu. assert (Hunit : 2 ≤ 2 ^ bit_rep_shift m) by (apply (Z.pow_le_mono_r 2 1); lia).
  assert (Hbo : bits_per_object m ≤ object_size m) by (rewrite C3; rewrite <- (Z.mul_1_r (bits_per_object m)) at 1; apply Z.mul_le_mono_nonneg_l; lia).
  destruct (decide (n_objects m = 1)) as [->|]; [lia|]. specialize (C10 ltac:(lia)). pose proof (total_for_ge (object_size m) (bits_per_object m) (n_objects m)).
  assert (n_objects m * bits_per_object m ≤ n_objects m * object_size m) by (apply Z.mul_le_mono_nonneg_l; lia). lia.
Qed.

(** With room for seven objects, two fit and all are inside. *)
Lemma layout_fits size u page m : layout_ok size u page m → 2 ≤ size → 7 * size + 72 ≤ u → 2 ≤ n_objects m ∧ objects_offset m + n_objects m * object_size m ≤ u.
Proof.
  intros (C1 & C2 & C3 & C4 & C5 & _ & C6 & _ & C8 & C9 & C10 & C11 & _) Hs Hu.
  assert (Hunit : 2 ≤ 2 ^ bit_rep_shift m) by (apply (Z.pow_le_mono_r 2 1); lia).
  assert (Hbs : 2 * bits_per_object m ≤ object_size m) by (rewrite C3, Z.mul_comm; apply Z.mul_le_mono_nonneg_l; lia).
  assert (Hn2 : 2 ≤ n_objects m).
  { destruct (decide (n_objects m = 1)) as [En|]; [|lia]. rewrite En in C11. unfold total_for in C11.
    pose proof (words_for_bound (1 + 1) (bits_per_object m)). pose proof (pad_for_bound (object_size m) (1 + 1) (bits_per_object m)). lia. }
  split; [done|]. specialize (C10 Hn2). unfold total_for in C10. lia.
Qed.

(** C17: the layout search is sound for objects of at least two bytes of which
    seven fit in the usable part of the page ([7 * size + 72] bytes; smaller pages
    and objects of one byte are in [metadata_degenerate]).  [compute_metadata]
    ends (no assertion, no overflow, no endless loop) in a layout in which at least
    two objects fit: header, bit-set (with room for the bits of every object) and
    objects follow each other inside the usable part of the page; objects hold the
    requested size, sit at multiples of it when it is a power of two, straddle at
    most one word boundary of the bit-set, and no further object would fit.  The
    mask of the first word marks the first bit of each object, [Slag::init]
    handles the number of bits per object, and with a cutoff factor of at most one
    the cutoff is not beyond the number of objects. *)
Theorem metadata_layout_sound (size page li us : Z) (cf : f64) (t : AllocType) :
  2 ≤ size → 7 * size + 72 ≤ Z.min us page → Z.min us page < 2 ^ 53 →
  ∃ m, Meta.compute_metadata size page li cf us t = Ok m ∧ layout_ok size (Z.min us page) page m ∧ mask_ok m ∧ ty m = t ∧
    2 ≤ n_objects m ∧ objects_offset m + n_objects m * object_size m ≤ Z.min us page ∧
    (is_power_of_two (object_size m) = true → (object_size m | objects_offset m)) ∧ init_good m ∧ (f_le_one cf → 1 ≤ cutoff_objects m ≤ n_objects m).
Proof.
  intros Hs Hu Hmax. destruct (compute_metadata_full size page li us cf t) as (m & E & Hl & Hm & Ht & Hg & Hc); [lia|done|]. exists m.
  pose proof (layout_fits _ _ _ _ Hl Hs Hu) as [Hn2 Hfit]. destruct Hl as (C1 & C2 & C3 & C4 & C5 & C6 & C7 & C8 & C8' & C9 & C10 & C11 & C12 & C13 & C14) eqn:El. split_and!; try done; [|intros Hcf; split; [done|by apply Hc]].
  intros Hpw. rewrite C9. apply pad_for_aligned; [lia|done].
Qed.

(** The cutoff factor of the size classes of the tests. *)
Definition f0_8 : f64 := f_div (f_of_usize 8) (f_of_usize 10).

(** Too small pages and sizes.  The number of objects starts at one
    without a check that one object fits: for an object close to the page size
    the layout extends past the page.  Size one has no candidate layout, and
    the loop that builds the mask never ends, whatever the number of steps. *)
Theorem metadata_degenerate :
  (∃ m, Meta.compute_metadata 1000 1024 0 f0_8 1024 SmallSlag = Ok m ∧ total_bytes m < objects_offset m + n_objects m * object_size m) ∧
  (∀ fuel, Meta.mask_loop fuel (bits_per_object Meta.test_meta) 0 0 = Fault NoFuel) ∧
  Meta.compute_metadata 1 4096 0 f0_8 4096 SmallSlag = Fault NoFuel.
Proof.
  split; [|split; [|by vm_compute]].
  - destruct (Meta.compute_metadata 1000 1024 0 f0_8 1024 SmallSlag) as [m|] eqn:E; [|by vm_compute in E].
    exists m. split; [done|]. vm_compute in E. injection E as <-. done.
  - intros fuel. assert (H : ∀ mask, Meta.mask_loop fuel 0 0 mask = Fault NoFuel); [|apply H].
    induction fuel as [|f IH]; intros mask; [done|]. apply IH.
Qed.

Lemma metadata_layout_sound_witness :
  ∃ m, Meta.compute_metadata 24 4096 0 f0_8 1024 SmallSlag = Ok m ∧ 2 ≤ n_objects m.
Proof.
  destruct (metadata_layout_sound 24 4096 0 1024 f0_8 SmallSlag) as (m & E & _ & _ & _ & H & _); [discriminate|discriminate|reflexivity|].
  exists m. split; [exact E|exact H].
Defined.
