(* ===== verification/SizeClasses.v ===== *)
(** * Size classes of elfmalloc

    Models the size-class maps of [src/elfmalloc/src/general.rs]: the trait
    [AllocMap] and its implementations [Multiples], [PowersOfTwo] and
    [TieredSizeClasses].  The array of classes of a map is modelled by its
    contents; [arr] is the call of [TypedArray::new] that maps its memory
    (ElfSources), which needs the size of a class and can panic.  A constructor
    closure ([FnMut]) is a state-passing function. *)

From Stdlib Require Import ZArith Lia.
From stdpp Require Import base numbers list option.
From S2P Require Import Prelude ElfSources.

Open Scope Z_scope.

(** ** Constants and rounding *)
Definition MULTIPLE : Z := 16.
Definition ELFMALLOC_PAGE_SIZE : Z := Z.shiftl 2 20.
Definition ELFMALLOC_SMALL_PAGE_SIZE : Z := Z.shiftl 256 10.
Definition ELFMALLOC_SMALL_CUTOFF : Z := ELFMALLOC_SMALL_PAGE_SIZE / 4.

(** [round_up]: the closest multiple of 16 that is not below [n]. *)
Definition round_up (n : Z) : res Z := s ← uadd n (MULTIPLE - 1); Ok (Z.land s (unot (MULTIPLE - 1))).

(** ** The trait [AllocMap]

    [get_raw] is the position of the class (the source returns its address),
    [get] and [get_mut] read the class there ([at_slot]) or write it ([set_slot]); [foreach] visits [elems] in order. *)
Class AllocMap (AM : Type → Type) (Slot : Type) := {
  init_conserve {St T} : (Z → M St TypedArray) → Z → Z → (Z → M St T) → M St (AM T);
  get_raw {T} : AM T → Z → res Slot;
  at_slot {T} : AM T → Slot → option T;
  set_slot {T} : AM T → Slot → T → AM T;
  max_key {T} : AM T → Z;
  elems {T} : AM T → list T
}.

Definition get_class {AM Slot} `{!AllocMap AM Slot} {T} (am : AM T) (k : Z) : res T :=
  i ← get_raw am k; deref (at_slot am i).

(** The loop that constructs a class in every slot of the array; [step] gives
    the size of the next class. *)
Fixpoint fill {St T : Type} (step : Z → res Z) (f : Z → M St T) (slots : nat) (cur_size : Z) : M St (list T * Z) :=
  match slots with
  | O => mret ([], cur_size)
  | S n =>
      x ← f cur_size;
      cur ← lift (step cur_size);
      '(xs, last) ← fill step f n cur;
      mret (x :: xs, last)
  end.

(** ** [Multiples] *)
Record Multiples (T : Type) := mkMultiples { mu_start : Z; mu_max : Z; mu_classes : list T }.
Arguments mkMultiples {T}. Arguments mu_start {T}. Arguments mu_max {T}. Arguments mu_classes {T}.

Module Mult.
Section ops.
Context {St T : Type}.

Definition init_conserve (arr : Z → M St TypedArray) (start n_classes : Z) (f : Z → M St T) : M St (Multiples T) :=
  _ ← lift (rassert (1 <=? n_classes));
  starting_size ← lift (round_up start);
  m ← lift (umul n_classes MULTIPLE);
  m ← lift (uadd m starting_size);
  max_size ← lift (usub m MULTIPLE);
  _ ← arr n_classes;
  '(classes, cur_size) ← fill (fun c => uadd c MULTIPLE) f (Z.to_nat n_classes) starting_size;
  c ← lift (usub cur_size MULTIPLE);
  _ ← lift (rassert (max_size =? c));
  mret (mkMultiples starting_size max_size classes).

Definition get_raw (m : Multiples T) (n : Z) : res Z :=
  class ← round_up n;
  _ ← rassert (class <=? mu_max m);
  d ← usub class (mu_start m);
  udiv d MULTIPLE.

Definition at_slot (m : Multiples T) (i : Z) : option T := mu_classes m !! Z.to_nat i.
Definition set_slot (m : Multiples T) (i : Z) (x : T) : Multiples T := mkMultiples (mu_start m) (mu_max m) (<[Z.to_nat i := x]> (mu_classes m)).
Definition max_key (m : Multiples T) : Z := mu_max m.
End ops.
End Mult.

#[export] Instance Multiples_map : AllocMap Multiples Z := {
  init_conserve := @Mult.init_conserve;
  get_raw := @Mult.get_raw;
  at_slot := @Mult.at_slot;
  set_slot := @Mult.set_slot;
  max_key := @Mult.max_key;
  elems := @mu_classes
}.

(** ** [PowersOfTwo] *)
Record PowersOfTwo (T : Type) := mkPowers { po_start : Z; po_max : Z; po_classes : list T }.
Arguments mkPowers {T}. Arguments po_start {T}. Arguments po_max {T}. Arguments po_classes {T}.

Module Pow.
Section ops.
Context {St T : Type}.

Definition init_conserve (arr : Z → M St TypedArray) (start n_classes : Z) (f : Z → M St T) : M St (PowersOfTwo T) :=
  starting_size ← lift (next_power_of_two start);
  _ ← arr n_classes;
  '(classes, cur_size) ← fill (fun c => umul c 2) f (Z.to_nat n_classes) starting_size;
  mret (mkPowers starting_size (cur_size / 2) classes).

Definition get_raw (m : PowersOfTwo T) (k : Z) : res Z :=
  _ ← rassert (k <=? po_max m);
  p ← next_power_of_two k;
  log ← usub (trailing_zeros p) (trailing_zeros (po_start m));
  _ ← rassert (log <? Z.of_nat (length (po_classes m)));
  Ok log.

Definition at_slot (m : PowersOfTwo T) (i : Z) : option T := po_classes m !! Z.to_nat i.
Definition set_slot (m : PowersOfTwo T) (i : Z) (x : T) : PowersOfTwo T := mkPowers (po_start m) (po_max m) (<[Z.to_nat i := x]> (po_classes m)).
Definition max_key (m : PowersOfTwo T) : Z := po_max m.
End ops.
End Pow.

#[export] Instance PowersOfTwo_map : AllocMap PowersOfTwo Z := {
  init_conserve := @Pow.init_conserve;
  get_raw := @Pow.get_raw;
  at_slot := @Pow.at_slot;
  set_slot := @Pow.set_slot;
  max_key := @Pow.max_key;
  elems := @po_classes
}.

(** ** [TieredSizeClasses] *)
Record TieredSizeClasses (T : Type) := mkTiered { word_objs : option T; small_objs : Multiples T; medium_objs : PowersOfTwo T }.
Arguments mkTiered {T}. Arguments word_objs {T}. Arguments small_objs {T}. Arguments medium_objs {T}.

Inductive slot := WordSlot | SmallSlot (i : Z) | MediumSlot (i : Z).

#[export] Instance slot_eq_dec : EqDecision slot.
Proof. solve_decision. Defined.

Module Tiered.
Section ops.
Context {St T : Type}.

Definition init_conserve (arr : Z → M St TypedArray) (start n_classes : Z) (f : Z → M St T) : M St (TieredSizeClasses T) :=
  d ← lift (usub (ELFMALLOC_SMALL_CUTOFF / MULTIPLE) (start / MULTIPLE));
  let n_small_classes := Z.min d (n_classes / 2) in
  n_medium_classes ← lift (usub n_classes n_small_classes);
  small_classes ← Mult.init_conserve arr start n_small_classes f;
  s ← lift (uadd (Mult.max_key small_classes) 1);
  medium_classes ← Pow.init_conserve arr s n_medium_classes f;
  word ← f 8;
  mret (mkTiered (Some word) small_classes medium_classes).

Definition get_raw (m : TieredSizeClasses T) (n : Z) : res slot :=
  if n <=? 8 then _ ← unwrap (word_objs m); Ok WordSlot
  else if n <=? Mult.max_key (small_objs m) then SmallSlot <$> Mult.get_raw (small_objs m) n
  else MediumSlot <$> Pow.get_raw (medium_objs m) n.

Definition at_slot (m : TieredSizeClasses T) (s : slot) : option T :=
  match s with
  | WordSlot => word_objs m
  | SmallSlot i => Mult.at_slot (small_objs m) i
  | MediumSlot i => Pow.at_slot (medium_objs m) i
  end.

Definition set_slot (m : TieredSizeClasses T) (s : slot) (x : T) : TieredSizeClasses T :=
  match s with
  | WordSlot => mkTiered (Some x) (small_objs m) (medium_objs m)
  | SmallSlot i => mkTiered (word_objs m) (Mult.set_slot (small_objs m) i x) (medium_objs m)
  | MediumSlot i => mkTiered (word_objs m) (small_objs m) (Pow.set_slot (medium_objs m) i x)
  end.

Definition max_key (m : TieredSizeClasses T) : Z := Pow.max_key (medium_objs m).

Definition elems (m : TieredSizeClasses T) : list T :=
  option_list (word_objs m) ++ mu_classes (small_objs m) ++ po_classes (medium_objs m).
End ops.
End Tiered.

#[export] Instance Tiered_map : AllocMap TieredSizeClasses slot := {
  init_conserve := @Tiered.init_conserve;
  get_raw := @Tiered.get_raw;
  at_slot := @Tiered.at_slot;
  set_slot := @Tiered.set_slot;
  max_key := @Tiered.max_key;
  elems := @Tiered.elems
}.

(** [Clone] of the maps: a map of the same shape whose classes are copies of
    the classes the keys of the original select. *)
Definition clone_classes {AM Slot} `{!AllocMap AM Slot} {St T} (arr : Z → M St TypedArray) (copy : T → M St T) (start n_classes : Z) (am : AM T) : M St (AM T) :=
  init_conserve arr start n_classes (fun size => x ← lift (get_class am size); copy x).

(** ** What a map of size classes promises *)

(** The least class of [cs] that holds [k] bytes. *)
Definition least_class (cs : list Z) (k c : Z) : Prop := c ∈ cs ∧ k ≤ c ∧ ∀ c', c' ∈ cs → k ≤ c' → c ≤ c'.

(** The classes of the three maps. *)
Definition mult_sizes (s n : Z) : list Z := (fun i => s + 16 * i) <$> zrange 0 n.
Definition pow_sizes (s n : Z) : list Z := (fun i => s * 2 ^ i) <$> zrange 0 n.
Definition round16 (n : Z) : Z := (n + 15) / 16 * 16.
Definition small_count (start n : Z) : Z := Z.min (4096 - start / 16) (n / 2).
Definition small_max (start n : Z) : Z := round16 start + 16 * (small_count start n - 1).
Definition medium_min (start n : Z) : Z := 2 ^ Z.log2_up (small_max start n + 1).
Definition tier_sizes (start n : Z) : list Z :=
  8 :: mult_sizes (round16 start) (small_count start n) ++ pow_sizes (medium_min start n) (n - small_count start n).

Lemma round16_spec n : n ≤ round16 n < n + 16 ∧ (16 | round16 n).
Proof. unfold round16. pose proof (Z.div_mod (n + 15) 16 ltac:(lia)). pose proof (Z.mod_pos_bound (n + 15) 16 ltac:(lia)). split; [lia|]. apply Z.divide_factor_r. Qed.

Lemma round_up_Ok n : 0 ≤ n < 2 ^ 63 → round_up n = Ok (round16 n).
Proof.
  intros Hn. unfold round_up, MULTIPLE. rewrite uadd_Ok, bind_Ok by lia. f_equal. change (16 - 1) with (2 ^ 4 - 1).
  rewrite land_unot_pow2 by (unfold is_usize; lia). unfold round16. change (2 ^ 4) with 16.
  pose proof (Z.div_mod (n + 15) 16 ltac:(lia)). change (n + (16 - 1)) with (n + 15). lia.
Qed.

Lemma npo2_log x : 1 ≤ x ≤ 2 ^ 63 → next_power_of_two x = Ok (2 ^ Z.log2_up x).
Proof.
  intros Hx. unfold next_power_of_two. destruct (Z.leb_spec x 1) as [H|H]; [by replace x with 1 by lia|].
  assert (Z.log2_up x ≤ 63) by (apply Z.log2_up_le_pow2; lia). assert (2 ^ Z.log2_up x ≤ 2 ^ 63) by (apply Z.pow_le_mono_r; lia).
  simpl. by rewrite (proj2 (Z.ltb_lt _ _)) by lia.
Qed.

Lemma log2_up_17 x : 1 ≤ x ≤ 2 ^ 17 → 0 ≤ Z.log2_up x ≤ 17.
Proof. intros Hx. split; [apply Z.log2_up_nonneg|]. apply Z.log2_up_le_pow2; lia. Qed.

(** The size of the class in a slot of a tiered map. *)
Definition slot_size (start n : Z) (sl : slot) : Z :=
  match sl with
  | WordSlot => 8
  | SmallSlot i => round16 start + 16 * i
  | MediumSlot i => medium_min start n * 2 ^ i
  end.
(** The order in which the classes are constructed. *)
Definition slot_index (start n : Z) (sl : slot) : Z :=
  match sl with
  | WordSlot => n
  | SmallSlot i => i
  | MediumSlot i => small_count start n + i
  end.
Definition slot_valid (start n : Z) (sl : slot) : Prop :=
  match sl with
  | WordSlot => True
  | SmallSlot i => 0 ≤ i < small_count start n
  | MediumSlot i => 0 ≤ i < n - small_count start n
  end.

(** The key [k] selects the slot of the least class that holds it. *)
Definition selects {T} (start n : Z) (am : TieredSizeClasses T) (k : Z) : Prop :=
  ∃ sl, get_raw am k = Ok sl ∧ is_Some (at_slot am sl) ∧ slot_valid start n sl ∧ least_class (tier_sizes start n) k (slot_size start n sl) ∧
    (slot_size start n sl - k < 16 ∨ slot_size start n sl < 2 * k).

Lemma elem_of_tier_small start n c : c ∈ mult_sizes (round16 start) (small_count start n) → c ∈ tier_sizes start n.
Proof. intros H. right. apply elem_of_app. by left. Qed.

Lemma elem_of_tier_medium start n c : c ∈ pow_sizes (medium_min start n) (n - small_count start n) → c ∈ tier_sizes start n.
Proof. intros H. right. apply elem_of_app. by right. Qed.

Section classes.
Context {St T : Type} (I : Z → St → Prop) (Q : Z → T → Prop) (f : Z → M St T).
(** Arrays of up to [N] classes can be made, or, if [lacking], memory may be
    short. *)
Context (arr : Z → M St TypedArray) (N : Z) (lacking : Prop).
Definition makes_arrays : Prop := ∀ j n s, I j s → 1 ≤ n ≤ N →
  (lacking ∧ arr n s = Fault UnwrapNone) ∨ ∃ a s', arr n s = Ok (a, s') ∧ I j s'.
Context (Harr : makes_arrays).

(** [f] constructs a class of size [c] when called as the [j]th time; [I j]
    holds of the state before that call. *)
Definition builds (j c : Z) : Prop := ∀ s, I j s → ∃ x s', f c s = Ok (x, s') ∧ I (j + 1) s' ∧ Q c x.

Lemma fill_spec step (size : Z → Z) n j : (∀ i, 0 ≤ i < Z.of_nat n → step (size i) = Ok (size (i + 1))) →
  (∀ i, 0 ≤ i < Z.of_nat n → builds (j + i) (size i)) → ∀ s, I j s →
  ∃ xs s', fill step f n (size 0) s = Ok ((xs, size (Z.of_nat n)), s') ∧ I (j + Z.of_nat n) s' ∧ length xs = n ∧ ∀ i x, xs !! i = Some x → Q (size (Z.of_nat i)) x.
Proof.
  revert size j. induction n as [|n IH]; intros size j Hstep Hf s Hs; [exists [], s; by rewrite Z.add_0_r|].
  destruct (Hf 0 ltac:(lia) s ltac:(by rewrite Z.add_0_r)) as (x & s1 & E & Hs1 & HQ). cbn [fill]. rewrite (M_bind_run _ _ _ x s1 E).
  rewrite (lift_bind _ (size (0 + 1))) by (apply Hstep; lia).
  destruct (IH (fun i => size (i + 1)) (j + 1)) with (s := s1) as (xs & s2 & E2 & Hs2 & Hl & Hq);
    [intros i Hi; apply Hstep; lia|intros i Hi; replace (j + 1 + i) with (j + (i + 1)) by lia; apply Hf; lia|by rewrite Z.add_0_r in Hs1|].
  rewrite (M_bind_run _ _ _ (xs, size (Z.of_nat n + 1)) s2) by exact E2. exists (x :: xs), s2.
  replace (Z.of_nat (S n)) with (Z.of_nat n + 1) by lia. split; [done|]. split; [by replace (j + (Z.of_nat n + 1)) with (j + 1 + Z.of_nat n) by lia|].
  split; [by cbn; f_equal|].
  intros [|i] y; cbn [lookup list_lookup]; [by intros [= <-]|]. intros Hy%Hq. by replace (Z.of_nat (S i)) with (Z.of_nat i + 1) by lia.
Qed.

Lemma mult_least s n i k : 0 ≤ i < n → s + 16 * (i - 1) < k ≤ s + 16 * i → least_class (mult_sizes s n) k (s + 16 * i).
Proof.
  intros Hi Hk. split; [|split; [lia|]].
  - apply list_elem_of_fmap. exists i. split; [done|]. by apply elem_of_zrange.
  - intros c' (j & -> & Hj%elem_of_zrange)%list_elem_of_fmap Hc. lia.
Qed.

Lemma mult_init_spec start n s j : 0 ≤ start < 2 ^ 60 → 1 ≤ n < 2 ^ 50 → n ≤ N → (∀ i, 0 ≤ i < n → builds (j + i) (round16 start + 16 * i)) → I j s →
  (lacking ∧ Mult.init_conserve arr start n f s = Fault UnwrapNone) ∨
  ∃ am s', Mult.init_conserve arr start n f s = Ok (am, s') ∧ I (j + n) s' ∧ length (mu_classes am) = Z.to_nat n ∧ mu_start am = round16 start ∧
    mu_max am = round16 start + 16 * (n - 1) ∧ ∀ i x, mu_classes am !! i = Some x → Q (round16 start + 16 * Z.of_nat i) x.
Proof.
  intros Hst Hn HN Hf Hs0. pose proof (round16_spec start) as [Hr _]. unfold Mult.init_conserve.
  rewrite lift_assert by (apply Z.leb_le; lia). rewrite (lift_bind _ _ _ _ (round_up_Ok start ltac:(lia))). unfold MULTIPLE.
  rewrite (lift_bind _ (n * 16)) by (apply umul_Ok; lia). rewrite (lift_bind _ (n * 16 + round16 start)) by (apply uadd_Ok; lia).
  rewrite (lift_bind _ (n * 16 + round16 start - 16)) by (apply usub_Ok; lia).
  destruct (Harr j n s Hs0) as [[Hlack Ea]|(ta & s0 & Ea & Hs)]; [lia|left; split; [done|]; by rewrite (M_bind_fault _ _ _ _ Ea)|right].
  rewrite (M_bind_run _ _ _ _ _ Ea).
  destruct (fill_spec (fun c => uadd c 16) (fun i => round16 start + 16 * i) (Z.to_nat n) j) with (s := s0) as (xs & s' & E & Hs' & Hl & HQ); [| |done|].
  { intros i Hi. rewrite uadd_Ok by lia. f_equal. lia. }
  { intros i Hi. apply Hf. lia. }
  rewrite Z.mul_0_r, Z.add_0_r in E. rewrite (M_bind_run _ _ _ _ s' E).
  rewrite (lift_bind _ (n * 16 + round16 start - 16)) by (rewrite usub_Ok by lia; f_equal; lia). rewrite lift_assert by (apply Z.eqb_eq; lia).
  rewrite Z2Nat.id in Hs' by lia. eexists _, _. split; [done|]. cbn. split_and!; (done || lia).
Qed.

Lemma mult_get (am : Multiples T) k : 0 ≤ k < 2 ^ 62 → mu_start am ≤ round16 k → k ≤ mu_max am → (16 | mu_start am) → (16 | mu_max am) →
  mu_max am = mu_start am + 16 * (Z.of_nat (length (mu_classes am)) - 1) →
  ∃ i x, Mult.get_raw am k = Ok (Z.of_nat i) ∧ mu_classes am !! i = Some x ∧ mu_start am + 16 * (Z.of_nat i - 1) < k ≤ mu_start am + 16 * Z.of_nat i.
Proof.
  intros Hk Hs Hm [a Ha] [b Hb] Hl. pose proof (round16_spec k) as [Hr [q Hq]]. unfold Mult.get_raw.
  rewrite round_up_Ok, bind_Ok by lia. rewrite rassert_true, bind_Ok by (apply Z.leb_le; lia). unfold MULTIPLE.
  rewrite usub_Ok, bind_Ok, udiv_Ok by lia. replace (round16 k - mu_start am) with ((q - a) * 16) by lia. rewrite Z.div_mul by lia.
  destruct (lookup_lt_is_Some_2 (mu_classes am) (Z.to_nat (q - a))) as [x Hx]; [lia|].
  exists (Z.to_nat (q - a)), x. split; [f_equal; lia|]. split; [done|]. lia.
Qed.

Lemma pow_init_spec start n s j : 1 ≤ start ≤ 2 ^ 17 → 1 ≤ n ≤ 46 → n ≤ N → (∀ i, 0 ≤ i < n → builds (j + i) (2 ^ Z.log2_up start * 2 ^ i)) → I j s →
  (lacking ∧ Pow.init_conserve arr start n f s = Fault UnwrapNone) ∨
  ∃ am s', Pow.init_conserve arr start n f s = Ok (am, s') ∧ I (j + n) s' ∧ length (po_classes am) = Z.to_nat n ∧ po_start am = 2 ^ Z.log2_up start ∧
    po_max am = 2 ^ Z.log2_up start * 2 ^ n / 2 ∧ ∀ i x, po_classes am !! i = Some x → Q (2 ^ Z.log2_up start * 2 ^ Z.of_nat i) x.
Proof.
  intros Hst Hn HN Hf Hs0. pose proof (log2_up_17 start Hst) as He. unfold Pow.init_conserve. rewrite (lift_bind _ _ _ _ (npo2_log start ltac:(lia))).
  set (e := Z.log2_up start) in *.
  destruct (Harr j n s Hs0) as [[Hlack Ea]|(ta & s0 & Ea & Hs)]; [lia|left; split; [done|]; by rewrite (M_bind_fault _ _ _ _ Ea)|right].
  rewrite (M_bind_run _ _ _ _ _ Ea).
  destruct (fill_spec (fun c => umul c 2) (fun i => 2 ^ e * 2 ^ i) (Z.to_nat n) j) with (s := s0) as (xs & s' & E & Hs' & Hl & HQ); [| |done|].
  { intros i Hi. assert (E : 2 ^ e * 2 ^ (i + 1) = 2 ^ e * 2 ^ i * 2) by (rewrite Z.pow_add_r by lia; lia). rewrite E. apply umul_Ok.
    rewrite <- E, <- Z.pow_add_r by lia. apply Z.pow_lt_mono_r; lia. }
  { intros i Hi. apply Hf. lia. }
  rewrite Z.mul_1_r in E. rewrite (M_bind_run _ _ _ _ s' E). rewrite Z2Nat.id in * by lia.
  eexists _, _. split; [done|]. cbn. by split_and!.
Qed.

Lemma pow_get (am : PowersOfTwo T) e k : po_start am = 2 ^ e → 0 ≤ e → 1 ≤ k < 2 ^ 63 → k ≤ po_max am → e ≤ Z.log2_up k < e + Z.of_nat (length (po_classes am)) →
  ∃ i x, Pow.get_raw am k = Ok (Z.of_nat i) ∧ po_classes am !! i = Some x ∧ Z.of_nat i = Z.log2_up k - e.
Proof.
  intros Hs He Hk Hm Hl. unfold Pow.get_raw. rewrite rassert_true, bind_Ok by (by apply Z.leb_le).
  rewrite npo2_log, bind_Ok, Hs, !trailing_zeros_pow2, usub_Ok, bind_Ok by lia. rewrite rassert_true, bind_Ok by (apply Z.ltb_lt; lia).
  destruct (lookup_lt_is_Some_2 (po_classes am) (Z.to_nat (Z.log2_up k - e))) as [x Hx]; [lia|].
  exists (Z.to_nat (Z.log2_up k - e)), x. split; [f_equal; lia|]. split; [done|lia].
Qed.

(** The shape of a tiered map, and what its slots hold. *)
Definition tiered_shape (start n : Z) (am : TieredSizeClasses T) : Prop :=
  is_Some (word_objs am) ∧
  length (mu_classes (small_objs am)) = Z.to_nat (small_count start n) ∧ mu_start (small_objs am) = round16 start ∧ mu_max (small_objs am) = small_max start n ∧
  length (po_classes (medium_objs am)) = Z.to_nat (n - small_count start n) ∧ po_start (medium_objs am) = medium_min start n ∧
  po_max (medium_objs am) = medium_min start n * 2 ^ (n - small_count start n) / 2.

Definition tiered_holds (start n : Z) (am : TieredSizeClasses T) : Prop :=
  ∀ sl x, slot_valid start n sl → at_slot am sl = Some x → Q (slot_size start n sl) x.

Lemma tier_bounds start n : 1 ≤ start < 65536 → 2 ≤ n ≤ 46 →
  1 ≤ small_count start n ≤ 23 ∧ small_count start n < n ∧ 16 ≤ round16 start ≤ small_max start n ∧ small_max start n + 1 ≤ 2 ^ 17 ∧ (16 | small_max start n).
Proof.
  intros Hs Hn. pose proof (round16_spec start) as [Hr Hd]. pose proof Hd as [q Hq]. unfold small_count, small_max.
  pose proof (Z.div_lt_upper_bound start 16 4096). pose proof (Z.div_lt_upper_bound n 2 n). pose proof (Z.div_le_lower_bound n 2 1).
  pose proof (Z.div_le_upper_bound n 2 23). fold (small_count start n). assert (1 ≤ small_count start n ≤ 23) by (unfold small_count; lia).
  split; [done|]. split; [unfold small_count; lia|]. split; [lia|]. split; [lia|]. apply Z.divide_add_r; [done|apply Z.divide_factor_l].
Qed.

Lemma tiered_init_spec start n s : 1 ≤ start < 65536 → 2 ≤ n ≤ 46 → n ≤ N → (∀ sl, slot_valid start n sl → builds (slot_index start n sl) (slot_size start n sl)) → I 0 s →
  (lacking ∧ Tiered.init_conserve arr start n f s = Fault UnwrapNone) ∨
  ∃ am s', Tiered.init_conserve arr start n f s = Ok (am, s') ∧ I (n + 1) s' ∧ tiered_shape start n am ∧ tiered_holds start n am.
Proof.
  intros Hst Hn HN Hf Hs. destruct (tier_bounds start n Hst Hn) as (Hc & Hcn & Hr & Hm & _). unfold Tiered.init_conserve.
  change (ELFMALLOC_SMALL_CUTOFF / MULTIPLE) with 4096. unfold MULTIPLE.
  rewrite (lift_bind _ (4096 - start / 16)) by (apply usub_Ok; unfold small_count in Hc; lia). fold (small_count start n).
  rewrite (lift_bind _ (n - small_count start n)) by (apply usub_Ok; lia).
  destruct (mult_init_spec start (small_count start n) s 0) as [[Hlack E1]|(sm & s1 & E1 & Hs1 & Hl1 & Hst1 & Hmx1 & HQ1)]; [lia|lia|lia| |done| |].
  { intros i Hi. by apply (Hf (SmallSlot i)). }
  { left. split; [done|]. by rewrite (M_bind_fault _ _ _ _ E1). }
  rewrite (M_bind_run _ _ _ _ _ E1). unfold Mult.max_key. rewrite Hmx1. fold (small_max start n).
  rewrite (lift_bind _ (small_max start n + 1)) by (apply uadd_Ok; lia).
  destruct (pow_init_spec (small_max start n + 1) (n - small_count start n) s1 (small_count start n)) as [[Hlack E2]|(md & s2 & E2 & Hs2 & Hl2 & Hst2 & Hmx2 & HQ2)]; [lia|lia|lia| |done| |].
  { intros i Hi. by apply (Hf (MediumSlot i)). }
  { left. split; [done|]. by rewrite (M_bind_fault _ _ _ _ E2). }
  right. rewrite (M_bind_run _ _ _ _ _ E2). destruct (Hf WordSlot Logic.I s2 ltac:(by replace n with (small_count start n + (n - small_count start n)) at 1 by lia)) as (w & s3 & E3 & Hs3 & HQ3).
  rewrite (M_bind_run _ _ _ _ _ E3). eexists _, _. split; [done|]. split; [done|]. split; [by split_and!; [exists w|..]|].
  intros [|i|i] x Hv; cbn; [by intros [= <-]| |]; intros Hx; cbn in Hv; [apply HQ1 in Hx|apply HQ2 in Hx]; by rewrite Z2Nat.id in Hx by lia.
Qed.

Lemma small_slot start n (am : TieredSizeClasses T) k : 1 ≤ start < 65536 → 2 ≤ n ≤ 46 → tiered_shape start n am →
  8 < k ≤ small_max start n → start ≤ k → selects start n am k.
Proof.
  intros Hst Hn (_ & Hl & Hs & Hm & _) Hk Hsk. destruct (tier_bounds start n Hst Hn) as (Hc & Hcn & Hr & Hb & Hd).
  pose proof (round16_spec start) as [_ Hd']. unfold selects. cbn [get_raw at_slot Tiered_map]. unfold Tiered.get_raw, Mult.max_key.
  rewrite (proj2 (Z.leb_gt k 8)), Hm, (proj2 (Z.leb_le k _)) by lia.
  destruct (mult_get (small_objs am) k) as (i & x & E & Hx & Hi); [lia| |lia|by rewrite Hs|by rewrite Hm|rewrite Hm, Hs, Hl; unfold small_max; lia|].
  { rewrite Hs. unfold round16. apply Z.mul_le_mono_nonneg_r; [lia|]. apply Z.div_le_mono; lia. }
  rewrite E. eexists. split; [done|]. cbn [Tiered.at_slot slot_valid slot_size]. unfold Mult.at_slot. rewrite Nat2Z.id, Hs in *.
  pose proof (lookup_lt_Some _ _ _ Hx). split; [by eexists|]. split; [lia|]. split; [|lia].
  destruct (mult_least (round16 start) (small_count start n) (Z.of_nat i) k) as (H1 & H2 & H3); [lia|lia|]. split; [by apply elem_of_tier_small|].
  split; [lia|]. unfold tier_sizes. intros c' Hc' Hkc'. apply elem_of_cons in Hc' as [->|[Hc'|Hc']%elem_of_app]; [lia|by apply H3|].
  apply list_elem_of_fmap in Hc' as (j & -> & Hj%elem_of_zrange). pose proof (pow2_pos j ltac:(lia)).
  assert (small_max start n + 1 ≤ medium_min start n) by (apply Z.log2_up_spec; lia). unfold small_max in *. nia.
Qed.

Lemma medium_slot start n (am : TieredSizeClasses T) k : 1 ≤ start < 65536 → 2 ≤ n ≤ 46 → tiered_shape start n am →
  small_max start n < k ≤ max_key am → selects start n am k.
Proof.
  intros Hst Hn (_ & _ & _ & Hm & Hl & Hs & Hx) Hk. destruct (tier_bounds start n Hst Hn) as (Hc & Hcn & Hr & Hb & Hd).
  cbn [max_key Tiered_map] in Hk. unfold Tiered.max_key, Pow.max_key in Hk. pose proof (log2_up_17 (small_max start n + 1) ltac:(lia)) as He.
  unfold selects. cbn [slot_size]. unfold medium_min in *. set (e := Z.log2_up (small_max start n + 1)) in *. set (nm := n - small_count start n) in *.
  assert (Hmax : po_max (medium_objs am) = 2 ^ (e + (nm - 1))).
  { rewrite Hx, <- Z.pow_add_r by lia. replace (e + nm) with (Z.succ (e + (nm - 1))) by lia. rewrite Z.pow_succ_r, Z.mul_comm by lia. apply Z.div_mul. lia. }
  assert (2 ^ (e + (nm - 1)) < 2 ^ 63) by (apply Z.pow_lt_mono_r; lia).
  assert (Hlog : e ≤ Z.log2_up k ≤ e + (nm - 1)) by (split; [apply Z.log2_up_le_mono; lia|apply Z.log2_up_le_pow2; lia]).
  destruct (pow_get (medium_objs am) e k) as (i & x & E & Hxi & Hi); [done|lia|lia|lia|lia|].
  cbn [get_raw at_slot Tiered_map]. unfold Tiered.get_raw, Mult.max_key.
  rewrite (proj2 (Z.leb_gt k 8)), Hm, (proj2 (Z.leb_gt k _)), E by lia. eexists. split; [done|]. cbn [Tiered.at_slot slot_valid slot_size]. unfold Pow.at_slot.
  rewrite Nat2Z.id. split; [by eexists|]. split; [lia|]. unfold medium_min. fold e.
  destruct (Z.log2_up_spec k ltac:(lia)) as [Hlo Hhi]. rewrite Hi, <- Z.pow_add_r by lia. replace (e + (Z.log2_up k - e)) with (Z.log2_up k) by lia.
  split.
  - split; [|split; [done|]].
    + apply elem_of_tier_medium, list_elem_of_fmap. exists (Z.log2_up k - e). split; [|apply elem_of_zrange; lia].
      unfold medium_min. fold e. rewrite <- Z.pow_add_r by lia. f_equal. lia.
    + unfold tier_sizes, mult_sizes, pow_sizes, medium_min. fold e nm. intros c' Hc' Hkc'. apply elem_of_cons in Hc' as [->|[Hc'|Hc']%elem_of_app]; [lia| |];
        apply list_elem_of_fmap in Hc' as (j & -> & Hj%elem_of_zrange); [unfold small_max in *; lia|].
      rewrite <- Z.pow_add_r in * by lia. apply Z.pow_le_mono_r; [lia|]. apply Z.log2_up_le_pow2; lia.
  - right. replace (Z.log2_up k) with (Z.succ (Z.pred (Z.log2_up k))) by lia. rewrite Z.pow_succ_r by (apply Z.lt_le_pred, Z.log2_up_pos; lia). lia.
Qed.

Lemma word_slot start n (am : TieredSizeClasses T) k : 1 ≤ start < 65536 → 2 ≤ n ≤ 46 → tiered_shape start n am → 0 ≤ k ≤ 8 → selects start n am k.
Proof.
  intros Hst Hn ([w Hw] & _) Hk. destruct (tier_bounds start n Hst Hn) as (Hc & Hcn & Hr & _).
  unfold selects. cbn [get_raw at_slot Tiered_map]. unfold Tiered.get_raw. rewrite (proj2 (Z.leb_le k 8)), Hw by lia. eexists. split; [done|].
  cbn [Tiered.at_slot slot_size slot_valid]. rewrite Hw. split; [by eexists|]. split; [done|]. split; [|lia]. split; [by left|]. split; [lia|].
  unfold tier_sizes, mult_sizes, pow_sizes. intros c' Hc' _. apply elem_of_cons in Hc' as [->|[Hc'|Hc']%elem_of_app]; [lia| |];
    apply list_elem_of_fmap in Hc' as (j & -> & Hj%elem_of_zrange); [lia|].
  assert (small_max start n + 1 ≤ medium_min start n) by (apply Z.log2_up_spec; lia). pose proof (pow2_pos j ltac:(lia)). nia.
Qed.

Lemma tiered_selects start n (am : TieredSizeClasses T) k : 1 ≤ start < 65536 → 2 ≤ n ≤ 46 → tiered_shape start n am →
  0 ≤ k ≤ max_key am → k ≤ 8 ∨ start ≤ k → selects start n am k.
Proof.
  intros Hst Hn Ham Hk Hks. destruct (decide (k ≤ 8)) as [H8|H8]; [apply word_slot; (done || lia)|].
  destruct (decide (k ≤ small_max start n)); [apply small_slot; (done || lia)|apply medium_slot; (done || lia)].
Qed.
End classes.

Lemma slot_size_inj start n sl sl' : 1 ≤ start < 65536 → 2 ≤ n ≤ 46 → slot_valid start n sl → slot_valid start n sl' →
  slot_size start n sl = slot_size start n sl' → sl = sl'.
Proof.
  intros Hst Hn Hv Hv' E. destruct (tier_bounds start n Hst Hn) as (Hc & Hcn & Hr & _).
  assert (Hm : small_max start n + 1 ≤ medium_min start n) by (apply Z.log2_up_spec; lia).
  assert (Hge : ∀ i, 0 ≤ i → medium_min start n ≤ medium_min start n * 2 ^ i) by (intros i Hi; pose proof (pow2_pos i Hi); nia).
  unfold small_max in *.
  destruct sl as [|i|i], sl' as [|j|j]; cbn in *; try done; try (pose proof (Hge i ltac:(lia))); try (pose proof (Hge j ltac:(lia))); try lia.
  - f_equal. lia.
  - f_equal. apply Z.mul_reg_l in E; [|lia]. by apply pow2_inj in E; [|lia|lia].
Qed.

(** The keys that a class serves select the slot of that class. *)
Lemma least_same_slot {T} start n (am : TieredSizeClasses T) k c : 1 ≤ start < 65536 → 2 ≤ n ≤ 46 → tiered_shape start n am →
  0 ≤ k ≤ max_key am → k ≤ 8 ∨ start ≤ k → c ≤ max_key am → c ≤ 8 ∨ start ≤ c → least_class (tier_sizes start n) k c → get_raw am k = get_raw am c.
Proof.
  intros Hst Hn Ham Hk Hks Hcm Hcs (Hc & Hkc & Hleast). destruct (tiered_selects start n am k Hst Hn Ham Hk Hks) as (sl & E & _ & Hv & (H1 & H2 & H3) & _).
  destruct (tiered_selects start n am c Hst Hn Ham) as (sl' & E' & _ & Hv' & (H1' & H2' & H3') & _); [lia|done|]. rewrite E, E'. f_equal.
  apply (slot_size_inj start n); try done. apply Z.le_antisymm; [apply H3; (done || lia)|]. pose proof (Hleast _ H1 H2). apply H3'; (done || lia).
Qed.

(** C19: requests get the best size class.  A tiered map built from any
    constructor that succeeds on its classes (8, multiples of 16, powers of
    two; the constructor is called [n + 1] times, in the order of [slot_index])
    is built, and every key up to the largest class selects, without panicking,
    the class the constructor made for the smallest size that holds the key;
    less than 16 bytes or less than half of the class are wasted.  ([arr] makes
    the arrays of classes, which must succeed, too.  Keys between 9 and the start of the map are excluded: they have no class.) *)
Theorem size_class_minimal {St T} (I : Z → St → Prop) (Q : Z → T → Prop) (f : Z → M St T) (arr : Z → M St TypedArray) (start n : Z) (s : St) :
  1 ≤ start < 65536 → 2 ≤ n ≤ 46 → I 0 s → (∀ j k s, I j s → 1 ≤ k ≤ n → ∃ a s', arr k s = Ok (a, s') ∧ I j s') → (∀ sl, slot_valid start n sl → builds I Q f (slot_index start n sl) (slot_size start n sl)) →
  ∃ am s', init_conserve (AM := TieredSizeClasses) arr start n f s = Ok (am, s') ∧ I (n + 1) s' ∧ Z.of_nat (length (elems am)) = n + 1 ∧
    ∀ k, 0 ≤ k ≤ max_key am → k ≤ 8 ∨ start ≤ k → ∃ c x, get_class am k = Ok x ∧ Q c x ∧ least_class (tier_sizes start n) k c ∧ (c - k < 16 ∨ c < 2 * k).
Proof.
  intros Hst Hn Hs Harr Hf. destruct (tiered_init_spec I Q f arr n False) with (start := start) (n := n) (s := s) as [[[] _]|(am & s' & E & Hs' & Ham & HQ)]; [intros j k s0 H1 H2; right; by apply Harr|done|done|done|done|done|]. exists am, s'.
  destruct (tier_bounds start n Hst Hn) as (Hc & Hcn & Hr & _). split; [done|]. split; [done|]. pose proof Ham as ([w Hw] & Hl1 & _ & _ & Hl2 & _).
  split; [cbn [elems Tiered_map]; unfold Tiered.elems; rewrite Hw, !length_app; cbn; lia|].
  intros k Hk Hks. destruct (tiered_selects start n am k Hst Hn Ham Hk Hks) as (sl & Er & [x Hx] & Hv & Hleast & Hw').
  exists (slot_size start n sl), x. split; [unfold get_class; by rewrite Er, bind_Ok, Hx|]. split; [by apply HQ|]. by split.
Qed.

Lemma size_class_minimal_witness :
  ∃ am, init_conserve (AM := TieredSizeClasses) (fun n => mret (M := M unit) (mkArr 4096 n 4096)) 8 25 (fun c => mret (M := M unit) c) tt = Ok (am, tt) ∧ get_class am 100 = Ok 112 ∧ get_class am 193 = Ok 256.
Proof.
  destruct (size_class_minimal (fun _ (_ : unit) => True) (fun c x => x = c) (fun c => mret (M := M unit) c) (fun n => mret (M := M unit) (mkArr 4096 n 4096)) 8 25 tt) as (am & [] & E & _ & _ & H).
  - split; [discriminate|reflexivity].
  - split; discriminate.
  - exact Logic.I.
  - intros j k s _ _. eexists _, s. split; [reflexivity|exact Logic.I].
  - intros sl _ s _. exists (slot_size 8 25 sl), s. split; [reflexivity|split; [exact Logic.I|reflexivity]].
  - exists am. split; [exact E|]. vm_compute in E. injection E as <-. split; reflexivity.
Defined.
