(* ===== verification/ClassMeta.v ===== *)
(** * Evaluating slag layouts

    [compute_metadata] (SlagMeta) packs objects one at a time, tens of
    thousands of times for small objects.  This file proves that the number of
    objects can be found by bisection instead, and with that evaluates the
    layouts of the size classes that [ElfMalloc::new] of
    [src/elfmalloc/src/general.rs] creates. *)

From Stdlib Require Import ZArith Lia SpecFloat.
From S2P Require Import Prelude F64 SlagMeta SizeClasses.
From stdpp Require Import base numbers list option.

Open Scope Z_scope.

(** ** Packing by bisection *)

Lemma words_for_more n n' g : 0 ≤ g → n ≤ n' → words_for n g ≤ words_for n' g.
Proof. intros Hg Hn. apply Z.div_le_mono; [lia|]. assert (n * g ≤ n' * g) by (apply Z.mul_le_mono_nonneg_r; lia). lia. Qed.

Lemma total_for_strict size g n n' : 0 < size → 0 ≤ g → n < n' → total_for size g n < total_for size g n'.
Proof.
  intros Hs Hg Hn. unfold total_for, pad_for. pose proof (words_for_more n n' g Hg ltac:(lia)).
  assert (n * size + size ≤ n' * size) by (replace (n * size + size) with ((n + 1) * size) by lia; apply Z.mul_le_mono_nonneg_r; lia).
  case_match; [|lia]. pose proof (round_up_mono size (64 + 8 * words_for n g) (64 + 8 * words_for n' g) Hs ltac:(lia)). lia.
Qed.

(** [n] objects fit and [n + 1] do not. *)
Definition packed (size g usable n : Z) : bool :=
  (1 <=? n) && ((n =? 1) || (total_for size g n <=? usable)) && (usable <? total_for size g (n + 1)).

Lemma pack_packed size g usable n : 0 < size < 2 ^ 54 → 0 ≤ g ≤ size → 0 ≤ usable < 2 ^ 53 → packed size g usable n = true →
  Meta.pack_objects size g usable = Ok n.
Proof.
  intros Hs Hg Hu Hp. unfold packed in Hp. rewrite !andb_true_iff, orb_true_iff, Z.eqb_eq, !Z.leb_le, Z.ltb_lt in Hp. destruct Hp as [[Hn Hfit] Hmax].
  destruct (pack_ok size g usable Hs Hg Hu (S (Z.to_nat usable)) 1) as (n' & E & Hn' & _ & Hfit' & Hmax'); [lia..|by left|].
  unfold Meta.pack_objects. rewrite E. f_equal.
  destruct (Z.lt_trichotomy n n') as [Hlt|[->|Hlt]]; [|done|]; exfalso.
  - destruct Hfit' as [->|Hfit']; [lia|]. destruct (decide (n + 1 = n')) as [<-|]; [lia|]. pose proof (total_for_strict size g (n + 1) n'). lia.
  - destruct Hfit as [->|Hfit]; [lia|]. destruct (decide (n' + 1 = n)) as [<-|]; [lia|]. pose proof (total_for_strict size g (n' + 1) n). lia.
Qed.

Fixpoint bisect (fuel : nat) (size g usable lo hi : Z) : Z :=
  match fuel with
  | O => lo
  | S f => let mid := (lo + hi) / 2 in if total_for size g mid <=? usable then bisect f size g usable mid hi else bisect f size g usable lo mid
  end.

(** The result of the bisection is checked, so that nothing need be proved of it. *)
Definition pack_fast (size g usable : Z) : res Z :=
  let n := bisect 54 size g usable 1 (usable / size + 2) in
  if (0 <? size) && (size <? 2 ^ 54) && (0 <=? g) && (g <=? size) && (0 <=? usable) && (usable <? 2 ^ 53) && packed size g usable n then Ok n
  else Meta.pack_objects size g usable.

Lemma pack_fast_ok size g usable : pack_fast size g usable = Meta.pack_objects size g usable.
Proof.
  unfold pack_fast. case_match eqn:E; [|done]. rewrite !andb_true_iff, !Z.ltb_lt, !Z.leb_le in E. symmetry. apply pack_packed; [lia|lia|lia|apply E].
Qed.

Lemma meta_inner_by_ext p q size page sh li cf us : (∀ a b c, p a b c = q a b c) →
  Meta.meta_inner_by p size page sh li cf us = Meta.meta_inner_by q size page sh li cf us.
Proof. intros H. unfold Meta.meta_inner_by. repeat (apply res_bind_ext; intros ?). by rewrite H. Qed.

Lemma search_ext inner inner' size ty : (∀ sh, inner sh = inner' sh) → Meta.search inner size ty = Meta.search inner' size ty.
Proof.
  intros H. unfold Meta.search. apply res_bind_ext. intros p.
  assert (Hf : ∀ l o, rfold (fun o1 sh => o2 ← inner sh; Ok (Meta.better o1 o2)) l o = rfold (fun o1 sh => o2 ← inner' sh; Ok (Meta.better o1 o2)) l o).
  { induction l as [|x l IH]; intros o; [done|]. cbn [rfold]. rewrite H. by apply res_bind_ext. }
  by rewrite Hf.
Qed.

Definition compute_fast (size page li : Z) (cf : f64) (us : Z) (ty : AllocType) : res Metadata :=
  Meta.search (fun sh => Meta.meta_inner_by pack_fast size page sh li cf us) size ty.

Lemma compute_fast_ok size page li cf us ty : compute_fast size page li cf us ty = Meta.compute_metadata size page li cf us ty.
Proof. apply search_ext. intros sh. apply meta_inner_by_ext. intros. apply pack_fast_ok. Qed.

(** ** The layouts of the size classes of [ElfMalloc::new] *)

(** The literal [0.6]. *)
Definition f0_6 : f64 := f_div (f_of_usize 6) (f_of_usize 10).

(** Which page a class uses: the choice in the closure of [new_internal]. *)
Definition class_page (size : Z) : Z * AllocType :=
  if size <? ELFMALLOC_SMALL_CUTOFF then (ELFMALLOC_SMALL_PAGE_SIZE, SmallSlag) else (ELFMALLOC_PAGE_SIZE, BigSlag).

Definition class_metadata (size : Z) : res Metadata :=
  let '(page, ty) := class_page size in Meta.compute_metadata size page 0 f0_6 page ty.

(** The 26 classes. *)
Definition elf_classes : list Z := tier_sizes 8 25.

Definition class_fits (size : Z) (m : Metadata) : bool :=
  (object_size m =? size) && (objects_offset m + n_objects m * size <=? (class_page size).1) && (objects_offset m mod Z.gcd size 65536 =? 0) &&
  (is_power_of_two size || (size <? 256)) && (size mod 8 =? 0) && (8 <=? size) && (size <=? 2 ^ 20).

Lemma class_table : forallb (fun size => let '(page, ty) := class_page size in
  match compute_fast size page 0 f0_6 page ty with Ok m => class_fits size m | _ => false end) elf_classes = true.
Proof. vm_compute. reflexivity. Qed.

Lemma class_metadata_ok c : c ∈ elf_classes →
  ∃ m, class_metadata c = Ok m ∧ layout_ok c (class_page c).1 (class_page c).1 m ∧ mask_ok m ∧ ty m = (class_page c).2 ∧ class_fits c m = true.
Proof.
  intros Hc. pose proof class_table as Ht. rewrite forallb_forall in Ht. specialize (Ht c (proj1 (list_elem_of_In _ _) Hc)).
  unfold class_metadata. destruct (class_page c) as [page ty'] eqn:Ep. rewrite compute_fast_ok in Ht.
  destruct (Meta.compute_metadata c page 0 f0_6 page ty') as [m|] eqn:E; [|done]. exists m. split; [done|]. cbn [fst snd].
  assert (Hb : 8 ≤ c ≤ 2 ^ 20). { unfold class_fits in Ht. rewrite !andb_true_iff, !Z.leb_le in Ht. lia. }
  assert (Hpage : 2 * c ≤ page < 2 ^ 53).
  { unfold class_page in Ep. change ELFMALLOC_SMALL_CUTOFF with 65536 in Ep. change ELFMALLOC_SMALL_PAGE_SIZE with 262144 in Ep.
    change ELFMALLOC_PAGE_SIZE with 2097152 in Ep. destruct (Z.ltb_spec c 65536); simplify_eq; lia. }
  destruct (compute_metadata_ok c page 0 page f0_6 ty') as (m' & E' & Hl & Hm & Hty); [lia|lia|]. rewrite E in E'. injection E' as <-.
  rewrite Z.min_id in Hl. by split_and!.
Qed.
