(* ===== verification/SlagBits.v ===== *)
(** * Slags of elfmalloc

    Models the modules [bitset] and [ref_count], [AllocIter] and the type
    [Slag] of [src/elfmalloc/src/slag.rs]: the reference count with its claimed
    bit, the bit-set of available objects, the iterator that allocates from
    it, initialization and release of objects. *)

From Stdlib Require Import ZArith Lia.
From S2P Require Import Prelude F64 SlagMeta.
From stdpp Require Import base numbers list sorting option.

Open Scope Z_scope.

(** ** [ref_count::RefCount] *)
Module RC.

Definition WORD_SHIFT : Z := 63.
Definition MASK : Z := Z.shiftl 1 WORD_SHIFT.

(** The claimed bit and the count of a word. *)
Definition load (was : Z) : bool * Z := (Z.land was MASK =? MASK, Z.land was (unot MASK)).

Definition init (start : Z) : Z := start.
Definition claim (was : Z) : bool * Z := (Z.land was MASK =? 0, Z.lor was MASK).
Definition unclaim (was : Z) : (bool * Z) * Z := (load was, Z.land was (unot MASK)).
Definition inc_n (was n : Z) : (bool * Z) * Z := (load was, wadd was n).
Definition dec_n (was n : Z) : res ((bool * Z) * Z) :=
  let '(claimed, result) := load was in
  _ ← rassert (n <=? result);
  Ok ((claimed, result), wsub was n).

End RC.

(** ** [Slag] and [AllocIter]

    A slag is its header and the words of its bit-set; [meta] is the address of
    its metadata. *)
Record SlagS := mkSlag { slag_ty : AllocType; slag_meta : Z; rc : Z; handle : Z; words : list Z }.

Definition set_rc (s : SlagS) (v : Z) : SlagS := mkSlag (slag_ty s) (slag_meta s) v (handle s) (words s).
Definition set_words (s : SlagS) (ws : list Z) : SlagS := mkSlag (slag_ty s) (slag_meta s) (rc s) (handle s) ws.
Definition set_handle (s : SlagS) (h : Z) : SlagS := mkSlag (slag_ty s) (slag_meta s) (rc s) h (words s).

(** [next_word] is the index of the next word in the bit-set. *)
Record AllocIter := mkIter {
  cur_word : Z; next_word : Z; object_base : Z; it_object_size : Z; remaining_words : Z; cur_word_index : Z }.

Definition split_index (item_index : Z) : Z * Z := (Z.shiftr item_index 6, Z.land item_index 63).

(** Atomic operations on a word of the bit-set. *)
Definition word_swap (w v : Z) : M SlagS Z := fun s =>
  match words s !! Z.to_nat w with
  | Some x => Ok (x, set_words s (<[Z.to_nat w := v]> (words s)))
  | None => Fault BadAccess
  end.
Definition word_fetch_or (w v : Z) : M SlagS Z := fun s =>
  match words s !! Z.to_nat w with
  | Some x => Ok (x, set_words s (<[Z.to_nat w := Z.lor x v]> (words s)))
  | None => Fault BadAccess
  end.
Definition rc_dec (n : Z) : M SlagS (bool * Z) := fun s =>
  match RC.dec_n (rc s) n with Ok (r, v) => Ok (r, set_rc s v) | Fault f => Fault f end.
Definition rc_inc (n : Z) : M SlagS (bool * Z) := fun s =>
  let '(r, v) := RC.inc_n (rc s) n in Ok (r, set_rc s v).
Definition rc_claim : M SlagS bool := fun s => let '(r, v) := RC.claim (rc s) in Ok (r, set_rc s v).
Definition rc_unclaim : M SlagS (bool * Z) := fun s => let '(r, v) := RC.unclaim (rc s) in Ok (r, set_rc s v).

Module Iter.

Definition new (bitset_words object_base object_size : Z) : M SlagS AllocIter :=
  cur_word ← word_swap 0 0;
  _ ← rc_dec (count_ones cur_word);
  remaining ← lift (usub bitset_words 1);
  mret (mkIter cur_word 1 object_base object_size remaining 0).

Definition refresh_word (it : AllocIter) : M SlagS AllocIter :=
  cur_word ← word_swap (next_word it) 0;
  _ ← rc_dec (count_ones cur_word);
  remaining ← lift (usub (remaining_words it) 1);
  mret (mkIter cur_word (next_word it + 1) (object_base it) (it_object_size it) remaining (cur_word_index it + 1)).

Fixpoint next_loop (fuel : nat) (it : AllocIter) : M SlagS (option Z * AllocIter) :=
  match fuel with
  | O => throw NoFuel
  | S f =>
      let next_bit := trailing_zeros (cur_word it) in
      if next_bit =? bits then
        if remaining_words it =? 0 then mret (None, it)
        else it' ← refresh_word it; next_loop f it'
      else
        mret (Some (object_base it + it_object_size it * (cur_word_index it * bits + next_bit)),
              mkIter (Z.lxor (cur_word it) (Z.shiftl 1 next_bit)) (next_word it) (object_base it) (it_object_size it)
                (remaining_words it) (cur_word_index it))
  end.

(** Each round of the loop but the last loads a word. *)
Definition next (it : AllocIter) : M SlagS (option Z * AllocIter) :=
  next_loop (S (Z.to_nat (remaining_words it))) it.

End Iter.

Inductive Transition := Null | Available | Full.

Module Slag.

(** [or_slag_word!]: a store to a word of the bit-set. *)
Definition or_slag_word (ws : list Z) (w mask : Z) : res (list Z) :=
  match ws !! Z.to_nat w with Some _ => Ok (<[Z.to_nat w := mask]> ws) | None => Fault BadAccess end.

(** One round of the rotation; [shl] is [wrapping_shl] or the checked shift. *)
Definition rotate (shl : Z → Z → res Z) (slush_size end_slush_shift : Z) (st : list Z * Z * Z) (w : Z) : res (list Z * Z * Z) :=
  let '(ws, mask, cur_slush) := st in
  ws ← or_slag_word ws w mask;
  let new_slush := Z.shiftr mask end_slush_shift in
  m ← shl mask slush_size;
  Ok (ws, Z.lor m cur_slush, new_slush).

Definition wrapping_shl (a k : Z) : res Z := Ok (wrap (Z.shiftl a (k mod 64))).

(** The stores of [init] over the memory [junk] of the bit-set. *)
Definition init_words (meta : Metadata) (junk : list Z) : res (list Z) :=
  let bits_per_object := Z.shiftr (object_size meta) (bit_rep_shift meta) in
  let bits_per_word := bits in
  r ← umod bits_per_word bits_per_object;
  slush_size ← usub bits_per_object r;
  _ ← rassert (slush_size <=? bits_per_word);
  end_slush_shift ← usub bits_per_word slush_size;
  nb ← umul (n_objects meta) bits_per_object;
  rem ← umod nb bits_per_word;
  all ← ushl (unot 0) rem;
  let rem_mask := unot all in
  let mask := object_mask meta in
  if mask =? unot 0 then
    last ← usub (n_bitset_words meta) 1;
    ws ← rfold (fun ws w => or_slag_word ws w (unot 0)) (zrange 0 last) junk;
    if rem_mask =? 0 then or_slag_word ws last (unot 0) else or_slag_word ws last (Z.land (unot 0) rem_mask)
  else if rem =? 0 then
    '(ws, _, _) ← rfold (rotate wrapping_shl slush_size end_slush_shift) (zrange 0 (n_bitset_words meta)) (junk, mask, 0);
    Ok ws
  else
    last ← usub (n_bitset_words meta) 1;
    '(ws, mask, _) ← rfold (rotate ushl slush_size end_slush_shift) (zrange 0 last) (junk, mask, 0);
    or_slag_word ws last (Z.land mask rem_mask).

Definition init (meta_ptr : Z) (meta : Metadata) (junk : list Z) : res SlagS :=
  ws ← init_words meta junk;
  Ok (mkSlag (ty meta) meta_ptr (RC.init (n_objects meta)) 0 ws).

Definition find (item alignment : Z) : res Z :=
  _ ← rassert (is_power_of_two alignment);
  _ ← rassert (0 <? alignment);
  Ok (Z.land item (unot (alignment - 1))).

Definition get_word (raw_self item : Z) (m : Metadata) : res (Z * Z) :=
  base ← uadd (objects_offset m) raw_self;
  d ← usub item base;
  Ok (split_index (Z.shiftr d (bit_rep_shift m))).

Definition free (m : Metadata) (slf item : Z) : M SlagS Transition :=
  lim ← lift (uadd slf (total_bytes m));
  _ ← lift (rassert (item <? lim));
  '(word, word_ix) ← lift (get_word slf item m);
  '(claimed, was) ← rc_inc 1;
  _ ← word_fetch_or word (Z.shiftl 1 word_ix);
  if negb claimed then
    c ← lift (usub (cutoff_objects m) 1);
    if was =? c then mret Available
    else
      n ← lift (usub (n_objects m) 1);
      mret (if was =? n then Full else Null)
  else mret Null.

Definition refresh (slf : Z) (meta : Metadata) : M SlagS AllocIter :=
  Iter.new (n_bitset_words meta) (slf + objects_offset meta) (Z.shiftl 1 (bit_rep_shift meta)).

End Slag.

(** ** The reference count as a pair *)
Definition rc_word (claimed : bool) (count : Z) : Z := count + (if claimed then 2 ^ 63 else 0).

Lemma land_mask b c : 0 ≤ c < 2 ^ 63 → Z.land (rc_word b c) RC.MASK = (if b then RC.MASK else 0) ∧ Z.land (rc_word b c) (unot RC.MASK) = c.
Proof.
  intros Hc. change RC.MASK with (2 ^ 63). change (unot (2 ^ 63)) with (2 ^ 63 - 1). rewrite land_pow2_pred by lia. unfold rc_word. split.
  - destruct b.
    + apply Z.bits_inj'. intros i Hi. rewrite Z.land_spec, Z.pow2_bits_eqb by lia. destruct (Z.eqb_spec 63 i) as [<-|]; [|by rewrite andb_false_r].
      rewrite andb_true_r. rewrite Z.testbit_true by lia. replace ((c + 2 ^ 63) / 2 ^ 63) with 1; [done|].
      apply (Z.div_unique _ _ _ c); lia.
    + rewrite Z.add_0_r. apply Z.bits_inj'. intros i Hi. rewrite Z.land_spec, Z.pow2_bits_eqb, Z.bits_0 by lia.
      destruct (Z.eqb_spec 63 i) as [<-|]; [|by rewrite andb_false_r]. rewrite (proj1 (bits_below c 63 ltac:(lia) ltac:(lia))); lia || done.
  - destruct b; [|rewrite Z.add_0_r; by apply Z.mod_small]. replace (c + 2 ^ 63) with (c + 1 * 2 ^ 63) by lia. rewrite Z_mod_plus_full. by apply Z.mod_small.
Qed.

Lemma rc_load b c : 0 ≤ c < 2 ^ 63 → RC.load (rc_word b c) = (b, c).
Proof. intros Hc. unfold RC.load. destruct (land_mask b c Hc) as [-> ->]. by destruct b. Qed.

Lemma rc_claim_ok b c : 0 ≤ c < 2 ^ 63 → RC.claim (rc_word b c) = (negb b, rc_word true c).
Proof.
  intros Hc. unfold RC.claim. destruct (land_mask b c Hc) as [-> _]. f_equal; [by destruct b|]. change RC.MASK with (2 ^ 63). unfold rc_word.
  assert (Hl : Z.lor c (2 ^ 63) = c + 2 ^ 63).
  { rewrite <- Z.add_lor_land. destruct (land_mask false c Hc) as [E _]. unfold rc_word in E. rewrite Z.add_0_r in E. change RC.MASK with (2 ^ 63) in E. lia. }
  destruct b; [|by rewrite Z.add_0_r]. rewrite <- Hl, <- Z.lor_assoc, Z.lor_diag. done.
Qed.

Lemma rc_unclaim_ok b c : 0 ≤ c < 2 ^ 63 → RC.unclaim (rc_word b c) = ((b, c), rc_word false c).
Proof. intros Hc. unfold RC.unclaim. rewrite rc_load by done. destruct (land_mask b c Hc) as [_ ->]. unfold rc_word. by rewrite Z.add_0_r. Qed.

Lemma rc_inc_ok b c n : 0 ≤ c → 0 ≤ n → c + n < 2 ^ 63 → RC.inc_n (rc_word b c) n = ((b, c), rc_word b (c + n)).
Proof. intros Hc Hn Hcn. unfold RC.inc_n. rewrite rc_load by lia. f_equal. unfold wadd, wrap, rc_word. rewrite Z.mod_small; [lia|]. destruct b; lia. Qed.

Lemma rc_dec_ok b c n : 0 ≤ n ≤ c → c < 2 ^ 63 → RC.dec_n (rc_word b c) n = Ok ((b, c), rc_word b (c - n)).
Proof.
  intros Hn Hc. unfold RC.dec_n. rewrite rc_load, (proj2 (Z.leb_le n c)) by lia. cbn [rassert]. rewrite bind_Ok. do 2 f_equal.
  unfold wsub, wrap, rc_word. rewrite Z.mod_small; [lia|]. destruct b; lia.
Qed.

(** ** The bits of a word, in ascending order *)
Fixpoint pos_bits (p : positive) (i : Z) : list Z :=
  match p with
  | xH => [i]
  | xO q => pos_bits q (i + 1)
  | xI q => i :: pos_bits q (i + 1)
  end.
Definition bit_list (x : Z) : list Z := match x with Zpos p => pos_bits p 0 | _ => [] end.

Lemma pos_bits_shift p i j : pos_bits p (i + j) = Z.add j <$> pos_bits p i.
Proof.
  revert i. induction p as [p IH|p IH|]; intros i; cbn [pos_bits].
  - rewrite fmap_cons, <- IH. f_equal; [lia|f_equal; lia].
  - rewrite <- IH. f_equal. lia.
  - cbn. f_equal. lia.
Qed.

Lemma bit_list_double x : 0 ≤ x → bit_list (2 * x) = Z.add 1 <$> bit_list x.
Proof. destruct x as [|p|]; [done| |lia]. intros _. cbn [Z.mul bit_list pos_bits]. by rewrite <- pos_bits_shift. Qed.

Lemma elem_of_bit_list x k : 0 ≤ x → k ∈ bit_list x ↔ 0 ≤ k ∧ Z.testbit x k = true.
Proof.
  destruct x as [|p|]; [intros _; rewrite elem_of_nil, Z.bits_0; naive_solver| |lia]. intros _. cbn [bit_list]. revert k.
  assert (Hsh : ∀ p k, k ∈ pos_bits p 1 ↔ k - 1 ∈ pos_bits p 0).
  { intros q k. change 1 with (0 + 1) at 1. rewrite pos_bits_shift, list_elem_of_fmap. split; [intros (y & -> & Hy)|intros Hy; exists (k - 1)];
      [by replace (1 + y - 1) with y by lia|split; [lia|done]]. }
  induction p as [p IH|p IH|]; intros k; cbn [pos_bits].
  - rewrite elem_of_cons, Hsh, IH, Pos2Z.inj_xI. destruct (decide (k = 0)) as [->|]; [rewrite Z.testbit_odd_0; intuition lia|].
    split; [intros [?|[? ?]]; [lia|split; [lia|]]|intros [? Ht]; right; split; [lia|]].
    + replace k with (Z.succ (k - 1)) by lia. by rewrite Z.testbit_odd_succ by lia.
    + replace k with (Z.succ (k - 1)) in Ht by lia. by rewrite Z.testbit_odd_succ in Ht by lia.
  - rewrite Hsh, IH, Pos2Z.inj_xO. destruct (decide (k = 0)) as [->|]; [rewrite Z.testbit_even_0; intuition (lia || discriminate)|].
    split; [intros [? ?]; split; [lia|]|intros [? Ht]; split; [lia|]].
    + replace k with (Z.succ (k - 1)) by lia. by rewrite Z.testbit_even_succ by lia.
    + replace k with (Z.succ (k - 1)) in Ht by lia. by rewrite Z.testbit_even_succ in Ht by lia.
  - rewrite list_elem_of_singleton. split; [by intros ->|]. intros [? Ht]. destruct (decide (k = 0)); [done|]. exfalso.
    by rewrite Z.bits_above_log2 in Ht by (cbn; lia).
Qed.

Lemma count_ones_length x : count_ones x = Z.of_nat (length (bit_list x)).
Proof.
  assert (H : ∀ p i, pos_count_ones p = Z.of_nat (length (pos_bits p i))).
  { induction p as [p IH|p IH|]; intros i; cbn [pos_count_ones pos_bits length]; [rewrite (IH (i + 1)); lia|apply IH|done]. }
  destruct x; [done|apply H|done].
Qed.

Lemma Forall_le_weaken (i j : Z) l : i ≤ j → Forall (Z.le j) l → Forall (Z.le i) l.
Proof. intros Hij. induction 1; constructor; [lia|done]. Qed.

Lemma pos_bits_sorted p i : StronglySorted Z.lt (pos_bits p i) ∧ Forall (Z.le i) (pos_bits p i).
Proof.
  revert i. induction p as [p IH|p IH|]; intros i; cbn [pos_bits]; [| |repeat constructor; lia]; destruct (IH (i + 1)) as [H1 H2].
  - split; constructor; [done| |lia|by apply (Forall_le_weaken i (i + 1)); [lia|]]. clear -H2. induction H2; constructor; [lia|done].
  - split; [done|]. apply (Forall_le_weaken i (i + 1)); [lia|done].
Qed.

Lemma bit_list_sorted x : StronglySorted Z.lt (bit_list x).
Proof. destruct x; [constructor|apply pos_bits_sorted|constructor]. Qed.

(** Clearing the lowest bit takes the head of the list. *)
Lemma bit_list_step x : 0 < x → let t := trailing_zeros x in
  bit_list x = t :: bit_list (Z.lxor x (Z.shiftl 1 t)) ∧ 0 ≤ Z.lxor x (Z.shiftl 1 t) < x ∧ 0 ≤ t.
Proof.
  destruct x as [|p|]; [lia| |lia]. intros _. cbn zeta. induction p as [p IH|p IH|]; [| |split; [done|split; [split; [done|reflexivity]|done]]].
  { change (trailing_zeros (Zpos p~1)) with 0. change (Z.lxor (Zpos p~1) (Z.shiftl 1 0)) with (Zpos p~0). split; [done|lia]. }
  destruct IH as (E & Hb & Ht). change (Zpos p~0) with (2 * Zpos p). rewrite bit_list_double by lia. rewrite trailing_zeros_double.
  assert (Ex : Z.lxor (2 * Zpos p) (Z.shiftl 1 (1 + trailing_zeros (Zpos p))) = 2 * Z.lxor (Zpos p) (Z.shiftl 1 (trailing_zeros (Zpos p)))).
  { rewrite !Z.shiftl_1_l, Z.pow_add_r by lia. change (2 ^ 1) with 2. rewrite <- !Z.double_spec. rewrite !Z.double_spec, !(Z.mul_comm 2).
    change 2 with (2 ^ 1). rewrite <- !Z.shiftl_mul_pow2 by lia. by rewrite Z.shiftl_lxor. }
  rewrite Ex, bit_list_double by lia. rewrite E. split; [by rewrite fmap_cons|]. lia.
Qed.

Lemma trailing_zeros_64 x : 0 ≤ x < 2 ^ 64 → (trailing_zeros x =? bits) = (x =? 0).
Proof.
  intros Hx. destruct (Z.eqb_spec x 0) as [->|]; [done|]. apply Z.eqb_neq. unfold bits.
  destruct (bit_list_step x) as (E & _ & Ht); [lia|]. assert (Hin : trailing_zeros x ∈ bit_list x) by (rewrite E; left).
  apply elem_of_bit_list in Hin as [_ Hin]; [|lia]. intros E2. rewrite E2 in Hin.
  by rewrite (proj1 (bits_below x 64 ltac:(lia) ltac:(lia))) in Hin by lia.
Qed.

(** ** Allocating from a slag *)

(** All calls of [next] up to the first that returns nothing. *)
Fixpoint drain (fuel : nat) (it : AllocIter) : M SlagS (list Z) :=
  match fuel with
  | O => throw NoFuel
  | S f =>
      '(o, it') ← Iter.next it;
      match o with
      | None => mret []
      | Some p => ps ← drain f it'; mret (p :: ps)
      end
  end.

(** The positions of the bits of the words [ws], the first of index [k]. *)
Fixpoint words_bits (k : Z) (ws : list Z) : list Z :=
  match ws with
  | [] => []
  | w :: ws' => (Z.add (64 * k) <$> bit_list w) ++ words_bits (k + 1) ws'
  end.

Definition word_ok (w : Z) : Prop := 0 ≤ w < 2 ^ 64.

(** [it] has the words [rest] of [s] still to load. *)
Definition iter_ok (it : AllocIter) (s : SlagS) (rest : list Z) : Prop :=
  word_ok (cur_word it) ∧ 0 ≤ cur_word_index it ∧ next_word it = cur_word_index it + 1 ∧ remaining_words it = Z.of_nat (length rest) ∧
  drop (Z.to_nat (next_word it)) (words s) = rest ∧ Forall word_ok rest.

(** The positions an iterator has still to yield, and the address of a position. *)
Definition to_yield (it : AllocIter) (rest : list Z) : list Z := words_bits (cur_word_index it) (cur_word it :: rest).
Definition addr_of (it : AllocIter) (k : Z) : Z := object_base it + it_object_size it * k.

Definition with_word (it : AllocIter) (w : Z) : AllocIter :=
  mkIter w (next_word it) (object_base it) (it_object_size it) (remaining_words it) (cur_word_index it).

Lemma next_some it s rest : iter_ok it s rest → cur_word it ≠ 0 →
  ∃ k ks w, Iter.next it s = Ok ((Some (addr_of it k), with_word it w), s) ∧ to_yield it rest = k :: ks ∧ to_yield (with_word it w) rest = ks ∧
    iter_ok (with_word it w) s rest ∧ length (bit_list (cur_word it)) = S (length (bit_list w)).
Proof.
  intros (Hw & Hi & Hn & Hr & Hd & Hf) Hne. unfold word_ok in Hw. destruct (bit_list_step (cur_word it)) as (E & Hx & Ht); [lia|].
  unfold Iter.next. cbn [Iter.next_loop]. rewrite trailing_zeros_64, (proj2 (Z.eqb_neq _ 0) Hne) by done.
  eexists (cur_word_index it * bits + trailing_zeros (cur_word it)), _, _. split; [reflexivity|]. unfold to_yield. cbn [words_bits cur_word cur_word_index with_word].
  rewrite E, fmap_cons. split; [cbn [app]; f_equal; unfold bits; lia|]. split; [reflexivity|]. split; [|done].
  split_and!; try done. unfold word_ok; cbn; lia.
Qed.

Lemma drain_load f it s : cur_word it = 0 → 0 < remaining_words it →
  drain (S f) it s = (it' ← Iter.refresh_word it; drain (S f) it') s.
Proof.
  intros Hc Hr. cbn [drain]. unfold Iter.next at 1. cbn [Iter.next_loop]. rewrite trailing_zeros_64 by (rewrite Hc; lia).
  rewrite (proj2 (Z.eqb_eq _ 0) Hc), (proj2 (Z.eqb_neq (remaining_words it) 0)) by lia.
  unfold mbind, M_bind. destruct (Iter.refresh_word it s) as [[it' s']|] eqn:E; [|done].
  assert (Er : remaining_words it' = remaining_words it - 1).
  { unfold Iter.refresh_word in E. apply M_bind_Ok in E as (? & ? & _ & E). apply M_bind_Ok in E as (? & ? & _ & E).
    rewrite (lift_bind _ (remaining_words it - 1)) in E by (apply usub_Ok; lia). by injection E as <- <-. }
  unfold Iter.next. rewrite Er. replace (S (Z.to_nat (remaining_words it - 1))) with (Z.to_nat (remaining_words it)) by lia. done.
Qed.

Lemma refresh_word_spec it s w rest b c : iter_ok it s (w :: rest) → rc s = rc_word b c → count_ones w ≤ c < 2 ^ 63 →
  ∃ it', Iter.refresh_word it s = Ok (it', mkSlag (slag_ty s) (slag_meta s) (rc_word b (c - count_ones w)) (handle s) (<[Z.to_nat (next_word it):=0]> (words s))) ∧
    cur_word it' = w ∧ cur_word_index it' = cur_word_index it + 1 ∧ next_word it' = next_word it + 1 ∧ remaining_words it' = Z.of_nat (length rest) ∧
    object_base it' = object_base it ∧ it_object_size it' = it_object_size it.
Proof.
  intros (Hw & Hi & Hn & Hr & Hd & Hf) Erc Hc. unfold Iter.refresh_word.
  assert (El : words s !! Z.to_nat (next_word it) = Some w).
  { rewrite <- (Nat.add_0_r (Z.to_nat (next_word it))), <- lookup_drop, Hd. done. }
  rewrite (M_bind_run _ _ _ w (set_words s (<[Z.to_nat (next_word it):=0]> (words s)))) by (unfold word_swap; by rewrite El).
  assert (0 ≤ count_ones w) by (rewrite count_ones_length; lia).
  rewrite (M_bind_run _ _ _ (b, c) (mkSlag (slag_ty s) (slag_meta s) (rc_word b (c - count_ones w)) (handle s) (<[Z.to_nat (next_word it):=0]> (words s)))).
  2: { unfold rc_dec. cbn [rc set_words]. rewrite Erc, rc_dec_ok by lia. done. }
  rewrite (lift_bind _ (Z.of_nat (length rest))); [by eexists|]. rewrite Hr. cbn [length]. rewrite usub_Ok by lia. f_equal. lia.
Qed.

Lemma length_words_bits k w ws : length (words_bits k (w :: ws)) = (length (bit_list w) + length (words_bits (k + 1) ws))%nat.
Proof. cbn [words_bits]. by rewrite length_app, length_fmap. Qed.

(** The outcome of draining: every available object once, in order, taken off
    the count and the bit-set. *)
Definition drained (it : AllocIter) (s : SlagS) (rest : list Z) (b : bool) (c : Z) : list Z * SlagS :=
  (addr_of it <$> to_yield it rest,
   mkSlag (slag_ty s) (slag_meta s) (rc_word b (c - Z.of_nat (length (words_bits (cur_word_index it + 1) rest)))) (handle s)
     (take (Z.to_nat (next_word it)) (words s) ++ replicate (length rest) 0)).

(** The bits of the current word come first. *)
Lemma drain_word s rest b c ix :
  (∀ fuel it, cur_word_index it = ix → cur_word it = 0 → iter_ok it s rest → (length (to_yield it rest) < fuel)%nat → drain fuel it s = Ok (drained it s rest b c)) →
  ∀ n fuel it, cur_word_index it = ix → n = length (bit_list (cur_word it)) → iter_ok it s rest → (length (to_yield it rest) < fuel)%nat → drain fuel it s = Ok (drained it s rest b c).
Proof.
  intros H0. induction n as [|n IHn]; intros fuel it Eix En Hit Hf.
  - apply H0; [done| |done|done]. destruct Hit as [[H1 H2] _]. destruct (decide (cur_word it = 0)) as [|Hne]; [done|].
    destruct (bit_list_step (cur_word it)) as [E _]; [lia|]. rewrite E in En. discriminate En.
  - destruct fuel as [|f]; [lia|]. destruct (next_some it s rest Hit) as (k & ks & w & Enx & Ey & Ey' & Hit' & El).
    { intros E. rewrite E in En. discriminate En. }
    cbn [drain]. rewrite (M_bind_run _ _ _ _ _ Enx). rewrite Ey in Hf. cbn [length] in Hf.
    rewrite (M_bind_run _ _ _ _ _ (IHn f (with_word it w) Eix ltac:(cbn; lia) Hit' ltac:(rewrite Ey'; lia))).
    unfold drained. rewrite Ey, Ey'. done.
Qed.

Lemma drain_spec : ∀ rest fuel it s b c, iter_ok it s rest → rc s = rc_word b c →
  Z.of_nat (length (words_bits (cur_word_index it + 1) rest)) ≤ c < 2 ^ 63 → (length (to_yield it rest) < fuel)%nat →
  drain fuel it s = Ok (drained it s rest b c).
Proof.
  induction rest as [|w rest IH]; intros fuel it s b c Hit Erc Hc Hfuel.
  all: apply (drain_word _ _ _ _ (cur_word_index it)) with (n := length (bit_list (cur_word it))); try done; clear fuel Hfuel; intros fuel it2 Eix Hcur Hit2 Hf.
  all: rewrite <- Eix in Hc; destruct fuel as [|f]; [lia|].
  - destruct Hit2 as (_ & _ & _ & Hrem & Hd & _). cbn [drain]. unfold drained, to_yield. rewrite Hcur. cbn [words_bits bit_list fmap list_fmap app length].
    assert (En : Iter.next it2 s = Ok ((None, it2), s)) by (unfold Iter.next; cbn [Iter.next_loop]; rewrite Hcur, Hrem; done).
    rewrite (M_bind_run _ _ _ _ _ En). cbn [replicate]. rewrite app_nil_r, Z.sub_0_r, <- Erc. f_equal. f_equal.
    rewrite take_ge; [by destruct s|]. apply (f_equal length) in Hd. rewrite length_drop in Hd. cbn in Hd. lia.
  - pose proof Hit2 as (_ & Hi & Hnx & Hrem & Hd & Hok). pose proof (Forall_inv Hok) as Hw. apply Forall_inv_tail in Hok.
    rewrite drain_load; [|done|rewrite Hrem; cbn [length]; lia]. rewrite length_words_bits in Hc.
    assert (Hcw : count_ones w ≤ c < 2 ^ 63) by (rewrite count_ones_length; lia).
    destruct (refresh_word_spec it2 s w rest b c Hit2 Erc Hcw) as (it3 & E3 & Ew & Eix3 & En3 & Er3 & Eb3 & Eo3).
    rewrite (M_bind_run _ _ _ _ _ E3).
    assert (Hlen : (Z.to_nat (next_word it2) < length (words s))%nat).
    { apply (f_equal length) in Hd. rewrite length_drop in Hd. cbn [length] in Hd. lia. }
    rewrite (IH (S f) it3 _ b (c - count_ones w)).
    + unfold drained, to_yield, addr_of. rewrite Ew, Eix3, Eb3, Eo3, Hcur, length_words_bits, En3. cbn [words_bits bit_list fmap list_fmap app slag_ty slag_meta handle words].
      rewrite count_ones_length. do 3 f_equal; [f_equal; lia|].
      replace (Z.to_nat (next_word it2 + 1)) with (S (Z.to_nat (next_word it2))) by lia.
      rewrite (take_S_r _ _ 0), take_insert_ge by (lia || by apply list_lookup_insert_eq). by rewrite <- app_assoc.
    + split_and!; cbn; [by rewrite Ew|lia|lia|done| |done].
      rewrite En3. replace (Z.to_nat (next_word it2 + 1)) with (S (Z.to_nat (next_word it2))) by lia.
      rewrite drop_insert_lt by lia. rewrite <- Nat.add_1_r, <- drop_drop, Hd. done.
    + done.
    + rewrite Eix3, count_ones_length. lia.
    + unfold to_yield in *. rewrite Ew, Eix3. rewrite length_words_bits, Hcur in Hf. exact Hf.
Qed.

Lemma testbit_high w i : word_ok w → 64 ≤ i → Z.testbit w i = false.
Proof. intros [H1 H2] Hi. by apply (bits_below w 64). Qed.

(** ** The bit-set as a set of positions *)
Definition bit_at (ws : list Z) (k : Z) : Prop := 0 ≤ k ∧ ∃ w, ws !! Z.to_nat (k / 64) = Some w ∧ Z.testbit w (k mod 64) = true.

Lemma elem_of_words_bits ws k0 x : Forall word_ok ws → x ∈ words_bits k0 ws ↔ 64 * k0 ≤ x ∧ bit_at ws (x - 64 * k0).
Proof.
  intros Hok. revert k0. induction Hok as [|w ws Hw Hok IH]; intros k0; cbn [words_bits].
  { rewrite elem_of_nil. split; [done|]. intros (_ & _ & w & E & _). done. }
  rewrite elem_of_app, IH, list_elem_of_fmap. unfold word_ok in Hw.
  assert (Hhd : (∃ y, x = 64 * k0 + y ∧ y ∈ bit_list w) ↔ 64 * k0 ≤ x < 64 * k0 + 64 ∧ Z.testbit w (x - 64 * k0) = true).
  { split.
    - intros (y & -> & [Hy Ht]%elem_of_bit_list); [|lia]. assert (y < 64).
      { apply Z.nle_gt. intros Hle. by rewrite testbit_high in Ht. }
      split; [lia|]. by replace (64 * k0 + y - 64 * k0) with y by lia.
    - intros [Hx Ht]. exists (x - 64 * k0). split; [lia|]. apply elem_of_bit_list; [lia|]. split; [lia|done]. }
  rewrite Hhd. unfold bit_at. set (d := x - 64 * k0). pose proof (Z.div_mod d 64 ltac:(lia)) as Hdm. pose proof (Z.mod_pos_bound d 64 ltac:(lia)) as Hm.
  destruct (decide (x < 64 * k0 + 64)) as [Hlt|Hge].
  - split; [intros [[Hx Ht]|[Hx _]]; [|lia]|intros (Hx & _ & w' & E & Ht); left].
    + assert (d / 64 = 0) as E by (apply Z.div_small; lia). assert (d mod 64 = d) by (apply Z.mod_small; lia). split; [lia|]. split; [lia|]. exists w. rewrite E. split; [done|]. congruence.
    + assert (d / 64 = 0) as E' by (apply Z.div_small; lia). assert (E2 : d mod 64 = d) by (apply Z.mod_small; lia). rewrite E' in E. cbn in E. rewrite E2 in Ht.
      split; [lia|]. injection E as ->. exact Ht.
  - assert (E64 : x - 64 * (k0 + 1) = d - 64) by lia. rewrite E64.
    assert (Ed : (d - 64) / 64 = d / 64 - 1 ∧ (d - 64) mod 64 = d mod 64).
    { replace (d - 64) with (d + (-1) * 64) by lia. rewrite Z.div_add, Z_mod_plus_full by lia. lia. }
    destruct Ed as [-> ->]. assert (1 ≤ d / 64) by (apply Z.div_le_lower_bound; lia).
    replace (Z.to_nat (d / 64)) with (S (Z.to_nat (d / 64 - 1))) by lia. cbn [lookup list_lookup].
    split; [intros [[? _]|(? & ? & w' & ? & ?)]; [lia|]; split; [lia|split; [lia|by exists w']]|intros (? & ? & w' & ? & ?); right; split; [lia|split; [lia|by exists w']]].
Qed.

Lemma sorted_app_lt l1 l2 m : StronglySorted Z.lt l1 → StronglySorted Z.lt l2 → (∀ x, x ∈ l1 → x < m) → (∀ x, x ∈ l2 → m ≤ x) → StronglySorted Z.lt (l1 ++ l2).
Proof.
  intros H1 H2 Hl1 Hl2. induction H1 as [|x l1 Hs IH Hf]; [done|]. cbn. constructor.
  - apply IH. intros y Hy. apply Hl1. by right.
  - rewrite List.Forall_forall in *. intros y Hy%list_elem_of_In. apply elem_of_app in Hy as [Hy|Hy]; [apply Hf; by apply list_elem_of_In|].
    pose proof (Hl1 x ltac:(left)). pose proof (Hl2 y Hy). lia.
Qed.

Lemma sorted_shift l d : StronglySorted Z.lt l → StronglySorted Z.lt (Z.add d <$> l).
Proof.
  induction 1 as [|x l Hs IH Hf]; [constructor|]. rewrite fmap_cons. constructor; [done|].
  rewrite List.Forall_forall in *. intros y Hy%list_elem_of_In. apply list_elem_of_fmap in Hy as (z & -> & Hz%list_elem_of_In). specialize (Hf z Hz). lia.
Qed.

Lemma words_bits_sorted ws k0 : Forall word_ok ws → StronglySorted Z.lt (words_bits k0 ws).
Proof.
  intros Hok. revert k0. induction Hok as [|w ws Hw Hok IH]; intros k0; [constructor|]. cbn [words_bits].
  apply (sorted_app_lt _ _ (64 * (k0 + 1))); [by apply sorted_shift, bit_list_sorted|apply IH| |].
  - intros x Hx. assert (x ∈ words_bits k0 [w]) as Hx' by (cbn; by rewrite app_nil_r).
    apply elem_of_words_bits in Hx' as (? & ? & w' & E & _); [|constructor; [exact Hw|constructor]]. apply lookup_lt_Some in E. cbn in E.
    apply Z.nle_gt. intros Hle. assert (1 ≤ (x - 64 * k0) / 64) by (apply Z.div_le_lower_bound; lia). lia.
  - intros x Hx%elem_of_words_bits; [|done]. lia.
Qed.

Lemma sorted_NoDup l : StronglySorted Z.lt l → NoDup l.
Proof.
  induction 1 as [|x l Hs IH Hf]; [constructor|]. apply list.NoDup_cons. split; [|done]. intros Hx%list_elem_of_In.
  rewrite List.Forall_forall in Hf. specialize (Hf x Hx). lia.
Qed.

(** Sorted lists with the same elements are equal. *)
Lemma sorted_unique (l1 l2 : list Z) : StronglySorted Z.lt l1 → StronglySorted Z.lt l2 → (∀ x, x ∈ l1 ↔ x ∈ l2) → l1 = l2.
Proof.
  intros H1. revert l2. induction H1 as [|x l1 Hs IH Hf]; intros l2 H2 Heq.
  - destruct l2 as [|y l2]; [done|]. exfalso. pose proof (proj2 (Heq y) ltac:(left)) as Hy. by apply elem_of_nil in Hy.
  - destruct H2 as [|y l2 Hs2 Hf2]; [pose proof (proj1 (Heq x) ltac:(left)) as Hx; by apply elem_of_nil in Hx|].
    rewrite List.Forall_forall in *. assert (x = y) as ->.
    { pose proof (proj1 (Heq x) ltac:(left)) as Hx. pose proof (proj2 (Heq y) ltac:(left)) as Hy. rewrite elem_of_cons in Hx, Hy.
      destruct Hx as [|Hx]; [done|]. destruct Hy as [|Hy]; [done|]. apply list_elem_of_In in Hx, Hy. specialize (Hf _ Hy). specialize (Hf2 _ Hx). lia. }
    f_equal. apply IH; [done|]. intros z. specialize (Heq z). rewrite !elem_of_cons in Heq.
    split; intros Hz; [destruct (proj1 Heq (or_intror Hz)) as [->|]; [|done]; apply list_elem_of_In in Hz; specialize (Hf _ Hz); lia|].
    destruct (proj2 Heq (or_intror Hz)) as [->|]; [|done]. apply list_elem_of_In in Hz. specialize (Hf2 _ Hz). lia.
Qed.

(** ** Initialization *)

(** [x] is word [v] of the bit-set in which every object is available. *)
Definition is_pattern (b v x : Z) : Prop := word_ok x ∧ ∀ i, 0 ≤ i < 64 → Z.testbit x i = ((64 * v + i) mod b =? 0).

(** The register of the rotation before word [v]: the mask, and the bits that
    follow it. *)
Definition register_ok (b v mask cur_slush : Z) : Prop :=
  is_pattern b v mask ∧ 0 ≤ cur_slush < 2 ^ slush b ∧ ∀ i, 0 ≤ i < slush b → Z.testbit cur_slush i = ((64 * (v + 1) + i) mod b =? 0).

Lemma slush_bounds b : 1 ≤ b → 1 ≤ slush b ≤ b ∧ (b | 64 + slush b).
Proof.
  intros Hb. unfold slush. pose proof (Z.mod_pos_bound 64 b ltac:(lia)). pose proof (Z.div_mod 64 b ltac:(lia)). split; [lia|].
  exists (64 / b + 1). lia.
Qed.

Lemma pattern_shift b v i j : 1 ≤ b → (64 * v + j) mod b = (64 * (v + 1) + (slush b + j)) mod b ∧ (64 * (v + 1) + (i - slush b)) mod b = (64 * (v + 2) + i) mod b.
Proof.
  intros Hb. destruct (slush_bounds b Hb) as [_ [z Hz]]. split.
  - replace (64 * (v + 1) + (slush b + j)) with (64 * v + j + z * b) by lia. by rewrite Z_mod_plus_full.
  - replace (64 * (v + 2) + i) with (64 * (v + 1) + (i - slush b) + z * b) by lia. by rewrite Z_mod_plus_full.
Qed.

Lemma wrap_shl_bits m k i : word_ok m → 0 ≤ k < 64 → 0 ≤ i → Z.testbit (wrap (Z.shiftl m k)) i = (i <? 64) && Z.testbit m (i - k).
Proof.
  intros Hm Hk Hi. unfold wrap. destruct (Z.ltb_spec i 64); [rewrite Z.mod_pow2_bits_low by lia|rewrite Z.mod_pow2_bits_high by lia; done].
  by rewrite Z.shiftl_spec.
Qed.

Lemma rotate_register b v mask cs : 1 ≤ b → slush b < 64 → register_ok b v mask cs →
  register_ok b (v + 1) (Z.lor (wrap (Z.shiftl mask (slush b))) cs) (Z.shiftr mask (64 - slush b)).
Proof.
  intros Hb Hs64 ([Hw Hm] & Hcs & Hc). destruct (slush_bounds b Hb) as [Hsl _]. pose proof Hw as [Hw0 Hw1].
  assert (Hcs64 : 0 ≤ cs < 2 ^ 64) by (pose proof (Z.pow_lt_mono_r 2 (slush b) 64); lia).
  assert (Hsh : 0 ≤ wrap (Z.shiftl mask (slush b)) < 2 ^ 64) by (apply Z.mod_pos_bound; lia).
  split; [split; [by apply lor_bound|]|split].
  - intros i Hi. rewrite Z.lor_spec, wrap_shl_bits, (proj2 (Z.ltb_lt i 64)) by (done || lia). cbn [andb].
    destruct (decide (i < slush b)) as [Hlt|Hge].
    + rewrite (Z.testbit_neg_r _ (i - slush b)), Hc by lia. done.
    + rewrite (proj1 (bits_below cs (slush b) ltac:(lia) ltac:(lia))) by lia. rewrite orb_false_r, Hm by lia.
      destruct (pattern_shift b v i (i - slush b) Hb) as [E _]. rewrite E. do 3 f_equal. lia.
  - rewrite Z.shiftr_div_pow2 by lia. split; [apply Z.div_pos; [lia|apply pow2_pos; lia]|]. apply Z.div_lt_upper_bound; [apply pow2_pos; lia|].
    rewrite <- Z.pow_add_r by lia. replace (64 - slush b + slush b) with 64 by lia. lia.
  - intros i Hi. rewrite Z.shiftr_spec, Hm by lia. destruct (pattern_shift b v i 0 Hb) as [_ E].
    replace (64 * v + (i + (64 - slush b))) with (64 * (v + 1) + (i - slush b)) by lia. rewrite E. do 3 f_equal. lia.
Qed.

(** Where the initial register, with no bits behind the mask, is right. *)
Lemma initial_register b mask : 1 ≤ b → 64 mod b ≠ 0 → is_pattern b 0 mask → register_ok b 0 mask 0.
Proof.
  intros Hb Hne Hp. destruct (slush_bounds b Hb) as [Hs [z Hz]]. split; [done|]. split; [split; [done|apply pow2_pos; lia]|].
  intros i Hi. rewrite Z.bits_0. symmetry. apply Z.eqb_neq. intros [y Hy]%Z.mod_divide; [|lia]. replace (64 * (0 + 1) + i) with (64 + i) in Hy by lia.
  assert (b - slush b = 64 mod b) by (unfold slush; lia). pose proof (Z.mod_pos_bound 64 b ltac:(lia)).
  assert (E : (z - y) * b = slush b - i) by lia. assert (1 ≤ z - y) by nia. assert (1 * b ≤ (z - y) * b) by (apply Z.mul_le_mono_nonneg_r; lia). lia.
Qed.

(** The words written so far are the pattern. *)
Definition written (b W v : Z) (ws : list Z) : Prop := Z.of_nat (length ws) = W ∧ ∀ u, 0 ≤ u < v → ∃ x, ws !! Z.to_nat u = Some x ∧ is_pattern b u x.

Lemma store_ok b W v ws x : written b W v ws → 0 ≤ v < W → ∃ ws', Slag.or_slag_word ws v x = Ok ws' ∧ ws' !! Z.to_nat v = Some x ∧ written b W v ws'.
Proof.
  intros [Hl Hw] Hv. unfold Slag.or_slag_word. destruct (lookup_lt_is_Some_2 ws (Z.to_nat v)) as [y ->]; [lia|]. eexists. split; [done|].
  split; [apply list_lookup_insert_eq; lia|]. split; [by rewrite length_insert|]. intros u Hu. destruct (Hw u Hu) as (z & E & Hz). exists z.
  split; [|done]. rewrite list_lookup_insert_ne by lia. done.
Qed.

Lemma written_S b W v ws x : written b W v ws → 0 ≤ v → ws !! Z.to_nat v = Some x → is_pattern b v x → written b W (v + 1) ws.
Proof. intros [Hl Hw] Hv E Hx. split; [done|]. intros u Hu. destruct (decide (u = v)) as [->|]; [by exists x|]. apply Hw. lia. Qed.

Lemma rotate_loop b W shl last junk mask : 1 ≤ b → 64 mod b ≠ 0 → slush b < 64 → (∀ m, shl m (slush b) = Ok (wrap (Z.shiftl m (slush b)))) →
  is_pattern b 0 mask → Z.of_nat (length junk) = W → 0 ≤ last ≤ W →
  ∃ ws m cs, rfold (Slag.rotate shl (slush b) (64 - slush b)) (zrange 0 last) (junk, mask, 0) = Ok (ws, m, cs) ∧ written b W last ws ∧ is_pattern b last m.
Proof.
  intros Hb Hne Hs Hshl Hp Hj Hl.
  destruct (rfold_zrange (fun v st => written b W v st.1.1 ∧ register_ok b v st.1.2 st.2) (Slag.rotate shl (slush b) (64 - slush b)) 0 last (junk, mask, 0))
    as ([[ws m] cs] & E & Hw & Hr & _); [lia|split; [split; [done|lia]|by apply initial_register]| |by exists ws, m, cs].
  intros v [[ws m] cs] Hv [Hw Hr]. cbn [fst snd] in *. unfold Slag.rotate. destruct (store_ok b W v ws m Hw) as (ws' & -> & El & Hw'); [lia|].
  rewrite bind_Ok, Hshl, bind_Ok. eexists. split; [done|]. split; [|by apply rotate_register]. eapply written_S; [done|lia|done|]. apply Hr.
Qed.

Lemma ones_loop W last junk : Z.of_nat (length junk) = W → 0 ≤ last ≤ W →
  ∃ ws, rfold (fun ws w => Slag.or_slag_word ws w (unot 0)) (zrange 0 last) junk = Ok ws ∧ written 1 W last ws.
Proof.
  intros Hj Hl. destruct (rfold_zrange (written 1 W) (fun ws w => Slag.or_slag_word ws w (unot 0)) 0 last junk) as (ws & E & Hw); [lia|split; [done|lia]| |by exists ws].
  intros v ws Hv Hw. destruct (store_ok 1 W v ws (unot 0) Hw) as (ws' & -> & El & Hw'); [lia|]. exists ws'. split; [done|].
  eapply written_S; [done|lia|done|]. split; [done|]. intros i Hi. rewrite Z.mod_1_r. change (unot 0) with (Z.ones 64). by rewrite Z.ones_spec_low.
Qed.

(** The bit-set right after initialization: the first bit of each object. *)
Definition full_words (b n W : Z) (ws : list Z) : Prop :=
  Z.of_nat (length ws) = W ∧
  ∀ u, 0 ≤ u < W → ∃ x, ws !! Z.to_nat u = Some x ∧ word_ok x ∧ ∀ i, 0 ≤ i < 64 → Z.testbit x i = ((64 * u + i) mod b =? 0) && (64 * u + i <? n * b).

Lemma rem_mask_ok r : 0 ≤ r < 64 → ∃ all, ushl (unot 0) r = Ok all ∧ unot all = 2 ^ r - 1.
Proof.
  intros Hr. unfold ushl. rewrite (proj2 (Z.ltb_lt r 64)) by lia. eexists. split; [done|]. change (unot 0) with (2 ^ 64 - 1). unfold wrap, unot.
  rewrite Z.shiftl_mul_pow2 by lia. pose proof (pow2_pos r ltac:(lia)). assert (2 ^ r < 2 ^ 64) by (apply Z.pow_lt_mono_r; lia).
  replace ((2 ^ 64 - 1) * 2 ^ r) with (2 ^ 64 - 2 ^ r + (2 ^ r - 1) * 2 ^ 64) by lia. rewrite Z_mod_plus_full, Z.mod_small by lia. lia.
Qed.

Lemma last_word b n W ws ws' m : 1 ≤ b → 1 ≤ n → W = words_for n b → written b W (W - 1) ws → is_pattern b (W - 1) m →
  Slag.or_slag_word ws (W - 1) (if decide ((n * b) mod 64 = 0) then m else Z.land m (2 ^ ((n * b) mod 64) - 1)) = Ok ws' → full_words b n W ws'.
Proof.
  intros Hb Hn -> Hw [Hm Hp] E. set (W := words_for n b) in *. pose proof (words_for_bound n b ltac:(lia) ltac:(lia)) as HW. fold W in HW.
  pose proof (Z.div_mod (n * b) 64 ltac:(lia)) as Hdm. pose proof (Z.mod_pos_bound (n * b) 64 ltac:(lia)) as Hr. assert (1 ≤ n * b) by nia.
  set (x := if decide _ then _ else _) in E. destruct (store_ok b W (W - 1) ws x Hw) as (ws2 & E2 & El & Hw2); [lia|]. rewrite E2 in E. injection E as <-.
  split; [apply Hw2|]. intros u Hu. destruct (decide (u = W - 1)) as [->|Hne].
  - exists x. split; [done|]. unfold x. clear E2 El x. destruct (decide ((n * b) mod 64 = 0)) as [E0|E0].
    + split; [done|]. intros i Hi. rewrite Hp by done. rewrite (proj2 (Z.ltb_lt _ (n * b))) by lia. by rewrite andb_true_r.
    + rewrite land_pow2_pred by lia. pose proof (pow2_pos ((n * b) mod 64) ltac:(lia)) as Hp2. split.
      { pose proof (Z.mod_pos_bound m _ Hp2). assert (2 ^ ((n * b) mod 64) < 2 ^ 64) by (apply Z.pow_lt_mono_r; lia). unfold word_ok. lia. }
      intros i Hi. destruct (decide (i < (n * b) mod 64)).
      * rewrite Z.mod_pow2_bits_low, Hp by lia. rewrite (proj2 (Z.ltb_lt _ (n * b))) by lia. by rewrite andb_true_r.
      * rewrite Z.mod_pow2_bits_high by lia. rewrite (proj2 (Z.ltb_ge _ (n * b))) by lia. by rewrite andb_false_r.
  - destruct Hw2 as [_ Hw2]. destruct (Hw2 u ltac:(lia)) as (y & Ey & Hy & Hyp). exists y. split; [done|]. split; [done|].
    intros i Hi. rewrite Hyp by done. rewrite (proj2 (Z.ltb_lt _ (n * b))) by lia. by rewrite andb_true_r.
Qed.

Lemma init_words_spec size usable page m junk : layout_ok size usable page m → mask_ok m → init_good m → Z.of_nat (length junk) = n_bitset_words m →
  n_objects m * bits_per_object m < 2 ^ 60 →
  ∃ ws, Slag.init_words m junk = Ok ws ∧ full_words (bits_per_object m) (n_objects m) (n_bitset_words m) ws.
Proof.
  intros (_ & Hb & _ & _ & _ & Hsl & Hn & HW & _) [Hmr Hmask] Hgood Hj Hnb. unfold Slag.init_words. fold (bits_per_object m).
  set (b := bits_per_object m) in *. set (n := n_objects m) in *. set (W := n_bitset_words m) in *.
  pose proof (words_for_bound n b ltac:(lia) ltac:(lia)) as HWb. rewrite <- HW in HWb. assert (1 ≤ n * b) by nia.
  pose proof (Z.mod_pos_bound 64 b ltac:(lia)). pose proof (Z.mod_pos_bound (n * b) 64 ltac:(lia)) as Hr.
  assert (Hpat : is_pattern b 0 (object_mask m)) by (split; [done|]; intros i Hi; by rewrite Hmask by done).
  unfold bits. rewrite (umod_Ok 64 b), bind_Ok, (usub_Ok b), bind_Ok by lia. fold (slush b). rewrite (proj2 (Z.leb_le _ _) Hsl). cbn [rassert].
  rewrite bind_Ok, (usub_Ok 64 (slush b)), bind_Ok, umul_Ok, bind_Ok, (umod_Ok (n * b)), bind_Ok by lia.
  destruct (rem_mask_ok ((n * b) mod 64) Hr) as (all & -> & Hall). rewrite bind_Ok, Hall. clear Hall.
  assert (Hlast : ∀ ws, written b W (W - 1) ws → ∀ x, is_pattern b (W - 1) x →
    ∃ ws', Slag.or_slag_word ws (W - 1) (if decide ((n * b) mod 64 = 0) then x else Z.land x (2 ^ ((n * b) mod 64) - 1)) = Ok ws' ∧ full_words b n W ws').
  { intros ws Hw x Hx. destruct (store_ok b W (W - 1) ws (if decide ((n * b) mod 64 = 0) then x else Z.land x (2 ^ ((n * b) mod 64) - 1)) Hw) as (ws' & E & _); [lia|].
    exists ws'. split; [done|]. eapply last_word; [done|lia|done|done|done|exact E]. }
  destruct (Z.eqb_spec (object_mask m) (unot 0)) as [Emask|Emask].
  - assert (Eb : b = 1).
    { destruct (decide (b = 1)) as [|Hb1]; [done|]. specialize (Hmask 1 ltac:(lia)). rewrite Emask in Hmask. rewrite (Z.mod_small 1 b) in Hmask by lia. done. }
    rewrite usub_Ok, bind_Ok by lia. destruct (ones_loop W (W - 1) junk Hj) as (ws & -> & Hw); [lia|]. rewrite bind_Ok. assert (Hw' : written b W (W - 1) ws) by (by rewrite Eb).
    assert (Hones : is_pattern b (W - 1) (unot 0)).
    { rewrite Eb. split; [done|]. intros i Hi. rewrite Z.mod_1_r. change (unot 0) with (Z.ones 64). by rewrite Z.ones_spec_low. }
    destruct (Hlast ws Hw' (unot 0) Hones) as (ws' & E & Hf). exists ws'. split; [|done]. destruct (decide ((n * b) mod 64 = 0)) as [E0|E0].
    + by rewrite E0.
    + rewrite (proj2 (Z.eqb_neq (2 ^ ((n * b) mod 64) - 1) 0)); [done|]. assert (2 ^ 1 ≤ 2 ^ ((n * b) mod 64)) by (apply Z.pow_le_mono_r; lia). lia.
  - assert (Hgood' : W = 1 ∨ (64 mod b ≠ 0 ∧ slush b < 64)).
    { destruct Hgood as [Eb|[?|?]]; [|by left|by right]. exfalso. apply Emask. fold b in Eb. apply Z.bits_inj'. intros i Hi. change (unot 0) with (Z.ones 64).
      destruct (decide (i < 64)); [rewrite Hmask, Eb, Z.mod_1_r, Z.ones_spec_low by lia; done|].
      rewrite (testbit_high (object_mask m)), Z.ones_spec_high by (done || lia). done. }
    destruct (Z.eqb_spec ((n * b) mod 64) 0) as [E0|E0].
    + assert (Hall : ∀ ws, written b W W ws → full_words b n W ws).
      { intros ws [Hl Hw]. split; [done|]. intros u Hu. destruct (Hw u Hu) as (x & E & Hx & Hxp). exists x. split; [done|]. split; [done|].
        intros i Hi. pose proof (Z.div_mod (n * b) 64 ltac:(lia)). rewrite Hxp, (proj2 (Z.ltb_lt _ (n * b))) by lia. by rewrite andb_true_r. }
      destruct Hgood' as [EW|[Hg1 Hg2]].
      * destruct (store_ok b W 0 junk (object_mask m)) as (ws & E & El & Hw); [split; [done|lia]|lia|]. exists ws. split.
        { rewrite EW. change (zrange 0 1) with [0]. cbn [rfold]. unfold Slag.rotate. rewrite E, bind_Ok. done. }
        apply Hall. rewrite EW at 2. change 1 with (0 + 1). by eapply written_S.
      * destruct (rotate_loop b W Slag.wrapping_shl W junk (object_mask m)) as (ws & m' & cs & -> & Hw & _); [done|done|done| |done|done|lia|].
        { intros x. unfold Slag.wrapping_shl. destruct (slush_bounds b Hb). by rewrite (Z.mod_small (slush b)) by lia. }
        exists ws. split; [done|by apply Hall].
    + rewrite usub_Ok, bind_Ok by lia.
      assert (Hloop : ∃ ws m' cs, rfold (Slag.rotate ushl (slush b) (64 - slush b)) (zrange 0 (W - 1)) (junk, object_mask m, 0) = Ok (ws, m', cs) ∧
        written b W (W - 1) ws ∧ is_pattern b (W - 1) m').
      { destruct Hgood' as [EW|[Hg1 Hg2]].
        - exists junk, (object_mask m), 0. rewrite EW. split; [done|]. split; [split; [lia|lia]|done].
        - apply rotate_loop; try done; [|lia]. intros x. unfold ushl. by rewrite (proj2 (Z.ltb_lt _ _)) by lia. }
      destruct Hloop as (ws & m' & cs & -> & Hw & Hp). rewrite bind_Ok. destruct (Hlast ws Hw m' Hp) as (ws' & E & Hf).
      rewrite decide_False in E by done. by exists ws'.
Qed.

Lemma full_words_bits b n W ws : 1 ≤ b → 0 ≤ n → W = words_for n b → full_words b n W ws →
  Forall word_ok ws ∧ words_bits 0 ws = Z.mul b <$> zrange 0 n.
Proof.
  intros Hb Hn HW [Hl Hf]. pose proof (words_for_bound n b Hn ltac:(lia)) as HWb. rewrite <- HW in HWb.
  assert (Hok : Forall word_ok ws).
  { apply Forall_lookup_2. intros i x E. pose proof (lookup_lt_Some _ _ _ E). destruct (Hf (Z.of_nat i)) as (y & Ey & Hy & _); [lia|].
    rewrite Nat2Z.id in Ey. congruence. }
  split; [done|]. apply sorted_unique; [by apply words_bits_sorted| |].
  - assert (Hs : StronglySorted Z.lt (zrange 0 n)).
    { clear -Hn. pattern n. revert n Hn. apply natlike_ind; [constructor|]. intros n Hn IH. unfold Z.succ. rewrite zrange_snoc by lia.
      apply (sorted_app_lt _ _ n); [done|repeat constructor| |]; intros x; [rewrite elem_of_zrange; lia|rewrite list_elem_of_singleton; lia]. }
    clear -Hs Hb. induction Hs as [|x l Hs IH Hf]; [constructor|]. rewrite fmap_cons. constructor; [done|].
    rewrite List.Forall_forall in *. intros y Hy%list_elem_of_In. apply list_elem_of_fmap in Hy as (z & -> & Hz%list_elem_of_In). specialize (Hf z Hz). nia.
  - intros x. rewrite elem_of_words_bits, list_elem_of_fmap by done. rewrite Z.mul_0_r, Z.sub_0_r. unfold bit_at.
    pose proof (Z.div_mod x 64 ltac:(lia)) as Hdm. pose proof (Z.mod_pos_bound x 64 ltac:(lia)) as Hm. split.
    + intros (_ & Hx & w & E & Ht). pose proof (lookup_lt_Some _ _ _ E) as Hlt. pose proof (Z.div_pos x 64 Hx ltac:(lia)).
      destruct (Hf (x / 64)) as (y & Ey & _ & Hy); [lia|]. rewrite E in Ey. injection Ey as <-. rewrite Hy in Ht by lia.
      replace (64 * (x / 64) + x mod 64) with x in Ht by lia. apply andb_true_iff in Ht as [Hd%Z.eqb_eq Ht%Z.ltb_lt].
      apply Z.mod_divide in Hd as [z Hz]; [|lia].
      exists z. split; [lia|]. apply elem_of_zrange. nia.
    + intros (j & -> & Hj%elem_of_zrange). split; [lia|]. split; [nia|]. assert (0 ≤ b * j < n * b) by nia.
      assert (b * j / 64 < W) by (apply Z.div_lt_upper_bound; lia). pose proof (Z.div_pos (b * j) 64 ltac:(lia) ltac:(lia)).
      destruct (Hf (b * j / 64)) as (y & Ey & _ & Hy); [lia|]. exists y. split; [done|]. rewrite Hy by lia.
      replace (64 * (b * j / 64) + (b * j) mod 64) with (b * j) by lia. rewrite Z.mul_comm, Z.mod_mul by lia.
      apply andb_true_iff. split; [done|]. apply Z.ltb_lt. lia.
Qed.

(** Everything an iterator of a slag yields. *)
Definition take_all (fuel : nat) (slf : Z) (m : Metadata) : M SlagS (list Z) := it ← Slag.refresh slf m; drain fuel it.

Lemma take_all_spec fuel slf m s b c : Forall word_ok (words s) → Z.of_nat (length (words s)) = n_bitset_words m → 1 ≤ n_bitset_words m →
  rc s = rc_word b c → Z.of_nat (length (words_bits 0 (words s))) ≤ c < 2 ^ 63 → (length (words_bits 0 (words s)) < fuel)%nat →
  take_all fuel slf m s = Ok ((fun k => slf + objects_offset m + Z.shiftl 1 (bit_rep_shift m) * k) <$> words_bits 0 (words s),
    mkSlag (slag_ty s) (slag_meta s) (rc_word b (c - Z.of_nat (length (words_bits 0 (words s))))) (handle s) (replicate (length (words s)) 0)).
Proof.
  intros Hok Hl HW Erc Hc Hfuel. destruct (words s) as [|w ws] eqn:Ews; [cbn in Hl; lia|]. rewrite length_words_bits in Hc.
  unfold take_all, Slag.refresh, Iter.new.
  assert (Hit : (cur_word ← word_swap 0 0; _ ← rc_dec (count_ones cur_word); remaining ← lift (usub (n_bitset_words m) 1);
      mret (mkIter cur_word 1 (slf + objects_offset m) (Z.shiftl 1 (bit_rep_shift m)) remaining 0)) s =
    Ok (mkIter w 1 (slf + objects_offset m) (Z.shiftl 1 (bit_rep_shift m)) (n_bitset_words m - 1) 0,
        mkSlag (slag_ty s) (slag_meta s) (rc_word b (c - count_ones w)) (handle s) (0 :: ws))).
  { rewrite (M_bind_run _ _ _ w (set_words s (0 :: ws))) by (unfold word_swap; by rewrite Ews).
    assert (Hcw : 0 ≤ count_ones w ≤ c) by (rewrite count_ones_length; lia).
    rewrite (M_bind_run _ _ _ (b, c) (mkSlag (slag_ty s) (slag_meta s) (rc_word b (c - count_ones w)) (handle s) (0 :: ws)))
      by (unfold rc_dec; cbn [rc set_words]; rewrite Erc, rc_dec_ok by lia; done).
    by rewrite (lift_bind _ (n_bitset_words m - 1)) by (apply usub_Ok; lia). }
  rewrite (M_bind_run _ _ _ _ _ Hit). pose proof (Forall_inv Hok) as Hw. apply Forall_inv_tail in Hok.
  rewrite (drain_spec ws fuel _ _ b (c - count_ones w)).
  - unfold drained, to_yield, addr_of. cbn [cur_word cur_word_index object_base it_object_size next_word slag_ty slag_meta handle words].
    rewrite length_words_bits, count_ones_length. do 4 f_equal. lia.
  - cbn [length] in Hl. split_and!; try done. cbn [remaining_words]. lia.
  - done.
  - cbn [cur_word_index]. rewrite count_ones_length. lia.
  - unfold to_yield. cbn [cur_word cur_word_index]. done.
Qed.

(** C16: a fresh slag yields every object once.  For the metadata that
    [compute_metadata] returns for objects of at least two bytes that fit the
    usable part of the page, after [init] (whatever the memory held before) the
    count is the number of objects, and an iterator obtained by [refresh] returns
    the addresses of all objects in order, each once, and then nothing, leaving the
    count at zero and an empty bit-set: the rotation that computes the words marks
    exactly the first bit of each object, also where objects straddle word
    boundaries.  (For layouts with word-aligned strides of several bits the
    rotation would lose an object, [slag_init_rotation_loses_object]; the search
    never ends in one.) *)
Theorem slag_init_yields_objects (size page li us slf mp : Z) (cf : f64) (t : AllocType) (m : Metadata) (junk : list Z) :
  2 ≤ size ≤ Z.min us page → Z.min us page < 2 ^ 53 → Meta.compute_metadata size page li cf us t = Ok m → Z.of_nat (length junk) = n_bitset_words m →
  ∃ s s', Slag.init mp m junk = Ok s ∧ rc s = rc_word false (n_objects m) ∧
    take_all (S (Z.to_nat (n_objects m))) slf m s = Ok ((fun j => slf + objects_offset m + j * object_size m) <$> zrange 0 (n_objects m), s') ∧
    rc s' = rc_word false 0 ∧ words s' = replicate (length (words s)) 0.
Proof.
  intros Hs Hu Em Hj. destruct (compute_metadata_full size page li us cf t Hs Hu) as (m' & Em' & Hl & Hm & _ & Hg & _). rewrite Em in Em'. injection Em' as <-.
  pose proof (layout_bits _ _ _ _ Hl Hs Hu) as Hnb. destruct (init_words_spec size _ page m junk Hl Hm Hg Hj Hnb) as (ws & E & Hf). unfold Slag.init. rewrite E, bind_Ok.
  pose proof Hl as (Hsh & Hb & Ho & _ & _ & _ & Hn & HW & _). destruct (full_words_bits _ (n_objects m) _ ws Hb ltac:(lia) HW Hf) as [Hok Hbits].
  pose proof (words_for_bound (n_objects m) (bits_per_object m) ltac:(lia) ltac:(lia)) as HWb. rewrite <- HW in HWb. destruct Hf as [Hlen _].
  assert (1 * 1 ≤ n_objects m * bits_per_object m) by (apply Z.mul_le_mono_nonneg; lia). assert (1 ≤ n_bitset_words m) by lia. assert (Hcnt : length (words_bits 0 ws) = Z.to_nat (n_objects m)) by (rewrite Hbits, length_fmap, length_zrange; f_equal; lia).
  eexists _, _. split; [reflexivity|]. split; [unfold rc_word; cbn; unfold RC.init; lia|].
  rewrite (take_all_spec _ _ _ _ false (n_objects m)); cbn [words rc slag_ty slag_meta handle]; try done; try lia;
    [|unfold rc_word, RC.init; lia].
  assert (Elist : (fun k => slf + objects_offset m + Z.shiftl 1 (bit_rep_shift m) * k) <$> words_bits 0 ws =
    (fun j => slf + objects_offset m + j * object_size m) <$> zrange 0 (n_objects m)).
  { rewrite Hbits, <- list_fmap_compose. apply list_fmap_ext. intros i j _. cbn. rewrite Z.shiftl_1_l, Ho. lia. }
  rewrite Hcnt, Elist. split; [reflexivity|]. split; [cbn [rc]; f_equal; lia|done].
Qed.

(** ** Releasing objects *)
Lemma get_word_spec size usable page m slf j : layout_ok size usable page m → 0 ≤ slf → 0 ≤ j →
  slf + objects_offset m + j * object_size m < 2 ^ 64 →
  Slag.get_word slf (slf + objects_offset m + j * object_size m) m = Ok ((bits_per_object m * j) / 64, (bits_per_object m * j) mod 64).
Proof.
  intros (Hsh & Hb & Ho & Hsz & _ & _ & _ & _ & _) Hs Hj Hlt. unfold Slag.get_word.
  pose proof (pow2_pos (bit_rep_shift m) ltac:(lia)) as Hp. assert (0 ≤ j * object_size m) by nia.
  rewrite uadd_Ok, bind_Ok, usub_Ok, bind_Ok by lia. f_equal. unfold split_index.
  replace (slf + objects_offset m + j * object_size m - (objects_offset m + slf)) with (bits_per_object m * j * 2 ^ bit_rep_shift m) by (rewrite Ho; lia).
  rewrite (Z.shiftr_div_pow2 _ (bit_rep_shift m)), Z.div_mul, Z.shiftr_div_pow2 by lia. change 63 with (2 ^ 6 - 1). by rewrite land_pow2_pred by lia.
Qed.

(** Setting one bit. *)
Lemma set_bit_spec ws k w : Forall word_ok ws → 0 ≤ k → ws !! Z.to_nat (k / 64) = Some w →
  Forall word_ok (<[Z.to_nat (k / 64) := Z.lor w (Z.shiftl 1 (k mod 64))]> ws) ∧
  ∀ x, x ∈ words_bits 0 (<[Z.to_nat (k / 64) := Z.lor w (Z.shiftl 1 (k mod 64))]> ws) ↔ x = k ∨ x ∈ words_bits 0 ws.
Proof.
  intros Hok Hk E. pose proof (Z.mod_pos_bound k 64 ltac:(lia)) as Hm. rewrite Z.shiftl_1_l.
  assert (Hw : word_ok w) by (by apply (Forall_lookup_1 _ _ _ _ Hok E)).
  assert (Hw' : word_ok (Z.lor w (2 ^ (k mod 64)))).
  { apply lor_bound; [lia|done|]. split; [apply Z.pow_nonneg; lia|apply Z.pow_lt_mono_r; lia]. }
  assert (Hok' : Forall word_ok (<[Z.to_nat (k / 64) := Z.lor w (2 ^ (k mod 64))]> ws)) by (by apply Forall_insert).
  split; [done|]. intros x. rewrite !elem_of_words_bits by done. rewrite Z.mul_0_r, Z.sub_0_r. unfold bit_at.
  pose proof (Z.div_mod x 64 ltac:(lia)) as Hdx. pose proof (Z.div_mod k 64 ltac:(lia)) as Hdk. pose proof (Z.mod_pos_bound x 64 ltac:(lia)).
  pose proof (Z.div_pos k 64 Hk ltac:(lia)).
  destruct (decide (0 ≤ x)) as [Hx|]; [|intuition lia]. pose proof (Z.div_pos x 64 Hx ltac:(lia)).
  destruct (decide (x / 64 = k / 64)) as [Eq|Hne].
  - rewrite Eq, list_lookup_insert_eq by (by eapply lookup_lt_Some). split.
    + intros (_ & _ & w' & [= <-] & Ht). rewrite Z.lor_spec, Z.pow2_bits_eqb in Ht by lia. apply orb_true_iff in Ht as [Ht|Ht%Z.eqb_eq]; [right|left; lia].
      split; [lia|]. split; [lia|]. by exists w.
    + intros [->|(_ & _ & w' & E' & Ht)].
      * split; [lia|]. split; [lia|]. eexists. split; [done|]. rewrite Z.lor_spec, Z.pow2_bits_true by lia. apply orb_true_r.
      * rewrite E in E'. injection E' as <-. split; [lia|]. split; [lia|]. eexists. split; [done|]. by rewrite Z.lor_spec, Ht.
  - rewrite list_lookup_insert_ne by lia. split; [by right|]. intros [->|?]; [lia|done].
Qed.

Lemma set_bit_perm ws k w : Forall word_ok ws → 0 ≤ k → ws !! Z.to_nat (k / 64) = Some w → k ∉ words_bits 0 ws →
  words_bits 0 (<[Z.to_nat (k / 64) := Z.lor w (Z.shiftl 1 (k mod 64))]> ws) ≡ₚ k :: words_bits 0 ws.
Proof.
  intros Hok Hk E Hnew. destruct (set_bit_spec ws k w Hok Hk E) as [Hok' Hbits]. apply NoDup_Permutation.
  - by apply sorted_NoDup, words_bits_sorted.
  - apply list.NoDup_cons. split; [done|by apply sorted_NoDup, words_bits_sorted].
  - intros x. rewrite elem_of_cons. apply Hbits.
Qed.

(** Taking a whole word. *)
Lemma words_bits_swap ws i w k0 : ws !! i = Some w → words_bits k0 ws ≡ₚ (Z.add (64 * (k0 + Z.of_nat i)) <$> bit_list w) ++ words_bits k0 (<[i:=0]> ws).
Proof.
  revert i k0. induction ws as [|v ws IH]; intros i k0 E; [done|]. destruct i as [|i].
  - injection E as ->. cbn [words_bits insert list_insert bit_list fmap list_fmap app]. by rewrite Z.add_0_r.
  - cbn [words_bits insert list_insert]. rewrite (IH i (k0 + 1)) by done.
    replace (k0 + Z.of_nat (S i)) with (k0 + 1 + Z.of_nat i) by lia. rewrite !app_assoc. apply Permutation_app_tail, Permutation_app_comm.
Qed.

Lemma slag_free_spec size usable page m slf j s cl c w : layout_ok size usable page m → 0 ≤ slf → 0 ≤ j →
  slf + objects_offset m + j * object_size m < slf + page < 2 ^ 64 → rc s = rc_word cl c → 0 ≤ c → c + 1 < 2 ^ 63 →
  words s !! Z.to_nat ((bits_per_object m * j) / 64) = Some w →
  Slag.free m slf (slf + objects_offset m + j * object_size m) s =
    Ok (if cl then Null else if c + 1 =? cutoff_objects m then Available else if c + 1 =? n_objects m then Full else Null,
        mkSlag (slag_ty s) (slag_meta s) (rc_word cl (c + 1)) (handle s)
          (<[Z.to_nat ((bits_per_object m * j) / 64) := Z.lor w (Z.shiftl 1 ((bits_per_object m * j) mod 64))]> (words s))).
Proof.
  intros Hl Hs Hj Hlt Erc Hc Hc1 Ew. pose proof Hl as (_ & _ & _ & _ & _ & _ & Hn & _ & _ & _ & _ & _ & Hpage & _ & Hcut). unfold Slag.free.
  rewrite Hpage, (lift_bind _ (slf + page)) by (apply uadd_Ok; lia). rewrite lift_assert by (apply Z.ltb_lt; lia).
  rewrite (lift_bind _ _ _ _ (get_word_spec size usable page m slf j Hl Hs Hj ltac:(lia))).
  rewrite (M_bind_run _ _ _ (cl, c) (set_rc s (rc_word cl (c + 1)))) by (unfold rc_inc; rewrite Erc, rc_inc_ok by lia; done).
  set (s2 := mkSlag _ _ _ _ _). rewrite (M_bind_run _ _ _ w s2) by (unfold word_fetch_or; cbn [words set_rc]; by rewrite Ew).
  destruct cl; [done|]. cbn [negb]. rewrite (lift_bind _ (cutoff_objects m - 1)) by (apply usub_Ok; lia).
  replace (c =? cutoff_objects m - 1) with (c + 1 =? cutoff_objects m) by (apply Bool.eq_true_iff_eq; rewrite !Z.eqb_eq; lia).
  destruct (c + 1 =? cutoff_objects m); [done|]. rewrite (lift_bind _ (n_objects m - 1)) by (apply usub_Ok; lia).
  by replace (c =? n_objects m - 1) with (c + 1 =? n_objects m) by (apply Bool.eq_true_iff_eq; rewrite !Z.eqb_eq; lia).
Qed.

Lemma find_spec slf page item e : 0 ≤ e < 64 → page = 2 ^ e → (page | slf) → 0 ≤ slf → slf ≤ item < slf + page → item < 2 ^ 64 → Slag.find item page = Ok slf.
Proof.
  intros He -> [z Hz] Hs Hi Hlt. unfold Slag.find. pose proof (pow2_pos e ltac:(lia)). rewrite is_power_of_two_pow2, (proj2 (Z.ltb_lt 0 (2 ^ e))) by lia.
  cbn [rassert]. rewrite !bind_Ok. f_equal. rewrite land_unot_pow2 by (unfold is_usize; lia).
  assert (item mod 2 ^ e = item - slf); [|lia]. symmetry. apply (Z.mod_unique _ _ z); lia.
Qed.

(** C27: released objects are found again.  For an object of a slag that is not
    in its bit-set, [find] gets the slag back from the address, [free] marks
    exactly this object, adds one to the count and reports the transition
    (available when an unclaimed slag reaches the cutoff, full when it then
    reaches all objects, none while it is claimed); an iterator refreshed
    afterwards returns the object together with those that were available. *)
Theorem slag_free_returns_object (size usable page slf j c e : Z) (cl : bool) (m : Metadata) (s : SlagS) :
  layout_ok size usable page m → 0 ≤ e < 64 → page = 2 ^ e → (page | slf) → 0 ≤ slf → 0 ≤ j < n_objects m →
  slf + objects_offset m + j * object_size m < slf + page < 2 ^ 64 →
  Forall word_ok (words s) → Z.of_nat (length (words s)) = n_bitset_words m → rc s = rc_word cl c → c + 1 < 2 ^ 63 →
  Z.of_nat (length (words_bits 0 (words s))) ≤ c → bits_per_object m * j ∉ words_bits 0 (words s) →
  let item := slf + objects_offset m + j * object_size m in
  ∃ t s' out s'', Slag.find item page = Ok slf ∧ Slag.free m slf item s = Ok (t, s') ∧ rc s' = rc_word cl (c + 1) ∧
    t = (if cl then Null else if c + 1 =? cutoff_objects m then Available else if c + 1 =? n_objects m then Full else Null) ∧
    take_all (S (Z.to_nat (c + 1))) slf m s' = Ok (out, s'') ∧
    ∀ x, x ∈ out ↔ x = item ∨ ∃ k, k ∈ words_bits 0 (words s) ∧ x = slf + objects_offset m + Z.shiftl 1 (bit_rep_shift m) * k.
Proof.
  intros Hl He Hpage Hdiv Hs Hj Hlt Hok Hlen Erc Hc Hcnt Hnew item. pose proof Hl as (Hsh & Hb & Ho & Hsz & _ & _ & Hn & HW & _ & Hoff & _).
  set (b := bits_per_object m) in *. pose proof (words_for_bound (n_objects m) b ltac:(lia) ltac:(lia)) as HWb. rewrite <- HW in HWb.
  assert (Hk : 0 ≤ b * j < 64 * n_bitset_words m) by nia. assert (Hkw : b * j / 64 < n_bitset_words m) by (apply Z.div_lt_upper_bound; lia).
  pose proof (Z.div_pos (b * j) 64 ltac:(lia) ltac:(lia)). destruct (lookup_lt_is_Some_2 (words s) (Z.to_nat (b * j / 64))) as [w Ew]; [lia|].
  pose proof (slag_free_spec size usable page m slf j s cl c w Hl Hs ltac:(lia) Hlt Erc ltac:(lia) Hc Ew) as Ef. fold b in Ef.
  destruct (set_bit_spec (words s) (b * j) w Hok ltac:(lia) Ew) as [Hok' Hbits]. set (ws' := <[_:=_]> (words s)) in *.
  pose proof (pad_for_bound (object_size m) (n_objects m) b ltac:(lia)) as Hpad. assert (Hj0 : 0 ≤ j * object_size m) by (apply Z.mul_nonneg_nonneg; lia).
  set (s' := mkSlag (slag_ty s) (slag_meta s) (rc_word cl (c + 1)) (handle s) ws').
  assert (Hcnt' : (length (words_bits 0 ws') ≤ S (length (words_bits 0 (words s))))%nat).
  { change (S (length (words_bits 0 (words s)))) with (length (b * j :: words_bits 0 (words s))).
    apply submseteq_length, NoDup_submseteq; [by apply sorted_NoDup, words_bits_sorted|]. intros x. rewrite elem_of_cons. apply Hbits. }
  eexists _, s', _, _. split; [eapply find_spec; [done|done|done|done|lia|lia]|]. split; [exact Ef|]. split; [done|]. split; [done|].
  split; [apply (take_all_spec _ slf m s' cl (c + 1)); cbn [words s']; (done || lia || unfold ws'; rewrite ?length_insert; lia)|].
  intros x. rewrite list_elem_of_fmap. cbn [words s']. setoid_rewrite Hbits. split.
  - intros (k & -> & [->|Hkk]); [left|right; by exists k]. unfold item. rewrite Z.shiftl_1_l, Ho. lia.
  - intros [->|(k & Hkk & ->)]; [exists (b * j); split; [|by left]|exists k; split; [done|by right]]. unfold item. rewrite Z.shiftl_1_l, Ho. lia.
Qed.

Definition mask_okb (m : Metadata) : bool :=
  (0 <=? object_mask m) && (object_mask m <? 2 ^ 64) && forallb (fun i => eqb (Z.testbit (object_mask m) i) (i mod bits_per_object m =? 0)) (zrange 0 64).

Lemma mask_okb_ok m : mask_okb m = true → mask_ok m.
Proof.
  unfold mask_okb. rewrite !andb_true_iff, Z.leb_le, Z.ltb_lt, forallb_forall. intros [? H]. split; [done|]. intros i Hi.
  apply eqb_prop, H, list_elem_of_In, elem_of_zrange, Hi.
Qed.

(** Word-aligned strides lose objects.  Where several bits per object
    divide the word size and the bit-set has two words, the rotation starts
    with no carried bits and the second word lacks the bit of its first object:
    the slag counts an object that its bit-set does not hold. *)
Theorem slag_init_rotation_loses_object (sh : Z) :
  sh ∈ [1; 2; 3; 4; 5] →
  let m := mkMeta (2 ^ (sh + 3)) (2 ^ (7 - sh)) 2 (2 ^ 21) 64 80 ((2 ^ 64 - 1) / (2 ^ 2 ^ sh - 1)) 3 0 1 (2 ^ 21) SmallSlag in
  mask_ok m ∧ ∃ s, Slag.init 0 m [0; 0] = Ok s ∧ rc s = 2 ^ (7 - sh) ∧ Z.of_nat (length (words_bits 0 (words s))) = 2 ^ (7 - sh) - 1.
Proof.
  intros Hsh. do 5 (apply elem_of_cons in Hsh as [->|Hsh]; [split; [by apply mask_okb_ok|eexists; split; [vm_compute; reflexivity|by vm_compute]]|]).
  by apply elem_of_nil in Hsh.
Qed.

(** ** Witnesses *)

(** The layout for objects of 24 bytes in 1024 usable bytes: three bits each. *)
Definition meta24 : Metadata := mkMeta 24 39 2 4096 64 80 10540996613548315209 3 0 31 1024 SmallSlag.

Lemma meta24_layout : layout_ok 24 1024 4096 meta24.
Proof. unfold layout_ok. cbv zeta. split_and!; try (by vm_compute); intros _; by vm_compute. Qed.

Lemma slag_init_yields_objects_witness :
  ∃ s s', Slag.init 5 meta24 [7; 7] = Ok s ∧ take_all 40 8192 meta24 s = Ok ((fun j => 8192 + 80 + j * 24) <$> zrange 0 39, s') ∧ rc s' = rc_word false 0.
Proof.
  destruct (slag_init_yields_objects 24 4096 0 1024 8192 5 f0_8 SmallSlag meta24 [7; 7]) as (s & s' & H1 & _ & H2 & H3 & _).
  - split; discriminate.
  - reflexivity.
  - vm_compute. reflexivity.
  - reflexivity.
  - exists s, s'. split; [exact H1|split; [exact H2|exact H3]].
Defined.

Lemma slag_free_returns_object_witness :
  ∃ t s', Slag.free meta24 8192 (8192 + 80 + 22 * 24) (mkSlag SmallSlag 5 (rc_word false 30) 0 [9; 0]) = Ok (t, s') ∧ t = Available.
Proof.
  destruct (slag_free_returns_object 24 1024 4096 8192 22 30 12 false meta24 (mkSlag SmallSlag 5 (rc_word false 30) 0 [9; 0])) as (t & s' & o & s'' & _ & H & _ & Ht & _).
  - exact meta24_layout.
  - split; [discriminate|reflexivity].
  - reflexivity.
  - exists 2. reflexivity.
  - discriminate.
  - split; [discriminate|reflexivity].
  - split; reflexivity.
  - constructor; [split; [discriminate|reflexivity]|constructor; [split; [discriminate|reflexivity]|constructor]].
  - reflexivity.
  - reflexivity.
  - reflexivity.
  - discriminate.
  - intros H. vm_compute in H. repeat (apply elem_of_cons in H as [H|H]; [discriminate H|]). by apply elem_of_nil in H.
  - exists t, s'. split; [exact H|]. rewrite Ht. reflexivity.
Defined.

Lemma slag_init_rotation_loses_object_witness : ∃ s, Slag.init 0 (mkMeta 16 64 2 (2 ^ 21) 64 80 ((2 ^ 64 - 1) / 3) 3 0 1 (2 ^ 21) SmallSlag) [0; 0] = Ok s ∧ rc s = 64.
Proof.
  destruct (slag_init_rotation_loses_object 1) as (_ & s & H & Hr & _); [left|]. exists s. split; [exact H|exact Hr].
Defined.
