(* ===== verification/SlagProto.v ===== *)
(** * The life cycle of a slag under concurrency

    Models how threads share one slag ([src/elfmalloc/src/slag.rs]): the
    release of objects ([SlagAllocator::free], [transition_available],
    [transition_full], [bulk_free]), the allocating thread ([refresh], the
    iterator's loads) and [Drop].  Every atomic operation of the code is one
    step; the steps of different threads interleave arbitrarily.  The pipe of
    available slags is its interface: an entry per push, taken by a pop or a
    revocation. *)

From Stdlib Require Import ZArith Lia.
From S2P Require Import Prelude SlagMeta SlagBits.
From stdpp Require Import base numbers list sorting option relations.

Open Scope Z_scope.

(** ** Threads *)

(** What a thread is about to do with the slag. *)
Inductive pc :=
  | Idle
  (* [free]: count the object, mark it, then carry out the transition *)
  | FInc (item : Z)
  | FOr (word word_ix : Z) (claimed : bool) (was epoch : Z)
  | FPush
  | FRevoke (epoch : Z)
  (* [bulk_free]: count the objects of a mask, mark them; the owner of the slag
     then goes on with its iterator *)
  | BInc (word mask : Z) (owner : option AllocIter)
  | BOr (word mask : Z) (claimed : bool) (was epoch : Z) (owner : option AllocIter)
  (* allocation: the current slag before the first refresh, a slag to claim,
     the first word to load, a loaded word to discount, the iterator in use *)
  | AFresh
  | AClaim
  | ASwap
  | ALoad (it : AllocIter)
  | AIter (it : AllocIter).

(** The slag, its entries in the pipe, and whether its page was given back.
    Two fields are not part of the program's state: [sh_epoch] counts the
    claims (it dates the report that a slag is full), and [sh_lost] records
    that a bulk release took the unclaimed slag from below the cutoff to full. *)
Record Sh := mkSh { sh_slag : SlagS; sh_pipe : nat; sh_epoch : Z; sh_freed : bool; sh_lost : bool }.

Definition on_slag (g : Sh) (s : SlagS) : Sh := mkSh s (sh_pipe g) (sh_epoch g) (sh_freed g) (sh_lost g).
Definition set_pipe (g : Sh) (n : nat) : Sh := mkSh (sh_slag g) n (sh_epoch g) (sh_freed g) (sh_lost g).
Definition set_freed (g : Sh) : Sh := mkSh (sh_slag g) (sh_pipe g) (sh_epoch g) true (sh_lost g).
Definition set_claimed (g : Sh) (s : SlagS) : Sh := mkSh s (sh_pipe g) (sh_epoch g + 1) (sh_freed g) (sh_lost g).

Section proto.
Context (m : Metadata) (slf : Z).

(** The address of the object at a bit of the bit-set, and the objects of a mask
    in one word. *)
Definition adr (k : Z) : Z := slf + objects_offset m + Z.shiftl 1 (bit_rep_shift m) * k.
Definition mask_objects (w mask : Z) : list Z := (fun i => adr (64 * w + i)) <$> bit_list mask.

Definition transition (claimed : bool) (was epoch : Z) : res pc :=
  if negb claimed then
    c ← usub (cutoff_objects m) 1;
    if was =? c then Ok FPush
    else
      n ← usub (n_objects m) 1;
      Ok (if was =? n then FRevoke epoch else Idle)
  else Ok Idle.

(** The head of [refresh]: unclaim, and keep the slag when it has enough objects. *)
Definition unclaim (g : Sh) : res (pc * Sh) :=
  '((_, was), s) ← rc_unclaim (sh_slag g);
  Ok (if cutoff_objects m <=? was then AClaim else Idle, on_slag g s).

(** [transition_full] after a successful revocation: reset the handle, give the
    page back. *)
Definition give_back (g : Sh) (n : nat) : Sh := set_freed (set_pipe (on_slag g (set_handle (sh_slag g) 0)) n).

(** The end of [bulk_free]. *)
Definition bulk_transition (claimed : bool) (was now epoch : Z) : pc :=
  if negb claimed then
    if now =? n_objects m then FRevoke epoch
    else if (was <? cutoff_objects m) && (cutoff_objects m <=? now) then FPush else Idle
  else Idle.

(** The owner of a slag goes on when nothing is left to do. *)
Definition resume (owner : option AllocIter) (p : pc) : pc :=
  match p, owner with Idle, Some it => AIter it | _, _ => p end.

(** Notes a bulk release that takes the unclaimed slag from below the cutoff to full. *)
Definition note_lost (g : Sh) (claimed : bool) (was now : Z) : Sh :=
  mkSh (sh_slag g) (sh_pipe g) (sh_epoch g) (sh_freed g)
    (sh_lost g || (negb claimed && (was <? cutoff_objects m) && (now =? n_objects m))).

(** One atomic step of a thread: its next step, the shared state, and the
    objects it hands to the client. *)
Definition tstep (g : Sh) (p : pc) : res (pc * Sh * list Z) :=
  match p with
  | Idle => Ok (Idle, g, [])
  | FInc item =>
      lim ← uadd slf (total_bytes m);
      _ ← rassert (item <? lim);
      '(word, word_ix) ← Slag.get_word slf item m;
      '((claimed, was), s) ← rc_inc 1 (sh_slag g);
      Ok (FOr word word_ix claimed was (sh_epoch g), on_slag g s, [])
  | FOr word word_ix claimed was epoch =>
      '(_, s) ← word_fetch_or word (Z.shiftl 1 word_ix) (sh_slag g);
      p' ← transition claimed was epoch;
      Ok (p', on_slag g s, [])
  | FPush => Ok (Idle, set_pipe g (S (sh_pipe g)), [])
  | FRevoke _ =>
      match sh_pipe g with
      | S n => Ok (Idle, give_back g n, [])
      | O => Ok (Idle, g, [])
      end
  | BInc word mask owner =>
      '((claimed, was), s) ← rc_inc (count_ones mask) (sh_slag g);
      Ok (BOr word mask claimed was (sh_epoch g) owner, note_lost (on_slag g s) claimed was (was + count_ones mask), [])
  | BOr word mask claimed was epoch owner =>
      '(before, s) ← word_fetch_or word mask (sh_slag g);
      _ ← rassert (Z.land before mask =? 0);
      now ← uadd was (count_ones mask);
      Ok (resume owner (bulk_transition claimed was now epoch), on_slag g s, [])
  | AFresh => '(p', g') ← unclaim g; Ok (p', g', [])
  | AClaim =>
      '(ok, s) ← rc_claim (sh_slag g);
      _ ← rassert ok;
      Ok (ASwap, set_claimed g s, [])
  | ASwap =>
      '(w, s) ← word_swap 0 0 (sh_slag g);
      r ← usub (n_bitset_words m) 1;
      Ok (ALoad (mkIter w 1 (slf + objects_offset m) (Z.shiftl 1 (bit_rep_shift m)) r 0), on_slag g s, [])
  | ALoad it =>
      '(_, s) ← rc_dec (count_ones (cur_word it)) (sh_slag g);
      Ok (AIter it, on_slag g s, [])
  | AIter it =>
      let next_bit := trailing_zeros (cur_word it) in
      if next_bit =? bits then
        if remaining_words it =? 0 then '(p', g') ← unclaim g; Ok (p', g', [])
        else
          '(w, s) ← word_swap (next_word it) 0 (sh_slag g);
          r ← usub (remaining_words it) 1;
          Ok (ALoad (mkIter w (next_word it + 1) (object_base it) (it_object_size it) r (cur_word_index it + 1)), on_slag g s, [])
      else
        Ok (AIter (with_word it (Z.lxor (cur_word it) (Z.shiftl 1 next_bit))), g,
            [object_base it + it_object_size it * (cur_word_index it * bits + next_bit)])
  end.

(** [SlagAllocator::drop]: unclaim the current slag and pass it on. *)
Definition drop_slag (g : Sh) : res (pc * Sh) :=
  '((claimed, was), s) ← rc_unclaim (sh_slag g);
  let g := on_slag g s in
  Ok (if (claimed : bool) then
        if was =? n_objects m then (Idle, set_freed g)
        else if cutoff_objects m <=? was then (FPush, g) else (Idle, g)
      else (Idle, set_freed g)).

(** [SlagAllocator::bulk_free]: release the objects of [mask] in one word. *)
Definition bulk_free (g : Sh) (mask word : Z) : res (pc * Sh) :=
  let n_ones := count_ones mask in
  if n_ones =? 0 then Ok (Idle, g)
  else
    '((claimed, was), s) ← rc_inc n_ones (sh_slag g);
    '(before, s) ← word_fetch_or word mask s;
    _ ← rassert (Z.land before mask =? 0);
    now ← uadd was n_ones;
    Ok (if negb claimed then
          if now =? n_objects m then FRevoke (sh_epoch g)
          else if (was <? cutoff_objects m) && (cutoff_objects m <=? now) then FPush else Idle
        else Idle, on_slag g s).

(** Threads and the objects the client holds. *)
Definition config : Type := Sh * list pc * list Z.

(** A thread may start to free an object the client holds, or to release
    several objects of one word of the bit-set (a magazine that returns memory),
    or pop the slag; a revocation may fail although the slag is in the pipe (an
    item that was pushed with a new node of a queue has no handle to its cell);
    the owner may release what is left of its word, and be dropped once its word
    is used up.  Nothing is modelled after the page was given back. *)
Inductive cstep : config → config → Prop :=
  | step_free g ps live t item live' : sh_freed g = false → ps !! t = Some Idle → live ≡ₚ item :: live' →
      cstep (g, ps, live) (g, <[t:=FInc item]> ps, live')
  | step_bulk g ps live t w mask live' : sh_freed g = false → ps !! t = Some Idle → 0 ≤ w < n_bitset_words m → word_ok mask → mask ≠ 0 →
      live ≡ₚ mask_objects w mask ++ live' → cstep (g, ps, live) (g, <[t:=BInc w mask None]> ps, live')
  | step_release g ps live t it : sh_freed g = false → ps !! t = Some (AIter it) → cur_word it ≠ 0 →
      cstep (g, ps, live) (g, <[t:=BInc (next_word it - 1) (cur_word it) (Some (with_word it 0))]> ps, live)
  | step_no_revoke g ps live t e : sh_freed g = false → ps !! t = Some (FRevoke e) →
      cstep (g, ps, live) (g, <[t:=Idle]> ps, live)
  | step_pop g ps live t n : sh_freed g = false → ps !! t = Some Idle → sh_pipe g = S n →
      cstep (g, ps, live) (set_pipe g n, <[t:=AClaim]> ps, live)
  | step_drop g ps live t p p' g' : sh_freed g = false → ps !! t = Some p → (p = AFresh ∨ ∃ it, p = AIter it ∧ cur_word it = 0) →
      drop_slag g = Ok (p', g') → cstep (g, ps, live) (g', <[t:=p']> ps, live)
  | step_thread g ps live t p p' g' ev : sh_freed g = false → ps !! t = Some p → tstep g p = Ok (p', g', ev) →
      cstep (g, ps, live) (g', <[t:=p']> ps, ev ++ live).

(** A slag fresh from [init], held by one thread among [n]. *)
Definition start (s : SlagS) (n : nat) : config := (mkSh s 0 0 false false, AFresh :: replicate n Idle, []).
End proto.

(** ** Schedules *)
Inductive action := Go (t : nat) | StartFree (t : nat) (item : Z) | StartBulk (t : nat) (word mask : Z) | Release (t : nat) | NoRevoke (t : nat)
  | Pop (t : nat) | Drop (t : nat).

Definition may_drop (p : pc) : bool := match p with AFresh => true | AIter it => cur_word it =? 0 | _ => false end.

(** Takes one element out of a list. *)
Fixpoint take_one (x : Z) (l : list Z) : option (list Z) :=
  match l with
  | [] => None
  | y :: l' => if x =? y then Some l' else cons y <$> take_one x l'
  end.

Fixpoint take_all (xs l : list Z) : option (list Z) :=
  match xs with [] => Some l | x :: xs' => take_one x l ≫= take_all xs' end.

Definition word_okb (w : Z) : bool := (0 <=? w) && (w <? 2 ^ 64).

Definition exec (m : Metadata) (slf : Z) (c : config) (a : action) : res config :=
  let '(g, ps, live) := c in
  _ ← rassert (negb (sh_freed g));
  match a with
  | Go t => p ← deref (ps !! t); '(p', g', ev) ← tstep m slf g p; Ok (g', <[t:=p']> ps, ev ++ live)
  | StartFree t item =>
      match ps !! t, take_one item live with
      | Some Idle, Some live' => Ok (g, <[t:=FInc item]> ps, live')
      | _, _ => Fault Unreachable
      end
  | StartBulk t w mask =>
      _ ← rassert ((0 <=? w) && (w <? n_bitset_words m) && word_okb mask && negb (mask =? 0));
      match ps !! t, take_all (mask_objects m slf w mask) live with
      | Some Idle, Some live' => Ok (g, <[t:=BInc w mask None]> ps, live')
      | _, _ => Fault Unreachable
      end
  | Release t =>
      match ps !! t with
      | Some (AIter it) =>
          _ ← rassert (negb (cur_word it =? 0));
          Ok (g, <[t:=BInc (next_word it - 1) (cur_word it) (Some (with_word it 0))]> ps, live)
      | _ => Fault Unreachable
      end
  | NoRevoke t =>
      match ps !! t with Some (FRevoke _) => Ok (g, <[t:=Idle]> ps, live) | _ => Fault Unreachable end
  | Pop t =>
      match ps !! t, sh_pipe g with
      | Some Idle, S n => Ok (set_pipe g n, <[t:=AClaim]> ps, live)
      | _, _ => Fault Unreachable
      end
  | Drop t => p ← deref (ps !! t); _ ← rassert (may_drop p); '(p', g') ← drop_slag m g; Ok (g', <[t:=p']> ps, live)
  end.

Definition schedule (m : Metadata) (slf : Z) (l : list action) (c : config) : res config := rfold (exec m slf) l c.

Lemma take_one_perm x l l' : take_one x l = Some l' → l ≡ₚ x :: l'.
Proof.
  revert l'. induction l as [|y l IH]; intros l' E; [done|]. cbn in E. destruct (Z.eqb_spec x y) as [->|]; [by injection E as <-|].
  destruct (take_one x l) as [l2|] eqn:E2; [|done]. injection E as <-. rewrite (IH l2) by done. apply Permutation_swap.
Qed.

Lemma take_all_perm xs l l' : take_all xs l = Some l' → l ≡ₚ xs ++ l'.
Proof.
  revert l. induction xs as [|x xs IH]; intros l E; cbn in E; [by injection E as <-|]. destruct (take_one x l) as [l2|] eqn:E1; [|done].
  rewrite (take_one_perm _ _ _ E1), (IH l2 E). done.
Qed.

Lemma exec_sound m slf c a c' : exec m slf c a = Ok c' → cstep m slf c c'.
Proof.
  destruct c as [[g ps] live]. unfold exec. destruct (sh_freed g) eqn:Ef; [done|]. cbn [negb rassert]. rewrite bind_Ok. destruct a as [t|t item|t w mask|t|t|t|t].
  - destruct (ps !! t) as [p|] eqn:Ep; [|done]. cbn [deref]. rewrite bind_Ok. destruct (tstep m slf g p) as [[[p' g'] ev]|] eqn:E; [|done].
    rewrite bind_Ok. intros [= <-]. by eapply step_thread.
  - destruct (ps !! t) as [p|] eqn:Ep; [|done]. destruct p; try done. destruct (take_one item live) as [live'|] eqn:El; [|done].
    intros [= <-]. eapply step_free; [done|done|by apply take_one_perm].
  - destruct (_ && negb (mask =? 0)) eqn:Eb; [|done]. cbn [rassert]. rewrite bind_Ok. destruct (ps !! t) as [p|] eqn:Ep; [|done]. destruct p; try done.
    destruct (take_all _ live) as [live'|] eqn:El; [|done]. intros [= <-]. unfold word_okb in Eb. rewrite !andb_true_iff, negb_true_iff, !Z.leb_le, !Z.ltb_lt, Z.eqb_neq in Eb.
    eapply step_bulk; [done|done|lia|unfold word_ok; lia|tauto|by apply take_all_perm].
  - destruct (ps !! t) as [p|] eqn:Ep; [|done]. destruct p as [| | | | | | | | | | |it]; try done. destruct (Z.eqb_spec (cur_word it) 0) as [|Hne]; [done|]. cbn [negb rassert]. rewrite bind_Ok.
    intros [= <-]. by apply step_release.
  - destruct (ps !! t) as [p|] eqn:Ep; [|done]. destruct p as [| | | |e| | | | | | |]; try done. intros [= <-]. by eapply step_no_revoke.
  - destruct (ps !! t) as [p|] eqn:Ep; [|done]. destruct p; try done. destruct (sh_pipe g) as [|n] eqn:Eg; [done|]. intros [= <-]. by eapply step_pop.
  - destruct (ps !! t) as [p|] eqn:Ep; [|done]. cbn [deref]. rewrite bind_Ok. destruct (may_drop p) eqn:Em; [|done]. cbn [rassert]. rewrite bind_Ok.
    destruct (drop_slag m g) as [[p' g']|] eqn:E; [|done]. rewrite bind_Ok. intros [= <-]. eapply step_drop; [done|done| |done].
    destruct p; try done; [by left|]. right. eexists. split; [done|]. by apply Z.eqb_eq.
Qed.

Lemma schedule_sound m slf l c c' : schedule m slf l c = Ok c' → rtc (cstep m slf) c c'.
Proof.
  unfold schedule. revert c. induction l as [|a l IH]; intros c E; cbn [rfold] in E; [by injection E as <-|].
  destruct (exec m slf c a) as [c1|] eqn:E1; [|done]. eapply rtc_l; [by eapply exec_sound|by apply IH].
Qed.

(** ** Words and masks *)
Lemma word_ok_lor a b : word_ok a → word_ok b → word_ok (Z.lor a b).
Proof. intros Ha Hb. by apply (lor_bound a b 64). Qed.

Lemma bit_list_lor a b : 0 ≤ a → 0 ≤ b → Z.land a b = 0 → bit_list (Z.lor a b) ≡ₚ bit_list a ++ bit_list b.
Proof.
  intros Ha Hb E. assert (Hlor : 0 ≤ Z.lor a b) by (apply Z.lor_nonneg; lia). assert (Hnd : ∀ x, NoDup (bit_list x)) by (intros x; apply sorted_NoDup, bit_list_sorted).
  assert (Hdis : ∀ k, Z.testbit a k = true → Z.testbit b k = true → False).
  { intros k Ea Eb. assert (Hk : Z.testbit (Z.land a b) k = true) by (by rewrite Z.land_spec, Ea, Eb). rewrite E, Z.bits_0 in Hk. done. }
  apply NoDup_Permutation; [done| |].
  - apply list.NoDup_app. split_and!; [done| |done]. intros k Hk1 Hk2. apply elem_of_bit_list in Hk1 as [_ Hk1]; [|done]. apply elem_of_bit_list in Hk2 as [_ Hk2]; [|done]. by eapply Hdis.
  - intros k. rewrite elem_of_app, !elem_of_bit_list by done. rewrite Z.lor_spec, orb_true_iff. tauto.
Qed.

(** Marking the bits of a mask in a word. *)
Lemma set_mask_perm ws w x mask : ws !! Z.to_nat w = Some x → 0 ≤ w → 0 ≤ x → 0 ≤ mask → Z.land x mask = 0 →
  words_bits 0 (<[Z.to_nat w := Z.lor x mask]> ws) ≡ₚ (Z.add (64 * w) <$> bit_list mask) ++ words_bits 0 ws.
Proof.
  intros Ew Hw Hx Hm E. pose proof (lookup_lt_Some _ _ _ Ew) as Hlt. rewrite (words_bits_swap ws (Z.to_nat w) x 0 Ew).
  rewrite (words_bits_swap (<[Z.to_nat w := Z.lor x mask]> ws) (Z.to_nat w) (Z.lor x mask) 0) by (by apply list_lookup_insert_eq).
  rewrite list_insert_insert_eq, bit_list_lor by done. replace (0 + Z.of_nat (Z.to_nat w)) with w by lia. rewrite fmap_app. solve_Permutation.
Qed.

(** ** The invariant *)
Section inv.
Context (m : Metadata) (slf : Z).

Local Abbreviation adr := (adr m slf).
Local Abbreviation mobj := (mask_objects m slf).
Definition all_objects : list Z := (fun j => slf + objects_offset m + j * object_size m) <$> zrange 0 (n_objects m).

(** The objects a thread holds between the client and the bit-set. *)
Definition held (p : pc) : list Z :=
  match p with
  | FInc item => [item]
  | FOr w ix _ _ _ => [adr (64 * w + ix)]
  | BInc w mask _ | BOr w mask _ _ _ _ => mobj w mask
  | ALoad it | AIter it => (fun i => adr (64 * cur_word_index it + i)) <$> bit_list (cur_word it)
  | _ => []
  end.

(** What is counted but not in the bit-set. *)
Definition pending (p : pc) : nat :=
  match p with FOr _ _ _ _ _ => 1 | BOr _ mask _ _ _ _ => length (bit_list mask) | ALoad it => length (bit_list (cur_word it)) | _ => 0 end.

(** Threads that will pass the slag on, and those that have claimed it. *)
Definition holder (p : pc) : nat :=
  match p with
  | FOr _ _ claimed was _ => if negb claimed && (was + 1 =? cutoff_objects m) then 1 else 0
  | BInc _ _ owner => if owner is Some _ then 1 else 0
  | BOr _ mask claimed was _ owner =>
      if owner is Some _ then 1
      else match bulk_transition m claimed was (was + count_ones mask) 0 with FPush => 1 | _ => 0 end
  | FPush | AFresh | AClaim | ASwap | ALoad _ | AIter _ => 1
  | _ => 0
  end.
Definition claimer (p : pc) : nat :=
  match p with ASwap | ALoad _ | AIter _ | BInc _ _ (Some _) | BOr _ _ _ _ _ (Some _) => 1 | _ => 0 end.

(** A report of this epoch that the slag is full; a slag never used is. *)
Definition full_report (epoch : Z) (p : pc) : Prop :=
  match p with
  | FOr _ _ claimed was e => claimed = false ∧ was + 1 ≠ cutoff_objects m ∧ was + 1 = n_objects m ∧ e = epoch
  | BOr _ mask claimed was e _ => claimed = false ∧ was + count_ones mask = n_objects m ∧ e = epoch
  | FRevoke e => e = epoch
  | AFresh => True
  | _ => False
  end.

Definition iter_wf (it : AllocIter) : Prop :=
  word_ok (cur_word it) ∧ 0 ≤ cur_word_index it ∧ next_word it = cur_word_index it + 1 ∧ remaining_words it = n_bitset_words m - next_word it ∧
  0 ≤ remaining_words it ∧ object_base it = slf + objects_offset m ∧ it_object_size it = Z.shiftl 1 (bit_rep_shift m).

(** A mask that is released; the iterator of the owner has given up its word. *)
Definition bulk_wf (w mask : Z) (owner : option AllocIter) : Prop :=
  0 ≤ w < n_bitset_words m ∧ word_ok mask ∧ (∀ it, owner = Some it → iter_wf it ∧ cur_word it = 0).

Definition pc_ok (epoch : Z) (p : pc) : Prop :=
  match p with
  | FOr w ix _ was e => 0 ≤ w < n_bitset_words m ∧ 0 ≤ ix < 64 ∧ e ≤ epoch
  | BInc w mask owner => bulk_wf w mask owner
  | BOr w mask claimed was e owner => bulk_wf w mask owner ∧ e ≤ epoch ∧ 0 ≤ was ∧ was + count_ones mask < 2 ^ 63 ∧ (is_Some owner → claimed = true)
  | FRevoke e => e ≤ epoch
  | ALoad it | AIter it => iter_wf it
  | _ => True
  end.

(** Threads holding the slag, its entries in the pipe included. *)
Definition holders (g : Sh) (ps : list pc) : nat := sh_pipe g + sum_list_with holder ps.

Record inv_at (g : Sh) (ps : list pc) (live : list Z) (cl : bool) (c : Z) : Prop := {
  inv_rc : rc (sh_slag g) = rc_word cl c;
  inv_words : Forall word_ok (words (sh_slag g)) ∧ Z.of_nat (length (words (sh_slag g))) = n_bitset_words m;
  inv_objects : (adr <$> words_bits 0 (words (sh_slag g))) ++ (ps ≫= held) ++ live ≡ₚ all_objects;
  inv_count : c = Z.of_nat (length (words_bits 0 (words (sh_slag g))) + sum_list_with pending ps);
  inv_pcs : Forall (pc_ok (sh_epoch g)) ps;
  inv_holder : (holders g ps ≤ 1)%nat;
  inv_claim : sum_list_with claimer ps = (if cl then 1%nat else 0%nat);
  inv_floating : holders g ps = 0%nat → c < cutoff_objects m ∨ sh_lost g = true ∧ c = n_objects m;
  inv_ready : cl = false → holders g ps = 1%nat → cutoff_objects m ≤ c;
  inv_full : ∀ p, p ∈ ps → full_report (sh_epoch g) p → cl = false ∧ c = n_objects m }.

Lemma inv_perm g ps ps' live cl c : ps ≡ₚ ps' → inv_at g ps live cl c → inv_at g ps' live cl c.
Proof.
  intros Hp [H1 H2 H3 H4 H5 H6 H7 H8 H9 H10]. unfold holders in *.
  constructor; unfold holders; try done; try (by rewrite <- Hp). intros p Hin. apply H10. by rewrite Hp.
Qed.

Lemma claimer_holder p : (claimer p ≤ holder p)%nat.
Proof. destruct p; cbn; repeat case_match; lia. Qed.

Lemma holder_in q ps : q ∈ ps → (holder q ≤ sum_list_with holder ps)%nat.
Proof. induction 1 as [q ps|q r ps _ IH]; cbn; lia. Qed.

Lemma claimers_holders ps : (sum_list_with claimer ps ≤ sum_list_with holder ps)%nat.
Proof. induction ps as [|p ps IH]; cbn; [lia|]. pose proof (claimer_holder p). lia. Qed.

Lemma pending_held p : (pending p ≤ length (held p))%nat.
Proof. destruct p; cbn; unfold mask_objects; rewrite ?length_fmap; lia. Qed.

Lemma pendings_held ps : (sum_list_with pending ps ≤ length (ps ≫= held))%nat.
Proof. induction ps as [|p ps IH]; cbn; [lia|]. rewrite length_app. pose proof (pending_held p). lia. Qed.

Context (size usable page : Z) (Hl : layout_ok size usable page m) (Hslf : 0 ≤ slf) (Hpage : slf + objects_offset m + n_objects m * object_size m ≤ slf + page < 2 ^ 64)
  (Hcut : cutoff_objects m ≤ n_objects m).

Lemma inv_bound g p rest live cl c : inv_at g (p :: rest) live cl c →
  Z.of_nat (length (words_bits 0 (words (sh_slag g))) + length (held p) + sum_list_with pending rest + length live) ≤ n_objects m ∧ 0 ≤ c.
Proof.
  intros H. pose proof (Permutation_length (inv_objects _ _ _ _ _ H)) as Hlen. unfold all_objects in Hlen.
  rewrite !length_app, !length_fmap, length_zrange in Hlen. rewrite bind_cons, length_app in Hlen. pose proof (pendings_held rest).
  rewrite (inv_count _ _ _ _ _ H). destruct Hl as (_ & _ & _ & _ & _ & _ & Hn & _). lia.
Qed.

Lemma adr_inj k k' : adr k = adr k' → k = k'.
Proof. destruct Hl as (Hsh & _). unfold adr. rewrite Z.shiftl_1_l. pose proof (pow2_pos (bit_rep_shift m) ltac:(lia)). nia. Qed.

Lemma adr_object j : adr (bits_per_object m * j) = slf + objects_offset m + j * object_size m.
Proof. destruct Hl as (_ & _ & Ho & _). unfold adr. rewrite Z.shiftl_1_l, Ho. lia. Qed.

Lemma all_objects_NoDup : NoDup all_objects.
Proof.
  unfold all_objects. apply NoDup_fmap_2; [|apply NoDup_zrange]. intros i j. rewrite <- !adr_object. intros E%adr_inj.
  destruct Hl as (_ & Hb & _). nia.
Qed.

(** Nothing of a mask of objects that are not in the bit-set is marked. *)
Lemma mask_disjoint ws others w mask x : NoDup ((adr <$> words_bits 0 ws) ++ others) → mobj w mask ⊆ others → ws !! Z.to_nat w = Some x → 0 ≤ w →
  word_ok mask → word_ok x → Z.land x mask = 0.
Proof.
  intros (_ & Hdis & _)%list.NoDup_app Hsub Ew Hw Hm Hx. unfold word_ok in *. apply Z.bits_inj'. intros i Hi. rewrite Z.land_spec, Z.bits_0.
  destruct (Z.testbit x i) eqn:Ex; [|done]. destruct (Z.testbit mask i) eqn:Em; [exfalso|done].
  apply (Hdis (adr (64 * w + i))); [|apply Hsub, (list_elem_of_fmap_2 (fun i => adr (64 * w + i))), elem_of_bit_list; [lia|done]].
  apply list_elem_of_fmap_2. rewrite (words_bits_swap _ _ _ 0 Ew). apply elem_of_app. left. replace (0 + Z.of_nat (Z.to_nat w)) with w by lia.
  apply list_elem_of_fmap_2, elem_of_bit_list; [lia|done].
Qed.

(** Facts on sums of one thread and the rest, for arithmetic. *)
Ltac sums := unfold holders in *; cbn [sum_list_with holder claimer pending sh_pipe sh_slag sh_epoch sh_lost on_slag set_pipe set_claimed note_lost] in *.

(** ** Steps of a thread *)
Definition step_ok (g : Sh) (p : pc) (rest : list pc) (live : list Z) : Prop :=
  ∃ p' g' ev, tstep m slf g p = Ok (p', g', ev) ∧
    (sh_freed g' = sh_freed g → ∃ cl' c', inv_at g' (p' :: rest) (ev ++ live) cl' c').

Lemma step_inc g item rest live cl c : inv_at g (FInc item :: rest) live cl c → step_ok g (FInc item) rest live.
Proof.
  intros H. pose proof (inv_bound _ _ _ _ _ _ H) as [Hb Hc0]. cbn [held length] in Hb. destruct H as [H1 H2 H3 H4 H5 H6 H7 H8 H9 H10].
  assert (Hin : item ∈ all_objects) by (rewrite <- H3; apply elem_of_app; right; apply elem_of_app; left; rewrite bind_cons; left).
  unfold all_objects in Hin. apply list_elem_of_fmap in Hin as (j & -> & Hj%elem_of_zrange).
  pose proof Hl as (Hsh & Hbb & Ho & Hsz & _ & _ & Hn & HW & _ & Hoff & _ & _ & Htot & _ & Hcut1).
  pose proof (pad_for_bound (object_size m) (n_objects m) (bits_per_object m) ltac:(lia)). pose proof (words_for_bound (n_objects m) (bits_per_object m) ltac:(lia) ltac:(lia)) as HWb.
  assert (Hobj : j * object_size m + object_size m ≤ n_objects m * object_size m) by nia. assert (0 ≤ j * object_size m) by nia.
  set (k := bits_per_object m * j). assert (Hk : 0 ≤ k < n_objects m * bits_per_object m) by (unfold k; nia).
  assert (c + 1 ≤ n_objects m) by (cbn in H4; lia).
  eexists _, _, _. split.
  { unfold tstep. rewrite uadd_Ok, bind_Ok by lia. rewrite (proj2 (Z.ltb_lt _ _)) by lia. cbn [rassert]. rewrite bind_Ok.
    rewrite (get_word_spec size usable page m slf j Hl Hslf) by lia. rewrite bind_Ok. unfold rc_inc. rewrite H1, rc_inc_ok by lia. rewrite bind_Ok. reflexivity. }
  intros _. fold k. exists cl, (c + 1). pose proof (Z.div_mod k 64 ltac:(lia)) as Hdm. pose proof (Z.mod_pos_bound k 64 ltac:(lia)) as Hm.
  assert (Hkw : k / 64 < n_bitset_words m) by (apply Z.div_lt_upper_bound; lia). pose proof (Z.div_pos k 64 ltac:(lia) ltac:(lia)).
  pose proof (claimers_holders rest) as Hch. sums. assert (Hcl : cl = true → (1 ≤ sum_list_with holder rest)%nat) by (intros ->; lia).
  assert (Hnew : (if negb cl && (c + 1 =? cutoff_objects m) then 1%nat else 0%nat) = 1%nat ∧ cl = false ∧ c + 1 = cutoff_objects m ∨
    (if negb cl && (c + 1 =? cutoff_objects m) then 1%nat else 0%nat) = 0%nat ∧ (cl = true ∨ c + 1 ≠ cutoff_objects m))
    by (destruct cl, (Z.eqb_spec (c + 1) (cutoff_objects m)); cbn; tauto).
  set (hn := (if negb cl && (c + 1 =? cutoff_objects m) then 1%nat else 0%nat)) in *.
  constructor; sums; cbn [rc words set_rc]; try done.
  - etransitivity; [|exact H3]. rewrite !bind_cons. cbn [held]. rewrite <- adr_object. fold k. by replace (64 * (k / 64) + k mod 64) with k by lia.
  - lia.
  - inversion H5; subst. constructor; [split_and!; lia|done].
  - fold hn. destruct Hnew as [(Eh & Ecl & ?)|(Eh & _)]; [|lia]. rewrite Eh. destruct (decide (sh_pipe g + (0 + sum_list_with holder rest) = 1)%nat); [|lia].
    pose proof (H9 Ecl ltac:(done)). lia.
  - fold hn. intros Hz. destruct Hnew as [(Eh & _)|(Eh & Hor)]; rewrite Eh in Hz; [lia|]. assert (c < cutoff_objects m) by (destruct H8 as [?|[_ ?]]; lia).
    destruct Hor as [Ecl|?]; [specialize (Hcl Ecl); lia|lia].
  - fold hn. intros Ecl Hh. destruct Hnew as [(_ & _ & ?)|(Eh & _)]; [lia|]. rewrite Eh in Hh. pose proof (H9 Ecl Hh). lia.
  - intros p [->|Hp]%elem_of_cons Hf; [destruct Hf as (? & ? & ? & ?); split; [done|lia]|]. destruct (H10 p) as [? ?]; [by right|done|]. lia.
Qed.

Lemma step_or g w ix cl0 was e rest live cl c : inv_at g (FOr w ix cl0 was e :: rest) live cl c → step_ok g (FOr w ix cl0 was e) rest live.
Proof.
  intros [H1 [H2 H2'] H3 H4 H5 H6 H7 H8 H9 H10]. pose proof (Forall_inv H5) as (Hw & Hix & He). pose proof (Forall_inv_tail H5) as Hrest.
  set (k := 64 * w + ix). assert (Ek : k / 64 = w ∧ k mod 64 = ix).
  { unfold k. split; [symmetry; apply (Z.div_unique _ _ _ ix); lia|symmetry; apply (Z.mod_unique _ _ w); lia]. }
  destruct (lookup_lt_is_Some_2 (words (sh_slag g)) (Z.to_nat (k / 64))) as [x Ex]; [lia|].
  assert (Hnew : k ∉ words_bits 0 (words (sh_slag g))).
  { intros Hin. pose proof all_objects_NoDup as Hnd. rewrite <- H3 in Hnd. apply NoDup_app in Hnd as (_ & Hdis & _).
    apply (Hdis (adr k)); [by apply list_elem_of_fmap_2|]. rewrite bind_cons. cbn [held app]. left. }
  pose proof (set_bit_perm _ k x H2 ltac:(lia) Ex Hnew) as Hset. destruct (set_bit_spec _ k x H2 ltac:(lia) Ex) as [Hok' _].
  destruct Ek as [E1 E2]. rewrite E1 in Ex. rewrite E1, E2 in Hset, Hok'.
  pose proof Hl as (_ & _ & _ & _ & _ & _ & Hn & _ & _ & _ & _ & _ & _ & _ & Hcut1).
  assert (Htr : ∃ p', transition m cl0 was e = Ok p' ∧ holder p' = holder (FOr w ix cl0 was e) ∧ claimer p' = 0%nat ∧ pending p' = 0%nat ∧ held p' = [] ∧
    pc_ok (sh_epoch g) p' ∧ (full_report (sh_epoch g) p' → full_report (sh_epoch g) (FOr w ix cl0 was e))).
  { unfold transition. cbn [holder full_report]. destruct cl0; [by exists Idle|]. cbn [negb andb]. rewrite (usub_Ok (cutoff_objects m)), bind_Ok by lia.
    destruct (Z.eqb_spec was (cutoff_objects m - 1)) as [->|].
    - exists FPush. rewrite (proj2 (Z.eqb_eq (cutoff_objects m - 1 + 1) (cutoff_objects m))) by lia. split_and!; done.
    - rewrite usub_Ok, bind_Ok by lia. rewrite (proj2 (Z.eqb_neq (was + 1) (cutoff_objects m))) by lia.
      destruct (Z.eqb_spec was (n_objects m - 1)); [|by exists Idle]. exists (FRevoke e).
      do 5 (split; [reflexivity|]). split; [exact He|]. intros Ee. split; [reflexivity|]. split; [lia|]. split; [lia|exact Ee]. }
  destruct Htr as (p' & Etr & Eh & Ec & Ep & Ehd & Hpok & Hfull).
  eexists p', _, []. split.
  { unfold tstep, word_fetch_or. rewrite Ex, bind_Ok, Etr, bind_Ok. reflexivity. }
  intros _. cbn [app]. exists cl, c. constructor; sums; cbn [rc words set_words]; rewrite ?Eh, ?Ec, ?Ep; try done.
  - split; [done|]. by rewrite length_insert.
  - rewrite Hset. etransitivity; [|exact H3]. rewrite !bind_cons, Ehd. cbn [held fmap list_fmap app].
    rewrite fmap_cons || idtac. cbn [app]. fold k. apply Permutation_middle.
  - rewrite Hset. cbn [length]. lia.
  - by constructor.
  - intros q [->|Hq]%elem_of_cons Hf; [apply (H10 (FOr w ix cl0 was e)); [left|by apply Hfull]|]. apply (H10 q); [by right|done].
Qed.

Lemma step_push g rest live cl c : inv_at g (FPush :: rest) live cl c → step_ok g FPush rest live.
Proof.
  intros [H1 H2 H3 H4 H5 H6 H7 H8 H9 H10]. pose proof (Forall_inv_tail H5) as Hrest. eexists _, _, []. split; [reflexivity|]. intros _. exists cl, c. sums.
  constructor; sums; try done.
  - by constructor.
  - lia.
  - intros ? ?. apply H9; [done|lia].
  - intros q [->|Hq]%elem_of_cons Hf; [done|]. apply (H10 q); [by right|done].
Qed.

(** A revocation that fails. *)
Lemma step_revoke g e rest live cl c : sh_freed g = false → inv_at g (FRevoke e :: rest) live cl c → step_ok g (FRevoke e) rest live.
Proof.
  intros Hfr [H1 H2 H3 H4 H5 H6 H7 H8 H9 H10]. pose proof (Forall_inv_tail H5) as Hrest. unfold step_ok, tstep. destruct (sh_pipe g) as [|n] eqn:Epipe; eexists _, _, []; (split; [reflexivity|]).
  - intros _. exists cl, c. constructor; try done; [by constructor|]. intros q [->|Hq]%elem_of_cons Hf; [done|]. apply (H10 q); [by right|done].
  - intros E. cbn in E. congruence.
Qed.

(** The thread that holds the slag is alone. *)
Lemma sole_holder g p rest live cl c : inv_at g (p :: rest) live cl c → holder p = 1%nat →
  sh_pipe g = 0%nat ∧ sum_list_with holder rest = 0%nat ∧ sum_list_with claimer rest = 0%nat ∧ claimer p = (if cl then 1%nat else 0%nat).
Proof.
  intros H Hp. pose proof (inv_holder _ _ _ _ _ H) as H6. pose proof (inv_claim _ _ _ _ _ H) as H7. pose proof (claimers_holders rest).
  unfold holders in H6. cbn [sum_list_with] in *. destruct cl; lia.
Qed.

(** A bulk release counts its objects: the thread is the one to pass the slag on
    when it takes the slag past the cutoff but not to full. *)
Lemma step_bulk_inc g w mask k rest live cl c : inv_at g (BInc w mask k :: rest) live cl c → step_ok g (BInc w mask k) rest live.
Proof.
  intros H. pose proof (inv_bound _ _ _ _ _ _ H) as [Hb Hc0]. pose proof (fun E => sole_holder _ _ _ _ _ _ H E) as Hsole. destruct H as [H1 H2 H3 H4 H5 H6 H7 H8 H9 H10].
  pose proof (Forall_inv H5) as Hwf. pose proof (Forall_inv_tail H5) as Hrest. cbn [held] in Hb. unfold mask_objects in Hb. rewrite length_fmap in Hb.
  pose proof Hl as (_ & _ & _ & _ & _ & _ & Hn & _). pose proof (count_ones_length mask) as En. set (n := count_ones mask) in *. cbn [sum_list_with pending] in H4.
  assert (c + n ≤ n_objects m) by lia. eexists _, _, []. split; [unfold tstep, rc_inc; fold n; rewrite H1, rc_inc_ok, bind_Ok by lia; reflexivity|]. intros _. cbn [app]. exists cl, (c + n).
  pose proof (claimers_holders rest) as Hch. assert (Hk : is_Some k → cl = true) by (intros [it ->]; destruct (Hsole eq_refl) as (_ & _ & _ & Ecl); by destruct cl).
  assert (Hpcs : Forall (pc_ok (sh_epoch g)) (BOr w mask cl c (sh_epoch g) k :: rest)) by (constructor; [cbn; fold n; split_and!; try done; lia|done]).
  assert (Hfull : ∀ q, q ∈ BOr w mask cl c (sh_epoch g) k :: rest → full_report (sh_epoch g) q → cl = false ∧ c + n = n_objects m).
  { intros q [->|Hq]%elem_of_cons Hf; [cbn in Hf; tauto|]. destruct (H10 q) as [? ?]; [by right|done|]. split; [done|lia]. }
  destruct k as [it|].
  - rewrite (Hk ltac:(done)) in *. constructor; sums; cbn [rc words set_rc]; try done; lia.
  - assert (Hcl : cl = true → (1 ≤ sum_list_with holder rest)%nat) by (intros ->; cbn in H7; lia).
    assert (Hh : ∃ h, holder (BOr w mask cl c (sh_epoch g) None) = h ∧ (h = 1%nat ∧ cl = false ∧ c < cutoff_objects m ≤ c + n ∨
      h = 0%nat ∧ (cl = true ∨ c + n = n_objects m ∨ cutoff_objects m ≤ c ∨ c + n < cutoff_objects m))).
    { cbn [holder]. fold n. unfold bulk_transition. destruct cl; [eexists; split; [reflexivity|]; tauto|]. cbn [negb].
      destruct (Z.eqb_spec (c + n) (n_objects m)); [eexists; split; [reflexivity|]; tauto|].
      destruct (Z.ltb_spec c (cutoff_objects m)), (Z.leb_spec (cutoff_objects m) (c + n)); (eexists; split; [reflexivity|]; tauto || (right; split; [done|]; lia)). }
    destruct Hh as (h & Eh & Hh). cbn [holder] in Eh. fold n in Eh. constructor; sums; cbn [rc words set_rc]; fold n; rewrite ?Eh; try done; try lia.
    + destruct Hh as [(-> & Ecl & ?)|(-> & _)]; [|lia]. destruct (decide (sh_pipe g + (0 + sum_list_with holder rest) = 1)%nat) as [E|]; [|lia]. pose proof (H9 Ecl E). lia.
    + intros Hz. destruct Hh as [(-> & _)|(-> & Hor)]; [lia|]. destruct cl; [specialize (Hcl eq_refl); lia|]. cbn [negb andb].
      destruct H8 as [Hlt|[-> ?]]; [lia| |right; split; [done|lia]].
      destruct (Z.eqb_spec (c + n) (n_objects m)) as [E|]; [|left; lia]. rewrite (proj2 (Z.ltb_lt _ _) Hlt), orb_true_r. by right.
    + intros Ecl E1. destruct Hh as [(-> & _ & ?)|(-> & _)]; [lia|]. pose proof (H9 Ecl E1). lia.
Qed.

(** Then it marks them, and goes on. *)
Lemma bulk_next w mask cl0 was e k epoch : pc_ok epoch (BOr w mask cl0 was e k) →
  let p' := resume k (bulk_transition m cl0 was (was + count_ones mask) e) in
  holder p' = holder (BOr w mask cl0 was e k) ∧ claimer p' = claimer (BOr w mask cl0 was e k) ∧ pending p' = 0%nat ∧ held p' = [] ∧ pc_ok epoch p' ∧
  (full_report epoch p' → full_report epoch (BOr w mask cl0 was e k)).
Proof.
  intros ((_ & _ & Hk) & He & _ & _ & Hcl). cbn zeta. destruct k as [it|].
  - rewrite (Hcl ltac:(done)). destruct (Hk it eq_refl) as [Hit E0]. cbn. rewrite E0. split_and!; done.
  - cbn [holder full_report]. unfold bulk_transition. destruct cl0; [done|]. cbn [negb]. destruct (Z.eqb_spec (was + count_ones mask) (n_objects m)); [|by destruct (_ && _)].
    cbn. split_and!; done.
Qed.

Lemma step_bulk_or g w mask cl0 was e k rest live cl c : inv_at g (BOr w mask cl0 was e k :: rest) live cl c → step_ok g (BOr w mask cl0 was e k) rest live.
Proof.
  intros [H1 [H2 H2'] H3 H4 H5 H6 H7 H8 H9 H10]. pose proof (Forall_inv H5) as Hpok. pose proof (Forall_inv_tail H5) as Hrest.
  destruct (bulk_next _ _ _ _ _ _ _ Hpok) as (Eh & Ec & Ep & Ehd & Hpok' & Hfull). cbn zeta in *. set (p' := resume k _) in *.
  destruct Hpok as ((Hw & Hm & _) & _ & Hwas & Hwas2 & _). destruct (lookup_lt_is_Some_2 (words (sh_slag g)) (Z.to_nat w)) as [x Ex]; [lia|].
  pose proof (Forall_lookup_1 _ _ _ _ H2 Ex) as Hx. pose proof all_objects_NoDup as Hnd. rewrite <- H3 in Hnd.
  assert (Hland : Z.land x mask = 0).
  { eapply mask_disjoint; [exact Hnd| |exact Ex|lia|exact Hm|exact Hx]. intros a Ha. rewrite bind_cons, !elem_of_app. tauto. }
  pose proof (set_mask_perm _ w x mask Ex ltac:(lia) ltac:(unfold word_ok in *; lia) ltac:(unfold word_ok in *; lia) Hland) as Hset.
  assert (0 ≤ count_ones mask) by (rewrite count_ones_length; lia).
  exists p', (on_slag g (set_words (sh_slag g) (<[Z.to_nat w := Z.lor x mask]> (words (sh_slag g))))), []. split.
  { unfold tstep, word_fetch_or. rewrite Ex, bind_Ok, (proj2 (Z.eqb_eq _ 0) Hland). cbn [rassert]. rewrite bind_Ok, uadd_Ok, bind_Ok by lia. reflexivity. }
  intros _. cbn [app]. exists cl, c. constructor; unfold holders in *; cbn [sum_list_with sh_pipe sh_slag sh_epoch sh_lost on_slag rc words set_words] in *; rewrite ?Eh, ?Ec, ?Ep; try done.
  - split; [apply Forall_insert; [done|by apply word_ok_lor]|by rewrite length_insert].
  - rewrite Hset. etransitivity; [|exact H3]. rewrite !bind_cons, Ehd, fmap_app, <- list_fmap_compose. cbn [held app]. unfold mask_objects, compose. solve_Permutation.
  - rewrite Hset, length_app, length_fmap. cbn [pending] in H4. lia.
  - by constructor.
  - intros q [->|Hq]%elem_of_cons Hf; [apply (H10 (BOr w mask cl0 was e k)); [left|by apply Hfull]|]. apply (H10 q); [by right|done].
Qed.

(** The other threads' reports survive when the claimed bit and the count stay. *)
Lemma full_rest g p p' rest live cl c : inv_at g (p :: rest) live cl c → ¬ full_report (sh_epoch g) p' →
  ∀ q, q ∈ p' :: rest → full_report (sh_epoch g) q → cl = false ∧ c = n_objects m.
Proof. intros H Hp' q [->|Hq]%elem_of_cons Hf; [done|]. apply (inv_full _ _ _ _ _ H q); [by right|done]. Qed.

Lemma unclaim_ok g p rest live cl c : inv_at g (p :: rest) live cl c → holder p = 1%nat → held p = [] → pending p = 0%nat →
  ∃ p' g', unclaim m g = Ok (p', g') ∧ inv_at g' (p' :: rest) live false c.
Proof.
  intros H Hp Hh Hpd. destruct (sole_holder _ _ _ _ _ _ H Hp) as (Epipe & Eh & Ec & Ecl). pose proof (inv_bound _ _ _ _ _ _ H) as [Hb Hc0].
  pose proof H as [H1 H2 H3 H4 H5 H6 H7 H8 H9 H10]. pose proof (Forall_inv_tail H5) as Hrest. cbn [sum_list_with] in H4. rewrite Hpd in H4. rewrite Hh in Hb. cbn [length] in Hb.
  destruct Hl as (_ & _ & _ & _ & _ & _ & Hn & _). assert (c < 2 ^ 63) by lia.
  unfold unclaim, rc_unclaim. rewrite H1, rc_unclaim_ok, bind_Ok by lia. eexists _, _. split; [reflexivity|].
  rewrite bind_cons, Hh in H3. assert (Hcp : ∀ q, q ∈ rest → full_report (sh_epoch g) q → c = n_objects m) by (intros q Hq Hf; apply (H10 q); [by right|done]).
  destruct (Z.leb_spec (cutoff_objects m) c); constructor; sums; cbn [rc words set_rc]; rewrite ?Epipe, ?Eh, ?Ec; try done; try lia;
    try (by constructor); intros q [->|Hq]%elem_of_cons Hf; try done; split; eauto.
Qed.

Lemma step_fresh g rest live cl c : inv_at g (AFresh :: rest) live cl c → step_ok g AFresh rest live.
Proof.
  intros H. destruct (unclaim_ok g AFresh rest live cl c H) as (p' & g' & E & Hinv); [done..|]. exists p', g', []. split; [unfold tstep; by rewrite E|]. eauto.
Qed.

Lemma step_claim g rest live cl c : inv_at g (AClaim :: rest) live cl c → step_ok g AClaim rest live.
Proof.
  intros H. destruct (sole_holder _ _ _ _ _ _ H eq_refl) as (Epipe & Eh & Ec & Ecl). pose proof (inv_bound _ _ _ _ _ _ H) as [Hb Hc0].
  destruct H as [H1 H2 H3 H4 H5 H6 H7 H8 H9 H10]. pose proof (Forall_inv_tail H5) as Hrest. destruct cl; [done|]. cbn [sum_list_with pending] in H4. cbn [held length] in Hb.
  destruct Hl as (_ & _ & _ & _ & _ & _ & Hn & _). assert (c < 2 ^ 63) by lia.
  eexists _, _, []. split; [unfold tstep, rc_claim; rewrite H1, rc_claim_ok, bind_Ok by lia; reflexivity|]. intros _. exists true, c.
  constructor; sums; cbn [rc words set_rc]; rewrite ?Epipe, ?Eh, ?Ec; try done; try lia.
  - constructor; [done|]. clear -Hrest. induction Hrest as [|q l Hq _ IH]; constructor; [|done]. destruct q; cbn in *; try done; intuition lia.
  - intros q [->|Hq]%elem_of_cons Hf; [done|]. pose proof (proj1 (Forall_forall _ _) Hrest q Hq) as Hok.
    pose proof (holder_in _ _ Hq) as Hh. destruct q; cbn in Hok, Hf, Hh; try done; exfalso; intuition lia.
Qed.

(** Loading a word of the bit-set. *)
Lemma load_ok g p rest live cl c w it : inv_at g (p :: rest) live cl c → holder p = 1%nat → claimer p = 1%nat → held p = [] → pending p = 0%nat →
  words (sh_slag g) !! Z.to_nat (cur_word_index it) = Some w → iter_wf it → cur_word it = w →
  inv_at (on_slag g (set_words (sh_slag g) (<[Z.to_nat (cur_word_index it) := 0]> (words (sh_slag g))))) (ALoad it :: rest) live cl c.
Proof.
  intros H Hp Hcp Hh Hpd Ew Hit Ecw. destruct (sole_holder _ _ _ _ _ _ H Hp) as (Epipe & Eh & Ec & Ecl). pose proof H as [H1 [H2 H2'] H3 H4 H5 H6 H7 H8 H9 H10].
  pose proof (Forall_inv_tail H5) as Hrest. pose proof (words_bits_swap _ _ _ 0 Ew) as Hsw. rewrite Hcp in Ecl. destruct cl; [|done].
  rewrite bind_cons, Hh, app_nil_l in H3. cbn [sum_list_with] in H4. rewrite Hpd in H4. pose proof Hit as (_ & Hix & _).
  constructor; sums; cbn [rc words set_words]; rewrite ?Epipe, ?Eh, ?Ec; try done; try lia.
  - split; [by apply Forall_insert|by rewrite length_insert].
  - etransitivity; [|exact H3]. rewrite bind_cons. cbn [held]. rewrite Ecw. rewrite Hsw, fmap_app. rewrite <- list_fmap_compose.
    replace (0 + Z.of_nat (Z.to_nat (cur_word_index it))) with (cur_word_index it) by lia. rewrite !app_assoc. do 2 apply Permutation_app_tail. apply Permutation_app_comm.
  - rewrite Hsw in H4. rewrite length_app, length_fmap in H4. cbn [pending]. rewrite Ecw. lia.
  - by constructor.
  - intros q [->|Hq]%elem_of_cons Hf; [done|]. apply (H10 q); [by right|done].
Qed.

Lemma step_swap g rest live cl c : inv_at g (ASwap :: rest) live cl c → step_ok g ASwap rest live.
Proof.
  intros H. pose proof (inv_words _ _ _ _ _ H) as [Hok Hlen]. pose proof Hl as (_ & Hb & _ & _ & _ & _ & Hn & HW & _).
  pose proof (words_for_bound (n_objects m) (bits_per_object m) ltac:(lia) ltac:(lia)). assert (1 * 1 ≤ n_objects m * bits_per_object m) by (apply Z.mul_le_mono_nonneg; lia).
  assert (1 ≤ n_bitset_words m) by lia. destruct (lookup_lt_is_Some_2 (words (sh_slag g)) (Z.to_nat 0)) as [w Ew]; [lia|].
  eexists _, _, []. split; [unfold tstep, word_swap; rewrite Ew, bind_Ok, usub_Ok, bind_Ok by lia; reflexivity|].
  intros _. exists cl, c. cbn [app].
  apply (load_ok g ASwap rest live cl c w (mkIter w 1 (slf + objects_offset m) (Z.shiftl 1 (bit_rep_shift m)) (n_bitset_words m - 1) 0)); try done.
  split_and!; cbn; try done; try lia. by apply (Forall_lookup_1 _ _ _ _ Hok Ew).
Qed.

Lemma step_dec g it rest live cl c : inv_at g (ALoad it :: rest) live cl c → step_ok g (ALoad it) rest live.
Proof.
  intros H. destruct (sole_holder _ _ _ _ _ _ H eq_refl) as (Epipe & Eh & Ec & Ecl). pose proof (inv_bound _ _ _ _ _ _ H) as [Hb Hc0].
  pose proof H as [H1 H2 H3 H4 H5 H6 H7 H8 H9 H10]. destruct cl; [|done]. cbn [sum_list_with pending] in H4. cbn [held] in Hb. rewrite length_fmap in Hb.
  destruct Hl as (_ & _ & _ & _ & _ & _ & Hn & _). assert (c < 2 ^ 63) by lia.
  eexists _, _, []. split; [unfold tstep, rc_dec; rewrite H1, rc_dec_ok by (rewrite ?count_ones_length; lia); rewrite bind_Ok; reflexivity|]. intros _.
  exists true, (c - count_ones (cur_word it)). rewrite count_ones_length. constructor; sums; cbn [rc words set_rc]; rewrite ?Epipe, ?Eh, ?Ec; try done; try lia.
  - constructor; [exact (Forall_inv H5)|exact (Forall_inv_tail H5)].
  - intros q [->|Hq]%elem_of_cons Hf; [done|]. destruct (H10 q) as [? _]; [by right|done|done].
Qed.

Lemma step_iter g it rest live cl c : inv_at g (AIter it :: rest) live cl c → step_ok g (AIter it) rest live.
Proof.
  intros H. pose proof (Forall_inv (inv_pcs _ _ _ _ _ H)) as Hit. pose proof Hit as (Hw & Hix & Hnx & Hrem & Hrem0 & Hbase & Hsize). unfold step_ok, tstep.
  rewrite trailing_zeros_64 by done. destruct (Z.eqb_spec (cur_word it) 0) as [E0|Hne].
  - assert (Hh : held (AIter it) = []) by (cbn; by rewrite E0). destruct (Z.eqb_spec (remaining_words it) 0) as [Er|Er].
    + destruct (unclaim_ok g (AIter it) rest live cl c H eq_refl Hh eq_refl) as (p' & g' & E & Hinv). exists p', g', []. split; [by rewrite E|]. eauto.
    + pose proof (inv_words _ _ _ _ _ H) as [Hok Hlen]. destruct (lookup_lt_is_Some_2 (words (sh_slag g)) (Z.to_nat (next_word it))) as [w Ew]; [lia|].
      unfold word_swap. rewrite Ew, bind_Ok, usub_Ok, bind_Ok by lia. eexists _, _, []. split; [reflexivity|]. intros _. exists cl, c. cbn [app]. rewrite Hnx in *.
      apply (load_ok g (AIter it) rest live cl c w (mkIter w (cur_word_index it + 1 + 1) (object_base it) (it_object_size it) (remaining_words it - 1) (cur_word_index it + 1)));
        try done. split_and!; cbn; try done; try lia. by apply (Forall_lookup_1 _ _ _ _ Hok Ew).
  - unfold word_ok in Hw. destruct (bit_list_step (cur_word it)) as (E & Hx & Ht); [lia|]. set (t := trailing_zeros (cur_word it)) in *.
    set (w' := Z.lxor (cur_word it) (Z.shiftl 1 t)) in *. eexists _, _, _. split; [reflexivity|]. intros _. exists cl, c.
    assert (Eh : held (AIter it) = adr (64 * cur_word_index it + t) :: held (AIter (with_word it w'))) by (cbn [held with_word cur_word cur_word_index]; by rewrite E).
    destruct H as [H1 H2 H3 H4 H5 H6 H7 H8 H9 H10]. constructor; sums; try done.
    + etransitivity; [|exact H3]. rewrite !bind_cons, Eh, Hbase, Hsize. cbn [app]. unfold bits. fold (adr (cur_word_index it * 64 + t)).
      replace (cur_word_index it * 64 + t) with (64 * cur_word_index it + t) by lia. apply Permutation_app_head. symmetry. apply Permutation_middle.
    + constructor; [|exact (Forall_inv_tail H5)]. split_and!; cbn; try done. unfold word_ok. lia.
    + intros q [->|Hq]%elem_of_cons Hf; [done|]. apply (H10 q); [by right|done].
Qed.

Lemma step_any g p rest live cl c : sh_freed g = false → inv_at g (p :: rest) live cl c → step_ok g p rest live.
Proof.
  intros Hf H. destruct p.
  - exists Idle, g, []. split; [done|]. eauto.
  - by eapply step_inc.
  - by eapply step_or.
  - by eapply step_push.
  - by eapply step_revoke.
  - by eapply step_bulk_inc.
  - by eapply step_bulk_or.
  - by eapply step_fresh.
  - by eapply step_claim.
  - by eapply step_swap.
  - by eapply step_dec.
  - by eapply step_iter.
Qed.

(** ** All steps *)
Lemma split_thread (ps : list pc) t p : ps !! t = Some p → ∃ rest, ps ≡ₚ p :: rest ∧ ∀ p', <[t:=p']> ps ≡ₚ p' :: rest.
Proof.
  intros E. exists (take t ps ++ drop (S t) ps). split.
  - rewrite <- (take_drop_middle ps t p E) at 1. symmetry. apply Permutation_middle.
  - intros p'. rewrite insert_take_drop by (by eapply lookup_lt_Some). symmetry. apply Permutation_middle.
Qed.

(** When everything is counted the client holds nothing. *)
Lemma counted_all g p rest live cl c : inv_at g (p :: rest) live cl c → c = n_objects m → live = [].
Proof.
  intros H ->. pose proof (inv_bound _ _ _ _ _ _ H) as [Hb _]. pose proof (inv_count _ _ _ _ _ H) as H4. cbn [sum_list_with] in H4.
  pose proof (pending_held p). destruct live; [done|]. cbn [length] in Hb. lia.
Qed.

Lemma drop_ok g p rest live cl c : sh_freed g = false → inv_at g (p :: rest) live cl c → (p = AFresh ∨ ∃ it, p = AIter it ∧ cur_word it = 0) →
  ∃ p' g', drop_slag m g = Ok (p', g') ∧ (sh_freed g' = false → ∃ c', inv_at g' (p' :: rest) live false c') ∧ (sh_freed g' = true → live = []).
Proof.
  intros Hfr H Hp. assert (Hpp : holder p = 1%nat ∧ held p = [] ∧ pending p = 0%nat) by (destruct Hp as [->|(it & -> & E0)]; cbn; rewrite ?E0; done).
  destruct Hpp as (Hh & Hhd & Hpd). destruct (sole_holder _ _ _ _ _ _ H Hh) as (Epipe & Eh & Ec & Ecl). pose proof (inv_bound _ _ _ _ _ _ H) as [Hb Hc0].
  pose proof H as [H1 H2 H3 H4 H5 H6 H7 H8 H9 H10]. pose proof (Forall_inv_tail H5) as Hrest. cbn [sum_list_with] in H4. rewrite Hpd in H4. rewrite Hhd in Hb. cbn [length] in Hb.
  assert (c < 2 ^ 63) by (destruct Hl as (_ & _ & _ & _ & _ & _ & Hn & _); lia).
  unfold drop_slag, rc_unclaim. rewrite H1, rc_unclaim_ok, bind_Ok by lia. cbn [on_slag sh_slag sh_pipe sh_epoch sh_freed].
  destruct cl.
  2: { assert (p = AFresh) as -> by (destruct Hp as [->|(it & -> & _)]; done). eexists _, _. split; [reflexivity|]. split; [done|]. intros _.
       eapply counted_all; [exact H|]. apply (H10 AFresh); [left|done]. }
  destruct (Z.eqb_spec c (n_objects m)) as [En|En]; [eexists _, _; split; [reflexivity|]; split; [done|]; intros _; by eapply counted_all|].
  rewrite bind_cons, Hhd in H3. assert (Hcp : ∀ q, q ∈ rest → full_report (sh_epoch g) q → false) by (intros q Hq Hf; destruct (H10 q); [by right|done|done]).
  destruct (Z.leb_spec (cutoff_objects m) c); eexists _, _; (split; [reflexivity|]); (split; [|cbn; congruence]); intros _; exists c;
    constructor; sums; cbn [rc words set_rc]; rewrite ?Epipe, ?Eh, ?Ec; try done; try lia; try (by constructor);
    intros q [->|Hq]%elem_of_cons Hf; try done; by destruct (Hcp q Hq Hf).
Qed.

Definition inv (c : config) : Prop := ∃ cl n, inv_at c.1.1 c.1.2 c.2 cl n.

(** A thread that neither holds the slag nor has anything counted starts to
    release objects. *)
Lemma inv_begin g p q rest live live' cl c : inv_at g (p :: rest) live cl c → holder q = holder p → claimer q = claimer p → pending p = 0%nat → pending q = 0%nat →
  pc_ok (sh_epoch g) q → ¬ full_report (sh_epoch g) q → held p ++ live ≡ₚ held q ++ live' → inv_at g (q :: rest) live' cl c.
Proof.
  intros [H1 H2 H3 H4 H5 H6 H7 H8 H9 H10] Eh Ec Ep Eq Hok Hnf Hp. unfold holders in *. cbn [sum_list_with] in *.
  constructor; unfold holders; cbn [sum_list_with]; rewrite ?Eh, ?Ec, ?Eq; rewrite ?Ep in *; try done.
  - etransitivity; [|exact H3]. rewrite !bind_cons. apply Permutation_app_head. rewrite <- !app_assoc, !(Permutation_app_comm (_ ≫= held)), !app_assoc, Hp. done.
  - constructor; [done|exact (Forall_inv_tail H5)].
  - intros r [->|Hr]%elem_of_cons Hf; [done|]. apply (H10 r); [by right|done].
Qed.

Lemma proto_step_inv c c' : inv c → cstep m slf c c' → sh_freed c'.1.1 = false → inv c'.
Proof.
  intros (cl & n & H) Hstep. unfold inv.
  destruct Hstep as [g ps live t item live' Hf Ht Hp|g ps live t w mask live' Hf Ht Hw Hm Hne Hp|g ps live t it Hf Ht Hne|g ps live t e Hf Ht|g ps live t k Hf Ht Hk
    |g ps live t p p' g' Hf Ht Hp E|g ps live t p p' g' ev Hf Ht E];
    cbn [fst snd] in *; intros Hf'; destruct (split_thread ps t _ Ht) as (rest & Hperm & Hins); apply (inv_perm _ _ _ _ _ _ Hperm) in H.
  - exists cl, n. apply (inv_perm _ (FInc item :: rest)); [by rewrite Hins|]. eapply inv_begin; first [exact H|done|by rewrite Hp|cbn; tauto].
  - exists cl, n. apply (inv_perm _ (BInc w mask None :: rest)); [by rewrite Hins|]. eapply inv_begin; first [exact H|done|by rewrite Hp|cbn; tauto].
  - exists cl, n. apply (inv_perm _ (BInc (next_word it - 1) (cur_word it) (Some (with_word it 0)) :: rest)); [by rewrite Hins|]. pose proof (Forall_inv (inv_pcs _ _ _ _ _ H)) as Hit. pose proof Hit as (Hw & Hix & Hnx & Hrem & Hrem0 & _).
    eapply inv_begin; [exact H|done|done|done|done| |cbn; tauto|].
    + split_and!; [lia|lia|done|]. intros it' [= <-]. split; [|done]. destruct Hit as [_ Hr]. by split.
    + cbn [held]. by replace (next_word it - 1) with (cur_word_index it) by lia.
  - exists cl, n. apply (inv_perm _ (Idle :: rest)); [by rewrite Hins|]. eapply inv_begin; first [exact H|done|by rewrite Hp|cbn; tauto].
  - exists cl, n. apply (inv_perm _ (AClaim :: rest)); [by rewrite Hins|]. destruct H as [H1 H2 H3 H4 H5 H6 H7 H8 H9 H10]. unfold holders in *. rewrite Hk in *.
    constructor; unfold holders; cbn [sum_list_with holder set_pipe sh_pipe] in *; try done; try lia.
    + constructor; [done|exact (Forall_inv_tail H5)].
    + intros ? ?. apply H9; [done|lia].
    + intros q [->|Hq]%elem_of_cons Hfr; [done|]. apply (H10 q); [by right|done].
  - destruct (drop_ok g p rest live cl n Hf H Hp) as (p2 & g2 & E2 & Hinv & _). rewrite E in E2. injection E2 as <- <-. destruct (Hinv Hf') as (c2 & Hc2).
    exists false, c2. apply (inv_perm _ (p' :: rest)); [by rewrite Hins|done].
  - destruct (step_any g p rest live cl n Hf H) as (p2 & g2 & ev2 & E2 & Hinv). rewrite E in E2. injection E2 as <- <- <-. destruct Hinv as (cl2 & c2 & Hc2); [congruence|].
    exists cl2, c2. apply (inv_perm _ (p' :: rest)); [by rewrite Hins|done].
Qed.

Lemma start_inv s k : rc s = rc_word false (n_objects m) → full_words (bits_per_object m) (n_objects m) (n_bitset_words m) (words s) → inv (start s k).
Proof.
  intros Hrc Hfw. pose proof Hl as (_ & Hb & Ho & _ & _ & _ & Hn & HW & _). destruct (full_words_bits _ (n_objects m) _ _ Hb ltac:(lia) HW Hfw) as [Hok Hbits].
  exists false, (n_objects m). unfold start. cbn [fst snd].
  assert (Hidle : ∀ f : pc → nat, f Idle = 0%nat → sum_list_with f (replicate k Idle) = 0%nat) by (intros f Hf; induction k; cbn; lia).
  assert (Hheld : replicate k Idle ≫= held = []) by (clear; induction k as [|k IH]; [done|exact IH]).
  constructor; unfold holders; cbn [sh_slag sh_pipe sh_epoch sum_list_with holder claimer pending]; rewrite ?Hidle by done; try done; try lia.
  - split; [done|]. apply Hfw.
  - rewrite bind_cons, Hheld. cbn [held app]. rewrite app_nil_r, Hbits. unfold all_objects. rewrite <- list_fmap_compose. erewrite list_fmap_ext; [done|].
    intros i j _. cbn. apply adr_object.
  - rewrite Hbits, length_fmap, length_zrange. lia.
  - constructor; [done|]. apply Forall_replicate. done.
Qed.

Lemma reach_inv s k c : rc s = rc_word false (n_objects m) → full_words (bits_per_object m) (n_objects m) (n_bitset_words m) (words s) →
  rtc (cstep m slf) (start s k) c → sh_freed c.1.1 = false → inv c.
Proof.
  intros Hrc Hfw Hr. revert c Hr. apply (rtc_ind_r (fun c => sh_freed c.1.1 = false → inv c)); [intros _; by apply start_inv|].
  intros c c' _ Hstep IH Hf'. eapply proto_step_inv; [apply IH|exact Hstep|exact Hf']. by destruct Hstep.
Qed.

(** Only a revocation gives the page back. *)
Lemma tstep_freed g p p' g' ev : sh_freed g = false → tstep m slf g p = Ok (p', g', ev) → sh_freed g' = true → ∃ e, p = FRevoke e ∧ ev = [].
Proof.
  intros Hf E Hf'. destruct p; cbn [tstep] in E;
    repeat (first [apply res_bind_Ok in E as (? & ? & E) | case_match]); simplify_eq; cbn in Hf'; try congruence; try (by eexists).
  all: unfold unclaim in *; inv_res; repeat case_match; inv_res; cbn in *; congruence.
Qed.

(** C3: the life cycle of a slag is safe.  Whatever threads allocate from a
    slag, free its objects one by one or release several of one word at once,
    pass it on and drop it, in any interleaving of their atomic operations,
    until its page is given back: no assertion of the code fails; the objects
    the client holds are distinct objects of the slag and what a thread hands
    out next is not among them; at most one thread has claimed the slag; when
    no operation is under way, the count is the number of objects the client
    does not hold, and the slag is in the pipe of available slags once if the
    count has reached the cutoff and not at all if it has not, with one
    exception: after a bulk release that took the unclaimed slag from below the
    cutoff to full, it may be full and in no pipe (it is lost, see
    [bulk_free_loses_slag]); the page is given back only when the client holds
    nothing, unless by the late revocation of a thread that reported the slag
    full before it was last claimed. *)
Theorem slag_protocol_safe (s : SlagS) (k : nat) (g : Sh) (ps : list pc) (live : list Z) :
  rc s = rc_word false (n_objects m) → full_words (bits_per_object m) (n_objects m) (n_bitset_words m) (words s) →
  rtc (cstep m slf) (start s k) (g, ps, live) → sh_freed g = false →
  (∀ p, p ∈ ps → ∃ p' g' ev, tstep m slf g p = Ok (p', g', ev) ∧ (sh_freed g' = false → NoDup (ev ++ live) ∧ ev ++ live ⊆ all_objects)) ∧
  (sum_list_with claimer ps ≤ 1)%nat ∧
  (Forall (eq Idle) ps → ∃ c, rc (sh_slag g) = rc_word false c ∧ c = n_objects m - Z.of_nat (length live) ∧
     (sh_pipe g = 1%nat ∧ cutoff_objects m ≤ c ∨ sh_pipe g = 0%nat ∧ (c < cutoff_objects m ∨ sh_lost g = true ∧ live = []))) ∧
  (∀ g' ps' live', cstep m slf (g, ps, live) (g', ps', live') → sh_freed g' = true → live' = [] ∨ ∃ e, FRevoke e ∈ ps ∧ e < sh_epoch g).
Proof.
  intros Hrc Hfw Hr Hf. destruct (reach_inv s k (g, ps, live) Hrc Hfw Hr Hf) as (cl & c & H). cbn [fst snd] in H. split; [|split; [|split]].
  - intros p (t & Ht)%list_elem_of_lookup. destruct (split_thread ps t p Ht) as (rest & Hperm & Hins). apply (inv_perm _ _ _ _ _ _ Hperm) in H.
    destruct (step_any g p rest live cl c Hf H) as (p' & g' & ev & E & Hinv). exists p', g', ev. split; [done|]. intros Hf'. destruct Hinv as (cl' & c' & H'); [congruence|].
    apply inv_objects in H'. pose proof all_objects_NoDup as Hnd. rewrite <- H' in Hnd. apply NoDup_app in Hnd as (_ & _ & Hnd). apply NoDup_app in Hnd as (_ & _ & Hnd). split; [done|].
    intros x Hx. rewrite <- H'. apply elem_of_app. right. apply elem_of_app. by right.
  - rewrite (inv_claim _ _ _ _ _ H). destruct cl; lia.
  - intros Hidle. destruct H as [H1 H2 H3 H4 H5 H6 H7 H8 H9 H10]. unfold holders in *.
    assert (Hz : ∀ f : pc → nat, f Idle = 0%nat → sum_list_with f ps = 0%nat) by (clear -Hidle; intros f Hf; induction Hidle as [|? ? <- ? IH]; cbn; [done|lia]).
    assert (Hh : ps ≫= held = []) by (clear -Hidle; induction Hidle as [|? ? <- ? IH]; [done|exact IH]).
    rewrite !Hz in * by done. destruct cl; [done|]. exists c. split; [done|]. pose proof (Permutation_length H3) as Hlen. unfold all_objects in Hlen.
    rewrite Hh, app_nil_l, length_app, !length_fmap, length_zrange in Hlen. destruct Hl as (_ & _ & _ & _ & _ & _ & Hn & _). split; [lia|].
    destruct (sh_pipe g) as [|[|]]; [right|left|lia]; split; try done; [|by apply H9]. destruct H8 as [?|[? ?]]; [done|by left|right].
    split; [done|]. apply length_zero_iff_nil. lia.
  - intros g' ps' live' Hstep Hf'. remember (g, ps, live) as c0 eqn:E0. remember (g', ps', live') as c1 eqn:E1.
    destruct Hstep as [ | | | | |g1 ps1 l1 t p p' g2 _ Ht Hp E|g1 ps1 l1 t p p' g2 ev _ Ht E];
      injection E0 as -> -> ->; injection E1 as <- <- <-; cbn in Hf'; try congruence.
    all: destruct (split_thread ps t p Ht) as (rest & Hperm & _); pose proof (inv_perm _ _ _ _ _ _ Hperm H) as H'.
    + left. destruct (drop_ok g p rest live cl c Hf H' Hp) as (p2 & g3 & E2 & _ & Hfree). rewrite E in E2. injection E2 as <- <-. by apply Hfree.
    + assert (∃ e, p = FRevoke e ∧ ev = []) as (e & -> & ->).
      { by eapply tstep_freed. }
      destruct (decide (e = sh_epoch g)) as [->|Hne].
      * left. cbn. eapply counted_all; [exact H'|]. apply (inv_full _ _ _ _ _ H' (FRevoke (sh_epoch g))); [left|done].
      * right. exists e. split; [by eapply list_elem_of_lookup_2|]. pose proof (Forall_inv (inv_pcs _ _ _ _ _ H')) as Hok. cbn in Hok. lia.
Qed.
End inv.

(** ** The steps and the sequential code *)

(** What a thread does after [Slag::free]. *)
Definition after_free (t : Transition) (epoch : Z) : pc := match t with Null => Idle | Available => FPush | Full => FRevoke epoch end.

(** A thread that runs alone performs exactly the
    sequential operations: counting and marking an object is [Slag::free] (with
    the same report), claiming the first word is [Slag::refresh], loading a
    further word is [AllocIter::refresh_word], and handing out an object is
    [AllocIter::next]. *)
Lemma protocol_steps_are_the_code (m : Metadata) (slf : Z) (g : Sh) :
  (∀ item t s', Slag.free m slf item (sh_slag g) = Ok (t, s') →
     ∃ p g1, tstep m slf g (FInc item) = Ok (p, g1, []) ∧ tstep m slf g1 p = Ok (after_free t (sh_epoch g), on_slag g s', [])) ∧
  (∀ it s', Slag.refresh slf m (sh_slag g) = Ok (it, s') →
     ∃ p g1, tstep m slf g ASwap = Ok (p, g1, []) ∧ tstep m slf g1 p = Ok (AIter it, on_slag g s', [])) ∧
  (∀ it it' s', word_ok (cur_word it) → cur_word it = 0 → remaining_words it ≠ 0 → Iter.refresh_word it (sh_slag g) = Ok (it', s') →
     ∃ p g1, tstep m slf g (AIter it) = Ok (p, g1, []) ∧ tstep m slf g1 p = Ok (AIter it', on_slag g s', [])) ∧
  (∀ it, word_ok (cur_word it) → cur_word it ≠ 0 →
     ∃ x it', Iter.next it (sh_slag g) = Ok ((Some x, it'), sh_slag g) ∧ tstep m slf g (AIter it) = Ok (AIter it', g, [x])).
Proof.
  split; [|split; [|split]].
  - intros item t s' E. unfold Slag.free in E. apply lift_bind_inv in E as (lim & E1 & E). apply lift_bind_inv in E as ([] & E2 & E).
    apply lift_bind_inv in E as ([w ix] & E3 & E). apply M_bind_Ok in E as ([cl was] & s1 & E4 & E). apply M_bind_Ok in E as (x & s2 & E5 & E).
    eexists _, _. split; [cbn [tstep]; rewrite E1, bind_Ok, E2, bind_Ok, E3, bind_Ok, E4, bind_Ok; reflexivity|].
    cbn [tstep on_slag sh_slag]. rewrite E5, bind_Ok. unfold transition. destruct cl; cbn [negb] in *.
    + injection E as <- <-. done.
    + apply lift_bind_inv in E as (c & -> & E). rewrite bind_Ok. destruct (was =? c); [by injection E as <- <-|].
      apply lift_bind_inv in E as (n & -> & E). rewrite bind_Ok. injection E as <- <-. by destruct (was =? n).
  - intros it s' E. unfold Slag.refresh, Iter.new in E. apply M_bind_Ok in E as (w & s1 & E1 & E). apply M_bind_Ok in E as (r & s2 & E2 & E).
    apply lift_bind_inv in E as (rem & E3 & E). injection E as <- <-. eexists _, _. split; [cbn [tstep]; rewrite E1, bind_Ok, E3, bind_Ok; reflexivity|].
    cbn [tstep on_slag sh_slag cur_word]. by rewrite E2, bind_Ok.
  - intros it it' s' Hw E0 Hr E. unfold Iter.refresh_word in E. apply M_bind_Ok in E as (w & s1 & E1 & E). apply M_bind_Ok in E as (r & s2 & E2 & E).
    apply lift_bind_inv in E as (rem & E3 & E). injection E as <- <-. eexists _, _. split.
    { cbn [tstep]. rewrite trailing_zeros_64, (proj2 (Z.eqb_eq _ 0) E0), (proj2 (Z.eqb_neq _ 0) Hr) by done. rewrite E1, bind_Ok, E3, bind_Ok. reflexivity. }
    cbn [tstep on_slag sh_slag cur_word]. by rewrite E2, bind_Ok.
  - intros it Hw Hne. unfold Iter.next. cbn [Iter.next_loop tstep]. rewrite trailing_zeros_64, (proj2 (Z.eqb_neq _ 0) Hne) by done. by eexists _, _.
Qed.

(** Counting and marking the objects of a mask is [bulk_free]. *)
Lemma bulk_steps_are_the_code (m : Metadata) (slf : Z) (g : Sh) (w mask : Z) p g' : count_ones mask ≠ 0 → bulk_free m g mask w = Ok (p, g') →
  ∃ q g1 l, tstep m slf g (BInc w mask None) = Ok (q, g1, []) ∧ tstep m slf g1 q = Ok (p, mkSh (sh_slag g') (sh_pipe g') (sh_epoch g') (sh_freed g') l, []).
Proof.
  intros Hne E. unfold bulk_free in E. rewrite (proj2 (Z.eqb_neq _ 0) Hne) in E. apply res_bind_Ok in E as ([[cl was] s1] & E1 & E).
  apply res_bind_Ok in E as ([before s2] & E2 & E). apply res_bind_Ok in E as ([] & E3 & E). apply res_bind_Ok in E as (now & E4 & E). injection E as <- <-.
  eexists _, _, _. split; [cbn [tstep]; rewrite E1, bind_Ok; reflexivity|]. cbn [tstep note_lost on_slag sh_slag]. rewrite E2, bind_Ok, E3, bind_Ok, E4, bind_Ok.
  unfold resume, bulk_transition. destruct cl; [done|]. cbn [negb]. destruct (now =? n_objects m); [done|]. by destruct (was <? _), (_ <=? now).
Qed.

(** C29: bulk release loses slags.  When [bulk_free] takes a floating slag from
    below the cutoff to full, it only tries to revoke the slag from the pipe in
    which it is not: the slag ends up full, unclaimed and in no pipe, where no
    further release can make it available. *)
Theorem bulk_free_loses_slag (m : Metadata) (slf : Z) (g : Sh) (c mask w x : Z) :
  rc (sh_slag g) = rc_word false c → 0 ≤ c < cutoff_objects m → c + count_ones mask = n_objects m → n_objects m < 2 ^ 63 → sh_pipe g = 0%nat →
  words (sh_slag g) !! Z.to_nat w = Some x → Z.land x mask = 0 → 0 < count_ones mask →
  ∃ g', bulk_free m g mask w = Ok (FRevoke (sh_epoch g), g') ∧ tstep m slf g' (FRevoke (sh_epoch g)) = Ok (Idle, g', []) ∧
    rc (sh_slag g') = rc_word false (n_objects m) ∧ sh_pipe g' = 0%nat ∧ sh_freed g' = sh_freed g.
Proof.
  intros Hrc Hc Hn Hb Hp Hw Hx Hm. eexists. split.
  { unfold bulk_free. rewrite (proj2 (Z.eqb_neq (count_ones mask) 0)) by lia. unfold rc_inc. rewrite Hrc, rc_inc_ok, bind_Ok by lia.
  unfold word_fetch_or. cbn [words set_rc]. rewrite Hw, bind_Ok, (proj2 (Z.eqb_eq _ 0) Hx). cbn [rassert]. rewrite bind_Ok, uadd_Ok, bind_Ok by lia.
  rewrite Hn, (proj2 (Z.eqb_eq (n_objects m) _)) by done. reflexivity. }
  unfold tstep. cbn [on_slag sh_pipe]. rewrite Hp. split; [reflexivity|]. cbn. split; [reflexivity|done].
Qed.

(** ** Late revocations *)

(** Three objects of 16 bytes in a slag at 8192, available from one on. *)
Definition meta3 : Metadata := mkMeta 16 3 1 4096 64 80 (2 ^ 64 - 1) 4 0 1 128 SmallSlag.
Definition slag3 : SlagS := mkSlag SmallSlag 0 3 0 [7].

(** Thread 0 allocates everything; thread 1 returns two objects, which makes
    the slag available, and counts and marks the third. *)
Definition until_full : list action :=
  replicate 8 (Go 0) ++ [StartFree 1 8272; Go 1; Go 1; Go 1; StartFree 1 8288; Go 1; Go 1; StartFree 1 8304; Go 1; Go 1].

(** Then thread 0 takes the slag again and uses it up, thread 2 returns one
    object, and only now does thread 1 revoke. *)
Definition late_revoke : list action :=
  until_full ++ Pop 0 :: replicate 7 (Go 0) ++ [StartFree 2 8272; Go 2; Go 2; Go 2; Go 1].

(** Thread 2 has counted an object but not yet marked it when thread 1, who
    returns the last one, revokes. *)
Definition early_revoke : list action :=
  replicate 8 (Go 0) ++ [StartFree 1 8272; Go 1; Go 1; Go 1; StartFree 2 8288; Go 2; StartFree 1 8304; Go 1; Go 1; Go 1].

(** C28: a page can be given back while it is in use.  The report that a slag
    is full and its revocation are separate steps.  There is an execution in
    which a thread revokes a slag that was claimed and used up since its
    report: the page is given back while the client holds two of its objects.
    There is another in which the page is given back while a second thread has
    still to mark an object in its bit-set, and will write to the page later. *)
Theorem slag_revoked_in_use :
  (∃ g ps live, rtc (cstep meta3 8192) (start slag3 2) (g, ps, live) ∧ sh_freed g = true ∧ live = [8304; 8288]) ∧
  (∃ g ps w ix, rtc (cstep meta3 8192) (start slag3 2) (g, ps, []) ∧ sh_freed g = true ∧ FOr w ix false 1 1 ∈ ps ∧ words (sh_slag g) = [5]).
Proof.
  split.
  - destruct (schedule meta3 8192 late_revoke (start slag3 2)) as [[[g ps] live]|] eqn:E; [|by vm_compute in E].
    exists g, ps, live. split; [by eapply schedule_sound|]. vm_compute in E. by injection E as <- <- <-.
  - destruct (schedule meta3 8192 early_revoke (start slag3 2)) as [[[g ps] live]|] eqn:E; [|by vm_compute in E].
    exists g, ps, 0, 1. pose proof (schedule_sound _ _ _ _ _ E) as Hr. vm_compute in E. injection E as <- <- <-. split; [exact Hr|]. split; [done|]. split; [|done].
    right. right. left.
Qed.

(** The owner has used up the slag; thread 1 has counted an object but not yet
    marked it when the owner, who sees the count, claims the slag again. *)
Definition early_refresh : list action := replicate 7 (Go 0) ++ [StartFree 1 8272; Go 1; Go 0; Go 0].

(** C32: a refreshed iterator can be empty.  The count of a slag runs ahead of
    its bit-set, and [refresh] decides by the count.  There is an execution in
    which a thread claims a slag because the count has reached the cutoff, and
    the iterator [Slag::refresh] makes of it has no object: the caches, which
    expect one, panic. *)
Theorem refreshed_slag_can_be_empty :
  ∃ g ps live it s', rtc (cstep meta3 8192) (start slag3 2) (g, ps, live) ∧ sh_freed g = false ∧ ps !! 0%nat = Some ASwap ∧
    cutoff_objects meta3 ≤ (RC.load (rc (sh_slag g))).2 ∧ Slag.refresh 8192 meta3 (sh_slag g) = Ok (it, s') ∧ ∃ s'', Iter.next it s' = Ok ((None, it), s'').
Proof.
  destruct (schedule meta3 8192 early_refresh (start slag3 2)) as [[[g ps] live]|] eqn:E; [|by vm_compute in E]. pose proof (schedule_sound _ _ _ _ _ E) as Hr.
  vm_compute in E. injection E as <- <- <-. eexists _, _, _, _, _. split; [exact Hr|]. do 2 (split; [reflexivity|]). split; [by vm_compute|]. split; [by vm_compute|]. eexists. by vm_compute.
Qed.

(** ** Witnesses *)
Lemma meta3_layout : layout_ok 16 128 4096 meta3.
Proof. unfold layout_ok. cbv zeta. split_and!; try (by vm_compute); intros _; by vm_compute. Qed.

Lemma slag3_full : full_words (bits_per_object meta3) (n_objects meta3) (n_bitset_words meta3) (words slag3).
Proof.
  split; [done|]. intros u Hu. assert (u = 0) as -> by (cbn in Hu; lia). exists 7. split; [done|]. split; [done|]. intros i Hi.
  assert (Hall : forallb (fun i => eqb (Z.testbit 7 i) (((64 * 0 + i) mod bits_per_object meta3 =? 0) && (64 * 0 + i <? n_objects meta3 * bits_per_object meta3))) (zrange 0 64) = true)
    by (by vm_compute).
  rewrite forallb_forall in Hall. apply eqb_prop, Hall, list_elem_of_In, elem_of_zrange, Hi.
Qed.

(** Thread 0 allocates everything; thread 1 returns it all at once. *)
Definition bulk_all : list action := replicate 8 (Go 0) ++ [StartBulk 1 0 7; Go 1; Go 1; Go 1].

Lemma slag_protocol_safe_witness :
  (∃ g ps live, rtc (cstep meta3 8192) (start slag3 2) (g, ps, live) ∧ live ≠ [] ∧ (sum_list_with claimer ps ≤ 1)%nat) ∧
  (∃ g ps live c, rtc (cstep meta3 8192) (start slag3 2) (g, ps, live) ∧ sh_lost g = true ∧ sh_pipe g = 0%nat ∧ rc (sh_slag g) = rc_word false c ∧ c = 3 - Z.of_nat (length live)).
Proof.
  split.
  - destruct (schedule meta3 8192 (replicate 6 (Go 0)) (start slag3 2)) as [[[g ps] live]|] eqn:E; [|by vm_compute in E].
    assert (Hr : rtc (cstep meta3 8192) (start slag3 2) (g, ps, live)) by (by eapply schedule_sound).
    assert (Hf : sh_freed g = false ∧ live ≠ []) by (vm_compute in E; injection E as <- <- <-; done).
    exists g, ps, live. split; [exact Hr|]. split; [exact (proj2 Hf)|].
    destruct (slag_protocol_safe meta3 8192 16 128 4096 meta3_layout) with (s := slag3) (k := 2%nat) (g := g) (ps := ps) (live := live) as (_ & H & _);
      [discriminate|split; [discriminate|reflexivity]|discriminate|reflexivity|exact slag3_full|exact Hr|exact (proj1 Hf)|exact H].
  - destruct (schedule meta3 8192 bulk_all (start slag3 2)) as [[[g ps] live]|] eqn:E; [|by vm_compute in E].
    assert (Hr : rtc (cstep meta3 8192) (start slag3 2) (g, ps, live)) by (by eapply schedule_sound).
    assert (Hf : sh_freed g = false ∧ Forall (eq Idle) ps ∧ sh_lost g = true ∧ sh_pipe g = 0%nat) by (vm_compute in E; injection E as <- <- <-; by repeat constructor).
    destruct Hf as (Hf & Hidle & Hlost & Hpipe).
    destruct (slag_protocol_safe meta3 8192 16 128 4096 meta3_layout) with (s := slag3) (k := 2%nat) (g := g) (ps := ps) (live := live) as (_ & _ & H & _);
      [discriminate|split; [discriminate|reflexivity]|discriminate|reflexivity|exact slag3_full|exact Hr|exact Hf|].
    destruct (H Hidle) as (c & Hrc & Hc & _). exists g, ps, live, c. split; [exact Hr|]. split; [exact Hlost|]. split; [exact Hpipe|]. split; [exact Hrc|exact Hc].
Defined.

Lemma bulk_free_loses_slag_witness :
  ∃ g', bulk_free meta3 (mkSh (mkSlag SmallSlag 0 0 0 [0]) 0 0 false false) 7 0 = Ok (FRevoke 0, g') ∧ sh_pipe g' = 0%nat.
Proof.
  destruct (bulk_free_loses_slag meta3 8192 (mkSh (mkSlag SmallSlag 0 0 0 [0]) 0 0 false false) 0 7 0 0) as (g' & H & _ & _ & Hp & _);
    [reflexivity|split; [discriminate|reflexivity]|reflexivity|reflexivity|reflexivity|reflexivity|reflexivity|reflexivity|].
  exists g'. split; [exact H|exact Hp].
Defined.
