(* ===== verification/ElfGeneral.v ===== *)
(** * The dynamic allocator of elfmalloc

    Models [src/elfmalloc/src/general.rs]: the type stamps at 2 MiB boundaries
    ([round_to_page], [get_type]), the large allocations of [large_alloc], and
    [ElfMalloc] (construction, [alloc], [realloc], [free], layouts) over the
    size classes of SizeClasses.  The object allocators of the classes are used
    through the trait [Frontend] of [src/elfmalloc/src/frontends.rs]. *)

From Stdlib Require Import ZArith Lia.
From S2P Require Import Prelude StdAlloc Backing MmapAlloc ElfSources F64 SlagMeta SlagBits SizeClasses ClassMeta.
From stdpp Require Import base numbers list gmap option fin_maps.

Open Scope Z_scope.

(** [large_alloc::AllocInfo]. *)
Record AllocInfo := mkInfo { ai_ty : AllocType; ai_base : Z; ai_region_size : Z }.

(** What can be found at a 2 MiB boundary: the first field of a [Slag] or the
    stamp of a page allocator, or the record of a large allocation. *)
Inductive Header := Stamp (t : AllocType) | Info (i : AllocInfo).

Definition header_type (h : Header) : AllocType := match h with Stamp t => t | Info i => ai_ty i end.

(** Memory: the system's pages and bytes; the headers, the metadata pointers of
    slags and the metadata records by address. *)
Record EHeap (K : Type) := mkHeap { eh_k : K; eh_hdr : gmap Z Header; eh_slag : gmap Z Z; eh_meta : gmap Z Metadata }.
Arguments mkHeap {K}. Arguments eh_k {K}. Arguments eh_hdr {K}. Arguments eh_slag {K}. Arguments eh_meta {K}.

Definition on_k {K A} (m : M K A) : M (EHeap K) A := fun h =>
  match m (eh_k h) with Ok (a, k') => Ok (a, mkHeap k' (eh_hdr h) (eh_slag h) (eh_meta h)) | Fault f => Fault f end.

(** The bytes of an [AllocInfo] and of a [Metadata]. *)
Definition info_size : Z := 24.
Definition metadata_size : Z := 96.

Definition round_to_page (item : Z) : Z := Z.land item (unot (ELFMALLOC_PAGE_SIZE - 1)).

Section memory.
Context {K : Type} `{!Kernel K}.

Definition readable (h : EHeap K) (a n : Z) : bool := bool_decide (pages_of k_page a n ⊆ k_mapped (eh_k h)).

Definition load_header (a : Z) : M (EHeap K) Header := fun h =>
  if readable h a info_size then match eh_hdr h !! a with Some x => Ok (x, h) | None => Fault BadAccess end else Fault BadAccess.

Definition store_info (a : Z) (i : AllocInfo) : M (EHeap K) unit := fun h =>
  if readable h a info_size then Ok (tt, mkHeap (eh_k h) (<[a := Info i]> (eh_hdr h)) (eh_slag h) (eh_meta h)) else Fault BadAccess.

Definition load_info (a : Z) : M (EHeap K) AllocInfo :=
  x ← load_header a; match x with Info i => mret i | Stamp _ => throw BadAccess end.

Definition store_meta (a : Z) (m : Metadata) : M (EHeap K) unit := fun h =>
  if readable h a metadata_size then Ok (tt, mkHeap (eh_k h) (eh_hdr h) (eh_slag h) (<[a := m]> (eh_meta h))) else Fault BadAccess.

(** [Slag::get_metadata]. *)
Definition get_metadata (slag : Z) : M (EHeap K) Metadata := fun h =>
  match eh_slag h !! slag ≫= (fun p => eh_meta h !! p) with Some m => Ok (m, h) | None => Fault BadAccess end.

Definition write_byte (a v : Z) : M (EHeap K) unit := fun h =>
  if readable h a 1 then Ok (tt, mkHeap (k_write (eh_k h) a v) (eh_hdr h) (eh_slag h) (eh_meta h)) else Fault BadAccess.

Definition read_byte (a : Z) : M (EHeap K) Z := fun h => if readable h a 1 then Ok (k_byte (eh_k h) a, h) else Fault BadAccess.

(** [ptr::copy_nonoverlapping]. *)
Definition copy_nonoverlapping (src dst n : Z) : M (EHeap K) unit :=
  mfor (fun i => b ← read_byte (src + i); write_byte (dst + i) b) (zrange 0 n).

Definition get_type (item : Z) : M (EHeap K) AllocType :=
  p ← lift (usub item 1);
  x ← load_header (round_to_page p);
  mret (header_type x).
End memory.

(** ** [large_alloc] *)
Module LargeAlloc.
Section ops.
Context {K : Type} `{!Kernel K}.

Definition get_commitment_mut (item : Z) : res Z := p ← usub item 1; Ok (round_to_page p).

Definition get_commitment (item : Z) : M (EHeap K) (Z * Z) :=
  meta_addr ← lift (get_commitment_mut item);
  i ← load_info meta_addr;
  mret (ai_region_size i, ai_base i).

Definition alloc (size : Z) : M (EHeap K) Z :=
  region_size ← lift (uadd size ELFMALLOC_PAGE_SIZE);
  src ← lift (MSrc.new ELFMALLOC_SMALL_CUTOFF);
  let n_pages := region_size / ELFMALLOC_SMALL_CUTOFF + Z.min 1 (region_size mod ELFMALLOC_SMALL_CUTOFF) in
  r ← on_k (MSrc.carve src n_pages);
  mem ← lift (unwrap r);
  res ← lift (uadd mem ELFMALLOC_PAGE_SIZE);
  addr ← lift (get_commitment_mut res);
  _ ← store_info addr (mkInfo Large mem region_size);
  _ ← lift (rassert (negb (mem =? 0)));
  _ ← lift (rassert (mem mod ELFMALLOC_SMALL_CUTOFF =? 0));
  _ ← lift (rassert (mem mod 4096 =? 0));
  _ ← lift (rassert (res mod 4096 =? 0));
  c ← get_commitment res;
  _ ← lift (rassert (bool_decide (c = (size + ELFMALLOC_PAGE_SIZE, mem))));
  mret res.

Definition free (item : Z) : M (EHeap K) unit :=
  '(size, base_ptr) ← get_commitment item;
  if (size =? 0) && (base_ptr =? 0) then mret tt
  else
    _ ← write_byte item 10;
    _ ← lift (rassert (base_ptr mod k_page =? 0));
    on_k (EMap.unmap base_ptr size).

Definition get_size (item : Z) : M (EHeap K) Z :=
  '(size, _) ← get_commitment item;
  lift (usub size ELFMALLOC_PAGE_SIZE).
End ops.
End LargeAlloc.

(** ** Page allocators and frontends *)

(** [slag::PageAlloc]: its configuration ([clean] and [dirty] are bags of two
    and [pipe_size] queues). *)
Record PageAlloc := mkPageAlloc { pa_target_overhead : Z; pa_creek : MmapSource; pa_pages_per : Z; pa_aligned_source : MmapSource; pa_pipe_size : Z; pa_ty : AllocType }.

Module PA.
Definition new_aligned (page_size target_overhead pipe_size align : Z) (t : AllocType) : res PageAlloc :=
  _ ← rassert (page_size <=? align);
  _ ← rassert (is_power_of_two page_size);
  _ ← rassert (is_power_of_two align);
  pages_per ← udiv align page_size;
  creek ← MSrc.new page_size;
  creek_2 ← (if 1 <? pages_per then MSrc.new align else Ok creek);
  Ok (mkPageAlloc target_overhead creek pages_per creek_2 pipe_size t).

Definition new (page_size target_overhead pipe_size : Z) (t : AllocType) : res PageAlloc :=
  new_aligned page_size target_overhead pipe_size page_size t.

(** [backing_memory().page_size()]. *)
Definition page_size (p : PageAlloc) : Z := ms_page_size (pa_creek p).
End PA.

(** The parameters of the object allocator of a class: its metadata, the
    decommit threshold, its pages, and the width and page size of the pipe of
    available slags. *)
Record ObjParams := mkParams { op_meta : Z; op_decommit : Z; op_pages : PageAlloc; op_pipe : Z * Z }.

(** The trait [Frontend]. *)
Class Frontend (FE H : Type) := {
  fe_init : ObjParams → M H FE;
  fe_alloc : FE → M H (Z * FE);
  fe_free : FE → Z → M H FE
}.

(** ** [ElfMalloc] *)
Record ElfMalloc (AM : Type → Type) (FE : Type) := mkElf {
  small_pages : PageAlloc;
  large_pages : PageAlloc;
  allocs : AM (Lazy ObjParams FE);
  max_size : Z;
  start_from : Z;
  n_classes : Z
}.
Arguments mkElf {AM FE}. Arguments small_pages {AM FE}. Arguments large_pages {AM FE}. Arguments allocs {AM FE}.
Arguments max_size {AM FE}. Arguments start_from {AM FE}. Arguments n_classes {AM FE}.

Module Elf.
Section ops.
Context {K : Type} `{!Kernel K} {AM : Type → Type} {Slot : Type} `{!AllocMap AM Slot} {FE : Type} `{!Frontend FE (EHeap K)}.

(** Run a computation with a local variable, initially [c]. *)
Definition with_local {S C A} (c : C) (m : M (S * C) A) : M S A := fun s =>
  match m (s, c) with Ok (a, (s', _)) => Ok (a, s') | Fault f => Fault f end.

(** The array of classes ([TypedArray::new]), next to a local variable;
    [class_size] is the size of a class, which depends on the object allocator. *)
Definition class_array {C} (class_size n : Z) : M (EHeap K * C) TypedArray := fun '(h, c) =>
  '(a, h') ← on_k (TA.new class_size n) h; Ok (a, (h', c)).

(** The closure of [new_internal]: it writes the metadata of the class behind
    [meta_pointer] (the second component of the state) and advances it. *)
Definition new_class (cutoff_factor : f64) (pa_small pa_large : PageAlloc) (size : Z) : M (EHeap K * Z) (Lazy ObjParams FE) := fun '(h, meta_pointer) =>
  let '(u_size, pa, t) := if size <? ELFMALLOC_SMALL_CUTOFF then (PA.page_size pa_small, pa_small, SmallSlag) else (PA.page_size pa_large, pa_large, BigSlag) in
  m ← Meta.compute_metadata size (PA.page_size pa) 0 cutoff_factor u_size t;
  '(_, h') ← store_meta meta_pointer m h;
  Ok (Lz.new (mkParams meta_pointer (Z.shiftl 1 20) pa (16, PA.page_size pa)), (h', meta_pointer + metadata_size)).

Definition new_internal (class_size : Z) (cutoff_factor : f64) (pa_small pa_large : PageAlloc) (start n : Z) : M (EHeap K) (ElfMalloc AM FE) :=
  bytes ← lift (umul metadata_size n);
  meta_pointer ← on_k (EMap.map bytes);
  am ← with_local meta_pointer (init_conserve (AM := AM) (class_array class_size) start n (new_class cutoff_factor pa_small pa_large));
  mret (mkElf pa_small pa_large am (max_key am) start n).

Definition new (class_size : Z) : M (EHeap K) (ElfMalloc AM FE) :=
  pa_large ← lift (PA.new ELFMALLOC_PAGE_SIZE (Z.shiftl 1 20) 8 BigSlag);
  pa_small ← lift (PA.new_aligned ELFMALLOC_SMALL_PAGE_SIZE (Z.shiftl 1 20) 8 ELFMALLOC_PAGE_SIZE SmallSlag);
  new_internal class_size f0_6 pa_small pa_large 8 25.

(** [Clone]: a class is cloned as an uninitialized cell with the same
    parameters. *)
Definition clone (class_size : Z) (e : ElfMalloc AM FE) : M (EHeap K) (ElfMalloc AM FE) :=
  am ← clone_classes (fun n => on_k (TA.new class_size n)) (fun c => mret (Lz.clone c)) (start_from e) (n_classes e) (allocs e);
  mret (mkElf (small_pages e) (large_pages e) am (max_size e) (start_from e) (n_classes e)).

(** Run an operation on the object allocator of the class of [k]
    ([allocs.get_mut(k)], dereferenced through [Lazy]). *)
Definition with_class {A} (e : ElfMalloc AM FE) (k : Z) (op : FE → M (EHeap K) (A * FE)) : M (EHeap K) (A * ElfMalloc AM FE) :=
  i ← lift (get_raw (allocs e) k);
  cell ← lift (deref (at_slot (allocs e) i));
  fe ← (match lazy_val cell with Some v => mret v | None => fe_init (lazy_params cell) end);
  '(a, fe') ← op fe;
  mret (a, mkElf (small_pages e) (large_pages e) (set_slot (allocs e) i (mkLazy (lazy_params cell) (Some fe'))) (max_size e) (start_from e) (n_classes e)).

Definition get_page_size (e : ElfMalloc AM FE) (item : Z) : M (EHeap K) (option Z) :=
  if negb (item mod ELFMALLOC_SMALL_CUTOFF =? 0) then mret (Some ELFMALLOC_SMALL_PAGE_SIZE)
  else
    t ← get_type item;
    match t with
    | SmallSlag => _ ← lift (rassert (PA.page_size (small_pages e) =? ELFMALLOC_SMALL_PAGE_SIZE)); mret (Some ELFMALLOC_SMALL_PAGE_SIZE)
    | BigSlag => _ ← lift (rassert (PA.page_size (large_pages e) =? ELFMALLOC_PAGE_SIZE)); mret (Some ELFMALLOC_PAGE_SIZE)
    | Large => mret None
    end.

Definition alloc (e : ElfMalloc AM FE) (bytes : Z) : M (EHeap K) (Z * ElfMalloc AM FE) :=
  if bytes <=? max_size e then with_class e bytes fe_alloc
  else p ← LargeAlloc.alloc bytes; mret (p, e).

Definition free (e : ElfMalloc AM FE) (item : Z) : M (EHeap K) (ElfMalloc AM FE) :=
  r ← get_page_size e item;
  match r with
  | Some page_size =>
      slag ← lift (Slag.find item page_size);
      m ← get_metadata slag;
      '(_, e') ← with_class e (object_size m) (fun fe => fe' ← fe_free fe item; mret (tt, fe'));
      mret e'
  | None => _ ← LargeAlloc.free item; mret e
  end.

(** [elfmalloc_get_layout]. *)
Definition elfmalloc_get_layout (page_size item : Z) : M (EHeap K) (Z * Z) :=
  t ← get_type item;
  match t with
  | SmallSlag | BigSlag =>
      slag ← lift (Slag.find item page_size);
      m ← get_metadata slag;
      mret (object_size m, if is_power_of_two (object_size m) then object_size m else 8)
  | Large => s ← LargeAlloc.get_size item; mret (s, k_page)
  end.

(** [global::get_layout]. *)
Definition get_layout (e : ElfMalloc AM FE) (item : Z) : M (EHeap K) (Z * Z) :=
  t ← get_type item;
  let m_block := match t with SmallSlag | Large => small_pages e | BigSlag => large_pages e end in
  elfmalloc_get_layout (PA.page_size m_block) item.

(** A size for a request with an alignment, in [realloc]. *)
Definition padded (new_size new_alignment : Z) : res Z := if new_alignment <=? 8 then Ok new_size else next_power_of_two new_size.

Definition realloc (e : ElfMalloc AM FE) (item new_size new_alignment : Z) : M (EHeap K) (Z * ElfMalloc AM FE) :=
  if item =? 0 then
    alloc_size ← lift (padded new_size new_alignment);
    alloc e alloc_size
  else if new_size =? 0 then
    e' ← free e item;
    mret (0, e')
  else
    '(old_size, old_alignment) ← get_layout e item;
    if (new_alignment <=? old_alignment) && (new_size <=? old_size) then mret (item, e)
    else
      new_size ← lift (padded new_size new_alignment);
      '(new_mem, e1) ← alloc e new_size;
      _ ← copy_nonoverlapping item new_mem (Z.min old_size new_size);
      e2 ← free e1 item;
      '(size, _) ← get_layout e2 new_mem;
      _ ← lift (rassert (new_size <=? size));
      mret (new_mem, e2).
End ops.
End Elf.

(** [alloc_impl::ElfMallocGlobal] as Rust's [Alloc]: the size asked of the
    allocator for a layout. *)
Definition global_alloc_size (l : Layout) : res Z :=
  if is_power_of_two (layout_size l) || (layout_align l <=? 8) then Ok (layout_size l) else next_power_of_two (layout_size l).

(** ** Addresses *)
Lemma round_to_page_spec a : 0 ≤ a < 2 ^ 64 → round_to_page a = 2 ^ 21 * (a / 2 ^ 21).
Proof.
  intros Ha. unfold round_to_page. change (ELFMALLOC_PAGE_SIZE - 1) with (2 ^ 21 - 1). rewrite land_unot_pow2 by (unfold is_usize; lia).
  pose proof (Z.div_mod a (2 ^ 21) ltac:(lia)). lia.
Qed.

Lemma round_to_page_bounds a : 0 ≤ a < 2 ^ 64 → a - 2 ^ 21 < round_to_page a ≤ a ∧ (2 ^ 21 | round_to_page a).
Proof.
  intros Ha. rewrite round_to_page_spec by done. pose proof (Z.div_mod a (2 ^ 21) ltac:(lia)). pose proof (Z.mod_pos_bound a (2 ^ 21) ltac:(lia)).
  split; [lia|apply Z.divide_factor_l].
Qed.

Lemma round_to_page_nonneg a : 0 ≤ a < 2 ^ 64 → 0 ≤ round_to_page a.
Proof. intros Ha. rewrite round_to_page_spec by done. pose proof (Z.div_pos a (2 ^ 21)). lia. Qed.

(** The only 2 MiB boundary in the 2 MiB up to [a]. *)
Lemma round_to_page_unique a p : (2 ^ 21 | p) → 0 ≤ p → p ≤ a < p + 2 ^ 21 → a < 2 ^ 64 → round_to_page a = p.
Proof.
  intros [z Hz] Hp Ha Hb. rewrite round_to_page_spec by lia. rewrite Hz, Z.mul_comm. f_equal. symmetry. apply (Z.div_unique _ _ _ (a - p)); lia.
Qed.

Lemma divide_gap d a b : 0 < d → (d | a) → (d | b) → a < b → a + d ≤ b.
Proof. intros Hd [x ->] [y ->] Hlt%Z.mul_lt_mono_pos_r; [|done]. replace (x * d + d) with ((x + 1) * d) by lia. apply Z.mul_le_mono_nonneg_r; lia. Qed.

Section memory_lemmas.
Context {K : Type} `{!Kernel K}.
Implicit Types (h : EHeap K) (k : K).

Lemma pages_of_mono p n a m : p ≤ a → a + m ≤ p + n → pages_of k_page a m ⊆ pages_of k_page p n.
Proof.
  intros H1 H2 x. pose proof (k_page_pos (K := K)) as HP. unfold pages_of. rewrite !elem_of_list_to_set, !elem_of_zrange.
  pose proof (Z.div_le_mono p a _ HP H1). assert (H3 : a + m + k_page (K := K) - 1 ≤ p + n + k_page (K := K) - 1) by lia.
  pose proof (Z.div_le_mono _ _ _ HP H3). lia.
Qed.

Lemma region_readable h p n a m : pages_of k_page p n ⊆ k_mapped (eh_k h) → p ≤ a → a + m ≤ p + n → readable h a m = true.
Proof. intros Hs H1 H2. apply bool_decide_eq_true. pose proof (pages_of_mono p n a m H1 H2). set_solver. Qed.

Lemma load_header_ok h p n a x : pages_of k_page p n ⊆ k_mapped (eh_k h) → p ≤ a → a + info_size ≤ p + n → eh_hdr h !! a = Some x →
  load_header a h = Ok (x, h).
Proof. intros. unfold load_header. by rewrite (region_readable h p n), H2. Qed.

Lemma get_commitment_ok h item i : 1 ≤ item → readable h (round_to_page (item - 1)) info_size = true →
  eh_hdr h !! round_to_page (item - 1) = Some (Info i) → LargeAlloc.get_commitment item h = Ok ((ai_region_size i, ai_base i), h).
Proof.
  intros Hi Hr Hh. unfold LargeAlloc.get_commitment, LargeAlloc.get_commitment_mut.
  rewrite (lift_bind _ (round_to_page (item - 1))) by (by rewrite usub_Ok, bind_Ok by lia).
  assert (E : load_info (round_to_page (item - 1)) h = Ok (i, h)) by (unfold load_info, mbind, M_bind, load_header; by rewrite Hr, Hh).
  by rewrite (M_bind_run _ _ _ _ _ E).
Qed.

Lemma get_type_ok h item x : 1 ≤ item → readable h (round_to_page (item - 1)) info_size = true → eh_hdr h !! round_to_page (item - 1) = Some x →
  get_type item h = Ok (header_type x, h).
Proof.
  intros Hi Hr Hh. unfold get_type. rewrite (lift_bind _ (item - 1)) by (by apply usub_Ok).
  assert (E : load_header (round_to_page (item - 1)) h = Ok (x, h)) by (unfold load_header; by rewrite Hr, Hh). by rewrite (M_bind_run _ _ _ _ _ E).
Qed.

(** A live large allocation of [size] bytes at [res], in the region of [n]
    bytes at [base]. *)
Definition large_block h (res size base n : Z) : Prop :=
  res = base + 2 ^ 21 ∧ 0 < base ∧ (2 ^ 16 | base) ∧ (k_page | base) ∧ (2 ^ 16 | n) ∧ size + 2 ^ 21 ≤ n < size + 2 ^ 21 + 2 ^ 16 ∧ base + n ≤ 2 ^ 63 ∧
  0 < size < 2 ^ 60 ∧ pages_of k_page base n ⊆ k_mapped (eh_k h) ∧ eh_hdr h !! round_to_page (res - 1) = Some (Info (mkInfo Large base (size + 2 ^ 21))).

Lemma large_header h res size base n : large_block h res size base n →
  base ≤ round_to_page (res - 1) ∧ round_to_page (res - 1) + 2 ^ 16 ≤ res ∧ readable h (round_to_page (res - 1)) info_size = true.
Proof.
  intros (-> & Hb & Hd & _ & _ & Hn & He & Hs & Hm & _). destruct (round_to_page_bounds (base + 2 ^ 21 - 1)) as [Hr Hrd]; [lia|].
  assert (Hgap : round_to_page (base + 2 ^ 21 - 1) + 2 ^ 16 ≤ base + 2 ^ 21).
  { apply divide_gap; [lia| | |lia].
    - eapply Z.divide_trans; [|exact Hrd]. by apply (pow2_divide 16 21).
    - apply Z.divide_add_r; [done|]. by apply (pow2_divide 16 21). }
  split; [lia|]. split; [done|]. eapply region_readable; [exact Hm|lia|unfold info_size; lia].
Qed.

Lemma large_alloc_spec h size : k_ok (eh_k h) → 0 < size < 2 ^ 60 →
  LargeAlloc.alloc size h = Fault UnwrapNone ∨
  ∃ res base n h', LargeAlloc.alloc size h = Ok (res, h') ∧ k_ok (eh_k h') ∧ large_block h' res size base n ∧ fresh_region (eh_k h) base n (eh_k h').
Proof.
  intros Hk Hs. unfold LargeAlloc.alloc. change ELFMALLOC_PAGE_SIZE with (2 ^ 21). change ELFMALLOC_SMALL_CUTOFF with (2 ^ 16).
  rewrite (lift_bind _ (size + 2 ^ 21)) by (apply uadd_Ok; lia).
  rewrite (lift_bind _ (mkMmapSource (2 ^ 16))) by (unfold MSrc.new; by rewrite next_power_of_two_pow2).
  set (np := (size + 2 ^ 21) / 2 ^ 16 + Z.min 1 ((size + 2 ^ 21) mod 2 ^ 16)).
  assert (Hnp : size + 2 ^ 21 ≤ np * 2 ^ 16 < size + 2 ^ 21 + 2 ^ 16).
  { unfold np. pose proof (Z.div_mod (size + 2 ^ 21) (2 ^ 16) ltac:(lia)). pose proof (Z.mod_pos_bound (size + 2 ^ 21) (2 ^ 16) ltac:(lia)). lia. }
  clearbody np. destruct (mmap_carve_spec 16 np (eh_k h) Hk) as (r & k' & E & Hk' & Hr); [lia|lia|lia|].
  assert (Eon : on_k (MSrc.carve (mkMmapSource (2 ^ 16)) np) h = Ok (r, mkHeap k' (eh_hdr h) (eh_slag h) (eh_meta h))) by (unfold on_k; by rewrite E).
  rewrite (M_bind_run _ _ _ _ _ Eon). destruct r as [mem|]; [right|by left]. destruct Hr as (Hd & Hfr).
  pose proof Hfr as (H1 & H2 & H3 & H4 & H5 & _). cbn [unwrap]. rewrite (lift_bind _ mem) by done. rewrite (lift_bind _ (mem + 2 ^ 21)) by (apply uadd_Ok; lia).
  set (a := round_to_page (mem + 2 ^ 21 - 1)).
  rewrite (lift_bind _ a) by (unfold LargeAlloc.get_commitment_mut; by rewrite usub_Ok, bind_Ok by lia).
  set (h' := mkHeap k' (<[a := Info (mkInfo Large mem (size + 2 ^ 21))]> (eh_hdr h)) (eh_slag h) (eh_meta h)).
  assert (Hblock : large_block h' (mem + 2 ^ 21) size mem (np * 2 ^ 16)).
  { split_and!; try done; try lia; [apply Z.divide_factor_r|cbn; rewrite H5; set_solver|cbn; by rewrite lookup_insert_eq]. }
  destruct (large_header _ _ _ _ _ Hblock) as (_ & _ & Hread). fold a in Hread.
  assert (Est : store_info a (mkInfo Large mem (size + 2 ^ 21)) (mkHeap k' (eh_hdr h) (eh_slag h) (eh_meta h)) = Ok (tt, h')).
  { unfold store_info. change (readable h' a info_size) with (readable (mkHeap k' (eh_hdr h) (eh_slag h) (eh_meta h)) a info_size) in Hread. by rewrite Hread. }
  rewrite (M_bind_run _ _ _ _ _ Est). assert (Hd12 : (2 ^ 12 | mem)) by (eapply Z.divide_trans; [|exact Hd]; by apply (pow2_divide 12 16)).
  rewrite lift_assert by (apply negb_true_iff, Z.eqb_neq; lia). rewrite lift_assert by (apply Z.eqb_eq, mod_0_divide; [lia|done]).
  rewrite lift_assert by (apply Z.eqb_eq, (mod_0_divide _ (2 ^ 12)); [lia|done]).
  rewrite lift_assert by (apply Z.eqb_eq, (mod_0_divide _ (2 ^ 12)); [lia|]; apply Z.divide_add_r; [done|]; by apply (pow2_divide 12 21)).
  assert (Ec : LargeAlloc.get_commitment (mem + 2 ^ 21) h' = Ok ((size + 2 ^ 21, mem), h')).
  { apply (get_commitment_ok h' (mem + 2 ^ 21) (mkInfo Large mem (size + 2 ^ 21))); [lia|exact Hread|apply Hblock]. }
  rewrite (M_bind_run _ _ _ _ _ Ec). cbn [ai_region_size ai_base]. rewrite lift_assert by (by apply bool_decide_eq_true). exists (mem + 2 ^ 21), mem, (np * 2 ^ 16), h'. by split_and!.
Qed.

Lemma large_free_spec h res size base n : k_ok (eh_k h) → large_block h res size base n →
  ∃ h', LargeAlloc.free res h = Ok (tt, h') ∧ k_ok (eh_k h') ∧ k_mapped (eh_k h') = k_mapped (eh_k h) ∖ pages_of k_page base (size + 2 ^ 21) ∧
    ∀ a, a / k_page ∈ k_mapped (eh_k h') → a ≠ res → k_byte (eh_k h') a = k_byte (eh_k h) a.
Proof.
  intros Hk Hb. destruct (large_header _ _ _ _ _ Hb) as (Hr1 & Hr2 & Hread). pose proof Hb as (-> & H1 & H2 & H3 & H4 & H5 & H6 & H7 & H8 & H9).
  assert (Ec : LargeAlloc.get_commitment (base + 2 ^ 21) h = Ok ((size + 2 ^ 21, base), h)) by (apply (get_commitment_ok h (base + 2 ^ 21) (mkInfo Large base (size + 2 ^ 21)) ltac:(lia) Hread H9)).
  unfold LargeAlloc.free. rewrite (M_bind_run _ _ _ _ _ Ec). rewrite (proj2 (Z.eqb_neq (size + 2 ^ 21) 0)) by lia. cbn [andb].
  assert (Hw : readable h (base + 2 ^ 21) 1 = true) by (eapply region_readable; [exact H8|lia|lia]).
  pose proof (k_page_pos (K := K)) as HP.
  assert (Hres : (base + 2 ^ 21) / k_page ∈ k_mapped (eh_k h)) by (apply H8, page_of_byte; [done|done|lia]).
  destruct (k_write_spec (eh_k h) (base + 2 ^ 21) 10 Hk Hres) as (Hk1 & Hm1 & Hb1).
  assert (Ew : write_byte (base + 2 ^ 21) 10 h = Ok (tt, mkHeap (k_write (eh_k h) (base + 2 ^ 21) 10) (eh_hdr h) (eh_slag h) (eh_meta h)))
    by (unfold write_byte; by rewrite Hw).
  rewrite (M_bind_run _ _ _ _ _ Ew). rewrite lift_assert by (by apply Z.eqb_eq, mod_0_divide).
  destruct (unmap_spec (k_write (eh_k h) (base + 2 ^ 21) 10) base (size + 2 ^ 21) Hk1 H1 H3) as (k2 & Eu & Hk2 & Hm2 & Hb2); [lia|lia|].
  unfold on_k. cbn [eh_k]. rewrite Eu. eexists. split; [done|]. cbn. split; [done|]. split; [by rewrite Hm2, Hm1|].
  intros a Ha Hne. rewrite Hb2, Hb1 by done. by rewrite decide_False.
Qed.

(** The pages [free] leaves behind. *)
Lemma large_leak size base n : (k_page (K := K) | base) → (2 ^ 16 | n) → size + 2 ^ 21 ≤ n < size + 2 ^ 21 + 2 ^ 16 → 0 ≤ size → 0 < size mod 2 ^ 16 ≤ 2 ^ 16 - k_page (K := K) →
  ∃ x, x ∈ pages_of k_page base n ∖ pages_of k_page base (size + 2 ^ 21).
Proof.
  intros Hb [z Hz] Hn Hs Hm. pose proof (k_page_pos (K := K)) as HP. destruct (k_page_pow2 (K := K)) as (e & He & Ee). set (P := k_page (K := K)) in *.
  assert (Hdn : (P | n)). { rewrite Hz. apply Z.divide_mul_r. rewrite Ee. apply pow2_divide. split; [lia|]. apply (Z.pow_le_mono_r_iff 2); lia. }
  pose proof (Z.div_mod size (2 ^ 16) ltac:(lia)) as Hdm. assert (n = size - size mod 2 ^ 16 + 2 ^ 21 + 2 ^ 16) by lia.
  exists ((base + n - P) / P). assert (Hd : (P | base + n - P)) by (apply Z.divide_sub_r; [by apply Z.divide_add_r|apply Z.divide_refl]).
  destruct Hd as [x Hx]. rewrite Hx, Z.div_mul by lia. apply elem_of_difference. rewrite !elem_of_pages by done. lia.
Qed.

(** C30: large allocations.  For requests beyond the size classes,
    [large_alloc::alloc] panics for lack of memory, or maps fresh zeroed pages
    and returns a multiple of 64 KiB with [size] bytes behind it and the record
    of the allocation before it; the type stamp and the size can be looked up
    from the pointer.  [free] unmaps the record and the bytes asked for, but
    not the rest of the last 64 KiB unit that [alloc] mapped: what stays mapped
    is exactly that tail, and it is not empty unless the size ends in the last
    system page of a unit. *)
Theorem large_alloc_exact (h : EHeap K) (size : Z) : k_ok (eh_k h) → 0 < size < 2 ^ 60 →
  LargeAlloc.alloc size h = Fault UnwrapNone ∨
  ∃ res base n h' h'', LargeAlloc.alloc size h = Ok (res, h') ∧ fresh_region (eh_k h) base n (eh_k h') ∧ (2 ^ 16 | res) ∧
    base ≤ round_to_page (res - 1) ∧ round_to_page (res - 1) + info_size ≤ res ∧ res + size ≤ base + n ∧
    get_type res h' = Ok (Large, h') ∧ LargeAlloc.get_size res h' = Ok (size, h') ∧ LargeAlloc.free res h' = Ok (tt, h'') ∧
    k_mapped (eh_k h'') = (pages_of k_page base n ∖ pages_of k_page base (size + 2 ^ 21)) ∪ k_mapped (eh_k h) ∧
    (0 < size mod 2 ^ 16 ≤ 2 ^ 16 - k_page (K := K) → ∃ x, x ∈ k_mapped (eh_k h'') ∖ k_mapped (eh_k h)).
Proof.
  intros Hk Hs. destruct (large_alloc_spec h size Hk Hs) as [?|(res & base & n & h' & E & Hk' & Hb & Hfr)]; [by left|right].
  destruct (large_free_spec h' res size base n Hk' Hb) as (h'' & Ef & _ & Hm & _). exists res, base, n, h', h''.
  destruct (large_header _ _ _ _ _ Hb) as (Hr1 & Hr2 & Hread). pose proof Hb as (Eres & H1 & H2 & H3 & H4 & H5 & H6 & H7 & H8 & H9).
  assert (Hleft : k_mapped (eh_k h'') = (pages_of k_page base n ∖ pages_of k_page base (size + 2 ^ 21)) ∪ k_mapped (eh_k h)).
  { rewrite Hm. destruct Hfr as (_ & _ & _ & Hdis & -> & _). pose proof (pages_of_mono base n base (size + 2 ^ 21) ltac:(lia) ltac:(lia)). set_solver. }
  split; [done|]. split; [done|]. split; [rewrite Eres; apply Z.divide_add_r; [done|by apply (pow2_divide 16 21)]|]. split; [done|].
  split; [unfold info_size; lia|]. split; [lia|]. split; [by apply (get_type_ok h' res _ ltac:(lia) Hread H9)|]. split.
  { unfold LargeAlloc.get_size. rewrite (M_bind_run _ _ _ _ _ (get_commitment_ok h' res _ ltac:(lia) Hread H9)). cbn [ai_region_size ai_base].
    unfold lift. change ELFMALLOC_PAGE_SIZE with (2 ^ 21). rewrite usub_Ok by lia. do 2 f_equal. lia. }
  split; [done|]. split; [done|]. intros Hleak. destruct (large_leak size base n H3 H4 H5 ltac:(lia) Hleak) as [x Hx]. exists x.
  destruct Hfr as (_ & _ & _ & Hdis & _). rewrite Hleft. set_solver.
Qed.
End memory_lemmas.

(** ** The classes of an allocator *)

Lemma class_page_cases c : (c < 2 ^ 16 ∧ class_page c = (2 ^ 18, SmallSlag)) ∨ (2 ^ 16 ≤ c ∧ class_page c = (2 ^ 21, BigSlag)).
Proof.
  unfold class_page. change ELFMALLOC_SMALL_CUTOFF with (2 ^ 16). change ELFMALLOC_SMALL_PAGE_SIZE with (2 ^ 18). change ELFMALLOC_PAGE_SIZE with (2 ^ 21).
  destruct (Z.ltb_spec c (2 ^ 16)); [left|right]; done.
Qed.

Lemma class_metadata_eq c : class_metadata c = Meta.compute_metadata c (class_page c).1 0 f0_6 (class_page c).1 (class_page c).2.
Proof. unfold class_metadata. by destruct (class_page c). Qed.

(** What [class_fits] says. *)
Lemma class_fits_inv c m : class_fits c m = true →
  object_size m = c ∧ objects_offset m + n_objects m * c ≤ (class_page c).1 ∧ (Z.gcd c (2 ^ 16) | objects_offset m) ∧ 8 ≤ c ≤ 2 ^ 20 ∧ (8 | c) ∧
  (is_power_of_two c = true ∨ c < 256).
Proof.
  unfold class_fits. rewrite !andb_true_iff, orb_true_iff, !Z.eqb_eq, !Z.leb_le, Z.ltb_lt. change 65536 with (2 ^ 16).
  intros ((((((H1 & H2) & H3) & H4) & H5) & H6) & H7). split_and!; try done.
  - apply Z.mod_divide; [|done]. intros E. apply Z.gcd_eq_0_l in E. lia.
  - apply Z.mod_divide; [lia|done].
Qed.

(** The alignment that [get_layout] reports. *)
Definition class_align (c : Z) : Z := if is_power_of_two c then c else 8.

(** Object [i] of a class is aligned; those of classes that use 2 MiB pages to
    64 KiB at least. *)
Lemma object_aligned c m P i : c ∈ elf_classes → class_metadata c = Ok m → ((class_page c).1 | P) →
  (class_align c | P + objects_offset m + i * c) ∧ (2 ^ 16 ≤ c → (2 ^ 16 | P + objects_offset m + i * c)).
Proof.
  intros Hc Hm HP. destruct (class_metadata_ok c Hc) as (m' & E & Hl & _ & _ & Hf). rewrite Hm in E. injection E as <-.
  apply class_fits_inv in Hf as (Ho & Hfit & Hg & Hb & H8 & Hpow). destruct Hl as (_ & _ & _ & _ & _ & _ & _ & _ & _ & Hoff & _). rewrite Ho in *.
  assert (Hpad : is_power_of_two c = true → (c | objects_offset m)) by (intros Hp; rewrite Hoff; apply pad_for_aligned; [lia|done]).
  assert (Hpage : is_power_of_two c = true → (c | (class_page c).1)).
  { intros (k & Hk & ->)%is_power_of_two_spec. assert (k ≤ 20) by (apply (Z.pow_le_mono_r_iff 2); lia).
    destruct (class_page_cases (2 ^ k)) as [[Hlt ->]|[_ ->]]; cbn [fst]; apply pow2_divide; [|lia].
    apply (Z.pow_lt_mono_r_iff 2) in Hlt; lia. }
  assert (Hall : is_power_of_two c = true → (c | P + objects_offset m + i * c)).
  { intros Hp. apply Z.divide_add_r; [apply Z.divide_add_r; [eapply Z.divide_trans; [by apply Hpage|done]|by apply Hpad]|apply Z.divide_factor_r]. }
  split.
  - unfold class_align. destruct (is_power_of_two c) eqn:Ep; [by apply Hall|].
    assert (8 | Z.gcd c (2 ^ 16)) by (apply Z.gcd_greatest; [done|by apply (pow2_divide 3 16)]).
    apply Z.divide_add_r; [apply Z.divide_add_r; [|by eapply Z.divide_trans]|by apply Z.divide_mul_r].
    eapply Z.divide_trans; [|exact HP]. destruct (class_page_cases c) as [[_ ->]|[_ ->]]; cbn [fst]; [by apply (pow2_divide 3 18)|by apply (pow2_divide 3 21)].
  - intros Hge. destruct Hpow as [Hp|]; [|lia]. eapply Z.divide_trans; [|by apply Hall]. apply is_power_of_two_spec in Hp as (k & Hk & ->).
    apply pow2_divide. split; [lia|]. apply (Z.pow_le_mono_r_iff 2); lia.
Qed.

Section routing.
Context {K : Type} `{!Kernel K} {FE : Type} `{!Frontend FE (EHeap K)}.
Implicit Types (h : EHeap K) (e : ElfMalloc TieredSizeClasses FE).

(** An allocator with the classes and page sizes of [ElfMalloc::new]. *)
Definition elf_wf e : Prop :=
  PA.page_size (small_pages e) = 2 ^ 18 ∧ PA.page_size (large_pages e) = 2 ^ 21 ∧ tiered_shape 8 25 (allocs e) ∧ max_size e = 2 ^ 20.

(** [p] is object [i] of the slag of class [c] at [P]: the slag is a page of its
    class, knows its metadata, and the 2 MiB boundary at or before it holds the
    type of its class. *)
Definition slag_object h (c P p : Z) : Prop :=
  c ∈ elf_classes ∧ ((class_page c).1 | P) ∧ 0 < P ∧ P + 2 ^ 21 ≤ 2 ^ 63 ∧
  ∃ mp m i, class_metadata c = Ok m ∧ eh_slag h !! P = Some mp ∧ eh_meta h !! mp = Some m ∧ 0 ≤ i < n_objects m ∧ p = P + objects_offset m + i * c ∧
    readable h (round_to_page P) info_size = true ∧ eh_hdr h !! round_to_page P = Some (Stamp (class_page c).2).

(** The page of an object, its slag and its stamp are found from its address. *)
Lemma object_found e h c P p : elf_wf e → slag_object h c P p →
  ∃ m, class_metadata c = Ok m ∧ object_size m = c ∧ get_type p h = Ok ((class_page c).2, h) ∧ Slag.find p (class_page c).1 = Ok P ∧ get_metadata P h = Ok (m, h) ∧
    Elf.get_page_size e p h = Ok (Some (class_page c).1, h) ∧ (class_align c | p) ∧ P + 64 ≤ p.
Proof.
  intros (Hsp & Hlp & _) (Hc & HP & HP0 & HP63 & mp & m & i & Em & Hs & Hm & Hi & -> & Hr & Hh).
  destruct (class_metadata_ok c Hc) as (m' & E & Hl & _ & _ & Hf). rewrite Em in E. injection E as <-.
  apply class_fits_inv in Hf as (Ho & Hfit & _ & Hb & _). destruct Hl as (_ & Hbp & _ & _ & _ & _ & Hn & _ & _ & Hoff & _). rewrite Ho in *.
  destruct (object_aligned c m P i Hc Em HP) as [Hal Hbig]. set (p := P + objects_offset m + i * c) in *.
  pose proof (words_for_bound (n_objects m) (bits_per_object m) ltac:(lia) ltac:(lia)). pose proof (pad_for_bound c (n_objects m) (bits_per_object m) ltac:(lia)).
  assert (0 ≤ n_objects m * bits_per_object m) by (apply Z.mul_nonneg_nonneg; lia). assert (0 ≤ i * c) by (apply Z.mul_nonneg_nonneg; lia).
  assert ((i + 1) * c ≤ n_objects m * c) by (apply Z.mul_le_mono_nonneg_r; lia).
  assert (Hp1 : P + 64 ≤ p) by (unfold p; lia). assert (Hp2 : p + c ≤ P + (class_page c).1) by (unfold p; lia).
  assert (Hpg : (class_page c).1 = 2 ^ 18 ∨ (class_page c).1 = 2 ^ 21) by (destruct (class_page_cases c) as [[_ ->]|[_ ->]]; [by left|by right]).
  assert (Hgrp : P + (class_page c).1 ≤ round_to_page P + 2 ^ 21).
  { destruct (round_to_page_bounds P) as [HB HBd]; [lia|]. apply divide_gap; [destruct Hpg; lia|done| |lia].
    assert ((class_page c).1 | 2 ^ 21) by (destruct Hpg as [-> | ->]; [by apply (pow2_divide 18 21)|apply Z.divide_refl]).
    apply Z.divide_add_r; [by eapply Z.divide_trans|done]. }
  destruct (round_to_page_bounds P) as [HB HBd]; [lia|].
  assert (Hround : round_to_page (p - 1) = round_to_page P) by (apply round_to_page_unique; [done|apply round_to_page_nonneg; lia|lia|lia]).
  assert (Ht : get_type p h = Ok ((class_page c).2, h)) by (rewrite <- Hround in Hr, Hh; by apply (get_type_ok h p _ ltac:(lia) Hr Hh)).
  exists m. split; [done|]. split; [done|]. split; [done|]. split.
  { destruct Hpg as [Eg|Eg]; [apply (find_spec P _ p 18)|apply (find_spec P _ p 21)]; (done || lia). }
  split; [unfold get_metadata; by rewrite Hs; cbn; rewrite Hm|]. split; [|by split]. unfold Elf.get_page_size.
  change ELFMALLOC_SMALL_CUTOFF with (2 ^ 16). change ELFMALLOC_SMALL_PAGE_SIZE with (2 ^ 18). change ELFMALLOC_PAGE_SIZE with (2 ^ 21).
  destruct (Z.eqb_spec (p mod 2 ^ 16) 0) as [E0|E0]; cbn [negb].
  - rewrite (M_bind_run _ _ _ _ _ Ht). destruct (class_page_cases c) as [[_ ->]|[_ ->]]; cbn [snd fst]; by rewrite lift_assert by (by apply Z.eqb_eq).
  - destruct (class_page_cases c) as [[_ ->]|[Hge ->]]; [done|]. exfalso. apply E0, mod_0_divide; [lia|]. by apply Hbig.
Qed.

Lemma elf_max_key e : elf_wf e → max_key (allocs e) = 2 ^ 20.
Proof. intros (_ & _ & (_ & _ & _ & _ & _ & _ & Hx) & _). exact Hx. Qed.

(** Classes and the requests they serve use the same slot. *)
Lemma same_class {A} e c k (op : FE → M (EHeap K) (A * FE)) : elf_wf e → 0 ≤ k ≤ 2 ^ 20 → c ∈ elf_classes → least_class elf_classes k c →
  Elf.with_class e c op = Elf.with_class e k op.
Proof.
  intros He Hk Hc Hl. pose proof (elf_max_key e He) as Hmx. destruct (class_metadata_ok c Hc) as (m & _ & _ & _ & _ & Hf).
  apply class_fits_inv in Hf as (_ & _ & _ & Hb & _). unfold Elf.with_class.
  rewrite (least_same_slot 8 25 (allocs e) k c); try done; try lia. apply He.
Qed.

Lemma layout_found e h c P p : elf_wf e → slag_object h c P p → Elf.get_layout e p h = Ok ((c, class_align c), h).
Proof.
  intros He Hobj. destruct (object_found e h c P p He Hobj) as (m & _ & Ho & Ht & Hf & Hm & _). destruct He as (Hsp & Hlp & _).
  assert (El : Elf.elfmalloc_get_layout (class_page c).1 p h = Ok ((c, class_align c), h)).
  { unfold Elf.elfmalloc_get_layout. rewrite (M_bind_run _ _ _ _ _ Ht).
    destruct (class_page_cases c) as [[_ Ec]|[_ Ec]]; rewrite Ec in *; cbn [fst snd] in *;
      rewrite (lift_bind _ _ _ _ Hf), (M_bind_run _ _ _ _ _ Hm), Ho; done. }
  unfold Elf.get_layout. rewrite (M_bind_run _ _ _ _ _ Ht).
  destruct (class_page_cases c) as [[_ Ec]|[_ Ec]]; rewrite Ec in *; cbn [fst snd] in *; [by rewrite Hsp|by rewrite Hlp].
Qed.

Lemma large_found e h res size base n : large_block h res size base n →
  Elf.get_page_size e res h = Ok (None, h) ∧ Elf.get_layout e res h = Ok ((size, k_page (K := K)), h).
Proof.
  intros Hb. destruct (large_header _ _ _ _ _ Hb) as (_ & _ & Hread). pose proof Hb as (Eres & H1 & H2 & _ & _ & H5 & _ & H7 & _ & H9).
  pose proof (get_type_ok h res _ ltac:(lia) Hread H9) as Ht. cbn [header_type ai_ty] in Ht. split.
  - unfold Elf.get_page_size. change ELFMALLOC_SMALL_CUTOFF with (2 ^ 16).
    rewrite (mod_0_divide res (2 ^ 16)); [|lia|rewrite Eres; apply Z.divide_add_r; [done|by apply (pow2_divide 16 21)]].
    cbn [Z.eqb negb]. by rewrite (M_bind_run _ _ _ _ _ Ht).
  - unfold Elf.get_layout. rewrite (M_bind_run _ _ _ _ _ Ht). unfold Elf.elfmalloc_get_layout. rewrite (M_bind_run _ _ _ _ _ Ht).
    assert (Es : LargeAlloc.get_size res h = Ok (size, h)).
    { unfold LargeAlloc.get_size. rewrite (M_bind_run _ _ _ _ _ (get_commitment_ok h res _ ltac:(lia) Hread H9)). cbn [ai_region_size ai_base].
      unfold lift. change ELFMALLOC_PAGE_SIZE with (2 ^ 21). rewrite usub_Ok by lia. do 2 f_equal. lia. }
    by rewrite (M_bind_run _ _ _ _ _ Es).
Qed.

(** C18: pointers find their way back.  With the classes of [ElfMalloc::new],
    for an object [p] of a slag of class [c], and any request [k] that [c] is
    the best class for: [alloc k] asks the object allocator that [free p]
    gives the object back to, whether or not the address of the object is a
    multiple of 64 KiB (for which [get_page_size] takes a short cut);
    [get_layout] reports the class and an alignment that [p] has; and [realloc]
    to a size and alignment within these returns [p] and changes nothing.
    Large allocations are found to be large, and their layout is their size. *)
Theorem elf_free_routes e h : elf_wf e →
  (∀ c P p k, slag_object h c P p → 0 ≤ k ≤ 2 ^ 20 → least_class elf_classes k c →
     Elf.alloc e k = Elf.with_class e k fe_alloc ∧
     Elf.free e p h = ('(_, e') ← Elf.with_class e k (fun fe => fe' ← fe_free fe p; mret (tt, fe')); mret e') h ∧
     Elf.get_layout e p h = Ok ((c, class_align c), h) ∧ k ≤ c ∧ (class_align c | p) ∧
     ∀ new_size align, 0 < new_size ≤ c → align ≤ class_align c → Elf.realloc e p new_size align h = Ok ((p, e), h)) ∧
  (∀ res size base n, large_block h res size base n →
     Elf.free e res h = (_ ← LargeAlloc.free res; mret e) h ∧ Elf.get_layout e res h = Ok ((size, k_page (K := K)), h)).
Proof.
  intros He. split.
  - intros c P p k Hobj Hk Hl. destruct (object_found e h c P p He Hobj) as (m & _ & Ho & _ & Hf & Hm & Hps & Hal & Hp64). pose proof Hobj as (Hc & _ & HP & _).
    pose proof (layout_found e h c P p He Hobj) as Hlay.
    split_and!; try done; [| |apply Hl|].
    + unfold Elf.alloc. destruct He as (_ & _ & _ & ->). by rewrite (proj2 (Z.leb_le k _)) by lia.
    + unfold Elf.free. rewrite (M_bind_run _ _ _ _ _ Hps), (lift_bind _ _ _ _ Hf), (M_bind_run _ _ _ _ _ Hm), Ho, (same_class e c k) by done. done.
    + intros new_size align Hn Hal'. unfold Elf.realloc. rewrite (proj2 (Z.eqb_neq p 0)), (proj2 (Z.eqb_neq new_size 0)) by lia.
      rewrite (M_bind_run _ _ _ _ _ Hlay). by rewrite (proj2 (Z.leb_le align _)), (proj2 (Z.leb_le new_size c)) by lia.
  - intros res size base n Hb. destruct (large_found e h res size base n Hb) as [Hps Hlay]. split; [|done]. unfold Elf.free. by rewrite (M_bind_run _ _ _ _ _ Hps).
Qed.

(** ** Construction *)
Lemma slot_size_class start n sl : slot_valid start n sl → slot_size start n sl ∈ tier_sizes start n.
Proof.
  destruct sl as [|i|i]; intros Hv; cbn in *; [by left| |].
  - apply elem_of_tier_small, list_elem_of_fmap. exists i. split; [done|]. by apply elem_of_zrange.
  - apply elem_of_tier_medium, list_elem_of_fmap. exists i. split; [done|]. by apply elem_of_zrange.
Qed.

Lemma slot_index_bound sl : slot_valid 8 25 sl → 0 ≤ slot_index 8 25 sl < 26.
Proof. destruct sl as [|i|i]; cbn; change (small_count 8 25) with 12; lia. Qed.

Lemma slot_index_inj sl sl' : slot_valid 8 25 sl → slot_valid 8 25 sl' → slot_index 8 25 sl = slot_index 8 25 sl' → sl = sl'.
Proof. destruct sl as [|i|i], sl' as [|j|j]; cbn; change (small_count 8 25) with 12; intros; (done || lia || (f_equal; lia)). Qed.

(** The page allocators of [new]. *)
Definition big_pages : PageAlloc := mkPageAlloc (Z.shiftl 1 20) (mkMmapSource (2 ^ 21)) 1 (mkMmapSource (2 ^ 21)) 8 BigSlag.
Definition little_pages : PageAlloc := mkPageAlloc (Z.shiftl 1 20) (mkMmapSource (2 ^ 18)) 8 (mkMmapSource (2 ^ 21)) 8 SmallSlag.
Definition class_pages (c : Z) : PageAlloc := if c <? 2 ^ 16 then little_pages else big_pages.

Lemma class_pages_size c : PA.page_size (class_pages c) = (class_page c).1.
Proof. unfold class_pages. destruct (class_page_cases c) as [[H ->]|[H ->]]; destruct (Z.ltb_spec c (2 ^ 16)); (done || lia). Qed.

(** The cell constructed for a slot, and the state before the [j]th call. *)
Definition class_cell (base : Z) (sl : slot) : Lazy ObjParams FE :=
  let c := slot_size 8 25 sl in Lz.new (mkParams (base + 96 * slot_index 8 25 sl) (Z.shiftl 1 20) (class_pages c) (16, (class_page c).1)).
Definition new_state (base j : Z) (st : EHeap K * Z) : Prop :=
  k_ok (eh_k st.1) ∧ st.2 = base + 96 * j ∧ pages_of k_page base (k_page (K := K)) ⊆ k_mapped (eh_k st.1) ∧
  ∀ sl, slot_valid 8 25 sl → slot_index 8 25 sl < j → ∃ m, class_metadata (slot_size 8 25 sl) = Ok m ∧ eh_meta st.1 !! (base + 96 * slot_index 8 25 sl) = Some m.

Lemma new_class_builds base sl : 4096 ≤ k_page (K := K) → slot_valid 8 25 sl →
  builds (new_state base) (fun c x => ∃ sl', slot_valid 8 25 sl' ∧ c = slot_size 8 25 sl' ∧ x = class_cell base sl') (Elf.new_class f0_6 little_pages big_pages)
    (slot_index 8 25 sl) (slot_size 8 25 sl).
Proof.
  intros HP Hv [h mp] (Hok & Emp & Hmap & Hmeta). cbn [fst snd] in *. pose proof (slot_index_bound sl Hv) as Hj.
  destruct (class_metadata_ok _ (slot_size_class 8 25 sl Hv)) as (m & Em & _). set (c := slot_size 8 25 sl) in *.
  assert (Hr : readable h mp metadata_size = true) by (eapply region_readable; [exact Hmap|lia|unfold metadata_size; lia]).
  assert (E : Elf.new_class f0_6 little_pages big_pages c (h, mp) = Ok (class_cell base sl, (mkHeap (eh_k h) (eh_hdr h) (eh_slag h) (<[mp := m]> (eh_meta h)), mp + metadata_size))).
  { unfold Elf.new_class, class_cell. fold c. unfold class_metadata, class_pages in *. change ELFMALLOC_SMALL_CUTOFF with (2 ^ 16).
    destruct (class_page_cases c) as [[Hc Ec]|[Hc Ec]]; rewrite Ec in *; cbn [fst snd] in *;
      [rewrite (proj2 (Z.ltb_lt c _)) by lia|rewrite (proj2 (Z.ltb_ge c _)) by lia];
      [change (PA.page_size little_pages) with (2 ^ 18)|change (PA.page_size big_pages) with (2 ^ 21)]; rewrite Em, bind_Ok; unfold store_meta; rewrite Hr, bind_Ok, Emp; done. }
  eexists _, _. split; [exact E|]. split; [|by exists sl]. split; [done|]. split; [cbn; unfold metadata_size; lia|]. split; [done|].
  cbn [fst eh_meta]. intros sl' Hv' Hlt. destruct (decide (sl' = sl)) as [->|Hne].
  - exists m. split; [done|]. by rewrite Emp, lookup_insert_eq.
  - assert (slot_index 8 25 sl' ≠ slot_index 8 25 sl) by (intros Eq; by apply Hne, slot_index_inj).
    destruct (Hmeta sl' Hv' ltac:(lia)) as (m' & Em' & Hl'). exists m'. split; [done|]. rewrite lookup_insert_ne; [done|lia].
Qed.

(** Mapping the array of classes changes nothing else. *)
Lemma class_array_spec (sz n : Z) (h : EHeap K) C (c : C) : k_ok (eh_k h) → 1 ≤ sz ≤ 2 ^ 20 → 1 ≤ n ≤ 2 ^ 20 →
  Elf.class_array sz n (h, c) = Fault UnwrapNone ∨
  ∃ a k', Elf.class_array sz n (h, c) = Ok (a, (mkHeap k' (eh_hdr h) (eh_slag h) (eh_meta h), c)) ∧ k_ok k' ∧ k_mapped (eh_k h) ⊆ k_mapped k'.
Proof.
  intros Hk Hs Hn. unfold Elf.class_array, on_k. destruct (typed_array_new_spec sz n (eh_k h) Hk ltac:(lia) ltac:(lia) ltac:(nia)) as [->|(a & k' & -> & Hk' & _ & _ & Hr)]; [by left|right].
  exists a, k'. split; [done|]. split; [done|]. destruct Hr as (_ & _ & _ & _ & Hmap & _). rewrite Hmap. set_solver.
Qed.

Lemma new_arrays base class_size : 1 ≤ class_size ≤ 2 ^ 20 → makes_arrays (new_state base) (Elf.class_array class_size) 25 True.
Proof.
  intros Hs j n [h mp] (Hk & Emp & Hmap & Hmeta) Hn. cbn [fst snd] in *. destruct (class_array_spec class_size n h Z mp Hk Hs ltac:(lia)) as [E|(a & k' & E & Hk' & Hsub)]; [left; by split|right].
  eexists a, _. split; [exact E|]. split; [done|]. split; [done|]. split; [cbn; set_solver|exact Hmeta].
Qed.

(** C20: the allocator is built as its size classes need.  On a system with
    pages of at least 4096 bytes (the metadata array is mapped for 25 classes,
    and 26 are written), and for object allocators of at most 1 MiB (the arrays
    of classes are mapped, too), [ElfMalloc::new] panics for lack of memory, or returns
    an allocator in which every request of at most 1 MiB selects an object
    allocator, not yet initialized, for the smallest class that holds it, whose
    metadata record holds the layout computed for that class, with objects of
    exactly that size that fit the pages it was given. *)
Theorem elf_new_classes (class_size : Z) (h : EHeap K) : k_ok (eh_k h) → 4096 ≤ k_page (K := K) → 1 ≤ class_size ≤ 2 ^ 20 →
  Elf.new (AM := TieredSizeClasses) (FE := FE) class_size h = Fault UnwrapNone ∨
  ∃ (e : ElfMalloc TieredSizeClasses FE) h', Elf.new class_size h = Ok (e, h') ∧ elf_wf e ∧
    ∀ k, 0 ≤ k ≤ 2 ^ 20 → ∃ c m cell, get_class (allocs e) k = Ok cell ∧ lazy_val cell = None ∧ least_class elf_classes k c ∧
      eh_meta h' !! op_meta (lazy_params cell) = Some m ∧ layout_ok c (class_page c).1 (class_page c).1 m ∧ mask_ok m ∧ object_size m = c ∧
      PA.page_size (op_pages (lazy_params cell)) = (class_page c).1 ∧ objects_offset m + n_objects m * c ≤ (class_page c).1 ∧ ty m = (class_page c).2.
Proof.
  intros Hk HP Hcs. unfold Elf.new. rewrite (lift_bind _ big_pages) by done. rewrite (lift_bind _ little_pages) by done. unfold Elf.new_internal.
  rewrite (lift_bind _ 2400) by done. unfold EMap.map. destruct (fallible_map_spec (eh_k h) 2400 Hk ltac:(lia)) as (r & k' & E & Hk' & Hr).
  destruct r as [base|].
  2: { left. unfold mbind at 1, M_bind, on_k. unfold mbind at 1, M_bind. by rewrite E. }
  set (h1 := mkHeap k' (eh_hdr h) (eh_slag h) (eh_meta h)).
  assert (E1 : on_k (r ← EMap.fallible_map 2400; lift (unwrap r)) h = Ok (base, h1)) by (unfold on_k; by rewrite (M_bind_run _ _ _ _ _ E)).
  rewrite (M_bind_run _ _ _ _ _ E1). destruct Hr as (Hb0 & Hbd & _ & _ & Hmap & _).
  destruct (tiered_init_spec (new_state base) (fun c x => ∃ sl', slot_valid 8 25 sl' ∧ c = slot_size 8 25 sl' ∧ x = class_cell base sl')
    (Elf.new_class f0_6 little_pages big_pages) (Elf.class_array class_size) 25 True (new_arrays base class_size Hcs) 8 25 (h1, base))
    as [[_ Eam]|(am & [h2 mp] & Eam & (_ & _ & _ & Hmeta) & Hshape & Hholds)]; [lia|lia|lia| | | |].
  { intros sl Hv. by apply new_class_builds. }
  { split; [done|]. split; [cbn; lia|]. split; [|intros sl Hv Hlt; pose proof (slot_index_bound sl Hv); lia]. cbn. rewrite Hmap.
    rewrite (pages_of_round _ (k_page_pos (K := K)) base 2400 _ Hbd (Z.divide_refl _)) by lia. set_solver. }
  { left. unfold Elf.with_local. change (@init_conserve TieredSizeClasses slot Tiered_map) with (@Tiered.init_conserve). unfold mbind, M_bind. by rewrite Eam. }
  right. assert (E2 : Elf.with_local base (init_conserve (AM := TieredSizeClasses) (Elf.class_array class_size) 8 25 (Elf.new_class (FE := FE) f0_6 little_pages big_pages)) h1 = Ok (am, h2)).
  { unfold Elf.with_local. change (@init_conserve TieredSizeClasses slot Tiered_map) with (@Tiered.init_conserve). by rewrite Eam. }
  match goal with |- context [Elf.with_local base ?i] => set (w := Elf.with_local base i) in * end. clearbody w.
  rewrite (M_bind_run _ _ _ _ _ E2). eexists _, _. split; [done|]. assert (Hmx : max_key am = 2 ^ 20) by (apply Hshape).
  split; [by split_and!|]. cbn [allocs]. intros k Hk20.
  destruct (tiered_selects 8 25 am k) as (sl & Er & [x Hx] & Hv & Hleast & _); [lia|lia|done|lia|lia|].
  destruct (Hholds sl x Hv Hx) as (sl' & Hv' & Esz & Ex). apply slot_size_inj in Esz; [|lia|lia|done|done]. subst sl'.
  destruct (Hmeta sl Hv) as (m & Em & Hm); [pose proof (slot_index_bound sl Hv); lia|].
  destruct (class_metadata_ok _ (slot_size_class 8 25 sl Hv)) as (m' & Em' & Hl & Hmask & Hty & Hfits). rewrite Em in Em'. injection Em' as <-.
  apply class_fits_inv in Hfits as (Ho & Hfit & _). exists (slot_size 8 25 sl), m, x. subst x.
  split; [unfold get_class; by rewrite Er, bind_Ok, Hx|]. split; [reflexivity|]. split; [exact Hleast|]. split; [exact Hm|].
  split; [exact Hl|]. split; [exact Hmask|]. split; [exact Ho|]. split; [apply class_pages_size|]. split; [exact Hfit|exact Hty].
Qed.
End routing.

(** Alignments beyond the size of a request are not honoured: a request for 8
    bytes at a multiple of 64 asks for 8 bytes (from [realloc] and from the
    [Alloc] implementation alike), and the second object of every slag of that
    class is no multiple of 64. *)
Theorem small_request_misaligned :
  Elf.padded 8 64 = Ok 8 ∧ global_alloc_size (mkLayout 8 64) = Ok 8 ∧
  ∃ m, class_metadata 8 = Ok m ∧ object_size m = 8 ∧ 1 < n_objects m ∧ ∀ P, ((class_page 8).1 | P) → ¬ (64 | P + objects_offset m + 1 * 8).
Proof.
  split; [done|]. split; [done|].
  assert (Hc : 8 ∈ elf_classes) by (by left). destruct (class_metadata_ok 8 Hc) as (m & E & Hl & _ & _ & Hf). exists m. split; [done|].
  assert (E2 : compute_fast 8 (2 ^ 18) 0 f0_6 (2 ^ 18) SmallSlag = Ok m) 
    by (rewrite compute_fast_ok; rewrite class_metadata_eq in E; change (class_page 8) with (2 ^ 18, SmallSlag) in E; cbn [fst snd] in E; exact E).
  clear E Hl Hf. vm_compute in E2. injection E2 as <-.
  split; [done|]. split; [done|]. cbn [objects_offset]. intros P [a ->] [b Hb]. change (class_page 8).1 with 262144 in Hb. lia.
Qed.

(** ** Witnesses *)
#[local] Instance unit_frontend : Frontend unit (EHeap ToyKernel) := {
  fe_init := fun _ => mret tt; fe_alloc := fun fe => mret (0, fe); fe_free := fun fe _ => mret fe
}.

Definition toy_heap : EHeap ToyKernel := mkHeap toy_k0 ∅ ∅ ∅.

Lemma large_alloc_exact_witness :
  LargeAlloc.alloc (2 ^ 20 + 1) toy_heap = Fault UnwrapNone ∨
  ∃ res h' h'', LargeAlloc.alloc (2 ^ 20 + 1) toy_heap = Ok (res, h') ∧ LargeAlloc.free res h' = Ok (tt, h'') ∧ ∃ x, x ∈ k_mapped (eh_k h'') ∖ k_mapped (eh_k toy_heap).
Proof.
  destruct (large_alloc_exact toy_heap (2 ^ 20 + 1) toy_k0_ok) as [E|(res & base & n & h' & h'' & H1 & _ & _ & _ & _ & _ & _ & _ & H2 & _ & H3)];
    [split; reflexivity|left; exact E|right].
  exists res, h', h''. split; [exact H1|]. split; [exact H2|]. apply H3. split; [reflexivity|discriminate].
Defined.

Definition demo_meta : Metadata := match class_metadata 8192 with Ok m => m | Fault _ => Meta.test_meta end.
Definition demo_cell : Lazy ObjParams unit := Lz.new (mkParams 100 (2 ^ 20) little_pages (16, 2 ^ 18)).
Definition demo_elf : ElfMalloc TieredSizeClasses unit :=
  mkElf little_pages big_pages (mkTiered (Some demo_cell) (mkMultiples 16 192 (replicate 12 demo_cell)) (mkPowers 256 (2 ^ 20) (replicate 13 demo_cell))) (2 ^ 20) 8 25.
Definition demo_heap : EHeap ToyKernel :=
  mkHeap (mkToy 513 {[512]} ∅) {[2 ^ 21 := Stamp SmallSlag]} {[2 ^ 21 := 100]} {[100 := demo_meta]}.

Lemma elf_free_routes_witness :
  Elf.get_layout demo_elf (2 ^ 21 + 16384) demo_heap = Ok ((8192, 8192), demo_heap) ∧
  Elf.realloc demo_elf (2 ^ 21 + 16384) 8000 64 demo_heap = Ok ((2 ^ 21 + 16384, demo_elf), demo_heap).
Proof.
  destruct (elf_free_routes demo_elf demo_heap) as [H _].
  { split; [reflexivity|]. split; [reflexivity|]. split; [|reflexivity]. split; [eexists; reflexivity|]. repeat split. }
  destruct (H 8192 (2 ^ 21) (2 ^ 21 + 16384) 5000) as (_ & _ & H1 & _ & _ & H2).
  - split; [apply (bool_decide_eq_true _); vm_compute; reflexivity|]. split; [exists 8; reflexivity|]. split; [reflexivity|]. split; [discriminate|].
    exists 100, demo_meta, 1. split; [vm_compute; reflexivity|]. split; [reflexivity|]. split; [reflexivity|].
    split; [split; [discriminate|vm_compute; reflexivity]|]. split; [vm_compute; reflexivity|]. split; [vm_compute; reflexivity|reflexivity].
  - split; discriminate.
  - split; [apply (bool_decide_eq_true _); vm_compute; reflexivity|]. split; [discriminate|].
    assert (Hall : Forall (fun c' => 5000 ≤ c' → 8192 ≤ c') elf_classes) by (apply (bool_decide_eq_true _); vm_compute; reflexivity).
    intros c' Hc'. rewrite Forall_forall in Hall. apply Hall. exact Hc'.
  - split; [exact H1|]. apply H2; [split; [reflexivity|discriminate]|discriminate].
Defined.

Lemma elf_new_classes_witness :
  Elf.new (AM := TieredSizeClasses) (FE := unit) 96 toy_heap = Fault UnwrapNone ∨
  ∃ (e : ElfMalloc TieredSizeClasses unit) h', Elf.new 96 toy_heap = Ok (e, h') ∧ is_Some (match get_class (allocs e) 100 with Ok c => Some c | _ => None end).
Proof.
  destruct (elf_new_classes (FE := unit) 96 toy_heap toy_k0_ok) as [E|(e & h' & E & _ & H)]; [discriminate|split; discriminate|left; exact E|right].
  exists e, h'. split; [exact E|]. destruct (H 100) as (c & m & cell & Hg & _); [split; discriminate|]. rewrite Hg. eexists. reflexivity.
Defined.
