(* ===== verification/SlagSpec.v ===== *)
(** * What the operations on a slag do to its invariant

    The invariant of SlagProto, kept by the sequential operations of SlagBits:
    whole calls of [Slag::free], [Slag::refresh], [AllocIter::next], of the
    reference count, and of the bulk release, on a slag no thread is in the
    middle of an operation on. *)

From Stdlib Require Import ZArith Lia.
From stdpp Require Import base numbers list option.
From S2P Require Import Prelude SlagMeta SlagBits SlagProto.

Open Scope Z_scope.

(** The fields of a slag that are only written by [init]. *)
Definition slag_hdr (s : SlagS) : AllocType * Z := (slag_ty s, slag_meta s).

(** Those who own a slag between calls, or are about to claim it. *)
Definition owner (q : pc) : Prop := match q with AFresh | AClaim | AIter _ => True | _ => False end.

Section spec.
  Context (m : Metadata) (slf size usable page : Z).
  Context (Hl : layout_ok size usable page m) (Hslf : 0 ≤ slf) (Hpage : slf + objects_offset m + n_objects m * object_size m ≤ slf + page < 2 ^ 64)
    (Hcut : cutoff_objects m ≤ n_objects m).
  Implicit Types (g : Sh) (rest : list pc) (l : list Z) (s : SlagS).

(** Some claimed bit and count satisfy the invariant. *)
Definition inv_slag g rest l : Prop := ∃ cl c, inv_at m slf g rest l cl c.

(** A slag none of whose objects are in use. *)
Definition fresh_slag s : Prop := inv_at m slf (mkSh s 0 0 false false) [AFresh] [] false (n_objects m).

(** A thread that does nothing does not count. *)
Lemma inv_idle g rest l cl c : inv_at m slf g (Idle :: rest) l cl c ↔ inv_at m slf g rest l cl c.
Proof.
  split; intros [H1 H2 H3 H4 H5 H6 H7 H8 H9 H10]; constructor; try done.
  - by inversion H5.
  - intros p Hp. apply H10. by right.
  - by constructor.
  - intros p [->|Hp]%elem_of_cons Hf; [done|]. by apply (H10 p).
Qed.

Lemma inv_live_perm g rest l l' cl c : l ≡ₚ l' → inv_at m slf g rest l cl c → inv_at m slf g rest l' cl c.
Proof. intros Hp [H1 H2 H3 H4 H5 H6 H7 H8 H9 H10]. constructor; try done. by rewrite <- Hp. Qed.

(** A thread starts to return an object. *)
Lemma inv_start_free g rest item l cl c : inv_at m slf g rest (item :: l) cl c → inv_at m slf g (FInc item :: rest) l cl c.
Proof.
  intros [H1 H2 H3 H4 H5 H6 H7 H8 H9 H10]. constructor; try done.
  - etransitivity; [|exact H3]. rewrite bind_cons. cbn [held app]. apply Permutation_app_head, Permutation_middle.
  - by constructor.
  - intros p [->|Hp]%elem_of_cons Hf; [done|]. by apply (H10 p).
Qed.

(** A report that does not lead to a revocation. *)
Lemma inv_forget g e rest l cl c : inv_at m slf g (FRevoke e :: rest) l cl c → inv_at m slf g rest l cl c.
Proof.
  intros [H1 H2 H3 H4 H5 H6 H7 H8 H9 H10]. constructor; try done; [by inversion H5|]. intros p Hp. apply H10. by right.
Qed.

Lemma step g p rest l : sh_freed g = false → inv_slag g (p :: rest) l →
  ∃ p' g' ev, tstep m slf g p = Ok (p', g', ev) ∧ (sh_freed g' = false → inv_slag g' (p' :: rest) (ev ++ l)).
Proof.
  intros Hf (cl & c & H). destruct (step_any m slf size usable page Hl Hslf Hpage Hcut g p rest l cl c Hf H) as (p' & g' & ev & E & H'). exists p', g', ev. split; [done|].
  intros Hf'. apply H'. congruence.
Qed.

(** ** Returning an object *)
Definition after (t : Transition) g s : Sh := match t with Available => set_pipe (on_slag g s) (S (sh_pipe g)) | _ => on_slag g s end.

Lemma call_free_spec g rest item l : sh_freed g = false → inv_slag g rest (item :: l) →
  ∃ t s', Slag.free m slf item (sh_slag g) = Ok (t, s') ∧ slag_hdr s' = slag_hdr (sh_slag g) ∧ inv_slag (after t g s') rest l ∧
    (t = Full → ∃ cl, inv_at m slf (on_slag g s') rest l cl (n_objects m) ∧ cl = false).
Proof.
  intros Hf (cl & c & H%inv_start_free). destruct (step g (FInc item) rest l Hf ltac:(by exists cl, c)) as (p1 & g1 & ev1 & E1 & H1).
  pose proof E1 as E1'. cbn [tstep] in E1. apply res_bind_Ok in E1 as (lim & Elim & E1). apply res_bind_Ok in E1 as ([] & Eas & E1). apply res_bind_Ok in E1 as ([w ix] & Ew & E1).
  apply res_bind_Ok in E1 as ([[cl0 was] s1] & Er & E1). injection E1 as <- <- <-. destruct H1 as (cl1 & c1 & H1); [exact Hf|]. cbn [app] in H1.
  destruct (step (on_slag g s1) _ rest l Hf ltac:(by exists cl1, c1)) as (p2 & g2 & ev2 & E2 & H2). cbn [tstep on_slag sh_slag] in E2.
  apply res_bind_Ok in E2 as ([x s2] & Eo & E2). apply res_bind_Ok in E2 as (p2' & Et & E2). injection E2 as <- <- <-. destruct H2 as (cl2 & c2 & H2); [exact Hf|]. cbn [app] in H2.
  assert (Hs : ∃ t, Slag.free m slf item (sh_slag g) = Ok (t, s2) ∧ p2' = after_free t (sh_epoch g)).
  { unfold Slag.free. rewrite (lift_bind _ _ _ _ Elim), (lift_bind _ _ _ _ Eas), (lift_bind _ _ _ _ Ew). rewrite (M_bind_run _ _ _ _ _ Er), (M_bind_run _ _ _ _ _ Eo).
    unfold transition in Et. destruct cl0; cbn [negb] in *; [injection Et as <-; by exists Null|]. apply res_bind_Ok in Et as (c0 & Ec & Et). rewrite (lift_bind _ _ _ _ Ec).
    destruct (was =? c0); [injection Et as <-; by exists Available|]. apply res_bind_Ok in Et as (n0 & En & Et). rewrite (lift_bind _ _ _ _ En). injection Et as <-.
    destruct (was =? n0); [by exists Full|by exists Null]. }
  destruct Hs as (t & Es & ->). exists t, s2.
  assert (Hh : slag_hdr s2 = slag_hdr (sh_slag g)).
  { unfold rc_inc in Er. unfold word_fetch_or in Eo. destruct (RC.inc_n _ _) as [r v] eqn:Ei. injection Er as _ <-. cbn in Eo. destruct (words _ !! _); [|done]. by injection Eo as _ <-. }
  change (on_slag (on_slag g s1) s2) with (on_slag g s2) in H2. split_and!; [done|done| |].
  - destruct t; cbn [after_free after] in *.
    + exists cl2, c2. by apply inv_idle.
    + destruct (step (on_slag g s2) FPush rest l Hf ltac:(by exists cl2, c2)) as (p3 & g3 & ev3 & E3 & H3). cbn [tstep] in E3. injection E3 as <- <- <-. destruct H3 as (cl3 & c3 & H3); [exact Hf|].
      exists cl3, c3. by apply inv_idle.
    + exists cl2, c2. by eapply inv_forget.
  - intros ->. cbn [after_free] in H2. destruct (inv_full _ _ _ _ _ _ _ H2 (FRevoke (sh_epoch g))) as [-> ->]; [left|done|]. exists false. split; [by eapply inv_forget|done].
Qed.

(** When all objects are counted, the slag is as new. *)
Lemma inv_all_fresh g rest l : inv_at m slf g rest l false (n_objects m) → Forall (fun p => held m slf p = [] ∧ pending p = 0%nat ∨ claimer p = 1%nat) rest →
  l = [] ∧ fresh_slag (sh_slag g).
Proof.
  intros H Hr. assert (Hl0 : l = []).
  { eapply counted_all; [exact Hl|apply inv_idle; exact H|done]. }
  split; [done|]. subst l. destruct H as [H1 H2 H3 H4 H5 H6 H7 H8 H9 H10].
  assert (Hh : rest ≫= held m slf = [] ∧ sum_list_with pending rest = 0%nat).
  { clear -Hr H7. induction Hr as [|p rest Hp _ IH]; [done|]. cbn [sum_list_with] in H7 |- *. destruct Hp as [[E1 E2]|E1]; [|lia]. rewrite bind_cons, E1, E2. apply IH. lia. }
  destruct Hh as [Hh Hp]. rewrite Hh in H3. rewrite Hp in H4. constructor; try done; cbn; try lia; by repeat constructor.
Qed.

Lemma fresh_claimable s : fresh_slag s → inv_at m slf (mkSh s 0 0 false false) [AClaim] [] false (n_objects m).
Proof. intros [H1 H2 H3 H4 H5 H6 H7 H8 H9 H10]. constructor; try done; cbn; try lia; by repeat constructor. Qed.

(** ** Taking a slag *)
Definition in_reach (it : AllocIter) s : nat := length (bit_list (cur_word it)) + length (words_bits 0 (drop (Z.to_nat (next_word it)) (words s))).

Lemma words_bits_length k k' ws : length (words_bits k ws) = length (words_bits k' ws).
Proof. revert k k'. induction ws as [|w ws IH]; intros k k'; [done|]. cbn. by rewrite !length_app, !length_fmap, (IH (k + 1) (k' + 1)). Qed.

Lemma claim_spec g l c : sh_freed g = false → inv_at m slf g [AClaim] l false c →
  ∃ s1 it s2, rc_claim (sh_slag g) = Ok (true, s1) ∧ Slag.refresh slf m s1 = Ok (it, s2) ∧ slag_hdr s1 = slag_hdr (sh_slag g) ∧ slag_hdr s2 = slag_hdr (sh_slag g) ∧
    inv_slag (set_claimed g s2) [AIter it] l ∧ (1 ≤ in_reach it s2)%nat.
Proof.
  intros Hf H. pose proof (inv_ready _ _ _ _ _ _ _ H eq_refl) as Hready. pose proof (inv_holder _ _ _ _ _ _ _ H) as Hh. unfold holders in *. cbn [sum_list_with holder] in *.
  specialize (Hready ltac:(lia)). pose proof (inv_count _ _ _ _ _ _ _ H) as Hc. 
  destruct (step g AClaim [] l Hf ltac:(by eexists _, _)) as (p1 & g1 & ev1 & E1 & H1). cbn [tstep] in E1.
  apply res_bind_Ok in E1 as ([ok s1] & Ec & E1). apply res_bind_Ok in E1 as ([] & Ea & E1). injection E1 as <- <- <-. apply rassert_Ok in Ea as ->. destruct H1 as (cl1 & c1 & H1); [exact Hf|].
  destruct (step (set_claimed g s1) ASwap [] l Hf ltac:(by exists cl1, c1)) as (p2 & g2 & ev2 & E2 & H2). cbn [tstep set_claimed sh_slag] in E2.
  apply res_bind_Ok in E2 as ([w s2] & Ew & E2). apply res_bind_Ok in E2 as (r & Er & E2). injection E2 as <- <- <-. destruct H2 as (cl2 & c2 & H2); [exact Hf|].
  destruct (step (set_claimed g s2) (ALoad _) [] l Hf ltac:(by exists cl2, c2)) as (p3 & g3 & ev3 & E3 & H3). cbn [tstep set_claimed on_slag sh_slag cur_word] in E3.
  apply res_bind_Ok in E3 as ([x s3] & Ed & E3). injection E3 as <- <- <-. destruct H3 as (cl3 & c3 & H3); [exact Hf|]. cbn [app] in H3.
  eexists s1, _, s3. split; [done|]. split.
  { unfold Slag.refresh, Iter.new. rewrite (M_bind_run _ _ _ _ _ Ew), (M_bind_run _ _ _ _ _ Ed), (lift_bind _ _ _ _ Er). reflexivity. }
  assert (Hs1 : slag_hdr s1 = slag_hdr (sh_slag g) ∧ words s1 = words (sh_slag g)) by (unfold rc_claim in Ec; destruct (RC.claim _); by injection Ec as _ <-).
  assert (Hs2 : slag_hdr s2 = slag_hdr s1 ∧ words s1 !! 0%nat = Some w ∧ words s2 = <[0%nat := 0]> (words s1)) by (unfold word_swap in Ew; destruct (words s1 !! _) eqn:E0; [|done]; by injection Ew as <- <-).
  assert (Hs3 : slag_hdr s3 = slag_hdr s2 ∧ words s3 = words s2) by (unfold rc_dec in Ed; destruct (RC.dec_n _ _) as [[? ?]|]; [|done]; by injection Ed as _ <-).
  destruct Hs1 as [Hh1 Hw1], Hs2 as (Hh2 & Hw0 & Hw2), Hs3 as [Hh3 Hw3]. split_and!; [done|by rewrite Hh3, Hh2, Hh1|exists cl3, c3; exact H3|].
  unfold in_reach. cbn [cur_word next_word]. rewrite Hw3, Hw2, Hw1. rewrite Hw1 in Hw0. destruct (words (sh_slag g)) as [|w0 ws] eqn:Eg; [done|]. injection Hw0 as ->. cbn [list_insert insert Z.to_nat]. change (Z.to_nat 1) with 1%nat. cbn [drop].
  cbn [words_bits] in Hc. rewrite length_app, length_fmap in Hc. rewrite (words_bits_length 0 (0 + 1)).
  pose proof Hl as (_ & _ & _ & _ & _ & _ & _ & _ & _ & _ & _ & _ & _ & _ & Hc1). cbn [sum_list_with pending] in Hc. rewrite ?drop_0. lia.
Qed.

(** ** The reference count *)

(** What the owner of a slag may hold: a slag not yet used, or one whose loaded
    word is used up. *)
Definition used_up (p : pc) : Prop := p = AFresh ∨ ∃ it, p = AIter it ∧ cur_word it = 0.

Lemma unclaim_spec g p l : inv_slag g [p] l → used_up p →
  ∃ cl c s', rc_unclaim (sh_slag g) = Ok ((cl, c), s') ∧ slag_hdr s' = slag_hdr (sh_slag g) ∧ (cl = false → c = n_objects m) ∧ sh_pipe g = 0%nat ∧
    inv_at m slf (on_slag g s') [if cutoff_objects m <=? c then AClaim else Idle] l false c.
Proof.
  intros (cl & c & H) Hp. assert (Hpp : holder m p = 1%nat ∧ held m slf p = [] ∧ pending p = 0%nat) by (destruct Hp as [->|(it & -> & E0)]; cbn; rewrite ?E0; done).
  destruct Hpp as (Hh & Hhd & Hpd). destruct (unclaim_ok m slf size usable page Hl Hcut g p [] l cl c H Hh Hhd Hpd) as (p' & g' & E & H').
  pose proof (inv_rc _ _ _ _ _ _ _ H) as Hrc. destruct (inv_bound m slf size usable page Hl _ _ _ _ _ _ H) as [Hb Hc0]. pose proof (inv_count _ _ _ _ _ _ _ H) as Hc.
  assert (Hc63 : c < 2 ^ 63) by (rewrite Hhd in Hb; cbn [sum_list_with length] in *; rewrite Hpd in Hc; destruct Hl as (_ & _ & _ & _ & _ & _ & Hn & _); lia).
  unfold unclaim, rc_unclaim in E. rewrite Hrc, rc_unclaim_ok, bind_Ok in E by lia. injection E as <- <-. exists cl, c, (set_rc (sh_slag g) (rc_word false c)).
  unfold rc_unclaim. rewrite Hrc, rc_unclaim_ok by lia. split_and!; [done|done| | |done].
  - intros ->. destruct Hp as [->|(it & -> & _)]; [|by pose proof (inv_claim _ _ _ _ _ _ _ H)]. apply (inv_full _ _ _ _ _ _ _ H AFresh); [left|done].
  - pose proof (inv_holder _ _ _ _ _ _ _ H) as Hho. unfold holders in Hho. cbn [sum_list_with] in Hho. lia.
Qed.

(** A slag its owner lets go of is floating, or goes to the pipe. *)
Lemma inv_release g l c : inv_at m slf g [AClaim] l false c → inv_at m slf (set_pipe g (S (sh_pipe g))) [] l false c.
Proof.
  intros [H1 H2 H3 H4 H5 H6 H7 H8 H9 H10]. unfold holders in *. cbn [sum_list_with holder] in *.
  constructor; unfold holders; cbn [sum_list_with set_pipe sh_pipe]; try done; try lia. by intros p Hp%elem_of_nil.
Qed.

(** A slag that is taken from the pipe. *)
Lemma inv_take g l k : sh_pipe g = S k → inv_slag g [] l → ∃ c, inv_at m slf (set_pipe g k) [AClaim] l false c ∧ k = 0%nat.
Proof.
  intros Hk (cl & c & [H1 H2 H3 H4 H5 H6 H7 H8 H9 H10]). unfold holders in *. cbn [sum_list_with] in *. destruct cl; [done|]. exists c. split; [|lia].
  constructor; unfold holders; cbn [sum_list_with set_pipe sh_pipe holder]; try done; try lia.
  - by constructor.
  - by intros p ->%list_elem_of_singleton.
Qed.

(** ** Allocating *)
Lemma next_loop_spec fuel : ∀ g it l, sh_freed g = false → inv_slag g [AIter it] l → (Z.to_nat (remaining_words it) < fuel)%nat →
  ∃ o it' s', Iter.next_loop fuel it (sh_slag g) = Ok ((o, it'), s') ∧ slag_hdr s' = slag_hdr (sh_slag g) ∧ inv_slag (on_slag g s') [AIter it'] (option_list o ++ l) ∧
    (o = None → cur_word it' = 0 ∧ in_reach it (sh_slag g) = 0%nat).
Proof.
  induction fuel as [|f IH]; intros g it l Hf H Hfu; [lia|]. destruct (step g (AIter it) [] l Hf H) as (p1 & g1 & ev1 & E1 & H1). destruct H as (cl & c & H).
  pose proof (Forall_inv (inv_pcs _ _ _ _ _ _ _ H)) as (Hw & Hix & Hnx & Hrem & Hrem0 & _). cbn [tstep Iter.next_loop] in *. rewrite trailing_zeros_64 in * by done.
  destruct (Z.eqb_spec (cur_word it) 0) as [E0|Hne].
  - destruct (Z.eqb_spec (remaining_words it) 0) as [Er|Er].
    + exists None, it, (sh_slag g). split_and!; [done|done|exists cl, c; by destruct g|]. intros _. split; [done|]. unfold in_reach. rewrite E0.
      pose proof (proj2 (inv_words _ _ _ _ _ _ _ H)). by rewrite drop_ge by lia.
    + apply res_bind_Ok in E1 as ([w s1] & Ew & E1). apply res_bind_Ok in E1 as (r & Err & E1). injection E1 as <- <- <-. specialize (H1 Hf).
      destruct (step (on_slag g s1) (ALoad _) [] l Hf H1) as (p2 & g2 & ev2 & E2 & H2). cbn [tstep on_slag sh_slag cur_word] in E2.
      apply res_bind_Ok in E2 as ([x s2] & Ed & E2). injection E2 as <- <- <-. specialize (H2 Hf). cbn [app] in H2.
      set (it2 := mkIter w (next_word it + 1) (object_base it) (it_object_size it) r (cur_word_index it + 1)) in *. change (on_slag (on_slag g s1) s2) with (on_slag g s2) in H2.
      assert (Ewr : Iter.refresh_word it (sh_slag g) = Ok (it2, s2)) by (unfold Iter.refresh_word; rewrite (M_bind_run _ _ _ _ _ Ew), (M_bind_run _ _ _ _ _ Ed), (lift_bind _ _ _ _ Err); done).
      rewrite (M_bind_run _ _ _ _ _ Ewr). apply usub_inv in Err as [-> _].
      destruct (IH (on_slag g s2) it2 l Hf H2) as (o & it' & s' & E & Hh & Hi & Hn); [cbn; lia|]. exists o, it', s'. split; [done|].
      assert (Hs1 : slag_hdr s1 = slag_hdr (sh_slag g) ∧ words (sh_slag g) !! Z.to_nat (next_word it) = Some w ∧ words s1 = <[Z.to_nat (next_word it) := 0]> (words (sh_slag g)))
        by (unfold word_swap in Ew; destruct (words _ !! _) eqn:Elk; [|done]; by injection Ew as <- <-).
      assert (Hs2 : slag_hdr s2 = slag_hdr s1 ∧ words s2 = words s1) by (unfold rc_dec in Ed; destruct (RC.dec_n _ _) as [[? ?]|]; [|done]; by injection Ed as _ <-).
      destruct Hs1 as (Hh1 & Hw1 & Hws1), Hs2 as [Hh2 Hws2]. split_and!; [rewrite Hh; cbn; by rewrite Hh2|exact Hi|].
      intros ->. destruct (Hn eq_refl) as [Hc0 Hr0]. split; [done|]. revert Hr0. unfold in_reach. cbn [it2 cur_word next_word on_slag sh_slag]. rewrite Hws2, Hws1, E0.
      rewrite drop_insert_lt by lia. rewrite (drop_S _ w (Z.to_nat (next_word it))) by done. cbn [bit_list length words_bits]. rewrite length_app, length_fmap, (words_bits_length (0 + 1) 0).
      replace (Z.to_nat (next_word it + 1)) with (S (Z.to_nat (next_word it))) by lia. lia.
  - injection E1 as <- <- <-. eexists (Some _), _, (sh_slag g). split; [reflexivity|]. split_and!; [done| |done]. specialize (H1 Hf). by destruct g.
Qed.

Lemma next_spec g it l : sh_freed g = false → inv_slag g [AIter it] l →
  ∃ o it' s', Iter.next it (sh_slag g) = Ok ((o, it'), s') ∧ slag_hdr s' = slag_hdr (sh_slag g) ∧ inv_slag (on_slag g s') [AIter it'] (option_list o ++ l) ∧
    (o = None → cur_word it' = 0 ∧ in_reach it (sh_slag g) = 0%nat).
Proof. intros Hf H. by apply next_loop_spec; [..|lia]. Qed.

(** ** Releasing the objects of a mask *)
(** The owner gives up what is left of its word. *)
Lemma inv_unhold g it l : inv_slag g [AIter it] l → inv_slag g [AIter (with_word it 0)] (mask_objects m slf (cur_word_index it) (cur_word it) ++ l).
Proof.
  intros (cl & c & [H1 H2 H3 H4 H5 H6 H7 H8 H9 H10]). exists cl, c. constructor; try done.
  - etransitivity; [|exact H3]. rewrite !bind_cons. cbn [held with_word cur_word bit_list fmap list_fmap app cur_word_index]. by rewrite app_nil_r.
  - constructor; [|constructor]. apply Forall_inv in H5 as (Hw & Hr). by split.
  - by intros p ->%list_elem_of_singleton.
Qed.

(** Nothing of the mask is marked yet. *)
Lemma mask_unmarked g rest l cl c mask w x : inv_at m slf g rest (mask_objects m slf w mask ++ l) cl c → words (sh_slag g) !! Z.to_nat w = Some x → 0 ≤ w → word_ok mask → Z.land x mask = 0.
Proof.
  intros H Ew Hw Hm. pose proof (all_objects_NoDup m slf size usable page Hl) as Hnd. rewrite <- (inv_objects _ _ _ _ _ _ _ H) in Hnd.
  eapply mask_disjoint; [exact Hnd| |exact Ew|exact Hw|exact Hm|exact (Forall_lookup_1 _ _ _ _ (proj1 (inv_words _ _ _ _ _ _ _ H)) Ew)].
  intros a Ha. rewrite !elem_of_app. tauto.
Qed.

(** The outcome of a bulk release: with the owner, floating, in the pipe, or,
    when the slag was floating and is now full, nowhere. *)
Definition bulk_outcome g rest l (cl : bool) (now : Z) s : Prop :=
  if cl then inv_slag (on_slag g s) rest l
  else if now =? n_objects m then l = [] ∧ (sh_pipe g = 0%nat ∧ rest = [] ∨ inv_at m slf (on_slag g s) rest [] false (n_objects m))
  else if (cutoff_objects m <=? now) && (sh_pipe g + length rest =? 0)%nat then inv_at m slf (set_pipe (on_slag g s) 1) rest l false now
  else inv_slag (on_slag g s) rest l.

Lemma bulk_spec g rest mask w l : inv_slag g rest (mask_objects m slf w mask ++ l) → 0 ≤ w < n_bitset_words m → word_ok mask → Forall owner rest → count_ones mask ≠ 0 →
  ∃ cl c s1 before s2, rc_inc (count_ones mask) (sh_slag g) = Ok ((cl, c), s1) ∧ word_fetch_or w mask s1 = Ok (before, s2) ∧ Z.land before mask = 0 ∧
    slag_hdr s1 = slag_hdr (sh_slag g) ∧ slag_hdr s2 = slag_hdr (sh_slag g) ∧ 0 ≤ c ∧ c + count_ones mask ≤ n_objects m ∧
    (cl = false → (c < cutoff_objects m ↔ (sh_pipe g + length rest = 0)%nat)) ∧ bulk_outcome g rest l cl (c + count_ones mask) s2.
Proof.
  intros (cl & c & H) Hw Hm Hrest Hones. pose proof (inv_words _ _ _ _ _ _ _ H) as [Hok Hlen].
  destruct (lookup_lt_is_Some_2 (words (sh_slag g)) (Z.to_nat w)) as [x Ex]; [lia|]. pose proof (mask_unmarked _ _ _ _ _ _ _ _ H Ex ltac:(lia) Hm) as Hland.
  assert (Hx : word_ok x) by (by apply (Forall_lookup_1 _ _ _ _ Hok Ex)).
  assert (Hcn : count_ones mask = Z.of_nat (length (mask_objects m slf w mask))) by (unfold mask_objects; by rewrite length_fmap, <- count_ones_length).
  destruct (inv_bound m slf size usable page Hl _ _ _ _ _ _ (proj2 (inv_idle _ _ _ _ _) H)) as [Hb Hc0]. rewrite length_app in Hb. pose proof H as [H1 H2 H3 H4 H5 H6 H7 H8 H9 H10].
  assert (Hp0 : sum_list_with pending rest = 0%nat ∧ sum_list_with (holder m) rest = length rest).
  { clear -Hrest. induction Hrest as [|q rest Hq _ [IH1 IH2]]; [done|]. cbn. rewrite IH1, IH2. by destruct q. }
  destruct Hp0 as [Hp0 Hh0]. cbn [held length] in Hb. pose proof Hl as (_ & _ & _ & _ & _ & _ & Hn & _ & _ & _ & _ & _ & _ & _ & Hcut1).
  assert (Hcb : c + count_ones mask ≤ n_objects m) by lia. set (now := c + count_ones mask) in *.
  eexists cl, c, _, _, _. split; [unfold rc_inc; rewrite H1, rc_inc_ok by lia; reflexivity|]. split; [unfold word_fetch_or; cbn [words set_rc]; rewrite Ex; reflexivity|]. fold now.
  split_and!; [done|done|done|done|done| |].
  { intros ->. unfold holders in *. rewrite Hh0 in *. split; intros; [|destruct H8 as [?|[_ ?]]; lia]. destruct (decide (sh_pipe g + length rest = 1)%nat) as [E|]; [|lia]. specialize (H9 eq_refl E). lia. }
  set (s2 := set_words _ _). assert (Hws : words s2 = <[Z.to_nat w := Z.lor x mask]> (words (sh_slag g))) by done.
  pose proof (set_mask_perm _ w x mask Ex ltac:(lia) ltac:(unfold word_ok in *; lia) ltac:(unfold word_ok in *; lia) Hland) as Hset.
  assert (Hcore : ∀ g' cl', rc (sh_slag g') = rc_word cl' now → words (sh_slag g') = words s2 → sh_epoch g' = sh_epoch g → (holders m g' rest ≤ 1)%nat →
    sum_list_with claimer rest = (if cl' then 1%nat else 0%nat) → (holders m g' rest = 0%nat → now < cutoff_objects m) → (cl' = false → holders m g' rest = 1%nat → cutoff_objects m ≤ now) →
    (AFresh ∈ rest → False) → inv_at m slf g' rest l cl' now).
  { intros g' cl' Hrc Hw' Hep Hho Hcl Hfl Hre Hno. constructor; rewrite ?Hw', ?Hws, ?Hep; try done; try (intros Hz; left; by apply Hfl).
    - split; [apply Forall_insert; [done|by apply word_ok_lor]|by rewrite length_insert].
    - rewrite Hset, fmap_app. etransitivity; [|exact H3]. unfold mask_objects. rewrite <- list_fmap_compose. unfold compose. solve_Permutation.
    - rewrite Hset, length_app, length_fmap, Hp0. unfold now. rewrite count_ones_length. lia.
    - intros q Hq Hf. exfalso. pose proof (proj1 (list.Forall_forall _ _) Hrest q Hq) as Ho. by destruct q. }
  assert (Hfresh : AFresh ∈ rest → False).
  { intros Hin. destruct (H10 AFresh Hin I) as [_ ->]. lia. }
  unfold bulk_outcome. destruct cl.
  - exists true, now. apply Hcore; try done.
    intros Hz. exfalso. pose proof (claimers_holders m rest). unfold holders in Hz. cbn [sh_pipe on_slag] in Hz. lia.
  - unfold holders in *. rewrite Hh0 in *. destruct (Z.eqb_spec now (n_objects m)) as [En|En].
    + split; [destruct l; [done|cbn [length] in Hb; lia]|]. destruct (decide (sh_pipe g = 0%nat ∧ rest = [])) as [|Hne]; [by left|right].
      assert (l = []) as -> by (destruct l; [done|cbn [length] in Hb; lia]). rewrite <- En. apply Hcore; try done; unfold holders; rewrite ?Hh0; cbn [sh_pipe on_slag]; [|lia].
      intros Hz. destruct Hne. split; [lia|]. destruct rest; [done|cbn in Hz; lia].
    + destruct (Z.leb_spec (cutoff_objects m) now) as [Hge|Hlt]; cbn [andb].
      * destruct (Nat.eqb_spec (sh_pipe g + length rest) 0) as [E0|E0].
        -- apply Hcore; try done; unfold holders; rewrite ?Hh0; cbn [sh_pipe set_pipe on_slag]; lia.
        -- exists false, now. apply Hcore; try done; unfold holders; rewrite ?Hh0; cbn [sh_pipe on_slag]; lia.
      * exists false, now. apply Hcore; try done; unfold holders; rewrite ?Hh0; cbn [sh_pipe on_slag]. intros _ E1. specialize (H9 eq_refl E1). lia.
Qed.
End spec.
