(* ===== verification/SlagAlloc.v ===== *)
(** * Slag allocators over many slags

    Models [SlagAllocator] of [src/elfmalloc/src/slag.rs]: the backend of the
    thread-local caches, which owns one slag at a time, takes the next one from
    the pipe of available slags or from a page allocator, and carries out the
    transitions of the slags objects are returned to.  Page allocators are the
    trait [CoarseAllocator] as an interface with laws, the pipe is a BagPipe over
    any lawful revocable bag.  Calls of different threads do not overlap (for
    the interleaving of their atomic steps on one slag, see SlagProto). *)

From Stdlib Require Import ZArith Lia.
From stdpp Require Import base numbers list gmap option.
From S2P Require Import Prelude F64 SlagMeta SlagBits SlagProto SlagSpec Bag BagPipe.

Open Scope Z_scope.

#[export] Instance alloc_type_eq_dec : EqDecision AllocType.
Proof. solve_decision. Defined.
#[export] Instance metadata_eq_dec : EqDecision Metadata.
Proof. solve_decision. Defined.

(** ** Page allocators

    The memory of pages: [page_slag] reads the start of a page as a slag
    (nothing when those bytes are zero), [write_slag] writes it. *)
Class PageMemory (P : Type) := {
  page_slag : P → Z → option SlagS;
  write_slag : Z → SlagS → P → P
}.

(** The trait [CoarseAllocator]: [CA] is a thread's handle, [P] what the handles
    share, memory included. *)
Class CoarseAllocator (CA P : Type) := {
  ca_page_size : CA → Z;
  ca_alloc : CA → M P (Z * CA);
  ca_free : CA → Z → bool → M P CA;
  ca_clone : CA → M P CA;
  ca_drop : CA → M P unit
}.

(** The words of a bit-set that stay when all but the first [k] are zeroed. *)
Definition zero_beyond (k : nat) (s : SlagS) : SlagS := set_words s (take k (words s) ++ replicate (length (words s) - k) 0).

(** What a page allocator promises.  [ca_inv n cs p held]: for [n] more calls,
    with the handles [cs], the pages [held] are handed out.  A call that
    allocates may panic because memory is exhausted.  Pages handed out keep
    their contents; a page that is freed keeps its start, or is zeroed, or, when
    the caller asks for it, zeroed behind its first system page, which holds
    [first_words] words of a bit-set.  [ca_dead] is what is left of a handle
    that was dropped. *)
Class CoarseLaws (CA P : Type) `{PageMemory P} `{CoarseAllocator CA P} := {
  page_bytes : Z;
  page_type : AllocType;
  first_words : nat;
  ca_inv : Z → list CA → P → list Z → Prop;
  ca_dead : CA → CA;
  page_bytes_law : ∃ e, 0 ≤ e ≤ 60 ∧ page_bytes = 2 ^ e;
  ca_page_size_law n cs p held i c : ca_inv n cs p held → cs !! i = Some c → ca_page_size c = page_bytes;
  ca_mono_law n n' cs p held : ca_inv n cs p held → n' ≤ n → ca_inv n' cs p held;
  ca_perm_law n cs p held held' : ca_inv n cs p held → held ≡ₚ held' → ca_inv n cs p held';
  ca_held_law n cs p held : ca_inv n cs p held → NoDup held ∧ ∀ q, q ∈ held → (page_bytes | q) ∧ 0 < q ∧ q + page_bytes ≤ 2 ^ 63;
  read_write_law p q s r : page_slag (write_slag q s p) r = if decide (r = q) then Some s else page_slag p r;
  ca_write_law n cs p held q s : ca_inv n cs p held → q ∈ held → slag_ty s = page_type → ca_inv n cs (write_slag q s p) held;
  ca_alloc_law n cs p held i c : ca_inv (n + 1) cs p held → cs !! i = Some c → 0 ≤ n →
    ca_alloc c p = Fault UnwrapNone ∨
    ∃ q c' p', ca_alloc c p = Ok ((q, c'), p') ∧ ca_inv n (<[i := c']> cs) p' (q :: held) ∧
      (∀ r, r ∈ held → page_slag p' r = page_slag p r) ∧ (∀ r, page_slag p' r = page_slag p r ∨ page_slag p' r = None);
  ca_free_law n cs p held i c q d : ca_inv (n + 1) cs p (q :: held) → cs !! i = Some c → 0 ≤ n →
    ∃ c' p', ca_free c q d p = Ok (c', p') ∧ ca_inv n (<[i := c']> cs) p' held ∧ (∀ r, r ∈ held → page_slag p' r = page_slag p r) ∧
      (∀ r, page_slag p' r = page_slag p r ∨ page_slag p' r = None ∨ (d = true ∧ r = q ∧ page_slag p' r = zero_beyond first_words <$> page_slag p r));
  ca_clone_law n cs p held i c : ca_inv (n + 1) cs p held → cs !! i = Some c → 0 ≤ n →
    ∃ c' p', ca_clone c p = Ok (c', p') ∧ ca_inv n (cs ++ [c']) p' held ∧ (∀ r, page_slag p' r = page_slag p r);
  ca_drop_law n cs p held i c : ca_inv n cs p held → cs !! i = Some c →
    ∃ p', ca_drop c p = Ok (tt, p') ∧ ca_inv n (<[i := ca_dead c]> cs) p' held ∧ (∀ r, page_slag p' r = page_slag p r)
}.

(** A thread's allocator. *)
Record SlagAllocator (CA : Type) := mkAlloc { sa_m : Z; sa_slag : Z; sa_pages : CA; sa_available : BagPipe; sa_decommit : Z }.
Arguments mkAlloc {CA} sa_m sa_slag sa_pages sa_available sa_decommit.
Arguments sa_m {CA} s.
Arguments sa_slag {CA} s.
Arguments sa_pages {CA} s.
Arguments sa_available {CA} s.
Arguments sa_decommit {CA} s.

(** What the allocators of a size class share: the pages, the pipe of available
    slags, and the metadata records by address. *)
Record SlagHeap (P B : Type) := mkSHeap { hp_pages : P; hp_avail : BagPipeState B; hp_metas : gmap Z Metadata }.
Arguments mkSHeap {P B} hp_pages hp_avail hp_metas.
Arguments hp_pages {P B} s.
Arguments hp_avail {P B} s.
Arguments hp_metas {P B} s.

(** The words of a bit-set of [n] words in the memory of [l]. *)
Definition bitset_memory (n : Z) (l : list Z) : list Z := take (Z.to_nat n) (l ++ replicate (Z.to_nat n) 0).

Module SA.
Section ops.
  Context {CA P : Type} `{!PageMemory P} `{!CoarseAllocator CA P} {B : Type} `{BagLaws B Z} `{!RevocableWeakBag B Z}.
  Abbreviation Alloc := (SlagAllocator CA).
  Abbreviation Heap := (SlagHeap P B).

Definition on_pages {A} (op : M P A) : M Heap A := fun h =>
  '(x, p) ← op (hp_pages h); Ok (x, mkSHeap p (hp_avail h) (hp_metas h)).

(** Operations of a handle on the pipe. *)
Definition avail_push (it : Z) (bp : BagPipe) : M Heap BagPipe := fun h =>
  '(bp', st) ← push_mut (push_fuel (hp_avail h)) it (bp, hp_avail h); Ok (bp', mkSHeap (hp_pages h) st (hp_metas h)).
Definition avail_pop (bp : BagPipe) : M Heap (PopResult Z * BagPipe) := fun h =>
  '(r, (bp', st)) ← try_pop_mut (bp, hp_avail h); Ok ((r, bp'), mkSHeap (hp_pages h) st (hp_metas h)).
Definition avail_revoke (it : Z) : M Heap bool := fun h =>
  '(r, st) ← revoke it (hp_avail h); Ok (r, mkSHeap (hp_pages h) st (hp_metas h)).
Definition avail_clone : M Heap BagPipe := fun h =>
  '(bp, st) ← BagPipe.clone (hp_avail h); Ok (bp, mkSHeap (hp_pages h) st (hp_metas h)).
Definition avail_drop (bp : BagPipe) : M Heap unit := fun h =>
  st ← drop_pipe (bp, hp_avail h); Ok (tt, mkSHeap (hp_pages h) st (hp_metas h)).

(** Metadata records, and slags in memory. *)
Definition get_meta (m : Z) : M Heap Metadata := fun h => md ← deref (hp_metas h !! m); Ok (md, h).
Definition at_slag {A} (p : Z) (op : M SlagS A) : M Heap A := fun h =>
  s ← deref (page_slag (hp_pages h) p);
  '(x, s') ← op s;
  Ok (x, mkSHeap (write_slag p s' (hp_pages h)) (hp_avail h) (hp_metas h)).
Definition meta_of (p : Z) : M Heap Z := fun h => Ok (default 0 (slag_meta <$> page_slag (hp_pages h) p), h).

(** [Slag::init]. *)
Definition slag_init (p m : Z) : M Heap unit := fun h =>
  md ← deref (hp_metas h !! m);
  s ← Slag.init m md (bitset_memory (n_bitset_words md) (default [] (words <$> page_slag (hp_pages h) p)));
  Ok (tt, mkSHeap (write_slag p s (hp_pages h)) (hp_avail h) (hp_metas h)).

Definition set_slag (a : Alloc) (p : Z) : Alloc := mkAlloc (sa_m a) p (sa_pages a) (sa_available a) (sa_decommit a).
Definition set_pages (a : Alloc) (c : CA) : Alloc := mkAlloc (sa_m a) (sa_slag a) c (sa_available a) (sa_decommit a).
Definition set_avail (a : Alloc) (bp : BagPipe) : Alloc := mkAlloc (sa_m a) (sa_slag a) (sa_pages a) bp (sa_decommit a).

Definition partial_new (meta decommit : Z) (pa : CA) (avail : BagPipe) : M Heap Alloc :=
  '(first_slag, pa) ← on_pages (ca_alloc pa);
  _ ← slag_init first_slag meta;
  mret (mkAlloc meta first_slag pa avail decommit).

(** [new]: [meta] is the address of the box. *)
Definition new (meta max_objects object_size index : Z) (cutoff_factor : f64) (eager_decommit : Z) (pa : CA) (p : P) : res (Alloc * Heap) :=
  md ← Meta.compute_metadata object_size (ca_page_size pa) index cutoff_factor max_objects SmallSlag;
  '(first_slag, pa, p) ← (match ca_alloc pa p with Ok (r, p) => Ok (r, p) | Fault f => Fault f end);
  '(bp, st) ← new_size 8;
  '(_, h) ← slag_init first_slag meta (mkSHeap p st {[meta := md]});
  Ok (mkAlloc meta first_slag pa bp eager_decommit, h).

(** The tail of [refresh]: claim a slag, make an iterator of it. *)
Definition claim (p : Z) (meta : Metadata) : M Heap AllocIter :=
  claimed ← at_slag p rc_claim;
  _ ← lift (rassert claimed);
  at_slag p (Slag.refresh p meta).

Definition refresh (a : Alloc) : M Heap (AllocIter * Alloc) :=
  meta ← get_meta (sa_m a);
  '(_, was) ← at_slag (sa_slag a) rc_unclaim;
  mp ← meta_of (sa_slag a);
  md ← get_meta mp;
  _ ← lift (rassert (bool_decide (meta = md)));
  if cutoff_objects meta <=? was then
    it ← claim (sa_slag a) meta;
    mret (it, a)
  else
    '(r, bp) ← avail_pop (sa_available a);
    let a := set_avail a bp in
    '(next_slab, a) ← (match r with
      | inl slab => mret (slab, a)
      | inr _ =>
          '(new_raw, pa) ← on_pages (ca_alloc (sa_pages a));
          mp ← meta_of new_raw;
          _ ← (if mp =? sa_m a then mret tt else slag_init new_raw (sa_m a));
          mret (new_raw, set_pages a pa)
      end);
    let a := set_slag a next_slab in
    it ← claim (sa_slag a) meta;
    mret (it, a).

Definition transition_available (a : Alloc) (slag : Z) : M Heap Alloc :=
  bp ← avail_push slag (sa_available a);
  mret (set_avail a bp).

Definition transition_full (a : Alloc) (slag : Z) (meta : Metadata) : M Heap Alloc :=
  let real_size := usable_size meta in
  revoked ← avail_revoke slag;
  if (revoked : bool) then
    _ ← at_slag slag (fun s => Ok (tt, set_handle s 0));
    pa ← on_pages (ca_free (sa_pages a) slag (sa_decommit a <=? real_size));
    mret (set_pages a pa)
  else mret a.

(** [word] is the index of the word in the bit-set of [slag]. *)
Definition bulk_free (a : Alloc) (mask word slag : Z) (meta : Metadata) : M Heap Alloc :=
  let n_ones := count_ones mask in
  if n_ones =? 0 then mret a
  else
    '(claimed, was) ← at_slag slag (rc_inc n_ones);
    before ← at_slag slag (word_fetch_or word mask);
    _ ← lift (rassert (Z.land before mask =? 0));
    now ← lift (uadd was n_ones);
    if negb claimed then
      if now =? n_objects meta then transition_full a slag meta
      else if (was <? cutoff_objects meta) && (cutoff_objects meta <=? now) then transition_available a slag
      else mret a
    else mret a.

Definition free (a : Alloc) (item : Z) : M Heap Alloc :=
  meta ← get_meta (sa_m a);
  it_slag ← lift (Slag.find item (total_bytes meta));
  mp ← meta_of it_slag;
  md ← get_meta mp;
  t ← at_slag it_slag (Slag.free md it_slag item);
  match t with
  | Null => mret a
  | Available => transition_available a it_slag
  | Full => transition_full a it_slag meta
  end.

Definition contains (a : Alloc) (it : Z) : M Heap bool :=
  meta ← get_meta (sa_m a);
  it_slag ← lift (Slag.find it (total_bytes meta));
  mret (it_slag =? sa_slag a).

Definition clone (a : Alloc) : M Heap Alloc :=
  pa ← on_pages (ca_clone (sa_pages a));
  '(first_slag, pa) ← on_pages (ca_alloc pa);
  _ ← slag_init first_slag (sa_m a);
  bp ← avail_clone;
  mret (mkAlloc (sa_m a) first_slag pa bp (sa_decommit a)).

(** [Drop], and the drop of the fields after it. *)
Definition drop (a : Alloc) : M Heap unit :=
  let slag := sa_slag a in
  meta ← get_meta (sa_m a);
  '(claimed, was) ← at_slag slag rc_unclaim;
  let free_page := (pa ← on_pages (ca_free (sa_pages a) slag false); mret (set_pages a pa)) in
  a ← (if (claimed : bool) then
         if was =? n_objects meta then free_page
         else if cutoff_objects meta <=? was then transition_available a slag else mret a
       else free_page);
  _ ← on_pages (ca_drop (sa_pages a));
  avail_drop (sa_available a).
End ops.
End SA.

(** ** The slags of a size class *)

(** What is known of a slag in use: its state, its owner if it has one, and its
    objects with the clients. *)
Record ghost := mkGhost { gh_sh : Sh; gh_ps : list pc; gh_live : list Z }.

(** Lists spread over the slags. *)
Definition spread {A} (f : Z → ghost → list A) (G : gmap Z ghost) : list A := map_to_list G ≫= (fun x => f x.1 x.2).

Lemma spread_take {A} (f : Z → ghost → list A) G p x : G !! p = Some x → spread f G ≡ₚ f p x ++ spread f (delete p G).
Proof. intros Hp. unfold spread. by rewrite <- (map_to_list_delete G p x Hp), bind_cons. Qed.

Lemma spread_add {A} (f : Z → ghost → list A) G p x : G !! p = None → spread f (<[p := x]> G) ≡ₚ f p x ++ spread f G.
Proof. intros Hp. unfold spread. by rewrite map_to_list_insert, bind_cons. Qed.

Lemma spread_update {A} (f : Z → ghost → list A) G p x x' : G !! p = Some x → spread f (<[p := x']> G) ++ f p x ≡ₚ spread f G ++ f p x'.
Proof.
  intros Hp. rewrite (spread_take f G p x Hp), <- (insert_delete_eq G p x'), spread_add by apply lookup_delete_eq. solve_Permutation.
Qed.

Lemma elem_of_spread {A} (f : Z → ghost → list A) G y : y ∈ spread f G ↔ ∃ p x, G !! p = Some x ∧ y ∈ f p x.
Proof.
  unfold spread. rewrite list_elem_of_bind. split.
  - intros ([p x] & Hy & Hx%elem_of_map_to_list). by exists p, x.
  - intros (p & x & Hx & Hy). exists (p, x). by rewrite elem_of_map_to_list.
Qed.

Definition slag_pages (G : gmap Z ghost) : list Z := spread (fun p _ => [p]) G.

Lemma elem_of_slag_pages G p : p ∈ slag_pages G ↔ is_Some (G !! p).
Proof.
  unfold slag_pages. rewrite elem_of_spread. split; [|by intros [x Hx]; exists p, x; set_solver]. by intros (q & x & Hx & ->%list_elem_of_singleton).
Qed.

(** Two lists that change by the same parts. *)
Lemma perm_exchange {A} (a a' b b' x y : list A) : a ≡ₚ b → a' ++ x ≡ₚ a ++ y → b' ++ x ≡ₚ b ++ y → a' ≡ₚ b'.
Proof. intros H1 H2 H3. apply (Permutation_app_inv_r x). by rewrite H2, H3, H1. Qed.

(** What is assumed of a size class: the metadata [md] at address [mp] describes
    a layout that fits a page, and initialization makes all objects available;
    when pages are decommitted, the bit-set is in the part that stays. *)
Record class_ok {CA P : Type} `{CoarseLaws CA P} {B : Type} `{BagLaws B Z} (md : Metadata) (mp decommit size usable : Z) : Prop := {
  cl_layout : layout_ok size usable page_bytes md;
  cl_fits : objects_offset md + n_objects md * object_size md ≤ page_bytes;
  cl_cutoff : cutoff_objects md ≤ n_objects md;
  cl_init : mask_ok md ∧ init_good md;
  cl_type : ty md = page_type;
  cl_meta : mp ≠ 0;
  cl_tail : decommit ≤ usable_size md → (Z.to_nat (n_bitset_words md) ≤ first_words)%nat;
  cl_item (q : Z) : 0 < q < 2 ^ 63 → bag_item q
}.

Section system.
  Context {CA P : Type} `{CoarseLaws CA P} {B : Type} `{BagLaws B Z} `{!RevocableWeakBag B Z} `{!RevocableLaws B Z}.
  Context (md : Metadata) (mp decommit size usable : Z).
  Hypothesis Hok : class_ok md mp decommit size usable.
  Abbreviation Hl := (cl_layout _ _ _ _ _ Hok).
  Abbreviation Hfits := (cl_fits _ _ _ _ _ Hok).
  Abbreviation Hcut := (cl_cutoff _ _ _ _ _ Hok).
  Abbreviation Hinit := (cl_init _ _ _ _ _ Hok).
  Abbreviation Hty := (cl_type _ _ _ _ _ Hok).
  Abbreviation Hmp := (cl_meta _ _ _ _ _ Hok).
  Abbreviation Htail := (cl_tail _ _ _ _ _ Hok).
  Abbreviation Hitem := (cl_item _ _ _ _ _ Hok).
  Abbreviation Alloc := (SlagAllocator CA).
  Abbreviation Heap := (SlagHeap P B).
  Implicit Types (h : Heap) (G : gmap Z ghost) (own : list (Z * pc)) (live lost : list Z) (a : Alloc).

(** The pipe of available slags, with the handles [bps]: [n] more calls. *)
Record apool (n : Z) (st : BagPipeState B) (bps : list BagPipe) : Prop := {
  ap_st : st_ok st;
  ap_n : 0 ≤ n;
  ap_room : Forall (room (2 * n)) bps;
  ap_refs : 1 ≤ all_refs st;
  ap_bound : (2 * (all_refs st + n) + 3) * (2 * n + 1) < 2 ^ 63
}.

Record slag_good (p : Z) (x : ghost) : Prop := {
  sg_hdr : slag_hdr (sh_slag (gh_sh x)) = (ty md, mp);
  sg_freed : sh_freed (gh_sh x) = false;
  sg_inv : inv_slag md p (gh_sh x) (gh_ps x) (gh_live x);
  sg_owner : Forall owner (gh_ps x)
}.

(** The slags in use [G]; pages that hold a slag that is in no pipe and has no
    objects in use are [lost]. *)
Record sys_at (n : Z) (cs : list CA) (bps : list BagPipe) own h live G lost : Prop := {
  sy_pages : ca_inv n cs (hp_pages h) (slag_pages G ++ lost);
  sy_avail : apool n (hp_avail h) bps;
  sy_meta : hp_metas h !! mp = Some md;
  sy_read p x : G !! p = Some x → page_slag (hp_pages h) p = Some (sh_slag (gh_sh x));
  sy_good p x : G !! p = Some x → slag_good p x;
  sy_pipe : contents (hp_avail h) ≡ₚ spread (fun p x => replicate (sh_pipe (gh_sh x)) p) G;
  sy_own : own ≡ₚ spread (fun p x => pair p <$> gh_ps x) G;
  sy_live : live ≡ₚ spread (fun _ => gh_live) G;
  sy_cached p s : p ∉ slag_pages G ++ lost → page_slag (hp_pages h) p = Some s → slag_meta s = mp → fresh_slag md p s ∧ slag_hdr s = (ty md, mp)
}.

(** The slags of a class, whichever they are. *)
Definition core (n : Z) (cs : list CA) (bps : list BagPipe) own h live : Prop := ∃ G lost, sys_at n cs bps own h live G lost.

Lemma core_perm n cs bps own own' h live live' : core n cs bps own h live → own ≡ₚ own' → live ≡ₚ live' → core n cs bps own' h live'.
Proof. intros (G & lost & []) Ho Hlv. exists G, lost. split; try done; by rewrite <- ?Ho, <- ?Hlv. Qed.

Lemma apool_mono n n' st bps : apool n st bps → 0 ≤ n' ≤ n → apool n' st bps.
Proof.
  intros [] Hn. split; try done; [lia| |nia]. eapply list.Forall_impl; [exact ap_room0|]. intros bp. apply room_mono. lia.
Qed.

Lemma core_mono n n' cs bps own h live : core n cs bps own h live → 0 ≤ n' ≤ n → core n' cs bps own h live.
Proof. intros (G & lost & []) Hn. exists G, lost. split; try done; [eapply ca_mono_law; [eassumption|lia]|by eapply apool_mono]. Qed.

(** Where a slag's page is, and that its layout is in bounds. *)
Lemma page_facts n cs bps own h live G lost p : sys_at n cs bps own h live G lost → p ∈ slag_pages G ++ lost →
  0 < p ∧ p + page_bytes ≤ 2 ^ 63 ∧ (page_bytes | p) ∧ p + objects_offset md + n_objects md * object_size md ≤ p + page_bytes < 2 ^ 64.
Proof.
  intros Hs Hp. destruct (ca_held_law _ _ _ _ (sy_pages _ _ _ _ _ _ _ _ Hs)) as [_ Hq]. destruct (Hq p Hp) as (Hd & Hp1 & Hp2). pose proof Hfits. split_and!; try done; lia.
Qed.

Lemma in_held G lost p x : G !! p = Some x → p ∈ slag_pages G ++ lost.
Proof. intros Hp. apply elem_of_app. left. by apply elem_of_slag_pages. Qed.

(** One slag changes. *)
Lemma sys_update n cs bps own h live G lost n' cs' bps' own' h' live' p x x' :
  sys_at n cs bps own h live G lost → G !! p = Some x →
  ca_inv n' cs' (hp_pages h') (slag_pages G ++ lost) → apool n' (hp_avail h') bps' → hp_metas h' = hp_metas h →
  page_slag (hp_pages h') p = Some (sh_slag (gh_sh x')) → (∀ q, q ≠ p → page_slag (hp_pages h') q = page_slag (hp_pages h) q) → slag_good p x' →
  contents (hp_avail h') ++ replicate (sh_pipe (gh_sh x)) p ≡ₚ contents (hp_avail h) ++ replicate (sh_pipe (gh_sh x')) p →
  own' ++ (pair p <$> gh_ps x) ≡ₚ own ++ (pair p <$> gh_ps x') → live' ++ gh_live x ≡ₚ live ++ gh_live x' →
  core n' cs' bps' own' h' live'.
Proof.
  intros Hs Hp Hc Ha Hm Hr Hr' Hg Hpipe Hown Hlive. pose proof Hs as []. exists (<[p := x']> G), lost.
  assert (Hpg : slag_pages (<[p := x']> G) ≡ₚ slag_pages G) by (apply (Permutation_app_inv_r [p]); exact (spread_update (fun p _ => [p]) G p x x' Hp)).
  split.
  - eapply ca_perm_law; [exact Hc|]. by rewrite Hpg.
  - done.
  - by rewrite Hm.
  - intros q y. destruct (decide (q = p)) as [->|Hne]; [rewrite lookup_insert_eq; by intros [= <-]|]. rewrite lookup_insert_ne by done. intros Hy. rewrite Hr' by done. by apply sy_read0.
  - intros q y. destruct (decide (q = p)) as [->|Hne]; [rewrite lookup_insert_eq; by intros [= <-]|]. rewrite lookup_insert_ne by done. apply sy_good0.
  - eapply perm_exchange; [exact sy_pipe0|exact Hpipe|]. exact (spread_update (fun p x => replicate (sh_pipe (gh_sh x)) p) G p x x' Hp).
  - eapply perm_exchange; [exact sy_own0|exact Hown|]. exact (spread_update (fun p x => pair p <$> gh_ps x) G p x x' Hp).
  - eapply perm_exchange; [exact sy_live0|exact Hlive|]. exact (spread_update (fun _ => gh_live) G p x x' Hp).
  - intros q s. rewrite Hpg. intros Hq. assert (q ≠ p) by (intros ->; apply Hq; by eapply in_held). rewrite Hr' by done. by apply sy_cached0.
Qed.

(** A slag without objects in use leaves, for the page allocator or lost. *)
Lemma sys_remove n cs bps own h live G lost lost' n' cs' bps' own' h' live' p x :
  sys_at n cs bps own h live G lost → G !! p = Some x →
  ca_inv n' cs' (hp_pages h') (slag_pages (delete p G) ++ lost') → apool n' (hp_avail h') bps' → hp_metas h' = hp_metas h →
  (∀ q, q ∈ slag_pages (delete p G) → page_slag (hp_pages h') q = page_slag (hp_pages h) q) →
  (∀ q s, q ∉ slag_pages (delete p G) ++ lost' → page_slag (hp_pages h') q = Some s → slag_meta s = mp → fresh_slag md q s ∧ slag_hdr s = (ty md, mp)) →
  contents (hp_avail h') ++ replicate (sh_pipe (gh_sh x)) p ≡ₚ contents (hp_avail h) →
  own' ++ (pair p <$> gh_ps x) ≡ₚ own → live' ++ gh_live x ≡ₚ live →
  core n' cs' bps' own' h' live'.
Proof.
  intros Hs Hp Hc Ha Hm Hr Hf Hpipe Hown Hlive. pose proof Hs as []. exists (delete p G), lost'.
  assert (Hdel : ∀ {A} (f : Z → ghost → list A) l l', l' ++ f p x ≡ₚ l → l ≡ₚ spread f G → l' ≡ₚ spread f (delete p G)).
  { intros A f l l' Q1 Q2. rewrite (spread_take f G p x Hp) in Q2. apply (Permutation_app_inv_r (f p x)). rewrite Q1, Q2. apply Permutation_app_comm. }
  split; try done.
  - by rewrite Hm.
  - intros q y Hy. rewrite Hr; [apply sy_read0; by apply lookup_delete_Some in Hy as [_ Hy]|]. apply elem_of_slag_pages. by exists y.
  - intros q y [_ Hy]%lookup_delete_Some. by apply sy_good0.
  - by eapply (Hdel _ (fun p x => replicate (sh_pipe (gh_sh x)) p)).
  - by eapply (Hdel _ (fun p x => pair p <$> gh_ps x)).
  - by eapply (Hdel _ (fun _ => gh_live)).
Qed.

(** A page comes into use. *)
Lemma sys_add n cs bps own h live G lost n' cs' bps' own' h' p x :
  sys_at n cs bps own h live G lost → p ∉ slag_pages G ++ lost →
  ca_inv n' cs' (hp_pages h') (p :: slag_pages G ++ lost) → apool n' (hp_avail h') bps' → hp_metas h' = hp_metas h →
  page_slag (hp_pages h') p = Some (sh_slag (gh_sh x)) → (∀ q, q ∈ slag_pages G → page_slag (hp_pages h') q = page_slag (hp_pages h) q) →
  (∀ q, q ≠ p → page_slag (hp_pages h') q = page_slag (hp_pages h) q ∨ page_slag (hp_pages h') q = None) →
  slag_good p x → gh_live x = [] → contents (hp_avail h') ≡ₚ contents (hp_avail h) → sh_pipe (gh_sh x) = 0%nat → own' ≡ₚ (pair p <$> gh_ps x) ++ own →
  core n' cs' bps' own' h' live.
Proof.
  intros Hs Hp Hc Ha Hm Hr Hr1 Hr2 Hg Hgl Hpipe Hp0 Hown. pose proof Hs as []. exists (<[p := x]> G), lost.
  assert (HG : G !! p = None) by (destruct (G !! p) eqn:E; [|done]; destruct Hp; by eapply in_held).
  assert (Hpg : slag_pages (<[p := x]> G) ≡ₚ p :: slag_pages G) by (exact (spread_add (fun p _ => [p]) G p x HG)).
  split; try done.
  - eapply ca_perm_law; [exact Hc|]. by rewrite Hpg.
  - by rewrite Hm.
  - intros q y. destruct (decide (q = p)) as [->|Hne]; [rewrite lookup_insert_eq; by intros [= <-]|]. rewrite lookup_insert_ne by done. intros Hy.
    rewrite Hr1; [by apply sy_read0|]. apply elem_of_slag_pages. by exists y.
  - intros q y. destruct (decide (q = p)) as [->|Hne]; [rewrite lookup_insert_eq; by intros [= <-]|]. rewrite lookup_insert_ne by done. apply sy_good0.
  - rewrite spread_add by done. by rewrite Hp0, Hpipe, sy_pipe0.
  - rewrite spread_add by done. by rewrite Hown, sy_own0.
  - rewrite spread_add by done. by rewrite Hgl, sy_live0.
  - intros q s. rewrite Hpg. cbn [app]. rewrite not_elem_of_cons. intros [Hne Hq] E Hms. destruct (Hr2 q Hne) as [E2|E2]; rewrite E2 in E; [|done]. by apply sy_cached0.
Qed.

(** ** Writing to one slag *)
Definition touched (p : Z) h h' : Prop :=
  hp_avail h' = hp_avail h ∧ hp_metas h' = hp_metas h ∧ (∀ q, q ≠ p → page_slag (hp_pages h') q = page_slag (hp_pages h) q) ∧
  (∀ n cs held, p ∈ held → ca_inv n cs (hp_pages h) held → ca_inv n cs (hp_pages h') held).

Lemma touched_trans p h h1 h2 : touched p h h1 → touched p h1 h2 → touched p h h2.
Proof. intros (E1 & E2 & E3 & E4) (F1 & F2 & F3 & F4). split_and!; [congruence|congruence| |eauto]. intros q Hq. by rewrite F3, E3. Qed.

Lemma at_slag_run {A} (op : M SlagS A) p h s x s' : page_slag (hp_pages h) p = Some s → op s = Ok (x, s') → slag_ty s' = page_type →
  ∃ h', SA.at_slag p op h = Ok (x, h') ∧ touched p h h' ∧ page_slag (hp_pages h') p = Some s'.
Proof.
  intros Hs E Ht. eexists. split; [unfold SA.at_slag; rewrite Hs; cbn [deref]; rewrite bind_Ok, E, bind_Ok; reflexivity|]. cbn [hp_pages]. split; [|by rewrite read_write_law, decide_True].
  split_and!; [done|done| |].
  - intros q Hq. cbn. by rewrite read_write_law, decide_False.
  - intros n cs held Hp Hc. by apply ca_write_law.
Qed.

Lemma hdr_type s : slag_hdr s = (ty md, mp) → slag_ty s = page_type ∧ slag_meta s = mp.
Proof. intros [= E1 E2]. by rewrite E1, Hty. Qed.

Lemma meta_of_run p h s : page_slag (hp_pages h) p = Some s → slag_hdr s = (ty md, mp) → SA.meta_of p h = Ok (mp, h).
Proof. intros Hs Hh. unfold SA.meta_of. rewrite Hs. cbn. by rewrite (proj2 (hdr_type s Hh)). Qed.

Lemma get_meta_run h : hp_metas h !! mp = Some md → SA.get_meta mp h = Ok (md, h).
Proof. intros E. unfold SA.get_meta. by rewrite E. Qed.

Lemma owners_one g ps : Forall owner ps → (holders md g ps ≤ 1)%nat → (sh_pipe g + length ps ≤ 1)%nat.
Proof.
  intros Ho Hh. assert (E : sum_list_with (holder md) ps = length ps); [|unfold holders in Hh; lia]. clear Hh. induction Ho as [|q ps Hq _ IH]; [done|]. cbn. rewrite IH. by destruct q.
Qed.

(** A slag is in the pipe, or has an owner, or neither. *)
Lemma good_one p x : slag_good p x → (sh_pipe (gh_sh x) + length (gh_ps x) ≤ 1)%nat.
Proof. intros [_ _ (cl & c & Hi) Ho]. apply owners_one; [done|apply Hi]. Qed.

(** The slag of an owner. *)
Lemma own_ghost n cs bps own own' h live G lost p q : sys_at n cs bps own h live G lost → own ≡ₚ (p, q) :: own' → ∃ x, G !! p = Some x ∧ gh_ps x = [q].
Proof.
  intros Hs Ho. assert (Hin : (p, q) ∈ own) by (rewrite Ho; left). rewrite (sy_own _ _ _ _ _ _ _ _ Hs) in Hin. apply elem_of_spread in Hin as (p' & x & Hx & Hin).
  apply list_elem_of_fmap in Hin as (q' & [= <- <-] & Hq). exists x. split; [done|]. pose proof (good_one p x (sy_good _ _ _ _ _ _ _ _ Hs _ _ Hx)) as Hone.
  destruct (gh_ps x) as [|q1 [|q2 ps]]; [by apply elem_of_nil in Hq|by apply list_elem_of_singleton in Hq as ->|cbn in Hone; lia].
Qed.

(** The slag of an object in use. *)
Lemma live_ghost n cs bps own h live live' G lost item : sys_at n cs bps own h live G lost → live ≡ₚ item :: live' →
  ∃ p x l, G !! p = Some x ∧ gh_live x ≡ₚ item :: l ∧ item ∈ all_objects md p.
Proof.
  intros Hs Hlv. assert (Hin : item ∈ live) by (rewrite Hlv; left). rewrite (sy_live _ _ _ _ _ _ _ _ Hs) in Hin. apply elem_of_spread in Hin as (p & x & Hx & Hin).
  apply elem_of_Permutation in Hin as [l El]. exists p, x, l. split_and!; [done|done|]. destruct (sg_inv _ _ (sy_good _ _ _ _ _ _ _ _ Hs _ _ Hx)) as (cl & c & Hi).
  rewrite <- (inv_objects _ _ _ _ _ _ _ Hi), El. set_solver.
Qed.

Lemma object_size_pos : 0 < object_size md.
Proof. pose proof Hl as (Hsh & Hb & -> & _). apply Z.mul_pos_pos; [lia|apply pow2_pos; lia]. Qed.

Lemma object_in_page p item : item ∈ all_objects md p → p ≤ item < p + page_bytes.
Proof.
  unfold all_objects. intros (j & -> & Hj%elem_of_zrange)%list_elem_of_fmap. pose proof Hl as (Hsh & Hb & Ho & _ & _ & _ & Hn & _ & _ & Hoff & _).
  pose proof (pad_for_bound (object_size md) (n_objects md) (bits_per_object md)) as Hpad. pose proof (words_for_bound (n_objects md) (bits_per_object md) ltac:(lia) ltac:(lia)).
  pose proof object_size_pos. specialize (Hpad ltac:(lia)).
  assert (0 ≤ j * object_size md ∧ j * object_size md + object_size md ≤ n_objects md * object_size md) by nia.
  assert (0 ≤ n_objects md * bits_per_object md) by nia. pose proof Hfits. lia.
Qed.

Lemma find_run n cs bps own h live G lost p item : sys_at n cs bps own h live G lost → p ∈ slag_pages G ++ lost → item ∈ all_objects md p → Slag.find item (total_bytes md) = Ok p.
Proof.
  intros Hs Hp Hi. destruct (page_facts _ _ _ _ _ _ _ _ _ Hs Hp) as (P1 & P2 & P3 & P4). pose proof (object_in_page p item Hi). pose proof Hl as (_ & _ & _ & _ & _ & _ & _ & _ & _ & _ & _ & _ & -> & _).
  destruct page_bytes_law as (e & He & Ee). eapply (find_spec p page_bytes item e); try done; lia.
Qed.

(** ** Transitions *)

(** An allocator is a handle of the system: the [i]-th. *)
Definition handle_at (i : nat) a (cs : list CA) (bps : list BagPipe) : Prop :=
  sa_m a = mp ∧ sa_decommit a = decommit ∧ cs !! i = Some (sa_pages a) ∧ bps !! i = Some (sa_available a).

(** A call of the [i]-th allocator returns, and the system is as it should be,
    for [n] more calls. *)
Definition system_ok n cs bps (i : nat) a own h live : Prop :=
  handle_at i a (<[i := sa_pages a]> cs) (<[i := sa_available a]> bps) ∧ core n (<[i := sa_pages a]> cs) (<[i := sa_available a]> bps) own h live.
Definition call_ok n cs bps (i : nat) a (r : res (Alloc * Heap)) own live : Prop :=
  ∃ a' h', r = Ok (a', h') ∧ sa_slag a' = sa_slag a ∧ system_ok n cs bps i a' own h' live.

Lemma apool_push n st bps i bp it : apool (n + 1) st bps → bps !! i = Some bp → 0 ≤ n → bag_item it →
  ∃ bp' st', push_mut (push_fuel st) it (bp, st) = Ok (bp', st') ∧ apool n st' (<[i := bp']> bps) ∧ contents st' ≡ₚ it :: contents st.
Proof.
  intros [Q1 Q2 Q3 Q4 Q5] Hi Hn Hit. assert (Hg : good (2 * n + 2) (bp, st)) by (split; [|done]; replace (2 * n + 2) with (2 * (n + 1)) by lia; by eapply Forall_lookup_1).
  destruct (push_mut_ok (2 * n) (push_fuel st) it (bp, st) Hg ltac:(lia) Hit) as ([bp' st'] & E & [R1 R2] & (_ & K2 & _) & Hc & _); [done|]. exists bp', st'. cbn in *.
  split_and!; [done| |done]. split; [done|done| |lia|nia]. apply Forall_insert; [|done]. eapply list.Forall_impl; [exact Q3|]. intros x. apply room_mono. lia.
Qed.

Lemma apool_pop n st bps i bp : apool (n + 1) st bps → bps !! i = Some bp → 0 ≤ n →
  ∃ r bp' st', try_pop_mut (bp, st) = Ok (r, (bp', st')) ∧ apool n st' (<[i := bp']> bps) ∧ contents st ≡ₚ match r with inl q => [q] | inr _ => [] end ++ contents st'.
Proof.
  intros [Q1 Q2 Q3 Q4 Q5] Hi Hn. assert (Hg : good (2 * n + 1 + 1) (bp, st)) by (split; [|done]; replace (2 * n + 1 + 1) with (2 * (n + 1)) by lia; by eapply Forall_lookup_1).
  destruct (try_pop_mut_ok (2 * n + 1) (bp, st) Hg ltac:(lia)) as (r & [bp' st'] & E & [R1 R2] & (_ & K2 & _) & _ & Hr). exists r, bp', st'. cbn in *. split_and!; [done| |].
  - split; [done|done| |lia|nia]. apply Forall_insert; [|eapply room_mono; [|exact R1]; lia]. eapply list.Forall_impl; [exact Q3|]. intros x. apply room_mono. lia.
  - destruct r as [q|[]]; cbn; [naive_solver| |]; [by destruct Hr as (-> & -> & _)|]. destruct Hr as (Hc & _). by symmetry.
Qed.

Lemma apool_revoke n st bps it : apool n st bps → bag_item it →
  ∃ r st', revoke it st = Ok (r, st') ∧ apool n st' bps ∧ (if r then contents st ≡ₚ it :: contents st' else contents st' ≡ₚ contents st).
Proof.
  intros [Q1 Q2 Q3 Q4 Q5] Hit. destruct (revoke_ok it st Q1 Hit) as (r & st' & E & Hst & (K1 & _) & Hc). exists r, st'. split_and!; [done| |done]. split; try done; by rewrite K1.
Qed.

Lemma apool_clone n st bps : apool (n + 1) st bps → 0 ≤ n → ∃ bp st', BagPipe.clone st = Ok (bp, st') ∧ apool n st' (bps ++ [bp]) ∧ contents st' = contents st.
Proof.
  intros [Q1 Q2 Q3 Q4 Q5] Hn. destruct (clone_ok (2 * n) st Q1) as (bp & st' & E & Hr & _ & Hst & Hp & _ & Href); [nia|done|nia|]. exists bp, st'.
  split_and!; [done| |apply (pipes_contents _ _ Hp)]. split; [done|done| |lia|rewrite Href; nia]. apply Forall_app. split; [|by constructor].
  eapply list.Forall_impl; [exact Q3|]. intros x. apply room_mono. lia.
Qed.

Lemma apool_drop n st bps i bp : apool n st bps → bps !! i = Some bp → ∃ st', drop_pipe (bp, st) = Ok st' ∧ apool n st' bps ∧ contents st' = contents st.
Proof.
  intros [Q1 Q2 Q3 Q4 Q5] Hi. destruct (drop_pipe_ok (2 * n) bp st) as (st' & E & Hst & Hp & Href & _); [by eapply Forall_lookup_1|done|]. exists st'.
  split_and!; [done| |apply (pipes_contents _ _ Hp)]. split; try done; by rewrite Href.
Qed.

Lemma page_item n cs bps own h live G lost p : sys_at n cs bps own h live G lost → p ∈ slag_pages G ++ lost → bag_item p.
Proof. intros Hs Hp. destruct (page_facts _ _ _ _ _ _ _ _ _ Hs Hp) as (P1 & P2 & _). apply Hitem. destruct page_bytes_law as (e & He & Ee). pose proof (pow2_pos e ltac:(lia)). lia. Qed.

(** A slag that was written to goes to the pipe. *)
Lemma available_ok n cs bps own h0 h live own' live' G lost p x x' i a : sys_at (n + 1) cs bps own h0 live G lost → 0 ≤ n → G !! p = Some x → touched p h0 h →
  page_slag (hp_pages h) p = Some (sh_slag (gh_sh x')) → slag_good p x' → sh_pipe (gh_sh x') = S (sh_pipe (gh_sh x)) →
  own' ++ (pair p <$> gh_ps x) ≡ₚ own ++ (pair p <$> gh_ps x') → live' ++ gh_live x ≡ₚ live ++ gh_live x' → handle_at i a cs bps →
  call_ok n cs bps i a (SA.transition_available a p h) own' live'.
Proof.
  intros Hs Hn Hp (T1 & T2 & T3 & T4) Hr Hg Hpipe Hown Hlive (A1 & A2 & A3 & A4). pose proof (in_held G lost p x Hp) as Hheld.
  destruct (apool_push n (hp_avail h) bps i (sa_available a) p) as (bp & st & E & Hap & Hc); [rewrite T1; apply Hs|done|done|by eapply page_item|].
  eexists _, _. split; [unfold SA.transition_available; unfold mbind, M_bind at 1, SA.avail_push; rewrite E, bind_Ok; reflexivity|]. assert (Hsame : <[i := sa_pages a]> cs = cs) by (by apply list_insert_id).
  split; [done|]. unfold system_ok. cbn [SA.set_avail sa_pages sa_available]. rewrite Hsame. split.
  - split_and!; [done|done|done|]. cbn. apply list_lookup_insert_eq. by eapply lookup_lt_Some.
  - eapply (sys_update (n + 1) cs bps own h0 live G lost); try done; cbn [hp_pages hp_avail hp_metas].
    + eapply ca_mono_law; [apply T4; [done|apply Hs]|lia].
    + rewrite Hc, T1, Hpipe. cbn [replicate]. solve_Permutation.
Qed.

(** The page of a slag without objects in use is given back. *)
Lemma give_back_ok n cs bps bps' own own' h0 h live live' G lost p x s d i c : sys_at (n + 1) cs bps own h0 live G lost → 0 ≤ n → G !! p = Some x → cs !! i = Some c →
  ca_inv (n + 1) cs (hp_pages h) (slag_pages G ++ lost) → (∀ q, q ≠ p → page_slag (hp_pages h) q = page_slag (hp_pages h0) q) → hp_metas h = hp_metas h0 → apool n (hp_avail h) bps' →
  page_slag (hp_pages h) p = Some s → slag_hdr s = (ty md, mp) → fresh_slag md p s → (d = true → Z.to_nat (n_bitset_words md) ≤ first_words)%nat →
  contents (hp_avail h) ++ replicate (sh_pipe (gh_sh x)) p ≡ₚ contents (hp_avail h0) → own' ++ (pair p <$> gh_ps x) ≡ₚ own → live' ++ gh_live x ≡ₚ live →
  ∃ c' h', SA.on_pages (ca_free c p d) h = Ok (c', h') ∧ core n (<[i := c']> cs) bps' own' h' live'.
Proof.
  intros Hs Hn Hp Hc Hca T3 T2 Hap Hr Hh Hfr Hd Hpipe Hown Hlive. pose proof (in_held G lost p x Hp) as Hheld.
  assert (Hpg : slag_pages G ++ lost ≡ₚ p :: slag_pages (delete p G) ++ lost) by (unfold slag_pages; by rewrite (spread_take (fun p _ => [p]) G p x Hp)).
  destruct (ca_free_law n cs (hp_pages h) (slag_pages (delete p G) ++ lost) i c p d) as (c' & pg & Ef & Hci & Hk1 & Hk2); [by eapply ca_perm_law|done|done|].
  eexists _, _. split; [unfold SA.on_pages; rewrite Ef, bind_Ok; reflexivity|]. assert (Hnp : p ∉ slag_pages (delete p G) ++ lost).
  { destruct (ca_held_law _ _ _ _ (sy_pages _ _ _ _ _ _ _ _ Hs)) as [Hnd _]. rewrite Hpg in Hnd. by apply list.NoDup_cons in Hnd as [? _]. }
  eapply (sys_remove (n + 1) cs bps own h0 live G lost lost _ _ _ _ _ _ p x); try done; cbn [hp_pages hp_avail hp_metas].
  - intros q Hq. rewrite Hk1 by (apply elem_of_app; by left). apply T3. intros ->. apply Hnp, elem_of_app. by left.
  - intros q s' Hq Eq Hms. destruct (Hk2 q) as [E3|[E3|(Ed & -> & E3)]]; rewrite E3 in Eq; [| done |].
    + destruct (decide (q = p)) as [->|Hne]; [rewrite Hr in Eq; by injection Eq as <-|]. rewrite T3 in Eq by done. eapply (sy_cached _ _ _ _ _ _ _ _ Hs); [|exact Eq|done].
      rewrite Hpg. by apply not_elem_of_cons.
    + rewrite Hr in Eq. injection Eq as <-. assert (Hz : zero_beyond first_words s = s); [|by rewrite Hz]. specialize (Hd Ed). unfold zero_beyond. destruct s as [s1 s2 s3 s4 s5]. unfold set_words. cbn in *.
      pose proof (proj2 (inv_words _ _ _ _ _ _ _ Hfr)) as Hlen. cbn in Hlen. rewrite take_ge by lia. replace (length s5 - first_words)%nat with 0%nat by lia. by rewrite app_nil_r.
Qed.

(** All objects are back: the page is given back if the slag can be revoked;
    otherwise the slag stays where it is, or is lost. *)
Lemma full_ok n cs bps own h0 h live own' live' G lost p x s i a : sys_at (n + 1) cs bps own h0 live G lost → 0 ≤ n → G !! p = Some x → touched p h0 h →
  page_slag (hp_pages h) p = Some s → slag_hdr s = (ty md, mp) →
  (sh_pipe (gh_sh x) = 0%nat ∧ gh_ps x = [] ∨ inv_at md p (on_slag (gh_sh x) s) (gh_ps x) [] false (n_objects md)) →
  own' ≡ₚ own → live' ++ gh_live x ≡ₚ live → handle_at i a cs bps →
  call_ok n cs bps i a (SA.transition_full a p md h) own' live'.
Proof.
  intros Hs Hn Hp (T1 & T2 & T3 & T4) Hr Hh Hx Hown Hlive (A1 & A2 & A3 & A4). pose proof (in_held G lost p x Hp) as Hheld. pose proof (page_item _ _ _ _ _ _ _ _ _ Hs Hheld) as Hit.
  pose proof (sy_good _ _ _ _ _ _ _ _ Hs _ _ Hp) as Hg0. pose proof (good_one p x Hg0) as Hone.
  destruct (apool_revoke (n + 1) (hp_avail h) bps p) as (r & st & E & Hap & Hc); [rewrite T1; apply Hs|done|]. rewrite T1 in Hc.
  assert (Hids : <[i := sa_pages a]> cs = cs ∧ <[i := sa_available a]> bps = bps) by (split; by apply list_insert_id). destruct Hids as [Hid1 Hid2].
  assert (Hrun : SA.avail_revoke p h = Ok (r, mkSHeap (hp_pages h) st (hp_metas h))) by (unfold SA.avail_revoke; by rewrite E).
  pose proof (T4 _ _ _ Hheld (sy_pages _ _ _ _ _ _ _ _ Hs)) as Hca.
  destruct r.
  - assert (Hpin : p ∈ contents (hp_avail h0)) by (rewrite Hc; left). rewrite (sy_pipe _ _ _ _ _ _ _ _ Hs) in Hpin. apply elem_of_spread in Hpin as (p' & y & Hy & Hin).
    apply elem_of_replicate in Hin as [<- Hne]. rewrite Hp in Hy. injection Hy as <-.
    destruct Hx as [[Hx0 _]|Hx]; [done|]. assert (Hps : gh_ps x = []) by (destruct (gh_ps x); [done|cbn in Hone; lia]). rewrite Hps in *.
    destruct (inv_all_fresh md p size usable page_bytes Hl Hcut _ _ _ Hx) as [_ Hfr]; [constructor|]. cbn [on_slag sh_slag] in Hfr.
    set (h1 := mkSHeap (hp_pages h) st (hp_metas h)) in *.
    destruct (at_slag_run (fun s => Ok (tt, set_handle s 0)) p h1 s tt (set_handle s 0) Hr eq_refl) as (h2 & E2 & (U1 & U2 & U3 & U4) & Hr2); [by apply hdr_type|]. change (hp_pages h1) with (hp_pages h) in U3.
    assert (Hset : fresh_slag md p (set_handle s 0)) by (destruct Hfr as [K1 K2 K3 K4 K5 K6 K7 K8 K9 K10]; by constructor).
    destruct (give_back_ok n cs bps bps own own' h0 h2 live live' G lost p x (set_handle s 0) (sa_decommit a <=? usable_size md) i (sa_pages a)) as (c' & h3 & Ef & Hcore); try done.
    + apply U4; [exact Hheld|exact Hca].
    + intros q Hq. rewrite U3 by done. by apply T3.
    + by rewrite U2.
    + rewrite U1. eapply apool_mono; [exact Hap|lia].
    + intros Hd%Z.leb_le. apply Htail. by rewrite <- A2.
    + rewrite U1. cbn [hp_avail h1]. rewrite Hc. assert (sh_pipe (gh_sh x) = 1%nat) as -> by lia. cbn [replicate]. by rewrite <- Permutation_cons_append.
    + by rewrite Hps, app_nil_r.
    + eexists _, _. split.
      { unfold SA.transition_full. rewrite (M_bind_run _ _ _ _ _ Hrun), (M_bind_run _ _ _ _ _ E2), (M_bind_run _ _ _ _ _ Ef). reflexivity. }
      split; [done|]. unfold system_ok. cbn [SA.set_pages sa_pages sa_available]. rewrite Hid2. split; [|done].
      split_and!; [done|done| |done]. cbn. apply list_lookup_insert_eq. by eapply lookup_lt_Some.
  - eexists _, _. split; [unfold SA.transition_full; rewrite (M_bind_run _ _ _ _ _ Hrun); reflexivity|]. split; [done|]. unfold system_ok. rewrite Hid1, Hid2. split; [by split_and!|].
    destruct Hx as [[Hx0 Hps]|Hx].
    + eapply (sys_remove (n + 1) cs bps own h0 live G lost (p :: lost) _ _ _ _ _ _ p x); try done; cbn [hp_pages hp_avail hp_metas].
      * eapply ca_mono_law; [|instantiate (1 := n + 1); lia]. eapply ca_perm_law; [exact Hca|]. unfold slag_pages. rewrite (spread_take (fun p _ => [p]) G p x Hp). solve_Permutation.
      * eapply apool_mono; [exact Hap|lia].
      * intros q Hq. apply T3. intros ->. apply elem_of_slag_pages in Hq as [y Hy]. by rewrite lookup_delete_eq in Hy.
      * intros q s' Hq Eq Hms. apply not_elem_of_app in Hq as [Hq1 [Hne Hq2]%not_elem_of_cons]. rewrite T3 in Eq by done. eapply (sy_cached _ _ _ _ _ _ _ _ Hs); [|exact Eq|done].
        rewrite elem_of_app. intros [Hq|Hq]; [|done]. apply Hq1. apply elem_of_slag_pages in Hq as [y Hy]. apply elem_of_slag_pages. exists y. by rewrite lookup_delete_ne.
      * by rewrite Hx0, app_nil_r.
      * by rewrite Hps, app_nil_r.
    + eapply (sys_update (n + 1) cs bps own h0 live G lost _ _ _ _ _ _ p x (mkGhost (on_slag (gh_sh x) s) (gh_ps x) [])); try done; cbn [hp_pages hp_avail hp_metas gh_sh gh_ps gh_live].
      * eapply ca_mono_law; [exact Hca|lia].
      * eapply apool_mono; [exact Hap|lia].
      * destruct Hg0 as [G1 G2 G3 G4]. split; [done|done|by exists false, (n_objects md)|done].
      * by rewrite Hc.
      * by rewrite Hown.
      * by rewrite Hlive, app_nil_r.
Qed.

(** A call that only writes to a slag. *)
Lemma quiet_ok n cs bps own h0 h live own' live' G lost p x x' i a : sys_at (n + 1) cs bps own h0 live G lost → 0 ≤ n → G !! p = Some x → touched p h0 h →
  page_slag (hp_pages h) p = Some (sh_slag (gh_sh x')) → slag_good p x' → sh_pipe (gh_sh x') = sh_pipe (gh_sh x) →
  own' ++ (pair p <$> gh_ps x) ≡ₚ own ++ (pair p <$> gh_ps x') → live' ++ gh_live x ≡ₚ live ++ gh_live x' → handle_at i a cs bps →
  call_ok n cs bps i a (Ok (a, h)) own' live'.
Proof.
  intros Hs Hn Hp (T1 & T2 & T3 & T4) Hr Hg Hpipe Hown Hlive Ha. pose proof Ha as (A1 & A2 & A3 & A4). exists a, h. split_and!; [done|done|].
  unfold system_ok. rewrite !list_insert_id by done. split; [done|]. eapply (sys_update (n + 1) cs bps own h0 live G lost); try done.
  - eapply ca_mono_law; [apply T4; [by eapply in_held|apply Hs]|lia].
  - rewrite T1. eapply apool_mono; [apply Hs|lia].
  - by rewrite T1, Hpipe.
Qed.

Lemma good_hdr p x s ps l g : slag_good p x → slag_hdr s = slag_hdr (sh_slag (gh_sh x)) → sh_slag g = s → sh_freed g = false → Forall owner ps → inv_slag md p g ps l → slag_good p (mkGhost g ps l).
Proof. intros [G1 G2 G3 G4] Hh Hs Hf Ho Hi. split; try done. cbn. by rewrite Hs, Hh. Qed.

(** ** Releasing an object *)
Lemma free_ok n cs bps own h live item i a : core (n + 1) cs bps own h (item :: live) → 0 ≤ n → handle_at i a cs bps → call_ok n cs bps i a (SA.free a item h) own live.
Proof.
  intros (G & lost & Hs) Hn Ha. destruct (live_ghost _ _ _ _ _ _ live _ _ item Hs ltac:(done)) as (p & x & l & Hp & Elx & Hin). pose proof (in_held G lost p x Hp) as Hheld.
  pose proof (sy_good _ _ _ _ _ _ _ _ Hs _ _ Hp) as Hg. destruct (page_facts _ _ _ _ _ _ _ _ _ Hs Hheld) as (P1 & P2 & P3 & P4). pose proof Ha as (A1 & A2 & A3 & A4).
  destruct (call_free_spec md p size usable page_bytes Hl ltac:(lia) P4 Hcut (gh_sh x) (gh_ps x) item l) as (t & s' & Ef & Hh & Hi & Hfull); [apply Hg| |].
  { destruct (sg_inv _ _ Hg) as (cl & c & Hi). exists cl, c. by eapply inv_live_perm. }
  pose proof (sy_read _ _ _ _ _ _ _ _ Hs _ _ Hp) as Hr. pose proof (sg_hdr _ _ Hg) as Hhdr.
  destruct (at_slag_run (Slag.free md p item) p h (sh_slag (gh_sh x)) t s' Hr Ef) as (h1 & E1 & Ht & Hr1); [apply hdr_type; by rewrite Hh|].
  assert (Hrun : SA.free a item h = match t with Null => Ok (a, h1) | Available => SA.transition_available a p h1 | Full => SA.transition_full a p md h1 end).
  { unfold SA.free. rewrite A1, (M_bind_run _ _ _ _ _ (get_meta_run h (sy_meta _ _ _ _ _ _ _ _ Hs))), (lift_bind _ p) by (by eapply find_run).
    rewrite (M_bind_run _ _ _ _ _ (meta_of_run p h _ Hr Hhdr)), (M_bind_run _ _ _ _ _ (get_meta_run h (sy_meta _ _ _ _ _ _ _ _ Hs))), (M_bind_run _ _ _ _ _ E1). by destruct t. }
  rewrite Hrun. assert (Hlv : live ++ gh_live x ≡ₚ (item :: live) ++ l) by (rewrite Elx; cbn; by rewrite <- Permutation_middle).
  destruct t; cbn [after] in Hi.
  - eapply (quiet_ok n cs bps own h h1 _ own live G lost p x (mkGhost (on_slag (gh_sh x) s') (gh_ps x) l)); try done. eapply good_hdr; try done; apply Hg.
  - eapply (available_ok n cs bps own h h1 _ own live G lost p x (mkGhost (SlagProto.set_pipe (on_slag (gh_sh x) s') (S (sh_pipe (gh_sh x)))) (gh_ps x) l)); try done. eapply good_hdr; try done; apply Hg.
  - destruct (Hfull eq_refl) as (cl & Hall & ->). assert (l = []) as -> by (eapply counted_all; [exact Hl|apply inv_idle; exact Hall|done]).
    eapply (full_ok n cs bps own h h1 _ own live G lost p x s' i a); try done; [by rewrite Hh|by right|]. by rewrite app_nil_r in Hlv.
Qed.

(** ** Allocating an object *)
Lemma next_ok n cs bps own h live p it : core n cs bps ((p, AIter it) :: own) h live →
  ∃ o it' h', SA.at_slag p (Iter.next it) h = Ok ((o, it'), h') ∧ core n cs bps ((p, AIter it') :: own) h' (option_list o ++ live) ∧
    (o = None → cur_word it' = 0) ∧ ((∃ s, page_slag (hp_pages h) p = Some s ∧ (1 ≤ in_reach it s)%nat) → o ≠ None).
Proof.
  intros (G & lost & Hs). destruct (own_ghost _ _ _ _ own _ _ _ _ p (AIter it) Hs ltac:(done)) as (x & Hp & Hps). pose proof (in_held G lost p x Hp) as Hheld.
  pose proof (sy_good _ _ _ _ _ _ _ _ Hs _ _ Hp) as Hg. destruct (page_facts _ _ _ _ _ _ _ _ _ Hs Hheld) as (P1 & P2 & P3 & P4). pose proof (sg_inv _ _ Hg) as Hi. rewrite Hps in Hi.
  destruct (next_spec md p size usable page_bytes Hl ltac:(lia) P4 Hcut (gh_sh x) it (gh_live x)) as (o & it' & s' & En & Hh & Hi' & Hn); [apply Hg|done|].
  pose proof (sy_read _ _ _ _ _ _ _ _ Hs _ _ Hp) as Hr.
  destruct (at_slag_run (Iter.next it) p h _ _ s' Hr En) as (h1 & E1 & (T1 & T2 & T3 & T4) & Hr1); [apply hdr_type; rewrite Hh; apply Hg|].
  exists o, it', h1. split_and!; [done| |by intros ->; apply Hn|].
  - eapply (sys_update n cs bps _ h live G lost _ _ _ _ _ _ p x (mkGhost (on_slag (gh_sh x) s') [AIter it'] (option_list o ++ gh_live x))); try done.
    + apply T4; [done|apply Hs].
    + rewrite T1. apply Hs.
    + eapply good_hdr; try done; [apply Hg|by repeat constructor].
    + by rewrite T1.
    + rewrite Hps. cbn. rewrite <- !Permutation_cons_append. apply Permutation_swap.
    + cbn [gh_live]. solve_Permutation.
  - intros (s & Es & Hreach) ->. rewrite Hr in Es. injection Es as <-. destruct (Hn eq_refl) as [_ Hz]. lia.
Qed.

(** ** Taking the next slag *)
Lemma unclaim_run n cs bps own h live G lost p q : sys_at n cs bps ((p, q) :: own) h live G lost → used_up q →
  ∃ x cl c s' h1, G !! p = Some x ∧ gh_ps x = [q] ∧ SA.at_slag p rc_unclaim h = Ok ((cl, c), h1) ∧ touched p h h1 ∧ page_slag (hp_pages h1) p = Some s' ∧
    slag_hdr s' = slag_hdr (sh_slag (gh_sh x)) ∧ (cl = false → c = n_objects md) ∧ sh_pipe (gh_sh x) = 0%nat ∧
    inv_at md p (on_slag (gh_sh x) s') [if cutoff_objects md <=? c then AClaim else Idle] (gh_live x) false c.
Proof.
  intros Hs Hq. destruct (own_ghost _ _ _ _ own _ _ _ _ p q Hs ltac:(done)) as (x & Hp & Hps). pose proof (sy_good _ _ _ _ _ _ _ _ Hs _ _ Hp) as Hg.
  pose proof (sg_inv _ _ Hg) as Hi. rewrite Hps in Hi. destruct (unclaim_spec md p size usable page_bytes Hl Hcut (gh_sh x) q (gh_live x) Hi Hq) as (cl & c & s' & Eu & Hh & Hcn & Hp0 & Hi').
  destruct (at_slag_run rc_unclaim p h _ _ s' (sy_read _ _ _ _ _ _ _ _ Hs _ _ Hp) Eu) as (h1 & E1 & Ht & Hr1); [apply hdr_type; rewrite Hh; apply Hg|].
  exists x, cl, c, s', h1. by split_and!.
Qed.

Lemma claim_core n cs bps own h live p : core n cs bps ((p, AClaim) :: own) h live →
  ∃ it h', SA.claim p md h = Ok (it, h') ∧ core n cs bps ((p, AIter it) :: own) h' live ∧ ∃ s, page_slag (hp_pages h') p = Some s ∧ (1 ≤ in_reach it s)%nat.
Proof.
  intros (G & lost & Hs). destruct (own_ghost _ _ _ _ own _ _ _ _ p AClaim Hs ltac:(done)) as (x & Hp & Hps). pose proof (in_held G lost p x Hp) as Hheld.
  pose proof (sy_good _ _ _ _ _ _ _ _ Hs _ _ Hp) as Hg. destruct (page_facts _ _ _ _ _ _ _ _ _ Hs Hheld) as (P1 & P2 & P3 & P4). destruct (sg_inv _ _ Hg) as (cl & c & Hi). rewrite Hps in Hi.
  assert (cl = false) as -> by (pose proof (inv_claim _ _ _ _ _ _ _ Hi); by destruct cl).
  destruct (claim_spec md p size usable page_bytes Hl ltac:(lia) P4 Hcut _ _ _ (sg_freed _ _ Hg) Hi) as (s1 & it & s2 & Ec & Er & Hh1 & Hh2 & Hi2 & Hreach).
  destruct (at_slag_run rc_claim p h _ _ s1 (sy_read _ _ _ _ _ _ _ _ Hs _ _ Hp) Ec) as (h1 & E1 & Ht1 & Hr1); [apply hdr_type; rewrite Hh1; apply Hg|].
  destruct (at_slag_run (Slag.refresh p md) p h1 _ _ s2 Hr1 Er) as (h2 & E2 & Ht2 & Hr2); [apply hdr_type; rewrite Hh2; apply Hg|].
  destruct (touched_trans _ _ _ _ Ht1 Ht2) as (T1 & T2 & T3 & T4). exists it, h2. split; [|split; [|by exists s2]].
  { unfold SA.claim. rewrite (M_bind_run _ _ _ _ _ E1). rewrite (lift_assert true) by done. exact E2. }
  eapply (sys_update n cs bps _ h live G lost _ _ _ _ _ _ p x (mkGhost (set_claimed (gh_sh x) s2) [AIter it] (gh_live x))); try done.
  - apply T4; [done|apply Hs].
  - rewrite T1. apply Hs.
  - eapply good_hdr; first [done|exact (sg_freed _ _ Hg)|by repeat constructor].
  - by rewrite T1.
  - rewrite Hps. cbn. rewrite <- !Permutation_cons_append. apply Permutation_swap.
Qed.

(** A slag from the pipe. *)
Lemma take_core n cs bps own h live i bp : core (n + 1) cs bps own h live → 0 ≤ n → bps !! i = Some bp →
  ∃ r bp' h', SA.avail_pop bp h = Ok ((r, bp'), h') ∧
    match r with
    | inl q => core n cs (<[i := bp']> bps) ((q, AClaim) :: own) h' live
    | inr _ => core n cs (<[i := bp']> bps) own h' live
    end ∧ hp_pages h' = hp_pages h.
Proof.
  intros (G & lost & Hs) Hn Hi. destruct (apool_pop n (hp_avail h) bps i bp (sy_avail _ _ _ _ _ _ _ _ Hs) Hi Hn) as (r & bp' & st & E & Hap & Hc). exists r, bp'.
  eexists. split; [unfold SA.avail_pop; rewrite E, bind_Ok; reflexivity|]. split; [|done]. destruct r as [q|].
  - assert (Hin : q ∈ contents (hp_avail h)) by (rewrite Hc; left). rewrite (sy_pipe _ _ _ _ _ _ _ _ Hs) in Hin. apply elem_of_spread in Hin as (p & x & Hp & [-> Hne]%elem_of_replicate).
    pose proof (sy_good _ _ _ _ _ _ _ _ Hs _ _ Hp) as Hg. pose proof (good_one p x Hg) as Hone. assert (Hps : gh_ps x = []) by (destruct (gh_ps x); [done|cbn in Hone; lia]).
    pose proof (sg_inv _ _ Hg) as Hinv. rewrite Hps in Hinv. destruct (sh_pipe (gh_sh x)) as [|k] eqn:Ek; [done|]. destruct (inv_take md p Hcut _ _ k Ek Hinv) as (c & Hi' & ->).
    eapply (sys_update (n + 1) cs bps own h live G lost _ _ _ _ _ _ p x (mkGhost (SlagProto.set_pipe (gh_sh x) 0) [AClaim] (gh_live x))); try done; cbn [hp_pages hp_avail].
    + eapply ca_mono_law; [apply Hs|lia].
    + exact (sy_read _ _ _ _ _ _ _ _ Hs _ _ Hp).
    + eapply good_hdr; try done; [apply Hg|by repeat constructor|by eexists _, _].
    + rewrite Hc, Ek. cbn. by rewrite app_nil_r, <- Permutation_cons_append.
    + rewrite Hps. cbn. rewrite app_nil_r. by rewrite <- Permutation_cons_append.
  - exists G, lost. pose proof Hs as []. split; try done; cbn [hp_pages hp_avail]; [eapply ca_mono_law; [done|lia]|]. by rewrite <- sy_pipe0, Hc.
Qed.

(** A page from the page allocator, and its initialization. *)
Definition paged n cs bps own h live (i : nat) (p : Z) (c' : CA) h1 : Prop := ∃ G lost,
  sys_at (n + 1) cs bps own h live G lost ∧ ca_inv n (<[i := c']> cs) (hp_pages h1) (p :: slag_pages G ++ lost) ∧ hp_avail h1 = hp_avail h ∧ hp_metas h1 = hp_metas h ∧
  (∀ r, r ∈ slag_pages G ++ lost → page_slag (hp_pages h1) r = page_slag (hp_pages h) r) ∧
  (∀ r, page_slag (hp_pages h1) r = page_slag (hp_pages h) r ∨ page_slag (hp_pages h1) r = None).

Lemma page_run n cs bps own h live i c : core (n + 1) cs bps own h live → 0 ≤ n → cs !! i = Some c →
  SA.on_pages (ca_alloc c) h = Fault UnwrapNone ∨ ∃ p c' h1, SA.on_pages (ca_alloc c) h = Ok ((p, c'), h1) ∧ paged n cs bps own h live i p c' h1.
Proof.
  intros (G & lost & Hs) Hn Hi. unfold SA.on_pages. destruct (ca_alloc_law n cs (hp_pages h) _ i c (sy_pages _ _ _ _ _ _ _ _ Hs) Hi Hn) as [->|(p & c' & pg & -> & Hc & Hk1 & Hk2)]; [by left|right].
  rewrite bind_Ok. eexists _, _, _. split; [done|]. by exists G, lost.
Qed.

Lemma fresh_good p s q : fresh_slag md p s → slag_hdr s = (ty md, mp) → q = AFresh ∨ q = AClaim → slag_good p (mkGhost (mkSh s 0 0 false false) [q] []).
Proof.
  intros Hf Hh Hq. split; [done|done| |by destruct Hq as [-> | ->]; repeat constructor]. exists false, (n_objects md). destruct Hq as [-> | ->]; [done|by apply fresh_claimable].
Qed.

(** The page holds a slag of this class without objects in use. *)
Lemma paged_core n cs bps own h live i p c' h1 h2 s q : paged n cs bps own h live i p c' h1 → 0 ≤ n → touched p h1 h2 →
  page_slag (hp_pages h2) p = Some s → slag_hdr s = (ty md, mp) → fresh_slag md p s → q = AFresh ∨ q = AClaim →
  core n (<[i := c']> cs) bps ((p, q) :: own) h2 live.
Proof.
  intros (G & lost & Hs & Hc & Ha & Hm & Hk1 & Hk2) Hn (T1 & T2 & T3 & T4) Hr Hh Hf Hq. assert (Hnp : p ∉ slag_pages G ++ lost).
  { destruct (ca_held_law _ _ _ _ Hc) as [Hnd _]. by apply list.NoDup_cons in Hnd as [? _]. }
  assert (Hne : ∀ r, r ∈ slag_pages G ++ lost → r ≠ p) by (by intros r Hr' ->).
  eapply (sys_add (n + 1) cs bps own h live G lost n _ _ _ h2 p (mkGhost (mkSh s 0 0 false false) [q] [])); try done.
  - apply T4; [left|done].
  - rewrite T1, Ha. eapply apool_mono; [apply Hs|lia].
  - by rewrite T2.
  - intros r Hr'. assert (r ∈ slag_pages G ++ lost) by (apply elem_of_app; by left). rewrite T3 by (by apply Hne). by apply Hk1.
  - intros r Hne'. rewrite T3 by done. apply Hk2.
  - by apply fresh_good.
  - by rewrite T1, Ha.
Qed.

Lemma touched_refl p h : touched p h h.
Proof. by split_and!. Qed.

(** [Slag::init] of a page. *)
Lemma init_run p h : 0 < p → p + page_bytes ≤ 2 ^ 63 → hp_metas h !! mp = Some md → ∃ s h', SA.slag_init p mp h = Ok (tt, h') ∧ touched p h h' ∧
  page_slag (hp_pages h') p = Some s ∧ slag_hdr s = (ty md, mp) ∧ fresh_slag md p s.
Proof.
  intros Hp Hp2 Hm. unfold SA.slag_init. rewrite Hm. cbn [deref]. rewrite bind_Ok. set (junk := bitset_memory _ _).
  pose proof Hl as (Hsh & Hb & Ho & _ & _ & _ & Hn & HW & _ & Hoff & _). pose proof (words_for_bound (n_objects md) (bits_per_object md) ltac:(lia) ltac:(lia)) as HWb.
  assert (Hnb : 0 < n_objects md * bits_per_object md < 2 ^ 60).
  { destruct page_bytes_law as (e & He & Ee). assert (page_bytes ≤ 2 ^ 60) by (rewrite Ee; apply Z.pow_le_mono_r; lia).
    assert (Hu : 2 ≤ 2 ^ bit_rep_shift md) by (apply (Z.pow_le_mono_r 2 1); lia). pose proof (pad_for_bound (object_size md) (n_objects md) (bits_per_object md)) as Hpad.
    pose proof Hfits. pose proof object_size_pos. specialize (Hpad ltac:(lia)).
    assert (n_objects md * object_size md = n_objects md * bits_per_object md * 2 ^ bit_rep_shift md) by (rewrite Ho; ring). split; [apply Z.mul_pos_pos; lia|]. nia. }
  assert (Hj : Z.of_nat (length junk) = n_bitset_words md).
  { unfold junk, bitset_memory. rewrite length_take, length_app, length_replicate. lia. }
  destruct (init_words_spec size usable page_bytes md junk Hl (proj1 Hinit) (proj2 Hinit) Hj ltac:(lia)) as (ws & Ew & Hfw). unfold Slag.init. rewrite Ew, bind_Ok, bind_Ok.
  set (s := mkSlag (ty md) mp (RC.init (n_objects md)) 0 ws). eexists s, _. split; [reflexivity|]. cbn [hp_pages].
  split; [|split; [by rewrite read_write_law, decide_True|split; [done|]]].
  - split_and!; [done|done| |]; cbn.
    + intros q Hq. by rewrite read_write_law, decide_False.
    + intros n cs held Hin Hc. apply ca_write_law; [done|done|apply Hty].
  - assert (Hrc : rc s = rc_word false (n_objects md)) by (cbn; unfold RC.init, rc_word; lia).
    destruct (start_inv md p size usable page_bytes Hl Hcut s 0 Hrc Hfw) as (cl & c & Hi). cbn in Hi. destruct (inv_full _ _ _ _ _ _ _ Hi AFresh) as [-> ->]; [left|done|exact Hi].
Qed.

(** A page from the page allocator holds a fresh slag, an old one or a new one. *)
Lemma new_slag_run {X} n cs bps own h live i p c' h1 (y : X) : paged n cs bps own h live i p c' h1 →
  ∃ h2 s, (mp0 ← SA.meta_of p; _ ← (if mp0 =? mp then mret tt else SA.slag_init p mp); mret y) h1 = Ok (y, h2) ∧ touched p h1 h2 ∧
    page_slag (hp_pages h2) p = Some s ∧ slag_hdr s = (ty md, mp) ∧ fresh_slag md p s.
Proof.
  intros (G & lost & Hs & Hci & Ea & Em & Hk1 & Hk2). destruct (ca_held_law _ _ _ _ Hci) as [Hnd Hall]. apply list.NoDup_cons in Hnd as [Hnp _]. destruct (Hall p) as (D1 & D2 & D3); [left|].
  unfold SA.meta_of. unfold mbind at 1, M_bind at 1. cbv beta iota. destruct (Z.eqb_spec (default 0 (slag_meta <$> page_slag (hp_pages h1) p)) mp) as [Eq|Hne].
  - destruct (page_slag (hp_pages h1) p) as [s|] eqn:Es; [|cbn in Eq; by pose proof Hmp]. cbn in Eq. exists h1, s. split; [reflexivity|]. split; [apply touched_refl|]. split; [done|].
    destruct (Hk2 p) as [E|E]; [|by rewrite Es in E]. rewrite Es in E. symmetry in E. by destruct (sy_cached _ _ _ _ _ _ _ _ Hs p s Hnp E Eq).
  - destruct (init_run p h1 D2 D3) as (s & h2 & E & Ht & Hr & Hh & Hf); [rewrite Em; apply Hs|]. exists h2, s. rewrite (M_bind_run _ _ _ _ _ E). by split_and!.
Qed.

Lemma slag_refresh_ok n cs bps own h live i a q : core (n + 1 + 1) cs bps ((sa_slag a, q) :: own) h live → 0 ≤ n → handle_at i a cs bps → used_up q →
  SA.refresh a h = Fault UnwrapNone ∨
  ∃ it a' h', SA.refresh a h = Ok ((it, a'), h') ∧ system_ok n cs bps i a' ((sa_slag a', AIter it) :: own) h' live ∧
    ∃ s, page_slag (hp_pages h') (sa_slag a') = Some s ∧ (1 ≤ in_reach it s)%nat.
Proof.
  intros (G & lost & Hs) Hn Ha Hq. pose proof Ha as (A1 & A2 & A3 & A4). pose proof (sy_meta _ _ _ _ _ _ _ _ Hs) as Hm.
  destruct (unclaim_run _ _ _ _ _ _ _ _ _ _ Hs Hq) as (x & cl & c & s' & h1 & Hp & Hps & E1 & (T1 & T2 & T3 & T4) & Hr1 & Hh & _ & Hp0 & Hi).
  pose proof (sy_good _ _ _ _ _ _ _ _ Hs _ _ Hp) as Hg. assert (Hhs : slag_hdr s' = (ty md, mp)) by (rewrite Hh; apply Hg). assert (Hm1 : hp_metas h1 !! mp = Some md) by (by rewrite T2).
  assert (Hstep : ∀ ps own', Forall owner ps → inv_at md (sa_slag a) (on_slag (gh_sh x) s') ps (gh_live x) false c → own' ≡ₚ (pair (sa_slag a) <$> ps) ++ own → core (n + 1 + 1) cs bps own' h1 live).
  { intros ps own' Hops Hips Hown. eapply (sys_update (n + 1 + 1) cs bps _ h live G lost _ _ _ _ _ _ (sa_slag a) x (mkGhost (on_slag (gh_sh x) s') ps (gh_live x))); try done.
    - apply T4; [by eapply in_held|apply Hs].
    - rewrite T1. apply Hs.
    - eapply good_hdr; try done; [apply Hg|by eexists _, _].
    - by rewrite T1.
    - rewrite Hown, Hps. cbn. rewrite <- Permutation_cons_append. constructor. apply Permutation_app_comm. }
  unfold SA.refresh. rewrite A1, (M_bind_run _ _ _ _ _ (get_meta_run h Hm)), (M_bind_run _ _ _ _ _ E1), (M_bind_run _ _ _ _ _ (meta_of_run _ h1 s' Hr1 Hhs)), (M_bind_run _ _ _ _ _ (get_meta_run h1 Hm1)).
  rewrite lift_assert by (by apply bool_decide_eq_true_2). destruct (cutoff_objects md <=? c).
  - right. destruct (claim_core n cs bps own h1 live (sa_slag a)) as (it & h2 & E2 & Hc2 & Hreach).
    { eapply core_mono; [|split; [exact Hn|instantiate (1 := n + 1 + 1); lia]]. by eapply Hstep; [|exact Hi|]; [by repeat constructor|]. }
    rewrite (M_bind_run _ _ _ _ _ E2). eexists _, _, _. split; [reflexivity|]. split; [|done]. unfold system_ok. by rewrite !list_insert_id.
  - assert (Hc1 : core (n + 1 + 1) cs bps own h1 live) by (eapply (Hstep []); [constructor|by apply inv_idle|done]).
    destruct (take_core (n + 1) cs bps own h1 live i (sa_available a) Hc1 ltac:(lia) A4) as (r & bp & h2 & E2 & Hc2 & _). rewrite (M_bind_run _ _ _ _ _ E2).
    pose proof (lookup_lt_Some _ _ _ A4) as Hlt. destruct r as [p2|].
    + right. destruct (claim_core n cs (<[i := bp]> bps) own h2 live p2) as (it & h3 & E3 & Hc3 & Hreach); [eapply core_mono; [exact Hc2|lia]|].  unfold mbind at 1, M_bind at 1. cbn [mret M_ret]. cbn [SA.set_slag sa_slag]. rewrite (M_bind_run _ _ _ _ _ E3).
      eexists _, _, _. split; [reflexivity|]. split; [|done]. unfold system_ok. cbn [SA.set_slag SA.set_avail sa_pages sa_available sa_slag]. rewrite (list_insert_id cs) by done. split; [|done].
      split_and!; [done|done|done|]. cbn. by apply list_lookup_insert_eq.
    + destruct (page_run n cs _ own h2 live i (sa_pages a) Hc2 Hn A3) as [E3|(p3 & pa & h3 & E3 & Hpg)]; [left|right].
      { apply M_bind_fault. cbn [SA.set_avail sa_pages]. by apply M_bind_fault. }
      destruct (new_slag_run n cs _ own h2 live i p3 pa h3 (p3, SA.set_pages (SA.set_avail a bp) pa) Hpg) as (h4 & s4 & E4 & Ht4 & Hr4 & Hh4 & Hf4). rewrite <- A1 in E4.
      pose proof (paged_core _ _ _ _ _ _ _ _ _ _ h4 s4 AClaim Hpg Hn Ht4 Hr4 Hh4 Hf4 ltac:(by right)) as Hc4.
      destruct (claim_core n (<[i := pa]> cs) (<[i := bp]> bps) own h4 live p3 Hc4) as (it & h5 & E5 & Hc5 & Hreach).
      eexists it, (SA.set_slag (SA.set_pages (SA.set_avail a bp) pa) p3), h5. split.
      { erewrite M_bind_run; [|rewrite (M_bind_run _ _ _ _ _ E3); exact E4]. cbn [SA.set_slag sa_slag]. by rewrite (M_bind_run _ _ _ _ _ E5). }
      split; [|done]. split; [|done]. split_and!; [done|done| |]; cbn; apply list_lookup_insert_eq; [by eapply lookup_lt_Some|done].
Qed.

(** ** Releasing the objects of a mask *)
Lemma mask_objects_NoDup p w mask : NoDup (mask_objects md p w mask).
Proof. unfold mask_objects. apply NoDup_fmap_2; [|apply sorted_NoDup, bit_list_sorted]. intros k k' E%(adr_inj md p size usable page_bytes Hl). lia. Qed.

Lemma same_page p p' item : (page_bytes | p) → (page_bytes | p') → p ≤ item < p + page_bytes → p' ≤ item < p' + page_bytes → p = p'.
Proof.
  intros [u ->] [v ->] Q1 Q2. destruct page_bytes_law as (e & He & Ee). pose proof (pow2_pos e ltac:(lia)). assert (u = v); [|congruence]. nia.
Qed.

Lemma mask_ghost n cs bps own h live live' G lost p w mask : sys_at n cs bps own h live G lost → live ≡ₚ mask_objects md p w mask ++ live' → (page_bytes | p) →
  mask_objects md p w mask ⊆ all_objects md p → mask_objects md p w mask ≠ [] → ∃ x l, G !! p = Some x ∧ gh_live x ≡ₚ mask_objects md p w mask ++ l.
Proof.
  intros Hs Hlv Hd Hsub Hne. assert (Hall : ∀ item, item ∈ mask_objects md p w mask → ∃ x, G !! p = Some x ∧ item ∈ gh_live x).
  { intros item Hin. assert (Hli : item ∈ live) by (rewrite Hlv; apply elem_of_app; by left). apply elem_of_Permutation in Hli as [k Hk].
    destruct (live_ghost _ _ _ _ _ _ k _ _ item Hs Hk) as (p' & x & l & Hp' & El & Hin'). exists x. rewrite El. split; [|left].
    destruct (page_facts _ _ _ _ _ _ _ _ _ Hs (in_held G lost p' x Hp')) as (_ & _ & Hd' & _). rewrite (same_page p p' item); try done; [by apply object_in_page, Hsub|by apply object_in_page]. }
  destruct (mask_objects md p w mask) as [|o os] eqn:Em; [done|]. destruct (Hall o) as (x & Hp & _); [left|]. rewrite <- Em in *. exists x.
  destruct (submseteq_Permutation (mask_objects md p w mask) (gh_live x)) as [l El]; [|by exists l]. apply NoDup_submseteq; [apply mask_objects_NoDup|].
  intros item Hin. destruct (Hall item Hin) as (x' & Hp' & Hi). rewrite Hp in Hp'. by injection Hp' as <-.
Qed.

Lemma mask_word p w mask : mask_objects md p w mask ⊆ all_objects md p → word_ok mask → mask_objects md p w mask ≠ [] → 0 ≤ w < n_bitset_words md.
Proof.
  intros Hsub Hm Hne. unfold mask_objects in *. destruct (bit_list mask) as [|b bs] eqn:Eb; [done|]. assert (Hb : b ∈ bit_list mask) by (rewrite Eb; left).
  apply elem_of_bit_list in Hb as [Hb0 Hbt]; [|unfold word_ok in Hm; lia]. assert (b < 64) by (apply Z.nle_gt; intros Hge; by rewrite (testbit_high mask b) in Hbt).
  assert (Hin : adr md p (64 * w + b) ∈ all_objects md p) by (apply Hsub; left). unfold all_objects in Hin. apply list_elem_of_fmap in Hin as (j & Ej & Hj%elem_of_zrange).
  rewrite <- (adr_object md p size usable page_bytes Hl) in Ej. apply (adr_inj md p size usable page_bytes Hl) in Ej. pose proof Hl as (_ & Hbp & _ & _ & _ & _ & Hn & HW & _).
  pose proof (words_for_bound (n_objects md) (bits_per_object md) ltac:(lia) ltac:(lia)). rewrite <- HW in *.
  assert (0 ≤ bits_per_object md * j ∧ bits_per_object md * j < n_objects md * bits_per_object md) by nia. lia.
Qed.

Lemma bulk_ok n cs bps own h live p w mask i a : core (n + 1) cs bps own h (mask_objects md p w mask ++ live) → 0 ≤ n → handle_at i a cs bps → word_ok mask →
  (page_bytes | p) → mask_objects md p w mask ⊆ all_objects md p → call_ok n cs bps i a (SA.bulk_free a mask w p md h) own live.
Proof.
  intros Hcore Hn Ha Hm Hd Hsub. unfold SA.bulk_free. rewrite count_ones_length. destruct (Z.eqb_spec (Z.of_nat (length (bit_list mask))) 0) as [E0|Hne].
  { assert (Enil : mask_objects md p w mask = []) by (unfold mask_objects; by destruct (bit_list mask)). rewrite Enil in Hcore. exists a, h. split_and!; [done|done|].
    pose proof Ha as (A1 & A2 & A3 & A4). unfold system_ok. rewrite !list_insert_id by done. split; [done|]. eapply core_mono; [exact Hcore|lia]. }
  rewrite <- count_ones_length in *. assert (Hne' : mask_objects md p w mask ≠ []) by (unfold mask_objects; rewrite count_ones_length in Hne; by destruct (bit_list mask)).
  pose proof (mask_word p w mask Hsub Hm Hne') as Hw. destruct Hcore as (G & lost & Hs).
  destruct (mask_ghost _ _ _ _ _ _ live _ _ p w mask Hs ltac:(done) Hd Hsub Hne') as (x & l & Hp & El). pose proof (in_held G lost p x Hp) as Hheld.
  pose proof (sy_good _ _ _ _ _ _ _ _ Hs _ _ Hp) as Hg. destruct (page_facts _ _ _ _ _ _ _ _ _ Hs Hheld) as (P1 & P2 & P3 & P4). pose proof (sy_read _ _ _ _ _ _ _ _ Hs _ _ Hp) as Hr.
  assert (Hi : inv_slag md p (gh_sh x) (gh_ps x) (mask_objects md p w mask ++ l)) by (destruct (sg_inv _ _ Hg) as (cl & c & Hi); exists cl, c; by eapply inv_live_perm).
  destruct (bulk_spec md p size usable page_bytes Hl P4 Hcut _ _ mask w l Hi Hw Hm (sg_owner _ _ Hg) Hne) as (cl & c & s1 & before & s2 & E1 & E2 & Hland & Hh1 & Hh2 & Hc0 & Hcn & Hfloat & Hout).
  destruct (at_slag_run (rc_inc (count_ones mask)) p h _ _ s1 Hr E1) as (h1 & R1 & Ht1 & Hr1); [apply hdr_type; rewrite Hh1; apply Hg|].
  destruct (at_slag_run (word_fetch_or w mask) p h1 _ _ s2 Hr1 E2) as (h2 & R2 & Ht2 & Hr2); [apply hdr_type; rewrite Hh2; apply Hg|]. pose proof (touched_trans _ _ _ _ Ht1 Ht2) as Ht.
  rewrite (M_bind_run _ _ _ _ _ R1), (M_bind_run _ _ _ _ _ R2), lift_assert by (by rewrite Hland). pose proof Hl as (_ & _ & _ & _ & _ & _ & Hnn & _).
  rewrite (lift_bind _ (c + count_ones mask)) by (apply uadd_Ok; lia).
  assert (Hlv : live ++ gh_live x ≡ₚ (mask_objects md p w mask ++ live) ++ l) by (rewrite El; solve_Permutation).
  assert (Hquiet : inv_slag md p (on_slag (gh_sh x) s2) (gh_ps x) l → call_ok n cs bps i a (Ok (a, h2)) own live).
  { intros Hi'. eapply (quiet_ok n cs bps own h h2 _ own live G lost p x (mkGhost (on_slag (gh_sh x) s2) (gh_ps x) l)); try done. eapply good_hdr; try done; apply Hg. }
  unfold bulk_outcome in Hout. destruct cl; cbn [negb]; [by apply Hquiet|]. specialize (Hfloat eq_refl). destruct (c + count_ones mask =? n_objects md).
  - destruct Hout as [-> Hout]. rewrite app_nil_r in Hlv. eapply (full_ok n cs bps own h h2 _ own live G lost p x s2 i a); try done. rewrite Hh2. apply Hg.
  - destruct (Z.ltb_spec c (cutoff_objects md)) as [Hlt|Hge]; cbn [andb].
    + apply Hfloat in Hlt. rewrite (proj2 (Nat.eqb_eq _ 0)), andb_true_r in Hout by done. destruct (cutoff_objects md <=? c + count_ones mask); [|by apply Hquiet].
      eapply (available_ok n cs bps own h h2 _ own live G lost p x (mkGhost (SlagProto.set_pipe (on_slag (gh_sh x) s2) 1) (gh_ps x) l)); try done; [|cbn; lia].
      eapply good_hdr; try done; [apply Hg|apply Hg|by exists false, (c + count_ones mask)].
    + rewrite (proj2 (Nat.eqb_neq (sh_pipe (gh_sh x) + length (gh_ps x)) 0)), andb_false_r in Hout by lia. by apply Hquiet.
Qed.

(** The owner of a slag gives up the objects of its word. *)
Lemma unhold_ok n cs bps own h live p it : core n cs bps ((p, AIter it) :: own) h live →
  core n cs bps ((p, AIter (with_word it 0)) :: own) h (mask_objects md p (cur_word_index it) (cur_word it) ++ live) ∧ word_ok (cur_word it) ∧ (page_bytes | p) ∧
  mask_objects md p (cur_word_index it) (cur_word it) ⊆ all_objects md p ∧ next_word it = cur_word_index it + 1.
Proof.
  intros (G & lost & Hs). destruct (own_ghost _ _ _ _ own _ _ _ _ p (AIter it) Hs ltac:(done)) as (x & Hp & Hps). pose proof (in_held G lost p x Hp) as Hheld.
  pose proof (sy_good _ _ _ _ _ _ _ _ Hs _ _ Hp) as Hg. pose proof (sg_inv _ _ Hg) as Hi. rewrite Hps in Hi. destruct (page_facts _ _ _ _ _ _ _ _ _ Hs Hheld) as (P1 & P2 & P3 & P4).
  split_and!; [|destruct Hi as (cl & c & Hi); by destruct (Forall_inv (inv_pcs _ _ _ _ _ _ _ Hi))|done| |].
  - eapply (sys_update n cs bps _ h live G lost _ _ _ _ _ _ p x (mkGhost (gh_sh x) [AIter (with_word it 0)] (mask_objects md p (cur_word_index it) (cur_word it) ++ gh_live x))); try done.
    + apply Hs.
    + apply Hs.
    + exact (sy_read _ _ _ _ _ _ _ _ Hs _ _ Hp).
    + eapply good_hdr; try done; [apply Hg|by repeat constructor|by apply inv_unhold].
    + rewrite Hps. cbn. rewrite <- !Permutation_cons_append. apply Permutation_swap.
    + cbn [gh_live]. solve_Permutation.
  - destruct Hi as (cl & c & Hi). intros o Ho. rewrite <- (inv_objects _ _ _ _ _ _ _ Hi). apply elem_of_app. right. apply elem_of_app. left. rewrite bind_cons. apply elem_of_app. by left.
  - destruct Hi as (cl & c & Hi). destruct (Forall_inv (inv_pcs _ _ _ _ _ _ _ Hi)) as (_ & _ & E & _). done.
Qed.

(** ** Allocators come and go *)
Lemma new_page_ok n cs bps own h live i c : core (n + 1) cs bps own h live → 0 ≤ n → cs !! i = Some c →
  SA.on_pages (ca_alloc c) h = Fault UnwrapNone ∨
  ∃ p c' h1 h2, SA.on_pages (ca_alloc c) h = Ok ((p, c'), h1) ∧ SA.slag_init p mp h1 = Ok (tt, h2) ∧ core n (<[i := c']> cs) bps ((p, AFresh) :: own) h2 live.
Proof.
  intros Hc Hn Hi. destruct (page_run n cs bps own h live i c Hc Hn Hi) as [E|(p & c' & h1 & E & Hpg)]; [by left|right].
  pose proof Hpg as (G & lost & Hs & Hci & Ea & Em & _). destruct (ca_held_law _ _ _ _ Hci) as [_ Hall]. destruct (Hall p) as (D1 & D2 & D3); [left|].
  destruct (init_run p h1 D2 D3) as (s & h2 & E2 & Ht & Hr & Hh & Hf); [rewrite Em; apply Hs|]. exists p, c', h1, h2. split_and!; [done|done|]. eapply paged_core; try done. by left.
Qed.

Lemma partial_new_ok n cs bps own h live i c bp : core (n + 1) cs bps own h live → 0 ≤ n → cs !! i = Some c → bps !! i = Some bp →
  SA.partial_new mp decommit c bp h = Fault UnwrapNone ∨
  ∃ a h', SA.partial_new mp decommit c bp h = Ok (a, h') ∧ system_ok n cs bps i a ((sa_slag a, AFresh) :: own) h' live.
Proof.
  intros Hc Hn Hi Hb. unfold SA.partial_new. destruct (new_page_ok n cs bps own h live i c Hc Hn Hi) as [E|(p & c' & h1 & h2 & E1 & E2 & Hcore)]; [left; by apply M_bind_fault|right].
  rewrite (M_bind_run _ _ _ _ _ E1), (M_bind_run _ _ _ _ _ E2). eexists _, _. split; [reflexivity|]. unfold system_ok. cbn. rewrite (list_insert_id bps) by done. split; [|done].
  split_and!; [done|done| |done]. apply list_lookup_insert_eq. by eapply lookup_lt_Some.
Qed.

Lemma apool_new n : 0 ≤ n ≤ 2 ^ 30 → ∃ bp st, new_size 8 = Ok (bp, st) ∧ apool n st [bp] ∧ contents st = [].
Proof.
  intros Hn. destruct (sys_new 8 (2 * n)) as (bp & st & E & [S1 S2 S3 _ _] & Hnil); [lia|lia|]. exists bp, st. split_and!; [done| |done]. cbn in *.
  split; [done|lia| |lia|rewrite S3; nia]. constructor; [by apply (S2 0%nat)|constructor].
Qed.

(** The first allocator, over pages that do not hold slags of the class yet. *)
Lemma new_core n c pg object_size index cutoff max_objects : ca_inv (n + 1) [c] pg [] → 0 ≤ n < 2 ^ 30 → Meta.compute_metadata object_size (ca_page_size c) index cutoff max_objects SmallSlag = Ok md →
  (∀ p s, page_slag pg p = Some s → slag_meta s ≠ mp) →
  SA.new mp max_objects object_size index cutoff decommit c pg = Fault UnwrapNone ∨
  ∃ a h, SA.new mp max_objects object_size index cutoff decommit c pg = Ok (a, h) ∧ handle_at 0 a [sa_pages a] [sa_available a] ∧
    core n [sa_pages a] [sa_available a] [(sa_slag a, AFresh)] h [].
Proof.
  intros Hci Hn Em Hno. unfold SA.new. rewrite Em, bind_Ok. destruct (apool_new (n + 1)) as (bp & st & Eb & Hap & Hnil); [lia|]. set (h0 := mkSHeap pg st {[mp := md]} : Heap).
  assert (Hc0 : core (n + 1) [c] [bp] [] h0 []).
  { exists ∅, []. split; unfold slag_pages, spread; rewrite ?map_to_list_empty; cbn [h0 hp_pages hp_avail hp_metas]; try done.
    - apply lookup_singleton_eq.
    - by rewrite Hnil.
    - intros p s _ Es Eq. by destruct (Hno p s Es). }
  destruct (new_page_ok n [c] [bp] [] h0 [] 0 c Hc0 ltac:(lia) eq_refl) as [E|(p & c' & h1 & h2 & E1 & E2 & Hc)].
  - left. unfold SA.on_pages in E. cbn [h0 hp_pages] in E. destruct (ca_alloc c pg) as [[[q c'] pg']|f] eqn:Ea; [done|]. by injection E as ->.
  - right. unfold SA.on_pages in E1. cbn [h0 hp_pages] in E1. destruct (ca_alloc c pg) as [[[q c2] pg']|f] eqn:Ea; [|done]. rewrite bind_Ok in E1. injection E1 as -> -> <-. rewrite bind_Ok, Eb, bind_Ok.
    cbn [hp_avail hp_metas] in E2. rewrite E2, bind_Ok. eexists _, h2. split; [done|]. split; [by split_and!|done].
Qed.

(** The system with handles added or dropped. *)
Lemma core_heap n n' cs cs' bps bps' own h h' live : core n cs bps own h live → (∀ held, ca_inv n cs (hp_pages h) held → ca_inv n' cs' (hp_pages h') held) → apool n' (hp_avail h') bps' →
  (∀ r, page_slag (hp_pages h') r = page_slag (hp_pages h) r) → hp_metas h' = hp_metas h → contents (hp_avail h') = contents (hp_avail h) → core n' cs' bps' own h' live.
Proof.
  intros (G & lost & []) Hci Hap Hr Hm Hc. exists G, lost. split; try done; [by apply Hci|by rewrite Hm|intros p x; rewrite Hr; by apply sy_read0|by rewrite Hc|].
  intros p s0. rewrite Hr. by apply sy_cached0.
Qed.

Lemma core_apool n cs bps own h live : core n cs bps own h live → apool n (hp_avail h) bps.
Proof. by intros (G & lost & []). Qed.

Lemma clone_pages_core n cs bps own h live i c : core (n + 1) cs bps own h live → 0 ≤ n → cs !! i = Some c →
  ∃ c' h', SA.on_pages (ca_clone c) h = Ok (c', h') ∧ core n (cs ++ [c']) bps own h' live.
Proof.
  intros Hc Hn Hi. pose proof Hc as (G & lost & Hs). destruct (ca_clone_law n cs (hp_pages h) _ i c (sy_pages _ _ _ _ _ _ _ _ Hs) Hi Hn) as (c' & pg & Ec & _ & _).
  assert (Hcl : ∀ held, ca_inv (n + 1) cs (hp_pages h) held → ca_inv n (cs ++ [c']) pg held ∧ ∀ r, page_slag pg r = page_slag (hp_pages h) r).
  { intros held Hci. destruct (ca_clone_law n cs (hp_pages h) held i c Hci Hi Hn) as (c2 & pg2 & Ec2 & Hci2 & Hr2). rewrite Ec in Ec2. by injection Ec2 as <- <-. }
  exists c', (mkSHeap pg (hp_avail h) (hp_metas h)). split; [unfold SA.on_pages; by rewrite Ec|].
  eapply core_heap; [exact Hc|intros held Hci; by apply Hcl|eapply apool_mono; [apply (core_apool _ _ _ _ _ _ Hc)|lia]| |done|done]. by eapply Hcl, Hs.
Qed.

Lemma clone_avail_core n cs bps own h live : core (n + 1) cs bps own h live → 0 ≤ n → ∃ bp h', SA.avail_clone h = Ok (bp, h') ∧ core n cs (bps ++ [bp]) own h' live.
Proof.
  intros Hc Hn. destruct (apool_clone n (hp_avail h) bps (core_apool _ _ _ _ _ _ Hc) Hn) as (bp & st & E & Hap & Hct). exists bp, (mkSHeap (hp_pages h) st (hp_metas h)).
  split; [unfold SA.avail_clone; by rewrite E|]. eapply core_heap; [exact Hc| |exact Hap|done|done|exact Hct]. intros held Hci. eapply ca_mono_law; [exact Hci|lia].
Qed.

Lemma clone_core n cs bps own h live i a : core (n + 1 + 1 + 1) cs bps own h live → 0 ≤ n → handle_at i a cs bps → length cs = length bps →
  SA.clone a h = Fault UnwrapNone ∨
  ∃ a' h', SA.clone a h = Ok (a', h') ∧ handle_at (length cs) a' (cs ++ [sa_pages a']) (bps ++ [sa_available a']) ∧
    core n (cs ++ [sa_pages a']) (bps ++ [sa_available a']) ((sa_slag a', AFresh) :: own) h' live.
Proof.
  intros Hc Hn (A1 & A2 & A3 & A4) Hlen. unfold SA.clone. destruct (clone_pages_core _ _ _ _ _ _ _ _ Hc ltac:(lia) A3) as (c1 & h1 & E1 & Hc1).
  rewrite (M_bind_run _ _ _ _ _ E1). destruct (new_page_ok (n + 1) (cs ++ [c1]) bps own h1 live (length cs) c1 Hc1 ltac:(lia)) as [E2|(p & c2 & h2 & h3 & E2 & E3 & Hc3)];
    [by rewrite lookup_app_r, Nat.sub_diag by lia|left; by apply M_bind_fault|right].
  rewrite (M_bind_run _ _ _ _ _ E2), A1, (M_bind_run _ _ _ _ _ E3). rewrite insert_app_r_alt, Nat.sub_diag in Hc3 by lia. cbn in Hc3.
  destruct (clone_avail_core _ _ _ _ _ _ Hc3 Hn) as (bp & h4 & E4 & Hc4). rewrite (M_bind_run _ _ _ _ _ E4). eexists _, _. split; [reflexivity|]. cbn [sa_pages sa_available sa_slag]. split; [|done].
  split_and!; [done|done| |]; cbn; [|rewrite Hlen]; by rewrite lookup_app_r, Nat.sub_diag by lia.
Qed.

Lemma drop_core n cs bps own h live i a q : core (n + 1) cs bps ((sa_slag a, q) :: own) h live → 0 ≤ n → handle_at i a cs bps → used_up q →
  ∃ c' bp' h', SA.drop a h = Ok (tt, h') ∧ core n (<[i := c']> cs) (<[i := bp']> bps) own h' live.
Proof.
  intros (G & lost & Hs) Hn Ha Hq. pose proof Ha as (A1 & A2 & A3 & A4). pose proof (sy_meta _ _ _ _ _ _ _ _ Hs) as Hm. set (p := sa_slag a) in *.
  destruct (unclaim_run _ _ _ _ _ _ _ _ _ _ Hs Hq) as (x & cl & c & s' & h1 & Hp & Hps & E1 & Ht & Hr1 & Hh & Hcn & Hp0 & Hi). pose proof (in_held G lost p x Hp) as Hheld.
  pose proof (sy_good _ _ _ _ _ _ _ _ Hs _ _ Hp) as Hg. assert (Hhs : slag_hdr s' = (ty md, mp)) by (rewrite Hh; apply Hg).
  assert (Hend : ∀ a1 h2, system_ok n cs bps i a1 own h2 live → ∃ c' bp' h', (_ ← SA.on_pages (ca_drop (sa_pages a1)); SA.avail_drop (sa_available a1)) h2 = Ok (tt, h') ∧
    core n (<[i := c']> cs) (<[i := bp']> bps) own h' live).
  { intros a1 h2 [(B1 & B2 & B3 & B4) Hc]. pose proof Hc as (G2 & lost2 & Hs2). destruct (ca_drop_law _ _ _ _ i _ (sy_pages _ _ _ _ _ _ _ _ Hs2) B3) as (pg & Ed & _ & Hr2).
    assert (Hdl : ∀ held, ca_inv n (<[i := sa_pages a1]> cs) (hp_pages h2) held → ca_inv n (<[i := ca_dead (sa_pages a1)]> cs) pg held).
    { intros held Hci. destruct (ca_drop_law _ _ _ _ i _ Hci B3) as (pg2 & Ed2 & Hci2 & _). rewrite Ed in Ed2. injection Ed2 as <-. by rewrite list_insert_insert_eq in Hci2. }
    destruct (apool_drop _ _ _ i _ (core_apool _ _ _ _ _ _ Hc) B4) as (st & Ep & Hap & Hct). exists (ca_dead (sa_pages a1)), (sa_available a1), (mkSHeap pg st (hp_metas h2)). split.
    - rewrite (M_bind_run _ _ _ tt (mkSHeap pg (hp_avail h2) (hp_metas h2))) by (unfold SA.on_pages; by rewrite Ed). unfold SA.avail_drop. cbn [hp_avail]. by rewrite Ep.
    - by eapply core_heap. }
  unfold SA.drop. rewrite A1, (M_bind_run _ _ _ _ _ (get_meta_run h Hm)). fold p. rewrite (M_bind_run _ _ _ _ _ E1).
  assert (Hback : c = n_objects md → ∃ c' bp' h', (a0 ← (pa ← SA.on_pages (ca_free (sa_pages a) p false); mret (SA.set_pages a pa)); _ ← SA.on_pages (ca_drop (sa_pages a0)); SA.avail_drop (sa_available a0)) h1 = Ok (tt, h') ∧
    core n (<[i := c']> cs) (<[i := bp']> bps) own h' live).
  { intros ->. rewrite (proj2 (Z.leb_le _ _) Hcut) in Hi. destruct (inv_all_fresh md p size usable page_bytes Hl Hcut _ _ _ Hi) as [Hx0 Hfr]; [by repeat constructor|]. cbn [on_slag sh_slag] in Hfr.
    destruct Ht as (T1 & T2 & T3 & T4).
    destruct (give_back_ok n cs bps bps ((p, q) :: own) own h h1 live live G lost p x s' false i (sa_pages a)) as (c' & h2 & Ef & Hc2); try done.
    - apply T4; [done|apply Hs].
    - rewrite T1. eapply apool_mono; [apply Hs|lia].
    - by rewrite T1, Hp0, app_nil_r.
    - rewrite Hps. cbn. by rewrite <- Permutation_cons_append.
    - by rewrite Hx0, app_nil_r.
    - erewrite M_bind_run; [|rewrite (M_bind_run _ _ _ _ _ Ef); reflexivity]. apply Hend. unfold system_ok. cbn. rewrite (list_insert_id bps) by done. split; [|done].
      split_and!; [done|done| |done]. apply list_lookup_insert_eq. by eapply lookup_lt_Some. }
  destruct cl; [|by apply Hback, Hcn]. destruct (Z.eqb_spec c (n_objects md)) as [Ecn|Ecn]; [by apply Hback|].
  assert (Hown : own ++ (pair p <$> gh_ps x) ≡ₚ ((p, q) :: own) ++ []) by (rewrite Hps, app_nil_r; cbn; by rewrite <- Permutation_cons_append).
  destruct (cutoff_objects md <=? c).
  - destruct (available_ok n cs bps ((p, q) :: own) h h1 live own live G lost p x (mkGhost (SlagProto.set_pipe (on_slag (gh_sh x) s') (S (sh_pipe (gh_sh x)))) [] (gh_live x)) i a) as (a2 & h2 & E2 & _ & Hsys); try done.
    + eapply good_hdr; try done; [apply Hg|]. exists false, c. by apply (inv_release md p (on_slag (gh_sh x) s')).
    + rewrite (M_bind_run _ _ _ _ _ E2). by apply Hend.
  - destruct (quiet_ok n cs bps ((p, q) :: own) h h1 live own live G lost p x (mkGhost (on_slag (gh_sh x) s') [] (gh_live x)) i a) as (a2 & h2 & E2 & _ & Hsys); try done.
    + eapply good_hdr; try done; [apply Hg|]. exists false, c. by apply inv_idle.
    + injection E2 as <- <-. by apply Hend.
Qed.

(** ** Objects in use are distinct *)
Lemma core_ghosts n cs bps own h live G lost p x : sys_at n cs bps own h live G lost → G !! p = Some x →
  ((page_bytes | p) ∧ 0 < p ∧ p + page_bytes ≤ 2 ^ 63) ∧ NoDup (gh_live x) ∧ gh_live x ⊆ all_objects md p.
Proof.
  intros Hs Hp. destruct (page_facts _ _ _ _ _ _ _ _ _ Hs (in_held G lost p x Hp)) as (Q1 & Q2 & Q3 & _). destruct (sg_inv _ _ (sy_good _ _ _ _ _ _ _ _ Hs _ _ Hp)) as (cl & c & Hi).
  pose proof (inv_objects _ _ _ _ _ _ _ Hi) as Hall. split_and!; [done|done|done| |].
  - pose proof (all_objects_NoDup md p size usable page_bytes Hl) as Hnd. rewrite <- Hall in Hnd. apply list.NoDup_app in Hnd as (_ & _ & Hnd). by apply list.NoDup_app in Hnd as (_ & _ & Hnd).
  - intros o Ho. rewrite <- Hall. apply elem_of_app. right. apply elem_of_app. by right.
Qed.

Definition object_of (x : Z) : Prop := ∃ p, (page_bytes | p) ∧ 0 < p ∧ p + page_bytes ≤ 2 ^ 63 ∧ x ∈ all_objects md p.

Lemma core_live n cs bps own h live : core n cs bps own h live → NoDup live ∧ Forall object_of live.
Proof.
  intros (G & lost & Hs). rewrite (sy_live _ _ _ _ _ _ _ _ Hs). pose proof (fun p x => core_ghosts _ _ _ _ _ _ _ _ p x Hs) as HG. clear Hs. split.
  - revert HG. induction G as [|p x G Hp IH] using map_ind; intros HG; [unfold spread; rewrite map_to_list_empty; constructor|]. rewrite spread_add by done.
    destruct (HG p x (lookup_insert_eq _ _ _)) as ((Q1 & _) & Hnd & Hsub). apply list.NoDup_app. split_and!; [done| |apply IH].
    + intros o Ho (p' & x' & Hp' & Ho')%elem_of_spread. assert (Hne : p ≠ p') by congruence. destruct (HG p' x') as ((Q1' & _) & _ & Hsub'); [by rewrite lookup_insert_ne|].
      apply Hne. eapply (same_page p p' o); try done; apply object_in_page; [by apply Hsub|by apply Hsub'].
    + intros p' x' Hp'. apply HG. rewrite lookup_insert_ne; congruence.
  - apply list.Forall_forall. intros o (p & x & Hp & Ho)%elem_of_spread. destruct (HG p x Hp) as ((Q1 & Q2 & Q3) & _ & Hsub). exists p. split_and!; try done. by apply Hsub.
Qed.

(** Objects do not overlap. *)
Lemma objects_apart x y : object_of x → object_of y → x ≠ y → x + object_size md ≤ y ∨ y + object_size md ≤ x.
Proof.
  intros (p & Hd & _ & _ & Hx) (q & Hd' & _ & _ & Hy) Hne. pose proof (object_in_page p x Hx) as Hpx. pose proof (object_in_page q y Hy) as Hpy.
  unfold all_objects in Hx, Hy. apply list_elem_of_fmap in Hx as (j & Ej & Hj%elem_of_zrange). apply list_elem_of_fmap in Hy as (k & Ek & Hk%elem_of_zrange).
  pose proof Hfits. pose proof object_size_pos. destruct (decide (p = q)) as [<-|Hpq].
  - destruct (decide (j < k)); [left; nia|]. destruct (decide (k < j)); [right; nia|]. destruct Hne. subst. f_equal. f_equal. lia.
  - assert (j * object_size md + object_size md ≤ n_objects md * object_size md) by nia. assert (k * object_size md + object_size md ≤ n_objects md * object_size md) by nia.
    destruct page_bytes_law as (e & He & Ee). pose proof (pow2_pos e ltac:(lia)). destruct Hd as [u ->], Hd' as [v ->]. assert (u ≠ v) by congruence.
    destruct (decide (u < v)); [left|right]; nia.
Qed.
End system.
