(* ===== verification/Frontends.v ===== *)
(** * The thread-local caches of elfmalloc

    Models [src/elfmalloc/src/frontends.rs] (all but its module [magazine], see
    Depot): the stack of pointers [PtrStack], the [Coalescer] that batches
    remote frees, the caches [LocalCache] and [MagazineCache] in front of a slag
    allocator (SlagAlloc), and the trait [Frontend] they implement.  An array is
    its contents; an access behind its end is a fault.  A pointer to a bucket of
    the coalescer is its index. *)

From Stdlib Require Import ZArith Lia.
From stdpp Require Import base numbers list gmap option.
From S2P Require Import Prelude F64 SlagMeta SlagBits SlagProto SlagSpec Bag BagPipe SlagAlloc.

Open Scope Z_scope.

(** ** The trait [Frontend]

    With the traits it extends: [LazyInitializable] with its parameters, [Clone],
    and the destructor.  [S] is what the threads share. *)
Class Frontend (FE Params S : Type) := {
  fe_init : Params → M S FE;
  fe_alloc : FE → M S (Z * FE);
  fe_free : FE → Z → M S FE;
  fe_clone : FE → M S FE;
  fe_drop : FE → M S unit
}.

(** ** [PtrStack] *)
Record PtrStack := mkStack { st_data : list Z; st_top : Z }.

Module PS.
Definition new (max_objects : Z) : PtrStack := mkStack (replicate (Z.to_nat max_objects) 0) 0.

Definition get (s : PtrStack) (i : Z) : res Z := deref (st_data s !! Z.to_nat i).

Definition push (item : Z) (s : PtrStack) : res PtrStack :=
  _ ← get s (st_top s);
  t ← uadd (st_top s) 1;
  Ok (mkStack (<[Z.to_nat (st_top s) := item]> (st_data s)) t).

Definition empty (s : PtrStack) : bool := st_top s =? 0.

Definition pop (s : PtrStack) : res (option Z * PtrStack) :=
  if empty s then Ok (None, s)
  else
    t ← usub (st_top s) 1;
    x ← get s t;
    Ok (Some x, mkStack (st_data s) t).
End PS.

(** ** [Coalescer] *)
Record RemoteFreeCell := mkCell { rf_rc : Z; rf_word : Z; rf_mask : Z }.
Definition default_cell : RemoteFreeCell := mkCell 0 0 0.

Record Coalescer := mkCoalescer { co_cells : list RemoteFreeCell; co_used : PtrStack }.

Module Coalesce.
(** The offset of the reference count in a slag. *)
Definition rc_offset : Z := 16.

Definition new (size : Z) : res Coalescer :=
  n ← next_power_of_two size;
  Ok (mkCoalescer (replicate (Z.to_nat n) default_cell) (PS.new size)).

Definition bucket_num (c : Coalescer) (word : Z) : Z := Z.land word (Z.of_nat (length (co_cells c)) - 1).

Definition hash_ptr (p_num : Z) : Z :=
  let words := Z.shiftr p_num 3 in
  let pages := Z.shiftr words 18 in
  wmul pages words.

Definition insert (item : Z) (meta : Metadata) (c : Coalescer) : res (bool * Coalescer) :=
  s ← Slag.find item (total_bytes meta);
  let rc_ptr := s + rc_offset in
  '(word, word_ix) ← Slag.get_word s item meta;
  let word_ptr := s + bitset_offset meta + 8 * word in
  let bucket_ind := bucket_num c (hash_ptr word_ptr) in
  bucket ← deref (co_cells c !! Z.to_nat bucket_ind);
  let set_bucket b := <[Z.to_nat bucket_ind := b]> (co_cells c) in
  if rf_rc bucket =? 0 then
    bit ← ushl 1 word_ix;
    used ← PS.push bucket_ind (co_used c);
    Ok (true, mkCoalescer (set_bucket (mkCell rc_ptr word_ptr bit)) used)
  else if rf_word bucket =? word_ptr then
    bit ← ushl 1 word_ix;
    Ok (true, mkCoalescer (set_bucket (mkCell (rf_rc bucket) (rf_word bucket) (Z.lor (rf_mask bucket) bit))) (co_used c))
  else Ok (false, c).
End Coalesce.

(** ** The caches *)
Record LocalCache (CA : Type) := mkLocal { lc_alloc : SlagAllocator CA; lc_vals : PtrStack; lc_iter : AllocIter }.
Arguments mkLocal {CA} lc_alloc lc_vals lc_iter.
Arguments lc_alloc {CA} l.
Arguments lc_vals {CA} l.
Arguments lc_iter {CA} l.

Record MagazineCache (CA : Type) := mkMagCache {
  mc_stack_size : Z; mc_s : PtrStack; mc_iter : AllocIter; mc_alloc : SlagAllocator CA; mc_coalescer : Coalescer }.
Arguments mkMagCache {CA} mc_stack_size mc_s mc_iter mc_alloc mc_coalescer.
Arguments mc_stack_size {CA} m.
Arguments mc_s {CA} m.
Arguments mc_iter {CA} m.
Arguments mc_alloc {CA} m.
Arguments mc_coalescer {CA} m.

(** The parameters of a cache: the metadata, the threshold for decommitting, and
    handles on the pages and on the pipe. *)
Record CacheParams (CA : Type) := mkParams { cp_meta : Z; cp_decommit : Z; cp_pages : CA; cp_avail : BagPipe }.
Arguments mkParams {CA} cp_meta cp_decommit cp_pages cp_avail.
Arguments cp_meta {CA} c.
Arguments cp_decommit {CA} c.
Arguments cp_pages {CA} c.
Arguments cp_avail {CA} c.

Section caches.
  Context {CA P : Type} `{!PageMemory P} `{!CoarseAllocator CA P} {B : Type} `{BagLaws B Z} `{!RevocableWeakBag B Z}.
  Abbreviation Alloc := (SlagAllocator CA).
  Abbreviation Heap := (SlagHeap P B).

(** [AllocIter::next] of the iterator over the current slag. *)
Definition iter_next (a : Alloc) (it : AllocIter) : M Heap (option Z * AllocIter) := SA.at_slag (sa_slag a) (Iter.next it).

(** The allocator both caches make of their parameters. *)
Definition params_alloc (p : CacheParams CA) : M Heap Alloc :=
  pa ← SA.on_pages (ca_clone (cp_pages p));
  avail ← SA.avail_clone;
  SA.partial_new (cp_meta p) (cp_decommit p) pa avail.

(** [for i in a..b], freeing the entries of a stack. *)
Fixpoint free_entries (s : PtrStack) (l : list Z) (a : Alloc) : M Heap Alloc :=
  match l with
  | [] => mret a
  | i :: l => item ← lift (PS.get s i); a ← SA.free a item; free_entries s l a
  end.

(** What the destructors of both caches do before the fields are dropped. *)
Definition release (a : Alloc) (it : AllocIter) (s : PtrStack) : M Heap Alloc :=
  meta ← SA.get_meta (sa_m a);
  a ← SA.bulk_free a (cur_word it) (next_word it - 1) (sa_slag a) meta;
  free_entries s (zrange 0 (st_top s)) a.

Definition local_new (alloc : Alloc) : M Heap (LocalCache CA) :=
  meta ← SA.get_meta (sa_m alloc);
  let stack := PS.new (n_objects meta) in
  '(iter, alloc) ← SA.refresh alloc;
  mret (mkLocal alloc stack iter).

Definition local_init (p : CacheParams CA) : M Heap (LocalCache CA) := salloc ← params_alloc p; local_new salloc.

Definition local_clone (c : LocalCache CA) : M Heap (LocalCache CA) := a ← SA.clone (lc_alloc c); local_new a.

Definition local_drop (c : LocalCache CA) : M Heap unit := a ← release (lc_alloc c) (lc_iter c) (lc_vals c); SA.drop a.

Definition local_free (c : LocalCache CA) (it : Z) : M Heap (LocalCache CA) :=
  own ← SA.contains (lc_alloc c) it;
  if (own : bool) then
    vals ← lift (PS.push it (lc_vals c));
    mret (mkLocal (lc_alloc c) vals (lc_iter c))
  else
    a ← SA.free (lc_alloc c) it;
    mret (mkLocal a (lc_vals c) (lc_iter c)).

Definition local_alloc (c : LocalCache CA) : M Heap (Z * LocalCache CA) :=
  '(o, vals) ← lift (PS.pop (lc_vals c));
  match o with
  | Some x => mret (x, mkLocal (lc_alloc c) vals (lc_iter c))
  | None =>
      '(o, iter) ← iter_next (lc_alloc c) (lc_iter c);
      match o with
      | Some x => mret (x, mkLocal (lc_alloc c) vals iter)
      | None =>
          '(next_iter, a) ← SA.refresh (lc_alloc c);
          '(o, iter) ← iter_next a next_iter;
          match o with
          | Some x => mret (x, mkLocal a vals iter)
          | None => throw Panicked
          end
      end
  end.

Definition magazine_new_sized (alloc : Alloc) (magazine_size : Z) : M Heap (MagazineCache CA) :=
  _ ← lift (rassert (0 <? magazine_size));
  let s := PS.new magazine_size in
  '(iter, alloc) ← SA.refresh alloc;
  buckets ← lift (n ← umul magazine_size 2; Coalesce.new n);
  mret (mkMagCache magazine_size s iter alloc buckets).

(** The size of the stack: [<<] binds less tightly than [/]. *)
Definition magazine_size (object_size : Z) : res Z :=
  let CUTOFF := Z.shiftl 32 10 in
  if object_size <=? 512 then Ok (Z.shiftl 1 16)
  else if object_size <=? CUTOFF then q ← udiv 10 object_size; ushl 512 q
  else q ← udiv 20 object_size; ushl 1 q.

Definition magazine_new (alloc : Alloc) : M Heap (MagazineCache CA) :=
  meta ← SA.get_meta (sa_m alloc);
  size ← lift (magazine_size (object_size meta));
  magazine_new_sized alloc (Z.max 1 size).

Definition magazine_init (p : CacheParams CA) : M Heap (MagazineCache CA) := salloc ← params_alloc p; magazine_new salloc.

Definition magazine_clone (c : MagazineCache CA) : M Heap (MagazineCache CA) :=
  a ← SA.clone (mc_alloc c); magazine_new_sized a (mc_stack_size c).

Definition magazine_drop (c : MagazineCache CA) : M Heap unit := a ← release (mc_alloc c) (mc_iter c) (mc_s c); SA.drop a.

(** [rounds] times: the iterator's next object, or the next slag. *)
Fixpoint slag_rounds (rounds : nat) (a : Alloc) (it : AllocIter) : M Heap (Z * AllocIter * Alloc) :=
  match rounds with
  | O => throw Panicked
  | S r =>
      '(o, it) ← iter_next a it;
      match o with
      | Some ptr => mret (ptr, it, a)
      | None => '(it, a) ← SA.refresh a; slag_rounds r a it
      end
  end.

Definition slag_alloc (c : MagazineCache CA) : M Heap (Z * MagazineCache CA) :=
  '(ptr, it, a) ← slag_rounds 2 (mc_alloc c) (mc_iter c);
  mret (ptr, mkMagCache (mc_stack_size c) (mc_s c) it a (mc_coalescer c)).

(** The first loop of [return_memory], over the entries [l] of the stack. *)
Fixpoint coalesce (meta : Metadata) (s : PtrStack) (l : list Z) (co : Coalescer) (a : Alloc) : M Heap (Coalescer * Alloc) :=
  match l with
  | [] => mret (co, a)
  | i :: l =>
      item ← lift (PS.get s i);
      '(inserted, co) ← lift (Coalesce.insert item meta co);
      a ← (if (inserted : bool) then mret a else SA.free a item);
      coalesce meta s l co a
  end.

(** The second loop, over the entries [l] of the coalescer's stack. *)
Fixpoint flush (meta : Metadata) (l : list Z) (co : Coalescer) (a : Alloc) : M Heap (Coalescer * Alloc) :=
  match l with
  | [] => mret (co, a)
  | i :: l =>
      ptr ← lift (PS.get (co_used co) i);
      cell ← lift (deref (co_cells co !! Z.to_nat ptr));
      slag ← lift (Slag.find (rf_rc cell) (total_bytes meta));
      a ← SA.bulk_free a (rf_mask cell) ((rf_word cell - (slag + bitset_offset meta)) / 8) slag meta;
      flush meta l (mkCoalescer (<[Z.to_nat ptr := default_cell]> (co_cells co)) (co_used co)) a
  end.

Definition return_memory (c : MagazineCache CA) : M Heap (MagazineCache CA) :=
  let s := mc_s c in
  _ ← lift (rassert (st_top s =? mc_stack_size c));
  let new_top := mc_stack_size c / 2 in
  meta ← SA.get_meta (sa_m (mc_alloc c));
  '(co, a) ← coalesce meta s (zrange new_top (mc_stack_size c)) (mc_coalescer c) (mc_alloc c);
  let s := mkStack (st_data s) new_top in
  '(co, a) ← flush meta (zrange 0 (st_top (co_used co))) co a;
  mret (mkMagCache (mc_stack_size c) s (mc_iter c) a (mkCoalescer (co_cells co) (mkStack (st_data (co_used co)) 0))).

Definition set_stack (c : MagazineCache CA) (s : PtrStack) : MagazineCache CA :=
  mkMagCache (mc_stack_size c) s (mc_iter c) (mc_alloc c) (mc_coalescer c).

Definition magazine_alloc (c : MagazineCache CA) : M Heap (Z * MagazineCache CA) :=
  '(o, s) ← lift (PS.pop (mc_s c));
  match o with
  | Some ptr => mret (ptr, set_stack c s)
  | None => slag_alloc (set_stack c s)
  end.

Definition magazine_free (c : MagazineCache CA) (item : Z) : M Heap (MagazineCache CA) :=
  if st_top (mc_s c) <? mc_stack_size c then
    s ← lift (PS.push item (mc_s c));
    mret (set_stack c s)
  else
    c ← return_memory c;
    s ← lift (PS.push item (mc_s c));
    mret (set_stack c s).

#[export] Instance local_frontend : Frontend (LocalCache CA) (CacheParams CA) Heap :=
  Build_Frontend _ _ _ local_init local_alloc local_free local_clone local_drop.
#[export] Instance magazine_frontend : Frontend (MagazineCache CA) (CacheParams CA) Heap :=
  Build_Frontend _ _ _ magazine_init magazine_alloc magazine_free magazine_clone magazine_drop.
End caches.

(** ** Stacks hold lists *)

(** A stack of capacity [cap] that holds [l], its top at the end. *)
Record stack_is (s : PtrStack) (cap : Z) (l : list Z) : Prop := {
  si_top : st_top s = Z.of_nat (length l);
  si_cap : Z.of_nat (length (st_data s)) = cap;
  si_word : cap < 2 ^ 64;
  si_items : take (length l) (st_data s) = l
}.

Lemma stack_room s cap l : stack_is s cap l → Z.of_nat (length l) ≤ cap.
Proof. intros [Ht Hc _ Hl]. apply (f_equal length) in Hl. rewrite length_take in Hl. lia. Qed.

Lemma stack_new cap : 0 ≤ cap < 2 ^ 64 → stack_is (PS.new cap) cap [].
Proof. intros Hc. split; cbn; [done| |lia|done]. rewrite length_replicate. lia. Qed.

Lemma stack_get s cap l i x : stack_is s cap l → l !! i = Some x → PS.get s (Z.of_nat i) = Ok x.
Proof.
  intros [_ _ _ Hl] Hi. unfold PS.get. rewrite Nat2Z.id. rewrite <- Hl in Hi. apply lookup_take_Some in Hi as [-> _]. done.
Qed.

Lemma stack_push s cap l x : stack_is s cap l → Z.of_nat (length l) < cap → ∃ s', PS.push x s = Ok s' ∧ stack_is s' cap (l ++ [x]).
Proof.
  intros [Ht Hc Hw Hl] Hlt. destruct (lookup_lt_is_Some_2 (st_data s) (length l)) as [y Hy]; [lia|].
  unfold PS.push, PS.get. rewrite Ht, Nat2Z.id, Hy. cbn [deref]. rewrite bind_Ok, uadd_Ok, bind_Ok by lia. eexists. split; [done|].
  assert (Hx : <[length l := x]> (st_data s) = l ++ x :: drop (S (length l)) (st_data s)).
  { rewrite <- (take_drop_middle _ _ _ Hy) at 1. rewrite Hl. rewrite insert_app_r_alt, Nat.sub_diag by done. done. }
  split; cbn; [rewrite length_app; cbn; lia|by rewrite length_insert|done|]. rewrite Hx, length_app. cbn. rewrite cons_middle, app_assoc. apply take_app_length'. rewrite length_app. cbn. lia.
Qed.

Lemma stack_pop_nil s cap : stack_is s cap [] → PS.pop s = Ok (None, s).
Proof. intros [Ht _ _ _]. unfold PS.pop, PS.empty. by rewrite Ht. Qed.

Lemma stack_cut s cap l l' : stack_is s cap (l ++ l') → stack_is (mkStack (st_data s) (Z.of_nat (length l))) cap l.
Proof.
  intros [Ht Hc Hw Hl]. split; cbn; [done|done|done|]. rewrite length_app in Hl. apply (f_equal (take (length l))) in Hl.
  rewrite take_take, take_app_length in Hl. by rewrite Nat.min_l in Hl by lia.
Qed.

Lemma stack_pop s cap l x : stack_is s cap (l ++ [x]) → ∃ s', PS.pop s = Ok (Some x, s') ∧ stack_is s' cap l.
Proof.
  intros Hs. pose proof (si_top _ _ _ Hs) as Ht. rewrite length_app in Ht. cbn in Ht. unfold PS.pop, PS.empty. rewrite (proj2 (Z.eqb_neq _ _)) by lia.
  rewrite usub_Ok, bind_Ok by lia. replace (st_top s - 1) with (Z.of_nat (length l)) by lia.
  rewrite (stack_get s cap (l ++ [x]) (length l) x Hs), bind_Ok by (by apply list_lookup_middle). eexists. split; [done|]. by eapply stack_cut.
Qed.

(** Behind the last cell there is nothing to write to. *)
Lemma stack_full s cap l x : stack_is s cap l → Z.of_nat (length l) = cap → PS.push x s = Fault BadAccess.
Proof.
  intros [Ht Hc _ _] Hlen. unfold PS.push, PS.get. rewrite Ht, Nat2Z.id, lookup_ge_None_2 by lia. done.
Qed.

Lemma stack_entries s cap l : stack_is s cap l → zrange 0 (st_top s) = Z.of_nat <$> seq 0 (length l).
Proof.
  intros [-> _ _ _]. unfold zrange. rewrite Z.sub_0_r, Nat2Z.id. apply list_fmap_ext. intros i x Hx. lia.
Qed.

(** ** Caches over the slags of a size class *)
Section system.
  Context {CA P : Type} `{CoarseLaws CA P} {B : Type} `{BagLaws B Z} `{!RevocableWeakBag B Z} `{!RevocableLaws B Z}.
  Context (md : Metadata) (mp decommit size usable : Z).
  Hypothesis Hok : class_ok md mp decommit size usable.
  Abbreviation Alloc := (SlagAllocator CA).
  Abbreviation Heap := (SlagHeap P B).
  Abbreviation core := (core md mp).
  Abbreviation handle_at := (handle_at mp decommit).
  Abbreviation system_ok := (system_ok md mp decommit).
  Implicit Types (h : Heap) (own : list (Z * pc)) (live : list Z) (a : Alloc) (cs : list CA) (bps : list BagPipe).

Lemma system_id n cs bps i a own h live : handle_at i a cs bps → core n cs bps own h live → system_ok n cs bps i a own h live.
Proof. intros Ha Hc. pose proof Ha as (_ & _ & A3 & A4). unfold SlagAlloc.system_ok. by rewrite !list_insert_id. Qed.

Lemma system_again n cs bps i c bp a own h live : system_ok n (<[i := c]> cs) (<[i := bp]> bps) i a own h live ↔ system_ok n cs bps i a own h live.
Proof. unfold SlagAlloc.system_ok. by rewrite !list_insert_insert_eq. Qed.

(** The slag of an object in use. *)
Lemma core_find n cs bps own h live item : core n cs bps own h live → item ∈ live →
  ∃ p, Slag.find item (total_bytes md) = Ok p ∧ item ∈ all_objects md p ∧ (page_bytes | p) ∧ 0 < p ∧ p + page_bytes ≤ 2 ^ 63.
Proof.
  intros (G & lost & Hs) [k Hk]%elem_of_Permutation. destruct (live_ghost _ _ _ _ _ Hok _ _ _ _ _ _ k _ _ item Hs Hk) as (p & x & l & Hp & _ & Hin). exists p.
  pose proof (in_held G lost p x Hp) as Hheld. destruct (page_facts _ _ _ _ _ Hok _ _ _ _ _ _ _ _ _ Hs Hheld) as (P1 & P2 & P3 & _). split_and!; try done. by eapply find_run.
Qed.

Lemma core_meta n cs bps own h live : core n cs bps own h live → SA.get_meta mp h = Ok (md, h).
Proof. intros (G & lost & Hs). by apply get_meta_run, Hs. Qed.

(** The next object of the iterator, or of the next slag. *)
Lemma next_or_refresh n cs bps own h live i a it : core (n + 1 + 1) cs bps ((sa_slag a, AIter it) :: own) h live → 0 ≤ n → handle_at i a cs bps →
  (∃ x it' h', iter_next a it h = Ok ((Some x, it'), h') ∧ core n cs bps ((sa_slag a, AIter it') :: own) h' (x :: live)) ∨
  ∃ it1 h1, iter_next a it h = Ok ((None, it1), h1) ∧
    (SA.refresh a h1 = Fault UnwrapNone ∨
     ∃ it2 a' h2 x it3 h3, SA.refresh a h1 = Ok ((it2, a'), h2) ∧ iter_next a' it2 h2 = Ok ((Some x, it3), h3) ∧ system_ok n cs bps i a' ((sa_slag a', AIter it3) :: own) h3 (x :: live)).
Proof.
  intros Hc Hn Ha. destruct (next_ok _ _ _ _ _ Hok _ _ _ _ _ _ _ _ Hc) as ([x|] & it1 & h1 & E1 & Hc1 & Hw & _).
  - left. exists x, it1, h1. split; [done|]. eapply core_mono; [exact Hc1|lia].
  - right. exists it1, h1. split; [done|]. specialize (Hw eq_refl). destruct (slag_refresh_ok _ _ _ _ _ Hok n cs bps own h1 live i a (AIter it1) Hc1 Hn Ha) as [E|(it2 & a' & h2 & E2 & [Ha2 Hc2] & Hreach)];
      [right; by exists it1|by left|right].
    destruct (next_ok _ _ _ _ _ Hok _ _ _ _ _ _ _ _ Hc2) as ([x|] & it3 & h3 & E3 & Hc3 & _ & Hsome); [|by destruct (Hsome Hreach)]. exists it2, a', h2, x, it3, h3. by split_and!.
Qed.

Lemma free_entries_ok s cap l : ∀ k l0 n cs bps own h live i a, stack_is s cap (l0 ++ l) → length l0 = k → core (n + Z.of_nat (length l)) cs bps own h (l ++ live) → 0 ≤ n → handle_at i a cs bps →
  ∃ a' h', free_entries s (Z.of_nat <$> seq k (length l)) a h = Ok (a', h') ∧ sa_slag a' = sa_slag a ∧ system_ok n cs bps i a' own h' live.
Proof.
  induction l as [|x l IH]; intros k l0 n cs bps own h live i a Hs Hk Hc Hn Ha; cbn [length seq fmap list_fmap free_entries].
  { exists a, h. split_and!; [done|done|]. apply system_id; [done|]. eapply core_mono; [exact Hc|cbn; lia]. }
  rewrite (lift_bind _ x) by (eapply stack_get; [exact Hs|]; subst k; by apply list_lookup_middle). cbn [length app] in Hc.
  destruct (free_ok _ _ _ _ _ Hok (n + Z.of_nat (length l)) cs bps own h (l ++ live) x i a) as (a1 & h1 & E1 & Es1 & [Ha1 Hc1]); [|lia|done|].
  { replace (n + Z.of_nat (length l) + 1) with (n + Z.of_nat (S (length l))) by lia. exact Hc. }
  rewrite (M_bind_run _ _ _ _ _ E1). destruct (IH (S k) (l0 ++ [x]) n _ _ own h1 live i a1 ltac:(by rewrite <- app_assoc) ltac:(rewrite length_app; cbn; lia) Hc1 Hn Ha1) as (a2 & h2 & E2 & Es2 & Hc2).
  exists a2, h2. split_and!; [done|congruence|]. by eapply system_again.
Qed.

(** A destructor gives back the objects of the word and of the stack. *)
Lemma release_drop_ok n cs bps own h live i a it s cap l : core (n + 1 + 1 + Z.of_nat (length l)) cs bps ((sa_slag a, AIter it) :: own) h (l ++ live) → 0 ≤ n → handle_at i a cs bps → stack_is s cap l →
  ∃ c' bp' h', (a ← release a it s; SA.drop a) h = Ok (tt, h') ∧ core n (<[i := c']> cs) (<[i := bp']> bps) own h' live.
Proof.
  intros Hc Hn Ha Hs. pose proof Ha as (A1 & _). destruct (unhold_ok _ _ _ _ _ Hok _ _ _ _ _ _ _ _ Hc) as (Hc1 & Hw & Hd & Hsub & Hnext).
  unfold release. rewrite A1, (stack_entries s cap l Hs).
  destruct (bulk_ok _ _ _ _ _ Hok (n + 1 + Z.of_nat (length l)) cs bps ((sa_slag a, AIter (with_word it 0)) :: own) h (l ++ live) (sa_slag a) (cur_word_index it) (cur_word it) i a) as (a1 & h1 & E1 & Es1 & [Ha1 Hc2]); try done; [|lia|].
  { eapply core_mono; [exact Hc1|lia]. }
  destruct (free_entries_ok s cap l 0 [] (n + 1) _ _ _ h1 live i a1 Hs eq_refl Hc2) as (a2 & h2 & E2 & Es2 & [Ha2 Hc3]); [lia|done|].
  rewrite !list_insert_insert_eq in Hc3. rewrite !list_insert_insert_eq in Ha2. rewrite <- Es1, <- Es2 in Hc3.
  destruct (drop_core _ _ _ _ _ Hok n _ _ own h2 live i a2 _ Hc3 Hn Ha2) as (c' & bp' & h3 & E3 & Hc4); [right; by eexists|]. rewrite !list_insert_insert_eq in Hc4.
  exists c', bp', h3. split; [|done]. erewrite M_bind_run; [exact E3|]. rewrite (M_bind_run _ _ _ _ _ (core_meta _ _ _ _ _ _ Hc1)).
  replace (next_word it - 1) with (cur_word_index it) by lia. by rewrite (M_bind_run _ _ _ _ _ E1).
Qed.

(** ** What the caches promise

    A cache owns the slag of its allocator, of which it uses the iterator, and
    holds objects.  Each object held is worth a call on the slags. *)
Class SlagCache (FE : Type) := { fc_alloc : FE → Alloc; fc_iter : FE → AllocIter; fc_items : FE → list Z; fc_good : FE → Prop }.

Definition cache_in {FE} `{!SlagCache FE} n cs bps (i : nat) own h live (f : FE) : Prop :=
  fc_good f ∧ handle_at i (fc_alloc f) cs bps ∧
  core (n + Z.of_nat (length (fc_items f))) cs bps ((sa_slag (fc_alloc f), AIter (fc_iter f)) :: own) h (fc_items f ++ live).

Definition cache_out {FE} `{!SlagCache FE} n cs bps (i : nat) own h live (f : FE) : Prop :=
  cache_in n (<[i := sa_pages (fc_alloc f)]> cs) (<[i := sa_available (fc_alloc f)]> bps) i own h live f.

(** A call costs at most [call_cost] calls on the pages or the pipe. *)
Definition call_cost : Z := 5.

Class CacheLaws (FE : Type) `{!SlagCache FE} `{!Frontend FE (CacheParams CA) Heap} : Prop := {
  cache_alloc_law n cs bps i own h live (f : FE) : cache_in (n + call_cost) cs bps i own h live f → 0 ≤ n →
    fe_alloc f h = Fault UnwrapNone ∨ ∃ x f' h', fe_alloc f h = Ok ((x, f'), h') ∧ cache_out n cs bps i own h' (x :: live) f';
  cache_free_law n cs bps i own h live (f : FE) x : cache_in (n + call_cost) cs bps i own h (x :: live) f → 0 ≤ n →
    ∃ f' h', fe_free f x h = Ok (f', h') ∧ cache_out n cs bps i own h' live f';
  cache_clone_law n cs bps i own h live (f : FE) : core (n + call_cost) cs bps own h live → 0 ≤ n → fc_good f → handle_at i (fc_alloc f) cs bps → length cs = length bps →
    fe_clone f h = Fault UnwrapNone ∨
    ∃ f' h', fe_clone f h = Ok (f', h') ∧ fc_items f' = [] ∧ cache_in n (cs ++ [sa_pages (fc_alloc f')]) (bps ++ [sa_available (fc_alloc f')]) (length cs) own h' live f';
  cache_drop_law n cs bps i own h live (f : FE) : cache_in (n + call_cost) cs bps i own h live f → 0 ≤ n →
    ∃ c' bp' h', fe_drop f h = Ok (tt, h') ∧ core n (<[i := c']> cs) (<[i := bp']> bps) own h' live;
  cache_init_law n cs bps i own h live (p : CacheParams CA) : core (n + call_cost) cs bps own h live → 0 ≤ n → cp_meta p = mp → cp_decommit p = decommit → cs !! i = Some (cp_pages p) →
    length cs = length bps →
    fe_init p h = Fault UnwrapNone ∨
    ∃ (f' : FE) h', fe_init p h = Ok (f', h') ∧ fc_items f' = [] ∧ cache_in n (cs ++ [sa_pages (fc_alloc f')]) (bps ++ [sa_available (fc_alloc f')]) (length cs) own h' live f'
}.

(** ** [LocalCache] *)
Definition items_of (s : PtrStack) : list Z := take (Z.to_nat (st_top s)) (st_data s).

Lemma items_of_is s cap l : stack_is s cap l → items_of s = l.
Proof. intros [Ht _ _ Hl]. unfold items_of. by rewrite Ht, Nat2Z.id. Qed.

Lemma snoc_cases {A} (l : list A) : l = [] ∨ ∃ l' x, l = l' ++ [x].
Proof. induction l as [|x l _] using rev_ind; [by left|right; eauto]. Qed.

(** Objects on the stack are of the slag the cache owns. *)
#[export] Instance local_cache : SlagCache (LocalCache CA) := {
  fc_alloc := lc_alloc; fc_iter := lc_iter; fc_items c := items_of (lc_vals c);
  fc_good c := stack_is (lc_vals c) (n_objects md) (items_of (lc_vals c)) ∧ items_of (lc_vals c) ⊆ all_objects md (sa_slag (lc_alloc c)) }.

Lemma local_good a s it l : stack_is s (n_objects md) l → l ⊆ all_objects md (sa_slag a) → fc_good (mkLocal a s it) ∧ fc_items (mkLocal a s it) = l.
Proof. intros Hs Hsub. cbn. by rewrite (items_of_is s _ _ Hs). Qed.

Lemma local_alloc_ok n cs bps i own h live (c : LocalCache CA) : cache_in (n + call_cost) cs bps i own h live c → 0 ≤ n →
  local_alloc c h = Fault UnwrapNone ∨ ∃ x c' h', local_alloc c h = Ok ((x, c'), h') ∧ cache_out n cs bps i own h' (x :: live) c'.
Proof.
  intros ([Hs Hsub] & Ha & Hc) Hn. destruct c as [a s it]. cbn in *. unfold call_cost in *. unfold local_alloc. cbn [lc_vals lc_alloc lc_iter].
  destruct (snoc_cases (items_of s)) as [El|(l & x & El)]; rewrite El in *.
  - rewrite (lift_bind _ _ _ _ (stack_pop_nil s _ Hs)). cbn [length app] in Hc.
    assert (Hnew : ∀ x a' it' h', system_ok n cs bps i a' ((sa_slag a', AIter it') :: own) h' (x :: live) → cache_out n cs bps i own h' (x :: live) (mkLocal a' s it')).
    { intros x a' it' h' [Ha' Hc']. destruct (local_good a' s it' [] Hs ltac:(set_solver)) as [Hg Hi]. split_and!; [done|done|]. rewrite Hi. cbn. by rewrite Z.add_0_r. }
    destruct (next_or_refresh n cs bps own h live i a it) as [(x & it' & h' & E1 & Hc')|(it1 & h1 & E1 & Hr)]; [eapply core_mono; [exact Hc|lia]|done|done| |].
    + right. rewrite (M_bind_run _ _ _ _ _ E1). eexists x, _, h'. split; [reflexivity|]. by apply Hnew, system_id.
    + rewrite (M_bind_run _ _ _ _ _ E1). destruct Hr as [E2|(it2 & a' & h2 & x & it3 & h3 & E2 & E3 & Hs')]; [left; by apply M_bind_fault|right].
      rewrite (M_bind_run _ _ _ _ _ E2), (M_bind_run _ _ _ _ _ E3). eexists x, _, h3. split; [reflexivity|]. by apply Hnew.
  - right. destruct (stack_pop s _ l x Hs) as (s' & Ep & Hs'). rewrite (lift_bind _ _ _ _ Ep). eexists x, _, h. split; [reflexivity|].
    destruct (local_good a s' it l Hs') as [Hg Hi]; [set_solver|]. unfold cache_out, cache_in. cbn [fc_alloc local_cache lc_alloc fc_iter lc_iter]. rewrite Hi.
    pose proof Ha as (_ & _ & A3 & A4). rewrite !list_insert_id by done. split_and!; [done|done|]. rewrite length_app in Hc. cbn in Hc.
    eapply core_perm; [eapply core_mono; [exact Hc|lia]|done|]. by rewrite <- app_assoc.
Qed.

Lemma local_free_ok n cs bps i own h live (c : LocalCache CA) x : cache_in (n + call_cost) cs bps i own h (x :: live) c → 0 ≤ n →
  ∃ c' h', local_free c x h = Ok (c', h') ∧ cache_out n cs bps i own h' live c'.
Proof.
  intros ([Hs Hsub] & Ha & Hc) Hn. destruct c as [a s it]. cbn in *. set (l := items_of s) in *. unfold call_cost in *. unfold local_free, SA.contains. cbn [lc_vals lc_alloc lc_iter].
  pose proof Ha as (A1 & A2 & A3 & A4). destruct (core_find _ _ _ _ _ _ x Hc) as (p & Ef & Hp & _); [set_solver|].
  rewrite A1. erewrite M_bind_run; [|rewrite (M_bind_run _ _ _ _ _ (core_meta _ _ _ _ _ _ Hc)), (lift_bind _ _ _ _ Ef); reflexivity].
  destruct (Z.eqb_spec p (sa_slag a)) as [->|Hne].
  - assert (Hlt : Z.of_nat (length l) < n_objects md).
    { destruct (core_live _ _ _ _ _ Hok _ _ _ _ _ _ Hc) as [Hnd _]. apply list.NoDup_app in Hnd as (Hnd & Hdis & _).
      assert (Hnd2 : NoDup (x :: l)) by (constructor; [intros Hx; apply (Hdis x Hx); left|done]).
      assert (Hle : (length (x :: l) ≤ length (all_objects md (sa_slag a)))%nat) by (apply submseteq_length, NoDup_submseteq; [done|]; intros y [->|Hy]%elem_of_cons; [done|by apply Hsub]).
      unfold all_objects in Hle. rewrite length_fmap, length_zrange in Hle. cbn in Hle. lia. }
    destruct (stack_push s _ l x Hs Hlt) as (s' & Ep & Hs'). rewrite (lift_bind _ _ _ _ Ep). eexists _, h. split; [reflexivity|].
    destruct (local_good a s' it (l ++ [x]) Hs') as [Hg Hi]; [set_solver|]. unfold cache_out, cache_in. cbn [fc_alloc local_cache lc_alloc fc_iter lc_iter]. rewrite Hi.
    rewrite !list_insert_id by done. split_and!; [done|done|]. rewrite length_app. cbn [length].
    eapply core_perm; [eapply core_mono; [exact Hc|lia]|done|]. by rewrite <- app_assoc.
  - destruct (free_ok _ _ _ _ _ Hok (n + Z.of_nat (length l)) cs bps ((sa_slag a, AIter it) :: own) h (l ++ live) x i a) as (a1 & h1 & E1 & Es1 & Ha1 & Hc1); [|lia|done|].
    { eapply core_perm; [eapply core_mono; [exact Hc|lia]|done|]. by rewrite <- Permutation_middle. }
    rewrite (M_bind_run _ _ _ _ _ E1). eexists _, h1. split; [reflexivity|]. destruct (local_good a1 s it l Hs) as [Hg Hi]; [by rewrite Es1|].
    unfold cache_out, cache_in. cbn [fc_alloc local_cache lc_alloc fc_iter lc_iter]. rewrite Hi. split_and!; [done|done|]. by rewrite Es1.
Qed.

(** A cache of an allocator that was just made. *)
Lemma local_new_ok n cs bps i own h live a : core (n + 1 + 1) cs bps ((sa_slag a, AFresh) :: own) h live → 0 ≤ n → handle_at i a cs bps →
  local_new a h = Fault UnwrapNone ∨ ∃ c h', local_new a h = Ok (c, h') ∧ fc_items c = [] ∧ cache_out n cs bps i own h' live c.
Proof.
  intros Hc Hn Ha. pose proof Ha as (A1 & _). unfold local_new. rewrite A1, (M_bind_run _ _ _ _ _ (core_meta _ _ _ _ _ _ Hc)).
  destruct (slag_refresh_ok _ _ _ _ _ Hok n cs bps own h live i a AFresh Hc Hn Ha) as [E|(it & a' & h' & E & [Ha' Hc'] & _)]; [by left|left; by apply M_bind_fault|right].
  rewrite (M_bind_run _ _ _ _ _ E). eexists _, h'. split; [reflexivity|]. pose proof (cl_layout _ _ _ _ _ Hok) as (_ & _ & _ & _ & _ & _ & Hnn & _).
  destruct (local_good a' (PS.new (n_objects md)) it []) as [Hg Hi]; [apply stack_new; lia|set_solver|]. split; [done|]. split_and!; [done|done|]. rewrite Hi. cbn. by rewrite Z.add_0_r.
Qed.

(** A new handle is the last one. *)
Lemma cache_last {FE} `{!SlagCache FE} n cs bps own h live c bp (f : FE) : length cs = length bps → cache_out n (cs ++ [c]) (bps ++ [bp]) (length cs) own h live f →
  cache_in n (cs ++ [sa_pages (fc_alloc f)]) (bps ++ [sa_available (fc_alloc f)]) (length cs) own h live f.
Proof. intros Hlen. unfold cache_out. rewrite !insert_app_r_alt by lia. by rewrite <- Hlen, Nat.sub_diag. Qed.

Lemma local_clone_ok n cs bps i own h live (f : LocalCache CA) : core (n + call_cost) cs bps own h live → 0 ≤ n → handle_at i (fc_alloc f) cs bps → length cs = length bps →
  local_clone f h = Fault UnwrapNone ∨
  ∃ f' h', local_clone f h = Ok (f', h') ∧ fc_items f' = [] ∧ cache_in n (cs ++ [sa_pages (fc_alloc f')]) (bps ++ [sa_available (fc_alloc f')]) (length cs) own h' live f'.
Proof.
  intros Hc Hn Ha Hlen. unfold local_clone, call_cost in *. destruct (clone_core _ _ _ _ _ Hok (n + 1 + 1) cs bps own h live i (lc_alloc f)) as [E|(a' & h' & E & Ha' & Hc')];
    [eapply core_mono; [exact Hc|lia]|lia|done|done|left; by apply M_bind_fault|].
  rewrite (M_bind_run _ _ _ _ _ E). destruct (local_new_ok n _ _ (length cs) own h' live a' Hc' Hn Ha') as [E2|(c & h2 & E2 & Hi & Hout)]; [by left|right].
  exists c, h2. split_and!; [done|done|]. by eapply cache_last.
Qed.

(** The allocator of parameters. *)
Lemma params_alloc_ok n cs bps i own h live p : core (n + 1 + 1 + 1) cs bps own h live → 0 ≤ n → cp_meta p = mp → cp_decommit p = decommit → cs !! i = Some (cp_pages p) → length cs = length bps →
  params_alloc p h = Fault UnwrapNone ∨
  ∃ a h', params_alloc p h = Ok (a, h') ∧ handle_at (length cs) a (cs ++ [sa_pages a]) (bps ++ [sa_available a]) ∧
    core n (cs ++ [sa_pages a]) (bps ++ [sa_available a]) ((sa_slag a, AFresh) :: own) h' live.
Proof.
  intros Hc Hn Em Ed Hi Hlen. unfold params_alloc. rewrite Em, Ed. destruct (clone_pages_core _ _ _ _ _ _ _ _ _ _ Hc ltac:(lia) Hi) as (c1 & h1 & E1 & Hc1). rewrite (M_bind_run _ _ _ _ _ E1).
  destruct (clone_avail_core _ _ _ _ _ _ _ _ Hc1 ltac:(lia)) as (bp & h2 & E2 & Hc2). rewrite (M_bind_run _ _ _ _ _ E2).
  destruct (partial_new_ok _ _ _ _ _ Hok n (cs ++ [c1]) (bps ++ [bp]) own h2 live (length cs) c1 bp Hc2 Hn) as [E3|(a & h3 & E3 & Hs)]; [| |by left|right].
  - by rewrite lookup_app_r, Nat.sub_diag by lia.
  - by rewrite Hlen, lookup_app_r, Nat.sub_diag by lia.
  - exists a, h3. split; [done|]. unfold SlagAlloc.system_ok in Hs. rewrite !insert_app_r_alt in Hs by lia. by rewrite <- Hlen, Nat.sub_diag in Hs.
Qed.

Lemma local_init_ok n cs bps i own h live p : core (n + call_cost) cs bps own h live → 0 ≤ n → cp_meta p = mp → cp_decommit p = decommit → cs !! i = Some (cp_pages p) → length cs = length bps →
  local_init p h = Fault UnwrapNone ∨
  ∃ f' h', local_init p h = Ok (f', h') ∧ fc_items f' = [] ∧ cache_in n (cs ++ [sa_pages (fc_alloc f')]) (bps ++ [sa_available (fc_alloc f')]) (length cs) own h' live f'.
Proof.
  intros Hc Hn Em Ed Hi Hlen. unfold local_init, call_cost in *. destruct (params_alloc_ok (n + 1 + 1) cs bps i own h live p) as [E|(a' & h' & E & Ha' & Hc')];
    [eapply core_mono; [exact Hc|lia]|lia|done|done|done|done|left; by apply M_bind_fault|].
  rewrite (M_bind_run _ _ _ _ _ E). destruct (local_new_ok n _ _ (length cs) own h' live a' Hc' Hn Ha') as [E2|(c & h2 & E2 & Hit & Hout)]; [by left|right].
  exists c, h2. split_and!; [done|done|]. by eapply cache_last.
Qed.

Lemma local_drop_ok n cs bps i own h live (f : LocalCache CA) : cache_in (n + call_cost) cs bps i own h live f → 0 ≤ n →
  ∃ c' bp' h', local_drop f h = Ok (tt, h') ∧ core n (<[i := c']> cs) (<[i := bp']> bps) own h' live.
Proof.
  intros ([Hs _] & Ha & Hc) Hn. unfold call_cost in *. eapply (release_drop_ok n cs bps own h live i (lc_alloc f) (lc_iter f) (lc_vals f)); [|done|done|exact Hs].
  cbn in Hc. eapply core_mono; [exact Hc|lia].
Qed.

#[export] Instance local_cache_laws : CacheLaws (LocalCache CA).
Proof.
  split; [exact local_alloc_ok|exact local_free_ok| |exact local_drop_ok|exact local_init_ok]. intros. by eapply local_clone_ok.
Qed.
End system.
