(* ===== verification/MagazineCaches.v ===== *)
(** * Magazine caches

    That the [MagazineCache] of [src/elfmalloc/src/frontends.rs] (modelled in
    Frontends) keeps its promises as a cache: the [Coalescer] represents the
    objects inserted into it, [return_memory] gives half of a full stack back. *)

From Stdlib Require Import ZArith Lia.
From stdpp Require Import base numbers list gmap option.
From S2P Require Import Prelude F64 SlagMeta SlagBits SlagProto SlagSpec Bag BagPipe SlagAlloc Frontends.

Open Scope Z_scope.

Section system.
  Context {CA P : Type} `{CoarseLaws CA P} {B : Type} `{BagLaws B Z} `{!RevocableWeakBag B Z} `{!RevocableLaws B Z}.
  Context (md : Metadata) (mp decommit size usable : Z).
  Hypothesis Hok : class_ok md mp decommit size usable.
  Abbreviation Alloc := (SlagAllocator CA).
  Abbreviation Heap := (SlagHeap P B).
  Abbreviation core := (core md mp).
  Abbreviation handle_at := (handle_at mp decommit).
  Abbreviation system_ok := (system_ok md mp decommit).
  Abbreviation Hl := (cl_layout _ _ _ _ _ Hok).
  Implicit Types (h : Heap) (own : list (Z * pc)) (live : list Z) (a : Alloc) (cs : list CA) (bps : list BagPipe) (co : Coalescer).

(** ** Where an object's bit is *)
Definition page_at (p : Z) : Prop := (page_bytes | p) ∧ 0 < p ∧ p + page_bytes ≤ 2 ^ 63.

Lemma header_in_page : Coalesce.rc_offset < bitset_offset md ∧ bitset_offset md + 8 * n_bitset_words md ≤ page_bytes.
Proof.
  pose proof Hl as (_ & _ & _ & _ & _ & _ & Hn & -> & -> & Hoff & _). pose proof (cl_fits _ _ _ _ _ Hok) as Hfits. pose proof (object_size_pos _ _ _ _ _ Hok) as Hpos.
  pose proof (pad_for_bound (object_size md) (n_objects md) (bits_per_object md) Hpos). unfold Coalesce.rc_offset. nia.
Qed.

Lemma find_in_page p x : page_at p → p ≤ x < p + page_bytes → Slag.find x (total_bytes md) = Ok p.
Proof.
  intros (Hd & Hp & Hp2) Hx. pose proof Hl as (_ & _ & _ & _ & _ & _ & _ & _ & _ & _ & _ & _ & -> & _). destruct page_bytes_law as (e & He & Ee).
  eapply (find_spec p page_bytes x e); try done; lia.
Qed.

Lemma object_word p item : page_at p → item ∈ all_objects md p →
  ∃ w ix, Slag.get_word p item md = Ok (w, ix) ∧ 0 ≤ ix < 64 ∧ 0 ≤ w < n_bitset_words md ∧ item = adr md p (64 * w + ix).
Proof.
  intros (Hd & Hp & Hp2) Hin. pose proof (object_in_page _ _ _ _ _ Hok p item Hin) as Hpg. unfold all_objects in Hin. apply list_elem_of_fmap in Hin as (j & -> & Hj%elem_of_zrange).
  pose proof Hl as (_ & Hb & _ & _ & _ & _ & Hn & HW & _). rewrite (get_word_spec size usable page_bytes md p j Hl) by lia.
  pose proof (words_for_bound (n_objects md) (bits_per_object md) ltac:(lia) ltac:(lia)) as HWb. rewrite <- HW in HWb. set (k := bits_per_object md * j) in *.
  pose proof (Z.div_mod k 64 ltac:(lia)) as Ek. pose proof (Z.mod_pos_bound k 64 ltac:(lia)). assert (0 ≤ k < n_objects md * bits_per_object md) by (unfold k; nia).
  exists (k / 64), (k mod 64). split_and!; [done|lia|lia|apply Z.div_pos; lia|lia|]. rewrite <- Ek. symmetry. exact (adr_object md p size usable page_bytes Hl j).
Qed.

Lemma bit_list_one ix : 0 ≤ ix → bit_list (Z.shiftl 1 ix) = [ix].
Proof.
  intros Hix. assert (Hm : Z.shiftl 1 ix = 2 ^ ix) by (by rewrite Z.shiftl_1_l). rewrite Hm. pose proof (pow2_pos ix Hix). symmetry. apply Permutation_singleton_l, NoDup_Permutation.
  - apply NoDup_singleton.
  - apply sorted_NoDup, bit_list_sorted.
  - intros k. rewrite list_elem_of_singleton, elem_of_bit_list by lia. rewrite Z.pow2_bits_eqb by lia. rewrite Z.eqb_eq. naive_solver lia.
Qed.

(** ** What a coalescer holds *)

(** The slag, the word and the objects of a bucket. *)
Definition cell_slag (c : RemoteFreeCell) : Z := rf_rc c - Coalesce.rc_offset.
Definition cell_word (c : RemoteFreeCell) : Z := (rf_word c - (cell_slag c + bitset_offset md)) / 8.
Definition cell_objects (c : RemoteFreeCell) : list Z := mask_objects md (cell_slag c) (cell_word c) (rf_mask c).

Record cell_ok (c : RemoteFreeCell) : Prop := {
  ce_page : page_at (cell_slag c);
  ce_word : 0 ≤ cell_word c < n_bitset_words md;
  ce_ptr : rf_word c = cell_slag c + bitset_offset md + 8 * cell_word c;
  ce_mask : word_ok (rf_mask c);
  ce_some : rf_mask c ≠ 0;
  ce_objects : cell_objects c ⊆ all_objects md (cell_slag c)
}.

Definition bucket_objects (cells : list RemoteFreeCell) (u : Z) : list Z := from_option cell_objects [] (cells !! Z.to_nat u).

(** The buckets [used] hold the objects [objs], all others are empty. *)
Record coalescer_is co (cap : Z) (used objs : list Z) : Prop := {
  cs_len : ∃ k, 0 ≤ k < 64 ∧ Z.of_nat (length (co_cells co)) = 2 ^ k;
  cs_stack : stack_is (co_used co) cap used;
  cs_nodup : NoDup used;
  cs_used u : u ∈ used → 0 ≤ u ∧ ∃ c, co_cells co !! Z.to_nat u = Some c ∧ cell_ok c;
  cs_free u c : u ∉ used → 0 ≤ u → co_cells co !! Z.to_nat u = Some c → c = default_cell;
  cs_objs : objs ≡ₚ used ≫= bucket_objects (co_cells co)
}.

Lemma cell_objects_some c : cell_ok c → cell_objects c ≠ [].
Proof.
  intros [_ _ _ Hm Hs _] E. unfold word_ok in Hm. assert (Hin : Z.log2 (rf_mask c) ∈ bit_list (rf_mask c)).
  { apply elem_of_bit_list; [lia|]. split; [apply Z.log2_nonneg|apply Z.bit_log2; lia]. }
  apply (list_elem_of_fmap_2 (fun i => adr md (cell_slag c) (64 * cell_word c + i))) in Hin. unfold cell_objects, mask_objects in E. rewrite E in Hin. by apply elem_of_nil in Hin.
Qed.

(** There are no more buckets in use than objects. *)
Lemma used_objs co cap used objs : coalescer_is co cap used objs → (length used ≤ length objs)%nat.
Proof.
  intros Hco. rewrite (cs_objs _ _ _ _ Hco). pose proof (cs_used _ _ _ _ Hco) as Hu. clear Hco. induction used as [|u used IH]; [done|]. rewrite bind_cons, length_app. cbn [length].
  destruct (Hu u) as (_ & c & Ec & Hc); [left|]. unfold bucket_objects at 1. rewrite Ec. cbn. pose proof (cell_objects_some c Hc). destruct (cell_objects c); [done|]. cbn.
  specialize (IH (fun v Hv => Hu v (list_elem_of_further _ _ _ Hv))). lia.
Qed.

Lemma new_cell p w ix : page_at p → 0 ≤ w < n_bitset_words md → 0 ≤ ix < 64 → adr md p (64 * w + ix) ∈ all_objects md p →
  let c := mkCell (p + Coalesce.rc_offset) (p + bitset_offset md + 8 * w) (Z.shiftl 1 ix) in
  cell_slag c = p ∧ cell_word c = w ∧ cell_ok c ∧ cell_objects c = [adr md p (64 * w + ix)].
Proof.
  intros Hp Hw Hix Hin c. assert (Es : cell_slag c = p) by (unfold cell_slag; cbn; lia).
  assert (Ew : cell_word c = w) by (unfold cell_word; rewrite Es; cbn; replace (p + bitset_offset md + 8 * w - (p + bitset_offset md)) with (w * 8) by lia; by apply Z.div_mul).
  assert (Hm : Z.shiftl 1 ix = 2 ^ ix) by (by rewrite Z.shiftl_1_l). pose proof (pow2_pos ix ltac:(lia)). assert (2 ^ ix < 2 ^ 64) by (apply Z.pow_lt_mono_r; lia).
  assert (Eo : cell_objects c = [adr md p (64 * w + ix)]) by (unfold cell_objects; rewrite Es, Ew; unfold mask_objects; cbn [c rf_mask]; by rewrite bit_list_one by lia).
  split_and!; [done|done| |done]. split; rewrite ?Eo, ?Es, ?Ew; cbn [c rf_mask rf_word]; try done; [rewrite Hm; split; lia|rewrite Hm; lia|]. by intros o ->%list_elem_of_singleton.
Qed.

(** An object joins its bucket. *)
Lemma join_cell c ix : cell_ok c → 0 ≤ ix < 64 → adr md (cell_slag c) (64 * cell_word c + ix) ∉ cell_objects c → adr md (cell_slag c) (64 * cell_word c + ix) ∈ all_objects md (cell_slag c) →
  let c' := mkCell (rf_rc c) (rf_word c) (Z.lor (rf_mask c) (Z.shiftl 1 ix)) in
  cell_ok c' ∧ cell_objects c' ≡ₚ adr md (cell_slag c) (64 * cell_word c + ix) :: cell_objects c.
Proof.
  intros [H1' H2' H3' H4' H5' H6'] Hix Hno Hin c'. assert (Hm : Z.shiftl 1 ix = 2 ^ ix) by (by rewrite Z.shiftl_1_l). pose proof (pow2_pos ix ltac:(lia)).
  assert (2 ^ ix < 2 ^ 64) by (apply Z.pow_lt_mono_r; lia). unfold word_ok in H4'.
  assert (Hbit : Z.testbit (rf_mask c) ix = false).
  { destruct (Z.testbit (rf_mask c) ix) eqn:Eb; [|done]. destruct Hno. apply (list_elem_of_fmap_2 (fun i => adr md (cell_slag c) (64 * cell_word c + i))). apply elem_of_bit_list; [lia|]. split; [lia|done]. }
  assert (Hland : Z.land (rf_mask c) (Z.shiftl 1 ix) = 0).
  { rewrite Hm. apply Z.bits_inj'. intros k Hk. rewrite Z.land_spec, Z.bits_0, Z.pow2_bits_eqb by lia. destruct (Z.eqb_spec ix k) as [<-|]; [by rewrite Hbit|by rewrite andb_false_r]. }
  assert (Eo : cell_objects c' ≡ₚ adr md (cell_slag c) (64 * cell_word c + ix) :: cell_objects c).
  { unfold cell_objects at 1, mask_objects at 1. change (cell_slag c') with (cell_slag c). change (cell_word c') with (cell_word c). cbn [c' rf_mask].
    rewrite bit_list_lor by (first [done|lia|rewrite Hm; lia]). rewrite fmap_app, bit_list_one by lia. by rewrite Permutation_app_comm. }
  split; [|done]. split; try done; cbn [c' rf_mask]; [apply word_ok_lor; [done|rewrite Hm; unfold word_ok; lia]| |].
  - intros E. apply Z.lor_eq_0_iff in E as [E _]. done.
  - intros o. rewrite Eo. intros [->|Ho]%elem_of_cons; [done|by apply H6'].
Qed.

Lemma bind_ext_in {A C} (f g : A → list C) l : (∀ x, x ∈ l → f x = g x) → l ≫= f = l ≫= g.
Proof. induction l as [|x l IH]; intros Hfg; [done|]. rewrite !bind_cons, (Hfg x), IH; [done| |left]. intros y Hy. apply Hfg. by right. Qed.

(** Writing a bucket does not change the others. *)
Lemma bucket_other (cells : list RemoteFreeCell) u v c : 0 ≤ u → 0 ≤ v → u ≠ v → <[Z.to_nat u := c]> cells !! Z.to_nat v = cells !! Z.to_nat v.
Proof. intros Hu Hv Hne. apply list_lookup_insert_ne. lia. Qed.

Lemma bucket_run co cap used objs x : coalescer_is co cap used objs → 0 ≤ Coalesce.bucket_num co x ∧ ∃ c, co_cells co !! Z.to_nat (Coalesce.bucket_num co x) = Some c.
Proof.
  intros [(k & Hk & Ek) _ _ _ _ _]. unfold Coalesce.bucket_num. rewrite Ek, land_pow2_pred by lia. pose proof (Z.mod_pos_bound x (2 ^ k) (pow2_pos k ltac:(lia))).
  split; [lia|]. apply lookup_lt_is_Some_2. lia.
Qed.

(** A bucket is in use when its reference count pointer is not null. *)
Lemma bucket_used co cap used objs u c : coalescer_is co cap used objs → 0 ≤ u → co_cells co !! Z.to_nat u = Some c → rf_rc c = 0 ∧ u ∉ used ∨ rf_rc c ≠ 0 ∧ u ∈ used ∧ cell_ok c.
Proof.
  intros Hco Hu Ec. destruct (decide (u ∈ used)) as [Hin|Hin]; [right|left; by rewrite (cs_free _ _ _ _ Hco u c Hin Hu Ec)].
  destruct (cs_used _ _ _ _ Hco u Hin) as (_ & c' & Ec' & Hc). rewrite Ec in Ec'. injection Ec' as <-. split_and!; try done. destruct (ce_page _ Hc) as (_ & Hp & _). unfold cell_slag, Coalesce.rc_offset in Hp. lia.
Qed.

Lemma add_bucket co cap used objs u c x s : coalescer_is co cap used objs → u ∉ used → 0 ≤ u < Z.of_nat (length (co_cells co)) → cell_ok c → cell_objects c = [x] → stack_is s cap (used ++ [u]) →
  coalescer_is (mkCoalescer (<[Z.to_nat u := c]> (co_cells co)) s) cap (used ++ [u]) (x :: objs).
Proof.
  intros [C1 C2 C3 C4 C5 C6] Hu Hlt Hc Eo Hs. assert (Eu : <[Z.to_nat u := c]> (co_cells co) !! Z.to_nat u = Some c) by (apply list_lookup_insert_eq; lia). split; cbn [co_cells co_used]; try done.
  - by rewrite length_insert.
  - apply list.NoDup_app. split_and!; [done| |apply NoDup_singleton]. by intros v Hv ->%list_elem_of_singleton.
  - intros v [Hv| ->%list_elem_of_singleton]%elem_of_app; [|split; [lia|eauto]]. destruct (C4 v Hv) as (Hv0 & c' & Ec' & Hc'). split; [done|]. exists c'. rewrite bucket_other; [done|lia|done|by intros ->].
  - intros v c' Hv Hv0. rewrite not_elem_of_app, list_elem_of_singleton in Hv. rewrite bucket_other by (lia || naive_solver). apply C5; naive_solver.
  - rewrite bind_app, bind_cons, app_nil_r. unfold bucket_objects at 2. rewrite Eu. cbn. rewrite Eo, C6, <- Permutation_cons_append. constructor.
    rewrite (bind_ext_in (bucket_objects (<[Z.to_nat u := c]> (co_cells co))) (bucket_objects (co_cells co)) used); [done|].
    intros v Hv. unfold bucket_objects. destruct (C4 v Hv) as (Hv0 & _). rewrite bucket_other; [done|lia|done|by intros ->].
Qed.

Lemma grow_bucket co cap used objs u c c' x : coalescer_is co cap used objs → u ∈ used → co_cells co !! Z.to_nat u = Some c → cell_ok c' → cell_objects c' ≡ₚ x :: cell_objects c →
  coalescer_is (mkCoalescer (<[Z.to_nat u := c']> (co_cells co)) (co_used co)) cap used (x :: objs).
Proof.
  intros [C1 C2 C3 C4 C5 C6] Hu Ec Hc Eo. pose proof (lookup_lt_Some _ _ _ Ec) as Hlt. assert (Eu : <[Z.to_nat u := c']> (co_cells co) !! Z.to_nat u = Some c') by (by apply list_lookup_insert_eq).
  destruct (C4 u Hu) as (Hu0 & _). split; cbn [co_cells co_used]; try done.
  - by rewrite length_insert.
  - intros v Hv. destruct (decide (u = v)) as [<-|Hne]; [eauto|]. destruct (C4 v Hv) as (Hv0 & c2 & Ec2 & Hc2). split; [done|]. exists c2. by rewrite bucket_other.
  - intros v c2 Hv Hv0. rewrite bucket_other by (done || by intros ->). by apply C5.
  - apply list_elem_of_split in Hu as (l1 & l2 & ->). rewrite C6, !bind_app, !bind_cons. apply list.NoDup_app in C3 as (N1 & N2 & N3). apply list.NoDup_cons in N3 as [N3 N4].
    assert (Hsame : ∀ v, v ∈ l1 ++ u :: l2 → v ≠ u → bucket_objects (<[Z.to_nat u := c']> (co_cells co)) v = bucket_objects (co_cells co) v).
    { intros v Hv Hne. unfold bucket_objects. destruct (C4 v Hv) as (Hv0 & _). by rewrite bucket_other. }
    rewrite (bind_ext_in (bucket_objects (<[Z.to_nat u := c']> (co_cells co))) (bucket_objects (co_cells co)) l1), (bind_ext_in (bucket_objects (<[Z.to_nat u := c']> (co_cells co))) (bucket_objects (co_cells co)) l2).
    + unfold bucket_objects at 2 5. rewrite Eu, Ec. cbn. rewrite Eo. cbn. by rewrite <- Permutation_middle.
    + intros v Hv. apply Hsame; [set_solver|by intros ->].
    + intros v Hv. apply Hsame; [set_solver|]. intros ->. apply (N2 u Hv). left.
Qed.

(** The coalescer represents a set of objects: an object in use that is not in
    it is added to the bucket of its word, or the bucket is taken by another word
    and nothing changes. *)
Lemma insert_ok co cap used objs p item : coalescer_is co cap used objs → page_at p → item ∈ all_objects md p → item ∉ objs → Z.of_nat (length used) < cap →
  ∃ b co', Coalesce.insert item md co = Ok (b, co') ∧ if b then ∃ used', coalescer_is co' cap used' (item :: objs) else co' = co.
Proof.
  intros Hco Hp Hin Hno Hlt. pose proof (object_in_page _ _ _ _ _ Hok p item Hin) as Hpg. destruct (object_word p item Hp Hin) as (w & ix & Ew & Hix & Hw & Ei).
  unfold Coalesce.insert. rewrite (find_in_page p item Hp Hpg), bind_Ok, Ew, bind_Ok. set (wp := p + bitset_offset md + 8 * w). set (u := Coalesce.bucket_num co (Coalesce.hash_ptr wp)).
  destruct (bucket_run co cap used objs (Coalesce.hash_ptr wp) Hco) as (Hu & c & Ec). fold u in Hu, Ec. rewrite Ec. cbn [deref]. rewrite bind_Ok. pose proof (lookup_lt_Some _ _ _ Ec) as Hclt.
  assert (Hbit : ushl 1 ix = Ok (Z.shiftl 1 ix)).
  { unfold ushl. rewrite (proj2 (Z.ltb_lt _ _)), Z.shiftl_1_l by lia. unfold wrap. rewrite Z.mod_small; [done|]. pose proof (pow2_pos ix ltac:(lia)). split; [lia|]. apply Z.pow_lt_mono_r; lia. }
  destruct (bucket_used co cap used objs u c Hco Hu Ec) as [[Hz Hnu]|(Hnz & Hinu & Hc)].
  - rewrite (proj2 (Z.eqb_eq _ _) Hz), Hbit, bind_Ok. destruct (stack_push _ cap used u (cs_stack _ _ _ _ Hco) Hlt) as (s & Es & Hs). rewrite Es, bind_Ok. eexists true, _. split; [done|].
    destruct (new_cell p w ix Hp Hw Hix ltac:(by rewrite <- Ei)) as (_ & _ & Hc' & Eo). exists (used ++ [u]). eapply add_bucket; try done; [lia|]. rewrite Ei. exact Eo.
  - rewrite (proj2 (Z.eqb_neq _ _) Hnz). destruct (Z.eqb_spec (rf_word c) wp) as [Eq|Hne]; [|by exists false, co]. rewrite Hbit, bind_Ok. eexists true, _. split; [done|]. exists used.
    pose proof header_in_page as [Hhd Hbits]. unfold Coalesce.rc_offset in Hhd. assert (Epq : cell_slag c = p).
    { destruct (ce_page _ Hc) as (Hd & _). destruct Hp as (Hd' & _). pose proof (ce_word _ Hc). pose proof (ce_ptr _ Hc). eapply (same_page (cell_slag c) p (rf_word c) Hd Hd'); unfold wp in Eq; lia. }
    assert (Eww : cell_word c = w) by (pose proof (ce_ptr _ Hc); unfold wp in Eq; lia). rewrite <- Epq, <- Eww in Ei.
    destruct (join_cell c ix Hc Hix) as [Hc' Eo]; [|by rewrite <- Ei, Epq|rewrite Ei; eapply grow_bucket; try done]. rewrite <- Ei. intros Hin'. apply Hno. rewrite (cs_objs _ _ _ _ Hco). apply list_elem_of_bind. exists u. split; [|done].
    unfold bucket_objects. by rewrite Ec.
Qed.

(** ** [return_memory] *)
Lemma coalesce_ok s scap cap l : ∀ k l0 n cs bps own h live i a co used objs, stack_is s scap (l0 ++ l) → length l0 = k → coalescer_is co cap used objs → Z.of_nat (length objs + length l) ≤ cap →
  core (n + Z.of_nat (length l + length objs)) cs bps own h (l ++ objs ++ live) → 0 ≤ n → handle_at i a cs bps →
  ∃ co' a' h' used' objs', coalesce md s (Z.of_nat <$> seq k (length l)) co a h = Ok ((co', a'), h') ∧ sa_slag a' = sa_slag a ∧ coalescer_is co' cap used' objs' ∧
    system_ok (n + Z.of_nat (length objs')) cs bps i a' own h' (objs' ++ live).
Proof.
  induction l as [|x l IH]; intros k l0 n cs bps own h live i a co used objs Hs Hk Hco Hcap Hc Hn Ha; cbn [length seq fmap list_fmap coalesce].
  { exists co, a, h, used, objs. split_and!; try done. by apply system_id. }
  rewrite (lift_bind _ x) by (eapply stack_get; [exact Hs|]; subst k; by apply list_lookup_middle). cbn [length app] in *.
  destruct (core_find _ _ _ _ _ Hok _ _ _ _ _ _ x Hc) as (p & _ & Hin & Hpg); [left|].
  destruct (core_live _ _ _ _ _ Hok _ _ _ _ _ _ Hc) as [Hnd _]. apply list.NoDup_cons in Hnd as [Hno _]. pose proof (used_objs _ _ _ _ Hco).
  destruct (insert_ok co cap used objs p x Hco Hpg Hin) as (b & co1 & E1 & Hb); [set_solver|lia|]. rewrite (lift_bind _ _ _ _ E1).
  assert (Hs' : stack_is s scap ((l0 ++ [x]) ++ l)) by (by rewrite <- app_assoc). assert (Hk' : length (l0 ++ [x]) = S k) by (rewrite length_app; cbn; lia). destruct b.
  - destruct Hb as [used1 Hco1]. unfold mbind at 1, M_bind at 1. cbn [mret M_ret]. eapply (IH (S k) (l0 ++ [x])); try done; cbn [length]; [lia|].
    eapply core_perm; [eapply core_mono; [exact Hc|lia]|done|]. cbn. by rewrite <- Permutation_middle.
  - subst co1. destruct (free_ok _ _ _ _ _ Hok (n + Z.of_nat (length l + length objs)) cs bps own h (l ++ objs ++ live) x i a) as (a1 & h1 & Ef & Es1 & Ha1 & Hc1); [|lia|done|].
    { eapply core_mono; [exact Hc|lia]. }
    rewrite (M_bind_run _ _ _ _ _ Ef). destruct (IH (S k) (l0 ++ [x]) n _ _ own h1 live i a1 co used objs Hs' Hk' Hco ltac:(lia) Hc1 Hn Ha1) as (co' & a' & h' & used' & objs' & E2 & Es2 & Hco' & Hsys).
    exists co', a', h', used', objs'. split_and!; [done|congruence|done|]. by eapply system_again.
Qed.

Lemma flush_ok cap us : ∀ k u0 n cs bps own h live i a co, stack_is (co_used co) cap (u0 ++ us) → length u0 = k → NoDup us → (∀ u, u ∈ us → 0 ≤ u ∧ ∃ c, co_cells co !! Z.to_nat u = Some c ∧ cell_ok c) →
  (∀ u c, u ∉ us → 0 ≤ u → co_cells co !! Z.to_nat u = Some c → c = default_cell) →
  core (n + Z.of_nat (length us)) cs bps own h ((us ≫= bucket_objects (co_cells co)) ++ live) → 0 ≤ n → handle_at i a cs bps →
  ∃ co' a' h', flush md (Z.of_nat <$> seq k (length us)) co a h = Ok ((co', a'), h') ∧ sa_slag a' = sa_slag a ∧ co_used co' = co_used co ∧ length (co_cells co') = length (co_cells co) ∧
    (∀ u c, 0 ≤ u → co_cells co' !! Z.to_nat u = Some c → c = default_cell) ∧ system_ok n cs bps i a' own h' live.
Proof.
  induction us as [|u us IH]; intros k u0 n cs bps own h live i a co Hs Hk Hnd Hus Hfr Hc Hn Ha; cbn [length seq fmap list_fmap flush].
  { exists co, a, h. split_and!; try done; [intros u c; apply Hfr; apply not_elem_of_nil|]. apply system_id; [done|]. cbn in Hc. by rewrite Z.add_0_r in Hc. }
  rewrite (lift_bind _ u) by (eapply stack_get; [exact Hs|]; subst k; by apply list_lookup_middle). destruct (Hus u) as (Hu & c & Ec & Hce); [left|].
  rewrite (lift_bind _ c) by (by rewrite Ec). apply list.NoDup_cons in Hnd as [Hnu Hnd]. pose proof header_in_page as [Hhd Hbits]. pose proof (ce_word _ Hce).
  rewrite (lift_bind _ (cell_slag c)) by (apply find_in_page; [apply Hce|unfold cell_slag, Coalesce.rc_offset in *; lia]). fold (cell_word c). rewrite bind_cons in Hc. unfold bucket_objects at 1 in Hc. rewrite Ec in Hc. cbn [from_option] in Hc.
  assert (Hrest : ∀ v, v ∈ us → 0 ≤ v ∧ v ≠ u) by (intros v Hv; split; [apply Hus; by right|by intros ->]).
  assert (Hsame : us ≫= bucket_objects (<[Z.to_nat u := default_cell]> (co_cells co)) = us ≫= bucket_objects (co_cells co)).
  { apply bind_ext_in. intros v Hv. destruct (Hrest v Hv) as [Hv0 Hne]. unfold bucket_objects. by rewrite bucket_other. }
  destruct (bulk_ok _ _ _ _ _ Hok (n + Z.of_nat (length us)) cs bps own h ((us ≫= bucket_objects (co_cells co)) ++ live) (cell_slag c) (cell_word c) (rf_mask c) i a) as (a1 & h1 & E1 & Es1 & Ha1 & Hc1);
    [rewrite app_assoc; eapply core_mono; [exact Hc|cbn [length]; lia]|lia|done|apply Hce|apply (ce_page _ Hce)|apply (ce_objects _ Hce)|].
  rewrite (M_bind_run _ _ _ _ _ E1). set (co1 := mkCoalescer _ _).
  destruct (IH (S k) (u0 ++ [u]) n (<[i := sa_pages a1]> cs) (<[i := sa_available a1]> bps) own h1 live i a1 co1) as (co' & a' & h' & E2 & Es2 & Eu & El & Hall & Hsys); cbn [co1 co_used co_cells]; try done.
  - by rewrite <- app_assoc.
  - rewrite length_app. cbn. lia.
  - intros v Hv. destruct (Hrest v Hv) as [Hv0 Hne]. rewrite bucket_other by done. apply Hus. by right.
  - intros v c' Hv Hv0. destruct (decide (u = v)) as [<-|Hne]; [rewrite list_lookup_insert_eq by (by eapply lookup_lt_Some); by intros [= <-]|].
    rewrite bucket_other by done. apply Hfr; [|done]. rewrite not_elem_of_cons. naive_solver.
  - by rewrite Hsame.
  - exists co', a', h'. split_and!; [done|congruence|done|rewrite El; cbn; by rewrite length_insert|done|]. by eapply system_again.
Qed.

(** ** [MagazineCache] *)

(** Between calls the coalescer is empty. *)
Definition magazine_ok (c : MagazineCache CA) (l : list Z) : Prop :=
  stack_is (mc_s c) (mc_stack_size c) l ∧ 0 < mc_stack_size c < 2 ^ 62 ∧ coalescer_is (mc_coalescer c) (2 * mc_stack_size c) [] [].

#[export] Instance magazine_cache : SlagCache (MagazineCache CA) := {
  fc_alloc := mc_alloc; fc_iter := mc_iter; fc_items c := items_of (mc_s c); fc_good c := magazine_ok c (items_of (mc_s c)) }.

Lemma magazine_good c l : magazine_ok c l → fc_good c ∧ fc_items c = l.
Proof. intros Hc. pose proof Hc as (Hs & _). cbn. by rewrite (items_of_is _ _ _ Hs). Qed.

(** The emptied coalescer. *)
Lemma coalescer_reset co0 co cap used objs used0 : coalescer_is co0 cap used objs → length (co_cells co) = length (co_cells co0) → stack_is (co_used co) cap used0 →
  (∀ u c, 0 ≤ u → co_cells co !! Z.to_nat u = Some c → c = default_cell) → coalescer_is (mkCoalescer (co_cells co) (mkStack (st_data (co_used co)) 0)) cap [] [].
Proof.
  intros [C1 _ _ _ _ _] El Hs Hall. split; cbn [co_cells co_used]; try done; [by rewrite El|exact (stack_cut _ _ [] used0 Hs)|constructor|intros u Hu; by apply elem_of_nil in Hu|].
  intros u c _. apply Hall.
Qed.

Lemma return_memory_ok n cs bps i own h live c : cache_in md mp decommit n cs bps i own h live c → 0 ≤ n → st_top (mc_s c) = mc_stack_size c →
  ∃ c' h', return_memory c h = Ok (c', h') ∧ Z.of_nat (length (fc_items c')) < mc_stack_size c' ∧ cache_out md mp decommit n cs bps i own h' live c'.
Proof.
  intros ((Hs & Hsz & Hco) & Ha & Hc) Hn Ht. cbn in Hc, Ha. set (l := items_of (mc_s c)) in *. pose proof Ha as (A1 & _). set (sz := mc_stack_size c) in *.
  assert (Hlen : Z.of_nat (length l) = sz) by (rewrite <- Ht; symmetry; apply Hs). set (t := sz / 2). assert (Ht2 : 0 ≤ t < sz) by (unfold t; split; [apply Z.div_pos; lia|apply Z.div_lt; lia]).
  set (l1 := take (Z.to_nat t) l). set (l2 := drop (Z.to_nat t) l). assert (El : l = l1 ++ l2) by (symmetry; apply take_drop).
  assert (El1 : Z.of_nat (length l1) = t) by (unfold l1; rewrite length_take; lia). assert (El2 : Z.of_nat (length l2) = sz - t) by (unfold l2; rewrite length_drop; lia).
  unfold return_memory. fold sz. rewrite lift_assert by (by apply Z.eqb_eq). rewrite A1, (M_bind_run _ _ _ _ _ (core_meta _ _ _ _ _ _ _ _ Hc)).
  assert (Hr : zrange t sz = Z.of_nat <$> seq (length l1) (length l2)).
  { unfold zrange. replace (Z.to_nat (sz - t)) with (length l2) by lia. replace (seq (length l1) (length l2)) with (Nat.add (length l1) <$> seq 0 (length l2)) by (rewrite fmap_add_seq; f_equal; lia). rewrite <- list_fmap_compose. apply list_fmap_ext. intros j x _. cbn. lia. }
  fold t. rewrite Hr. rewrite El in Hs, Hc.
  destruct (coalesce_ok (mc_s c) sz (2 * sz) l2 (length l1) l1 (n + t) cs bps ((sa_slag (mc_alloc c), AIter (mc_iter c)) :: own) h (l1 ++ live) i (mc_alloc c) (mc_coalescer c) [] [])
    as (co1 & a1 & h1 & used & objs & E1 & Es1 & Hco1 & Ha1 & Hc1); try done; [cbn [length]; lia| |lia|].
  { cbn [length app]. eapply core_perm; [eapply core_mono; [exact Hc|rewrite length_app; lia]|done|solve_Permutation]. }
  rewrite (M_bind_run _ _ _ _ _ E1), (stack_entries _ _ _ (cs_stack _ _ _ _ Hco1)). pose proof (used_objs _ _ _ _ Hco1) as Hle.
  destruct (flush_ok (2 * sz) used 0 [] (n + t) (<[i := sa_pages a1]> cs) (<[i := sa_available a1]> bps) ((sa_slag (mc_alloc c), AIter (mc_iter c)) :: own) h1 (l1 ++ live) i a1 co1)
    as (co2 & a2 & h2 & E2 & Es2 & Eu & Elen & Hall & Hsys); try done; [apply Hco1|apply Hco1|apply Hco1|intros u c'; apply (cs_free _ _ _ _ Hco1)| |lia|].
  { eapply core_perm; [eapply core_mono; [exact Hc1|lia]|done|]. by rewrite (cs_objs _ _ _ _ Hco1). }
  rewrite (M_bind_run _ _ _ _ _ E2). eexists _, h2. split; [reflexivity|]. apply system_again in Hsys as [Ha2 Hc2]. set (c' := mkMagCache _ _ _ _ _).
  assert (Hok' : magazine_ok c' l1).
  { split; [|split; [done|]]; cbn [c' mc_s mc_stack_size mc_coalescer]; [rewrite <- El1; by eapply stack_cut|]. eapply coalescer_reset; [exact Hco1|done|rewrite Eu; apply Hco1|done]. }
  destruct (magazine_good c' l1 Hok') as [Hg Hi]. rewrite Hi. split; [cbn; lia|]. split_and!; [done|done|]. rewrite Hi. cbn [c' fc_alloc fc_iter magazine_cache mc_alloc mc_iter]. rewrite Es2, Es1, El1. exact Hc2.
Qed.

Lemma slag_rounds_ok n cs bps own h live i a it : core (n + 1 + 1) cs bps ((sa_slag a, AIter it) :: own) h live → 0 ≤ n → handle_at i a cs bps →
  slag_rounds 2 a it h = Fault UnwrapNone ∨
  ∃ x it' a' h', slag_rounds 2 a it h = Ok ((x, it', a'), h') ∧ system_ok n cs bps i a' ((sa_slag a', AIter it') :: own) h' (x :: live).
Proof.
  intros Hc Hn Ha. cbn [slag_rounds]. destruct (next_or_refresh _ _ _ _ _ Hok n cs bps own h live i a it Hc Hn Ha) as [(x & it' & h' & E1 & Hc')|(it1 & h1 & E1 & Hr)];
    rewrite (M_bind_run _ _ _ _ _ E1); [right; exists x, it', a, h'; split; [done|by apply system_id]|].
  destruct Hr as [E2|(it2 & a' & h2 & x & it3 & h3 & E2 & E3 & Hs')]; [left; by apply M_bind_fault|right]. rewrite (M_bind_run _ _ _ _ _ E2), (M_bind_run _ _ _ _ _ E3). by exists x, it3, a', h3.
Qed.

(** The cache with another stack. *)
Lemma restacked n cs bps i own h live c s l : fc_good c → stack_is s (mc_stack_size c) l → handle_at i (mc_alloc c) cs bps → core (n + Z.of_nat (length l)) cs bps ((sa_slag (mc_alloc c), AIter (mc_iter c)) :: own) h (l ++ live) →
  cache_in md mp decommit n cs bps i own h live (set_stack c s).
Proof.
  intros (_ & Hsz & Hco) Hs Ha Hc. destruct (magazine_good (set_stack c s) l) as [Hg Hi]; [by split; [|split]|]. split_and!; [done|done|]. by rewrite Hi.
Qed.

(** The handles are where they were. *)
Lemma cache_stays {FE} `{!SlagCache FE} n cs bps i own h live (f : FE) : cache_in md mp decommit n cs bps i own h live f → cache_out md mp decommit n cs bps i own h live f.
Proof. intros Hc. pose proof Hc as (_ & (_ & _ & A3 & A4) & _). unfold cache_out. by rewrite !list_insert_id. Qed.

Lemma magazine_alloc_ok n cs bps i own h live (c : MagazineCache CA) : cache_in md mp decommit (n + call_cost) cs bps i own h live c → 0 ≤ n →
  magazine_alloc c h = Fault UnwrapNone ∨ ∃ x c' h', magazine_alloc c h = Ok ((x, c'), h') ∧ cache_out md mp decommit n cs bps i own h' (x :: live) c'.
Proof.
  intros (Hg & Ha & Hc) Hn. pose proof Hg as (Hs & Hsz & Hco). cbn in Ha, Hc. unfold call_cost in *. unfold magazine_alloc. destruct (snoc_cases (items_of (mc_s c))) as [El|(l & x & El)]; rewrite El in *.
  - rewrite (lift_bind _ _ _ _ (stack_pop_nil _ _ Hs)). unfold slag_alloc. cbn [set_stack mc_alloc mc_iter mc_stack_size mc_s mc_coalescer length app] in *.
    destruct (slag_rounds_ok n cs bps own h live i (mc_alloc c) (mc_iter c)) as [E|(x & it' & a' & h' & E & Hsys)]; [eapply core_mono; [exact Hc|lia]|done|done|left; by apply M_bind_fault|right].
    rewrite (M_bind_run _ _ _ _ _ E). eexists x, _, h'. split; [reflexivity|]. set (c' := mkMagCache _ _ _ _ _). destruct (magazine_good c' []) as [Hg' Hi]; [by split; [|split]|].
    destruct Hsys as [Ha' Hc']. split_and!; [done|done|]. rewrite Hi. cbn. by rewrite Z.add_0_r.
  - right. destruct (stack_pop _ _ l x Hs) as (s' & Ep & Hs'). rewrite (lift_bind _ _ _ _ Ep). eexists x, _, h. split; [reflexivity|].
    apply cache_stays. eapply restacked; try done. rewrite length_app in Hc. cbn in Hc. eapply core_perm; [eapply core_mono; [exact Hc|lia]|done|]. by rewrite <- app_assoc.
Qed.

(** There is room on the stack. *)
Lemma magazine_push_ok n cs bps i own h live (c : MagazineCache CA) x : cache_in md mp decommit (n + 1) cs bps i own h (x :: live) c → 0 ≤ n → Z.of_nat (length (fc_items c)) < mc_stack_size c →
  ∃ s, PS.push x (mc_s c) = Ok s ∧ cache_in md mp decommit n cs bps i own h live (set_stack c s).
Proof.
  intros (Hg & Ha & Hc) Hn Hlt. pose proof Hg as (Hs & _). cbn in Ha, Hc, Hlt. destruct (stack_push _ _ _ x Hs Hlt) as (s & Ep & Hs'). exists s. split; [done|].
  eapply restacked; try done. rewrite length_app. cbn [length]. eapply core_perm; [eapply core_mono; [exact Hc|lia]|done|]. by rewrite <- app_assoc.
Qed.

Lemma magazine_free_ok n cs bps i own h live (c : MagazineCache CA) x : cache_in md mp decommit (n + call_cost) cs bps i own h (x :: live) c → 0 ≤ n →
  ∃ c' h', magazine_free c x h = Ok (c', h') ∧ cache_out md mp decommit n cs bps i own h' live c'.
Proof.
  intros Hc Hn. pose proof Hc as (Hg & Ha & Hcore). pose proof Hg as (Hs & Hsz & _). unfold call_cost in *. pose proof (si_top _ _ _ Hs) as Ht. pose proof (stack_room _ _ _ Hs) as Hroom.
  assert (Hc1 : cache_in md mp decommit (n + 1) cs bps i own h (x :: live) c) by (split_and!; [done|done|]; eapply core_mono; [exact Hcore|lia]).
  unfold magazine_free. destruct (Z.ltb_spec (st_top (mc_s c)) (mc_stack_size c)) as [Hlt|Hge].
  - destruct (magazine_push_ok n cs bps i own h live c x Hc1 Hn) as (s & Ep & Hin); [cbn; lia|]. rewrite (lift_bind _ _ _ _ Ep). eexists _, h. split; [reflexivity|]. by apply cache_stays.
  - destruct (return_memory_ok (n + 1) cs bps i own h (x :: live) c Hc1 ltac:(lia) ltac:(lia)) as (c1 & h1 & E1 & Hlt & Hout). rewrite (M_bind_run _ _ _ _ _ E1).
    destruct (magazine_push_ok n _ _ i own h1 live c1 x Hout Hn Hlt) as (s & Ep & Hin). rewrite (lift_bind _ _ _ _ Ep). eexists _, h1. split; [reflexivity|]. exact Hin.
Qed.

(** ** Making and dropping magazine caches *)
Lemma coalescer_new n : 1 ≤ n < 2 ^ 63 → ∃ co, Coalesce.new n = Ok co ∧ coalescer_is co n [] [].
Proof.
  intros Hn. unfold Coalesce.new. destruct (next_power_of_two_Ok n ltac:(lia)) as [p Ep]. rewrite Ep, bind_Ok. destruct (next_power_of_two_spec n p Ep) as (_ & Hp & (k & Hk & Ek) & _).
  eexists. split; [done|]. split; cbn [co_cells co_used]; try done.
  - exists k. split; [done|]. rewrite length_replicate. lia.
  - apply stack_new. lia.
  - constructor.
  - intros u Hu. by apply elem_of_nil in Hu.
  - intros u c _ _ Hc. by apply lookup_replicate in Hc as [-> _].
Qed.

Lemma magazine_new_ok n cs bps i own h live a sz : core (n + 1 + 1) cs bps ((sa_slag a, AFresh) :: own) h live → 0 ≤ n → handle_at i a cs bps → 0 < sz < 2 ^ 62 →
  magazine_new_sized a sz h = Fault UnwrapNone ∨ ∃ c h', magazine_new_sized a sz h = Ok (c, h') ∧ fc_items c = [] ∧ cache_out md mp decommit n cs bps i own h' live c.
Proof.
  intros Hc Hn Ha Hsz. unfold magazine_new_sized. rewrite lift_assert by (apply Z.ltb_lt; lia).
  destruct (slag_refresh_ok _ _ _ _ _ Hok n cs bps own h live i a AFresh Hc Hn Ha) as [E|(it & a' & h' & E & [Ha' Hc'] & _)]; [by left|left; by apply M_bind_fault|right].
  rewrite (M_bind_run _ _ _ _ _ E). destruct (coalescer_new (2 * sz) ltac:(lia)) as (co & Eco & Hco). rewrite (lift_bind _ co) by (rewrite (Z.mul_comm 2) in Eco; by rewrite umul_Ok, bind_Ok by lia).
  eexists _, h'. split; [reflexivity|]. set (c := mkMagCache _ _ _ _ _). destruct (magazine_good c []) as [Hg Hi]; [split; [cbn; apply stack_new; lia|by split]|]. split; [done|].
  split_and!; [done|done|]. rewrite Hi. cbn. by rewrite Z.add_0_r.
Qed.

Lemma magazine_size_spec s : 0 < s → magazine_size s = Ok (if s <=? 512 then 65536 else if s <=? 32768 then 512 else 1).
Proof.
  intros Hs. unfold magazine_size. destruct (Z.leb_spec s 512); [done|]. change (Z.shiftl 32 10) with 32768. destruct (s <=? 32768); rewrite udiv_Ok, bind_Ok, Z.div_small by lia; done.
Qed.

Lemma magazine_clone_ok n cs bps i own h live (f : MagazineCache CA) : core (n + call_cost) cs bps own h live → 0 ≤ n → fc_good f → handle_at i (fc_alloc f) cs bps → length cs = length bps →
  magazine_clone f h = Fault UnwrapNone ∨
  ∃ f' h', magazine_clone f h = Ok (f', h') ∧ fc_items f' = [] ∧ cache_in md mp decommit n (cs ++ [sa_pages (fc_alloc f')]) (bps ++ [sa_available (fc_alloc f')]) (length cs) own h' live f'.
Proof.
  intros Hc Hn (_ & Hsz & _) Ha Hlen. unfold magazine_clone, call_cost in *. destruct (clone_core _ _ _ _ _ Hok (n + 1 + 1) cs bps own h live i (mc_alloc f)) as [E|(a' & h' & E & Ha' & Hc')];
    [eapply core_mono; [exact Hc|lia]|lia|done|done|left; by apply M_bind_fault|].
  rewrite (M_bind_run _ _ _ _ _ E). destruct (magazine_new_ok n _ _ (length cs) own h' live a' (mc_stack_size f) Hc' Hn Ha' Hsz) as [E2|(c & h2 & E2 & Hi & Hout)]; [by left|right].
  exists c, h2. split_and!; [done|done|]. by eapply cache_last.
Qed.

Lemma magazine_init_ok n cs bps i own h live p : core (n + call_cost) cs bps own h live → 0 ≤ n → cp_meta p = mp → cp_decommit p = decommit → cs !! i = Some (cp_pages p) → length cs = length bps →
  magazine_init p h = Fault UnwrapNone ∨
  ∃ f' h', magazine_init p h = Ok (f', h') ∧ fc_items f' = [] ∧ cache_in md mp decommit n (cs ++ [sa_pages (fc_alloc f')]) (bps ++ [sa_available (fc_alloc f')]) (length cs) own h' live f'.
Proof.
  intros Hc Hn Em Ed Hi Hlen. unfold magazine_init, call_cost in *. destruct (params_alloc_ok _ _ _ _ _ Hok (n + 1 + 1) cs bps i own h live p) as [E|(a' & h' & E & Ha' & Hc')];
    [eapply core_mono; [exact Hc|lia]|lia|done|done|done|done|left; by apply M_bind_fault|].
  rewrite (M_bind_run _ _ _ _ _ E). pose proof Ha' as (A1 & _). unfold magazine_new. rewrite A1, (M_bind_run _ _ _ _ _ (core_meta _ _ _ _ _ _ _ _ Hc')).
  rewrite (lift_bind _ _ _ _ (magazine_size_spec _ (object_size_pos _ _ _ _ _ Hok))). set (sz := Z.max 1 _). assert (Hsz : 0 < sz < 2 ^ 62) by (unfold sz; repeat case_match; lia).
  destruct (magazine_new_ok n _ _ (length cs) own h' live a' sz Hc' Hn Ha' Hsz) as [E2|(c & h2 & E2 & Hit & Hout)]; [by left|right].
  exists c, h2. split_and!; [done|done|]. by eapply cache_last.
Qed.

Lemma magazine_drop_ok n cs bps i own h live (f : MagazineCache CA) : cache_in md mp decommit (n + call_cost) cs bps i own h live f → 0 ≤ n →
  ∃ c' bp' h', magazine_drop f h = Ok (tt, h') ∧ core n (<[i := c']> cs) (<[i := bp']> bps) own h' live.
Proof.
  intros ((Hs & _) & Ha & Hc) Hn. unfold call_cost in *. eapply (release_drop_ok _ _ _ _ _ Hok n cs bps own h live i (mc_alloc f) (mc_iter f) (mc_s f)); [|done|done|exact Hs].
  cbn in Hc. eapply core_mono; [exact Hc|lia].
Qed.

#[export] Instance magazine_cache_laws : CacheLaws md mp decommit (MagazineCache CA).
Proof. split; [exact magazine_alloc_ok|exact magazine_free_ok|exact magazine_clone_ok|exact magazine_drop_ok|exact magazine_init_ok]. Qed.
End system.
