(* ===== verification/CacheSystem.v ===== *)
(** * Threads with caches of a size class

    The interface of [Frontend]s (traits of [src/elfmalloc/src/frontends.rs]) as
    laws, for threads that each have one; that the caches of a size class
    (Frontends, MagazineCaches) satisfy it; and what clients rely on: calls in any
    order hand out distinct objects of the slags and panic only when memory is
    exhausted. *)

From Stdlib Require Import ZArith Lia.
From stdpp Require Import base numbers list gmap option.
From S2P Require Import Prelude F64 SlagMeta SlagBits SlagProto SlagSpec Bag BagPipe SlagAlloc Frontends MagazineCaches.

Open Scope Z_scope.

(** ** What frontends promise

    [fe_inv n fes s live]: for [n] more calls by the threads' frontends [fes] (one
    that was dropped is gone), the objects [live] are with the clients.  [tmpl]
    are the parameters new ones are made of, if there are any. *)
Class FrontendLaws (FE Params S : Type) `{!Frontend FE Params S} (tmpl : option Params) := {
  fe_inv : Z → list (option FE) → S → list Z → Prop;
  fe_mono_law n n' fes s live : fe_inv n fes s live → 0 ≤ n' ≤ n → fe_inv n' fes s live;
  fe_perm_law n fes s live live' : fe_inv n fes s live → live ≡ₚ live' → fe_inv n fes s live';
  fe_live_law n fes s live : fe_inv n fes s live → NoDup live ∧ ∀ x, x ∈ live → 0 < x < 2 ^ 63;
  fe_alloc_law n fes s live i f : fe_inv (n + 1) fes s live → fes !! i = Some (Some f) → 0 ≤ n →
    fe_alloc f s = Fault UnwrapNone ∨ ∃ x f' s', fe_alloc f s = Ok ((x, f'), s') ∧ fe_inv n (<[i := Some f']> fes) s' (x :: live);
  fe_free_law n fes s live i f x : fe_inv (n + 1) fes s (x :: live) → fes !! i = Some (Some f) → 0 ≤ n →
    ∃ f' s', fe_free f x s = Ok (f', s') ∧ fe_inv n (<[i := Some f']> fes) s' live;
  fe_clone_law n fes s live i f : fe_inv (n + 1) fes s live → fes !! i = Some (Some f) → 0 ≤ n →
    fe_clone f s = Fault UnwrapNone ∨ ∃ f' s', fe_clone f s = Ok (f', s') ∧ fe_inv n (fes ++ [Some f']) s' live;
  fe_drop_law n fes s live i f : fe_inv (n + 1) fes s live → fes !! i = Some (Some f) → 0 ≤ n →
    ∃ s', fe_drop f s = Ok (tt, s') ∧ fe_inv n (<[i := None]> fes) s' live;
  fe_init_law n fes s live p : tmpl = Some p → fe_inv (n + 1) fes s live → 0 ≤ n →
    fe_init p s = Fault UnwrapNone ∨ ∃ (f' : FE) s', fe_init p s = Ok (f', s') ∧ fe_inv n (fes ++ [Some f']) s' live
}.

(** ** Clients of frontends *)
Section clients.
  Context {FE Params T : Type} `{!Frontend FE Params T}.

(** The frontends of the threads, the objects with the clients, what is shared. *)
Record fconf := mkFConf { fcf_fes : list (option FE); fcf_live : list Z; fcf_shared : T }.

Inductive fcall := FAlloc (i : nat) | FFree (i : nat) (x : Z) | FClone (i : nat) | FDrop (i : nat).

(** A call of a thread whose frontend exists; an object is freed once. *)
Definition exec_front (c : fconf) (x : fcall) : res fconf :=
  let at_front i (k : FE → res fconf) := match fcf_fes c !! i with Some (Some f) => k f | _ => Ok c end in
  match x with
  | FAlloc i => at_front i (fun f => '((x, f'), s) ← fe_alloc f (fcf_shared c); Ok (mkFConf (<[i := Some f']> (fcf_fes c)) (x :: fcf_live c) s))
  | FFree i x => at_front i (fun f =>
      match list_find (x =.) (fcf_live c) with
      | Some (j, _) => '(f', s) ← fe_free f x (fcf_shared c); Ok (mkFConf (<[i := Some f']> (fcf_fes c)) (delete j (fcf_live c)) s)
      | None => Ok c
      end)
  | FClone i => at_front i (fun f => '(f', s) ← fe_clone f (fcf_shared c); Ok (mkFConf (fcf_fes c ++ [Some f']) (fcf_live c) s))
  | FDrop i => at_front i (fun f => '(_, s) ← fe_drop f (fcf_shared c); Ok (mkFConf (<[i := None]> (fcf_fes c)) (fcf_live c) s))
  end.

  Context {tmpl : option Params} `{!FrontendLaws FE Params T tmpl}.

Definition conf_inv (n : Z) (c : fconf) : Prop := fe_inv n (fcf_fes c) (fcf_shared c) (fcf_live c).

Lemma exec_front_ok n c x : conf_inv (n + 1) c → 0 ≤ n → exec_front c x = Fault UnwrapNone ∨ ∃ c', exec_front c x = Ok c' ∧ conf_inv n c'.
Proof.
  intros Hc Hn. assert (Hsame : exec_front c x = Ok c → exec_front c x = Fault UnwrapNone ∨ ∃ c', exec_front c x = Ok c' ∧ conf_inv n c').
  { intros ->. right. exists c. split; [done|]. eapply fe_mono_law; [exact Hc|lia]. }
  destruct x as [i|i x|i|i]; cbn [exec_front] in *; destruct (fcf_fes c !! i) as [[f|]|] eqn:Hi; try (by apply Hsame).
  - destruct (fe_alloc_law n _ _ _ i f Hc Hi Hn) as [E|(y & f' & s' & E & Hinv)]; rewrite E; [by left|right]. by eexists.
  - destruct (list_find (x =.) (fcf_live c)) as [[j y]|] eqn:Ef; [|by apply Hsame]. apply list_find_Some in Ef as (Ej & <- & _).
    destruct (fe_free_law n (fcf_fes c) (fcf_shared c) (delete j (fcf_live c)) i f x) as (f' & s' & E & Hinv); [|done|done|rewrite E; right; by eexists].
    eapply fe_perm_law; [exact Hc|]. by apply delete_Permutation.
  - destruct (fe_clone_law n _ _ _ i f Hc Hi Hn) as [E|(f' & s' & E & Hinv)]; rewrite E; [by left|right]. by eexists.
  - destruct (fe_drop_law n _ _ _ i f Hc Hi Hn) as (s' & E & Hinv). rewrite E. right. by eexists.
Qed.

Lemma exec_fronts_ok xs : ∀ n c, conf_inv (n + Z.of_nat (length xs)) c → 0 ≤ n → rfold exec_front xs c = Fault UnwrapNone ∨ ∃ c', rfold exec_front xs c = Ok c' ∧ conf_inv n c'.
Proof.
  induction xs as [|x xs IH]; intros n c Hc Hn; cbn [rfold length] in *; [right; exists c; by rewrite Z.add_0_r in Hc|].
  replace (n + Z.of_nat (S (length xs))) with (n + Z.of_nat (length xs) + 1) in Hc by lia.
  destruct (exec_front_ok _ c x Hc ltac:(lia)) as [->|(c1 & -> & Hc1)]; [by left|]. by apply IH.
Qed.
End clients.
Arguments fconf FE T : clear implicits.

(** ** The caches of a size class *)
Section caches.
  Context {CA P : Type} `{CoarseLaws CA P} {B : Type} `{BagLaws B Z} `{!RevocableWeakBag B Z} `{!RevocableLaws B Z}.
  Context (md : Metadata) (mp decommit size usable : Z).
  Hypothesis Hok : class_ok md mp decommit size usable.
  Abbreviation Heap := (SlagHeap P B).
  Context {FE : Type} `{!SlagCache FE} `{!Frontend FE (CacheParams CA) Heap} `{!CacheLaws md mp decommit FE} (tmpl : option (CacheParams CA)).
  Abbreviation core := (core md mp).
  Abbreviation handle_at := (handle_at mp decommit).
  Abbreviation cache_in := (cache_in md mp decommit).
  Abbreviation cache_out := (cache_out md mp decommit).
  Implicit Types (h : Heap) (own : list (Z * pc)) (live : list Z) (cs : list CA) (bps : list BagPipe) (fes : list (option FE)) (f : FE).

Definition owns (o : option FE) : list (Z * pc) := from_option (fun f => [(sa_slag (fc_alloc f), AIter (fc_iter f))]) [] o.
Definition holds (o : option FE) : list Z := from_option fc_items [] o.

Definition slot_ok cs bps (i : nat) (o : option FE) : Prop := from_option (fun f => fc_good f ∧ handle_at i (fc_alloc f) cs bps) True o.

(** The parameters are of this class, and hold the first handle on the pages. *)
Definition tmpl_ok cs fes : Prop := ∀ p, tmpl = Some p → cp_meta p = mp ∧ cp_decommit p = decommit ∧ fes !! 0%nat = Some None ∧ cs !! 0%nat = Some (cp_pages p).

Record caches_ok (n : Z) fes h live : Prop := {
  ch_n : 0 ≤ n;
  ch_core : ∃ cs bps, length cs = length fes ∧ length bps = length fes ∧ (tmpl_ok cs fes ∧ ∀ i o, fes !! i = Some o → slot_ok cs bps i o) ∧
    core (call_cost * n + Z.of_nat (length (fes ≫= holds))) cs bps (fes ≫= owns) h ((fes ≫= holds) ++ live)
}.

Lemma bind_slot {A} (g : option FE → list A) fes i f : g None = [] → fes !! i = Some (Some f) → fes ≫= g ≡ₚ g (Some f) ++ (<[i := None]> fes ≫= g).
Proof.
  intros Hg Hi. rewrite <- (take_drop_middle fes i (Some f) Hi) at 1. rewrite insert_take_drop by (by eapply lookup_lt_Some). rewrite !bind_app, !bind_cons, Hg. cbn. rewrite !app_assoc.
  apply Permutation_app_tail, Permutation_app_comm.
Qed.

Lemma tmpl_update cs fes i f c o : tmpl_ok cs fes → fes !! i = Some (Some f) → tmpl_ok (<[i := c]> cs) (<[i := o]> fes).
Proof. intros Ht Hi p Ep. destruct (Ht p Ep) as (T1 & T2 & T3 & T4). assert (i ≠ 0%nat) by (intros ->; by rewrite T3 in Hi). rewrite !list_lookup_insert_ne by done. by split_and!. Qed.

Lemma tmpl_app cs fes cs' fes' : tmpl_ok cs fes → tmpl_ok (cs ++ cs') (fes ++ fes').
Proof. intros Ht p Ep. destruct (Ht p Ep) as (T1 & T2 & T3 & T4). split_and!; [done|done|by apply lookup_app_l_Some|by apply lookup_app_l_Some]. Qed.

Lemma caches_open n fes h live i f : caches_ok n fes h live → fes !! i = Some (Some f) →
  ∃ cs bps, length cs = length fes ∧ length bps = length fes ∧ (tmpl_ok cs fes ∧ ∀ j o, j ≠ i → fes !! j = Some o → slot_ok cs bps j o) ∧
    cache_in (call_cost * n + Z.of_nat (length (<[i := None]> fes ≫= holds))) cs bps i (<[i := None]> fes ≫= owns) h ((<[i := None]> fes ≫= holds) ++ live) f.
Proof.
  intros [Hn (cs & bps & L1 & L2 & [Ht Hs] & Hc)] Hi. exists cs, bps. split_and!; [done|done|done|eauto|]. destruct (Hs i _ Hi) as [Hg Ha]. split_and!; [done|done|].
  pose proof (bind_slot holds fes i f eq_refl Hi) as E1. pose proof (bind_slot owns fes i f eq_refl Hi) as E2. cbn in E1, E2.
  eapply core_perm; [eapply core_mono; [exact Hc|]|by rewrite E2|by rewrite E1, <- app_assoc]. rewrite E1, length_app. unfold call_cost in *. lia.
Qed.

Lemma slot_other cs bps i j c bp o : j ≠ i → slot_ok cs bps j o → slot_ok (<[i := c]> cs) (<[i := bp]> bps) j o.
Proof. intros Hne. destruct o as [g|]; [|done]. intros [Hg (A1 & A2 & A3 & A4)]. split; [done|]. split_and!; [done|done| |]; by rewrite list_lookup_insert_ne by done. Qed.

Lemma caches_close n fes h live i f f' cs bps : 0 ≤ n → fes !! i = Some (Some f) → length cs = length fes → length bps = length fes → (tmpl_ok cs fes ∧ ∀ j o, j ≠ i → fes !! j = Some o → slot_ok cs bps j o) →
  cache_out (call_cost * n + Z.of_nat (length (<[i := None]> fes ≫= holds))) cs bps i (<[i := None]> fes ≫= owns) h ((<[i := None]> fes ≫= holds) ++ live) f' →
  caches_ok n (<[i := Some f']> fes) h live.
Proof.
  intros Hn Hi L1 L2 [Ht Hs] (Hg & Ha & Hc). split; [done|]. eexists _, _. pose proof (lookup_lt_Some _ _ _ Hi) as Hlt. assert (Hi' : <[i := Some f']> fes !! i = Some (Some f')) by (by apply list_lookup_insert_eq).
  split_and!; [| | | |eapply core_perm; [eapply core_mono; [exact Hc|]|..]]; rewrite ?length_insert; try done.
  - by eapply tmpl_update.
  - intros j o. destruct (decide (j = i)) as [->|Hne]; [rewrite Hi'; by intros [= <-]|]. rewrite list_lookup_insert_ne by done. intros Ho. by apply slot_other, Hs.
  - rewrite (bind_slot holds _ i f' eq_refl Hi'), list_insert_insert_eq, length_app. cbn. unfold call_cost. lia.
  - rewrite (bind_slot owns _ i f' eq_refl Hi'), list_insert_insert_eq. done.
  - rewrite (bind_slot holds _ i f' eq_refl Hi'), list_insert_insert_eq. cbn. by rewrite <- app_assoc.
Qed.

Lemma caches_alloc n fes h live i f : caches_ok (n + 1) fes h live → fes !! i = Some (Some f) → 0 ≤ n →
  fe_alloc f h = Fault UnwrapNone ∨ ∃ x f' h', fe_alloc f h = Ok ((x, f'), h') ∧ caches_ok n (<[i := Some f']> fes) h' (x :: live).
Proof.
  intros Hc Hi Hn. destruct (caches_open _ _ _ _ _ _ Hc Hi) as (cs & bps & L1 & L2 & Hs & Hin).
  destruct (cache_alloc_law md mp decommit (call_cost * n + Z.of_nat (length (<[i := None]> fes ≫= holds))) cs bps i (<[i := None]> fes ≫= owns) h ((<[i := None]> fes ≫= holds) ++ live) f)
    as [E|(x & f' & h' & E & Hout)]; [|unfold call_cost; lia|by left|right].
  { replace (call_cost * n + Z.of_nat (length (<[i := None]> fes ≫= holds)) + call_cost) with (call_cost * (n + 1) + Z.of_nat (length (<[i := None]> fes ≫= holds))) by lia. done. }
  exists x, f', h'. split; [done|]. eapply caches_close; try done. destruct Hout as (Hg & Ha & Hcore). split_and!; [done|done|]. eapply core_perm; [exact Hcore|done|]. apply Permutation_app_head. by rewrite Permutation_middle.
Qed.

Lemma caches_free n fes h live i f x : caches_ok (n + 1) fes h (x :: live) → fes !! i = Some (Some f) → 0 ≤ n →
  ∃ f' h', fe_free f x h = Ok (f', h') ∧ caches_ok n (<[i := Some f']> fes) h' live.
Proof.
  intros Hc Hi Hn. destruct (caches_open _ _ _ _ _ _ Hc Hi) as (cs & bps & L1 & L2 & Hs & Hg & Ha & Hcore).
  destruct (cache_free_law md mp decommit (call_cost * n + Z.of_nat (length (<[i := None]> fes ≫= holds))) cs bps i (<[i := None]> fes ≫= owns) h ((<[i := None]> fes ≫= holds) ++ live) f x)
    as (f' & h' & E & Hout); [|unfold call_cost; lia|].
  { split_and!; [done|done|]. eapply core_perm; [eapply core_mono; [exact Hcore|unfold call_cost; lia]|done|]. apply Permutation_app_head. by rewrite Permutation_middle. }
  exists f', h'. split; [done|]. by eapply caches_close.
Qed.

(** A cache joins. *)
Lemma caches_join n fes h' live cs bps f' : 0 ≤ n → length cs = length fes → length bps = length fes → tmpl_ok cs fes → (∀ i o, fes !! i = Some o → slot_ok cs bps i o) → fc_items f' = [] →
  cache_in (call_cost * n + Z.of_nat (length (fes ≫= holds))) (cs ++ [sa_pages (fc_alloc f')]) (bps ++ [sa_available (fc_alloc f')]) (length cs) (fes ≫= owns) h' ((fes ≫= holds) ++ live) f' →
  caches_ok n (fes ++ [Some f']) h' live.
Proof.
  intros Hn L1 L2 Ht Hs Ei (Hg' & Ha' & Hc'). split; [done|]. exists (cs ++ [sa_pages (fc_alloc f')]), (bps ++ [sa_available (fc_alloc f')]). rewrite !length_app, L1, L2. split_and!; [done|done| | |]; rewrite Ei in Hc'; cbn [length app] in Hc'.
  - by apply tmpl_app.
  - intros j o [Hj|[Hj [Hj0 <-]%list_lookup_singleton_Some]]%lookup_app_Some.
    + pose proof (Hs j o Hj) as Ho. destruct o as [g|]; [|done]. destruct Ho as [Hgg (A1 & A2 & A3 & A4)]. split; [done|]. split_and!; [done|done| |]; by apply lookup_app_l_Some.
    + cbn. split; [done|]. replace j with (length cs) by lia. done.
  - rewrite !bind_app, !bind_cons, !app_nil_r. cbn [owns holds from_option]. rewrite Ei, !app_nil_r. rewrite Z.add_0_r in Hc'. eapply core_perm; [exact Hc'| |done]. by rewrite <- Permutation_cons_append.
Qed.

Lemma caches_clone n fes h live i f : caches_ok (n + 1) fes h live → fes !! i = Some (Some f) → 0 ≤ n →
  fe_clone f h = Fault UnwrapNone ∨ ∃ f' h', fe_clone f h = Ok (f', h') ∧ caches_ok n (fes ++ [Some f']) h' live.
Proof.
  intros [_ (cs & bps & L1 & L2 & [Ht Hs] & Hc)] Hi Hn. destruct (Hs i _ Hi) as [Hg Ha].
  destruct (cache_clone_law md mp decommit (call_cost * n + Z.of_nat (length (fes ≫= holds))) cs bps i (fes ≫= owns) h ((fes ≫= holds) ++ live) f)
    as [E|(f' & h' & E & Ei & Hin)]; [eapply core_mono; [exact Hc|]; unfold call_cost; lia|unfold call_cost; lia|done|done|congruence|by left|right].
  exists f', h'. split; [done|]. by eapply caches_join.
Qed.

Lemma caches_init n fes h live p : tmpl = Some p → caches_ok (n + 1) fes h live → 0 ≤ n →
  fe_init p h = Fault UnwrapNone ∨ ∃ (f' : FE) h', fe_init p h = Ok (f', h') ∧ caches_ok n (fes ++ [Some f']) h' live.
Proof.
  intros Ep [_ (cs & bps & L1 & L2 & [Ht Hs] & Hc)] Hn. destruct (Ht p Ep) as (T1 & T2 & T3 & T4).
  destruct (cache_init_law md mp decommit (call_cost * n + Z.of_nat (length (fes ≫= holds))) cs bps 0%nat (fes ≫= owns) h ((fes ≫= holds) ++ live) p)
    as [E|(f' & h' & E & Ei & Hin)]; [eapply core_mono; [exact Hc|]; unfold call_cost; lia|unfold call_cost; lia|done|done|done|congruence|by left|right].
  exists f', h'. split; [done|]. by eapply caches_join.
Qed.

Lemma caches_drop n fes h live i f : caches_ok (n + 1) fes h live → fes !! i = Some (Some f) → 0 ≤ n →
  ∃ h', fe_drop f h = Ok (tt, h') ∧ caches_ok n (<[i := None]> fes) h' live.
Proof.
  intros Hc Hi Hn. destruct (caches_open _ _ _ _ _ _ Hc Hi) as (cs & bps & L1 & L2 & [Ht Hs] & Hg & Ha & Hcore).
  destruct (cache_drop_law md mp decommit (call_cost * n + Z.of_nat (length (<[i := None]> fes ≫= holds))) cs bps i (<[i := None]> fes ≫= owns) h ((<[i := None]> fes ≫= holds) ++ live) f)
    as (c' & bp' & h' & E & Hc'); [|unfold call_cost; lia|].
  { split_and!; [done|done|]. eapply core_mono; [exact Hcore|unfold call_cost; lia]. }
  exists h'. split; [done|]. split; [done|]. exists (<[i := c']> cs), (<[i := bp']> bps). rewrite !length_insert. split_and!; [done|done|by eapply tmpl_update| |exact Hc'].
  intros j o. destruct (decide (j = i)) as [->|Hne]; [rewrite list_lookup_insert_eq by (by eapply lookup_lt_Some); by intros [= <-]|]. rewrite list_lookup_insert_ne by done. intros Ho. by apply slot_other, Hs.
Qed.

Lemma caches_live n fes h live : caches_ok n fes h live → NoDup live ∧ Forall (object_of md) live.
Proof.
  intros [_ (cs & bps & _ & _ & _ & Hc)]. destruct (core_live _ _ _ _ _ Hok _ _ _ _ _ _ Hc) as [Hnd Hall]. apply list.NoDup_app in Hnd as (_ & _ & Hnd). by apply Forall_app in Hall as [_ Hall].
Qed.

Lemma object_range x : object_of md x → 0 < x < 2 ^ 63.
Proof. intros (p & _ & Hp & Hp2 & Hx). pose proof (object_in_page _ _ _ _ _ Hok p x Hx). lia. Qed.

#[export] Instance caches_laws : FrontendLaws FE (CacheParams CA) Heap tmpl.
Proof.
  refine (Build_FrontendLaws _ _ _ _ tmpl caches_ok _ _ _ caches_alloc caches_free caches_clone caches_drop caches_init).
  - intros n n' fes h live [_ (cs & bps & L1 & L2 & Hs & Hc)] Hn. split; [lia|]. exists cs, bps. do 3 (split; [done|]). eapply core_mono; [exact Hc|]. unfold call_cost. lia.
  - intros n fes h live live' [Hn (cs & bps & L1 & L2 & Hs & Hc)] Hp. split; [done|]. exists cs, bps. do 3 (split; [done|]). eapply core_perm; [exact Hc|done|]. by rewrite Hp.
  - intros n fes h live Hc. destruct (caches_live _ _ _ _ Hc) as [Hnd Hall]. split; [done|]. intros x Hx. apply object_range. by eapply list.Forall_forall in Hall.
Defined.

End caches.

(** ** From the first cache *)
Section runs.
  Context {CA P : Type} `{CoarseLaws CA P} {B : Type} `{BagLaws B Z} `{!RevocableWeakBag B Z} `{!RevocableLaws B Z}.
  Context (md : Metadata) (mp decommit size usable : Z).
  Hypothesis Hok : class_ok md mp decommit size usable.
  Abbreviation Heap := (SlagHeap P B).
  Context {FE : Type} `{!SlagCache FE} `{!Frontend FE (CacheParams CA) Heap} `{!CacheLaws md mp decommit FE}.

(** A cache made of an allocator that was just made. *)
Definition makes_cache (mk : SlagAllocator CA → M Heap FE) : Prop := ∀ n cs bps i own h live a,
  core md mp (n + 1 + 1) cs bps ((sa_slag a, AFresh) :: own) h live → 0 ≤ n → handle_at mp decommit i a cs bps →
  mk a h = Fault UnwrapNone ∨ ∃ f h', mk a h = Ok (f, h') ∧ fc_items f = [] ∧ cache_out md mp decommit n cs bps i own h' live f.

(** The first cache of a class, and calls of the threads that clone it. *)
Definition run_caches (mk : SlagAllocator CA → M Heap FE) (max_objects object_size index : Z) (cutoff : f64) (pa : CA) (pg : P) (xs : list fcall) : res (fconf FE Heap) :=
  '(a, h) ← SA.new mp max_objects object_size index cutoff decommit pa pg;
  '(f, h) ← mk a h;
  rfold exec_front xs (mkFConf [Some f] [] h).

Definition apart (sz : Z) (l : list Z) : Prop := ∀ x y, x ∈ l → y ∈ l → x ≠ y → x + sz ≤ y ∨ y + sz ≤ x.

Lemma run_caches_ok mk max_objects obj_size index cutoff pa pg xs : makes_cache mk → ca_inv (call_cost * Z.of_nat (length xs) + 3) [pa] pg [] → Z.of_nat (length xs) < 2 ^ 27 →
  Meta.compute_metadata obj_size (ca_page_size pa) index cutoff max_objects SmallSlag = Ok md → (∀ p s, page_slag pg p = Some s → slag_meta s ≠ mp) →
  run_caches mk max_objects obj_size index cutoff pa pg xs = Fault UnwrapNone ∨
  ∃ c, run_caches mk max_objects obj_size index cutoff pa pg xs = Ok c ∧ NoDup (fcf_live c) ∧ Forall (object_of md) (fcf_live c) ∧ apart (object_size md) (fcf_live c).
Proof.
  intros Hmk Hci Hlen Em Hno. unfold run_caches. set (N := call_cost * Z.of_nat (length xs)) in *. unfold call_cost in N.
  destruct (new_core _ _ _ _ _ Hok (N + 1 + 1) pa pg obj_size index cutoff max_objects) as [E|(a & h & E & Ha & Hc)]; [eapply ca_mono_law; [exact Hci|lia]|lia|done|done|left; by rewrite E|].
  rewrite E, bind_Ok. destruct (Hmk N [sa_pages a] [sa_available a] 0%nat [] h [] a Hc ltac:(lia) Ha) as [E2|(f & h2 & E2 & Ei & Hg & Ha2 & Hc2)]; [left; by rewrite E2|]. rewrite E2, bind_Ok.
  pose (laws := caches_laws md mp decommit size usable Hok (FE := FE) None). assert (Hinv : conf_inv (0 + Z.of_nat (length xs)) (mkFConf [Some f] [] h2)).
  { split; [lia|]. exists [sa_pages (fc_alloc f)], [sa_available (fc_alloc f)]. rewrite Ei in Hc2. split_and!; [done|done|done| |].
    - intros i o Hi. apply list_lookup_singleton_Some in Hi as [-> <-]. done.
    - cbn [fcf_fes]. rewrite !bind_cons. cbn [holds owns from_option mbind list_bind app]. rewrite Ei. cbn [fcf_shared fcf_live app length] in *. eapply core_mono; [exact Hc2|]. unfold N, call_cost. lia. }
  destruct (exec_fronts_ok xs 0 _ Hinv ltac:(lia)) as [E3|(c & E3 & Hc3)]; [by left|right]. exists c. split; [done|]. destruct (caches_live _ _ _ _ _ Hok _ _ _ _ _ Hc3) as [Hnd Hall]. split_and!; [done|done|].
  intros x y Hx Hy Hne. rewrite list.Forall_forall in Hall. eapply objects_apart; [exact Hok| | |done]; by apply Hall.
Qed.
End runs.

(** ** The caches of the repository *)
Section frontends.
  Context {CA P : Type} `{CoarseLaws CA P} {B : Type} `{BagLaws B Z} `{!RevocableWeakBag B Z} `{!RevocableLaws B Z}.
  Context (md : Metadata) (mp decommit size usable : Z).

Lemma local_makes : class_ok (B := B) md mp decommit size usable → makes_cache (H0 := H0) md mp decommit (SlagCache0 := local_cache md) local_new.
Proof. intros Hok n cs bps i own h live a. by eapply local_new_ok. Qed.

(** Local caches are a safe allocator.  Threads that share a size class through
    clones of a [LocalCache], over any page allocator and revocable bag that keep
    their promises, allocate, free (objects they hold, from any thread), clone and
    drop in any order, fewer than 2^27 calls in all.  No call panics or accesses
    memory it should not, unless a page or a mapping is not to be had; the
    objects with the clients are distinct objects of slags and do not overlap; in
    particular the stack of a cache never overflows, and a refreshed iterator is
    never empty when calls do not overlap. *)
Theorem local_cache_safe (obj_size index max_objects : Z) (cutoff : f64) (pa : CA) (pg : P) (xs : list fcall) :
  class_ok (B := B) md mp decommit size usable → Meta.compute_metadata obj_size (ca_page_size pa) index cutoff max_objects SmallSlag = Ok md →
  ca_inv (call_cost * Z.of_nat (length xs) + 3) [pa] pg [] → (∀ p s, page_slag pg p = Some s → slag_meta s ≠ mp) → Z.of_nat (length xs) < 2 ^ 27 →
  run_caches (B := B) mp decommit local_new max_objects obj_size index cutoff pa pg xs = Fault UnwrapNone ∨
  ∃ c, run_caches (B := B) mp decommit local_new max_objects obj_size index cutoff pa pg xs = Ok c ∧
    NoDup (fcf_live c) ∧ Forall (object_of md) (fcf_live c) ∧ apart (object_size md) (fcf_live c).
Proof.
  intros Hok Em Hci Hno Hlen. pose proof (local_cache_laws md mp decommit size usable Hok). apply (run_caches_ok md mp decommit size usable Hok (SlagCache0 := local_cache md)); try done. by apply local_makes.
Qed.

Lemma magazine_makes : class_ok (B := B) md mp decommit size usable → makes_cache (H0 := H0) md mp decommit (SlagCache0 := magazine_cache md) magazine_new.
Proof.
  intros Hok n cs bps i own h live a Hc Hn Ha. pose proof Ha as (A1 & _). unfold magazine_new. rewrite A1, (M_bind_run _ _ _ _ _ (core_meta _ _ _ _ _ _ _ _ Hc)).
  rewrite (lift_bind _ _ _ _ (magazine_size_spec _ (object_size_pos _ _ _ _ _ Hok))). set (sz := Z.max 1 _). assert (Hsz : 0 < sz < 2 ^ 62) by (unfold sz; repeat case_match; lia).
  exact (magazine_new_ok md mp decommit size usable Hok n cs bps i own h live a sz Hc Hn Ha Hsz).
Qed.

(** Magazine caches are a safe allocator, in the same sense; objects returned
    through the coalescer, a word of a slag's bit-set at a time, are returned
    once each. *)
Theorem magazine_cache_safe (obj_size index max_objects : Z) (cutoff : f64) (pa : CA) (pg : P) (xs : list fcall) :
  class_ok (B := B) md mp decommit size usable → Meta.compute_metadata obj_size (ca_page_size pa) index cutoff max_objects SmallSlag = Ok md →
  ca_inv (call_cost * Z.of_nat (length xs) + 3) [pa] pg [] → (∀ p s, page_slag pg p = Some s → slag_meta s ≠ mp) → Z.of_nat (length xs) < 2 ^ 27 →
  run_caches (B := B) mp decommit magazine_new max_objects obj_size index cutoff pa pg xs = Fault UnwrapNone ∨
  ∃ c, run_caches (B := B) mp decommit magazine_new max_objects obj_size index cutoff pa pg xs = Ok c ∧
    NoDup (fcf_live c) ∧ Forall (object_of md) (fcf_live c) ∧ apart (object_size md) (fcf_live c).
Proof.
  intros Hok Em Hci Hno Hlen. pose proof (magazine_cache_laws md mp decommit size usable Hok). apply (run_caches_ok md mp decommit size usable Hok (SlagCache0 := magazine_cache md)); try done. by apply magazine_makes.
Qed.
End frontends.
