(* ===== verification/PageAlloc.v ===== *)
(** * The page allocators of elfmalloc

    Models [PageAlloc] of [src/elfmalloc/src/slag.rs] over the memory source
    [MmapSource]: a cache of pages in two bags, of pages that may be dirty and of
    clean ones, in front of the source.  The bags are bags of pipes (BagPipe)
    over any lawful bag; each thread has a clone of the allocator, and calls do
    not overlap. *)

From Stdlib Require Import ZArith Lia.
From stdpp Require Import base numbers list gmap option.
From S2P Require Import Prelude StdAlloc Backing MmapAlloc ElfSources F64 SlagMeta SlagBits SizeClasses ClassMeta ElfGeneral Bag FaaQueue BagPipe.

Open Scope Z_scope.

(** A thread's clone: the configuration and the handles on the bags. *)
Record Pages := mkPages { pg_cfg : PageAlloc; pg_clean : BagPipe; pg_dirty : BagPipe }.

(** What the clones share: memory and the bags. *)
Record PShared (K B : Type) := mkShared { ps_heap : EHeap K; ps_clean : BagPipeState B; ps_dirty : BagPipeState B }.
Arguments mkShared {K B} ps_heap ps_clean ps_dirty.
Arguments ps_heap {K B} p.
Arguments ps_clean {K B} p.
Arguments ps_dirty {K B} p.

Section ops.
  Context {K : Type} `{!Kernel K} {B : Type} `{!SharedWeakBag B Z}.

Definition state : Type := Pages * PShared K B.

(** Pages whose bytes are zero: the type read at the start of such a page is the
    first of [AllocType], and its metadata pointer is null. *)
Definition zero_headers (l : list Z) (h : EHeap K) : EHeap K :=
  mkHeap (eh_k h) (foldr (fun p => <[p := Stamp SmallSlag]>) (eh_hdr h) l) (foldr delete (eh_slag h) l) (eh_meta h).

Definition write_stamp (p : Z) (t : AllocType) (h : EHeap K) : EHeap K := mkHeap (eh_k h) (<[p := Stamp t]> (eh_hdr h)) (eh_slag h) (eh_meta h).

(** The pages a region from the source is cut into. *)
Definition region_pages (base page_size npages : Z) : list Z := (fun i => base + page_size * i) <$> zrange 0 npages.

Definition new_aligned (page_size target_overhead pipe_size align : Z) (t : AllocType) (h : EHeap K) : res state :=
  cfg ← PA.new_aligned page_size target_overhead pipe_size align t;
  '(clean, cs) ← new_size 2;
  '(dirty, ds) ← new_size pipe_size;
  Ok (mkPages cfg clean dirty, mkShared h cs ds).

(** [Clone]: the derived one, field by field. *)
Definition clone_pages (s : state) : res (Pages * PShared K B) :=
  '(c, cs) ← clone (ps_clean s.2);
  '(d, ds) ← clone (ps_dirty s.2);
  Ok (mkPages (pg_cfg s.1) c d, mkShared (ps_heap s.2) cs ds).

Definition refresh_pages (fuel : nat) (s : state) : res (Z * state) :=
  let '(a, sh) := s in
  let cfg := pg_cfg a in
  let npages := Z.max (pa_pages_per cfg) 2 in
  '(r, k) ← MSrc.carve (pa_aligned_source cfg) (if pa_pages_per cfg =? 1 then 2 else 1) (eh_k (ps_heap sh));
  pages ← unwrap r;
  let page_size := PA.page_size cfg in
  let h := mkHeap k (eh_hdr (ps_heap sh)) (eh_slag (ps_heap sh)) (eh_meta (ps_heap sh)) in
  let h := write_stamp pages (pa_ty cfg) (zero_headers (region_pages pages page_size npages) h) in
  let iter := (fun i => pages + page_size * i) <$> zrange 1 npages in
  '(c, cs) ← bulk_add fuel iter (pg_clean a, ps_clean sh);
  Ok (pages, (mkPages cfg c (pg_dirty a), mkShared h cs (ps_dirty sh))).

Definition alloc (fuel : nat) (s : state) : res (Z * state) :=
  let '(a, sh) := s in
  '(r, (d, ds)) ← try_pop_mut (pg_dirty a, ps_dirty sh);
  let a := mkPages (pg_cfg a) (pg_clean a) d in
  let sh := mkShared (ps_heap sh) (ps_clean sh) ds in
  match r with
  | inl ptr => Ok (ptr, (a, sh))
  | inr _ =>
      '(r, (c, cs)) ← try_pop_mut (pg_clean a, ps_clean sh);
      let a := mkPages (pg_cfg a) c (pg_dirty a) in
      let sh := mkShared (ps_heap sh) cs (ps_dirty sh) in
      match r with
      | inl ptr => Ok (ptr, (a, sh))
      | inr _ => refresh_pages fuel (a, sh)
      end
  end.

Definition push_clean (fuel : nat) (ptr : Z) (s : state) : res state :=
  let '(a, sh) := s in
  '(c, cs) ← push_mut fuel ptr (pg_clean a, ps_clean sh);
  Ok (mkPages (pg_cfg a) c (pg_dirty a), mkShared (ps_heap sh) cs (ps_dirty sh)).

Definition push_dirty (fuel : nat) (ptr : Z) (s : state) : res state :=
  let '(a, sh) := s in
  '(d, ds) ← push_mut fuel ptr (pg_dirty a, ps_dirty sh);
  Ok (mkPages (pg_cfg a) (pg_clean a) d, mkShared (ps_heap sh) (ps_clean sh) ds).

(** [mmap::uncommit], which zeroes memory. *)
Definition uncommit (ptr n : Z) (s : state) : res state :=
  let '(a, sh) := s in
  '(_, k) ← EMap.uncommit ptr n (eh_k (ps_heap sh));
  Ok (a, mkShared (mkHeap k (eh_hdr (ps_heap sh)) (eh_slag (ps_heap sh)) (eh_meta (ps_heap sh))) (ps_clean sh) (ps_dirty sh)).
Definition zero_page (ptr : Z) (s : state) : state := (s.1, mkShared (zero_headers [ptr] (ps_heap s.2)) (ps_clean s.2) (ps_dirty s.2)).

Definition free (fuel : nat) (ptr : Z) (decommit : bool) (s : state) : res state :=
  let '(a, sh) := s in
  let cfg := pg_cfg a in
  let minor_page_size := EMap.page_size in
  g ← size_guess (ps_dirty sh);
  if iwrap (pa_target_overhead cfg) <=? g then
    s ← uncommit ptr (PA.page_size cfg) s;
    push_clean fuel ptr (zero_page ptr s)
  else if decommit then
    let uncommit_len := Z.max 0 (PA.page_size cfg - minor_page_size) in
    if uncommit_len =? 0 then push_dirty fuel ptr s
    else
      s ← uncommit (ptr + minor_page_size) uncommit_len s;
      push_dirty fuel ptr s
  else push_dirty fuel ptr s.
End ops.

(** ** The bags under a page allocator *)
Section pools.
  Context {B : Type} `{BagLaws B Z}.

(** A bag whose handles are [hs], with room for [n] more failures each, [m]
    clones and [V] items that went through it. *)
Definition pool (n m V : Z) (st : BagPipeState B) (hs : list BagPipe) : Prop :=
  ∃ s : sys B Z, sys_ok n m s ∧ shared s = st ∧ handles s = Some <$> hs ∧ Z.of_nat (length (ins s)) + Z.of_nat (length (outs s)) ≤ V.

Lemma pool_mono n m V n' V' st hs : pool n m V st hs → n' ≤ n → V ≤ V' → pool n' m V' st hs.
Proof. intros (s & H1 & H2 & H3 & H4) Hn HV. exists s. split_and!; [by eapply sys_mono|done|done|lia]. Qed.

Lemma pool_handle n m V st hs i bp : pool n m V st hs → hs !! i = Some bp → good n (bp, st).
Proof. intros (s & Hs & <- & Hh & _) Hi. split; cbn; [|apply Hs]. eapply (sys_room _ _ _ Hs i). by rewrite Hh, list_lookup_fmap, Hi. Qed.

Lemma pool_update n n' m V st hs i bp x l l' : pool n m V st hs → hs !! i = Some bp → good n' x → n' ≤ n → kept (bp, st) x →
  l ++ contents st ≡ₚ l' ++ contents x.2 → balance (Z.of_nat (length l) - Z.of_nat (length l')) (bp, st) x →
  pool n' m (V + Z.of_nat (length l) + Z.of_nat (length l')) x.2 (<[i := x.1]> hs).
Proof.
  intros (s & Hs & <- & Hh & HV) Hi Hg Hn Hk Hc Hb. exists (update s i x l l'). split_and!; [|done|cbn; by rewrite Hh, list_fmap_insert|cbn; rewrite !length_app; lia].
  eapply update_ok; try done. by rewrite Hh, list_lookup_fmap, Hi.
Qed.

Lemma pool_pop n m V st hs i bp : pool (n + 1) m V st hs → hs !! i = Some bp → 0 ≤ n →
  ∃ r bp' st', try_pop_mut (bp, st) = Ok (r, (bp', st')) ∧ pool n m (V + 1) st' (<[i := bp']> hs) ∧ len st' = len st ∧
    contents st ≡ₚ match r with inl p => [p] | inr _ => [] end ++ contents st'.
Proof.
  intros Hp Hi Hn. destruct (try_pop_mut_ok n (bp, st) (pool_handle _ _ _ _ _ _ _ Hp Hi) Hn) as (r & [bp' st'] & E & Hg & Hk & _ & Hr). exists r, bp', st'.
  assert (Hx : contents st ≡ₚ match r with inl p => [p] | inr _ => [] end ++ contents st' ∧ balance (0 - Z.of_nat (length (match r with inl p => [p] | inr _ => [] end))) (bp, st) (bp', st')).
  { destruct r as [p|[]]; cbn in *; [naive_solver| |]; [destruct Hr as (-> & -> & Hr); done|]. destruct Hr as (Hc & Hb & _). split; [by symmetry|done]. }
  destruct Hx as [Hc Hb]. split_and!; [done| |apply Hk|done].
  pose proof (pool_update (n + 1) n m V st hs i bp (bp', st') [] _ Hp Hi Hg ltac:(lia) Hk Hc Hb) as Hnew. eapply pool_mono; [exact Hnew|lia|]. destruct r; cbn; lia.
Qed.

Lemma pool_push n m V fuel st hs i bp p : pool (n + 2) m V st hs → hs !! i = Some bp → 0 ≤ n → bag_item p → (push_fuel st ≤ fuel)%nat →
  ∃ bp' st', push_mut fuel p (bp, st) = Ok (bp', st') ∧ pool n m (V + 1) st' (<[i := bp']> hs) ∧ len st' = len st ∧ contents st' ≡ₚ p :: contents st.
Proof.
  intros Hp Hi Hn Hit Hf. destruct (push_mut_ok n fuel p (bp, st) (pool_handle _ _ _ _ _ _ _ Hp Hi) Hn Hit Hf) as ([bp' st'] & E & Hg & Hk & Hc & Hb). exists bp', st'.
  split_and!; [done| |apply Hk|done]. assert (Hc' : [p] ++ contents st ≡ₚ [] ++ contents st') by (cbn in *; by rewrite Hc).
  pose proof (pool_update (n + 2) n m V st hs i bp (bp', st') [p] [] Hp Hi Hg ltac:(lia) Hk Hc' Hb) as Hnew. eapply pool_mono; [exact Hnew|lia|cbn; lia].
Qed.

Lemma pool_bulk n m V fuel st hs i bp l : pool n m V st hs → hs !! i = Some bp → Forall bag_item l → Z.of_nat (length l) < 2 ^ 62 → (push_fuel st ≤ fuel)%nat →
  ∃ bp' st', bulk_add fuel l (bp, st) = Ok (bp', st') ∧ pool n m (V + Z.of_nat (length l)) st' (<[i := bp']> hs) ∧ len st' = len st ∧ contents st' ≡ₚ l ++ contents st.
Proof.
  intros Hp Hi Hl Hlen Hf. destruct (bulk_add_ok n fuel l (bp, st) (pool_handle _ _ _ _ _ _ _ Hp Hi) Hl Hlen Hf) as ([bp' st'] & E & Hg & Hk & Hc & Hb). exists bp', st'.
  split_and!; [done| |apply Hk|done]. assert (Hc' : l ++ contents st ≡ₚ [] ++ contents st') by (cbn in *; by rewrite Hc).
  assert (Hb' : balance (Z.of_nat (length l) - Z.of_nat (@length Z [])) (bp, st) (bp', st')) by (cbn; by rewrite Z.sub_0_r).
  pose proof (pool_update n n m V st hs i bp (bp', st') l [] Hp Hi Hg ltac:(lia) Hk Hc' Hb') as Hnew. eapply pool_mono; [exact Hnew|lia|cbn; lia].
Qed.

Lemma pool_clone n m V st hs i bp : pool (n + 2) m V st hs → hs !! i = Some bp → 0 ≤ n < 2 ^ 61 → 1 ≤ m → (2 * m + 3) * (n + 1) < 2 ^ 63 →
  ∃ bp' st', clone st = Ok (bp', st') ∧ pool n (m + 1) V st' (hs ++ [bp']) ∧ len st' = len st ∧ contents st' = contents st.
Proof.
  intros (s & Hs & <- & Hh & HV) Hi Hn Hm Hb. destruct (clone_ok n (shared s) (sys_st _ _ _ Hs)) as (bp' & st' & E & Hr & Hd & Hst & Hp & Hc & Href);
    [lia|rewrite (sys_refs _ _ _ Hs); lia|rewrite (sys_refs _ _ _ Hs); lia|].
  destruct (exec_call_ok n m s (Clone i) Hs Hn Hm Hb I) as (s' & m' & E' & _ & Hs'). unfold exec in E'. cbn [call_handle] in E'. rewrite Hh, list_lookup_fmap, Hi in E'. cbn in E'.
  rewrite E in E'. cbn in E'. injection E' as <-. destruct (pipes_contents _ _ Hp) as (Ec & El & _). exists bp', st'. split_and!; [done| |done|done].
  exists (mkSys st' (handles s ++ [Some bp']) (ins s) (outs s)). split_and!; [|done|cbn; by rewrite Hh, fmap_app|exact HV].
  pose proof (sys_refs _ _ _ Hs') as Hm'. cbn in Hm'. rewrite Href, (sys_refs _ _ _ Hs) in Hm'. by rewrite Hm'.
Qed.

Lemma pool_guess n m V st hs : pool n m V st hs → V < 2 ^ 63 → ∃ g, size_guess st = Ok g.
Proof.
  intros (s & Hs & <- & _ & HV) Hb. destruct (sys_count _ _ _ Hs) as (z & _ & Ha). unfold size_guess.
  assert (Hpos : 0 ≤ adiffs s) by (unfold adiffs; induction (handles s); cbn; lia). rewrite rfold_iadd by (unfold cabs in Ha; cbn [Z.abs]; lia). eauto.
Qed.

Lemma pool_new size n : 1 ≤ size ≤ 2 ^ 63 → 0 ≤ n < 2 ^ 61 → ∃ bp st, new_size size = Ok (bp, st) ∧ pool n 1 0 st [bp] ∧ contents st = [].
Proof.
  intros Hsz Hn. destruct (sys_new size n Hsz Hn) as (bp & st & E & Hs & Hnil). exists bp, st. split_and!; [done| |done]. by exists (mkSys st [Some bp] [] []).
Qed.
End pools.

(** ** Threads that share a page allocator *)

(** The clones, what they share, and the pages handed out. *)
Record pconf (K B : Type) := mkConf { pc_hs : list Pages; pc_sh : PShared K B; pc_live : list Z }.
Arguments mkConf {K B} pc_hs pc_sh pc_live.
Arguments pc_hs {K B} p.
Arguments pc_sh {K B} p.
Arguments pc_live {K B} p.

Inductive pcall := PAlloc (i : nat) | PFree (i : nat) (p : Z) (decommit : bool) | PClone (i : nat).

Fixpoint remove_one (p : Z) (l : list Z) : list Z := match l with [] => [] | x :: l' => if x =? p then l' else x :: remove_one p l' end.

Section system.
  Context {K : Type} `{!Kernel K} {B : Type} `{BagLaws B Z}.
  Context (cfg : PageAlloc) (e f : Z).
  Hypothesis Hitem : ∀ p, 0 < p < 2 ^ 63 → bag_item p.
  Hypothesis Hcfg : pa_creek cfg = mkMmapSource (2 ^ e) ∧ pa_aligned_source cfg = mkMmapSource (2 ^ f) ∧ pa_pages_per cfg = 2 ^ (f - e) ∧ 0 ≤ e ≤ f ∧ f ≤ 30.
  Hypothesis Hpage : k_page ≤ 2 ^ e.

Definition fuel_of (sh : PShared K B) : nat := Nat.max (push_fuel (ps_clean sh)) (push_fuel (ps_dirty sh)).

(** A call by a thread; only pages handed out are freed. *)
Definition exec_page (c : pconf K B) (x : pcall) : res (pconf K B) :=
  match x with
  | PAlloc i =>
      match pc_hs c !! i with
      | Some a => '(p, (a', sh')) ← alloc (fuel_of (pc_sh c)) (a, pc_sh c); Ok (mkConf (<[i := a']> (pc_hs c)) sh' (p :: pc_live c))
      | None => Ok c
      end
  | PFree i p d =>
      match pc_hs c !! i with
      | Some a =>
          if bool_decide (p ∈ pc_live c) then
            '(a', sh') ← free (fuel_of (pc_sh c)) p d (a, pc_sh c); Ok (mkConf (<[i := a']> (pc_hs c)) sh' (remove_one p (pc_live c)))
          else Ok c
      | None => Ok c
      end
  | PClone i =>
      match pc_hs c !! i with
      | Some a => '(a', sh') ← clone_pages (a, pc_sh c); Ok (mkConf (pc_hs c ++ [a']) sh' (pc_live c))
      | None => Ok c
      end
  end.

(** A page: aligned to its size and mapped. *)
Definition page_ok (k : K) (p : Z) : Prop := 0 < p ∧ p + 2 ^ e ≤ 2 ^ 63 ∧ (2 ^ e | p) ∧ pages_of k_page p (2 ^ e) ⊆ k_mapped k.

(** The start of the region a page was cut from. *)
Definition region_of (p : Z) : Z := p - p mod 2 ^ f.

(** With pages [held] outside the bags. *)
Record pinv (n m V : Z) (hs : list Pages) (sh : PShared K B) (held : list Z) : Prop := {
  pi_cfg a : a ∈ hs → pg_cfg a = cfg;
  pi_clean : pool n m V (ps_clean sh) (pg_clean <$> hs);
  pi_dirty : pool n m V (ps_dirty sh) (pg_dirty <$> hs);
  pi_k : k_ok (eh_k (ps_heap sh));
  pi_nodup : NoDup (held ++ contents (ps_clean sh) ++ contents (ps_dirty sh));
  pi_pages p : p ∈ held ++ contents (ps_clean sh) ++ contents (ps_dirty sh) → page_ok (eh_k (ps_heap sh)) p;
  pi_typed p : pa_ty cfg = SmallSlag → p ∈ held ++ contents (ps_clean sh) ++ contents (ps_dirty sh) → eh_hdr (ps_heap sh) !! region_of p = Some (Stamp SmallSlag)
}.

Lemma pow_pos : 0 < 2 ^ e ∧ (2 ^ e | 2 ^ f) ∧ 0 < 2 ^ f ≤ 2 ^ 30 ∧ 2 ^ e ≤ 2 ^ f ∧ (k_page | 2 ^ e).
Proof.
  destruct Hcfg as (_ & _ & _ & He & Hf). destruct k_page_pow2 as (s & Hs & Es). split_and!; [apply pow2_pos; lia|apply pow2_divide; lia|apply pow2_pos; lia|apply Z.pow_le_mono_r; lia|apply Z.pow_le_mono_r; lia|].
  rewrite Es in *. apply pow2_divide. split; [lia|]. apply (Z.pow_le_mono_r_iff 2); lia.
Qed.

(** The metadata pointers of slags in the pages [held] stay; elsewhere they may
    become null. *)
Definition slags_kept (held : list Z) (sh sh' : PShared K B) : Prop :=
  (∀ r, r ∈ held → eh_slag (ps_heap sh') !! r = eh_slag (ps_heap sh) !! r) ∧ ∀ r, eh_slag (ps_heap sh') !! r = eh_slag (ps_heap sh) !! r ∨ eh_slag (ps_heap sh') !! r = None.

Lemma slags_same held sh sh' : eh_slag (ps_heap sh') = eh_slag (ps_heap sh) → slags_kept held sh sh'.
Proof. intros E. split; intros r; rewrite E; auto. Qed.

Lemma zero_slags l (m : gmap Z Z) r : foldr delete m l !! r = if decide (r ∈ l) then None else m !! r.
Proof.
  induction l as [|p l IH]; cbn; [by rewrite decide_False by apply not_elem_of_nil|]. destruct (decide (r = p)) as [->|Hne]; [rewrite lookup_delete_eq, decide_True; [done|left]|].
  rewrite lookup_delete_ne, IH by done. destruct (decide (r ∈ l)) as [Hr|Hr]; [rewrite decide_True; [done|by right]|rewrite decide_False; [done|by rewrite not_elem_of_cons]].
Qed.

Lemma pinv_mono n m V n' V' hs sh held : pinv n m V hs sh held → n' ≤ n → V ≤ V' → pinv n' m V' hs sh held.
Proof. intros [] Hn HV. split; try done; by eapply pool_mono. Qed.

(** Pages move between the bags and the caller: the rest of the invariant. *)
Lemma pinv_move n m V n' V' hs sh held hs' sh' held' : pinv n m V hs sh held →
  (∀ a, a ∈ hs' → pg_cfg a = cfg) → pool n' m V' (ps_clean sh') (pg_clean <$> hs') → pool n' m V' (ps_dirty sh') (pg_dirty <$> hs') → ps_heap sh' = ps_heap sh →
  held' ++ contents (ps_clean sh') ++ contents (ps_dirty sh') ≡ₚ held ++ contents (ps_clean sh) ++ contents (ps_dirty sh) → pinv n' m V' hs' sh' held'.
Proof.
  intros [] Ha Hc Hd Hh Hp. split; rewrite ?Hh; try done; [by rewrite Hp|..]; intros p; rewrite Hp; auto.
Qed.

Lemma handles_cfg (hs : list Pages) (i : nat) a a' : (∀ a, a ∈ hs → pg_cfg a = cfg) → hs !! i = Some a → pg_cfg a' = pg_cfg a → ∀ x, x ∈ <[i := a']> hs → pg_cfg x = cfg.
Proof. intros Ha Hi E x [->|Hx]%elem_of_insert_inv; [rewrite E; apply Ha; by eapply list_elem_of_lookup_2|by apply Ha]. Qed.

Lemma fmap_same {A} (g : Pages → A) (hs : list Pages) (i : nat) a a' : hs !! i = Some a → g a' = g a → g <$> <[i := a']> hs = g <$> hs.
Proof. intros Hi E. rewrite list_fmap_insert, E. apply list_insert_id. by rewrite list_lookup_fmap, Hi. Qed.

(** What a pop hands out. *)
Definition got (r : PopResult Z) : list Z := match r with inl p => [p] | inr _ => [] end.

Lemma pop_dirty_ok n m V hs sh held i a : pinv (n + 1) m V hs sh held → hs !! i = Some a → 0 ≤ n →
  ∃ r d ds, try_pop_mut (pg_dirty a, ps_dirty sh) = Ok (r, (d, ds)) ∧ len ds = len (ps_dirty sh) ∧
    pinv n m (V + 1) (<[i := mkPages (pg_cfg a) (pg_clean a) d]> hs) (mkShared (ps_heap sh) (ps_clean sh) ds) (got r ++ held).
Proof.
  intros Hinv Hi Hn. destruct (pool_pop n m V (ps_dirty sh) (pg_dirty <$> hs) i (pg_dirty a)) as (r & d & ds & E & Hp & Hl & Hc); [apply Hinv|by rewrite list_lookup_fmap, Hi|done|].
  exists r, d, ds. split_and!; [done|done|]. eapply pinv_move; [exact Hinv|eapply handles_cfg; [apply Hinv|done|done]| | |done|].
  - cbn [ps_clean]. rewrite (fmap_same pg_clean hs i a) by done. eapply pool_mono; [apply Hinv|lia|lia].
  - cbn [ps_dirty]. by rewrite list_fmap_insert.
  - cbn [ps_clean ps_dirty]. rewrite Hc. unfold got. solve_Permutation.
Qed.

Lemma pop_clean_ok n m V hs sh held i a : pinv (n + 1) m V hs sh held → hs !! i = Some a → 0 ≤ n →
  ∃ r c cs, try_pop_mut (pg_clean a, ps_clean sh) = Ok (r, (c, cs)) ∧ len cs = len (ps_clean sh) ∧
    pinv n m (V + 1) (<[i := mkPages (pg_cfg a) c (pg_dirty a)]> hs) (mkShared (ps_heap sh) cs (ps_dirty sh)) (got r ++ held).
Proof.
  intros Hinv Hi Hn. destruct (pool_pop n m V (ps_clean sh) (pg_clean <$> hs) i (pg_clean a)) as (r & c & cs & E & Hp & Hl & Hc); [apply Hinv|by rewrite list_lookup_fmap, Hi|done|].
  exists r, c, cs. split_and!; [done|done|]. eapply pinv_move; [exact Hinv|eapply handles_cfg; [apply Hinv|done|done]| | |done|].
  - cbn [ps_clean]. by rewrite list_fmap_insert.
  - cbn [ps_dirty]. rewrite (fmap_same pg_dirty hs i a) by done. eapply pool_mono; [apply Hinv|lia|lia].
  - cbn [ps_clean ps_dirty]. rewrite Hc. unfold got. solve_Permutation.
Qed.

Lemma held_item n m V hs sh held p : pinv n m V hs sh held → p ∈ held → bag_item p.
Proof.
  intros Hinv Hp. destruct (pi_pages _ _ _ _ _ _ Hinv p) as (H1 & H2 & _); [by apply elem_of_app; left|]. apply Hitem. pose proof pow_pos. lia.
Qed.

Lemma push_dirty_ok n m V fuel hs sh held i a p : pinv (n + 2) m V hs sh (p :: held) → hs !! i = Some a → 0 ≤ n → (push_fuel (ps_dirty sh) ≤ fuel)%nat →
  ∃ a' sh', push_dirty fuel p (a, sh) = Ok (a', sh') ∧ pinv n m (V + 1) (<[i := a']> hs) sh' held ∧ ps_heap sh' = ps_heap sh.
Proof.
  intros Hinv Hi Hn Hf.
  destruct (pool_push n m V fuel (ps_dirty sh) (pg_dirty <$> hs) i (pg_dirty a) p) as (d & ds & E & Hp & Hl & Hc);
    [apply Hinv|by rewrite list_lookup_fmap, Hi|done|eapply held_item; [exact Hinv|left]|done|].
  unfold push_dirty. rewrite E, bind_Ok. eexists _, _. split; [done|]. split; [|done]. eapply pinv_move; [exact Hinv|eapply handles_cfg; [apply Hinv|done|done]| | |done|].
  - cbn [ps_clean]. rewrite (fmap_same pg_clean hs i a) by done. eapply pool_mono; [apply Hinv|lia|lia].
  - cbn [ps_dirty]. by rewrite list_fmap_insert.
  - cbn [ps_clean ps_dirty]. rewrite Hc. solve_Permutation.
Qed.

Lemma push_clean_ok n m V fuel hs sh held i a p : pinv (n + 2) m V hs sh (p :: held) → hs !! i = Some a → 0 ≤ n → (push_fuel (ps_clean sh) ≤ fuel)%nat →
  ∃ a' sh', push_clean fuel p (a, sh) = Ok (a', sh') ∧ pinv n m (V + 1) (<[i := a']> hs) sh' held ∧ ps_heap sh' = ps_heap sh.
Proof.
  intros Hinv Hi Hn Hf.
  destruct (pool_push n m V fuel (ps_clean sh) (pg_clean <$> hs) i (pg_clean a) p) as (c & cs & E & Hp & Hl & Hc);
    [apply Hinv|by rewrite list_lookup_fmap, Hi|done|eapply held_item; [exact Hinv|left]|done|].
  unfold push_clean. rewrite E, bind_Ok. eexists _, _. split; [done|]. split; [|done]. eapply pinv_move; [exact Hinv|eapply handles_cfg; [apply Hinv|done|done]| | |done|].
  - cbn [ps_clean]. by rewrite list_fmap_insert.
  - cbn [ps_dirty]. rewrite (fmap_same pg_dirty hs i a) by done. eapply pool_mono; [apply Hinv|lia|lia].
  - cbn [ps_clean ps_dirty]. rewrite Hc. solve_Permutation.
Qed.

(** Memory that is uncommitted stays mapped. *)
Lemma uncommit_ok n m V hs sh held a p len : pinv n m V hs sh held → (k_page | p) → 0 < len < 2 ^ 62 →
  ∃ sh', uncommit p len (a, sh) = Ok (a, sh') ∧ pinv n m V hs sh' held ∧ ps_clean sh' = ps_clean sh ∧ ps_dirty sh' = ps_dirty sh ∧ eh_slag (ps_heap sh') = eh_slag (ps_heap sh).
Proof.
  intros Hinv Hp Hl. destruct (uncommit_spec (eh_k (ps_heap sh)) p len (pi_k _ _ _ _ _ _ Hinv) Hp Hl) as (k' & E & Hk' & Hm). unfold uncommit. rewrite E, bind_Ok. eexists. split; [done|]. split; [|done].
  destruct Hinv. split; try done. cbn. intros q Hq. destruct (pi_pages0 q Hq) as (Q1 & Q2 & Q3 & Q4). split_and!; try done. by rewrite Hm.
Qed.

Lemma zero_page_ok n m V hs sh held a p : pinv n m V hs sh held →
  ∃ sh', zero_page p (a, sh) = (a, sh') ∧ pinv n m V hs sh' held ∧ ps_clean sh' = ps_clean sh ∧ ps_dirty sh' = ps_dirty sh ∧ eh_slag (ps_heap sh') = delete p (eh_slag (ps_heap sh)).
Proof.
  intros []. eexists. split; [done|]. split; [|done]. split; try done. cbn. intros q Hty Hq.
  destruct (decide (region_of q = p)) as [->|]; [by rewrite lookup_insert_eq|by rewrite lookup_insert_ne; auto].
Qed.

(** Regions from the source *)
Lemma region_pages_cons base ps n : 0 < n → region_pages base ps n = base :: ((fun i => base + ps * i) <$> zrange 1 n).
Proof. intros Hn. unfold region_pages. rewrite zrange_cons by lia. cbn. f_equal. lia. Qed.

Lemma zero_stamps l (hdr : gmap Z Header) x : x ∈ l ∨ hdr !! x = Some (Stamp SmallSlag) → foldr (fun p => <[p := Stamp SmallSlag]>) hdr l !! x = Some (Stamp SmallSlag).
Proof.
  induction l as [|p l IH]; intros Hx; cbn; [destruct Hx as [Hx|Hx]; [by apply elem_of_nil in Hx|done]|].
  destruct (decide (x = p)) as [->|Hne]; [by rewrite lookup_insert_eq|]. rewrite lookup_insert_ne by done. apply IH. destruct Hx as [[->|Hx]%elem_of_cons|Hx]; auto. done.
Qed.

Let npages := Z.max (pa_pages_per cfg) 2.

Lemma npages_bytes : (if pa_pages_per cfg =? 1 then 2 else 1) * 2 ^ f = npages * 2 ^ e ∧ 2 ≤ npages ≤ 2 ^ 30 ∧ (pa_pages_per cfg = 1 → f = e).
Proof.
  destruct Hcfg as (_ & _ & Hpp & He & Hf). unfold npages. rewrite Hpp. pose proof pow_pos as (P1 & _ & P3 & _).
  assert (Hfe : 2 ^ f = 2 ^ (f - e) * 2 ^ e) by (rewrite <- Z.pow_add_r by lia; f_equal; lia).
  assert (Hle : 2 ^ (f - e) ≤ 2 ^ 30) by (apply Z.pow_le_mono_r; lia).
  destruct (Z.eqb_spec (2 ^ (f - e)) 1) as [E|E].
  - assert (f - e = 0) by (apply (pow2_inj (f - e) 0); lia). rewrite E in *. split_and!; lia.
  - assert (1 ≤ f - e). { destruct (decide (f - e = 0)) as [Hz|]; [by rewrite Hz in E|lia]. }
    assert (2 ^ 1 ≤ 2 ^ (f - e)) by (apply Z.pow_le_mono_r; lia). change (2 ^ 1) with 2 in *. split_and!; nia.
Qed.

Lemma region_facts k k' base : fresh_region k base (npages * 2 ^ e) k' → (2 ^ f | base) →
  NoDup (region_pages base (2 ^ e) npages) ∧
  (∀ p, p ∈ region_pages base (2 ^ e) npages → page_ok k' p ∧ ¬ page_ok k p ∧ region_of p ∈ region_pages base (2 ^ e) npages) ∧ (∀ p, page_ok k p → page_ok k' p).
Proof.
  intros (F1 & F2 & F3 & F4 & F5 & _) Hd. pose proof pow_pos as (P1 & P2 & P3 & _ & P4). pose proof npages_bytes as (Hb & Hn & He1). pose proof k_page_pos.
  assert (Hmem : ∀ p, p ∈ region_pages base (2 ^ e) npages ↔ ∃ i, p = base + 2 ^ e * i ∧ 0 ≤ i < npages).
  { intros p. unfold region_pages. rewrite list_elem_of_fmap. by setoid_rewrite elem_of_zrange. }
  assert (Hpe : (2 ^ e | base)) by (by eapply Z.divide_trans).
  assert (Hsub : ∀ i, 0 ≤ i < npages → pages_of k_page (base + 2 ^ e * i) (2 ^ e) ⊆ pages_of k_page base (npages * 2 ^ e)) by (intros i Hi; apply pages_of_mono; nia).
  split_and!.
  - unfold region_pages. apply NoDup_fmap_2; [|apply NoDup_zrange]. intros x y. nia.
  - intros p (i & -> & Hi)%Hmem. assert (Hdi : (2 ^ e | base + 2 ^ e * i)) by (apply Z.divide_add_r; [done|apply Z.divide_factor_l]). split_and!.
    + split_and!; [nia|nia|done|]. rewrite F5. by apply union_subseteq_l', Hsub.
    + intros (_ & _ & _ & Hm). assert (Hh : (base + 2 ^ e * i) / k_page ∈ pages_of k_page (base + 2 ^ e * i) (2 ^ e)) by (apply pages_head; [lia|by eapply Z.divide_trans|done]).
      eapply F4; [by apply Hsub in Hh|by apply Hm].
    + apply Hmem. unfold region_of. destruct (decide (pa_pages_per cfg = 1)) as [E1|E1].
      * exists i. split; [|done]. rewrite (He1 E1), mod_0_divide by done. lia.
      * exists 0. split; [|lia]. rewrite (proj2 (Z.eqb_neq _ _) E1) in Hb. destruct Hd as [x ->].
        replace ((x * 2 ^ f + 2 ^ e * i) mod 2 ^ f) with (2 ^ e * i); [lia|]. apply (Z.mod_unique_pos _ _ x); nia.
  - intros p (Q1 & Q2 & Q3 & Q4). split_and!; try done. rewrite F5. by apply union_subseteq_r'.
Qed.

Lemma refresh_ok n m V fuel hs sh held i a : pinv n m V hs sh held → hs !! i = Some a → (push_fuel (ps_clean sh) ≤ fuel)%nat →
  refresh_pages fuel (a, sh) = Fault UnwrapNone ∨
  ∃ p a' sh', refresh_pages fuel (a, sh) = Ok (p, (a', sh')) ∧ pinv n m (V + 2 ^ 30) (<[i := a']> hs) sh' (p :: held) ∧ slags_kept held sh sh'.
Proof.
  intros Hinv Hi Hf. assert (Ha : pg_cfg a = cfg) by (apply Hinv; by eapply list_elem_of_lookup_2). pose proof npages_bytes as (Hb & Hn & _). pose proof pow_pos as (P1 & P2 & P3 & P5 & P4).
  unfold refresh_pages. rewrite Ha. fold npages. set (cn := if pa_pages_per cfg =? 1 then 2 else 1) in *. assert (1 ≤ cn ≤ 2) by (unfold cn; case_match; lia).
  destruct Hcfg as (Ecr & Eal & Epp & He & Hfb). rewrite Eal. unfold PA.page_size. rewrite Ecr. cbn [ms_page_size].
  destruct (mmap_carve_spec f cn (eh_k (ps_heap sh))) as (r & k' & -> & Hk' & Hr); [apply Hinv|lia|lia|nia|]. rewrite bind_Ok.
  destruct r as [base|]; [right|by left]. cbn [unwrap]. rewrite bind_Ok. destruct Hr as [Hd Hfr]. rewrite Hb in Hfr.
  destruct (region_facts _ _ base Hfr Hd) as (Hnd & Hreg & Hold). rewrite region_pages_cons in Hnd, Hreg by lia. set (iter := (fun i => base + 2 ^ e * i) <$> zrange 1 npages) in *.
  assert (Hlen : Z.of_nat (length iter) < 2 ^ 30) by (unfold iter; rewrite length_fmap, length_zrange; lia).
  destruct (pool_bulk n m V fuel (ps_clean sh) (pg_clean <$> hs) i (pg_clean a) iter) as (c & cs & -> & Hp & Hl & Hc); [apply Hinv|by rewrite list_lookup_fmap, Hi| |lia|done|].
  { apply list.Forall_forall. intros p Hp. destruct (Hreg p) as ((Q1 & Q2 & _) & _); [by right|]. apply Hitem. lia. }
  rewrite bind_Ok. eexists _, _, _. split; [done|].
  assert (Hperm : (base :: held) ++ contents cs ++ contents (ps_dirty sh) ≡ₚ (base :: iter) ++ (held ++ contents (ps_clean sh) ++ contents (ps_dirty sh))) by (rewrite Hc; solve_Permutation).
  split.
  2: { unfold slags_kept. cbn [ps_heap write_stamp zero_headers eh_slag]. split; intros r; rewrite zero_slags; [|case_decide; auto]. intros Hr. apply decide_False. rewrite region_pages_cons by lia. fold iter. intros Hin.
    destruct (Hreg r Hin) as (_ & Hno & _). apply Hno. eapply pi_pages; [exact Hinv|]. apply elem_of_app. by left. }
  split; cbn [ps_clean ps_dirty ps_heap eh_k write_stamp zero_headers].
  - eapply handles_cfg; [apply Hinv|done|done].
  - rewrite list_fmap_insert. eapply pool_mono; [exact Hp|lia|lia].
  - rewrite (fmap_same pg_dirty hs i a) by done. eapply pool_mono; [apply Hinv|lia|lia].
  - done.
  - rewrite Hperm. apply list.NoDup_app. split_and!; [done| |apply Hinv]. intros p Hp1 Hp2. destruct (Hreg p Hp1) as (_ & Hno & _). apply Hno. by eapply pi_pages.
  - intros p. rewrite Hperm. intros [Hp1|Hp1]%elem_of_app; [by apply Hreg|]. apply Hold. by eapply pi_pages.
  - intros p Hty. rewrite Hperm, Hty, (region_pages_cons base) by lia. fold iter. intros Hp1. unfold write_stamp. cbn [eh_hdr].
    destruct (decide (region_of p = base)) as [->|Hne]; [by rewrite lookup_insert_eq|]. rewrite lookup_insert_ne by done. unfold zero_headers. cbn [eh_hdr]. apply zero_stamps.
    apply elem_of_app in Hp1 as [Hp1|Hp1]; [left; by apply Hreg|right; by eapply pi_typed].
Qed.

Lemma alloc_page_ok n m V fuel hs sh held i a : pinv (n + 2) m V hs sh held → hs !! i = Some a → 0 ≤ n → (fuel_of sh ≤ fuel)%nat →
  alloc fuel (a, sh) = Fault UnwrapNone ∨
  ∃ p a' sh', alloc fuel (a, sh) = Ok (p, (a', sh')) ∧ pinv n m (V + 2 ^ 31) (<[i := a']> hs) sh' (p :: held) ∧ slags_kept held sh sh'.
Proof.
  intros Hinv Hi Hn Hf. unfold alloc. replace (n + 2) with (n + 1 + 1) in Hinv by lia. pose proof (lookup_lt_Some _ _ _ Hi) as Hlt.
  destruct (pop_dirty_ok (n + 1) m V hs sh held i a Hinv Hi) as (r & d & ds & -> & _ & Hinv1); [lia|]. rewrite bind_Ok. destruct r as [p|st].
  { right. eexists _, _, _. split; [done|]. split; [eapply pinv_mono; [exact Hinv1|lia|lia]|by apply slags_same]. }
  set (a1 := mkPages (pg_cfg a) (pg_clean a) d) in *. set (sh1 := mkShared (ps_heap sh) (ps_clean sh) ds) in *. cbn [got app] in Hinv1.
  destruct (pop_clean_ok n m (V + 1) _ sh1 held i a1 Hinv1) as (r & c & cs & E & Hlen & Hinv2); [by apply list_lookup_insert_eq|done|].
  cbn [pg_clean ps_clean sh1 a1] in E. cbn [pg_clean ps_clean sh1 a1]. rewrite E, bind_Ok. rewrite list_insert_insert_eq in Hinv2. destruct r as [p|st2].
  { right. eexists _, _, _. split; [done|]. split; [eapply pinv_mono; [exact Hinv2|lia|lia]|by apply slags_same]. }
  cbn [got app] in Hinv2. set (a2 := mkPages (pg_cfg a1) c (pg_dirty a1)) in *. set (sh2 := mkShared (ps_heap sh1) cs (ps_dirty sh1)) in *.
  destruct (refresh_ok n m (V + 1 + 1) fuel _ sh2 held i a2 Hinv2) as [E2|(p & a' & sh' & E2 & Hinv3 & Hk3)]; [by apply list_lookup_insert_eq| |by left|].
  - unfold fuel_of, push_fuel, len in *. cbn [ps_clean sh2 sh1] in *. lia.
  - right. exists p, a', sh'. split; [exact E2|]. rewrite list_insert_insert_eq in Hinv3. split; [eapply pinv_mono; [exact Hinv3|lia|lia]|exact Hk3].
Qed.

Lemma free_page_ok n m V fuel hs sh held i a p d : pinv (n + 2) m V hs sh (p :: held) → hs !! i = Some a → 0 ≤ n → V < 2 ^ 63 → (fuel_of sh ≤ fuel)%nat →
  ∃ a' sh', free fuel p d (a, sh) = Ok (a', sh') ∧ pinv n m (V + 2 ^ 31) (<[i := a']> hs) sh' held ∧ slags_kept held sh sh'.
Proof.
  intros Hinv Hi Hn HV Hf. assert (Ha : pg_cfg a = cfg) by (apply Hinv; by eapply list_elem_of_lookup_2). pose proof pow_pos as (P1 & P2 & P3 & P5 & P4). pose proof k_page_pos as HP.
  destruct (pi_pages _ _ _ _ _ _ Hinv p) as (Q1 & Q2 & Q3 & _); [left|]. unfold fuel_of in Hf.
  assert (Hnp : p ∉ held) by (pose proof (pi_nodup _ _ _ _ _ _ Hinv) as Hnd; cbn in Hnd; apply list.NoDup_cons in Hnd as [Hnd _]; set_solver).
  assert (Hdone : ∀ s' sh1, (∃ a' sh', s' = Ok (a', sh') ∧ pinv n m (V + 1) (<[i := a']> hs) sh' held ∧ ps_heap sh' = ps_heap sh1) → slags_kept held sh sh1 →
    ∃ a' sh', s' = Ok (a', sh') ∧ pinv n m (V + 2 ^ 31) (<[i := a']> hs) sh' held ∧ slags_kept held sh sh').
  { intros s' sh1 (a' & sh' & E & Hp & Eh) Hk. exists a', sh'. split_and!; [done|eapply pinv_mono; [exact Hp|lia|lia]|]. unfold slags_kept in *. by rewrite Eh. }
  assert (Hsame : slags_kept held sh sh) by (by apply slags_same).
  unfold free. rewrite Ha. destruct (pool_guess _ _ _ _ _ (pi_dirty _ _ _ _ _ _ Hinv) HV) as [g ->]. rewrite bind_Ok.
  unfold PA.page_size, EMap.page_size. destruct Hcfg as (-> & _). cbn [ms_page_size]. destruct (_ <=? g).
  - destruct (uncommit_ok (n + 2) m V hs sh (p :: held) a p (2 ^ e) Hinv) as (sh1 & -> & Hinv1 & Ec1 & _ & Es1); [by eapply Z.divide_trans|lia|]. rewrite bind_Ok.
    destruct (zero_page_ok (n + 2) m V hs sh1 (p :: held) a p Hinv1) as (sh2 & -> & Hinv2 & Ec2 & _ & Es2). eapply Hdone; [apply push_clean_ok; try done; rewrite Ec2, Ec1; lia|].
    unfold slags_kept. rewrite Es2, Es1. split; intros r; [intros Hr; apply lookup_delete_ne; by intros ->|]. destruct (decide (r = p)) as [->|Hne]; [right; apply lookup_delete_eq|left; by apply lookup_delete_ne].
  - destruct d; [|eapply Hdone; [apply push_dirty_ok; try done; lia|done]]. destruct (Z.eqb_spec (Z.max 0 (2 ^ e - k_page)) 0) as [Hz|Hnz]; [eapply Hdone; [apply push_dirty_ok; try done; lia|done]|].
    destruct (uncommit_ok (n + 2) m V hs sh (p :: held) a (p + k_page) (Z.max 0 (2 ^ e - k_page)) Hinv) as (sh1 & -> & Hinv1 & _ & Ed1 & Es1);
      [apply Z.divide_add_r; [by eapply Z.divide_trans|done]|lia|]. rewrite bind_Ok. eapply Hdone; [apply push_dirty_ok; try done; rewrite Ed1; lia|by apply slags_same].
Qed.

Lemma clone_pages_ok n m V hs sh held i a : pinv (n + 2) m V hs sh held → hs !! i = Some a → 0 ≤ n < 2 ^ 61 → 1 ≤ m → (2 * m + 3) * (n + 1) < 2 ^ 63 →
  ∃ a' sh', clone_pages (a, sh) = Ok (a', sh') ∧ pinv n (m + 1) V (hs ++ [a']) sh' held ∧ ps_heap sh' = ps_heap sh.
Proof.
  intros Hinv Hi Hn Hm Hb. pose proof Hinv as [].
  destruct (pool_clone n m V (ps_clean sh) (pg_clean <$> hs) i (pg_clean a)) as (c & cs & E1 & Hp1 & _ & Hc1); [done|by rewrite list_lookup_fmap, Hi|done|done|done|].
  destruct (pool_clone n m V (ps_dirty sh) (pg_dirty <$> hs) i (pg_dirty a)) as (d & ds & E2 & Hp2 & _ & Hc2); [done|by rewrite list_lookup_fmap, Hi|done|done|done|].
  unfold clone_pages. cbn [snd]. rewrite E1, bind_Ok, E2, bind_Ok. eexists _, _. split; [done|]. split; [|done]. split; cbn [ps_clean ps_dirty ps_heap]; rewrite ?Hc1, ?Hc2; try done.
  - intros x [Hx| ->%list_elem_of_singleton]%elem_of_app; [by apply pi_cfg0|]. cbn. apply pi_cfg0. by eapply list_elem_of_lookup_2.
  - by rewrite fmap_app.
  - by rewrite fmap_app.
Qed.

Lemma remove_one_perm p l : p ∈ l → l ≡ₚ p :: remove_one p l.
Proof.
  induction l as [|x l IH]; intros Hp; [by apply elem_of_nil in Hp|]. cbn. destruct (Z.eqb_spec x p) as [->|Hne]; [done|].
  apply elem_of_cons in Hp as [->|Hp]; [done|]. rewrite (IH Hp) at 1. apply Permutation_swap.
Qed.

Definition cinv (n m V : Z) (c : pconf K B) : Prop := pinv n m V (pc_hs c) (pc_sh c) (pc_live c).

Lemma exec_page_ok n m V c x : cinv (n + 2) m V c → 0 ≤ n < 2 ^ 61 → 1 ≤ m → (2 * m + 3) * (n + 1) < 2 ^ 63 → V < 2 ^ 63 →
  exec_page c x = Fault UnwrapNone ∨ ∃ c' m', exec_page c x = Ok c' ∧ m ≤ m' ≤ m + 1 ∧ cinv n m' (V + 2 ^ 31) c'.
Proof.
  intros Hinv Hn Hm Hb HV. assert (Hsame : ∃ c' m', Ok c = Ok c' ∧ m ≤ m' ≤ m + 1 ∧ cinv n m' (V + 2 ^ 31) c').
  { exists c, m. split_and!; [done|lia..|]. eapply pinv_mono; [exact Hinv|lia|lia]. }
  destruct x as [i|i p d|i]; cbn [exec_page]; destruct (pc_hs c !! i) as [a|] eqn:Hi; try (by right).
  - destruct (alloc_page_ok n m V (fuel_of (pc_sh c)) _ _ _ i a Hinv Hi) as [E|(p & a' & sh' & E & Hinv' & _)]; [lia|done|left; by rewrite E|].
    right. rewrite E, bind_Ok. eexists _, m. split_and!; [done|lia..|exact Hinv'].
  - case_bool_decide as Hp; [|by right].
    assert (Hinv1 : pinv (n + 2) m V (pc_hs c) (pc_sh c) (p :: remove_one p (pc_live c))).
    { eapply pinv_move; [exact Hinv|apply Hinv|apply Hinv|apply Hinv|done|]. by rewrite <- remove_one_perm. }
    destruct (free_page_ok n m V (fuel_of (pc_sh c)) _ _ _ i a p d Hinv1 Hi) as (a' & sh' & E & Hinv' & _); [lia|done|done|].
    right. rewrite E, bind_Ok. eexists _, m. split_and!; [done|lia..|exact Hinv'].
  - destruct (clone_pages_ok n m V _ _ _ i a Hinv Hi Hn Hm Hb) as (a' & sh' & E & Hinv' & _). right. rewrite E, bind_Ok. eexists _, (m + 1). split_and!; [done|lia..|].
    eapply pinv_mono; [exact Hinv'|lia|lia].
Qed.

Lemma exec_pages_ok xs : ∀ n m V c, cinv (n + 2 * Z.of_nat (length xs)) m V c → 0 ≤ n → n + 2 * Z.of_nat (length xs) < 2 ^ 61 → 1 ≤ m →
  (2 * (m + Z.of_nat (length xs)) + 3) * (n + 2 * Z.of_nat (length xs) + 1) < 2 ^ 63 → V + 2 ^ 31 * Z.of_nat (length xs) < 2 ^ 63 →
  rfold exec_page xs c = Fault UnwrapNone ∨ ∃ c' m' V', rfold exec_page xs c = Ok c' ∧ cinv n m' V' c'.
Proof.
  induction xs as [|x xs IH]; intros n m V c Hc Hn Hb Hm Hmb HV; cbn [rfold length] in *; [right; exists c, m, V; by rewrite Z.add_0_r in Hc|].
  replace (n + 2 * Z.of_nat (S (length xs))) with (n + 2 * Z.of_nat (length xs) + 2) in Hc by lia.
  destruct (exec_page_ok _ m V c x Hc) as [->|(c1 & m1 & -> & Hm1 & Hc1)]; [lia|lia|nia|lia|by left|]. eapply IH; [exact Hc1|done|lia|lia|nia|lia].
Qed.
End system.

Section page_alloc.
  Context {K : Type} `{!Kernel K} {B : Type} `{BagLaws B Z}.

Definition run_pages (page_size target_overhead pipe_size align : Z) (t : AllocType) (h : EHeap K) (xs : list pcall) : res (pconf K B) :=
  '(a, sh) ← new_aligned page_size target_overhead pipe_size align t h;
  rfold exec_page xs (mkConf [a] sh []).

(** The pages of a page allocator: handed out, or in its bags. *)
Definition all_pages (c : pconf K B) : list Z := pc_live c ++ contents (ps_clean (pc_sh c)) ++ contents (ps_dirty (pc_sh c)).

Lemma new_aligned_cfg e f target pipe t : 0 ≤ e ≤ f → f ≤ 30 →
  PA.new_aligned (2 ^ e) target pipe (2 ^ f) t = Ok (mkPageAlloc target (mkMmapSource (2 ^ e)) (2 ^ (f - e)) (mkMmapSource (2 ^ f)) pipe t).
Proof.
  intros He Hf. unfold PA.new_aligned, MSrc.new. pose proof (pow2_pos e ltac:(lia)). assert (Hfe : 2 ^ f / 2 ^ e = 2 ^ (f - e)) by (symmetry; apply Z.pow_sub_r; lia).
  rewrite (rassert_true (_ <=? _)) by (apply Z.leb_le, Z.pow_le_mono_r; lia). rewrite !is_power_of_two_pow2 by lia. cbn [rassert]. rewrite !bind_Ok, udiv_Ok, bind_Ok by lia.
  rewrite (next_power_of_two_pow2 e), !bind_Ok by lia. rewrite Hfe. destruct (Z.ltb_spec 1 (2 ^ (f - e))) as [Hlt|Hge].
  - by rewrite (next_power_of_two_pow2 f), !bind_Ok by lia.
  - assert (f = e) as ->; [|done]. pose proof (pow2_pos (f - e) ltac:(lia)). assert (f - e = 0) by (apply (pow2_inj (f - e) 0); lia). lia.
Qed.

(** C11: a page allocator hands every page out once.  For threads that share one
    (fewer than 2^29 calls), a call panics only when the system is out of memory.
    Otherwise the pages handed out and the cached ones are distinct, each is
    mapped and a multiple of the page size, so they do not overlap; a page that
    is allocated is one that was not handed out; and for small slags the type
    stamp at the start of the region a page was cut from is always there, also
    after pages of it were uncommitted. *)
Theorem page_alloc_safe (e f target pipe : Z) (t : AllocType) (h : EHeap K) (xs : list pcall) :
  (∀ p, 0 < p < 2 ^ 63 → bag_item (Item := Z) (B := B) p) → k_ok (eh_k h) → k_page (K := K) ≤ 2 ^ e → 0 ≤ e ≤ f → f ≤ 30 → 1 ≤ pipe ≤ 2 ^ 63 → Z.of_nat (length xs) < 2 ^ 29 →
  run_pages (2 ^ e) target pipe (2 ^ f) t h xs = Fault UnwrapNone ∨
  ∃ c, run_pages (2 ^ e) target pipe (2 ^ f) t h xs = Ok c ∧ NoDup (all_pages c) ∧
    (∀ p, p ∈ all_pages c → (2 ^ e | p) ∧ pages_of k_page p (2 ^ e) ⊆ k_mapped (eh_k (ps_heap (pc_sh c))) ∧
       (t = SmallSlag → eh_hdr (ps_heap (pc_sh c)) !! (p - p mod 2 ^ f) = Some (Stamp SmallSlag))) ∧
    (∀ p q, p ∈ all_pages c → q ∈ all_pages c → p ≠ q → p + 2 ^ e ≤ q ∨ q + 2 ^ e ≤ p).
Proof.
  intros Hitem Hk Hpage Hef Hf Hpipe Hlen. set (cfg := mkPageAlloc target (mkMmapSource (2 ^ e)) (2 ^ (f - e)) (mkMmapSource (2 ^ f)) pipe t).
  unfold run_pages, new_aligned. rewrite new_aligned_cfg, bind_Ok by lia. fold cfg. set (N := 2 * Z.of_nat (length xs)).
  destruct (pool_new 2 N) as (c1 & s1 & -> & Hp1 & Hn1); [lia|lia|]. rewrite bind_Ok. destruct (pool_new pipe N Hpipe) as (c2 & s2 & -> & Hp2 & Hn2); [lia|]. rewrite bind_Ok.
  assert (Hcfg : pa_creek cfg = mkMmapSource (2 ^ e) ∧ pa_aligned_source cfg = mkMmapSource (2 ^ f) ∧ pa_pages_per cfg = 2 ^ (f - e) ∧ 0 ≤ e ≤ f ∧ f ≤ 30) by done.
  assert (Hc0 : cinv cfg e f (0 + N) 1 0 (mkConf [mkPages cfg c1 c2] (mkShared h s1 s2) [])).
  { split; cbn; rewrite ?Hn1, ?Hn2; try done; [by intros a ->%list_elem_of_singleton|constructor|by intros p Hp%elem_of_nil|by intros p _ Hp%elem_of_nil]. }
  rewrite bind_Ok. destruct (exec_pages_ok cfg e f Hitem Hcfg Hpage xs 0 1 0 _ Hc0) as [E|(c & m & V & E & Hc)]; [lia|lia|lia|nia|lia|by left|right].
  exists c. destruct Hc as [_ _ _ _ Hnd Hpg Hty]. split_and!; [done|done| |].
  - intros p Hp. destruct (Hpg p Hp) as (_ & _ & H3 & H4). split_and!; [done|done|]. intros ->. by apply Hty.
  - intros p q Hp Hq Hne. destruct (Hpg p Hp) as (_ & _ & [x Hx] & _), (Hpg q Hq) as (_ & _ & [y Hy] & _). pose proof (pow2_pos e ltac:(lia)). set (z := 2 ^ e) in *.
    assert (x ≠ y) by (intros ->; by rewrite <- Hy in Hx). destruct (decide (x < y)); [left|right]; nia.
Qed.
End page_alloc.

(** Small pages, in the queues the code uses. *)
Lemma faa_items p : 0 < p < 2 ^ 63 → bag_item (B := FAAQueue) (H := faa_bag false) p.
Proof. intros Hp. cbn. unfold is_item, SENTINEL, unot. by rewrite (proj2 (Z.eqb_neq p 0)), (proj2 (Z.eqb_neq p _)) by lia. Qed.

Definition sample_pages : list pcall := [PAlloc 0; PClone 0; PAlloc 1; PFree 0 4096 true].

Lemma page_alloc_safe_witness : run_pages (H0 := faa_bag_laws false) (2 ^ 18) (2 ^ 20) 8 (2 ^ 21) SmallSlag toy_heap sample_pages = Fault UnwrapNone ∨
  ∃ c, run_pages (H0 := faa_bag_laws false) (2 ^ 18) (2 ^ 20) 8 (2 ^ 21) SmallSlag toy_heap sample_pages = Ok c ∧ NoDup (all_pages (H0 := faa_bag_laws false) c).
Proof.
  destruct (page_alloc_safe (H0 := faa_bag_laws false) 18 21 (2 ^ 20) 8 SmallSlag toy_heap sample_pages) as [E|(c & E & Hn & _)];
    [exact faa_items|exact toy_k0_ok|discriminate|lia|lia|lia|cbn; lia|left; exact E|right; exists c; split; [exact E|exact Hn]].
Defined.
