(* ===== verification/CoarsePages.v ===== *)
(** * Page allocators under slag allocators

    [PageAlloc] of [src/elfmalloc/src/slag.rs] (PageAlloc.v) implements the trait
    [CoarseAllocator] (SlagAlloc): the calls, on memory that holds slags, and the
    laws the slag allocators and their caches rely on. *)

From Stdlib Require Import ZArith Lia.
From stdpp Require Import base numbers list gmap option.
From S2P Require Import Prelude StdAlloc Backing MmapAlloc ElfSources F64 SlagMeta SlagBits SizeClasses ClassMeta ElfGeneral Bag FaaQueue BagPipe PageAlloc SlagProto SlagSpec SlagAlloc.

Open Scope Z_scope.

(** What the clones share, and the slags in the pages: one whose metadata pointer
    was zeroed is gone. *)
Record SlagMemory (K B : Type) := mkMemory { sm_shared : PShared K B; sm_slags : gmap Z SlagS }.
Arguments mkMemory {K B} sm_shared sm_slags.
Arguments sm_shared {K B} s.
Arguments sm_slags {K B} s.

Section pools.
  Context {B : Type} `{BagLaws B Z}.

(** A handle that was dropped. *)
Definition retired (bp : BagPipe) : BagPipe := mkPipe (offset bp) (stride bp) (push_failures bp) (pop_failures bp) 0.

Lemma pool_drop n m V st hs i bp : pool n m V st hs → hs !! i = Some bp →
  ∃ st', drop_pipe (bp, st) = Ok st' ∧ pool n m V st' (<[i := retired bp]> hs) ∧ contents st' = contents st.
Proof.
  intros Hp Hi. destruct (pool_handle _ _ _ _ _ _ _ Hp Hi) as [Hroom Hst]. cbn in Hroom, Hst. destruct (drop_pipe_ok n bp st Hroom Hst) as (st' & E & Hst' & Hpi & Href & z & Hsum & Habs).
  exists st'. destruct (pipes_contents _ _ Hpi) as (Ec & _). split_and!; [done| |done]. destruct Hp as (s & [S1 S2 S3 S4 S5] & <- & Hh & HV).
  assert (Hhi : handles s !! i = Some (Some bp)) by (by rewrite Hh, list_lookup_fmap, Hi). destruct (diffs_insert s i bp (Some (retired bp)) Hhi) as [D1 D2].
  exists (mkSys st' (<[i := Some (retired bp)]> (handles s)) (ins s) (outs s)). split_and!; [|done|cbn; by rewrite Hh, list_fmap_insert|done]. split; cbn; try done.
  - intros j b. destruct (decide (i = j)) as [<-|Hne]; [rewrite list_lookup_insert_eq by (by eapply lookup_lt_Some); intros [= <-]|by rewrite list_lookup_insert_ne by done; apply S2].
    destruct Hroom. by split.
  - by rewrite Href.
  - by rewrite Ec.
  - destruct S5 as (z' & Hz & Ha). exists (z + z'). unfold diffs, adiffs in *. cbn in *. rewrite D1, D2, Ec. cbn [diff_of retired cur_diff from_option] in *. cbn. lia.
Qed.
End pools.

Section instance.
  Context {K : Type} `{!Kernel K} {B : Type} `{BagLaws B Z}.
  Abbreviation Mem := (SlagMemory K B).

(** Where the first system page of a slag ends, in words of its bit-set. *)
Definition page_words : nat := Z.to_nat ((k_page - 64) / 8).

Definition set_slag_ptr (q : Z) (s : SlagS) (h : EHeap K) : EHeap K :=
  mkHeap (eh_k h) (<[q := Stamp (slag_ty s)]> (eh_hdr h)) (<[q := slag_meta s]> (eh_slag h)) (eh_meta h).

#[export] Instance pages_memory : PageMemory Mem := {
  page_slag p q := match eh_slag (ps_heap (sm_shared p)) !! q with Some _ => sm_slags p !! q | None => None end;
  write_slag q s p :=
    let sh := sm_shared p in mkMemory (mkShared (set_slag_ptr q s (ps_heap sh)) (ps_clean sh) (ps_dirty sh)) (<[q := s]> (sm_slags p)) }.

Definition pages_alloc (c : Pages) : M Mem (Z * Pages) := fun p =>
  '(q, (c', sh)) ← alloc (fuel_of (sm_shared p)) (c, sm_shared p); Ok ((q, c'), mkMemory sh (sm_slags p)).

(** When the tail of the page is uncommitted, it reads as zeros. *)
Definition pages_free (c : Pages) (q : Z) (d : bool) : M Mem Pages := fun p =>
  '(c', sh) ← free (fuel_of (sm_shared p)) q d (c, sm_shared p);
  let tail := d && (0 <? PA.page_size (pg_cfg c) - EMap.page_size) in
  Ok (c', mkMemory sh (if tail then alter (zero_beyond page_words) q (sm_slags p) else sm_slags p)).

Definition pages_clone (c : Pages) : M Mem Pages := fun p =>
  '(c', sh) ← clone_pages (c, sm_shared p); Ok (c', mkMemory sh (sm_slags p)).

(** The drop of the fields: the handles on the bags. *)
Definition pages_drop (c : Pages) : M Mem unit := fun p =>
  let sh := sm_shared p in
  cs ← drop_pipe (pg_clean c, ps_clean sh);
  ds ← drop_pipe (pg_dirty c, ps_dirty sh);
  Ok (tt, mkMemory (mkShared (ps_heap sh) cs ds) (sm_slags p)).

#[export] Instance pages_coarse : CoarseAllocator Pages Mem :=
  Build_CoarseAllocator _ _ (fun c => PA.page_size (pg_cfg c)) pages_alloc pages_free pages_clone pages_drop.

  Context (cfg : PageAlloc) (e f : Z).
  Hypothesis Hitem : ∀ p, 0 < p < 2 ^ 63 → bag_item p.
  Hypothesis Hcfg : pa_creek cfg = mkMmapSource (2 ^ e) ∧ pa_aligned_source cfg = mkMmapSource (2 ^ f) ∧ pa_pages_per cfg = 2 ^ (f - e) ∧ 0 ≤ e ≤ f ∧ f ≤ 30.
  Hypothesis Hpage : k_page ≤ 2 ^ e.
  Hypothesis Htype : pa_ty cfg = SmallSlag.

(** For [n] more calls: [m] clones were made, [V] pages went through the bags. *)
Definition pages_inv (n : Z) (cs : list Pages) (p : Mem) (held : list Z) : Prop :=
  ∃ m V, 1 ≤ m ∧ pinv cfg e f (2 * n) m V cs (sm_shared p) held ∧ (2 * (m + Z.max 0 n) + 3) * (2 * Z.max 0 n + 1) < 2 ^ 63 ∧ V + 2 ^ 31 * Z.max 0 n < 2 ^ 63.

Lemma pages_kept held p sh' : slags_kept held (sm_shared p) sh' →
  (∀ r, r ∈ held → page_slag (mkMemory sh' (sm_slags p)) r = page_slag p r) ∧ ∀ r, page_slag (mkMemory sh' (sm_slags p)) r = page_slag p r ∨ page_slag (mkMemory sh' (sm_slags p)) r = None.
Proof. intros [K1 K2]. cbn. split; [intros r Hr; by rewrite K1|]. intros r. destruct (K2 r) as [E|E]; rewrite E; auto. Qed.

Lemma pages_alloc_ok n cs p held i c : pages_inv (n + 1) cs p held → cs !! i = Some c → 0 ≤ n →
  pages_alloc c p = Fault UnwrapNone ∨
  ∃ q c' p', pages_alloc c p = Ok ((q, c'), p') ∧ pages_inv n (<[i := c']> cs) p' (q :: held) ∧
    (∀ r, r ∈ held → page_slag p' r = page_slag p r) ∧ (∀ r, page_slag p' r = page_slag p r ∨ page_slag p' r = None).
Proof.
  intros (m & V & Hm & Hinv & B1 & B2) Hi Hn. replace (2 * (n + 1)) with (2 * n + 2) in Hinv by lia. unfold pages_alloc.
  destruct (alloc_page_ok cfg e f Hitem Hcfg Hpage (2 * n) m V (fuel_of (sm_shared p)) cs (sm_shared p) held i c Hinv Hi ltac:(lia) ltac:(done)) as [E|(q & c' & sh' & E & Hinv' & Hk)]; [left; by rewrite E|right].
  rewrite E, bind_Ok. eexists q, c', _. split; [done|]. split; [|by apply pages_kept]. exists m, (V + 2 ^ 31). split_and!; [done|done|nia|lia].
Qed.

Lemma pages_free_ok n cs p held i c q d : pages_inv (n + 1) cs p (q :: held) → cs !! i = Some c → 0 ≤ n →
  ∃ c' p', pages_free c q d p = Ok (c', p') ∧ pages_inv n (<[i := c']> cs) p' held ∧ (∀ r, r ∈ held → page_slag p' r = page_slag p r) ∧
    (∀ r, page_slag p' r = page_slag p r ∨ page_slag p' r = None ∨ (d = true ∧ r = q ∧ page_slag p' r = zero_beyond page_words <$> page_slag p r)).
Proof.
  intros (m & V & Hm & Hinv & B1 & B2) Hi Hn. replace (2 * (n + 1)) with (2 * n + 2) in Hinv by lia. unfold pages_free.
  assert (Hnq : q ∉ held) by (pose proof (pi_nodup _ _ _ _ _ _ _ _ _ Hinv) as Hnd; cbn in Hnd; apply list.NoDup_cons in Hnd as [Hnd _]; set_solver).
  destruct (free_page_ok cfg e f Hitem Hcfg Hpage (2 * n) m V (fuel_of (sm_shared p)) cs (sm_shared p) held i c q d Hinv Hi ltac:(lia) ltac:(lia) ltac:(done)) as (c' & sh' & E & Hinv' & Hk).
  rewrite E, bind_Ok. eexists c', _. split; [done|]. split; [exists m, (V + 2 ^ 31); split_and!; [done|done|nia|lia]|]. destruct (pages_kept held p sh' Hk) as [K1 K2].
  destruct (d && _) eqn:Et; [|split; [exact K1|intros r; destruct (K2 r); auto]]. apply andb_true_iff in Et as [-> _]. cbn in *. split.
  - intros r Hr. rewrite lookup_alter_ne by (by intros ->). by apply K1.
  - intros r. destruct (decide (r = q)) as [->|Hne]; [|rewrite lookup_alter_ne by done; destruct (K2 r); auto]. rewrite lookup_alter_eq. destruct (K2 q) as [E2|E2]; [|destruct (eh_slag (ps_heap sh') !! q); [|auto]].
    + destruct Hk as [_ Hk]. destruct (Hk q) as [E3|E3]; rewrite E3; [|auto]. destruct (eh_slag (ps_heap (sm_shared p)) !! q); auto.
    + rewrite E2. auto.
Qed.

Lemma pages_clone_ok n cs p held i c : pages_inv (n + 1) cs p held → cs !! i = Some c → 0 ≤ n →
  ∃ c' p', pages_clone c p = Ok (c', p') ∧ pages_inv n (cs ++ [c']) p' held ∧ (∀ r, page_slag p' r = page_slag p r).
Proof.
  intros (m & V & Hm & Hinv & B1 & B2) Hi Hn. replace (2 * (n + 1)) with (2 * n + 2) in Hinv by lia. unfold pages_clone.
  destruct (clone_pages_ok cfg e f (2 * n) m V cs (sm_shared p) held i c Hinv Hi ltac:(nia) Hm ltac:(nia)) as (c' & sh' & E & Hinv' & Eh).
  rewrite E, bind_Ok. eexists c', _. split; [done|]. split; [exists (m + 1), V; split_and!; [lia|done|nia|lia]|]. intros r. cbn. by rewrite Eh.
Qed.

Definition pages_dead (c : Pages) : Pages := mkPages (pg_cfg c) (retired (pg_clean c)) (retired (pg_dirty c)).

Lemma pages_drop_ok n cs p held i c : pages_inv n cs p held → cs !! i = Some c →
  ∃ p', pages_drop c p = Ok (tt, p') ∧ pages_inv n (<[i := pages_dead c]> cs) p' held ∧ (∀ r, page_slag p' r = page_slag p r).
Proof.
  intros (m & V & Hm & Hinv & B1 & B2) Hi. unfold pages_drop. pose proof Hinv as [I1 I2 I3 I4 I5 I6 I7].
  destruct (pool_drop _ _ _ _ _ i (pg_clean c) I2) as (cs' & E1 & Hp1 & Ec1); [by rewrite list_lookup_fmap, Hi|]. destruct (pool_drop _ _ _ _ _ i (pg_dirty c) I3) as (ds' & E2 & Hp2 & Ec2); [by rewrite list_lookup_fmap, Hi|].
  rewrite E1, bind_Ok, E2, bind_Ok. eexists. split; [done|]. split; [|done]. exists m, V. split_and!; [done| |done|done]. eapply pinv_move; [exact Hinv|eapply handles_cfg; [apply Hinv|done|done]| | |done|]; cbn [sm_shared ps_clean ps_dirty].
  - by rewrite list_fmap_insert.
  - by rewrite list_fmap_insert.
  - by rewrite Ec1, Ec2.
Qed.

Lemma pages_write n cs p held q s : pages_inv n cs p held → slag_ty s = SmallSlag → pages_inv n cs (write_slag q s p) held.
Proof.
  intros (m & V & Hm & [I1 I2 I3 I4 I5 I6 I7] & B1 & B2) Ht. exists m, V. split_and!; [done| |done|done]. split; cbn; try done. intros r Hty Hr. rewrite Ht.
  destruct (decide (region_of f r = q)) as [->|Hne]; [by rewrite lookup_insert_eq|]. rewrite lookup_insert_ne by done. by apply I7.
Qed.

(** A page allocator of small slags keeps the promises. *)
#[export] Instance pages_laws : CoarseLaws Pages Mem.
Proof.
  refine (Build_CoarseLaws _ _ _ _ (2 ^ e) SmallSlag page_words pages_inv pages_dead _ _ _ _ _ _ _ pages_alloc_ok pages_free_ok pages_clone_ok pages_drop_ok).
  - exists e. split; [lia|done].
  - intros n cs p held i c (m & V & _ & Hinv & _) Hi. cbn. rewrite (pi_cfg _ _ _ _ _ _ _ _ _ Hinv c) by (by eapply list_elem_of_lookup_2). unfold PA.page_size. by destruct Hcfg as (-> & _).
  - intros n n' cs p held (m & V & Hm & Hinv & B1 & B2) Hn. exists m, V. split_and!; [done|eapply pinv_mono; [exact Hinv|lia|lia]|nia|nia].
  - intros n cs p held held' (m & V & Hm & Hinv & B1 & B2) Hp. exists m, V. split_and!; [done| |done|done]. eapply pinv_move; [exact Hinv|apply Hinv|apply Hinv|apply Hinv|done|]. by rewrite Hp.
  - intros n cs p held (m & V & Hm & Hinv & _). pose proof (pi_nodup _ _ _ _ _ _ _ _ _ Hinv) as Hnd. apply list.NoDup_app in Hnd as (Hnd & _). split; [done|]. intros q Hq.
    destruct (pi_pages _ _ _ _ _ _ _ _ _ Hinv q) as (Q1 & Q2 & Q3 & _); [by apply elem_of_app; left|]. done.
  - intros p q s r. cbn. destruct (decide (r = q)) as [->|Hne]; [by rewrite !lookup_insert_eq|by rewrite !lookup_insert_ne by done].
  - intros n cs p held q s Hinv _ Ht. by apply pages_write.
Defined.
End instance.
