(* ===== verification/TypedAlloc.v ===== *)
(** * Typed allocators

    Models the end of [src/elfmalloc/src/frontends.rs]: [AllocBuilder] and the
    wrappers [LocalAllocator] and [MagazineAllocator], allocators for objects of
    one type: a cache (Frontends) over a slag allocator (SlagAlloc) over a page
    allocator (PageAlloc, CoarsePages) over memory from the system.  All the
    laws of the parts are put together here. *)

From Stdlib Require Import ZArith Lia.
From stdpp Require Import base numbers list gmap option.
From S2P Require Import Prelude StdAlloc Backing MmapAlloc ElfSources F64 SlagMeta SlagBits SizeClasses ClassMeta ElfGeneral Bag FaaQueue BagPipe PageAlloc SlagProto SlagSpec SlagAlloc Frontends MagazineCaches CacheSystem CoarsePages.

Open Scope Z_scope.

Record AllocBuilder := mkBuilder {
  ab_cutoff_factor : f64; ab_page_size : Z; ab_target_overhead : Z; ab_eager_decommit_threshold : Z; ab_max_objects : Z }.

Module Builder.
(** [default], for a type of [size_of_T] bytes. *)
Definition default (size_of_T : Z) : AllocBuilder :=
  mkBuilder f0_6 (Z.max (Z.shiftl 32 10) (size_of_T * 4)) (Z.shiftl 1 20) (Z.shiftl 128 10) (Z.shiftl 1 30).

Definition page_size (x : Z) (b : AllocBuilder) : AllocBuilder :=
  mkBuilder (ab_cutoff_factor b) x (ab_target_overhead b) (ab_eager_decommit_threshold b) (ab_max_objects b).
Definition eager_decommit_threshold (x : Z) (b : AllocBuilder) : AllocBuilder :=
  mkBuilder (ab_cutoff_factor b) (ab_page_size b) (ab_target_overhead b) x (ab_max_objects b).
Definition max_objects (x : Z) (b : AllocBuilder) : AllocBuilder :=
  mkBuilder (ab_cutoff_factor b) (ab_page_size b) (ab_target_overhead b) (ab_eager_decommit_threshold b) x.
End Builder.

Section typed.
  Context {K : Type} `{!Kernel K} {B : Type} `{BagLaws B Z} {R : Type} `{BagLaws R Z} `{!RevocableWeakBag R Z}.
  Abbreviation Heap := (SlagHeap (SlagMemory K B) R).




(** The bags of a page allocator that was just made. *)
Lemma new_pages_inv e target (h : EHeap K) n : k_ok (eh_k h) → 0 ≤ e ≤ 30 → 0 ≤ n < 2 ^ 30 →
  ∃ a sh, new_aligned (B := B) (2 ^ e) target 8 (2 ^ e) SmallSlag h = Ok (a, sh) ∧ pg_cfg a = mkPageAlloc target (mkMmapSource (2 ^ e)) (2 ^ (e - e)) (mkMmapSource (2 ^ e)) 8 SmallSlag ∧
    pages_inv (pg_cfg a) e e n [a] (mkMemory sh ∅) [].
Proof.
  intros Hk He Hn. unfold new_aligned. rewrite (new_aligned_cfg e e target 8 SmallSlag) by lia. rewrite bind_Ok.
  destruct (pool_new (B := B) 2 (2 * n)) as (c1 & s1 & -> & Hp1 & Hn1); [lia|lia|]. rewrite bind_Ok. destruct (pool_new (B := B) 8 (2 * n)) as (c2 & s2 & -> & Hp2 & Hn2); [lia|lia|]. rewrite bind_Ok.
  eexists _, _. split; [done|]. split; [done|]. exists 1, 0. split_and!; [lia| |rewrite Z.max_r by lia; nia|lia]. cbn [sm_shared pg_cfg].
  split; cbn; rewrite ?Hn1, ?Hn2; try done; [by intros a ->%list_elem_of_singleton|constructor|by intros p Hp%elem_of_nil|by intros p _ Hp%elem_of_nil].
Qed.

  Context `{!RevocableLaws R Z}.

(** What a type of [size] bytes and its builder must satisfy: pages of [2 ^ e]
    bytes with room for seven objects (also in [max_objects], which the code takes
    for bytes), a cutoff factor of at most one, and, if freed pages are
    decommitted, a bit-set that is in the part of the page that stays. *)
Definition typed_ok (e size decommit max_objects : Z) (cf : f64) (md : Metadata) : Prop :=
  k_page ≤ 2 ^ e ∧ 0 ≤ e ≤ 30 ∧ 2 ≤ size ∧ 7 * size + 72 ≤ Z.min max_objects (2 ^ e) ∧ f_le_one cf ∧
  (decommit ≤ usable_size md → (Z.to_nat (n_bitset_words md) ≤ page_words)%nat).

Section laws.
  Context (b : AllocBuilder) (e size meta : Z) (md : Metadata) (h : EHeap K).
  Hypothesis Hitem : ∀ p, 0 < p < 2 ^ 63 → bag_item (B := B) p.
  Hypothesis Hslag : ∀ p, 0 < p < 2 ^ 63 → bag_item (B := R) p.
  Hypothesis Hty : typed_ok e size (ab_eager_decommit_threshold b) (ab_max_objects b) (ab_cutoff_factor b) md.
  Hypothesis Hmd : Meta.compute_metadata size (2 ^ e) 0 (ab_cutoff_factor b) (ab_max_objects b) SmallSlag = Ok md.
  Abbreviation cfg := (mkPageAlloc (ab_target_overhead b) (mkMmapSource (2 ^ e)) (2 ^ (e - e)) (mkMmapSource (2 ^ e)) 8 SmallSlag).

Lemma typed_cfg : pa_creek cfg = mkMmapSource (2 ^ e) ∧ pa_aligned_source cfg = mkMmapSource (2 ^ e) ∧ pa_pages_per cfg = 2 ^ (e - e) ∧ 0 ≤ e ≤ e ∧ e ≤ 30.
Proof. destruct Hty as (_ & He & _). cbn. split_and!; (done || lia). Qed.

Definition typed_laws : CoarseLaws Pages (SlagMemory K B) := pages_laws cfg e e Hitem typed_cfg (proj1 Hty) eq_refl.

Lemma typed_class : meta ≠ 0 → class_ok (H1 := typed_laws) (B := R) md meta (ab_eager_decommit_threshold b) size (Z.min (ab_max_objects b) (2 ^ e)).
Proof.
  intros Hm. destruct Hty as (_ & He & Hs & Hfit & Hcf & Htail). pose proof (Z.pow_le_mono_r 2 e 30 ltac:(lia) ltac:(lia)).
  destruct (compute_metadata_full size (2 ^ e) 0 (ab_max_objects b) (ab_cutoff_factor b) SmallSlag) as (m & E & Hl & Hmask & Ht & Hg & Hcut); [lia|lia|]. rewrite Hmd in E. injection E as <-.
  pose proof (layout_fits _ _ _ _ Hl Hs Hfit) as [_ Hf]. split; try done; [change (page_bytes (CoarseLaws := typed_laws)) with (2 ^ e); lia|by apply Hcut].
Qed.

End laws.

End typed.

(** ** A sample: objects of 24 bytes in pages of 4096 bytes *)
Definition sample_builder : AllocBuilder := Builder.page_size 4096 (Builder.default 24).
Definition sample_meta : Metadata := mkMeta 24 165 8 4096 64 128 10540996613548315209 3 0 99 4096 SmallSlag.
Definition sample_calls : list fcall := [FAlloc 0; FAlloc 0; FClone 0; FAlloc 1; FFree 1 65664; FDrop 1; FAlloc 0].

Lemma sample_typed_ok : typed_ok (K := ToyKernel) 12 24 (ab_eager_decommit_threshold sample_builder) (ab_max_objects sample_builder) (ab_cutoff_factor sample_builder) sample_meta.
Proof. unfold typed_ok. split_and!; try done. Qed.

Lemma sample_layout : Meta.compute_metadata 24 (2 ^ 12) 0 (ab_cutoff_factor sample_builder) (ab_max_objects sample_builder) SmallSlag = Ok sample_meta.
Proof. vm_compute. reflexivity. Qed.

Lemma slag_items p : 0 < p < 2 ^ 63 → bag_item (B := FAAQueue) (BagLaws := faa_bag_laws true) p.
Proof. exact (faa_items p). Qed.




(** The laws of the page allocator of the sample. *)
Definition sample_laws : CoarseLaws Pages (SlagMemory ToyKernel FAAQueue) := typed_laws (H0 := faa_bag_laws false) sample_builder 12 24 sample_meta faa_items sample_typed_ok.

Lemma sample_class : class_ok (H1 := sample_laws) (H3 := faa_bag_laws true) sample_meta 4096 (ab_eager_decommit_threshold sample_builder) 24 (Z.min (ab_max_objects sample_builder) (2 ^ 12)).
Proof. by apply (typed_class (H0 := faa_bag_laws false) (H2 := faa_bag_laws true)); [exact slag_items|exact sample_layout|]. Qed.

Lemma sample_pages_inv : ∃ a sh, new_aligned (SharedWeakBag0 := faa_bag false) (2 ^ 12) (ab_target_overhead sample_builder) 8 (2 ^ 12) SmallSlag toy_heap = Ok (a, sh) ∧ ca_page_size (CoarseAllocator := pages_coarse (H := faa_bag false)) a = 2 ^ 12 ∧
  ca_inv (CoarseLaws := sample_laws) (call_cost * Z.of_nat (length sample_calls) + 3) [a] (mkMemory sh ∅) [].
Proof.
  destruct (new_pages_inv (H0 := faa_bag_laws false) 12 (ab_target_overhead sample_builder) toy_heap (call_cost * Z.of_nat (length sample_calls) + 3) toy_k0_ok) as (a & sh & E & Ea & Hinv); [lia|vm_compute; split; congruence|].
  exists a, sh. split; [exact E|]. split; [cbn; unfold PA.page_size; by rewrite Ea|]. rewrite Ea in Hinv. exact Hinv.
Qed.

Lemma sample_no_slags sh p s : page_slag (P := SlagMemory ToyKernel FAAQueue) (mkMemory sh ∅) p = Some s → slag_meta s ≠ 4096.
Proof. cbn. rewrite lookup_empty. by destruct (eh_slag (ps_heap sh) !! p). Qed.

Definition sample_ca : CoarseAllocator Pages (SlagMemory ToyKernel FAAQueue) := pages_coarse (H0 := faa_bag_laws false).
Definition run_sample {FE : Type} (F : Frontend FE (CacheParams Pages) (SlagHeap (SlagMemory ToyKernel FAAQueue) FAAQueue)) mk (a : Pages) pg :=
  run_caches (H0 := sample_ca) (H2 := faa_bag true) 4096 (ab_eager_decommit_threshold sample_builder) mk (ab_max_objects sample_builder) 24 0 f0_6 a pg sample_calls.

Lemma local_cache_safe_witness : ∃ a pg r,
  r = run_sample (local_frontend (CoarseAllocator0 := sample_ca) (H0 := faa_bag_laws true) (RevocableWeakBag0 := faa_revocable true)) (local_new (CoarseAllocator0 := sample_ca) (H := faa_bag true)) a pg ∧
  (r = Fault UnwrapNone ∨ ∃ c, r = Ok c ∧ NoDup (fcf_live c)).
Proof.
  destruct sample_pages_inv as (a & sh & E & Ep & Hinv). exists a, (mkMemory sh ∅). eexists. split; [reflexivity|].
  destruct (local_cache_safe (H1 := sample_laws) (H3 := faa_bag_laws true) (RevocableLaws0 := faa_revocable_laws true) sample_meta 4096 (ab_eager_decommit_threshold sample_builder) 24 (Z.min (ab_max_objects sample_builder) (2 ^ 12))
    24 0 (ab_max_objects sample_builder) f0_6 a (mkMemory sh ∅) sample_calls sample_class) as [Ef|(c & Ec & Hn & _)];
    [rewrite Ep; exact sample_layout|exact Hinv|exact (sample_no_slags sh)|cbn; lia|left; exact Ef|right; exists c; split; [exact Ec|exact Hn]].
Defined.

Lemma magazine_cache_safe_witness : ∃ a pg r,
  r = run_sample (magazine_frontend (CoarseAllocator0 := sample_ca) (H0 := faa_bag_laws true) (RevocableWeakBag0 := faa_revocable true)) (magazine_new (CoarseAllocator0 := sample_ca) (H := faa_bag true)) a pg ∧
  (r = Fault UnwrapNone ∨ ∃ c, r = Ok c ∧ NoDup (fcf_live c)).
Proof.
  destruct sample_pages_inv as (a & sh & E & Ep & Hinv). exists a, (mkMemory sh ∅). eexists. split; [reflexivity|].
  destruct (magazine_cache_safe (H1 := sample_laws) (H3 := faa_bag_laws true) (RevocableLaws0 := faa_revocable_laws true) sample_meta 4096 (ab_eager_decommit_threshold sample_builder) 24 (Z.min (ab_max_objects sample_builder) (2 ^ 12))
    24 0 (ab_max_objects sample_builder) f0_6 a (mkMemory sh ∅) sample_calls sample_class) as [Ef|(c & Ec & Hn & _)];
    [rewrite Ep; exact sample_layout|exact Hinv|exact (sample_no_slags sh)|cbn; lia|left; exact Ef|right; exists c; split; [exact Ec|exact Hn]].
Defined.
