(* ===== verification/Depot.v ===== *)
(** * Magazines and the depot

    Models the module [magazine] of [src/elfmalloc/src/frontends.rs]: magazines,
    stacks of objects in memory of their own, the depot, two bags of empty and of
    full magazines, and [DepotCache], which caches the objects of any frontend in
    two magazines per thread.  Magazines are shared memory: handles hold their
    addresses. *)

From Stdlib Require Import ZArith Lia.
From stdpp Require Import base numbers list gmap option.
From S2P Require Import Prelude StdAlloc Backing MmapAlloc ElfSources F64 Bag BagPipe PageAlloc SlagMeta SlagBits SlagAlloc Frontends CacheSystem CoarsePages.

Open Scope Z_scope.

Record Magazine := mkMagazine { mg_top : Z; mg_cap : Z; mg_mapped : Z; mg_base : Z; mg_slots : list Z }.

(** What the threads share: the system's memory, the magazines by address, the
    bags of the depot, and what the backing frontends share. *)
Record DepotState (K B T : Type) := mkDepotState { ds_k : K; ds_mags : gmap Z Magazine; ds_empty : BagPipeState B; ds_full : BagPipeState B; ds_back : T }.
Arguments mkDepotState {K B T} ds_k ds_mags ds_empty ds_full ds_back.
Arguments ds_k {K B T} d.
Arguments ds_mags {K B T} d.
Arguments ds_empty {K B T} d.
Arguments ds_full {K B T} d.
Arguments ds_back {K B T} d.

Record Depot := mkDepot { dp_max_size : Z; dp_empty : BagPipe; dp_full : BagPipe }.

Record DepotCache (FE : Type) := mkDepotCache { dc_backing : FE; dc_depot : Depot; dc_m1 : Z; dc_m2 : Z }.
Arguments mkDepotCache {FE} dc_backing dc_depot dc_m1 dc_m2.
Arguments dc_backing {FE} d.
Arguments dc_depot {FE} d.
Arguments dc_m1 {FE} d.
Arguments dc_m2 {FE} d.

Section ops.
  Context {K : Type} `{!Kernel K} {B : Type} `{BagLaws B Z} {FE Params T : Type} `{!Frontend FE Params T}.
  Abbreviation St := (DepotState K B T).

(** The parts of the state. *)
Definition on_kernel {A} (op : M K A) : M St A := fun s =>
  '(x, k) ← op (ds_k s); Ok (x, mkDepotState k (ds_mags s) (ds_empty s) (ds_full s) (ds_back s)).
Definition on_back {A} (op : M T A) : M St A := fun s =>
  '(x, b) ← op (ds_back s); Ok (x, mkDepotState (ds_k s) (ds_mags s) (ds_empty s) (ds_full s) b).
Definition get_mag (m : Z) : M St Magazine := fun s => g ← deref (ds_mags s !! m); Ok (g, s).
Definition set_mag (m : Z) (g : Magazine) : M St unit := fun s =>
  Ok (tt, mkDepotState (ds_k s) (<[m := g]> (ds_mags s)) (ds_empty s) (ds_full s) (ds_back s)).
Definition drop_mag (m : Z) : M St unit := fun s =>
  Ok (tt, mkDepotState (ds_k s) (delete m (ds_mags s)) (ds_empty s) (ds_full s) (ds_back s)).

(** ** [Magazine] *)
Definition size_of_Magazine : Z := 32.

Definition mag_new (size : Z) : M St Z :=
  let page_size := EMap.page_size in
  _ ← lift (rassert (is_power_of_two page_size));
  words ← lift (umul 8 size);
  bytes ← lift (uadd size_of_Magazine words);
  let rem := Z.land bytes (page_size - 1) in
  n_pages ← lift (uadd (Z.shiftr bytes (trailing_zeros page_size)) (Z.min 1 rem));
  region_size ← lift (umul n_pages page_size);
  _ ← lift (rassert (bytes <=? region_size));
  mem ← on_kernel (EMap.map region_size);
  _ ← set_mag mem (mkMagazine 0 size region_size (mem + size_of_Magazine) (replicate (Z.to_nat size) 0));
  mret mem.

Definition mag_default : M St Z := mag_new 3068.

Definition mag_destroy (slf : Z) : M St unit :=
  g ← get_mag slf;
  _ ← lift (rassert (mg_base g - size_of_Magazine =? slf));
  _ ← lift (rassert (slf mod EMap.page_size =? 0));
  _ ← on_kernel (EMap.unmap slf (mg_mapped g));
  drop_mag slf.

Definition mag_push (m item : Z) : M St bool :=
  _ ← lift (rassert (negb (item =? 0)));
  g ← get_mag m;
  if mg_top g =? mg_cap g then mret false
  else
    _ ← lift (rassert (8 * mg_top g <? mg_mapped g));
    _ ← lift (deref (mg_slots g !! Z.to_nat (mg_top g)));
    t ← lift (uadd (mg_top g) 1);
    _ ← set_mag m (mkMagazine t (mg_cap g) (mg_mapped g) (mg_base g) (<[Z.to_nat (mg_top g) := item]> (mg_slots g)));
    mret true.

Definition mag_pop (m : Z) : M St (option Z) :=
  g ← get_mag m;
  if mg_top g =? 0 then mret None
  else
    t ← lift (usub (mg_top g) 1);
    res ← lift (deref (mg_slots g !! Z.to_nat t));
    _ ← lift (rassert (negb (res =? 0)));
    _ ← set_mag m (mkMagazine t (mg_cap g) (mg_mapped g) (mg_base g) (mg_slots g));
    mret (Some res).

(** ** [Depot]

    [pf] bounds the tries of [pop_mut], which goes on while pops fail for a
    transient reason. *)
Definition depot_new_size (max_size empty full : Z) : res (Depot * (BagPipeState B * BagPipeState B)) :=
  _ ← rassert (max_size <? 2 ^ 63 - 1);
  '(e, es) ← new_size empty;
  '(f, fs) ← new_size full;
  Ok (mkDepot max_size e f, (es, fs)).

Definition depot_new (num_cpus : Z) : res (Depot * (BagPipeState B * BagPipeState B)) := depot_new_size (Z.shiftl 1 20) num_cpus num_cpus.

Definition with_empty (d : Depot) (bp : BagPipe) : Depot := mkDepot (dp_max_size d) bp (dp_full d).
Definition with_full (d : Depot) (bp : BagPipe) : Depot := mkDepot (dp_max_size d) (dp_empty d) bp.

Definition empty_push (d : Depot) (m : Z) : M St Depot := fun s =>
  '(bp, st) ← push_mut (push_fuel (ds_empty s)) m (dp_empty d, ds_empty s);
  Ok (with_empty d bp, mkDepotState (ds_k s) (ds_mags s) st (ds_full s) (ds_back s)).
Definition full_push (d : Depot) (m : Z) : M St Depot := fun s =>
  '(bp, st) ← push_mut (push_fuel (ds_full s)) m (dp_full d, ds_full s);
  Ok (with_full d bp, mkDepotState (ds_k s) (ds_mags s) (ds_empty s) st (ds_back s)).
Definition empty_pop (pf : nat) (d : Depot) : M St (option Z * Depot) := fun s =>
  '(o, (bp, st)) ← pop_mut pf (dp_empty d, ds_empty s);
  Ok ((o, with_empty d bp), mkDepotState (ds_k s) (ds_mags s) st (ds_full s) (ds_back s)).
Definition full_pop (pf : nat) (d : Depot) : M St (option Z * Depot) := fun s =>
  '(o, (bp, st)) ← pop_mut pf (dp_full d, ds_full s);
  Ok ((o, with_full d bp), mkDepotState (ds_k s) (ds_mags s) (ds_empty s) st (ds_back s)).

Definition free_empty (d : Depot) (m : Z) : M St Depot := fun s =>
  (g ← get_mag m;
   _ ← lift (rassert (mg_top g =? 0));
   n ← lift (size_guess (ds_empty s));
   if dp_max_size d <=? n then _ ← mag_destroy m; mret d else empty_push d m) s.

Definition free_full (d : Depot) (m : Z) : M St (bool * Depot) := fun s =>
  (g ← get_mag m;
   _ ← lift (rassert (mg_top g =? mg_cap g));
   n ← lift (size_guess (ds_full s));
   if dp_max_size d <=? n then mret (false, d) else d ← full_push d m; mret (true, d)) s.

Definition alloc_full (pf : nat) (d : Depot) : M St (option Z * Depot) :=
  '(o, d) ← full_pop pf d;
  match o with
  | Some r => g ← get_mag r; _ ← lift (rassert (mg_top g =? mg_cap g)); mret (Some r, d)
  | None => mret (None, d)
  end.

Definition alloc_empty (pf : nat) (d : Depot) : M St (Z * Depot) :=
  '(o, d) ← empty_pop pf d;
  m ← (match o with Some m => mret m | None => mag_default end);
  g ← get_mag m;
  _ ← lift (rassert (mg_top g =? 0));
  mret (m, d).

Definition swap_empty (pf : nat) (d : Depot) (m : Z) : M St (option Z * Depot) :=
  '(o, d) ← alloc_full pf d;
  match o with
  | Some new_m => d ← free_empty d m; mret (Some new_m, d)
  | None => mret (None, d)
  end.

Definition swap_full (pf : nat) (d : Depot) (m : Z) : M St (option Z * Depot) :=
  '(ok, d) ← free_full d m;
  if (ok : bool) then '(m', d) ← alloc_empty pf d; mret (Some m', d) else mret (None, d).

Definition depot_clone (d : Depot) : M St Depot := fun s =>
  '(e, es) ← clone (ds_empty s);
  '(f, fs) ← clone (ds_full s);
  Ok (mkDepot (dp_max_size d) e f, mkDepotState (ds_k s) (ds_mags s) es fs (ds_back s)).

Definition depot_drop (d : Depot) : M St unit := fun s =>
  es ← drop_pipe (dp_empty d, ds_empty s);
  fs ← drop_pipe (dp_full d, ds_full s);
  Ok (tt, mkDepotState (ds_k s) (ds_mags s) es fs (ds_back s)).

(** ** [DepotCache] *)
Definition depot_cache_new (pf : nat) (backing : FE) (d : Depot) : M St (DepotCache FE) :=
  '(o, d) ← alloc_full pf d;
  '(m1, d) ← (match o with Some m => mret (m, d) | None => alloc_empty pf d end);
  '(m2, d) ← alloc_empty pf d;
  mret (mkDepotCache backing d m1 m2).

Definition depot_cache_init (pf : nat) (p : Params * Depot) : M St (DepotCache FE) :=
  backing ← on_back (fe_init p.1);
  d ← depot_clone p.2;
  depot_cache_new pf backing d.

(** The derived [Clone]: field by field. *)
Definition depot_cache_clone (c : DepotCache FE) : M St (DepotCache FE) :=
  backing ← on_back (fe_clone (dc_backing c));
  d ← depot_clone (dc_depot c);
  mret (mkDepotCache backing d (dc_m1 c) (dc_m2 c)).

(** [for _ in 0..cap]: fill a magazine. *)
Fixpoint refill (n : nat) (m : Z) (f : FE) : M St FE :=
  match n with
  | O => mret f
  | S n => '(x, f) ← on_back (fe_alloc f); r ← mag_push m x; _ ← lift (rassert r); refill n m f
  end.

(** [while let Some(x) = m.pop()]: return the objects of a magazine. *)
Fixpoint unload (fuel : nat) (m : Z) (f : FE) : M St FE :=
  match fuel with
  | O => throw NoFuel
  | S n =>
      o ← mag_pop m;
      match o with
      | Some x => f ← on_back (fe_free f x); unload n m f
      | None => mret f
      end
  end.

(** Each round takes an object out. *)
Definition unload_all (m : Z) (f : FE) : M St FE := g ← get_mag m; unload (S (Z.to_nat (mg_top g))) m f.

Definition depot_cache_alloc (pf : nat) (c : DepotCache FE) : M St (Z * DepotCache FE) :=
  o ← mag_pop (dc_m1 c);
  match o with
  | Some p => mret (p, c)
  | None =>
      let c := mkDepotCache (dc_backing c) (dc_depot c) (dc_m2 c) (dc_m1 c) in
      o ← mag_pop (dc_m1 c);
      match o with
      | Some p => mret (p, c)
      | None =>
          '(o, d) ← swap_empty pf (dc_depot c) (dc_m1 c);
          c ← (match o with
            | Some m => mret (mkDepotCache (dc_backing c) d m (dc_m2 c))
            | None =>
                g ← get_mag (dc_m1 c);
                f ← refill (Z.to_nat (mg_cap g)) (dc_m1 c) (dc_backing c);
                mret (mkDepotCache f d (dc_m1 c) (dc_m2 c))
            end);
          o ← mag_pop (dc_m1 c);
          match o with Some p => mret (p, c) | None => throw Panicked end
      end
  end.

Definition depot_cache_free (pf : nat) (c : DepotCache FE) (item : Z) : M St (DepotCache FE) :=
  r ← mag_push (dc_m1 c) item;
  if (r : bool) then mret c
  else
    let c := mkDepotCache (dc_backing c) (dc_depot c) (dc_m2 c) (dc_m1 c) in
    r ← mag_push (dc_m1 c) item;
    if (r : bool) then mret c
    else
      '(o, d) ← swap_full pf (dc_depot c) (dc_m1 c);
      c ← (match o with
        | Some m => mret (mkDepotCache (dc_backing c) d m (dc_m2 c))
        | None => f ← unload_all (dc_m1 c) (dc_backing c); mret (mkDepotCache f d (dc_m1 c) (dc_m2 c))
        end);
      r ← mag_push (dc_m1 c) item;
      _ ← lift (rassert r);
      mret c.

(** [Drop], and the drop of the fields after it. *)
Definition depot_cache_drop (c : DepotCache FE) : M St unit :=
  f ← unload_all (dc_m1 c) (dc_backing c);
  d ← free_empty (dc_depot c) (dc_m1 c);
  f ← unload_all (dc_m2 c) f;
  d ← free_empty d (dc_m2 c);
  _ ← on_back (fe_drop f);
  depot_drop d.
End ops.

(** ** Magazines in memory *)
Definition mag_cap : Z := 3068.

(** A magazine at [m] that holds [l], its top at the end. *)
Record mag_is (g : Magazine) (m : Z) (l : list Z) : Prop := {
  mi_top : mg_top g = Z.of_nat (length l);
  mi_cap : mg_cap g = mag_cap;
  mi_slots : Z.of_nat (length (mg_slots g)) = mag_cap;
  mi_items : take (length l) (mg_slots g) = l;
  mi_mapped : 8 * mag_cap ≤ mg_mapped g < 2 ^ 62;
  mi_base : mg_base g = m + size_of_Magazine
}.

Definition mag_objects (g : Magazine) : list Z := take (Z.to_nat (mg_top g)) (mg_slots g).
Definition objs (mags : gmap Z Magazine) (m : Z) : list Z := from_option mag_objects [] (mags !! m).

Lemma objs_is mags g m l : mags !! m = Some g → mag_is g m l → objs mags m = l.
Proof. intros E [Ht _ _ Hi _ _]. unfold objs, mag_objects. rewrite E. cbn. by rewrite Ht, Nat2Z.id. Qed.

Lemma mag_room g m l : mag_is g m l → Z.of_nat (length l) ≤ mag_cap.
Proof. intros [Ht _ Hs Hi _ _]. apply (f_equal length) in Hi. rewrite length_take in Hi. lia. Qed.

Lemma bind_insert mags m g (A : list Z) : m ∉ A → A ≫= objs (<[m := g]> mags) = A ≫= objs mags.
Proof.
  induction A as [|x A IH]; intros Hm; [done|]. apply not_elem_of_cons in Hm as [Hne Hm]. rewrite !bind_cons, IH by done. unfold objs at 1. by rewrite lookup_insert_ne by done.
Qed.

Lemma bind_delete mags m (A : list Z) : m ∉ A → A ≫= objs (delete m mags) = A ≫= objs mags.
Proof.
  induction A as [|x A IH]; intros Hm; [done|]. apply not_elem_of_cons in Hm as [Hne Hm]. rewrite !bind_cons, IH by done. unfold objs at 1. by rewrite lookup_delete_ne by done.
Qed.

Section magazines.
  Context {K : Type} `{!Kernel K}.

(** The magazines [A] are in mapped memory, apart from each other. *)
Record mags_in (k : K) (mags : gmap Z Magazine) (A : list Z) : Prop := {
  ma_nodup : NoDup A;
  ma_is m : m ∈ A → ∃ g, mags !! m = Some g ∧ mag_is g m (objs mags m) ∧ 0 < m ∧ (k_page | m) ∧ m + mg_mapped g ≤ 2 ^ 63 ∧ pages_of k_page m (mg_mapped g) ⊆ k_mapped k;
  ma_apart m m' g g' : m ∈ A → m' ∈ A → m ≠ m' → mags !! m = Some g → mags !! m' = Some g' → pages_of k_page m (mg_mapped g) ## pages_of k_page m' (mg_mapped g')
}.

Lemma mags_perm k mags A A' : mags_in k mags A → A ≡ₚ A' → mags_in k mags A'.
Proof. intros [M1 M2 M3] Hp. split; [by rewrite <- Hp|intros m; rewrite <- Hp; apply M2|intros m m' g g'; rewrite <- Hp; apply M3]. Qed.

(** One magazine changes. *)
Lemma mags_update k mags A m g g' l : mags_in k mags A → m ∈ A → mags !! m = Some g → mag_is g' m l → mg_mapped g' = mg_mapped g →
  mags_in k (<[m := g']> mags) A ∧ objs (<[m := g']> mags) m = l.
Proof.
  intros [M1 M2 M3] Hm Eg Hl Emap. assert (El : objs (<[m := g']> mags) m = l) by (eapply objs_is; [apply lookup_insert_eq|done]). split; [|done].
  assert (Hsame : ∀ q g0, <[m := g']> mags !! q = Some g0 → ∃ g1, mags !! q = Some g1 ∧ mg_mapped g0 = mg_mapped g1).
  { intros q g0. destruct (decide (m = q)) as [<-|Hne]; [rewrite lookup_insert_eq; intros [= <-]; eauto|rewrite lookup_insert_ne by done; eauto]. }
  split; [done| |].
  - intros q Hq. destruct (M2 q Hq) as (g0 & E0 & Hi & H1 & H2 & H3 & H4). destruct (decide (m = q)) as [<-|Hne].
    + rewrite Eg in E0. injection E0 as <-. exists g'. rewrite lookup_insert_eq, El, Emap. by split_and!.
    + exists g0. unfold objs. rewrite lookup_insert_ne by done. by split_and!.
  - intros q q' g0 g0' Hq Hq' Hne E0 E0'. destruct (Hsame q g0 E0) as (g1 & E1 & ->), (Hsame q' g0' E0') as (g1' & E1' & ->). by eapply M3.
Qed.

(** A new magazine, in fresh memory. *)
Lemma mags_add k k' mags A m g : mags_in k mags A → fresh_region k m (mg_mapped g) k' → mag_is g m [] → mags_in k' (<[m := g]> mags) (m :: A) ∧ objs (<[m := g]> mags) m = [].
Proof.
  intros [M1 M2 M3] (F1 & F2 & F3 & F4 & F5 & _) Hg. pose proof k_page_pos as HP. assert (El : objs (<[m := g]> mags) m = []) by (eapply objs_is; [apply lookup_insert_eq|done]). split; [|done].
  pose proof (mi_mapped _ _ _ Hg) as Hmp. unfold mag_cap in Hmp. assert (Hout : ∀ q g0, q ∈ A → mags !! q = Some g0 → q ≠ m ∧ pages_of k_page m (mg_mapped g) ## pages_of k_page q (mg_mapped g0)).
  { intros q g0 Hq E0. destruct (M2 q Hq) as (g1 & E1 & Hi & Q1 & Q2 & Q3 & Q4). rewrite E0 in E1. injection E1 as <-. split; [|intros z Hz Hz0; by apply (F4 z), Q4]. intros ->.
    pose proof (mi_mapped _ _ _ Hi) as Hmp'. unfold mag_cap in Hmp'. assert (Hh : m / k_page ∈ pages_of k_page m (mg_mapped g)) by (apply pages_head; [lia|done|lia]).
    assert (Hh' : m / k_page ∈ pages_of k_page m (mg_mapped g0)) by (apply pages_head; [lia|done|lia]). apply (F4 (m / k_page)); [done|by apply Q4]. }
  assert (Hm : m ∉ A) by (intros Hm; destruct (M2 m Hm) as (g0 & E0 & _); by destruct (Hout m g0 Hm E0)).
  split; [by constructor| |].
  - intros q [->|Hq]%elem_of_cons; [exists g; rewrite lookup_insert_eq, El, F5; split_and!; try done; intros z Hz; apply elem_of_union; auto|]. assert (q ≠ m) by (by intros ->).
    destruct (M2 q Hq) as (g0 & E0 & Hi & Q1 & Q2 & Q3 & Q4). exists g0. unfold objs. rewrite lookup_insert_ne by done. split_and!; try done. rewrite F5. intros z Hz. apply elem_of_union. auto.
  - intros q q' g0 g0' [->|Hq]%elem_of_cons [->|Hq']%elem_of_cons Hne; [done| | |].
    + rewrite lookup_insert_eq, lookup_insert_ne by done. intros [= <-] E'. by apply Hout.
    + rewrite lookup_insert_eq, lookup_insert_ne by done. intros E [= <-]. symmetry. by apply Hout.
    + assert (q ≠ m ∧ q' ≠ m) as [? ?] by (split; by intros ->). rewrite !lookup_insert_ne by done. by apply M3.
Qed.

(** A magazine is unmapped. *)
Lemma mags_remove k k' mags A m g : mags_in k mags (m :: A) → mags !! m = Some g → k_mapped k' = k_mapped k ∖ pages_of k_page m (mg_mapped g) → mags_in k' (delete m mags) A.
Proof.
  intros [M1 M2 M3] Eg Hk. apply list.NoDup_cons in M1 as [Hm M1]. split; [done| |].
  - intros q Hq. assert (Hne : q ≠ m) by (by intros ->). destruct (M2 q) as (g0 & E0 & Hi & Q1 & Q2 & Q3 & Q4); [by right|]. exists g0. unfold objs. rewrite lookup_delete_ne by done. split_and!; try done.
    rewrite Hk. pose proof (M3 m q g g0 ltac:(left) ltac:(by right) ltac:(done) Eg E0) as Hd. intros z Hz. apply elem_of_difference. split; [by apply Q4|]. intros Hz'. by apply (Hd z).
  - intros q q' g0 g0' Hq Hq' Hne. assert (q ≠ m ∧ q' ≠ m) as [? ?] by (split; by intros ->). rewrite !lookup_delete_ne by done. apply M3; [by right|by right|done].
Qed.
End magazines.

(** ** A depot and its caches *)
Section depot.
  Context {K : Type} `{!Kernel K} {B : Type} `{BagLaws B Z} {FE Params T : Type} `{!Frontend FE Params T} {tmpl : option Params} `{!FrontendLaws FE Params T tmpl}.
  Hypothesis Hitem : ∀ p, 0 < p < 2 ^ 63 → bag_item p.
  Abbreviation St := (DepotState K B T).
  Implicit Types (s : St) (hs : list Depot) (C A live : list Z) (fes : list (option FE)).

Definition all_mags C s : list Z := C ++ contents (ds_empty s) ++ contents (ds_full s).

(** The magazines [C] are with the caches, whose handles on the depot are [hs] and
    whose frontends are [fes]; [live] are the objects with the clients.  There is
    room for [n] failures of a handle and [nb] calls of the frontends. *)
Record depot_inv (n nb m V : Z) hs C fes s live : Prop := {
  dv_empty : pool n m V (ds_empty s) (dp_empty <$> hs);
  dv_full : pool n m V (ds_full s) (dp_full <$> hs);
  dv_k : k_ok (ds_k s);
  dv_mags : mags_in (ds_k s) (ds_mags s) (all_mags C s);
  dv_e q : q ∈ contents (ds_empty s) → objs (ds_mags s) q = [];
  dv_f q : q ∈ contents (ds_full s) → Z.of_nat (length (objs (ds_mags s) q)) = mag_cap;
  dv_back : fe_inv nb fes (ds_back s) (live ++ (all_mags C s ≫= objs (ds_mags s)))
}.

Lemma depot_perm n nb m V hs C C' fes s live : depot_inv n nb m V hs C fes s live → C ≡ₚ C' → depot_inv n nb m V hs C' fes s live.
Proof.
  intros [] Hp. split; try done; [eapply mags_perm; [done|]; unfold all_mags; by rewrite Hp|]. eapply fe_perm_law; [done|]. apply Permutation_app_head. unfold all_mags. by rewrite Hp.
Qed.

Lemma depot_mono n n' nb nb' m V V' hs C fes s live : depot_inv n nb m V hs C fes s live → n' ≤ n → 0 ≤ nb' ≤ nb → V ≤ V' → depot_inv n' nb' m V' hs C fes s live.
Proof. intros [] Hn Hnb HV. split; try done; [by eapply pool_mono|by eapply pool_mono|by eapply fe_mono_law]. Qed.

Lemma depot_bags n n' nb m V V' hs C fes s live : depot_inv n nb m V hs C fes s live → n' ≤ n → V ≤ V' → depot_inv n' nb m V' hs C fes s live.
Proof. intros [] Hn HV. split; try done; by eapply pool_mono. Qed.

(** The magazine of a cache. *)
Lemma depot_mag n nb m V hs C fes s live q : depot_inv n nb m V hs C fes s live → q ∈ C → ∃ g, ds_mags s !! q = Some g ∧ mag_is g q (objs (ds_mags s) q).
Proof. intros Hi Hq. destruct (ma_is _ _ _ (dv_mags _ _ _ _ _ _ _ _ _ Hi) q) as (g & E & Hg & _); [by apply elem_of_app; left|]. eauto. Qed.

(** Objects are addresses. *)
Lemma depot_object n nb m V hs C fes s live q x : depot_inv n nb m V hs C fes s live → q ∈ C → x ∈ objs (ds_mags s) q → x ≠ 0.
Proof.
  intros Hi Hq Hx. destruct (fe_live_law _ _ _ _ (dv_back _ _ _ _ _ _ _ _ _ Hi)) as [_ Hall]. assert (0 < x < 2 ^ 63); [|lia]. apply Hall. apply elem_of_app. right. apply list_elem_of_bind.
  exists q. split; [done|]. by apply elem_of_app; left.
Qed.

(** A cache changes the objects of its magazine. *)
Lemma depot_set n nb m V hs C fes s live live' q g g' l : depot_inv n nb m V hs (q :: C) fes s live → ds_mags s !! q = Some g → mag_is g' q l → mg_mapped g' = mg_mapped g →
  live' ++ l ≡ₚ live ++ objs (ds_mags s) q →
  depot_inv n nb m V hs (q :: C) fes (mkDepotState (ds_k s) (<[q := g']> (ds_mags s)) (ds_empty s) (ds_full s) (ds_back s)) live' ∧ objs (<[q := g']> (ds_mags s)) q = l ∧
  (∀ r, r ≠ q → objs (<[q := g']> (ds_mags s)) r = objs (ds_mags s) r).
Proof.
  intros [D1 D2 D3 D4 D5 D6 D7] Eg Hl Emap Hlive. pose proof (ma_nodup _ _ _ D4) as Hnd. cbn [all_mags app] in Hnd. apply list.NoDup_cons in Hnd as [Hq _].
  destruct (mags_update _ _ _ q g g' l D4 ltac:(left) Eg Hl Emap) as [Hm El].
  assert (Ho : ∀ r, r ≠ q → objs (<[q := g']> (ds_mags s)) r = objs (ds_mags s) r) by (intros r Hr; unfold objs; by rewrite lookup_insert_ne by done).
  split; [|done]. split; cbn [ds_k ds_mags ds_empty ds_full ds_back]; try done.
  - intros r Hr. rewrite Ho by (intros ->; set_solver). by apply D5.
  - intros r Hr. rewrite Ho by (intros ->; set_solver). by apply D6.
  - eapply fe_perm_law; [exact D7|]. unfold all_mags in *. cbn [app ds_empty ds_full] in *. rewrite !bind_cons, El, bind_insert by done. by rewrite !app_assoc, Hlive.
Qed.

Lemma mag_take g q l x : mag_is g q (l ++ [x]) → mag_is (mkMagazine (Z.of_nat (length l)) (mg_cap g) (mg_mapped g) (mg_base g) (mg_slots g)) q l.
Proof.
  intros [M1 M2 M3 M4 M5 M6]. split; cbn; try done. rewrite length_app in M4. apply (f_equal (take (length l))) in M4. rewrite take_take, take_app_length in M4. by rewrite Nat.min_l in M4 by lia.
Qed.

Lemma pop_nil n nb m V hs C fes s live q : depot_inv n nb m V hs C fes s live → q ∈ C → objs (ds_mags s) q = [] → mag_pop q s = Ok (None, s).
Proof.
  intros Hi Hq E. destruct (depot_mag _ _ _ _ _ _ _ _ _ _ Hi Hq) as (g & Eg & Hg). rewrite E in Hg. unfold mag_pop. rewrite (M_bind_run _ _ _ g s) by (unfold get_mag; by rewrite Eg).
  by rewrite (mi_top _ _ _ Hg).
Qed.

Lemma pop_some n nb m V hs C fes s live q l x : depot_inv n nb m V hs (q :: C) fes s live → objs (ds_mags s) q = l ++ [x] →
  ∃ s', mag_pop q s = Ok (Some x, s') ∧ depot_inv n nb m V hs (q :: C) fes s' (x :: live) ∧ objs (ds_mags s') q = l.
Proof.
  intros Hi E. destruct (depot_mag _ _ _ _ _ _ _ _ _ q Hi ltac:(left)) as (g & Eg & Hg). rewrite E in Hg. pose proof (depot_object _ _ _ _ _ _ _ _ _ q x Hi ltac:(left) ltac:(rewrite E; set_solver)) as Hx.
  pose proof (mi_top _ _ _ Hg) as Ht. rewrite length_app in Ht. cbn in Ht. assert (Hlk : mg_slots g !! length l = Some x).
  { pose proof (mi_items _ _ _ Hg) as Hit. assert (Hlk : (l ++ [x]) !! length l = Some x) by (by apply list_lookup_middle). rewrite <- Hit in Hlk. by apply lookup_take_Some in Hlk as [-> _]. }
  unfold mag_pop. rewrite (M_bind_run _ _ _ g s) by (unfold get_mag; by rewrite Eg). rewrite (proj2 (Z.eqb_neq _ _)) by lia.
  rewrite (lift_bind _ (mg_top g - 1)) by (apply usub_Ok; lia). replace (mg_top g - 1) with (Z.of_nat (length l)) by lia. rewrite Nat2Z.id, (lift_bind _ x) by (by rewrite Hlk).
  rewrite lift_assert by (by rewrite (proj2 (Z.eqb_neq x 0))). unfold mbind at 1, M_bind at 1, set_mag. eexists. split; [reflexivity|].
  destruct (depot_set n nb m V hs C fes s live (x :: live) q g _ l Hi Eg (mag_take g q l x Hg) eq_refl) as (Hi' & El & _); [rewrite E; solve_Permutation|]. by split.
Qed.

Lemma mag_put g q l x : mag_is g q l → Z.of_nat (length l) < mag_cap → mag_is (mkMagazine (Z.of_nat (length l) + 1) (mg_cap g) (mg_mapped g) (mg_base g) (<[length l := x]> (mg_slots g))) q (l ++ [x]).
Proof.
  intros [M1 M2 M3 M4 M5 M6] Hlt. destruct (lookup_lt_is_Some_2 (mg_slots g) (length l)) as [y Hy]; [lia|].
  assert (Hx : <[length l := x]> (mg_slots g) = l ++ x :: drop (S (length l)) (mg_slots g)).
  { rewrite <- (take_drop_middle _ _ _ Hy) at 1. rewrite M4. by rewrite insert_app_r_alt, Nat.sub_diag by done. }
  split; cbn; try done; [rewrite length_app; cbn; lia|by rewrite length_insert|]. rewrite Hx, length_app. cbn. rewrite cons_middle, app_assoc. apply take_app_length'. rewrite length_app. cbn. lia.
Qed.

Lemma push_some n nb m V hs C fes s live q x : depot_inv n nb m V hs (q :: C) fes s (x :: live) → Z.of_nat (length (objs (ds_mags s) q)) < mag_cap →
  ∃ s', mag_push q x s = Ok (true, s') ∧ depot_inv n nb m V hs (q :: C) fes s' live ∧ objs (ds_mags s') q = objs (ds_mags s) q ++ [x] ∧ ∀ r, r ≠ q → objs (ds_mags s') r = objs (ds_mags s) r.
Proof.
  intros Hi Hlt. destruct (depot_mag _ _ _ _ _ _ _ _ _ q Hi ltac:(left)) as (g & Eg & Hg). set (l := objs (ds_mags s) q) in *.
  destruct (fe_live_law _ _ _ _ (dv_back _ _ _ _ _ _ _ _ _ Hi)) as [_ Hall]. assert (Hx : 0 < x < 2 ^ 63) by (apply Hall; left). pose proof Hg as [M1 M2 M3 M4 M5 M6]. unfold mag_cap in *.
  unfold mag_push. rewrite lift_assert by (by rewrite (proj2 (Z.eqb_neq x 0)) by lia). rewrite (M_bind_run _ _ _ g s) by (unfold get_mag; by rewrite Eg).
  rewrite (proj2 (Z.eqb_neq _ _)) by lia. rewrite lift_assert by (apply Z.ltb_lt; lia). rewrite M1, Nat2Z.id.
  destruct (lookup_lt_is_Some_2 (mg_slots g) (length l)) as [y Hy]; [lia|]. rewrite (lift_bind _ y) by (by rewrite Hy). rewrite (lift_bind _ (Z.of_nat (length l) + 1)) by (apply uadd_Ok; lia).
  unfold mbind at 1, M_bind at 1, set_mag. eexists. split; [reflexivity|].
  destruct (depot_set n nb m V hs C fes s (x :: live) live q g _ (l ++ [x]) Hi Eg (mag_put g q l x Hg ltac:(unfold mag_cap; lia)) eq_refl) as (Hi' & El & Ho); [fold l; solve_Permutation|]. by split_and!.
Qed.

Lemma push_none n nb m V hs C fes s live q x : depot_inv n nb m V hs C fes s (x :: live) → q ∈ C → Z.of_nat (length (objs (ds_mags s) q)) = mag_cap → mag_push q x s = Ok (false, s).
Proof.
  intros Hi Hq Hl. destruct (depot_mag _ _ _ _ _ _ _ _ _ q Hi Hq) as (g & Eg & Hg). destruct (fe_live_law _ _ _ _ (dv_back _ _ _ _ _ _ _ _ _ Hi)) as [_ Hall]. assert (Hx : 0 < x < 2 ^ 63) by (apply Hall; left).
  unfold mag_push. rewrite lift_assert by (by rewrite (proj2 (Z.eqb_neq x 0)) by lia). rewrite (M_bind_run _ _ _ g s) by (unfold get_mag; by rewrite Eg).
  by rewrite (proj2 (Z.eqb_eq _ _)) by (rewrite (mi_top _ _ _ Hg), (mi_cap _ _ _ Hg); done).
Qed.

(** ** The backing frontends *)
Lemma back_alloc n nb m V hs C fes s live i f : depot_inv n (nb + 1) m V hs C fes s live → fes !! i = Some (Some f) → 0 ≤ nb →
  on_back (fe_alloc f) s = Fault UnwrapNone ∨
  ∃ x f' s', on_back (fe_alloc f) s = Ok ((x, f'), s') ∧ depot_inv n nb m V hs C (<[i := Some f']> fes) s' (x :: live) ∧ ds_mags s' = ds_mags s.
Proof.
  intros [D1 D2 D3 D4 D5 D6 D7] Hi Hnb. unfold on_back. destruct (fe_alloc_law nb fes _ _ i f D7 Hi Hnb) as [E|(x & f' & b & E & Hb)]; rewrite E; [by left|right]. rewrite bind_Ok. eexists x, f', _. split; [done|]. by split.
Qed.

Lemma back_free n nb m V hs C fes s live i f x : depot_inv n (nb + 1) m V hs C fes s (x :: live) → fes !! i = Some (Some f) → 0 ≤ nb →
  ∃ f' s', on_back (fe_free f x) s = Ok (f', s') ∧ depot_inv n nb m V hs C (<[i := Some f']> fes) s' live ∧ ds_mags s' = ds_mags s.
Proof.
  intros [D1 D2 D3 D4 D5 D6 D7] Hi Hnb. unfold on_back. destruct (fe_free_law nb fes _ (live ++ (all_mags C s ≫= objs (ds_mags s))) i f x D7 Hi Hnb) as (f' & b & E & Hb). rewrite E, bind_Ok. eexists f', _. split; [done|]. by split.
Qed.

Lemma refill_ok j : ∀ n nb m V hs C fes s live i f q, depot_inv n (nb + Z.of_nat j) m V hs (q :: C) fes s live → fes !! i = Some (Some f) → 0 ≤ nb → Z.of_nat (length (objs (ds_mags s) q) + j) ≤ mag_cap →
  refill j q f s = Fault UnwrapNone ∨
  ∃ f' s', refill j q f s = Ok (f', s') ∧ depot_inv n nb m V hs (q :: C) (<[i := Some f']> fes) s' live ∧ length (objs (ds_mags s') q) = (length (objs (ds_mags s) q) + j)%nat.
Proof.
  induction j as [|j IH]; intros n nb m V hs C fes s live i f q Hinv Hi Hnb Hcap; cbn [refill].
  { right. exists f, s. rewrite list_insert_id by done. rewrite Z.add_0_r in Hinv. split_and!; [done|done|lia]. }
  replace (nb + Z.of_nat (S j)) with (nb + Z.of_nat j + 1) in Hinv by lia. destruct (back_alloc _ _ _ _ _ _ _ _ _ i f Hinv Hi ltac:(lia)) as [E|(x & f1 & s1 & E1 & Hi1 & Em1)]; [left; by apply M_bind_fault|].
  rewrite (M_bind_run _ _ _ _ _ E1). destruct (push_some _ _ _ _ _ _ _ _ _ q x Hi1) as (s2 & E2 & Hi2 & El2 & _); [rewrite Em1; lia|]. rewrite (M_bind_run _ _ _ _ _ E2), lift_assert by done.
  rewrite Em1 in El2. assert (Hl2 : length (objs (ds_mags s2) q) = S (length (objs (ds_mags s) q))) by (rewrite El2, length_app; cbn; lia).
  destruct (IH n nb m V hs C _ s2 live i f1 q Hi2) as [E|(f' & s' & E & Hi' & Hl')]; [apply list_lookup_insert_eq; by eapply lookup_lt_Some|done|lia|by left|right].
  exists f', s'. rewrite list_insert_insert_eq in Hi'. split_and!; [done|done|lia].
Qed.

Lemma unload_ok j : ∀ n nb m V hs C fes s live i f q, depot_inv n (nb + Z.of_nat (length (objs (ds_mags s) q))) m V hs (q :: C) fes s live → fes !! i = Some (Some f) → 0 ≤ nb → (length (objs (ds_mags s) q) < j)%nat →
  ∃ f' s', unload j q f s = Ok (f', s') ∧ depot_inv n nb m V hs (q :: C) (<[i := Some f']> fes) s' live ∧ objs (ds_mags s') q = [].
Proof.
  induction j as [|j IH]; intros n nb m V hs C fes s live i f q Hinv Hi Hnb Hj; [lia|]. cbn [unload]. destruct (snoc_cases (objs (ds_mags s) q)) as [El|(l & x & El)].
  { rewrite (M_bind_run _ _ _ _ _ (pop_nil _ _ _ _ _ _ _ _ _ q Hinv ltac:(left) El)). exists f, s. rewrite list_insert_id by done. rewrite El, Z.add_0_r in Hinv. by split_and!. }
  assert (Hlen : length (objs (ds_mags s) q) = S (length l)) by (rewrite El, length_app; cbn; lia).
  destruct (pop_some _ _ _ _ _ _ _ _ _ q l x Hinv El) as (s1 & E1 & Hi1 & El1). rewrite (M_bind_run _ _ _ _ _ E1).
  destruct (back_free n (nb + Z.of_nat (length l)) m V hs (q :: C) fes s1 live i f x) as (f2 & s2 & E2 & Hi2 & Em2); [|done|lia|].
  { replace (nb + Z.of_nat (length l) + 1) with (nb + Z.of_nat (length (objs (ds_mags s) q))) by lia. done. }
  rewrite (M_bind_run _ _ _ _ _ E2). rewrite <- Em2 in El1. destruct (IH n nb m V hs C (<[i := Some f2]> fes) s2 live i f2 q) as (f' & s' & E & Hi' & El'); [by rewrite El1|apply list_lookup_insert_eq; by eapply lookup_lt_Some|done|rewrite El1; lia|].
  exists f', s'. rewrite list_insert_insert_eq in Hi'. by split_and!.
Qed.

Lemma unload_all_ok n nb m V hs C fes s live i f q : depot_inv n (nb + mag_cap) m V hs (q :: C) fes s live → fes !! i = Some (Some f) → 0 ≤ nb →
  ∃ f' s', unload_all q f s = Ok (f', s') ∧ depot_inv n nb m V hs (q :: C) (<[i := Some f']> fes) s' live ∧ objs (ds_mags s') q = [].
Proof.
  intros Hinv Hi Hnb. destruct (depot_mag _ _ _ _ _ _ _ _ _ q Hinv ltac:(left)) as (g & Eg & Hg). unfold unload_all. rewrite (M_bind_run _ _ _ g s) by (unfold get_mag; by rewrite Eg).
  pose proof (mi_top _ _ _ Hg) as Ht. pose proof (mag_room _ _ _ Hg). eapply unload_ok; [|done|done|lia]. eapply depot_mono; [exact Hinv|lia|lia|lia].
Qed.

(** ** The depot *)

(** Enough tries for a pop of the bag [st]. *)
Definition enough (pf : nat) (st : BagPipeState B) : Prop := (0 < pf)%nat ∧ (Z.of_nat (pop_total st) + 1) * len st ≤ 2 * Z.of_nat pf - 2.

Lemma pool_pop_mut n m V st bps i bp pf : pool (n + Z.of_nat pf) m V st bps → bps !! i = Some bp → 0 ≤ n → enough pf st →
  ∃ o bp' st', pop_mut pf (bp, st) = Ok (o, (bp', st')) ∧ pool n m (V + 1) st' (<[i := bp']> bps) ∧ contents st ≡ₚ option_list o ++ contents st' ∧ enough pf st'.
Proof.
  intros Hp Hi Hn [Hf0 Hf]. pose proof (pool_handle _ _ _ _ _ _ _ Hp Hi) as Hg. pose proof (room_pop _ _ (proj1 Hg)) as [Hpf _]. cbn in Hpf.
  destruct (pop_mut_ok pf n (bp, st) Hg Hn) as (o & [bp' st'] & E & Hg' & Hk & Hc & _ & Hb & Ht); [cbn; lia|done|]. exists o, bp', st'. split; [done|]. split; [|split; [done|split; [done|]]].
  - pose proof (pool_update (n + Z.of_nat pf) n m V st bps i bp (bp', st') [] (option_list o) Hp Hi Hg' ltac:(lia) Hk Hc Hb) as Hnew. eapply pool_mono; [exact Hnew|lia|]. destruct o; cbn; lia.
  - destruct Hk as (_ & _ & El). cbn in El, Ht. rewrite El. pose proof (len_bound st (proj2 Hg)). nia.
Qed.

Lemma handle_same {X} (g : Depot → X) hs (i : nat) d d' : hs !! i = Some d → g d' = g d → g <$> <[i := d']> hs = g <$> hs.
Proof. intros Hi E. rewrite list_fmap_insert, E. apply list_insert_id. by rewrite list_lookup_fmap, Hi. Qed.

Lemma alloc_full_ok n nb m V hs C fes s live i d pf : depot_inv (n + Z.of_nat pf) nb m V hs C fes s live → hs !! i = Some d → 0 ≤ n → enough pf (ds_full s) →
  ∃ o d' s', alloc_full pf d s = Ok ((o, d'), s') ∧ dp_max_size d' = dp_max_size d ∧ ds_mags s' = ds_mags s ∧ ds_empty s' = ds_empty s ∧
    depot_inv n nb m (V + 1) (<[i := d']> hs) (option_list o ++ C) fes s' live ∧ (∀ q, o = Some q → Z.of_nat (length (objs (ds_mags s') q)) = mag_cap).
Proof.
  intros Hinv Hi Hn Hf. pose proof Hinv as [D1 D2 D3 D4 D5 D6 D7]. destruct (pool_pop_mut n m V (ds_full s) (dp_full <$> hs) i (dp_full d) pf D2) as (o & bp & st & E & Hp & Hc & _); [by rewrite list_lookup_fmap, Hi|done|done|].
  set (s1 := mkDepotState (ds_k s) (ds_mags s) (ds_empty s) st (ds_back s)). assert (E1 : full_pop pf d s = Ok ((o, with_full d bp), s1)) by (unfold full_pop; by rewrite E).
  assert (Hall : all_mags (option_list o ++ C) s1 ≡ₚ all_mags C s) by (unfold all_mags; cbn [s1 ds_empty ds_full]; rewrite Hc; solve_Permutation).
  assert (Hinv1 : depot_inv n nb m (V + 1) (<[i := with_full d bp]> hs) (option_list o ++ C) fes s1 live).
  { split; cbn [s1 ds_k ds_mags ds_empty ds_full ds_back]; try done.
    - rewrite (handle_same dp_empty hs i d) by done. eapply pool_mono; [exact D1|lia|lia].
    - by rewrite list_fmap_insert.
    - eapply mags_perm; [exact D4|by symmetry].
    - intros q Hq. apply D6. rewrite Hc. apply elem_of_app. by right.
    - eapply fe_perm_law; [exact D7|]. by rewrite Hall. }
  unfold alloc_full. rewrite (M_bind_run _ _ _ _ _ E1). destruct o as [q|]; [|exists None, (with_full d bp), s1; by split_and!].
  assert (Hq : Z.of_nat (length (objs (ds_mags s) q)) = mag_cap) by (apply D6; rewrite Hc; left). destruct (depot_mag _ _ _ _ _ _ _ _ _ q Hinv1 ltac:(left)) as (g & Eg & Hg).
  rewrite (M_bind_run _ _ _ g s1) by (unfold get_mag; by rewrite Eg). rewrite lift_assert by (apply Z.eqb_eq; rewrite (mi_top _ _ _ Hg), (mi_cap _ _ _ Hg); exact Hq).
  exists (Some q), (with_full d bp), s1. split_and!; try done. by intros q' [= <-].
Qed.

(** The size of a magazine's region. *)
Lemma region_round (P b : Z) : 0 < P → 0 < b → b ≤ (b / P + Z.min 1 (b mod P)) * P < b + P.
Proof.
  intros HP Hb. pose proof (Z.mod_pos_bound b P HP). pose proof (Z.div_mod b P ltac:(lia)). revert H1 H2. generalize (b / P), (b mod P). intros q r Hr Hq.
  destruct (decide (r = 0)); [replace (Z.min 1 r) with 0 by lia|replace (Z.min 1 r) with 1 by lia]; lia.
Qed.

Lemma mag_default_ok n nb m V hs C fes s live : depot_inv n nb m V hs C fes s live →
  mag_default s = Fault UnwrapNone ∨
  ∃ q s', mag_default s = Ok (q, s') ∧ depot_inv n nb m V hs (q :: C) fes s' live ∧ objs (ds_mags s') q = [] ∧ ds_empty s' = ds_empty s.
Proof.
  intros [D1 D2 D3 D4 D5 D6 D7]. unfold mag_default, mag_new, EMap.page_size. destruct k_page_pow2 as (e & He & EP). pose proof k_page_pos as HP. pose proof page_small as HPs.
  rewrite lift_assert by (rewrite EP; apply is_power_of_two_pow2; lia). rewrite (lift_bind _ 24544), (lift_bind _ 24576) by done.
  set (c := 24576 / k_page + Z.min 1 (24576 mod k_page)). pose proof (region_round k_page 24576 HP ltac:(lia)) as Hc. fold c in Hc.
  rewrite (lift_bind _ c). 2: { rewrite EP, trailing_zeros_pow2, land_pow2_pred, Z.shiftr_div_pow2, <- EP by lia. apply uadd_Ok. fold c. nia. }
  rewrite (lift_bind _ (c * k_page)) by (apply umul_Ok; lia). rewrite lift_assert by (apply Z.leb_le; lia). set (R := c * k_page) in *. clearbody R. clear c.
  destruct (fallible_map_spec (ds_k s) R D3 ltac:(lia)) as ([q|] & k' & Er & Hk' & Hr).
  2: { left. apply M_bind_fault. unfold on_kernel, EMap.map. by rewrite (M_bind_run _ _ _ _ _ Er). }
  right. rewrite (M_bind_run _ _ _ q (mkDepotState k' (ds_mags s) (ds_empty s) (ds_full s) (ds_back s))) by (unfold on_kernel, EMap.map; by rewrite (M_bind_run _ _ _ _ _ Er)).
  unfold mbind, M_bind, set_mag. cbn [mret M_ret ds_k ds_mags ds_empty ds_full ds_back]. set (g := mkMagazine _ _ _ _ _). eexists q, _. split; [reflexivity|].
  assert (Hg : mag_is g q []) by (unfold g, mag_cap in *; split; cbn -[replicate]; unfold mag_cap; try done; try lia; rewrite length_replicate; lia).
  destruct (mags_add _ _ _ _ q g D4 Hr Hg) as [Hm El]. pose proof (ma_nodup _ _ _ Hm) as [Hq _]%list.NoDup_cons. unfold all_mags in Hq. rewrite !not_elem_of_app in Hq.
  assert (Ho : ∀ r, r ≠ q → objs (<[q := g]> (ds_mags s)) r = objs (ds_mags s) r) by (intros r Hr'; unfold objs; by rewrite lookup_insert_ne by done).
  split_and!; [|exact El|done]. split; cbn [ds_k ds_mags ds_empty ds_full ds_back]; try done.
  - intros r Hr'. rewrite Ho by (intros ->; naive_solver). by apply D5.
  - intros r Hr'. rewrite Ho by (intros ->; naive_solver). by apply D6.
  - unfold all_mags. cbn [app ds_empty ds_full]. rewrite bind_cons, El. rewrite bind_insert by (rewrite !not_elem_of_app; naive_solver). done.
Qed.
Lemma alloc_empty_ok n nb m V hs C fes s live i d pf : depot_inv (n + Z.of_nat pf) nb m V hs C fes s live → hs !! i = Some d → 0 ≤ n → enough pf (ds_empty s) →
  alloc_empty pf d s = Fault UnwrapNone ∨
  ∃ q d' s', alloc_empty pf d s = Ok ((q, d'), s') ∧ depot_inv n nb m (V + 1) (<[i := d']> hs) (q :: C) fes s' live ∧ objs (ds_mags s') q = [] ∧ enough pf (ds_empty s').
Proof.
  intros Hinv Hi Hn Hf. pose proof Hinv as [D1 D2 D3 D4 D5 D6 D7]. destruct (pool_pop_mut n m V (ds_empty s) (dp_empty <$> hs) i (dp_empty d) pf D1) as (o & bp & st & E & Hp & Hc & Hf1); [by rewrite list_lookup_fmap, Hi|done|done|].
  set (s1 := mkDepotState (ds_k s) (ds_mags s) st (ds_full s) (ds_back s)). assert (E1 : empty_pop pf d s = Ok ((o, with_empty d bp), s1)) by (unfold empty_pop; by rewrite E).
  assert (Hall : all_mags (option_list o ++ C) s1 ≡ₚ all_mags C s) by (unfold all_mags; cbn [s1 ds_empty ds_full]; rewrite Hc; solve_Permutation).
  assert (Hinv1 : depot_inv n nb m (V + 1) (<[i := with_empty d bp]> hs) (option_list o ++ C) fes s1 live).
  { split; cbn [s1 ds_k ds_mags ds_empty ds_full ds_back]; try done.
    - by rewrite list_fmap_insert.
    - rewrite (handle_same dp_full hs i d) by done. eapply pool_mono; [exact D2|lia|lia].
    - eapply mags_perm; [exact D4|by symmetry].
    - intros q Hq. apply D5. rewrite Hc. apply elem_of_app. by right.
    - eapply fe_perm_law; [exact D7|]. by rewrite Hall. }
  assert (Hend : ∀ q s2, depot_inv n nb m (V + 1) (<[i := with_empty d bp]> hs) (q :: C) fes s2 live → objs (ds_mags s2) q = [] →
    (g ← get_mag q; _ ← lift (rassert (mg_top g =? 0)); mret (q, with_empty d bp)) s2 = Ok ((q, with_empty d bp), s2)).
  { intros q s2 Hi2 E2. destruct (depot_mag _ _ _ _ _ _ _ _ _ q Hi2 ltac:(left)) as (g & Eg & Hg). rewrite (M_bind_run _ _ _ g s2) by (unfold get_mag; by rewrite Eg).
    by rewrite lift_assert by (apply Z.eqb_eq; rewrite (mi_top _ _ _ Hg), E2; done). }
  unfold alloc_empty. rewrite (M_bind_run _ _ _ _ _ E1). destruct o as [q|].
  - right. assert (Hq : objs (ds_mags s) q = []) by (apply D5; rewrite Hc; left). rewrite (M_bind_run _ _ _ q s1) by done. rewrite (Hend q s1 Hinv1 Hq). exists q, (with_empty d bp), s1. done.
  - destruct (mag_default_ok _ _ _ _ _ _ _ _ _ Hinv1) as [Ed|(q & s2 & Ed & Hi2 & Hq & Ee)]; [left; by apply M_bind_fault|right].
    rewrite (M_bind_run _ _ _ _ _ Ed), (Hend q s2 Hi2 Hq). exists q, (with_empty d bp), s2. rewrite Ee. done.
Qed.

(** A magazine of a cache is an item for the bags, and can be unmapped. *)
Lemma mag_item n nb m V hs C fes s live q : depot_inv n nb m V hs (q :: C) fes s live → bag_item q.
Proof.
  intros [_ _ _ D4 _ _ _]. destruct (ma_is _ _ _ D4 q ltac:(left)) as (g & _ & Hg & H1 & _ & H3 & _). pose proof (mi_mapped _ _ _ Hg). unfold mag_cap in *. apply Hitem. lia.
Qed.

Lemma mag_destroy_ok n nb m V hs C fes s live q : depot_inv n nb m V hs (q :: C) fes s live → objs (ds_mags s) q = [] →
  ∃ s', mag_destroy q s = Ok (tt, s') ∧ depot_inv n nb m V hs C fes s' live ∧ ∀ r, r ≠ q → objs (ds_mags s') r = objs (ds_mags s) r.
Proof.
  intros [D1 D2 D3 D4 D5 D6 D7] El. destruct (ma_is _ _ _ D4 q ltac:(left)) as (g & Eg & Hg & H1 & [z Hz] & H3 & H4). pose proof (mi_mapped _ _ _ Hg) as Hmp. unfold mag_cap in Hmp. pose proof k_page_pos as HP.
  unfold mag_destroy. rewrite (M_bind_run _ _ _ g s) by (unfold get_mag; by rewrite Eg). rewrite lift_assert by (apply Z.eqb_eq; rewrite (mi_base _ _ _ Hg); lia).
  rewrite lift_assert by (apply Z.eqb_eq; rewrite Hz; apply Z.mod_mul; unfold EMap.page_size; lia).
  destruct (unmap_spec (ds_k s) q (mg_mapped g) D3 H1 ltac:(by exists z) H3 ltac:(lia)) as (k' & Eu & Hk' & Hmap & _).
  rewrite (M_bind_run _ _ _ tt (mkDepotState k' (ds_mags s) (ds_empty s) (ds_full s) (ds_back s))) by (unfold on_kernel; by rewrite Eu). unfold drop_mag. cbn [ds_k ds_mags ds_empty ds_full ds_back].
  eexists. split; [reflexivity|]. pose proof (ma_nodup _ _ _ D4) as [Hq _]%list.NoDup_cons. unfold all_mags in Hq. rewrite !not_elem_of_app in Hq.
  assert (Ho : ∀ r, r ≠ q → objs (delete q (ds_mags s)) r = objs (ds_mags s) r) by (intros r Hr; unfold objs; by rewrite lookup_delete_ne by done).
  split; [|done]. split; cbn [ds_k ds_mags ds_empty ds_full ds_back]; try done.
  - exact (mags_remove (ds_k s) k' (ds_mags s) _ q g D4 Eg Hmap).
  - intros r Hr. rewrite Ho by (intros ->; naive_solver). by apply D5.
  - intros r Hr. rewrite Ho by (intros ->; naive_solver). by apply D6.
  - unfold all_mags in *. cbn [app ds_empty ds_full] in *. rewrite bind_cons, El in D7. rewrite bind_delete by (rewrite !not_elem_of_app; naive_solver). done.
Qed.
(** Magazines go back to the bags. *)
Lemma empty_push_ok n nb m V hs C fes s live i d q : depot_inv (n + 2) nb m V hs (q :: C) fes s live → objs (ds_mags s) q = [] → hs !! i = Some d → 0 ≤ n →
  ∃ d' s', empty_push d q s = Ok (d', s') ∧ depot_inv n nb m (V + 1) (<[i := d']> hs) C fes s' live ∧ ds_mags s' = ds_mags s.
Proof.
  intros Hinv El Hi Hn. pose proof (mag_item _ _ _ _ _ _ _ _ _ _ Hinv) as Hit. destruct Hinv as [D1 D2 D3 D4 D5 D6 D7].
  destruct (pool_push n m V (push_fuel (ds_empty s)) (ds_empty s) (dp_empty <$> hs) i (dp_empty d) q D1) as (bp & st & E & Hp & _ & Hc); [by rewrite list_lookup_fmap, Hi|done|done|done|].
  eexists (with_empty d bp), _. split; [unfold empty_push; by rewrite E|]. split; [|done].
  assert (Hall : all_mags (q :: C) s ≡ₚ all_mags C (mkDepotState (ds_k s) (ds_mags s) st (ds_full s) (ds_back s))) by (unfold all_mags; cbn [ds_empty ds_full]; rewrite Hc; solve_Permutation).
  split; cbn [ds_k ds_mags ds_empty ds_full ds_back]; try done.
  - by rewrite list_fmap_insert.
  - rewrite (handle_same dp_full hs i d) by done. eapply pool_mono; [exact D2|lia|lia].
  - by eapply mags_perm.
  - intros r. rewrite Hc. intros [->|Hr]%elem_of_cons; [done|by apply D5].
  - eapply fe_perm_law; [exact D7|]. by rewrite Hall.
Qed.

Lemma full_push_ok n nb m V hs C fes s live i d q : depot_inv (n + 2) nb m V hs (q :: C) fes s live → Z.of_nat (length (objs (ds_mags s) q)) = mag_cap → hs !! i = Some d → 0 ≤ n →
  ∃ d' s', full_push d q s = Ok (d', s') ∧ depot_inv n nb m (V + 1) (<[i := d']> hs) C fes s' live ∧ ds_mags s' = ds_mags s ∧ ds_empty s' = ds_empty s.
Proof.
  intros Hinv El Hi Hn. pose proof (mag_item _ _ _ _ _ _ _ _ _ _ Hinv) as Hit. destruct Hinv as [D1 D2 D3 D4 D5 D6 D7].
  destruct (pool_push n m V (push_fuel (ds_full s)) (ds_full s) (dp_full <$> hs) i (dp_full d) q D2) as (bp & st & E & Hp & _ & Hc); [by rewrite list_lookup_fmap, Hi|done|done|done|].
  eexists (with_full d bp), _. split; [unfold full_push; by rewrite E|]. split; [|done].
  assert (Hall : all_mags (q :: C) s ≡ₚ all_mags C (mkDepotState (ds_k s) (ds_mags s) (ds_empty s) st (ds_back s))) by (unfold all_mags; cbn [ds_empty ds_full]; rewrite Hc; solve_Permutation).
  split; cbn [ds_k ds_mags ds_empty ds_full ds_back]; try done.
  - rewrite (handle_same dp_empty hs i d) by done. eapply pool_mono; [exact D1|lia|lia].
  - by rewrite list_fmap_insert.
  - by eapply mags_perm.
  - intros r. rewrite Hc. intros [->|Hr]%elem_of_cons; [done|by apply D6].
  - eapply fe_perm_law; [exact D7|]. by rewrite Hall.
Qed.

Lemma free_empty_ok n nb m V hs C fes s live i d q : depot_inv (n + 2) nb m V hs (q :: C) fes s live → objs (ds_mags s) q = [] → hs !! i = Some d → 0 ≤ n → V < 2 ^ 63 →
  ∃ d' s', free_empty d q s = Ok (d', s') ∧ depot_inv n nb m (V + 1) (<[i := d']> hs) C fes s' live ∧ ∀ r, r ≠ q → objs (ds_mags s') r = objs (ds_mags s) r.
Proof.
  intros Hinv El Hi Hn HV. destruct (depot_mag _ _ _ _ _ _ _ _ _ q Hinv ltac:(left)) as (g & Eg & Hg). destruct (pool_guess _ _ _ _ _ (dv_empty _ _ _ _ _ _ _ _ _ Hinv) HV) as [z Ez].
  unfold free_empty. rewrite (M_bind_run _ _ _ g s) by (unfold get_mag; by rewrite Eg). rewrite lift_assert by (apply Z.eqb_eq; rewrite (mi_top _ _ _ Hg), El; done). rewrite (lift_bind _ z) by done.
  destruct (dp_max_size d <=? z).
  - destruct (mag_destroy_ok _ _ _ _ _ _ _ _ _ _ Hinv El) as (s' & E & Hi' & Ho). rewrite (M_bind_run _ _ _ _ _ E). exists d, s'. rewrite list_insert_id by done. split_and!; [done| |done].
    eapply depot_bags; [exact Hi'|lia|lia].
  - destruct (empty_push_ok _ _ _ _ _ _ _ _ _ _ _ _ Hinv El Hi Hn) as (d' & s' & E & Hi' & Em). exists d', s'. rewrite Em. by split_and!.
Qed.

Lemma free_full_ok n nb m V hs C fes s live i d q : depot_inv (n + 2) nb m V hs (q :: C) fes s live → Z.of_nat (length (objs (ds_mags s) q)) = mag_cap → hs !! i = Some d → 0 ≤ n → V < 2 ^ 63 →
  free_full d q s = Ok ((false, d), s) ∨
  ∃ d' s', free_full d q s = Ok ((true, d'), s') ∧ depot_inv n nb m (V + 1) (<[i := d']> hs) C fes s' live ∧ ds_mags s' = ds_mags s ∧ ds_empty s' = ds_empty s.
Proof.
  intros Hinv El Hi Hn HV. destruct (depot_mag _ _ _ _ _ _ _ _ _ q Hinv ltac:(left)) as (g & Eg & Hg). destruct (pool_guess _ _ _ _ _ (dv_full _ _ _ _ _ _ _ _ _ Hinv) HV) as [z Ez].
  unfold free_full. rewrite (M_bind_run _ _ _ g s) by (unfold get_mag; by rewrite Eg). rewrite lift_assert by (apply Z.eqb_eq; rewrite (mi_top _ _ _ Hg), (mi_cap _ _ _ Hg); done). rewrite (lift_bind _ z) by done.
  destruct (dp_max_size d <=? z); [by left|right]. destruct (full_push_ok _ _ _ _ _ _ _ _ _ _ _ _ Hinv El Hi Hn) as (d' & s' & E & Hi' & Em & Ee). rewrite (M_bind_run _ _ _ _ _ E). exists d', s'. by split_and!.
Qed.
Lemma swap_empty_ok n nb m V hs C fes s live i d q pf : depot_inv (n + 2 + Z.of_nat pf) nb m V hs (q :: C) fes s live → objs (ds_mags s) q = [] → hs !! i = Some d → 0 ≤ n → V + 1 < 2 ^ 63 → enough pf (ds_full s) →
  ∃ o d' s', swap_empty pf d q s = Ok ((o, d'), s') ∧ depot_inv n nb m (V + 2) (<[i := d']> hs) (default q o :: C) fes s' live ∧ (∀ r, r ∈ C → objs (ds_mags s') r = objs (ds_mags s) r) ∧
    match o with Some q' => Z.of_nat (length (objs (ds_mags s') q')) = mag_cap | None => objs (ds_mags s') q = [] end.
Proof.
  intros Hinv El Hi Hn HV Hf. destruct (alloc_full_ok _ _ _ _ _ _ _ _ _ i d pf Hinv Hi ltac:(lia) Hf) as (o & d1 & s1 & E1 & _ & Em & _ & Hi1 & Hq). unfold swap_empty. rewrite (M_bind_run _ _ _ _ _ E1). destruct o as [q'|].
  - specialize (Hq q' eq_refl). apply (depot_perm _ _ _ _ _ _ (q :: q' :: C)) in Hi1; [|solve_Permutation]. pose proof (ma_nodup _ _ _ (dv_mags _ _ _ _ _ _ _ _ _ Hi1)) as Hnd. cbn [all_mags app] in Hnd.
    apply list.NoDup_cons in Hnd as [Hqn _]. rewrite not_elem_of_cons, !not_elem_of_app in Hqn. destruct Hqn as [Hne [HnC _]].
    destruct (free_empty_ok n nb m (V + 1) (<[i := d1]> hs) (q' :: C) fes s1 live i d1 q) as (d2 & s2 & E2 & Hi2 & Ho); [done|by rewrite Em|apply list_lookup_insert_eq; by eapply lookup_lt_Some|done|lia|].
    rewrite (M_bind_run _ _ _ _ _ E2). exists (Some q'), d2, s2. rewrite list_insert_insert_eq in Hi2. split_and!; [done|by replace (V + 2) with (V + 1 + 1) by lia| |].
    + intros r Hr. rewrite Ho by (by intros ->). by rewrite Em.
    + by rewrite Ho by done.
  - exists None, d1, s1. rewrite Em. split_and!; [done| |done|done]. eapply depot_bags; [exact Hi1|lia|lia].
Qed.

Lemma swap_full_ok n nb m V hs C fes s live i d q pf : depot_inv (n + Z.of_nat pf + 2) nb m V hs (q :: C) fes s live → Z.of_nat (length (objs (ds_mags s) q)) = mag_cap → hs !! i = Some d → 0 ≤ n → V < 2 ^ 63 → enough pf (ds_empty s) →
  swap_full pf d q s = Fault UnwrapNone ∨
  ∃ o d' s', swap_full pf d q s = Ok ((o, d'), s') ∧ depot_inv n nb m (V + 2) (<[i := d']> hs) (default q o :: C) fes s' live ∧ match o with Some q' => objs (ds_mags s') q' = [] | None => True end.
Proof.
  intros Hinv El Hi Hn HV Hf. unfold swap_full. destruct (free_full_ok _ _ _ _ _ _ _ _ _ i d q Hinv El Hi ltac:(lia) HV) as [E|(d1 & s1 & E & Hi1 & Em & Ee)]; rewrite (M_bind_run _ _ _ _ _ E).
  { right. exists None, d, s. rewrite list_insert_id by done. split_and!; [done| |done]. eapply depot_bags; [exact Hinv|lia|lia]. }
  destruct (alloc_empty_ok n nb m (V + 1) (<[i := d1]> hs) C fes s1 live i d1 pf Hi1) as [E2|(q' & d2 & s2 & E2 & Hi2 & Hq & _)]; [apply list_lookup_insert_eq; by eapply lookup_lt_Some|done|by rewrite Ee|left; by apply M_bind_fault|right].
  rewrite (M_bind_run _ _ _ _ _ E2). exists (Some q'), d2, s2. rewrite list_insert_insert_eq in Hi2. split_and!; [done|by replace (V + 2) with (V + 1 + 1) by lia|done].
Qed.
(** ** The calls of a cache *)

(** The [i]-th thread has the cache [c]; the magazines [C] are with the others. *)
Definition cache_at n nb m V hs C fes (i : nat) (c : DepotCache FE) s live : Prop :=
  depot_inv n nb m V (<[i := dc_depot c]> hs) (dc_m1 c :: dc_m2 c :: C) (<[i := Some (dc_backing c)]> fes) s live.

Lemma pop_full n nb m V hs C fes s live q : depot_inv n nb m V hs (q :: C) fes s live → Z.of_nat (length (objs (ds_mags s) q)) = mag_cap →
  ∃ x s', mag_pop q s = Ok (Some x, s') ∧ depot_inv n nb m V hs (q :: C) fes s' (x :: live).
Proof.
  intros Hinv Hl. destruct (snoc_cases (objs (ds_mags s) q)) as [E|(l & x & E)]; [by rewrite E in Hl|]. destruct (pop_some _ _ _ _ _ _ _ _ _ q l x Hinv E) as (s' & Es & Hi' & _). eauto.
Qed.

Lemma depot_alloc_ok n nb m V hs C fes i c s live pf : cache_at (n + 2 + Z.of_nat pf) (nb + mag_cap) m V hs C fes i c s live → (i < length hs)%nat → (i < length fes)%nat →
  0 ≤ n → 0 ≤ nb → V + 1 < 2 ^ 63 → enough pf (ds_full s) →
  depot_cache_alloc pf c s = Fault UnwrapNone ∨
  ∃ x c' s', depot_cache_alloc pf c s = Ok ((x, c'), s') ∧ cache_at n nb m (V + 2) hs C fes i c' s' (x :: live).
Proof.
  unfold cache_at. intros Hinv Hh Hb Hn Hnb HV Hf. unfold depot_cache_alloc. destruct c as [f d q1 q2]. cbn [dc_m1 dc_m2 dc_backing dc_depot] in *.
  assert (Hcap : 0 < mag_cap) by done. destruct (snoc_cases (objs (ds_mags s) q1)) as [E1|(l & x & E1)].
  2: { right. destruct (pop_some _ _ _ _ _ _ _ _ _ _ l x Hinv E1) as (s' & E & Hi' & _). rewrite (M_bind_run _ _ _ _ _ E). exists x, (mkDepotCache f d q1 q2), s'. split; [done|]. eapply depot_mono; [exact Hi'|lia|lia|lia]. }
  rewrite (M_bind_run _ _ _ _ _ (pop_nil _ _ _ _ _ _ _ _ _ q1 Hinv ltac:(left) E1)). cbn [dc_m1 dc_m2 dc_backing dc_depot]. apply (depot_perm _ _ _ _ _ _ (q2 :: q1 :: C)) in Hinv; [|solve_Permutation].
  destruct (snoc_cases (objs (ds_mags s) q2)) as [E2|(l & x & E2)].
  2: { right. destruct (pop_some _ _ _ _ _ _ _ _ _ _ l x Hinv E2) as (s' & E & Hi' & _). rewrite (M_bind_run _ _ _ _ _ E). exists x, (mkDepotCache f d q2 q1), s'. split; [done|]. eapply depot_mono; [exact Hi'|lia|lia|lia]. }
  rewrite (M_bind_run _ _ _ _ _ (pop_nil _ _ _ _ _ _ _ _ _ q2 Hinv ltac:(left) E2)).
  destruct (swap_empty_ok _ _ _ _ _ _ _ _ _ i d q2 pf Hinv E2) as (o & d' & s1 & E3 & Hi3 & _ & Ho); [by apply list_lookup_insert_eq|done|lia|done|]. rewrite (M_bind_run _ _ _ _ _ E3). rewrite list_insert_insert_eq in Hi3.
  destruct o as [q'|]; cbn [default] in *.
  - right. rewrite (M_bind_run _ _ _ (mkDepotCache f d' q' q1) s1) by done. destruct (pop_full _ _ _ _ _ _ _ _ _ q' Hi3 Ho) as (x & s' & E & Hi'). cbn [dc_m1]. rewrite (M_bind_run _ _ _ _ _ E).
    exists x, (mkDepotCache f d' q' q1), s'. split; [done|]. eapply depot_mono; [exact Hi'|lia|lia|lia].
  - destruct (depot_mag _ _ _ _ _ _ _ _ _ q2 Hi3 ltac:(left)) as (g & Eg & Hg). assert (Eg1 : get_mag q2 s1 = Ok (g, s1)) by (unfold get_mag; by rewrite Eg).
    pose proof (mi_cap _ _ _ Hg) as Ec. destruct (refill_ok (Z.to_nat mag_cap) n nb m (V + 2) (<[i := d']> hs) (q1 :: C) (<[i := Some f]> fes) s1 live i f q2) as [E|(f' & s' & E & Hi' & Hl)];
      [by replace (Z.of_nat (Z.to_nat mag_cap)) with mag_cap by done|by apply list_lookup_insert_eq|done|rewrite Ho; cbn [length]; lia|left; apply M_bind_fault; rewrite (M_bind_run _ _ _ _ _ Eg1), Ec; by apply M_bind_fault|right].
    rewrite list_insert_insert_eq in Hi'. rewrite (M_bind_run _ _ _ (mkDepotCache f' d' q2 q1) s') by (by rewrite (M_bind_run _ _ _ _ _ Eg1), Ec, (M_bind_run _ _ _ _ _ E)). cbn [dc_m1].
    destruct (pop_full _ _ _ _ _ _ _ _ _ q2 Hi') as (x & s'' & E' & Hi''); [rewrite Hl, Ho; cbn [length]; lia|]. rewrite (M_bind_run _ _ _ _ _ E'). exists x, (mkDepotCache f' d' q2 q1), s''. by split.
Qed.
Lemma depot_free_ok n nb m V hs C fes i c s live x pf : cache_at (n + 2 + Z.of_nat pf) (nb + mag_cap) m V hs C fes i c s (x :: live) → (i < length hs)%nat → (i < length fes)%nat →
  0 ≤ n → 0 ≤ nb → V < 2 ^ 63 → enough pf (ds_empty s) →
  depot_cache_free pf c x s = Fault UnwrapNone ∨
  ∃ c' s', depot_cache_free pf c x s = Ok (c', s') ∧ cache_at n nb m (V + 2) hs C fes i c' s' live.
Proof.
  unfold cache_at. intros Hinv Hh Hb Hn Hnb HV Hf. unfold depot_cache_free. destruct c as [f d q1 q2]. cbn [dc_m1 dc_m2 dc_backing dc_depot] in *.
  assert (Hcap : 0 < mag_cap) by done.
  assert (Hfull : ∀ q, q ∈ q1 :: q2 :: C → Z.of_nat (length (objs (ds_mags s) q)) < mag_cap ∨ Z.of_nat (length (objs (ds_mags s) q)) = mag_cap).
  { intros q Hq. destruct (depot_mag _ _ _ _ _ _ _ _ _ q Hinv Hq) as (g & _ & Hg). pose proof (mag_room _ _ _ Hg). lia. }
  destruct (Hfull q1 ltac:(left)) as [E1|E1].
  { right. destruct (push_some _ _ _ _ _ _ _ _ _ q1 x Hinv E1) as (s' & E & Hi' & _). rewrite (M_bind_run _ _ _ _ _ E). exists (mkDepotCache f d q1 q2), s'. split; [done|]. eapply depot_mono; [exact Hi'|lia|lia|lia]. }
  rewrite (M_bind_run _ _ _ _ _ (push_none _ _ _ _ _ _ _ _ _ q1 x Hinv ltac:(left) E1)). cbn [dc_m1 dc_m2 dc_backing dc_depot]. apply (depot_perm _ _ _ _ _ _ (q2 :: q1 :: C)) in Hinv; [|solve_Permutation].
  destruct (Hfull q2 ltac:(right; left)) as [E2|E2].
  { right. destruct (push_some _ _ _ _ _ _ _ _ _ q2 x Hinv E2) as (s' & E & Hi' & _). rewrite (M_bind_run _ _ _ _ _ E). exists (mkDepotCache f d q2 q1), s'. split; [done|]. eapply depot_mono; [exact Hi'|lia|lia|lia]. }
  rewrite (M_bind_run _ _ _ _ _ (push_none _ _ _ _ _ _ _ _ _ q2 x Hinv ltac:(left) E2)). replace (n + 2 + Z.of_nat pf) with (n + Z.of_nat pf + 2) in Hinv by lia.
  destruct (swap_full_ok _ _ _ _ _ _ _ _ _ i d q2 pf Hinv E2) as [E3|(o & d' & s1 & E3 & Hi3 & Ho)]; [by apply list_lookup_insert_eq|done|lia|done|left; by apply M_bind_fault|right].
  rewrite (M_bind_run _ _ _ _ _ E3). rewrite list_insert_insert_eq in Hi3.
  assert (Hend : ∀ f' q s2, depot_inv n nb m (V + 2) (<[i := d']> hs) (q :: q1 :: C) (<[i := Some f']> fes) s2 (x :: live) → objs (ds_mags s2) q = [] →
    ∃ s', (r ← mag_push q x; _ ← lift (rassert r); mret (mkDepotCache f' d' q q1)) s2 = Ok (mkDepotCache f' d' q q1, s') ∧ depot_inv n nb m (V + 2) (<[i := d']> hs) (q :: q1 :: C) (<[i := Some f']> fes) s' live).
  { intros f' q s2 Hi2 El. destruct (push_some _ _ _ _ _ _ _ _ _ q x Hi2) as (s' & E & Hi' & _); [by rewrite El|]. rewrite (M_bind_run _ _ _ _ _ E), lift_assert by done. by exists s'. }
  destruct o as [q'|]; cbn [default] in *.
  - rewrite (M_bind_run _ _ _ (mkDepotCache f d' q' q1) s1) by done. destruct (Hend f q' s1) as (s' & E & Hi'); [eapply depot_mono; [exact Hi3|lia..]|done|]. cbn [dc_m1]. rewrite E.
    by exists (mkDepotCache f d' q' q1), s'.
  - destruct (unload_all_ok n nb m (V + 2) (<[i := d']> hs) (q1 :: C) (<[i := Some f]> fes) s1 (x :: live) i f q2 Hi3) as (f' & s2 & E & Hi' & El); [by apply list_lookup_insert_eq|done|].
    rewrite list_insert_insert_eq in Hi'. rewrite (M_bind_run _ _ _ (mkDepotCache f' d' q2 q1) s2) by (by rewrite (M_bind_run _ _ _ _ _ E)). cbn [dc_m1].
    destruct (Hend f' q2 s2 Hi' El) as (s' & E' & Hi2). rewrite E'. by exists (mkDepotCache f' d' q2 q1), s'.
Qed.
(** ** Caches that come and go *)

(** A dropped handle leaves no difference behind. *)
Definition settled (bp : BagPipe) : BagPipe := mkPipe (offset bp) (stride bp) (push_failures bp) (pop_failures bp) 0.

Lemma pool_drop_handle n m V st (bps : list BagPipe) i bp : pool n m V st bps → bps !! i = Some bp → ∃ st', drop_pipe (bp, st) = Ok st' ∧ pool n m V st' (<[i := settled bp]> bps) ∧ contents st' = contents st.
Proof.
  intros (sy & Hs & <- & Hh & HV) Hi. assert (Hsi : handles sy !! i = Some (Some bp)) by (by rewrite Hh, list_lookup_fmap, Hi). pose proof (sys_room _ _ _ Hs _ _ Hsi) as Hroom.
  destruct (drop_pipe_ok n bp (shared sy) Hroom (sys_st _ _ _ Hs)) as (st' & E & Hst & Hp & Hr & z & Hz & Hza). destruct (pipes_contents _ _ Hp) as (Hc & _). exists st'. split_and!; [done| |done].
  exists (mkSys st' (<[i := Some (settled bp)]> (handles sy)) (ins sy) (outs sy)). split_and!; [|done|cbn; by rewrite Hh, list_fmap_insert|exact HV].
  destruct (diffs_insert sy i bp (Some (settled bp)) Hsi) as [Hd Hda]. destruct Hs as [S1 S2 S3 S4 (z0 & S5 & S6)]. split; cbn [shared handles ins outs]; [done| |by rewrite Hr|by rewrite Hc|].
  - intros j bp' [(-> & [= <-] & _)|[_ Hj]]%list_lookup_insert_Some; [|by eapply S2]. by destruct Hroom.
  - exists (z0 + z). unfold diffs, adiffs. cbn [handles]. rewrite Hd, Hda, Hc. change (diff_of (Some (settled bp))) with 0. cbn [Z.abs]. lia.
Qed.

Lemma clone_pipes (st st' : BagPipeState B) bp : clone st = Ok (bp, st') → pipes st' = pipes st.
Proof.
  unfold clone. destruct (uadd (all_refs st) 1) as [z|]; [rewrite bind_Ok|done]. destruct (umul z 2) as [z1|]; [rewrite bind_Ok|done]. destruct (uadd z1 1) as [z2|]; [rewrite bind_Ok|done].
  destruct (usub (len st) 1); [|done]. by intros [= _ <-].
Qed.

Lemma enough_pipes pf (st st' : BagPipeState B) : pipes st' = pipes st → enough pf st → enough pf st'.
Proof. intros Hp. unfold enough. by destruct (pipes_contents _ _ Hp) as (_ & -> & _ & ->). Qed.

Lemma depot_clone_ok n nb m V hs C fes s live i d d0 pf : depot_inv (n + 2) nb m V hs C fes s live → hs !! i = Some d → 0 ≤ n < 2 ^ 61 → 1 ≤ m → (2 * m + 3) * (n + 1) < 2 ^ 63 →
  enough pf (ds_empty s) → enough pf (ds_full s) →
  ∃ d' s', depot_clone d0 s = Ok (d', s') ∧ depot_inv n nb (m + 1) V (hs ++ [d']) C fes s' live ∧ enough pf (ds_empty s') ∧ enough pf (ds_full s').
Proof.
  intros [D1 D2 D3 D4 D5 D6 D7] Hi Hn Hm Hb He Hf.
  destruct (pool_clone n m V (ds_empty s) (dp_empty <$> hs) i (dp_empty d) D1) as (e & es & Ee & Hpe & _ & Hce); [by rewrite list_lookup_fmap, Hi|done..|].
  destruct (pool_clone n m V (ds_full s) (dp_full <$> hs) i (dp_full d) D2) as (f & fs & Ef & Hpf & _ & Hcf); [by rewrite list_lookup_fmap, Hi|done..|].
  eexists (mkDepot (dp_max_size d0) e f), _. split; [unfold depot_clone; by rewrite Ee, bind_Ok, Ef|]. cbn [ds_empty ds_full]. split; [|split; [exact (enough_pipes pf _ _ (clone_pipes _ _ _ Ee) He)|exact (enough_pipes pf _ _ (clone_pipes _ _ _ Ef) Hf)]].
  unfold all_mags in *. split; unfold all_mags; cbn [ds_k ds_mags ds_empty ds_full ds_back]; rewrite ?Hce, ?Hcf, ?fmap_app; done.
Qed.

(** A new cache, whose frontend is made already. *)
Lemma depot_new_cache_ok n nb m V hs C fes s live i d f pf : depot_inv (n + Z.of_nat pf + Z.of_nat pf + Z.of_nat pf) nb m V hs C fes s live → hs !! i = Some d → fes !! i = Some (Some f) → 0 ≤ n →
  enough pf (ds_empty s) → enough pf (ds_full s) →
  depot_cache_new pf f d s = Fault UnwrapNone ∨
  ∃ c s', depot_cache_new pf f d s = Ok (c, s') ∧ dc_backing c = f ∧ cache_at n nb m (V + 3) hs C fes i c s' live.
Proof.
  intros Hinv Hi Hfe Hn He Hf. unfold cache_at, depot_cache_new. pose proof (lookup_lt_Some _ _ _ Hi) as Hlt.
  destruct (alloc_full_ok _ _ _ _ _ _ _ _ _ i d pf Hinv Hi ltac:(lia) Hf) as (o & d1 & s1 & E1 & _ & _ & Ee & Hi1 & _). rewrite (M_bind_run _ _ _ _ _ E1). rewrite <- Ee in He. clear Ee Hinv.
  assert (Hm1 : ∀ s0, s0 = s1 → (match o with Some q => mret (q, d1) | None => alloc_empty pf d1 end) s0 = Fault UnwrapNone ∨
    ∃ q1 d2 s2, (match o with Some q => mret (q, d1) | None => alloc_empty pf d1 end) s0 = Ok ((q1, d2), s2) ∧ depot_inv (n + Z.of_nat pf) nb m (V + 2) (<[i := d2]> hs) (q1 :: C) fes s2 live ∧ enough pf (ds_empty s2)).
  { intros s0 ->. destruct o as [q|]; [right; exists q, d1, s1; split; [done|]; split; [|done]; eapply depot_bags; [exact Hi1|lia|lia]|].
    destruct (alloc_empty_ok _ _ _ _ _ _ _ _ _ i d1 pf Hi1) as [E|(q & d2 & s2 & E & Hi2 & _ & He2)]; [by apply list_lookup_insert_eq|lia|done|by left|right].
    exists q, d2, s2. rewrite list_insert_insert_eq in Hi2. split; [done|]. split; [by replace (V + 2) with (V + 1 + 1) by lia|done]. }
  destruct (Hm1 s1 eq_refl) as [E|(q1 & d2 & s2 & E & Hi2 & He2)]; [left; by apply M_bind_fault|]. rewrite (M_bind_run _ _ _ _ _ E).
  destruct (alloc_empty_ok _ _ _ _ _ _ _ _ _ i d2 pf Hi2) as [E3|(q2 & d3 & s3 & E3 & Hi3 & _)]; [by apply list_lookup_insert_eq|done|done|left; by apply M_bind_fault|right].
  rewrite (M_bind_run _ _ _ _ _ E3). exists (mkDepotCache f d3 q1 q2), s3. cbn [dc_depot dc_m1 dc_m2 dc_backing]. split_and!; [done|done|]. rewrite list_insert_insert_eq in Hi3. rewrite (list_insert_id fes) by done.
  replace (V + 3) with (V + 2 + 1) by lia. eapply depot_perm; [exact Hi3|solve_Permutation].
Qed.
(** A dropped cache returns its objects and magazines. *)
Lemma depot_drop_ok n nb m V hs C fes s live i d : depot_inv n nb m V hs C fes s live → hs !! i = Some d → ∃ d' s', depot_drop d s = Ok (tt, s') ∧ depot_inv n nb m V (<[i := d']> hs) C fes s' live.
Proof.
  intros [D1 D2 D3 D4 D5 D6 D7] Hi.
  destruct (pool_drop_handle n m V (ds_empty s) (dp_empty <$> hs) i (dp_empty d) D1) as (es & Ee & Hpe & Hce); [by rewrite list_lookup_fmap, Hi|].
  destruct (pool_drop_handle n m V (ds_full s) (dp_full <$> hs) i (dp_full d) D2) as (fs & Ef & Hpf & Hcf); [by rewrite list_lookup_fmap, Hi|].
  eexists (mkDepot (dp_max_size d) (settled (dp_empty d)) (settled (dp_full d))), _. split; [unfold depot_drop; by rewrite Ee, bind_Ok, Ef|].
  unfold all_mags in *. split; unfold all_mags; cbn [ds_k ds_mags ds_empty ds_full ds_back]; rewrite ?Hce, ?Hcf, ?list_fmap_insert; done.
Qed.

Lemma back_drop n nb m V hs C fes s live i f : depot_inv n (nb + 1) m V hs C fes s live → fes !! i = Some (Some f) → 0 ≤ nb →
  ∃ s', on_back (fe_drop f) s = Ok (tt, s') ∧ depot_inv n nb m V hs C (<[i := None]> fes) s' live.
Proof.
  intros [D1 D2 D3 D4 D5 D6 D7] Hi Hnb. unfold on_back. destruct (fe_drop_law nb fes _ _ i f D7 Hi Hnb) as (b & E & Hb). rewrite E, bind_Ok. eexists. split; [done|]. by split.
Qed.

Lemma depot_cache_drop_ok n nb m V hs C fes i c s live : cache_at (n + 2 + 2) (nb + 1 + mag_cap + mag_cap) m V hs C fes i c s live → (i < length hs)%nat → (i < length fes)%nat → 0 ≤ n → 0 ≤ nb → V + 1 < 2 ^ 63 →
  ∃ d' s', depot_cache_drop c s = Ok (tt, s') ∧ depot_inv n nb m (V + 2) (<[i := d']> hs) C (<[i := None]> fes) s' live.
Proof.
  unfold cache_at. destruct c as [f d q1 q2]. cbn [dc_depot dc_m1 dc_m2 dc_backing]. intros Hinv Hh Hb Hn Hnb HV. unfold depot_cache_drop. cbn [dc_depot dc_m1 dc_m2 dc_backing]. assert (Hcap : 0 < mag_cap) by done.
  destruct (unload_all_ok _ _ _ _ _ _ _ _ _ i f q1 Hinv) as (f1 & s1 & E1 & Hi1 & El1); [by apply list_lookup_insert_eq|lia|]. rewrite (M_bind_run _ _ _ _ _ E1). rewrite list_insert_insert_eq in Hi1.
  destruct (free_empty_ok _ _ _ _ _ _ _ _ _ i d q1 Hi1 El1) as (d2 & s2 & E2 & Hi2 & _); [by apply list_lookup_insert_eq|lia|lia|]. rewrite (M_bind_run _ _ _ _ _ E2). rewrite list_insert_insert_eq in Hi2.
  destruct (unload_all_ok _ _ _ _ _ _ _ _ _ i f1 q2 Hi2) as (f3 & s3 & E3 & Hi3 & El3); [by apply list_lookup_insert_eq|lia|]. rewrite (M_bind_run _ _ _ _ _ E3). rewrite list_insert_insert_eq in Hi3.
  destruct (free_empty_ok _ _ _ _ _ _ _ _ _ i d2 q2 Hi3 El3) as (d4 & s4 & E4 & Hi4 & _); [by apply list_lookup_insert_eq|lia|lia|]. rewrite (M_bind_run _ _ _ _ _ E4). rewrite list_insert_insert_eq in Hi4.
  destruct (back_drop _ _ _ _ _ _ _ _ _ i f3 Hi4) as (s5 & E5 & Hi5); [by apply list_lookup_insert_eq|lia|]. rewrite (M_bind_run _ _ _ _ _ E5). rewrite list_insert_insert_eq in Hi5.
  destruct (depot_drop_ok _ _ _ _ _ _ _ _ _ i d4 Hi5) as (d6 & s6 & E6 & Hi6); [by apply list_lookup_insert_eq|]. exists d6, s6. rewrite list_insert_insert_eq in Hi6. split; [done|]. by replace (V + 2) with (V + 1 + 1) by lia.
Qed.
End depot.
