(* ===== verification/DepotSystem.v ===== *)
(** * Threads that share a depot

    Threads make [DepotCache]s (module [magazine] of [src/elfmalloc/src/frontends.rs])
    from one [Depot] and the parameters of a frontend, allocate, free and drop them
    in any order.  The states they reach keep the objects in use apart from each
    other and from those in magazines. *)

From Stdlib Require Import ZArith Lia.
From stdpp Require Import base numbers list gmap option.
From S2P Require Import Prelude Backing MmapAlloc ElfSources Bag FaaQueue BagPipe PageAlloc SlagAlloc Frontends CacheSystem Depot.

Open Scope Z_scope.

Inductive dcall := DInit | DAlloc (i : nat) | DFree (i : nat) (x : Z) | DDrop (i : nat).

(** The caches of the threads, the objects with the clients, what is shared.  The
    first place stands for the parameters, whose depot handle is kept too. *)
Record dconf (FE K B T : Type) := mkDConf { dcf_caches : list (option (DepotCache FE)); dcf_live : list Z; dcf_state : DepotState K B T }.
Arguments mkDConf {FE K B T} dcf_caches dcf_live dcf_state.
Arguments dcf_caches {FE K B T} d.
Arguments dcf_live {FE K B T} d.
Arguments dcf_state {FE K B T} d.

Section runs.
  Context {K : Type} `{!Kernel K} {B : Type} `{BagLaws B Z} {FE Params T : Type} `{!Frontend FE Params T}.
  Abbreviation conf := (dconf FE K B T).

Definition start_depot (max_size empty full : Z) (p : Params) (k : K) (b : T) : res ((Params * Depot) * conf) :=
  '(d, (es, fs)) ← depot_new_size max_size empty full; Ok ((p, d), mkDConf [None] [] (mkDepotState k ∅ es fs b)).

(** A call of a thread whose cache exists; an object is freed once. *)
Definition exec_depot (pf : nat) (p : Params * Depot) (c : conf) (x : dcall) : res conf :=
  let at_cache i (k : DepotCache FE → res conf) := match dcf_caches c !! i with Some (Some dc) => k dc | _ => Ok c end in
  match x with
  | DInit => '(dc, s) ← depot_cache_init pf p (dcf_state c); Ok (mkDConf (dcf_caches c ++ [Some dc]) (dcf_live c) s)
  | DAlloc i => at_cache i (fun dc => '((x, dc), s) ← depot_cache_alloc pf dc (dcf_state c); Ok (mkDConf (<[i := Some dc]> (dcf_caches c)) (x :: dcf_live c) s))
  | DFree i x => at_cache i (fun dc =>
      match list_find (x =.) (dcf_live c) with
      | Some (j, _) => '(dc, s) ← depot_cache_free pf dc x (dcf_state c); Ok (mkDConf (<[i := Some dc]> (dcf_caches c)) (delete j (dcf_live c)) s)
      | None => Ok c
      end)
  | DDrop i => at_cache i (fun dc => '(_, s) ← depot_cache_drop dc (dcf_state c); Ok (mkDConf (<[i := None]> (dcf_caches c)) (dcf_live c) s))
  end.

(** [pf] tries are enough for the pops of both bags. *)
Definition bags_enough (pf : nat) (c : conf) : Prop := enough pf (ds_empty (dcf_state c)) ∧ enough pf (ds_full (dcf_state c)).

Definition cache_mags (o : option (DepotCache FE)) : list Z := from_option (fun c => [dc_m1 c; dc_m2 c]) [] o.
Definition backing_of (o : option (DepotCache FE)) : option FE := dc_backing <$> o.
Definition backings (l : list (option (DepotCache FE))) : list (option FE) := backing_of <$> l.

(** The objects in the magazines of the caches and of the depot. *)
Definition stored (c : conf) : list Z := all_mags (dcf_caches c ≫= cache_mags) (dcf_state c) ≫= objs (ds_mags (dcf_state c)).

  Context {tmpl : option Params} `{!FrontendLaws FE Params T tmpl}.
  Hypothesis Hitem : ∀ p, 0 < p < 2 ^ 63 → bag_item p.

Record dsys (n nb m V : Z) (p : Params * Depot) (c : conf) : Prop := {
  dy_tmpl : tmpl = Some p.1;
  dy_first : dcf_caches c !! 0%nat = Some None;
  dy_inv : ∃ hs, length hs = length (dcf_caches c) ∧ hs !! 0%nat = Some p.2 ∧ (∀ i dc, dcf_caches c !! i = Some (Some dc) → hs !! i = Some (dc_depot dc)) ∧
    depot_inv n nb m V hs (dcf_caches c ≫= cache_mags) (backings (dcf_caches c)) (dcf_state c) (dcf_live c)
}.

Lemma start_ok n nb max_size e f p k b : tmpl = Some p → 0 ≤ max_size < 2 ^ 63 - 1 → 1 ≤ e ≤ 2 ^ 63 → 1 ≤ f ≤ 2 ^ 63 → 0 ≤ n < 2 ^ 61 → k_ok k → fe_inv nb [None] b [] →
  ∃ q c, start_depot max_size e f p k b = Ok (q, c) ∧ q.1 = p ∧ dsys n nb 1 0 q c.
Proof.
  intros Ht Hmax He Hf Hn Hk Hb. unfold start_depot, depot_new_size. rewrite rassert_true, bind_Ok by (apply Z.ltb_lt; lia).
  destruct (pool_new (B := B) e n He Hn) as (ebp & es & -> & Hpe & Hce). rewrite bind_Ok. destruct (pool_new (B := B) f n Hf Hn) as (fbp & fs & -> & Hpf & Hcf). rewrite bind_Ok.
  eexists _, _. split; [done|]. split; [done|]. split; [done|done|]. cbn [fst snd dcf_caches dcf_state dcf_live]. exists [mkDepot max_size ebp fbp]. split_and!; [done|done|by intros [|[|]]|].
  split; cbn; unfold all_mags; cbn; rewrite ?Hce, ?Hcf; cbn; try done; [|by intros q Hq%elem_of_nil].
  split; [constructor|by intros q Hq%elem_of_nil|by intros q q' g g' Hq%elem_of_nil].
Qed.

(** One cache of the system, and what the call leaves. *)
Lemma dsys_open n nb m V p c i dc : dsys n nb m V p c → dcf_caches c !! i = Some (Some dc) → ∃ hs, length hs = length (dcf_caches c) ∧ (i < length hs)%nat ∧
  cache_at n nb m V hs (<[i := None]> (dcf_caches c) ≫= cache_mags) (backings (dcf_caches c)) i dc (dcf_state c) (dcf_live c) ∧
  (∀ o d n' nb' V' s' live', from_option (fun dc' => dc_depot dc' = d) True o → depot_inv n' nb' m V' (<[i := d]> hs) (cache_mags o ++ (<[i := None]> (dcf_caches c) ≫= cache_mags)) (<[i := backing_of o]> (backings (dcf_caches c))) s' live' →
    dsys n' nb' m V' p (mkDConf (<[i := o]> (dcf_caches c)) live' s')).
Proof.
  intros [Ht H0' (hs & Hlen & Hh0 & Hhs & Hinv)] Hi. pose proof (lookup_lt_Some _ _ _ Hi) as Hlt. exists hs. split; [done|]. split; [lia|]. split.
  - unfold cache_at. rewrite (list_insert_id hs) by (by apply Hhs). rewrite (list_insert_id (backings _)) by (unfold backings; by rewrite list_lookup_fmap, Hi). eapply depot_perm; [exact Hinv|].
    by rewrite (bind_slot cache_mags (dcf_caches c) i dc) by done.
  - intros o d n' nb' V' s' live' Ho Hn. assert (Hne : i ≠ 0%nat) by (intros ->; by rewrite H0' in Hi). split; cbn [dcf_caches dcf_state dcf_live]; [done|by rewrite list_lookup_insert_ne|].
    exists (<[i := d]> hs). rewrite !length_insert, list_lookup_insert_ne by done. split_and!; [done|done| |].
    + intros j dc'. destruct (decide (j = i)) as [->|Hj]; [rewrite !list_lookup_insert_eq by lia; intros [= ->]; by rewrite Ho|]. rewrite !list_lookup_insert_ne by done. apply Hhs.
    + unfold backings in *. rewrite list_fmap_insert. eapply depot_perm; [exact Hn|]. destruct o as [dc'|]; [|done].
      rewrite (bind_slot cache_mags (<[i := Some dc']> (dcf_caches c)) i dc'), list_insert_insert_eq by (done || by apply list_lookup_insert_eq). done.
Qed.
Lemma insert_last {A} (l : list A) x y : <[length l := y]> (l ++ [x]) = l ++ [y].
Proof. by rewrite insert_app_r_alt, Nat.sub_diag by done. Qed.

Lemma back_init n nb m V hs C fes (s : DepotState K B T) live p : depot_inv n (nb + 1) m V hs C fes s live → tmpl = Some p → 0 ≤ nb →
  on_back (fe_init p) s = Fault UnwrapNone ∨ ∃ (f : FE) s', on_back (fe_init p) s = Ok (f, s') ∧ depot_inv n nb m V hs C (fes ++ [Some f]) s' live ∧ ds_empty s' = ds_empty s ∧ ds_full s' = ds_full s.
Proof.
  intros [D1 D2 D3 D4 D5 D6 D7] Ht Hnb. unfold on_back. destruct (fe_init_law nb fes _ _ p Ht D7 Hnb) as [->|(f & b & E & Hb)]; [by left|right]. rewrite E, bind_Ok. eexists f, _. split; [done|]. by split.
Qed.

(** What a call may cost: failures of a handle, calls of the frontends. *)
Definition tries (pf : nat) : Z := 3 * Z.of_nat pf + 4.
Definition backing_calls : Z := 2 * mag_cap + 1.

Lemma init_ok n nb m V p c pf : dsys (n + tries pf) (nb + backing_calls) m V p c → 0 ≤ n → n + tries pf < 2 ^ 61 → 0 ≤ nb → 1 ≤ m → (2 * m + 3) * (n + tries pf) < 2 ^ 63 → bags_enough pf c →
  exec_depot pf p c DInit = Fault UnwrapNone ∨ ∃ c', exec_depot pf p c DInit = Ok c' ∧ dsys n nb (m + 1) (V + 3) p c'.
Proof.
  intros [Ht H0' (hs & Hlen & Hh0 & Hhs & Hinv)] Hn Hn1 Hnb Hm Hb [He Hf]. unfold tries, backing_calls in *. assert (Hcap : 0 < mag_cap) by done. cbn [exec_depot]. unfold depot_cache_init.
  apply (depot_mono _ (n + Z.of_nat pf + Z.of_nat pf + Z.of_nat pf + 2) _ (nb + 1) _ _ V) in Hinv; [|lia|lia|lia].
  destruct (back_init _ _ _ _ _ _ _ _ _ p.1 Hinv Ht Hnb) as [E|(f & s1 & E & Hi1 & Ee & Ef)]; [left; by rewrite (M_bind_fault _ _ _ _ E)|]. rewrite (M_bind_run _ _ _ _ _ E). rewrite <- Ee in He. rewrite <- Ef in Hf.
  destruct (depot_clone_ok _ _ _ _ _ _ _ _ _ 0 p.2 p.2 pf Hi1 Hh0) as (d & s2 & E2 & Hi2 & He2 & Hf2); [lia|done|nia|done|done|]. rewrite (M_bind_run _ _ _ _ _ E2).
  assert (Hlb : length hs = length (backings (dcf_caches c))) by (unfold backings; by rewrite length_fmap).
  destruct (depot_new_cache_ok _ _ _ _ _ _ _ _ _ (length hs) d f pf Hi2) as [E3|(dc & s3 & E3 & Ef3 & Hi3)]; [by rewrite list_lookup_middle|by rewrite Hlb, list_lookup_middle|done|done|done|by rewrite E3; left|].
  rewrite E3, bind_Ok. right. eexists. split; [done|]. unfold cache_at in Hi3. rewrite insert_last, Hlb, insert_last, Ef3 in Hi3.
  split; cbn [dcf_caches dcf_state dcf_live]; [done|by apply lookup_app_l_Some|]. exists (hs ++ [dc_depot dc]). rewrite !length_app, Hlen. split_and!; [done|by apply lookup_app_l_Some| |].
  - intros i dc' [Hi|[Hge Hi]]%lookup_app_Some; [apply lookup_app_l_Some; by apply Hhs|]. apply list_lookup_singleton_Some in Hi as [Hi [= <-]]. apply list_lookup_middle. lia.
  - unfold backings. rewrite fmap_app, bind_app. cbn [fmap list_fmap]. change (backing_of (Some dc)) with (Some (dc_backing dc)). rewrite Ef3. eapply depot_perm; [exact Hi3|solve_Permutation].
Qed.

Lemma exec_depot_ok n nb m V p c x pf : dsys (n + tries pf) (nb + backing_calls) m V p c → 0 ≤ n → n + tries pf < 2 ^ 61 → 0 ≤ nb → 1 ≤ m → (2 * m + 3) * (n + tries pf) < 2 ^ 63 → V + 3 < 2 ^ 63 → bags_enough pf c →
  exec_depot pf p c x = Fault UnwrapNone ∨ ∃ c' m', exec_depot pf p c x = Ok c' ∧ m ≤ m' ≤ m + 1 ∧ dsys n nb m' (V + 3) p c'.
Proof.
  intros Hs Hn Hn1 Hnb Hm Hb HV Hbags. assert (Hcap : 0 < mag_cap) by done.
  assert (Hmono : ∀ V' c', dsys n nb m V' p c' → V' ≤ V + 3 → exec_depot pf p c x = Ok c' → ∃ c' m', exec_depot pf p c x = Ok c' ∧ m ≤ m' ≤ m + 1 ∧ dsys n nb m' (V + 3) p c').
  { intros V' c' [T1 T2 (hs & T3 & T4 & T5 & T6)] HV' E. exists c', m. split_and!; [done|lia|lia|]. split; [done|done|]. exists hs. split_and!; try done. by eapply depot_bags. }
  assert (Hsame : exec_depot pf p c x = Ok c → exec_depot pf p c x = Fault UnwrapNone ∨ ∃ c' m', exec_depot pf p c x = Ok c' ∧ m ≤ m' ≤ m + 1 ∧ dsys n nb m' (V + 3) p c').
  { intros E. right. apply (Hmono V c); [|lia|done]. destruct Hs as [T1 T2 (hs & T3 & T4 & T5 & T6)]. split; [done|done|]. exists hs. split_and!; try done. unfold tries, backing_calls in *. eapply depot_mono; [exact T6|lia..]. }
  destruct x as [|i|i x|i].
  { destruct (init_ok _ _ _ _ _ _ _ Hs Hn Hn1 Hnb Hm Hb Hbags) as [E|(c' & E & Hc)]; [by left|right]. exists c', (m + 1). split_and!; [done|lia|lia|done]. }
  all: cbn [exec_depot] in *; destruct (dcf_caches c !! i) as [[dc|]|] eqn:Hi; try (by apply Hsame).
  all: destruct (dsys_open _ _ _ _ _ _ _ _ Hs Hi) as (hs & Hlen & Hlt & Hat & Hclose); unfold tries, backing_calls, cache_at in Hat.
  all: assert (Hbl : (i < length (backings (dcf_caches c)))%nat) by (unfold backings; rewrite length_fmap; lia).
  - apply (depot_mono _ (n + 2 + Z.of_nat pf) _ (nb + mag_cap) _ _ V) in Hat; [|lia..].
    destruct (depot_alloc_ok Hitem _ _ _ _ _ _ _ i dc _ _ pf Hat Hlt Hbl Hn Hnb ltac:(lia) (proj2 Hbags)) as [E|(y & dc' & s' & E & Hc)]; [left; by rewrite E|right].
    eapply (Hmono (V + 2)); [|lia|by rewrite E]. by eapply (Hclose (Some dc') (dc_depot dc')).
  - destruct (list_find (x =.) (dcf_live c)) as [[j y]|] eqn:Ef; [|by apply Hsame]. apply list_find_Some in Ef as (Ej & <- & _). destruct Hat as [D1 D2 D3 D4 D5 D6 D7].
    assert (Hat : cache_at (n + 2 + Z.of_nat pf) (nb + mag_cap) m V hs (<[i := None]> (dcf_caches c) ≫= cache_mags) (backings (dcf_caches c)) i dc (dcf_state c) (x :: delete j (dcf_live c))).
    { split; [eapply pool_mono; [exact D1|lia|lia]|eapply pool_mono; [exact D2|lia|lia]|done|done|done|done|]. eapply fe_mono_law; [eapply fe_perm_law; [exact D7|]|lia]. by rewrite <- delete_Permutation. }
    destruct (depot_free_ok Hitem _ _ _ _ _ _ _ i dc _ _ x pf Hat Hlt Hbl Hn Hnb ltac:(lia) (proj1 Hbags)) as [E|(dc' & s' & E & Hc)]; [left; by rewrite E|right].
    eapply (Hmono (V + 2)); [|lia|by rewrite E]. by eapply (Hclose (Some dc') (dc_depot dc')).
  - apply (depot_mono _ (n + 2 + 2) _ (nb + 1 + mag_cap + mag_cap) _ _ V) in Hat; [|lia..].
    destruct (depot_cache_drop_ok Hitem _ _ _ _ _ _ _ i dc _ _ Hat Hlt Hbl Hn Hnb ltac:(lia)) as (d' & s' & E & Hc). right. eapply (Hmono (V + 2)); [|lia|by rewrite E]. by eapply (Hclose None d').
Qed.
(** The most calls and tries considered. *)
Definition max_calls : Z := 2 ^ 18.
Definition max_tries : Z := 2 ^ 20.

Lemma budget j m pf : 0 ≤ j ≤ max_calls → 1 ≤ m ≤ max_calls → Z.of_nat pf ≤ max_tries → 0 ≤ j * tries pf < 2 ^ 61 ∧ (2 * m + 3) * (j * tries pf) < 2 ^ 63.
Proof. unfold max_calls, max_tries, tries. intros Hj Hm Hpf. assert (0 ≤ j * (3 * Z.of_nat pf + 4) ≤ 2 ^ 40) by nia. nia. Qed.

Lemma reached_ok pf p c0 k c : dsys (max_calls * tries pf) (max_calls * backing_calls) 1 0 p c0 → Z.of_nat pf ≤ max_tries → reached (exec_depot pf p) (bags_enough pf) c0 k c → Z.of_nat k ≤ max_calls →
  ∃ m, 1 ≤ m ≤ Z.of_nat k + 1 ∧ dsys ((max_calls - Z.of_nat k) * tries pf) ((max_calls - Z.of_nat k) * backing_calls) m (3 * Z.of_nat k) p c.
Proof.
  intros Hs Hpf. induction 1 as [|k c x c' Hr IH Hbags E]; intros Hk; [exists 1; rewrite Z.sub_0_r; split; [lia|exact Hs]|]. destruct IH as (m & Hm & Hc); [lia|]. assert (Hb0 : 0 < backing_calls) by done.
  set (j := max_calls - Z.of_nat (S k)). replace (max_calls - Z.of_nat k) with (j + 1) in Hc by lia. rewrite !Z.mul_add_distr_r, !Z.mul_1_l in Hc.
  destruct (budget (j + 1) m pf) as [B1 B2]; [lia|lia|done|]. replace ((j + 1) * tries pf) with (j * tries pf + tries pf) in B1, B2 by lia. destruct (budget j m pf) as [B3 _]; [lia|lia|done|].
  destruct (exec_depot_ok _ _ _ _ p c x pf Hc) as [E'|(c1 & m' & E' & Hm' & Hc1)]; [lia|lia|nia|lia|lia|unfold max_calls in *; lia|done|by rewrite E in E'|]. rewrite E in E'. injection E' as <-.
  exists m'. split; [lia|]. by replace (3 * Z.of_nat (S k)) with (3 * Z.of_nat k + 3) by lia.
Qed.

(** C4: depot caches are safe.  Threads make caches from a depot and the
    parameters of a frontend, allocate, free and drop them, in any order and up
    to [max_calls] calls, while the bags need at most [pf] tries for a pop.  Every
    call returns or panics because memory is exhausted, and no object is ever
    with two clients, in two magazines, or in one twice. *)
Theorem depot_caches_safe (pf : nat) (max_size empty full : Z) (p : Params) (k0 : K) (b : T) :
  tmpl = Some p → 0 ≤ max_size < 2 ^ 63 - 1 → 1 ≤ empty ≤ 2 ^ 63 → 1 ≤ full ≤ 2 ^ 63 → k_ok k0 → fe_inv (max_calls * backing_calls) [None] b [] → Z.of_nat pf ≤ max_tries →
  ∃ q c0, start_depot max_size empty full p k0 b = Ok (q, c0) ∧
    ∀ k c x, reached (exec_depot pf q) (bags_enough pf) c0 k c → Z.of_nat k < max_calls → bags_enough pf c →
      exec_depot pf q c x = Fault UnwrapNone ∨
      ∃ c', exec_depot pf q c x = Ok c' ∧ NoDup (dcf_live c' ++ stored c') ∧ ∀ y, y ∈ dcf_live c' ++ stored c' → 0 < y < 2 ^ 63.
Proof.
  intros Ht Hmax He Hf Hk Hb Hpf. destruct (budget max_calls 1 pf) as [B1 _]; [done|done|done|].
  destruct (start_ok (max_calls * tries pf) (max_calls * backing_calls) max_size empty full p k0 b) as (q & c0 & E & Eq & Hs); try done. exists q, c0. split; [done|].
  intros k c x Hr Hlt Hbags. destruct (reached_ok pf q c0 k c Hs Hpf Hr ltac:(lia)) as (m & Hm & Hc). assert (Hb0 : 0 < backing_calls) by done.
  set (j := max_calls - Z.of_nat k - 1). replace (max_calls - Z.of_nat k) with (j + 1) in Hc by lia. rewrite !Z.mul_add_distr_r, !Z.mul_1_l in Hc.
  destruct (budget (j + 1) m pf) as [B2 B3]; [lia|lia|done|]. replace ((j + 1) * tries pf) with (j * tries pf + tries pf) in B2, B3 by lia. destruct (budget j m pf) as [B4 _]; [lia|lia|done|].
  destruct (exec_depot_ok _ _ _ _ q c x pf Hc) as [E'|(c1 & m' & E' & _ & Hc1)]; [lia|lia|nia|lia|lia|unfold max_calls in *; lia|done|by left|right].
  exists c1. split; [done|]. destruct Hc1 as [_ _ (hs & _ & _ & _ & Hinv)]. exact (fe_live_law _ _ _ _ (dv_back _ _ _ _ _ _ _ _ _ Hinv)).
Qed.
End runs.

(** ** A sample: a frontend that never reuses memory *)
#[export] Instance bump_frontend : Frontend unit unit Z := {
  fe_init _ := mret tt;
  fe_alloc _ := fun s => if s <? 2 ^ 62 then Ok ((s, tt), s + 8) else Fault UnwrapNone;
  fe_free _ _ := mret tt;
  fe_clone _ := mret tt;
  fe_drop _ := mret tt
}.

Definition bump_inv (n : Z) (fes : list (option unit)) (s : Z) (live : list Z) : Prop := 8 ≤ s < 2 ^ 62 + 8 ∧ NoDup live ∧ ∀ x, x ∈ live → 0 < x < s.

#[export] Instance bump_laws : FrontendLaws unit unit Z (Some tt).
Proof.
  refine (Build_FrontendLaws _ _ _ _ (Some tt) bump_inv _ _ _ _ _ _ _ _).
  - done.
  - intros n fes s live live' (H1 & H2 & H3) Hp. split_and!; [lia|lia|by rewrite <- Hp|]. intros x. rewrite <- Hp. apply H3.
  - intros n fes s live (H1 & H2 & H3). split; [done|]. intros x Hx. specialize (H3 x Hx). lia.
  - intros n fes s live i f (H1 & H2 & H3) _ _. cbn. destruct (Z.ltb_spec s (2 ^ 62)); [right|by left]. eexists s, tt, _. split; [done|]. split_and!; [lia|lia| |].
    + constructor; [|done]. intros Hx. specialize (H3 s Hx). lia.
    + intros x [->|Hx]%elem_of_cons; [lia|]. specialize (H3 x Hx). lia.
  - intros n fes s live i f x (H1 & [_ H2]%list.NoDup_cons & H3) _ _. exists tt, s. split; [done|]. split_and!; [lia|lia|done|]. intros y Hy. apply H3. by right.
  - intros n fes s live i f Hi _ _. right. by exists tt, s.
  - intros n fes s live i f Hi _ _. by exists s.
  - intros n fes s live p _ Hi _. right. by exists tt, s.
Defined.

Abbreviation bump_conf := (dconf unit ToyKernel FAAQueue Z).
Definition bump_start : res ((unit * Depot) * bump_conf) := start_depot (B := FAAQueue) (H := faa_bag false) (Z.shiftl 1 20) 2 2 tt toy_k0 4096.

Definition bump_exec (q : unit * Depot) (c : bump_conf) (x : dcall) : res bump_conf := exec_depot (H0 := faa_bag_laws false) 1000 q c x.

(** Whether [pf] tries are enough, decided. *)
Definition enough_b (pf : nat) (c : bump_conf) : bool :=
  let one st := bool_decide ((0 < pf)%nat ∧ (Z.of_nat (pop_total (H0 := faa_bag_laws false) st) + 1) * len st ≤ 2 * Z.of_nat pf - 2) in
  one (ds_empty (dcf_state c)) && one (ds_full (dcf_state c)).

Lemma enough_decided pf c : enough_b pf c = true → bags_enough (H0 := faa_bag_laws false) pf c.
Proof. unfold enough_b, bags_enough, enough. intros [H1%bool_decide_eq_true H2%bool_decide_eq_true]%andb_prop. by split. Qed.

(** The first thread makes a cache, and allocates. *)
Definition bump_runs : bool :=
  match bump_start with
  | Ok (q, c0) => enough_b 1000 c0 && match bump_exec q c0 DInit with Ok c => enough_b 1000 c && match bump_exec q c (DAlloc 1) with Ok _ => true | _ => false end | _ => false end
  | _ => false
  end.
Lemma bump_runs_ok : bump_runs = true.
Proof. vm_compute. reflexivity. Qed.

Lemma depot_caches_safe_witness : ∃ q c0 c c', bump_start = Ok (q, c0) ∧ bump_exec q c0 DInit = Ok c ∧ bump_exec q c (DAlloc 1) = Ok c' ∧ NoDup (dcf_live c' ++ stored (H0 := faa_bag_laws false) c').
Proof.
  destruct (depot_caches_safe (H0 := faa_bag_laws false) (tmpl := Some tt) faa_items 1000 (Z.shiftl 1 20) 2 2 tt toy_k0 4096) as (q & c0 & E0 & Hsafe);
    [reflexivity|vm_compute; split; congruence|lia|lia|exact toy_k0_ok|split_and!; [lia|lia|constructor|intros x Hx; inversion Hx]|vm_compute; congruence|].
  pose proof bump_runs_ok as Hr. unfold bump_runs, bump_start in Hr. rewrite E0 in Hr. apply andb_prop in Hr as [Hb0 Hr]. destruct (bump_exec q c0 DInit) as [c|] eqn:E1; [|discriminate Hr].
  apply andb_prop in Hr as [Hb1 Hr]. pose proof (reached_call (bump_exec q) (bags_enough (H0 := faa_bag_laws false) 1000) c0 0 c0 DInit c (reached_start _ _ c0) (enough_decided 1000 c0 Hb0) E1) as Hreach.
  destruct (Hsafe 1%nat c (DAlloc 1) Hreach ltac:(vm_compute; reflexivity) (enough_decided 1000 c Hb1)) as [E2|(c' & E2 & Hnd & _)]; [unfold bump_exec in Hr; rewrite E2 in Hr; discriminate Hr|].
  exists q, c0, c, c'. split; [exact E0|]. split; [exact E1|]. split; [exact E2|exact Hnd].
Defined.

(** Clones of depot caches share magazines.  A cache that is cloned keeps its
    magazines, and so does the clone (the derived [Clone]); once both
    are dropped, the bag of empty magazines has each of them twice. *)
Theorem cloned_caches_share_magazines :
  match bump_start with
  | Ok (q, c0) =>
      match (a ← depot_cache_init (FE := unit) (H := faa_bag false) 1000 q; b ← depot_cache_clone a; _ ← depot_cache_drop (H0 := faa_bag_laws false) a; _ ← depot_cache_drop (H0 := faa_bag_laws false) b; mret (dc_m1 a, dc_m2 a)) (dcf_state c0) with
      | Ok ((m1, m2), s) => contents (H0 := faa_bag_laws false) (ds_empty s) ≡ₚ [m1; m1; m2; m2]
      | Fault _ => False
      end
  | Fault _ => False
  end.
Proof. vm_compute. solve_Permutation. Qed.
