(* ===== verification/RustPages.v ===== *)
(** * Medium objects of the allocator for Rust's [Alloc]

    Models [PageSource] and [PageFrontend] of [src/elfmalloc/src/rust_alloc.rs]: a
    source of pages of one size that frontends of several size classes share, each
    with a cache of its own.  The memory source is [MmapSource], as in the module
    [global].  A [PageFrontend] is only cloned through [Lazy], which makes a new
    one: its pipe is its own. *)

From Stdlib Require Import ZArith Lia.
From stdpp Require Import base numbers list gmap option.
From S2P Require Import Prelude StdAlloc Backing MmapAlloc ElfSources Bag FaaQueue BagPipe ElfGeneral PageAlloc SlagAlloc Depot.

Open Scope Z_scope.

Record PageSource := mkSource { so_cutoff_bytes : Z; so_target_size : Z; so_pages : BagPipe; so_source : MmapSource }.

(** What the clones of a source share. *)
Record SourceState (K B : Type) := mkSourceState { ss_k : K; ss_pages : BagPipeState B }.
Arguments mkSourceState {K B} ss_k ss_pages.
Arguments ss_k {K B} s.
Arguments ss_pages {K B} s.

Record PageFrontend (B : Type) := mkFrontend { pf_parent : PageSource; pf_pages : BagPipe * BagPipeState B; pf_local_size : Z; pf_max_overhead : Z }.
Arguments mkFrontend {B} pf_parent pf_pages pf_local_size pf_max_overhead.
Arguments pf_parent {B} p.
Arguments pf_pages {B} p.
Arguments pf_local_size {B} p.
Arguments pf_max_overhead {B} p.

(** [PageSource]; [pf] bounds the tries of [pop_mut]. *)
Module Source.
Section ops.
  Context {K : Type} `{!Kernel K} {B : Type} `{BagLaws B Z}.
  Abbreviation St := (SourceState K B).

Definition set_pages (s : PageSource) (bp : BagPipe) : PageSource := mkSource (so_cutoff_bytes s) (so_target_size s) bp (so_source s).
Definition on_kernel {A} (op : M K A) : M St A := fun st => '(x, k) ← op (ss_k st); Ok (x, mkSourceState k (ss_pages st)).
Definition push (s : PageSource) (p : Z) : M St PageSource := fun st =>
  '(bp, ps) ← push_mut (push_fuel (ss_pages st)) p (so_pages s, ss_pages st); Ok (set_pages s bp, mkSourceState (ss_k st) ps).
Definition pop (pf : nat) (s : PageSource) : M St (option Z * PageSource) := fun st =>
  '(o, (bp, ps)) ← pop_mut pf (so_pages s, ss_pages st); Ok ((o, set_pages s bp), mkSourceState (ss_k st) ps).

Definition new (cutoff_bytes target_size pipe_size page_size : Z) : res (PageSource * BagPipeState B) :=
  m ← MSrc.new page_size;
  '(bp, ps) ← new_size pipe_size;
  Ok (mkSource cutoff_bytes target_size bp m, ps).

(** The derived [Clone]. *)
Definition clone_source (s : PageSource) : M St PageSource := fun st =>
  '(bp, ps) ← clone (ss_pages st); Ok (set_pages s bp, mkSourceState (ss_k st) ps).

Definition free (s : PageSource) (p old_size : Z) : M St PageSource := fun st =>
  (let page_size := ms_page_size (so_source s) in
   n ← lift (size_guess (ss_pages st));
   if iwrap (so_target_size s) <=? n then _ ← on_kernel (EMap.unmap p page_size); mret s
   else
     _ ← (if so_cutoff_bytes s <=? old_size then
            len ← lift (usub page_size (so_cutoff_bytes s)); on_kernel (EMap.uncommit (p + so_cutoff_bytes s) len)
          else mret tt);
     push s p) st.

(** [for i in 1..npages]. *)
Fixpoint push_all (s : PageSource) (pages : Z) (l : list Z) : M St PageSource :=
  match l with
  | [] => mret s
  | i :: l => offset ← lift (umul i (ms_page_size (so_source s))); s ← push s (pages + offset); push_all s pages l
  end.

Definition alloc (pf : nat) (s : PageSource) : M St (option Z * PageSource) :=
  '(o, s) ← pop pf s;
  match o with
  | Some p => mret (Some p, s)
  | None =>
      let npages := 4 in
      r ← on_kernel (MSrc.carve (so_source s) npages);
      match r with
      | Some pages => s ← push_all s pages (zrange 1 npages); mret (Some pages, s)
      | None => mret (None, s)
      end
  end.
End ops.
End Source.

(** [PageFrontend]. *)
Module PFront.
Section ops.
  Context {K : Type} `{!Kernel K} {B : Type} `{BagLaws B Z}.
  Abbreviation St := (SourceState K B).
  Abbreviation Front := (PageFrontend B).

Definition set_parent (f : Front) (s : PageSource) : Front := mkFrontend s (pf_pages f) (pf_local_size f) (pf_max_overhead f).
Definition set_pages (f : Front) (x : BagPipe * BagPipeState B) : Front := mkFrontend (pf_parent f) x (pf_local_size f) (pf_max_overhead f).

Definition new (size max_overhead pipe_size : Z) (parent : PageSource) : res Front :=
  _ ← rassert (size <=? ms_page_size (so_source parent));
  _ ← rassert (is_power_of_two size);
  x ← new_size pipe_size;
  Ok (mkFrontend parent x size max_overhead).

Definition init (p : Z * Z * Z * PageSource) : M St Front :=
  let '(size, max_overhead, pipe_size, parent) := p in
  parent ← Source.clone_source parent;
  lift (new size max_overhead pipe_size parent).

Definition alloc (pf : nat) (f : Front) : M St (option Z * Front) :=
  '(o, x) ← lift (pop_mut pf (pf_pages f));
  let f := set_pages f x in
  match o with
  | Some p => mret (Some p, f)
  | None => '(r, s) ← Source.alloc pf (pf_parent f); mret (r, set_parent f s)
  end.

Definition free (f : Front) (item : Z) : M St Front :=
  n ← lift (size_guess (pf_pages f).2);
  if iwrap (pf_max_overhead f) <=? n then s ← Source.free (pf_parent f) item (pf_local_size f); mret (set_parent f s)
  else
    '(r, x) ← lift (try_push_mut item (pf_pages f));
    let f := set_pages f x in
    match r with
    | inl _ => mret f
    | inr _ => s ← Source.free (pf_parent f) item (pf_local_size f); mret (set_parent f s)
    end.
End ops.
End PFront.

(** ** The pages of a source *)
Section pages.
  Context {K : Type} `{!Kernel K} {B : Type} `{BagLaws B Z}.
  Context (e cutoff : Z).
  Hypothesis Hitem : ∀ p, 0 < p < 2 ^ 63 → bag_item p.
  Hypothesis Hsize : k_page ≤ 2 ^ e ∧ 0 ≤ e ≤ 40.
  Hypothesis Hcutoff : (k_page | cutoff) ∧ 0 ≤ cutoff.
  Abbreviation St := (SourceState K B).
  Abbreviation Front := (PageFrontend B).
  Implicit Types (st : St) (hs : list PageSource) (held live : list Z) (fs : list Front).

Lemma size_pos : 0 < 2 ^ e ≤ 2 ^ 40 ∧ (k_page | 2 ^ e).
Proof.
  destruct Hsize as [Hp He]. destruct k_page_pow2 as (s & Hs & Es). split; [split; [apply pow2_pos; lia|apply Z.pow_le_mono_r; lia]|].
  rewrite Es in *. apply pow2_divide. split; [lia|]. apply (Z.pow_le_mono_r_iff 2); lia.
Qed.

(** Pages are aligned: different ones share no memory. *)
Lemma pages_apart p q : (2 ^ e | p) → (2 ^ e | q) → p ≠ q → pages_of k_page p (2 ^ e) ## pages_of k_page q (2 ^ e).
Proof.
  intros [a ->] [b ->] Hne x Hx Hy. pose proof size_pos as ((H1 & _) & Hd). pose proof k_page_pos.
  rewrite (elem_of_pages k_page) in Hx, Hy by (done || by apply Z.divide_mul_r). revert Hx Hy Hne H1. generalize (x * k_page), (2 ^ e). intros y s Hx Hy Hne H1.
  apply Hne. f_equal. destruct (Z.lt_trichotomy a b) as [Hl|[Hl|Hl]]; [|done|]; exfalso; nia.
Qed.

(** The pages [held] are with the frontends or their clients. *)
Record src_inv (n m V : Z) hs st held : Prop := {
  si_hs h : h ∈ hs → so_source h = mkMmapSource (2 ^ e) ∧ so_cutoff_bytes h = cutoff;
  si_pool : pool n m V (ss_pages st) (so_pages <$> hs);
  si_k : k_ok (ss_k st);
  si_nodup : NoDup (held ++ contents (ss_pages st));
  si_pages p : p ∈ held ++ contents (ss_pages st) → page_ok e (ss_k st) p
}.

Lemma src_perm n m V hs st held held' : src_inv n m V hs st held → held ≡ₚ held' → src_inv n m V hs st held'.
Proof. intros [] Hp. split; try done; [by rewrite <- Hp|intros p; rewrite <- Hp; auto]. Qed.

Lemma src_mono n n' m V V' hs st held : src_inv n m V hs st held → n' ≤ n → V ≤ V' → src_inv n' m V' hs st held.
Proof. intros [] Hn HV. split; try done. by eapply pool_mono. Qed.

(** A handle changes, and pages move between the bag and the others. *)
Lemma src_move n m V n' V' hs st held i h bp ps held' : src_inv n m V hs st held → hs !! i = Some h → pool n' m V' ps (<[i := bp]> (so_pages <$> hs)) →
  held' ++ contents ps ≡ₚ held ++ contents (ss_pages st) → src_inv n' m V' (<[i := Source.set_pages h bp]> hs) (mkSourceState (ss_k st) ps) held'.
Proof.
  intros [S1 S2 S3 S4 S5] Hi Hp Hc. split; cbn [ss_k ss_pages]; [|by rewrite list_fmap_insert|done|by rewrite Hc|intros p; rewrite Hc; apply S5].
  intros x [->|Hx]%elem_of_insert_inv; [|by apply S1]. cbn. apply S1. by eapply list_elem_of_lookup_2.
Qed.

Lemma src_pop n m V hs st held i h pf : src_inv (n + Z.of_nat pf) m V hs st held → hs !! i = Some h → 0 ≤ n → enough pf (ss_pages st) →
  ∃ o h' st', Source.pop pf h st = Ok ((o, h'), st') ∧ src_inv n m (V + 1) (<[i := h']> hs) st' (option_list o ++ held) ∧ so_source h' = so_source h ∧ so_cutoff_bytes h' = so_cutoff_bytes h.
Proof.
  intros Hinv Hi Hn Hf. destruct (pool_pop_mut n m V (ss_pages st) (so_pages <$> hs) i (so_pages h) pf (si_pool _ _ _ _ _ _ Hinv)) as (o & bp & ps & E & Hp & Hc & _); [by rewrite list_lookup_fmap, Hi|done|done|].
  eexists o, (Source.set_pages h bp), _. split; [unfold Source.pop; by rewrite E|]. split; [|done]. eapply src_move; [exact Hinv|done|done|]. rewrite Hc. solve_Permutation.
Qed.

Lemma held_page n m V hs st held p : src_inv n m V hs st held → p ∈ held → page_ok e (ss_k st) p ∧ bag_item p.
Proof. intros Hinv Hp. assert (Hok : page_ok e (ss_k st) p) by (apply (si_pages _ _ _ _ _ _ Hinv), elem_of_app; by left). split; [done|]. destruct Hok as (H1 & H2 & _). pose proof size_pos. apply Hitem. lia. Qed.

Lemma src_push n m V hs st held i h p : src_inv (n + 2) m V hs st (p :: held) → hs !! i = Some h → 0 ≤ n →
  ∃ h' st', Source.push h p st = Ok (h', st') ∧ src_inv n m (V + 1) (<[i := h']> hs) st' held ∧ so_source h' = so_source h.
Proof.
  intros Hinv Hi Hn. destruct (held_page _ _ _ _ _ _ p Hinv ltac:(left)) as [_ Hit].
  destruct (pool_push n m V (push_fuel (ss_pages st)) (ss_pages st) (so_pages <$> hs) i (so_pages h) p (si_pool _ _ _ _ _ _ Hinv)) as (bp & ps & E & Hp & _ & Hc); [by rewrite list_lookup_fmap, Hi|done|done|done|].
  eexists (Source.set_pages h bp), _. split; [unfold Source.push; by rewrite E|]. split; [|done]. eapply src_move; [exact Hinv|done|done|]. rewrite Hc. solve_Permutation.
Qed.

(** A page that is unmapped takes no other with it. *)
Lemma src_unmap n m V hs st held k' p : src_inv n m V hs st (p :: held) → k_ok k' → k_mapped k' = k_mapped (ss_k st) ∖ pages_of k_page p (2 ^ e) → src_inv n m V hs (mkSourceState k' (ss_pages st)) held.
Proof.
  intros [S1 S2 S3 S4 S5] Hk Hm. cbn [app] in *. apply list.NoDup_cons in S4 as [Hp S4]. split; cbn [ss_k ss_pages]; try done.
  intros q Hq. destruct (S5 q) as (Q1 & Q2 & Q3 & Q4); [by right|]. destruct (S5 p) as (_ & _ & P3 & _); [left|]. split_and!; try done. rewrite Hm. intros z Hz. apply elem_of_difference. split; [by apply Q4|].
  intros Hz'. apply (pages_apart q p Q3 P3 ltac:(by intros ->) z Hz Hz').
Qed.

Lemma src_free n m V hs st held i h p old : src_inv (n + 2) m V hs st (p :: held) → hs !! i = Some h → 0 ≤ n → V < 2 ^ 63 → old < 2 ^ e →
  ∃ h' st', Source.free h p old st = Ok (h', st') ∧ src_inv n m (V + 1) (<[i := h']> hs) st' held.
Proof.
  intros Hinv Hi Hn HV Hold. destruct (si_hs _ _ _ _ _ _ Hinv h) as [Es Ec]; [by eapply list_elem_of_lookup_2|]. destruct (held_page _ _ _ _ _ _ p Hinv ltac:(left)) as [(P1 & P2 & P3 & P4) _].
  pose proof size_pos as ((H1 & H2) & Hd). assert (Hpd : (k_page | p)) by (by eapply Z.divide_trans). destruct (pool_guess _ _ _ _ _ (si_pool _ _ _ _ _ _ Hinv) HV) as [g Eg].
  unfold Source.free. rewrite Es, Ec. cbn [ms_page_size]. rewrite (lift_bind _ g) by done. destruct (iwrap (so_target_size h) <=? g).
  - destruct (unmap_spec (ss_k st) p (2 ^ e) (si_k _ _ _ _ _ _ Hinv) P1 Hpd P2 ltac:(lia)) as (k' & E & Hk' & Hm & _).
    rewrite (M_bind_run _ _ _ tt (mkSourceState k' (ss_pages st))) by (unfold Source.on_kernel; by rewrite E). exists h, (mkSourceState k' (ss_pages st)). split; [done|].
    rewrite list_insert_id by done. eapply src_mono; [by eapply src_unmap|lia|lia].
  - assert (Hun : ∃ k', (if cutoff <=? old then len ← lift (usub (2 ^ e) cutoff); Source.on_kernel (EMap.uncommit (p + cutoff) len) else mret tt) st = Ok (tt, mkSourceState k' (ss_pages st)) ∧ k_ok k' ∧ k_mapped k' = k_mapped (ss_k st)).
    { destruct Hcutoff as [Hcd Hc0]. destruct (Z.leb_spec cutoff old); [|exists (ss_k st); destruct st; split; [done|]; split; [exact (si_k _ _ _ _ _ _ Hinv)|done]].
      rewrite (lift_bind _ (2 ^ e - cutoff)) by (apply usub_Ok; lia). destruct (uncommit_spec (ss_k st) (p + cutoff) (2 ^ e - cutoff) (si_k _ _ _ _ _ _ Hinv)) as (k' & E & Hk' & Hm); [by apply Z.divide_add_r|lia|].
      exists k'. split; [unfold Source.on_kernel; by rewrite E|done]. }
    destruct Hun as (k' & E & Hk' & Hm). rewrite (M_bind_run _ _ _ _ _ E).
    assert (Hinv' : src_inv (n + 2) m V hs (mkSourceState k' (ss_pages st)) (p :: held)).
    { destruct Hinv as [S1 S2 S3 S4 S5]. split; try done. intros q Hq. destruct (S5 q Hq) as (Q1 & Q2 & Q3 & Q4). split_and!; try done. cbn [ss_k]. by rewrite Hm. }
    destruct (src_push _ _ _ _ _ _ i h p Hinv' Hi Hn) as (h' & st' & E' & Hi' & _). by exists h', st'.
Qed.
Lemma push_all_ok base l : ∀ n m V hs st held i h, src_inv (n + 2 * Z.of_nat (length l)) m V hs st (((fun j => base + j * 2 ^ e) <$> l) ++ held) → hs !! i = Some h → 0 ≤ n → (∀ j, j ∈ l → 0 ≤ j ≤ 4) →
  ∃ h' st', Source.push_all h base l st = Ok (h', st') ∧ src_inv n m (V + Z.of_nat (length l)) (<[i := h']> hs) st' held.
Proof.
  induction l as [|j l IH]; intros n m V hs st held i h Hinv Hi Hn Hl; cbn [Source.push_all length fmap list_fmap app] in *.
  { exists h, st. split; [done|]. rewrite list_insert_id by done. eapply src_mono; [exact Hinv|lia|lia]. }
  destruct (si_hs _ _ _ _ _ _ Hinv h) as [Es Ec]; [by eapply list_elem_of_lookup_2|]. pose proof size_pos as ((H1 & H2) & _). specialize (Hl j ltac:(left)) as Hj. rewrite Es. cbn [ms_page_size].
  rewrite (lift_bind _ (j * 2 ^ e)) by (apply umul_Ok; nia). replace (n + 2 * Z.of_nat (S (length l))) with (n + 2 * Z.of_nat (length l) + 2) in Hinv by lia.
  destruct (src_push _ _ _ _ _ _ i h _ Hinv Hi ltac:(lia)) as (h1 & st1 & E1 & Hi1 & _). rewrite (M_bind_run _ _ _ _ _ E1).
  destruct (IH n m (V + 1) (<[i := h1]> hs) st1 held i h1 Hi1) as (h2 & st2 & E2 & Hi2); [apply list_lookup_insert_eq; by eapply lookup_lt_Some|done|intros x Hx; apply Hl; by right|].
  exists h2, st2. split; [done|]. rewrite list_insert_insert_eq in Hi2. by replace (V + Z.of_nat (S (length l))) with (V + 1 + Z.of_nat (length l)) by lia.
Qed.

(** A fresh region is four new pages. *)
Lemma src_region n m V hs st held base k' : src_inv n m V hs st held → (2 ^ e | base) → fresh_region (ss_k st) base (4 * 2 ^ e) k' → k_ok k' →
  src_inv n m V hs (mkSourceState k' (ss_pages st)) (((fun j => base + j * 2 ^ e) <$> zrange 0 4) ++ held).
Proof.
  intros [S1 S2 S3 S4 S5] Hd (F1 & F2 & F3 & F4 & F5 & _) Hk. pose proof size_pos as ((H1 & H2) & Hpd). pose proof k_page_pos as HP.
  assert (Hnew : ∀ p, p ∈ (fun j => base + j * 2 ^ e) <$> zrange 0 4 → page_ok e k' p ∧ ¬ page_ok e (ss_k st) p).
  { intros p (j & -> & Hj%elem_of_zrange)%list_elem_of_fmap. assert (Hdj : (2 ^ e | base + j * 2 ^ e)) by (apply Z.divide_add_r; [done|apply Z.divide_factor_r]).
    assert (Hsub : pages_of k_page (base + j * 2 ^ e) (2 ^ e) ⊆ pages_of k_page base (4 * 2 ^ e)) by (apply pages_of_mono; nia). split.
    - split_and!; [nia|nia|done|]. rewrite F5. by apply union_subseteq_l'.
    - intros (_ & _ & _ & Hm). assert (Hh : (base + j * 2 ^ e) / k_page ∈ pages_of k_page (base + j * 2 ^ e) (2 ^ e)) by (apply pages_head; [lia|by eapply Z.divide_trans|done]). eapply F4; [by apply Hsub in Hh|by apply Hm]. }
  split; cbn [ss_k ss_pages]; try done.
  - rewrite <- app_assoc. apply list.NoDup_app. split; [apply NoDup_fmap_2; [intros x y; nia|apply NoDup_zrange]|]. split; [|done]. intros p Hp Hq. destruct (Hnew p Hp) as [_ []]. by apply S5.
  - intros p. rewrite <- app_assoc, elem_of_app. intros [Hp|Hp]; [by apply Hnew|]. destruct (S5 p Hp) as (Q1 & Q2 & Q3 & Q4). split_and!; try done. rewrite F5. by apply union_subseteq_r'.
Qed.

Lemma src_alloc n m V hs st held i h pf : src_inv (n + 6 + Z.of_nat pf) m V hs st held → hs !! i = Some h → 0 ≤ n → enough pf (ss_pages st) →
  ∃ o h' st', Source.alloc pf h st = Ok ((o, h'), st') ∧ src_inv n m (V + 4) (<[i := h']> hs) st' (option_list o ++ held).
Proof.
  intros Hinv Hi Hn Hf. pose proof (lookup_lt_Some _ _ _ Hi) as Hlt. destruct (si_hs _ _ _ _ _ _ Hinv h) as [Es _]; [by eapply list_elem_of_lookup_2|].
  destruct (src_pop _ _ _ _ _ _ i h pf Hinv Hi ltac:(lia) Hf) as (o & h1 & st1 & E1 & Hi1 & Es1 & _). unfold Source.alloc. rewrite (M_bind_run _ _ _ _ _ E1).
  destruct o as [p|]; [exists (Some p), h1, st1; split; [done|]; eapply src_mono; [exact Hi1|lia|lia]|]. cbn [option_list app] in Hi1. rewrite Es1, Es. pose proof size_pos as ((H1 & H2) & _).
  destruct (mmap_carve_spec e 4 (ss_k st1) (si_k _ _ _ _ _ _ Hi1)) as (r & k' & Ec & Hk' & Hr); [apply Hsize|lia|lia|].
  rewrite (M_bind_run _ _ _ r (mkSourceState k' (ss_pages st1))) by (unfold Source.on_kernel; by rewrite Ec). destruct r as [base|].
  - destruct Hr as [Hd Hfr]. pose proof (src_region _ _ _ _ _ _ base k' Hi1 Hd Hfr Hk') as Hi2. rewrite zrange_cons in Hi2 by lia. cbn [fmap list_fmap app] in Hi2. rewrite Z.mul_0_l, Z.add_0_r in Hi2. change (0 + 1) with 1 in Hi2.
    eapply (src_perm _ _ _ _ _ _ (((fun j => base + j * 2 ^ e) <$> zrange 1 4) ++ base :: held)) in Hi2; [|solve_Permutation].
    destruct (push_all_ok base (zrange 1 4) n m (V + 1) (<[i := h1]> hs) _ (base :: held) i h1 Hi2) as (h2 & st2 & E2 & Hi3); [by apply list_lookup_insert_eq|done|intros j Hj%elem_of_zrange; lia|].
    rewrite (M_bind_run _ _ _ _ _ E2). exists (Some base), h2, st2. split; [done|]. rewrite list_insert_insert_eq in Hi3. eapply src_mono; [exact Hi3|lia|]. change (Z.of_nat (length (zrange 1 4))) with 3. lia.
  - exists None, h1, (mkSourceState k' (ss_pages st1)). split; [done|]. rewrite Hr. destruct st1. eapply src_mono; [exact Hi1|lia|lia].
Qed.

(** ** Frontends *)
Definition cached (f : Front) : list Z := contents (pf_pages f).2.

Definition front_ok n V (f : Front) : Prop := pf_local_size f < 2 ^ e ∧ pool n 1 V (pf_pages f).2 [(pf_pages f).1].

Lemma front_mono n n' V V' f : front_ok n V f → n' ≤ n → V ≤ V' → front_ok n' V' f.
Proof. intros [Hf Hp] Hn HV. split; [done|]. by eapply pool_mono. Qed.

Lemma own_pop n V f pf : front_ok (n + Z.of_nat pf) V f → 0 ≤ n → enough pf (pf_pages f).2 →
  ∃ o x, pop_mut pf (pf_pages f) = Ok (o, x) ∧ front_ok n (V + 1) (PFront.set_pages f x) ∧ cached f ≡ₚ option_list o ++ cached (PFront.set_pages f x).
Proof.
  intros [Hl Hp] Hn Hf. unfold cached. destruct (pf_pages f) as [bp ps] eqn:Ex. cbn [fst snd] in *.
  destruct (pool_pop_mut n 1 V ps [bp] 0 bp pf Hp eq_refl Hn Hf) as (o & bp' & ps' & E & Hp' & Hc & _). exists o, (bp', ps'). split; [done|]. split; [by split|exact Hc].
Qed.

Lemma own_push n V f p : front_ok (n + 1) V f → 0 ≤ n → bag_item p →
  ∃ r x, try_push_mut p (pf_pages f) = Ok (r, x) ∧ front_ok n (V + 1) (PFront.set_pages f x) ∧ cached (PFront.set_pages f x) ≡ₚ (match r with inl _ => [p] | inr _ => [] end) ++ cached f.
Proof.
  intros [Hl Hp] Hn Hit. unfold cached. destruct (pf_pages f) as [bp ps] eqn:Ex. cbn [fst snd] in *.
  destruct (try_push_mut_ok n p (bp, ps) (pool_handle _ _ _ _ _ 0%nat _ Hp eq_refl) Hn Hit) as (r & x & E & Hg & Hk & Hr). exists r, x. split; [done|].
  set (l := match r with inl _ => [p] | inr _ => [] end). assert (Hc : l ++ contents ps ≡ₚ [] ++ contents x.2 ∧ balance (Z.of_nat (length l) - Z.of_nat (@length Z [])) (bp, ps) x).
  { unfold l. destruct r as [u|it]; cbn in *; destruct Hr as (Hc & Hr); [by rewrite Hc|]. destruct Hr as (Hr & Hb & _). by rewrite Hr. }
  destruct Hc as [Hc Hb]. pose proof (pool_update (n + 1) n 1 V ps [bp] 0 bp x l [] Hp eq_refl Hg ltac:(lia) Hk Hc Hb) as Hnew. cbn in Hnew, Hc.
  split; [split; [done|]|by rewrite Hc]. eapply pool_mono; [exact Hnew|lia|]. unfold l. destruct r; cbn; lia.
Qed.
(** ** Threads with frontends of one source

    [tpl] is the source the frontends are made from. *)
Record rconf := mkRConf { rc_fronts : list Front; rc_live : list Z; rc_state : St }.

Inductive rcall := RInit (size max_overhead pipe_size : Z) | RAlloc (i : nat) | RFree (i : nat) (p : Z).

(** Frontends are for sizes that are powers of two below that of the pages. *)
Definition legal_size (size pipe : Z) : bool := is_power_of_two size && (size <? 2 ^ e) && (1 <=? pipe) && (pipe <=? 2 ^ 63).

Definition exec_rust (pf : nat) (tpl : PageSource) (c : rconf) (x : rcall) : res rconf :=
  match x with
  | RInit size ov pipe =>
      if legal_size size pipe then '(f, st) ← PFront.init (size, ov, pipe, tpl) (rc_state c); Ok (mkRConf (rc_fronts c ++ [f]) (rc_live c) st) else Ok c
  | RAlloc i =>
      match rc_fronts c !! i with
      | Some f => '((o, f), st) ← PFront.alloc pf f (rc_state c); Ok (mkRConf (<[i := f]> (rc_fronts c)) (option_list o ++ rc_live c) st)
      | None => Ok c
      end
  | RFree i p =>
      match rc_fronts c !! i, list_find (p =.) (rc_live c) with
      | Some f, Some (j, _) => '(f, st) ← PFront.free f p (rc_state c); Ok (mkRConf (<[i := f]> (rc_fronts c)) (delete j (rc_live c)) st)
      | _, _ => Ok c
      end
  end.

Record rsys (n m V : Z) (tpl : PageSource) (c : rconf) : Prop := {
  ry_src : src_inv n m V (tpl :: (pf_parent <$> rc_fronts c)) (rc_state c) (rc_live c ++ (rc_fronts c ≫= cached));
  ry_fronts : Forall (front_ok n V) (rc_fronts c)
}.

Definition rready (pf : nat) (c : rconf) : Prop := enough pf (ss_pages (rc_state c)) ∧ Forall (fun f => enough pf (pf_pages f).2) (rc_fronts c).

Lemma bind_front fs i f : fs !! i = Some f → ∃ F, (fs ≫= cached) ≡ₚ cached f ++ F ∧ ∀ f', (<[i := f']> fs ≫= cached) ≡ₚ cached f' ++ F.
Proof.
  intros Hi. exists ((take i fs ++ drop (S i) fs) ≫= cached). split; [|intros f'].
  - rewrite <- (take_drop_middle fs i f Hi) at 1. rewrite !bind_app, bind_cons. solve_Permutation.
  - rewrite insert_take_drop by (by eapply lookup_lt_Some). rewrite !bind_app, bind_cons. solve_Permutation.
Qed.

(** One frontend changes, and its handle on the source. *)
Lemma rsys_close n n' m V V' tpl c i f f' st live F : rsys n m V tpl c → rc_fronts c !! i = Some f → n' ≤ n → V ≤ V' →
  (∀ g, (<[i := g]> (rc_fronts c) ≫= cached) ≡ₚ cached g ++ F) → front_ok n' V' f' →
  src_inv n' m V' (<[S i := pf_parent f']> (tpl :: (pf_parent <$> rc_fronts c))) st (live ++ cached f' ++ F) → rsys n' m V' tpl (mkRConf (<[i := f']> (rc_fronts c)) live st).
Proof.
  intros [Hs Hf] Hi Hn HV HF Hf' Hs'. split; cbn [rc_fronts rc_live rc_state].
  - rewrite list_fmap_insert. eapply src_perm; [exact Hs'|]. by rewrite HF.
  - apply Forall_insert; [|done]. eapply list.Forall_impl; [exact Hf|]. intros g Hg. by eapply front_mono.
Qed.

Lemma rust_alloc_ok n m V tpl c i f pf : rsys (n + 6 + Z.of_nat pf) m V tpl c → rc_fronts c !! i = Some f → 0 ≤ n → rready pf c →
  ∃ o f' st, PFront.alloc pf f (rc_state c) = Ok ((o, f'), st) ∧ rsys n m (V + 5) tpl (mkRConf (<[i := f']> (rc_fronts c)) (option_list o ++ rc_live c) st).
Proof.
  intros Hs Hi Hn [Hr Hrf]. pose proof (ry_src _ _ _ _ _ Hs) as Hsrc. pose proof (Forall_lookup_1 _ _ _ _ (ry_fronts _ _ _ _ _ Hs) Hi) as Hf. pose proof (Forall_lookup_1 _ _ _ _ Hrf Hi) as Hef. cbn beta in Hef.
  destruct (bind_front _ _ _ Hi) as (F & HF & HF'). destruct (own_pop (n + 6) V f pf Hf ltac:(lia) Hef) as (o & x & E & Hf1 & Hc). unfold PFront.alloc. rewrite (lift_bind _ _ _ _ E).
  assert (Hpi : (tpl :: (pf_parent <$> rc_fronts c)) !! S i = Some (pf_parent f)) by (change ((pf_parent <$> rc_fronts c) !! i = Some (pf_parent f)); by rewrite list_lookup_fmap, Hi).
  assert (Hsrc1 : src_inv (n + 6 + Z.of_nat pf) m V (tpl :: (pf_parent <$> rc_fronts c)) (rc_state c) ((option_list o ++ rc_live c) ++ cached (PFront.set_pages f x) ++ F)).
  { eapply src_perm; [exact Hsrc|]. rewrite HF, Hc. solve_Permutation. }
  destruct o as [p|].
  - exists (Some p), (PFront.set_pages f x), (rc_state c). split; [done|]. eapply rsys_close; [exact Hs|done|lia|lia|exact HF'|eapply front_mono; [exact Hf1|lia|lia]|]. cbn [PFront.set_pages pf_parent].
    rewrite list_insert_id by done. eapply src_mono; [exact Hsrc1|lia|lia].
  - destruct (src_alloc n m V _ _ _ (S i) (pf_parent f) pf Hsrc1 Hpi Hn Hr) as (r & h & st & E2 & Hsrc2). cbn [PFront.set_pages pf_parent]. rewrite (M_bind_run _ _ _ _ _ E2).
    exists r, (PFront.set_parent (PFront.set_pages f x) h), st. split; [done|]. eapply rsys_close; [exact Hs|done|lia|lia|exact HF'|eapply (front_mono (n + 6) n (V + 1)); [exact Hf1|lia|lia]|].
    cbn [PFront.set_parent PFront.set_pages pf_parent]. eapply src_mono; [eapply src_perm; [exact Hsrc2|]|lia|lia]. cbn [option_list]. unfold cached. cbn [PFront.set_parent PFront.set_pages pf_pages]. solve_Permutation.
Qed.

Lemma rust_free_ok n m V tpl c i f p j : rsys (n + 2) m V tpl c → rc_fronts c !! i = Some f → rc_live c !! j = Some p → 0 ≤ n → V < 2 ^ 63 →
  ∃ f' st, PFront.free f p (rc_state c) = Ok (f', st) ∧ rsys n m (V + 1) tpl (mkRConf (<[i := f']> (rc_fronts c)) (delete j (rc_live c)) st).
Proof.
  intros Hs Hi Hj Hn HV. pose proof (ry_src _ _ _ _ _ Hs) as Hsrc. pose proof (Forall_lookup_1 _ _ _ _ (ry_fronts _ _ _ _ _ Hs) Hi) as Hf. pose proof Hf as [Hl Hp]. destruct (bind_front _ _ _ Hi) as (F & HF & HF').
  assert (Hpi : (tpl :: (pf_parent <$> rc_fronts c)) !! S i = Some (pf_parent f)) by (change ((pf_parent <$> rc_fronts c) !! i = Some (pf_parent f)); by rewrite list_lookup_fmap, Hi). pose proof (delete_Permutation _ _ _ Hj) as Hd.
  set (L := delete j (rc_live c)) in *. clearbody L.
  destruct (held_page _ _ _ _ _ _ p Hsrc) as [_ Hit]; [apply elem_of_app; left; by eapply list_elem_of_lookup_2|].
  assert (Hparent : ∀ x, front_ok n (V + 1) (PFront.set_pages f x) → cached (PFront.set_pages f x) ≡ₚ cached f →
    ∃ f' st, (s ← Source.free (pf_parent f) p (pf_local_size f); mret (PFront.set_parent (PFront.set_pages f x) s)) (rc_state c) = Ok (f', st) ∧ rsys n m (V + 1) tpl (mkRConf (<[i := f']> (rc_fronts c)) (L) st)).
  { intros x Hf1 Hc. assert (Hsrc1 : src_inv (n + 2) m V (tpl :: (pf_parent <$> rc_fronts c)) (rc_state c) (p :: L ++ cached f ++ F)) by (eapply src_perm; [exact Hsrc|]; rewrite HF, Hd; solve_Permutation).
    destruct (src_free n m V _ _ _ (S i) (pf_parent f) p (pf_local_size f) Hsrc1 Hpi Hn HV Hl) as (h & st & E & Hsrc2). rewrite (M_bind_run _ _ _ _ _ E). eexists _, st. split; [done|].
    eapply rsys_close; [exact Hs|done|lia|lia|exact HF'|exact Hf1|]. cbn [PFront.set_parent pf_parent]. eapply src_perm; [exact Hsrc2|]. change (cached (PFront.set_parent (PFront.set_pages f x) h)) with (cached (PFront.set_pages f x)). by rewrite Hc. }
  unfold PFront.free. destruct (pool_guess _ _ _ _ _ Hp HV) as [g Eg]. rewrite (lift_bind _ g) by done. destruct (iwrap (pf_max_overhead f) <=? g).
  - destruct f as [par pg ls mo]. apply (Hparent pg); [|done]. eapply front_mono; [exact Hf|lia|lia].
  - replace (n + 2) with (n + 1 + 1) in Hf by lia. destruct (own_push (n + 1) V f p Hf ltac:(lia) Hit) as (r & x & E & Hf1 & Hc). rewrite (lift_bind _ _ _ _ E). assert (Hf2 : front_ok n (V + 1) (PFront.set_pages f x)) by (eapply front_mono; [exact Hf1|lia|lia]).
    destruct r as [u|it]; [|exact (Hparent x Hf2 Hc)]. eexists (PFront.set_pages f x), (rc_state c). split; [done|]. eapply rsys_close; [exact Hs|done|lia|lia|exact HF'|exact Hf2|]. cbn [PFront.set_pages pf_parent].
    rewrite list_insert_id by done. eapply src_mono; [eapply src_perm; [exact Hsrc|]|lia|lia]. rewrite HF, Hc, Hd. solve_Permutation.
Qed.
Lemma rust_init_ok n m V tpl c size ov pipe : rsys (n + 2) m V tpl c → 0 ≤ n < 2 ^ 61 → 1 ≤ m → (2 * m + 3) * (n + 1) < 2 ^ 63 → 0 ≤ V → legal_size size pipe = true →
  ∃ f st, PFront.init (size, ov, pipe, tpl) (rc_state c) = Ok (f, st) ∧ rsys n (m + 1) V tpl (mkRConf (rc_fronts c ++ [f]) (rc_live c) st).
Proof.
  intros [[S1 S2 S3 S4 S5] Hf] Hn Hm Hb HV Hleg. apply andb_prop in Hleg as [Hleg Hp2%Z.leb_le]. apply andb_prop in Hleg as [Hleg Hp1%Z.leb_le]. apply andb_prop in Hleg as [Hpow Hsz%Z.ltb_lt]. destruct (S1 tpl ltac:(left)) as [Es Ec].
  destruct (pool_clone n m V (ss_pages (rc_state c)) _ 0 (so_pages tpl) S2 eq_refl Hn Hm Hb) as (bp & ps & E & Hp & _ & Hc).
  unfold PFront.init. rewrite (M_bind_run _ _ _ (Source.set_pages tpl bp) (mkSourceState (ss_k (rc_state c)) ps)) by (unfold Source.clone_source; by rewrite E).
  unfold PFront.new. cbn [Source.set_pages so_source]. rewrite Es. cbn [ms_page_size]. rewrite (rassert_true (size <=? 2 ^ e)), bind_Ok, Hpow by (apply Z.leb_le; lia). cbn [rassert]. rewrite bind_Ok.
  destruct (pool_new (B := B) pipe n (conj Hp1 Hp2) Hn) as (obp & ops & -> & Hop & Hnil). rewrite bind_Ok. eexists _, _. split; [done|]. split; cbn [rc_fronts rc_live rc_state].
  - rewrite fmap_app, bind_app. cbn [fmap list_fmap mbind list_bind pf_parent]. unfold cached at 2. cbn [pf_pages snd]. rewrite Hnil. cbn [app]. rewrite app_nil_r. split; cbn [ss_k ss_pages]; rewrite ?Hc; try done.
    + intros h. rewrite app_comm_cons, elem_of_app, list_elem_of_singleton. intros [Hh| ->]; [by apply S1|done].
    + rewrite app_comm_cons, fmap_app. exact Hp.
  - apply Forall_app. split; [eapply list.Forall_impl; [exact Hf|]; intros f; intros; eapply front_mono; [done|lia|lia]|]. apply Forall_singleton. split; [done|]. cbn [pf_pages fst snd]. eapply pool_mono; [exact Hop|lia|lia].
Qed.

Definition rust_tries (pf : nat) : Z := Z.of_nat pf + 6.

Lemma rsys_mono n n' m V V' tpl c : rsys n m V tpl c → n' ≤ n → V ≤ V' → rsys n' m V' tpl c.
Proof. intros [Hs Hf] Hn HV. split; [by eapply src_mono|]. eapply list.Forall_impl; [exact Hf|]. intros f Hf0. by eapply front_mono. Qed.

Lemma exec_rust_ok n m V tpl c x pf : rsys (n + rust_tries pf) m V tpl c → 0 ≤ n → n + rust_tries pf < 2 ^ 61 → 1 ≤ m → (2 * m + 3) * (n + rust_tries pf) < 2 ^ 63 → 0 ≤ V < 2 ^ 63 → rready pf c →
  ∃ c' m', exec_rust pf tpl c x = Ok c' ∧ m ≤ m' ≤ m + 1 ∧ rsys n m' (V + 5) tpl c'.
Proof.
  unfold rust_tries. intros Hs Hn Hn1 Hm Hb HV Hr. assert (Hsame : ∃ c' m', Ok c = Ok c' ∧ m ≤ m' ≤ m + 1 ∧ rsys n m' (V + 5) tpl c') by (exists c, m; split_and!; [done|lia|lia|eapply rsys_mono; [exact Hs|lia|lia]]).
  destruct x as [size ov pipe|i|i p]; cbn [exec_rust].
  - destruct (legal_size size pipe) eqn:Hleg; [|done]. destruct (rust_init_ok n m V tpl c size ov pipe) as (f & st & -> & Hs'); [eapply rsys_mono; [exact Hs|lia|lia]|lia|done|nia|lia|done|]. rewrite bind_Ok. eexists _, (m + 1). split_and!; [done|lia|lia|]. eapply rsys_mono; [exact Hs'|lia|lia].
  - destruct (rc_fronts c !! i) as [f|] eqn:Hi; [|done]. destruct (rust_alloc_ok n m V tpl c i f pf) as (o & f' & st & -> & Hs'); [by replace (n + 6 + Z.of_nat pf) with (n + (Z.of_nat pf + 6)) by lia|done|done|done|].
    rewrite bind_Ok. eexists _, m. split_and!; [done|lia|lia|done].
  - destruct (rc_fronts c !! i) as [f|] eqn:Hi; [|done]. destruct (list_find (p =.) (rc_live c)) as [[j y]|] eqn:Ef; [|done]. apply list_find_Some in Ef as (Ej & <- & _).
    destruct (rust_free_ok n m V tpl c i f p j) as (f' & st & -> & Hs'); [eapply rsys_mono; [exact Hs|lia|lia]|done|done|done|lia|]. rewrite bind_Ok. eexists _, m. split_and!; [done|lia|lia|]. eapply rsys_mono; [exact Hs'|lia|lia].
Qed.

Definition start_rust (target pipe : Z) (k : K) : res (PageSource * rconf) := '(tpl, ps) ← Source.new cutoff target pipe (2 ^ e); Ok (tpl, mkRConf [] [] (mkSourceState k ps)).

Lemma start_rust_ok n target pipe k : k_ok k → 1 ≤ pipe ≤ 2 ^ 63 → 0 ≤ n < 2 ^ 61 → ∃ tpl c, start_rust target pipe k = Ok (tpl, c) ∧ rsys n 1 0 tpl c.
Proof.
  intros Hk Hp Hn. unfold start_rust, Source.new, MSrc.new. destruct Hsize as [_ He]. rewrite next_power_of_two_pow2, bind_Ok by lia. destruct (pool_new (B := B) pipe n Hp Hn) as (bp & ps & -> & Hpool & Hnil). rewrite !bind_Ok.
  eexists _, _. split; [done|]. split; cbn; [|constructor]. split; cbn; rewrite ?Hnil; try done; [by intros h ->%list_elem_of_singleton|constructor|by intros p Hq%elem_of_nil].
Qed.

Definition rust_calls : Z := 2 ^ 18.

Lemma rust_budget j m pf : 0 ≤ j ≤ rust_calls → 1 ≤ m ≤ rust_calls → Z.of_nat pf ≤ 2 ^ 20 → 0 ≤ j * rust_tries pf < 2 ^ 61 ∧ (2 * m + 3) * (j * rust_tries pf) < 2 ^ 63.
Proof. unfold rust_calls, rust_tries. intros Hj Hm Hpf. assert (0 ≤ j * (Z.of_nat pf + 6) ≤ 2 ^ 39) by nia. nia. Qed.

Lemma rust_reached_ok pf tpl c0 k c : rsys (rust_calls * rust_tries pf) 1 0 tpl c0 → Z.of_nat pf ≤ 2 ^ 20 → reached (exec_rust pf tpl) (rready pf) c0 k c → Z.of_nat k ≤ rust_calls →
  ∃ m, 1 ≤ m ≤ Z.of_nat k + 1 ∧ rsys ((rust_calls - Z.of_nat k) * rust_tries pf) m (5 * Z.of_nat k) tpl c.
Proof.
  intros Hs Hpf. induction 1 as [|k c x c' Hr IH Hready E]; intros Hk; [exists 1; rewrite Z.sub_0_r; split; [lia|exact Hs]|]. destruct IH as (m & Hm & Hc); [lia|].
  set (j := rust_calls - Z.of_nat (S k)). replace (rust_calls - Z.of_nat k) with (j + 1) in Hc by lia. destruct (rust_budget (j + 1) m pf) as [B1 B2]; [lia|lia|done|]. destruct (rust_budget j m pf) as [B3 _]; [lia|lia|done|].
  replace ((j + 1) * rust_tries pf) with (j * rust_tries pf + rust_tries pf) in * by lia.
  destruct (exec_rust_ok _ _ _ tpl c x pf Hc) as (c1 & m' & E' & Hm' & Hc1); [lia|lia|lia|lia|unfold rust_calls in *; lia|done|]. rewrite E in E'. injection E' as <-.
  exists m'. split; [lia|]. by replace (5 * Z.of_nat (S k)) with (5 * Z.of_nat k + 5) by lia.
Qed.

(** C35: medium objects of the allocator for Rust are safe.  Threads make page
    frontends of any size classes from one source of pages of [2 ^ e] bytes,
    allocate and free through any of them, in any order and up to [rust_calls]
    calls, while the bags need at most [pf] tries for a pop.  Every call returns
    (an allocation with nothing when the system is out of memory), and the pages
    in use, in the caches of the frontends and in the source are distinct,
    mapped, aligned to their size, and share no memory. *)
Theorem rust_pages_safe (pf : nat) (target pipe : Z) (k0 : K) : k_ok k0 → 1 ≤ pipe ≤ 2 ^ 63 → Z.of_nat pf ≤ 2 ^ 20 →
  ∃ tpl c0, start_rust target pipe k0 = Ok (tpl, c0) ∧
    ∀ k c x, reached (exec_rust pf tpl) (rready pf) c0 k c → Z.of_nat k < rust_calls → rready pf c →
      ∃ c', exec_rust pf tpl c x = Ok c' ∧
        let ps := (rc_live c' ++ (rc_fronts c' ≫= cached)) ++ contents (ss_pages (rc_state c')) in
        NoDup ps ∧ (∀ p, p ∈ ps → page_ok e (ss_k (rc_state c')) p) ∧
        ∀ p q, p ∈ ps → q ∈ ps → p ≠ q → pages_of k_page p (2 ^ e) ## pages_of k_page q (2 ^ e).
Proof.
  intros Hk Hp Hpf. destruct (rust_budget rust_calls 1 pf) as [B1 _]; [done|done|done|]. destruct (start_rust_ok (rust_calls * rust_tries pf) target pipe k0 Hk Hp B1) as (tpl & c0 & E & Hs). exists tpl, c0. split; [done|].
  intros k c x Hr Hlt Hready. destruct (rust_reached_ok pf tpl c0 k c Hs Hpf Hr ltac:(lia)) as (m & Hm & Hc).
  set (j := rust_calls - Z.of_nat k - 1). replace (rust_calls - Z.of_nat k) with (j + 1) in Hc by lia. destruct (rust_budget (j + 1) m pf) as [B2 B3]; [lia|lia|done|]. destruct (rust_budget j m pf) as [B4 _]; [lia|lia|done|].
  replace ((j + 1) * rust_tries pf) with (j * rust_tries pf + rust_tries pf) in * by lia.
  destruct (exec_rust_ok _ _ _ tpl c x pf Hc) as (c1 & m' & E' & _ & [[_ _ _ Hnd Hok] _]); [lia|lia|lia|lia|unfold rust_calls in *; lia|done|].
  exists c1. split; [done|]. cbv zeta. split; [done|]. split; [exact Hok|]. intros p q Hp' Hq Hne. apply pages_apart; [apply (Hok p Hp')|apply (Hok q Hq)|done].
Qed.
End pages.

(** ** A sample: pages of 16384 bytes *)
Abbreviation toy_rconf := (@rconf ToyKernel FAAQueue).
Definition toy_rust_start : res (PageSource * toy_rconf) := start_rust (H := faa_bag false) 14 4096 4096 2 toy_k0.
Definition toy_rust_exec (tpl : PageSource) (c : toy_rconf) (x : rcall) : res toy_rconf := exec_rust (H0 := faa_bag_laws false) 14 1000 tpl c x.

(** Whether 1000 tries are enough, decided. *)
Definition toy_ready (c : toy_rconf) : bool :=
  let one st := bool_decide ((0 < 1000)%nat ∧ (Z.of_nat (pop_total (H0 := faa_bag_laws false) st) + 1) * len st ≤ 2 * Z.of_nat 1000 - 2) in
  one (ss_pages (rc_state c)) && forallb (fun f => one (pf_pages f).2) (rc_fronts c).

Lemma toy_ready_decided c : toy_ready c = true → rready (H0 := faa_bag_laws false) 1000 c.
Proof.
  unfold toy_ready, rready, enough. intros [H1%bool_decide_eq_true H2]%andb_prop. split; [done|]. rewrite forallb_forall in H2. apply list.Forall_forall. intros f Hf%list_elem_of_In. by apply H2, bool_decide_eq_true in Hf.
Qed.

(** A thread makes a frontend for objects of 4096 bytes, and allocates. *)
Definition toy_rust_runs : bool :=
  match toy_rust_start with
  | Ok (tpl, c0) => toy_ready c0 && match toy_rust_exec tpl c0 (RInit 4096 4 2) with Ok c => toy_ready c && match rc_fronts c with [_] => true | _ => false end | _ => false end
  | _ => false
  end.
Lemma toy_rust_runs_ok : toy_rust_runs = true.
Proof. vm_compute. reflexivity. Qed.

Lemma rust_pages_safe_witness : ∃ tpl c0 c c', toy_rust_start = Ok (tpl, c0) ∧ toy_rust_exec tpl c0 (RInit 4096 4 2) = Ok c ∧ toy_rust_exec tpl c (RAlloc 0) = Ok c' ∧
  NoDup ((rc_live c' ++ (rc_fronts c' ≫= cached (H0 := faa_bag_laws false))) ++ contents (H0 := faa_bag_laws false) (ss_pages (rc_state c'))).
Proof.
  destruct (rust_pages_safe (H0 := faa_bag_laws false) 14 4096 faa_items ltac:(split; [discriminate|lia]) ltac:(split; [exists 1; reflexivity|lia]) 1000 4096 2 toy_k0 toy_k0_ok ltac:(lia) ltac:(vm_compute; congruence)) as (tpl & c0 & E0 & Hsafe).
  pose proof toy_rust_runs_ok as Hr. unfold toy_rust_runs, toy_rust_start in Hr. rewrite E0 in Hr. apply andb_prop in Hr as [Hb0 Hr]. destruct (toy_rust_exec tpl c0 (RInit 4096 4 2)) as [c|] eqn:E1; [|discriminate Hr].
  apply andb_prop in Hr as [Hb1 _]. pose proof (reached_call (toy_rust_exec tpl) (rready (H0 := faa_bag_laws false) 1000) c0 0 c0 (RInit 4096 4 2) c (reached_start _ _ c0) (toy_ready_decided c0 Hb0) E1) as Hreach.
  destruct (Hsafe 1%nat c (RAlloc 0) Hreach ltac:(vm_compute; reflexivity) (toy_ready_decided c Hb1)) as (c' & E2 & Hnd & _). exists tpl, c0, c, c'. split; [exact E0|]. split; [exact E1|]. split; [exact E2|exact Hnd].
Defined.
