(* ===== verification/RustAlloc.v ===== *)
(** * The allocator for Rust's [Alloc] trait

    Models [ElfMalloc] and [ElfMallocBuilder] of [src/elfmalloc/src/rust_alloc.rs]:
    requests up to a quarter of the slag page go to object allocators of size
    classes that are multiples of 16, larger ones up to a bound to page frontends
    (RustPages) of powers of two, the rest to the system.  The caller of [dealloc]
    passes the layout, so that no header is read. *)

From Stdlib Require Import ZArith Lia.
From stdpp Require Import base numbers list gmap option.
From S2P Require Import Prelude StdAlloc Backing MmapAlloc ElfSources F64 SlagMeta SizeClasses ClassMeta ElfGeneral Bag FaaQueue BagPipe PageAlloc SlagAlloc Depot RustPages.

Open Scope Z_scope.

(** ** [ElfMallocBuilder] *)
Record ElfMallocBuilder := mkRustBuilder {
  rb_page_size : Z; rb_target_pa_size : Z; rb_reuse_threshold : f64; rb_max_object_size : Z; rb_small_pipe_size : Z; rb_large_pipe_size : Z;
  rb_large_obj_cutoff : Z; rb_large_obj_target_size : Z; rb_target_pipe_overhead : Z
}.

Module RB.
Section setters.
Context {K : Type} `{!Kernel K}.
Implicit Types b : ElfMallocBuilder.

Definition default (num_cpus : Z) : ElfMallocBuilder :=
  mkRustBuilder (Z.shiftl 32 10) (Z.shiftl 1 30) f0_6 (Z.shiftl 8 20) (Z.max 1 (num_cpus / 4)) (Z.max 1 (num_cpus / 2)) (Z.shiftl 1 20) (Z.shiftl 1 12) (Z.shiftl 16 20).

Definition target_pa_size b (x : Z) : ElfMallocBuilder :=
  mkRustBuilder (rb_page_size b) x (rb_reuse_threshold b) (rb_max_object_size b) (rb_small_pipe_size b) (rb_large_pipe_size b) (rb_large_obj_cutoff b) (rb_large_obj_target_size b) (rb_target_pipe_overhead b).
Definition reuse_threshold b (x : f64) : ElfMallocBuilder :=
  mkRustBuilder (rb_page_size b) (rb_target_pa_size b) x (rb_max_object_size b) (rb_small_pipe_size b) (rb_large_pipe_size b) (rb_large_obj_cutoff b) (rb_large_obj_target_size b) (rb_target_pipe_overhead b).
Definition max_object_size b (x : Z) : ElfMallocBuilder :=
  mkRustBuilder (rb_page_size b) (rb_target_pa_size b) (rb_reuse_threshold b) x (rb_small_pipe_size b) (rb_large_pipe_size b) (rb_large_obj_cutoff b) (rb_large_obj_target_size b) (rb_target_pipe_overhead b).
Definition small_pipe_size b (x : Z) : ElfMallocBuilder :=
  mkRustBuilder (rb_page_size b) (rb_target_pa_size b) (rb_reuse_threshold b) (rb_max_object_size b) x (rb_large_pipe_size b) (rb_large_obj_cutoff b) (rb_large_obj_target_size b) (rb_target_pipe_overhead b).
Definition large_pipe_size b (x : Z) : ElfMallocBuilder :=
  mkRustBuilder (rb_page_size b) (rb_target_pa_size b) (rb_reuse_threshold b) (rb_max_object_size b) (rb_small_pipe_size b) x (rb_large_obj_cutoff b) (rb_large_obj_target_size b) (rb_target_pipe_overhead b).
End setters.
End RB.

(** ** [ElfMalloc] *)
Abbreviation FrontParams := (Z * Z * Z * PageSource)%type.

Record RustMalloc (FE B : Type) := mkRustMalloc { rm_small : Multiples (Lazy ObjParams FE); rm_large : PowersOfTwo (Lazy FrontParams (PageFrontend B)) }.
Arguments mkRustMalloc {FE B} rm_small rm_large.
Arguments rm_small {FE B} r.
Arguments rm_large {FE B} r.

(** Memory, and what the clones of the page source share. *)
Abbreviation RHeap K B := (EHeap K * BagPipeState B)%type.

Module Rust.
Section ops.
  Context {K : Type} `{!Kernel K} {B : Type} `{BagLaws B Z} {FE : Type} `{!Frontend FE (EHeap K)}.
  Abbreviation St := (RHeap K B).
  Abbreviation RElf := (RustMalloc FE B).

Definition on_heap {A} (op : M (EHeap K) A) : M St A := fun s => '(x, h) ← op s.1; Ok (x, (h, s.2)).
Definition on_source {A} (op : M (SourceState K B) A) : M St A := fun s =>
  '(x, st) ← op (mkSourceState (eh_k s.1) s.2); Ok (x, (mkHeap (ss_k st) (eh_hdr s.1) (eh_slag s.1) (eh_meta s.1), ss_pages st)).

(** The class in slot [i], dereferenced through [Lazy]. *)
Definition at_small {A} (e : RElf) (i : Z) (op : FE → M (EHeap K) (A * FE)) : M St (A * RElf) :=
  cell ← lift (deref (at_slot (rm_small e) i));
  fe ← (match lazy_val cell with Some v => mret v | None => on_heap (fe_init (lazy_params cell)) end);
  '(a, fe) ← on_heap (op fe);
  mret (a, mkRustMalloc (set_slot (rm_small e) i (mkLazy (lazy_params cell) (Some fe))) (rm_large e)).
Definition at_large {A} (e : RElf) (i : Z) (op : PageFrontend B → M (SourceState K B) (A * PageFrontend B)) : M St (A * RElf) :=
  cell ← lift (deref (at_slot (rm_large e) i));
  f ← (match lazy_val cell with Some v => mret v | None => on_source (PFront.init (lazy_params cell)) end);
  '(a, f) ← on_source (op f);
  mret (a, mkRustMalloc (rm_small e) (set_slot (rm_large e) i (mkLazy (lazy_params cell) (Some f)))).

Definition exhausted (l : Layout) (o : option Z) : Z + AllocErr := match o with Some p => inl p | None => inr (Exhausted l) end.

Definition alloc (pf : nat) (e : RElf) (l : Layout) : M St ((Z + AllocErr) * RElf) :=
  let size := layout_size l in
  if size <=? max_key (rm_small e) then
    k ← lift (if 8 <? layout_align l then next_power_of_two size else Ok size);
    i ← lift (get_raw (rm_small e) k);
    '(p, e) ← at_small e i fe_alloc;
    mret (inl p, e)
  else if size <=? max_key (rm_large e) then
    i ← lift (get_raw (rm_large e) size);
    '(o, e) ← at_large e i (PFront.alloc pf);
    mret (exhausted l o, e)
  else o ← on_heap (on_k (EMap.fallible_map size)); mret (exhausted l o, e).

Definition dealloc (e : RElf) (item : Z) (l : Layout) : M St RElf :=
  let size := layout_size l in
  if size <=? max_key (rm_small e) then
    k ← lift (if 8 <? layout_align l then next_power_of_two size else s ← uadd size (MULTIPLE - 1); Ok (Z.land s (unot (MULTIPLE - 1))));
    i ← lift (get_raw (rm_small e) k);
    '(_, e) ← at_small e i (fun fe => fe ← fe_free fe item; mret (tt, fe));
    mret e
  else if size <=? max_key (rm_large e) then
    i ← lift (get_raw (rm_large e) size);
    '(_, e) ← at_large e i (fun f => f ← PFront.free f item; mret (tt, f));
    mret e
  else _ ← on_heap (on_k (EMap.unmap item size)); mret e.

Definition usable_size (e : RElf) (l : Layout) : res (Z * Z) :=
  let size := layout_size l in
  u ← (if size <=? max_key (rm_small e) then if 8 <? layout_align l then next_power_of_two size else Ok size
       else if size <=? max_key (rm_large e) then next_power_of_two size
       else Ok size);
  Ok (size, u).

(** ** [ElfMallocBuilder::build] *)

(** The closures: the metadata of a class behind [meta_pointers], and a page
    frontend with a clone of the source. *)
Definition small_class (b : ElfMallocBuilder) (pa : PageAlloc) (size : Z) : M (EHeap K * Z) (Lazy ObjParams FE) := fun '(h, meta) =>
  m ← Meta.compute_metadata size (rb_page_size b) 0 (rb_reuse_threshold b) (rb_page_size b) SmallSlag;
  '(_, h) ← store_meta meta m h;
  Ok (Lz.new (mkParams meta usize_max pa (rb_small_pipe_size b, rb_page_size b)), (h, meta + metadata_size)).
Definition large_class (b : ElfMallocBuilder) (src : PageSource) (size : Z) : M St (Lazy FrontParams (PageFrontend B)) :=
  target ← lift (udiv (rb_target_pipe_overhead b) size);
  s ← on_source (Source.clone_source src);
  mret (Lz.new (size, Z.max 1 target, rb_small_pipe_size b, s)).

(** The heap before [build], which makes the source; the state behind it.
    [small_size] and [large_size] are the sizes of the classes (of [Lazy] object
    allocators and page frontends), whose arrays are mapped. *)
Definition build (small_size large_size : Z) (b : ElfMallocBuilder) (h : EHeap K) : res (RElf * St) :=
  pa ← PA.new (rb_page_size b) (rb_target_pa_size b) (rb_large_pipe_size b) SmallSlag;
  let n_small_classes := rb_page_size b / 4 / MULTIPLE in
  _ ← rassert (0 <? n_small_classes);
  bytes ← umul metadata_size n_small_classes;
  '(meta_pointers, h) ← on_k (EMap.map bytes) h;
  '(small, h) ← Elf.with_local meta_pointers (Mult.init_conserve (Elf.class_array small_size) MULTIPLE n_small_classes (small_class b pa)) h;
  k ← uadd (max_key small) 1;
  next_size_class ← next_power_of_two k;
  max_size ← next_power_of_two (rb_max_object_size b);
  n_classes ← usub (trailing_zeros max_size) (trailing_zeros next_size_class);
  '(src, ps) ← Source.new (rb_large_obj_cutoff b) (rb_large_obj_target_size b) (rb_large_pipe_size b) max_size;
  '(large, s) ← Pow.init_conserve (Elf.class_array large_size) next_size_class n_classes (large_class b src) (h, ps);
  _ ← rassert (is_power_of_two (max_key small));
  Ok (mkRustMalloc small large, s).
End ops.
End Rust.

(** ** Where requests go *)
Section routing.
  Context {K : Type} `{!Kernel K} {B : Type} `{BagLaws B Z} {FE : Type} `{!Frontend FE (EHeap K)}.
  Abbreviation St := (RHeap K B).
  Abbreviation RElf := (RustMalloc FE B).

(** Small classes up to [2 ^ t] bytes, and [L] classes of the powers of two
    above. *)
Definition rust_shape (t L : Z) (e : RElf) : Prop :=
  4 ≤ t ≤ 40 ∧ 0 ≤ L ∧ t + L ≤ 61 ∧
  mu_start (rm_small e) = 16 ∧ mu_max (rm_small e) = 2 ^ t ∧ 16 * Z.of_nat (length (mu_classes (rm_small e))) = 2 ^ t ∧
  po_start (rm_large e) = 2 ^ (t + 1) ∧ po_max (rm_large e) = 2 ^ (t + L) ∧ Z.of_nat (length (po_classes (rm_large e))) = L.

(** The class of a request, and the calls on it. *)
Inductive route := ToSmall (i : Z) | ToLarge (i : Z) | ToSystem.
Definition route_size (t : Z) (r : route) (size : Z) : Z := match r with ToSmall i => 16 * (i + 1) | ToLarge i => 2 ^ (t + 1 + i) | ToSystem => size end.
Definition alloc_at (pf : nat) (e : RElf) (l : Layout) (r : route) : M St ((Z + AllocErr) * RElf) :=
  match r with
  | ToSmall i => '(p, e) ← Rust.at_small e i fe_alloc; mret (inl p, e)
  | ToLarge i => '(o, e) ← Rust.at_large e i (PFront.alloc pf); mret (Rust.exhausted l o, e)
  | ToSystem => o ← Rust.on_heap (on_k (EMap.fallible_map (layout_size l))); mret (Rust.exhausted l o, e)
  end.
Definition dealloc_at (e : RElf) (item : Z) (l : Layout) (r : route) : M St RElf :=
  match r with
  | ToSmall i => '(_, e) ← Rust.at_small e i (fun fe => fe ← fe_free fe item; mret (tt, fe)); mret e
  | ToLarge i => '(_, e) ← Rust.at_large e i (fun f => f ← PFront.free f item; mret (tt, f)); mret e
  | ToSystem => _ ← Rust.on_heap (on_k (EMap.unmap item (layout_size l))); mret e
  end.

Lemma small_slot_of t L e k : rust_shape t L e → 1 ≤ k ≤ 2 ^ t → ∃ i : Z, get_raw (rm_small e) k = Ok i ∧ 16 * i < k ≤ 16 * (i + 1).
Proof.
  intros (Ht & _ & _ & S1 & S2 & S3 & _) Hk. pose proof (round16_spec k) as [Hr _]. assert (Hp : 2 ^ t ≤ 2 ^ 40) by (apply Z.pow_le_mono_r; lia).
  assert (H16 : (16 | 2 ^ t)) by (apply (pow2_divide 4 t); lia). assert (Hr16 : 16 ≤ round16 k) by (destruct (round16_spec k) as [_ [q Hq]]; lia).
  destruct (mult_get (rm_small e) k) as (i & x & E & _ & Hi); [lia|by rewrite S1|lia|rewrite S1; by exists 1|by rewrite S2|rewrite S1, S2; lia|].
  exists (Z.of_nat i). split; [exact E|]. rewrite S1 in Hi. lia.
Qed.

Lemma large_slot_of t L e k : rust_shape t L e → 2 ^ t < k ≤ 2 ^ (t + L) → ∃ i : Z, get_raw (rm_large e) k = Ok i ∧ next_power_of_two k = Ok (2 ^ (t + 1 + i)) ∧ k ≤ 2 ^ (t + 1 + i).
Proof.
  intros (Ht & HL & HtL & _ & _ & _ & S4 & S5 & S6) Hk. assert (Hk1 : 1 ≤ 2 ^ t) by (pose proof (pow2_pos t ltac:(lia)); lia). assert (Hmax : 2 ^ (t + L) ≤ 2 ^ 61) by (apply Z.pow_le_mono_r; lia).
  assert (Hlog : t < Z.log2_up k ≤ t + L) by (split; [apply Z.log2_up_lt_pow2; lia|apply Z.log2_up_le_pow2; lia]).
  destruct (pow_get (rm_large e) (t + 1) k S4) as (i & x & E & _ & Hi); [lia|lia|lia|lia|]. exists (Z.of_nat i). split; [exact E|]. replace (t + 1 + Z.of_nat i) with (Z.log2_up k) by lia.
  split; [apply npo2_log; lia|]. by apply Z.log2_up_spec; lia.
Qed.

(** C37: the allocator for Rust frees what it allocates.  For every layout that is
    not empty, [alloc] and [dealloc] with that layout go to the same place: one
    object allocator, one page frontend, or the system; what is there holds the
    request, and [usable_size] reports no more than that.  A request whose
    alignment is above a word goes to a class that is a power of two. *)
Theorem rust_alloc_routes (t L : Z) (e : RElf) (l : Layout) : rust_shape t L e → 1 ≤ layout_size l < 2 ^ 62 →
  ∃ r, (∀ pf s, Rust.alloc pf e l s = alloc_at pf e l r s) ∧ (∀ item s, Rust.dealloc e item l s = dealloc_at e item l r s) ∧
    (∃ u, Rust.usable_size e l = Ok (layout_size l, u) ∧ layout_size l ≤ u ≤ route_size t r (layout_size l)) ∧
    (r = ToSystem ↔ 2 ^ (t + L) < layout_size l ∧ 2 ^ t < layout_size l) ∧
    (layout_size l ≤ 2 ^ t → 8 < layout_align l → ∃ j, 0 ≤ j ∧ route_size t r (layout_size l) = Z.max 16 (2 ^ j) ∧ layout_size l ≤ 2 ^ j).
Proof.
  intros Hs Hl. pose proof Hs as (Ht & HL & HtL & S1 & S2 & S3 & S4 & S5 & S6). set (k := layout_size l) in *. pose proof (pow2_pos t ltac:(lia)) as Hp. assert (Hle : 2 ^ t ≤ 2 ^ (t + L)) by (apply Z.pow_le_mono_r; lia).
  assert (M1 : max_key (rm_small e) = 2 ^ t) by done. assert (M2 : max_key (rm_large e) = 2 ^ (t + L)) by done.
  destruct (Z.le_gt_cases k (2 ^ t)) as [Hsmall|Hbig].
  - set (key := if 8 <? layout_align l then 2 ^ Z.log2_up k else k). assert (Hup : k ≤ 2 ^ Z.log2_up k) by (apply Z.log2_log2_up_spec; lia).
    assert (Hup2 : 2 ^ Z.log2_up k ≤ 2 ^ t) by (apply Z.pow_le_mono_r; [lia|]; apply Z.log2_up_le_pow2; lia). assert (Hkey : k ≤ key ≤ 2 ^ t) by (unfold key; destruct (8 <? layout_align l); lia).
    assert (Enp : (if 8 <? layout_align l then next_power_of_two k else Ok k) = Ok key) by (unfold key; destruct (8 <? layout_align l); [apply npo2_log; lia|done]).
    destruct (small_slot_of t L e key Hs) as (i & Ei & Hi); [lia|]. exists (ToSmall i). split_and!.
    + intros pf s. unfold Rust.alloc. fold k. rewrite M1, (proj2 (Z.leb_le k _)) by lia. rewrite (lift_bind _ key) by exact Enp. by rewrite (lift_bind _ i) by exact Ei.
    + intros item s. unfold Rust.dealloc. fold k. rewrite M1, (proj2 (Z.leb_le k _)) by lia. unfold key in Ei, Hi. destruct (8 <? layout_align l).
      * rewrite (lift_bind _ (2 ^ Z.log2_up k)) by (apply npo2_log; lia). by rewrite (lift_bind _ i) by exact Ei.
      * rewrite (lift_bind _ (round16 k)) by (apply round_up_Ok; lia). destruct (round16_spec k) as [Hr [q Hq]]. assert (H16 : (16 | 2 ^ t)) by (apply (pow2_divide 4 t); lia). destruct H16 as [z Hz].
        destruct (small_slot_of t L e (round16 k) Hs) as (i' & Ei' & Hi'); [lia|]. replace i' with i in Ei' by lia. by rewrite (lift_bind _ i) by exact Ei'.
    + exists key. unfold Rust.usable_size. fold k. rewrite M1, (proj2 (Z.leb_le k _)) by lia. rewrite Enp, bind_Ok. cbn [route_size]. split; [done|lia].
    + split; [done|lia].
    + intros _ Hal. unfold key in Hi. rewrite (proj2 (Z.ltb_lt 8 _)) in Hi by lia. pose proof (Z.log2_up_nonneg k). exists (Z.log2_up k). split_and!; [done| |done]. cbn [route_size].
      destruct (Z.le_gt_cases 4 (Z.log2_up k)) as [H4|H4]; [destruct (pow2_divide 4 (Z.log2_up k) ltac:(lia)) as [z Hz]; lia|]. assert (2 ^ Z.log2_up k ≤ 2 ^ 3) by (apply Z.pow_le_mono_r; lia). lia.
  - destruct (Z.le_gt_cases k (2 ^ (t + L))) as [Hmed|Hsys].
    + destruct (large_slot_of t L e k Hs) as (i & Ei & En & Hi); [lia|]. exists (ToLarge i). split_and!; [intros pf s; unfold Rust.alloc|intros item s; unfold Rust.dealloc|exists (2 ^ (t + 1 + i)); unfold Rust.usable_size| |lia]; fold k;
        rewrite ?M1, ?M2, ?(proj2 (Z.leb_gt k (2 ^ t))), ?(proj2 (Z.leb_le k (2 ^ (t + L)))) by lia; [by rewrite (lift_bind _ i) by exact Ei|by rewrite (lift_bind _ i) by exact Ei| |split; [done|lia]].
      rewrite En, bind_Ok. cbn [route_size]. split; [done|lia].
    + exists ToSystem. split_and!; [intros pf s; unfold Rust.alloc|intros item s; unfold Rust.dealloc|exists k; unfold Rust.usable_size| |lia]; fold k;
        rewrite ?M1, ?M2, ?(proj2 (Z.leb_gt k (2 ^ t))), ?(proj2 (Z.leb_gt k (2 ^ (t + L)))) by lia; [done|done| |split; [lia|done]]. split; [done|]. cbn. lia.
Qed.
End routing.

(** ** Construction *)


Section construction.
  Context {K : Type} `{!Kernel K} {B : Type} `{BagLaws B Z} {FE : Type} `{!Frontend FE (EHeap K)}.
  Context (b : ElfMallocBuilder) (a : Z).
  Hypothesis Ha : 12 ≤ a ≤ 18.
  Hypothesis Hpage : rb_page_size b = 2 ^ a.
  Abbreviation St := (RHeap K B).
  Abbreviation RElf := (RustMalloc FE B).

Definition rust_pages : PageAlloc := mkPageAlloc (rb_target_pa_size b) (mkMmapSource (2 ^ a)) 1 (mkMmapSource (2 ^ a)) (rb_large_pipe_size b) SmallSlag.
Definition rust_meta (size : Z) : res Metadata := Meta.compute_metadata size (2 ^ a) 0 (rb_reuse_threshold b) (2 ^ a) SmallSlag.
Definition n_small : Z := 2 ^ (a - 6).

Lemma n_small_spec : rb_page_size b / 4 / MULTIPLE = n_small ∧ 16 * n_small = 2 ^ (a - 2) ∧ 64 ≤ n_small ≤ 2 ^ 12.
Proof.
  rewrite Hpage. unfold n_small. assert (E : 2 ^ a = 2 ^ (a - 6) * 16 * 4) by (change 4 with (2 ^ 2); change 16 with (2 ^ 4); rewrite <- !Z.pow_add_r by lia; f_equal; lia).
  split; [unfold MULTIPLE; rewrite E, !Z.div_mul by lia; done|]. split; [change 16 with (2 ^ 4); rewrite <- Z.pow_add_r by lia; f_equal; lia|].
  split; [apply (Z.pow_le_mono_r 2 6); lia|apply Z.pow_le_mono_r; lia].
Qed.

Lemma rust_meta_ok size : 2 ≤ size ≤ 2 ^ (a - 2) → ∃ m, rust_meta size = Ok m ∧ layout_ok size (2 ^ a) (2 ^ a) m ∧ mask_ok m ∧ ty m = SmallSlag.
Proof.
  intros Hs. assert (2 ^ (a - 2) ≤ 2 ^ a) by (apply Z.pow_le_mono_r; lia). assert (2 ^ a < 2 ^ 53) by (apply Z.pow_lt_mono_r; lia).
  destruct (compute_metadata_ok size (2 ^ a) 0 (2 ^ a) (rb_reuse_threshold b) SmallSlag) as (m & E & Hl & Hm & Ht); [lia|lia|]. rewrite Z.min_id in Hl. by exists m.
Qed.

(** The cell of a small class, and the state before the [j]th is made. *)
Definition small_cell (base size : Z) : Lazy ObjParams FE := Lz.new (mkParams (base + 96 * (size / 16 - 1)) usize_max rust_pages (rb_small_pipe_size b, 2 ^ a)).
Definition small_state (base j : Z) (st : EHeap K * Z) : Prop :=
  k_ok (eh_k st.1) ∧ st.2 = base + 96 * j ∧ pages_of k_page base (96 * n_small) ⊆ k_mapped (eh_k st.1) ∧
  ∀ i, 0 ≤ i < j → ∃ m, rust_meta (16 * (i + 1)) = Ok m ∧ eh_meta st.1 !! (base + 96 * i) = Some m.

Lemma small_class_builds base i : 0 ≤ i < n_small → builds (small_state base) (fun c x => x = small_cell base c) (Rust.small_class b rust_pages) i (16 + 16 * i).
Proof.
  intros Hi [h mp] (Hok & Emp & Hmap & Hmeta). cbn [fst snd] in *. destruct n_small_spec as (_ & Hn & _). destruct (rust_meta_ok (16 * (i + 1))) as (m & Em & _); [lia|].
  assert (Hr : readable h mp metadata_size = true) by (eapply region_readable; [exact Hmap|lia|unfold metadata_size; lia]).
  eexists _, (mkHeap (eh_k h) (eh_hdr h) (eh_slag h) (<[mp := m]> (eh_meta h)), mp + metadata_size). split; [|split].
  - unfold Rust.small_class. rewrite Hpage. replace (16 + 16 * i) with (16 * (i + 1)) by lia. unfold rust_meta in Em. rewrite Em, bind_Ok. unfold store_meta. by rewrite Hr, bind_Ok.
  - split; [done|]. split; [cbn; unfold metadata_size; lia|]. split; [done|]. cbn [fst eh_meta]. intros j Hj. destruct (decide (j = i)) as [->|Hne]; [exists m; split; [done|]; by rewrite Emp, lookup_insert_eq|].
    destruct (Hmeta j ltac:(lia)) as (m' & Em' & Hl'). exists m'. split; [done|]. rewrite lookup_insert_ne; [done|lia].
  - unfold small_cell. replace ((16 + 16 * i) / 16 - 1) with i; [by rewrite Emp|]. replace (16 + 16 * i) with ((1 + i) * 16) by lia. rewrite Z.div_mul by lia. lia.
Qed.

(** The frontends to be share one empty source. *)
Definition source_of (c : Z) (s : PageSource) : Prop :=
  so_source s = mkMmapSource (2 ^ c) ∧ so_cutoff_bytes s = rb_large_obj_cutoff b ∧ so_target_size s = rb_large_obj_target_size b.
Definition same_meta (h h' : EHeap K) : Prop := k_ok (eh_k h') ∧ eh_meta h' = eh_meta h.
Definition large_state (h : EHeap K) (j : Z) (st : St) : Prop :=
  same_meta h st.1 ∧ contents st.2 = [] ∧ ∃ hs, pool (2 ^ 20 - 2 * j) (j + 1) 0 st.2 hs ∧ hs ≠ [].


(** The arrays of classes. *)
Lemma small_arrays base sz : 1 ≤ sz ≤ 2 ^ 20 → makes_arrays (small_state base) (Elf.class_array sz) n_small True.
Proof.
  intros Hs j n [h mp] (Hk & Emp & Hmap & Hmeta) Hn. destruct n_small_spec as (_ & _ & Hns). cbn [fst snd] in *.
  destruct (class_array_spec sz n h Z mp Hk Hs ltac:(lia)) as [E|(x & k' & E & Hk' & Hsub)]; [left; by split|right].
  eexists x, _. split; [exact E|]. split; [done|]. split; [done|]. split; [cbn; set_solver|exact Hmeta].
Qed.





(** [build] up to the large classes: the small ones are made, and an empty
    source. *)
Lemma build_small small_size large_size (h : EHeap K) (c : Z) : k_ok (eh_k h) → 1 ≤ small_size ≤ 2 ^ 20 → 1 ≤ rb_max_object_size b → c = Z.log2_up (rb_max_object_size b) →
  a - 1 ≤ c ≤ 40 → 1 ≤ rb_large_pipe_size b ≤ 2 ^ 63 →
  Rust.build (FE := FE) (B := B) small_size large_size b h = Fault UnwrapNone ∨
  ∃ (small : Multiples (Lazy ObjParams FE)) base h2 mp src ps,
    Rust.build small_size large_size b h =
      ('(large, s) ← Pow.init_conserve (Elf.class_array large_size) (2 ^ (a - 1)) (c - (a - 1)) (Rust.large_class b src) (h2, ps); Ok (mkRustMalloc small large, s)) ∧
    small_state base n_small (h2, mp) ∧ length (mu_classes small) = Z.to_nat n_small ∧ mu_start small = 16 ∧ mu_max small = 2 ^ (a - 2) ∧
    (∀ i x, mu_classes small !! i = Some x → x = small_cell base (16 + 16 * Z.of_nat i)) ∧ source_of c src ∧ large_state h2 0 (h2, ps).
Proof.
  intros Hk Hss Hmax Hc Hca Hpipe. destruct n_small_spec as (En & Hn & Hnb). unfold Rust.build. rewrite En, Hpage.
  assert (Epa : PA.new (2 ^ a) (rb_target_pa_size b) (rb_large_pipe_size b) SmallSlag = Ok rust_pages) by (unfold PA.new; rewrite new_aligned_cfg by lia; by rewrite Z.sub_diag).
  rewrite Epa, bind_Ok. rewrite rassert_true, bind_Ok by (apply Z.ltb_lt; lia). rewrite umul_Ok, bind_Ok by (unfold metadata_size; lia).
  destruct (fallible_map_spec (eh_k h) (96 * n_small) Hk ltac:(lia)) as (r & k' & E & Hk' & Hr).
  assert (Em : on_k (EMap.map (metadata_size * n_small)) h = match r with Some base => Ok (base, mkHeap k' (eh_hdr h) (eh_slag h) (eh_meta h)) | None => Fault UnwrapNone end).
  { unfold EMap.map, on_k. change metadata_size with 96. rewrite (M_bind_run _ _ _ _ _ E). by destruct r. }
  rewrite Em. clear Em. destruct r as [base|]; [|by left]. destruct Hr as (Hb0 & Hbd & _ & _ & Hmap & _). rewrite bind_Ok. set (h1 := mkHeap k' (eh_hdr h) (eh_slag h) (eh_meta h)).
  destruct (mult_init_spec (small_state base) (fun c x => x = small_cell base c) (Rust.small_class b rust_pages) (Elf.class_array small_size) n_small True (small_arrays base small_size Hss) 16 n_small (h1, base) 0)
    as [[_ Es]|(small & [h2 mp] & Es & Hst & Hlen & Hstart & Hmx & Hcells)]; [lia|lia|lia|intros i Hi; by apply small_class_builds|split; [done|]; split; [cbn; lia|]; split; [cbn; rewrite Hmap; set_solver|lia]| |].
  { left. unfold MULTIPLE, Elf.with_local. by rewrite Es. }
  right. unfold MULTIPLE, Elf.with_local. rewrite Es, bind_Ok. change (round16 16) with 16 in *.
  assert (Hmk : mu_max small = 2 ^ (a - 2)) by lia. change (max_key small) with (mu_max small). rewrite Hmk.
  assert (Hq : 2 ^ (a - 2) ≤ 2 ^ 16) by (apply Z.pow_le_mono_r; lia). assert (Hsz : rb_max_object_size b ≤ 2 ^ c) by (rewrite Hc; apply Z.log2_log2_up_spec; lia). assert (2 ^ c ≤ 2 ^ 40) by (apply Z.pow_le_mono_r; lia).
  rewrite uadd_Ok, bind_Ok by lia. rewrite (npo2_log (2 ^ (a - 2) + 1)), bind_Ok by lia. replace (Z.log2_up (2 ^ (a - 2) + 1)) with (a - 1) by (rewrite Z.add_1_r, Z.log2_up_succ_pow2; lia).
  rewrite npo2_log, bind_Ok, <- Hc by lia. rewrite !trailing_zeros_pow2, usub_Ok, bind_Ok by lia. unfold Source.new, MSrc.new. rewrite next_power_of_two_pow2, bind_Ok by lia.
  destruct (pool_new (B := B) (rb_large_pipe_size b) (2 ^ 20) Hpipe ltac:(lia)) as (bp & ps & -> & Hpool & Hnil). rewrite !bind_Ok.
  rewrite (rassert_true (is_power_of_two _)) by (apply is_power_of_two_pow2; lia). eexists small, base, h2, mp, _, ps. split; [reflexivity|].
  split; [done|]. do 4 (split; [done|]). split; [done|]. split; [split; [apply Hst|done]|]. split; [done|]. by exists [bp].
Qed.


(** C40: [build] panics when there is no large class.  With the same pages and a
    [max_object_size] above a quarter and up to half of a page, the number of
    large classes is computed as zero, and the array for no classes cannot be
    mapped: if memory suffices that far, an assertion fails. *)
Theorem rust_build_no_large_class (small_size large_size : Z) (h : EHeap K) : k_ok (eh_k h) → 1 ≤ small_size ≤ 2 ^ 20 → 1 ≤ large_size →
  2 ^ (a - 2) < rb_max_object_size b ≤ 2 ^ (a - 1) → 1 ≤ rb_large_pipe_size b ≤ 2 ^ 63 →
  Rust.build (FE := FE) (B := B) small_size large_size b h = Fault UnwrapNone ∨ Rust.build (FE := FE) (B := B) small_size large_size b h = Fault AssertFailed.
Proof.
  intros Hk Hss Hls Hmax Hpipe. pose proof (pow2_pos (a - 2) ltac:(lia)).
  assert (Hc : a - 1 = Z.log2_up (rb_max_object_size b)) by (symmetry; apply Z.log2_up_unique; [lia|]; replace (Z.pred (a - 1)) with (a - 2) by lia; done).
  destruct (build_small small_size large_size h (a - 1) Hk Hss ltac:(lia) Hc ltac:(lia) Hpipe) as [E|(small & base & h2 & mp & src & ps & E & _)]; [by left|right].
  rewrite E. unfold Pow.init_conserve. rewrite (lift_bind _ (2 ^ (a - 1))) by (apply next_power_of_two_pow2; lia). rewrite Z.sub_diag.
  unfold mbind, M_bind, Elf.class_array, on_k. by rewrite typed_array_empty by lia.
Qed.
End construction.

(** ** Samples: an allocator with pages of 4096 bytes, and the default one *)
#[local] Instance rust_unit_frontend : Frontend unit (EHeap ToyKernel) := {
  fe_init := fun _ => mret tt; fe_alloc := fun fe => mret (0, fe); fe_free := fun fe _ => mret fe
}.

Definition toy_small_cell : Lazy ObjParams unit := Lz.new (mkParams 0 usize_max little_pages (1, 4096)).
Definition toy_rust_source : PageSource := mkSource (2 ^ 20) (2 ^ 12) (mkPipe 0 1 0 0 0) (mkMmapSource (2 ^ 13)).
Definition toy_large_cell : Lazy FrontParams (PageFrontend FAAQueue) := Lz.new (2 ^ 11, 2, 1, toy_rust_source).
Definition toy_rust : RustMalloc unit FAAQueue := mkRustMalloc (mkMultiples 16 (2 ^ 10) (replicate 64 toy_small_cell)) (mkPowers (2 ^ 11) (2 ^ 12) (replicate 2 toy_large_cell)).

Lemma rust_alloc_routes_witness : ∃ r, r ≠ ToSystem ∧ (∀ item s, Rust.dealloc (H0 := faa_bag_laws false) toy_rust item (mkLayout 24 16) s = dealloc_at (H0 := faa_bag_laws false) toy_rust item (mkLayout 24 16) r s) ∧
  ∃ j, 0 ≤ j ∧ route_size 10 r 24 = Z.max 16 (2 ^ j).
Proof.
  destruct (rust_alloc_routes (H0 := faa_bag_laws false) 10 2 toy_rust (mkLayout 24 16)) as (r & _ & Hd & _ & Hsys & Hal).
  - repeat split; discriminate.
  - split; [discriminate|reflexivity].
  - exists r. split; [intros Hr; apply Hsys in Hr as [Hr _]; discriminate Hr|]. split; [exact Hd|]. destruct Hal as (j & Hj & Hsz & _); [discriminate|reflexivity|]. exists j. split; [exact Hj|exact Hsz].
Defined.


(** Pages of 32 KiB, and objects of up to 16 KiB. *)
Lemma rust_build_no_large_class_witness :
  Rust.build (FE := unit) (H := faa_bag false) 128 256 (RB.max_object_size (RB.default 4) (2 ^ 14)) toy_heap = Fault UnwrapNone ∨
  Rust.build (FE := unit) (H := faa_bag false) 128 256 (RB.max_object_size (RB.default 4) (2 ^ 14)) toy_heap = Fault AssertFailed.
Proof.
  apply (rust_build_no_large_class (FE := unit) (H0 := faa_bag_laws false) (RB.max_object_size (RB.default 4) (2 ^ 14)) 15 ltac:(split; discriminate) eq_refl 128 256 toy_heap toy_k0_ok);
    [split; discriminate|discriminate|split; [reflexivity|discriminate]|split; discriminate].
Defined.
