(* ===== verification/SlabSystem.v ===== *)
(** * Stack-based slabs

    Models [System] and [SlabHeader] of [src/slab-alloc/src/stack.rs] with the
    two ways of finding an object's slab: by alignment ([aligned.rs]) and by a
    pointer map ([large.rs]).  The state holds the memory the code writes: slab
    headers, the words of the pointer stacks, and which addresses hold valid
    objects.  The result is an instance of the slab-system interface for each
    of the two. *)

From Stdlib Require Import ZArith Lia.
From S2P Require Import Prelude StdAlloc SlabUtil SlabList PtrMap InitSystem SlabLayout SlabIface Backing.
From stdpp Require Import base numbers list gmap option fin_maps.

Open Scope Z_scope.

Record SlabHeader := mkHdr { hdr_stack : Stk.Stack; hdr_color : Z; hdr_next : Z; hdr_prev : Z }.

#[export] Instance SlabHeader_linkable : Linkable SlabHeader.
Proof.
  refine {| lk_next := hdr_next; lk_prev := hdr_prev;
    set_next h p := mkHdr (hdr_stack h) (hdr_color h) p (hdr_prev h);
    set_prev h p := mkHdr (hdr_stack h) (hdr_color h) (hdr_next h) p;
    Payload := Stk.Stack * Z; lk_payload h := (hdr_stack h, hdr_color h) |}; done.
Defined.

(** [trait ConfigData]: per-slab hooks and the lookup of an object's slab. *)
Class ConfigData (C : Type) := {
  post_alloc : C → SL.SLayout → Z → gmap Z SlabHeader → Z → res C;
  pre_dealloc : C → SL.SLayout → Z → gmap Z SlabHeader → Z → res C;
  ptr_to_slab : C → Z → Z → res Z;
}.

(** [aligned::ConfigData]: the slab is the object's address rounded down. *)
Module AlignedCfg.
Definition ptr_to_slab (slab_size ptr : Z) : res Z :=
  m ← usub slab_size 1;
  let slab := Z.land ptr (unot m) in
  r ← umod slab slab_size;
  _ ← rassert (r =? 0);
  Ok slab.
End AlignedCfg.

#[export] Instance aligned_config : ConfigData unit :=
  {| post_alloc c _ _ _ _ := Ok c; pre_dealloc c _ _ _ _ := Ok c; ptr_to_slab _ := AlignedCfg.ptr_to_slab |}.

(** [large::ConfigData]: a map from pages, or from objects, to slabs. *)
Module LargeCfg.
Record ConfigData := mkConfig { map : PtrHashMap; map_by_page_addr : bool; PAGE_SIZE : Z }.

(** Key [i] of a slab. *)
Definition key (c : ConfigData) (l : SL.SLayout) (slab color i : Z) : res Z :=
  if map_by_page_addr c then
    o ← umul i (PAGE_SIZE c);
    page_ptr ← uadd slab o;
    r ← umod page_ptr (PAGE_SIZE c);
    _ ← rassert (r =? 0);
    Ok page_ptr
  else SL.nth_obj l slab color i.

Definition num_keys (c : ConfigData) (l : SL.SLayout) (slab_size : Z) : res Z :=
  if map_by_page_addr c then udiv slab_size (PAGE_SIZE c) else Ok (SL.num_obj l).

Definition post_alloc (c : ConfigData) (l : SL.SLayout) (slab_size : Z) (hdrs : gmap Z SlabHeader) (slab : Z) : res ConfigData :=
  n ← num_keys c l slab_size;
  h ← deref (hdrs !! slab);
  m ← rfold (fun m i => k ← key c l slab (hdr_color h) i; PM.insert m k slab) (zrange 0 n) (map c);
  Ok (mkConfig m (map_by_page_addr c) (PAGE_SIZE c)).

Definition pre_dealloc (c : ConfigData) (l : SL.SLayout) (slab_size : Z) (hdrs : gmap Z SlabHeader) (slab : Z) : res ConfigData :=
  n ← num_keys c l slab_size;
  h ← deref (hdrs !! slab);
  m ← rfold (fun m i => k ← key c l slab (hdr_color h) i; PM.delete m k) (zrange 0 n) (map c);
  Ok (mkConfig m (map_by_page_addr c) (PAGE_SIZE c)).

Definition ptr_to_slab (c : ConfigData) (_ ptr : Z) : res Z :=
  if map_by_page_addr c then
    m ← usub (PAGE_SIZE c) 1; PM.get (map c) (Z.land ptr (unot m))
  else PM.get (map c) ptr.
End LargeCfg.

#[export] Instance large_config : ConfigData LargeCfg.ConfigData :=
  {| post_alloc := LargeCfg.post_alloc; pre_dealloc := LargeCfg.pre_dealloc; ptr_to_slab := LargeCfg.ptr_to_slab |}.

(** [stack::System] with the memory it works on. *)
Record System (B C : Type) := mkSystem {
  sys_data : C;
  sys_layout : SL.SLayout;
  sys_backing : B;
  hdrs : gmap Z SlabHeader;
  words : gmap Z Z;
  objmem : gset Z
}.
Arguments mkSystem {B C}.
Arguments sys_data {B C}.
Arguments sys_layout {B C}.
Arguments sys_backing {B C}.
Arguments hdrs {B C}.
Arguments words {B C}.
Arguments objmem {B C}.

Module Sys.
Section ops.
Context {Status : Type} `{!InitSystem Status} {B C : Type} `{!UntypedObjectAlloc B} `{!ConfigData C}.
Implicit Types s : System B C.

Definition from_config_data (data : C) (layout : SL.SLayout) (alloc : B) : System B C :=
  mkSystem data layout alloc ∅ ∅ ∅.

Definition set_colors (l : SL.SLayout) (cs : Color.ColorSettings) : SL.SLayout :=
  SL.mkSLayout (SL.num_obj l) (SL.obj_layout l) (SL.stack_begin_offset l) (SL.array_begin_offset l) cs.

Definition slab_size s : Z := layout_size (oa_layout (sys_backing s)).

(** [slab.stack.push] and [slab.stack.pop] through the header. *)
Definition push_hdr (hm : gmap Z SlabHeader * gmap Z Z) (slab stack_data_ptr packed : Z) :
    res (gmap Z SlabHeader * gmap Z Z) :=
  let '(hdrs, words) := hm in
  h ← deref (hdrs !! slab);
  '(st, words) ← Stk.push (hdr_stack h) words stack_data_ptr packed;
  Ok (<[slab:=mkHdr st (hdr_color h) (hdr_next h) (hdr_prev h)]> hdrs, words).

Definition pop_hdr (hdrs : gmap Z SlabHeader) (words : gmap Z Z) (slab stack_data_ptr : Z) : res (Z * gmap Z SlabHeader) :=
  h ← deref (hdrs !! slab);
  '(packed, st) ← Stk.pop (hdr_stack h) words stack_data_ptr;
  Ok (packed, <[slab:=mkHdr st (hdr_color h) (hdr_next h) (hdr_prev h)]> hdrs).

(** The null pointer when the backing allocator is exhausted. *)
Definition alloc_slab s : res (Z * System B C) :=
  '(color, cs) ← Color.next_color (SL.color_settings (sys_layout s)) (layout_align (SL.obj_layout (sys_layout s)));
  let layout := set_colors (sys_layout s) cs in
  '(r, b) ← oa_alloc (sys_backing s);
  match r with
  | None => Ok (0, mkSystem (sys_data s) layout b (hdrs s) (words s) (objmem s))
  | Some slab =>
      let hdrs1 := <[slab:=mkHdr Stk.new color 0 0]> (hdrs s) in
      stack_data_ptr ← SL.stack_begin layout slab;
      '(hdrs2, words2) ← rfold (fun hm i =>
          ptr ← SL.nth_obj layout slab color i;
          push_hdr hm slab stack_data_ptr (pack ptr (status_uninitialized (Status := Status))))
        (zrange 0 (SL.num_obj layout)) (hdrs1, words s);
      data ← post_alloc (sys_data s) layout (layout_size (oa_layout b)) hdrs2 slab;
      Ok (slab, mkSystem data layout b hdrs2 words2 (objmem s))
  end.

(** The header and the stack of a slab go away with its block. *)
Definition unmap_words (slab size : Z) (w : gmap Z Z) : gmap Z Z :=
  filter (fun kv => ¬ (slab ≤ kv.1 < slab + size)) w.

Definition dealloc_slab s (slab : Z) : res (System B C) :=
  h ← deref (hdrs s !! slab);
  _ ← rassert (Stk.size (hdr_stack h) =? SL.num_obj (sys_layout s));
  data ← pre_dealloc (sys_data s) (sys_layout s) (slab_size s) (hdrs s) slab;
  stack_data_ptr ← SL.stack_begin (sys_layout s) slab;
  '(hdrs1, objs1) ← rfold (fun ho _ =>
      '(packed, h) ← pop_hdr ho.1 (words s) slab stack_data_ptr;
      Ok (h, InitSystem.drop ho.2 (unpack_ptr packed) (unpack_status (InitSystem := InitSystem0) packed)))
    (zrange 0 (SL.num_obj (sys_layout s))) (hdrs s, objmem s);
  b ← oa_dealloc (sys_backing s) slab;
  Ok (mkSystem data (sys_layout s) b (delete slab hdrs1) (unmap_words slab (slab_size s) (words s)) objs1).

Definition is_full s (slab : Z) : res bool :=
  h ← deref (hdrs s !! slab); Ok (Stk.size (hdr_stack h) =? SL.num_obj (sys_layout s)).

Definition is_empty s (slab : Z) : res bool :=
  h ← deref (hdrs s !! slab); Ok (Stk.size (hdr_stack h) =? 0).

Definition alloc s (slab : Z) : res (Z * Status * System B C) :=
  stack_data_ptr ← SL.stack_begin (sys_layout s) slab;
  '(packed, h) ← pop_hdr (hdrs s) (words s) slab stack_data_ptr;
  Ok (unpack_ptr packed, unpack_status packed,
      mkSystem (sys_data s) (sys_layout s) (sys_backing s) h (words s) (objmem s)).

Definition dealloc s (obj : Z) (init_status : Status) : res (Z * bool * System B C) :=
  slab ← ptr_to_slab (sys_data s) (slab_size s) obj;
  h ← deref (hdrs s !! slab);
  let was_empty := Stk.size (hdr_stack h) =? 0 in
  stack_data_ptr ← SL.stack_begin (sys_layout s) slab;
  '(h, w) ← push_hdr (hdrs s, words s) slab stack_data_ptr (pack obj init_status);
  Ok (slab, was_empty, mkSystem (sys_data s) (sys_layout s) (sys_backing s) h w (objmem s)).
End ops.
End Sys.

(** ** Geometry

    The sizes that a slab system is built with: object layout, block layout of
    the backing allocator, objects per slab and greatest color. *)
Record Geom := mkGeom { g_layout : Layout; g_block : Layout; g_num : Z; g_max : Z }.

Definition g_size (g : Geom) : Z := layout_size (g_block g).

Definition geom_ok (g : Geom) : Prop :=
  obj_layout_ok (g_layout g) ∧ slab_size_ok (g_size g) ∧
  (layout_align (g_layout g) | layout_size (g_layout g)) ∧ (layout_align (g_layout g) | layout_align (g_block g)) ∧
  1 ≤ g_num g ∧ 0 ≤ g_max g ∧
  obj_off (layout_align (g_layout g)) (g_num g) + g_max g + g_num g * layout_size (g_layout g) ≤ g_size g.

(** Object [n] of the slab at [p] with color [c]. *)
Definition addr (g : Geom) (p c n : Z) : Z :=
  p + obj_off (layout_align (g_layout g)) (g_num g) + c + n * layout_size (g_layout g).

Definition objects (g : Geom) (p c : Z) : list Z := addr g p c <$> zrange 0 (g_num g).

(** A slab layout of this geometry; only the next color differs. *)
Definition shape (g : Geom) (sl : SL.SLayout) : Prop :=
  (∃ u, layout_for (g_layout g) (g_size g) sl u) ∧ SL.num_obj sl = g_num g ∧
  Color.max_color (SL.color_settings sl) = g_max g.

Definition valid_color (g : Geom) (c : Z) : Prop := 0 ≤ c ≤ g_max g ∧ (layout_align (g_layout g) | c).

(** Slabs at blocks of the backing allocator, with their colors. *)
Definition slabs_ok (g : Geom) (colors : gmap Z Z) : Prop :=
  (∀ p c, colors !! p = Some c → block_ok (g_block g) p ∧ valid_color g c) ∧
  (∀ p q, p ∈ dom colors → q ∈ dom colors → p ≠ q → disjoint_from p (g_size g) q (g_size g)).

(** What [stack::System] needs of the hooks. *)
Class ConfigLaws (C : Type) `{!ConfigData C} (g : Geom) := {
  cfg_inv : C → gmap Z Z → Prop;
  post_alloc_spec c colors sl hd p h : cfg_inv c colors → shape g sl → colors !! p = None → hd !! p = Some h →
    slabs_ok g (<[p:=hdr_color h]> colors) →
    ∃ c', post_alloc c sl (g_size g) hd p = Ok c' ∧ cfg_inv c' (<[p:=hdr_color h]> colors);
  pre_dealloc_spec c colors sl hd p h : cfg_inv c colors → shape g sl → slabs_ok g colors →
    colors !! p = Some (hdr_color h) → hd !! p = Some h →
    ∃ c', pre_dealloc c sl (g_size g) hd p = Ok c' ∧ cfg_inv c' (delete p colors);
  ptr_to_slab_spec c colors p col n : cfg_inv c colors → slabs_ok g colors → colors !! p = Some col →
    0 ≤ n < g_num g → ptr_to_slab c (g_size g) (addr g p col n) = Ok p;
}.

Section geometry.
Context (g : Geom) (Hg : geom_ok g).

Lemma g_align_pos : 0 < layout_align (g_layout g).
Proof. destruct Hg as [Hl _]. by apply obj_layout_align in Hl as [? _]. Qed.

Lemma addr_bounds p c n : 0 ≤ c ≤ g_max g → 0 ≤ n < g_num g →
  p + hdr_size + 8 * g_num g ≤ addr g p c n ∧ addr g p c n + layout_size (g_layout g) ≤ p + g_size g.
Proof.
  intros Hc Hn. pose proof g_align_pos as Ha. destruct Hg as ((Hsz & _) & _ & _ & _ & H1 & H0 & Hroom).
  pose proof (obj_off_bounds (layout_align (g_layout g)) (g_num g) Ha). unfold addr. nia.
Qed.

Lemma addr_lt p c n m : 0 ≤ n < m → addr g p c n + layout_size (g_layout g) ≤ addr g p c m.
Proof. intros Hn. destruct Hg as ((Hsz & _) & _). unfold addr. nia. Qed.

Lemma addr_inj p c n m : addr g p c n = addr g p c m → n = m.
Proof. intros E. destruct Hg as ((Hsz & _) & _). unfold addr in E. nia. Qed.

Lemma nth_obj_addr sl p c n : shape g sl → block_ok (g_block g) p → valid_color g c → 0 ≤ n < g_num g →
  SL.nth_obj sl p c n = Ok (addr g p c n).
Proof.
  intros ([u HL] & En & Em) (Hp & Hps & _) [Hc _] Hn. pose proof Hg as (Hl & Hs & _).
  rewrite (nth_obj_spec (g_layout g) (g_size g) sl u) by (done || lia). f_equal.
  unfold obj_addr, addr. destruct HL as (_ & -> & _ & -> & _). by rewrite En.
Qed.

Lemma stack_begin_addr sl p : shape g sl → block_ok (g_block g) p → SL.stack_begin sl p = Ok (p + hdr_size).
Proof.
  intros ([u (_ & _ & Hst & _)] & _) (Hp & Hps & _). pose proof Hg as (_ & _ & _ & _ & H1 & H0 & Hroom).
  pose proof (addr_bounds p 0 0 ltac:(lia) ltac:(lia)). destruct Hg as ((Hsz & _) & _).
  unfold SL.stack_begin. rewrite Hst, uadd_Ok; [done|]. unfold g_size in *. lia.
Qed.

Lemma addr_aligned p c n : block_ok (g_block g) p → valid_color g c → (layout_align (g_layout g) | addr g p c n).
Proof.
  intros (_ & _ & Hp) [_ Hc]. destruct Hg as ((_ & a & Ha & Ea) & _ & Hsz & Hbl & _). unfold addr.
  apply Z.divide_add_r; [|by apply Z.divide_mul_r]. do 1 (apply Z.divide_add_r; [|done]).
  apply Z.divide_add_r; [by eapply Z.divide_trans|]. rewrite Ea. apply obj_off_aligned. lia.
Qed.

Lemma elem_of_objects p c o : o ∈ objects g p c ↔ ∃ n, 0 ≤ n < g_num g ∧ o = addr g p c n.
Proof. unfold objects. rewrite list_elem_of_fmap. setoid_rewrite elem_of_zrange. naive_solver. Qed.

Lemma NoDup_objects p c : NoDup (objects g p c).
Proof. apply NoDup_fmap_2_strong; [|apply NoDup_zrange]. intros n m _ _. apply addr_inj. Qed.

Lemma length_objects p c : Z.of_nat (length (objects g p c)) = g_num g.
Proof. unfold objects. rewrite length_fmap, length_zrange. destruct Hg as (_ & _ & _ & _ & ? & _). lia. Qed.

(** Objects lie in their own slab only. *)
Lemma objects_disjoint colors p q c d o : slabs_ok g colors → colors !! p = Some c → colors !! q = Some d →
  o ∈ objects g p c → o ∈ objects g q d → p = q.
Proof.
  intros [Hs Hd] Hp Hq (n & Hn & ->)%elem_of_objects (m & Hm & E)%elem_of_objects.
  destruct (decide (p = q)) as [|Hne]; [done|]. destruct (Hs p c Hp) as [_ [Hc _]], (Hs q d Hq) as [_ [Hd' _]].
  pose proof (addr_bounds p c n Hc Hn). pose proof (addr_bounds q d m Hd' Hm). destruct Hg as ((Hsz & _) & _ & _ & _ & H1 & _).
  assert (Hdj : disjoint_from p (g_size g) q (g_size g)) by (apply Hd; [by apply elem_of_dom_2 in Hp|by apply elem_of_dom_2 in Hq|done]).
  unfold disjoint_from, hdr_size in *. lia.
Qed.

Lemma objects_usize p c o : block_ok (g_block g) p → valid_color g c → o ∈ objects g p c → 0 < o < 2 ^ 64.
Proof.
  intros (Hp & Hps & _) [Hc _] (n & Hn & ->)%elem_of_objects. pose proof (addr_bounds p c n Hc Hn).
  destruct Hg as ((Hsz & _) & _ & _ & _ & H1 & _). unfold hdr_size, g_size in *. lia.
Qed.
End geometry.

(** ** Aligned slabs: lookup by masking *)
Lemma aligned_ptr_to_slab k p o : 0 ≤ k < 64 → (2 ^ k | p) → 0 ≤ p → p ≤ o < p + 2 ^ k → o < 2 ^ 64 →
  AlignedCfg.ptr_to_slab (2 ^ k) o = Ok p.
Proof.
  intros Hk [q ->] Hp Ho Hou. pose proof (pow2_pos k ltac:(lia)). unfold AlignedCfg.ptr_to_slab.
  rewrite usub_Ok by lia. cbn [mbind res_bind]. rewrite land_unot_pow2 by (unfold is_usize; lia).
  assert (o mod 2 ^ k = o - q * 2 ^ k) as -> by (symmetry; apply (Z.mod_unique_pos _ _ q); lia).
  replace (o - (o - q * 2 ^ k)) with (q * 2 ^ k) by lia. rewrite umod_Ok by lia. cbn [mbind res_bind].
  rewrite Z_mod_mult. done.
Qed.

Lemma aligned_laws (g : Geom) (k : Z) : geom_ok g → 0 ≤ k < 64 → g_block g = mkLayout (2 ^ k) (2 ^ k) → ConfigLaws unit g.
Proof.
  intros Hg Hk Hb. refine {| cfg_inv _ _ := True |}.
  - intros c colors sl hd p h _ _ _ _ _. by exists c.
  - intros c colors sl hd p h _ _ _ _ _. by exists c.
  - intros [] colors p col n _ [Hs _] Hp Hn. destruct (Hs p col Hp) as [(Hp0 & Hps & Hal) [Hc _]].
    pose proof (addr_bounds g Hg p col n Hc Hn) as [H1 H2]. pose proof Hg as ((Hsz & _) & _).
    cbn. unfold g_size in *. rewrite Hb in *. cbn [layout_size layout_align] in *.
    apply aligned_ptr_to_slab; [done|done|lia| |]; unfold hdr_size in *; lia.
Defined.

(** ** Large slabs: lookup in the pointer map *)

(** Keys at least [P] apart are few. *)
Lemma sparse_bound (X : gset Z) (P : Z) : 16 ≤ P → (∀ x, x ∈ X → 0 ≤ x < 2 ^ 64) →
  (∀ x y, x ∈ X → y ∈ X → x < y → x + P ≤ y) → Z.of_nat (size X) ≤ 2 ^ 60.
Proof.
  intros HP HX Hsp. assert (Hinj : ∀ x y, x ∈ X → y ∈ X → x / P = y / P → x = y).
  { intros x y Hx Hy E. destruct (Z.lt_trichotomy x y) as [Hlt|[|Hlt]]; [|done|].
    - pose proof (Hsp x y Hx Hy Hlt). assert (x / P + 1 ≤ y / P); [|lia].
      rewrite <- (Z.div_add x 1 P) by lia. apply Z.div_le_mono; lia.
    - pose proof (Hsp y x Hy Hx Hlt). assert (y / P + 1 ≤ x / P); [|lia].
      rewrite <- (Z.div_add y 1 P) by lia. apply Z.div_le_mono; lia. }
  assert (Hsz : size (list_to_set (C := gset Z) ((fun x => x / P) <$> elements X)) = size X).
  { rewrite size_list_to_set; [by rewrite length_fmap|]. apply NoDup_fmap_2_strong; [|apply NoDup_elements].
    intros x y Hx Hy. apply elem_of_elements in Hx, Hy. by apply Hinj. }
  rewrite <- Hsz. assert (Hsub : list_to_set ((fun x => x / P) <$> elements X) ⊆ list_to_set (C := gset Z) (zrange 0 (2 ^ 60))).
  { intros z. rewrite !elem_of_list_to_set, elem_of_zrange. intros (x & -> & Hx)%list_elem_of_fmap.
    apply elem_of_elements in Hx. specialize (HX x Hx). split; [apply Z.div_pos; lia|].
    apply Z.div_lt_upper_bound; lia. }
  apply subseteq_size in Hsub. rewrite (size_list_to_set (zrange _ _)), length_zrange in Hsub by apply NoDup_zrange. lia.
Qed.

Section large.
Context (g : Geom) (Hg : geom_ok g) (bypage : bool) (a : Z) (Ha : 4 ≤ a ≤ 31).
Context (Hpal : (2 ^ a | layout_align (g_block g))).
Context (Hmode : if bypage then (2 ^ a | g_size g) else 2 ^ a ≤ layout_size (g_layout g)).
#[local] Abbreviation page := (2 ^ a).

Definition nkeys : Z := if bypage then g_size g / page else g_num g.
Definition keyaddr (p col i : Z) : Z := if bypage then p + i * page else addr g p col i.

Lemma page_pos : 16 ≤ page ≤ 2 ^ 31.
Proof. change 16 with (2 ^ 4). split; apply Z.pow_le_mono_r; lia. Qed.

Lemma key_bounds p col i : valid_color g col → 0 ≤ i < nkeys → p ≤ keyaddr p col i ∧ keyaddr p col i + page ≤ p + g_size g.
Proof.
  intros [Hc _] Hi. pose proof page_pos. unfold keyaddr, nkeys in *. pose proof Hg as (_ & _ & _ & _ & H1 & _). destruct bypage.
  - pose proof (Z.mul_div_le (g_size g) page). nia.
  - pose proof (addr_bounds g Hg p col i Hc Hi). unfold hdr_size in *. lia.
Qed.

Lemma key_gap p col i j : 0 ≤ i < j → keyaddr p col i + page ≤ keyaddr p col j.
Proof.
  intros Hij. pose proof page_pos. unfold keyaddr. destruct bypage; [nia|]. pose proof (addr_lt g Hg p col i j Hij). lia.
Qed.

Lemma key_inj p col i j : 0 ≤ i → 0 ≤ j → keyaddr p col i = keyaddr p col j → i = j.
Proof.
  intros Hi Hj E. pose proof page_pos. destruct (Z.lt_trichotomy i j) as [H'|[|H']]; [|done|].
  - pose proof (key_gap p col i j ltac:(lia)). lia.
  - pose proof (key_gap p col j i ltac:(lia)). lia.
Qed.

Lemma key_spec c sl p col i : LargeCfg.map_by_page_addr c = bypage → LargeCfg.PAGE_SIZE c = page → shape g sl →
  block_ok (g_block g) p → valid_color g col → 0 ≤ i < nkeys → LargeCfg.key c sl p col i = Ok (keyaddr p col i).
Proof.
  intros Eb Ep Hsh Hb Hc Hi. pose proof page_pos. pose proof (key_bounds p col i Hc Hi) as Hkb. pose proof Hb as (Hp0 & Hps & Hal).
  unfold LargeCfg.key, keyaddr, nkeys in *. rewrite Eb, Ep. fold (g_size g) in Hps. destruct bypage; [|by apply nth_obj_addr].
  rewrite umul_Ok by nia. cbn [mbind res_bind]. rewrite uadd_Ok by nia. cbn [mbind res_bind].
  rewrite umod_Ok by lia. cbn [mbind res_bind]. rewrite mod_0_divide; [done|lia|].
  apply Z.divide_add_r; [exact (Z.divide_trans _ _ _ Hpal Hal)|]. by exists i.
Qed.

Lemma num_keys_spec c sl : LargeCfg.map_by_page_addr c = bypage → LargeCfg.PAGE_SIZE c = page → shape g sl →
  LargeCfg.num_keys c sl (g_size g) = Ok nkeys.
Proof.
  intros Eb Ep (_ & En & _). unfold LargeCfg.num_keys, nkeys. rewrite Eb, Ep. pose proof page_pos.
  destruct bypage; [by rewrite udiv_Ok by lia|by rewrite En].
Qed.

(** The map [f] holds the keys of the slabs [colors], and of slab [p] those
    from [lo] up to [hi]. *)
Definition keys_of (colors : gmap Z Z) (p col lo hi : Z) (f : gmap Z Z) : Prop :=
  ∀ k v, f !! k = Some v ↔
    (∃ c i, colors !! v = Some c ∧ 0 ≤ i < nkeys ∧ k = keyaddr v c i) ∨ (v = p ∧ ∃ i, lo ≤ i < hi ∧ k = keyaddr p col i).

Definition large_inv (c : LargeCfg.ConfigData) (colors : gmap Z Z) : Prop :=
  LargeCfg.map_by_page_addr c = bypage ∧ LargeCfg.PAGE_SIZE c = page ∧
  ∃ f, map_inv (LargeCfg.map c) f ∧ keys_of colors 0 0 0 0 f.

(** Keys of two slabs, or two keys of one, are a page apart. *)
Lemma keys_apart colors v w c d i j : slabs_ok g colors → colors !! v = Some c → colors !! w = Some d →
  0 ≤ i < nkeys → 0 ≤ j < nkeys → keyaddr v c i < keyaddr w d j → keyaddr v c i + page ≤ keyaddr w d j.
Proof.
  intros [Hs Hd] Hv Hw Hi Hj Hlt. pose proof page_pos. destruct (Hs v c Hv) as [_ Hc], (Hs w d Hw) as [_ Hd'].
  destruct (decide (v = w)) as [->|Hne].
  - rewrite Hv in Hw. injection Hw as ->. destruct (Z.lt_trichotomy i j) as [H'|[->|H']].
    + apply key_gap. lia.
    + lia.
    + pose proof (key_gap w d j i ltac:(lia)). lia.
  - pose proof (key_bounds v c i Hc Hi). pose proof (key_bounds w d j Hd' Hj).
    assert (Hdj : disjoint_from v (g_size g) w (g_size g)) by (apply Hd; [by apply elem_of_dom_2 in Hv|by apply elem_of_dom_2 in Hw|done]).
    unfold disjoint_from in Hdj. lia.
Qed.

Lemma keys_few colors p col n f : slabs_ok g (<[p:=col]> colors) → colors !! p = None → n ≤ nkeys → keys_of colors p col 0 n f →
  Z.of_nat (size f) ≤ 2 ^ 60.
Proof.
  intros Hs Hp Hn Hf. rewrite <- size_dom. pose proof page_pos.
  assert (Hkey : ∀ k, k ∈ dom f → ∃ v c i, <[p:=col]> colors !! v = Some c ∧ 0 ≤ i < nkeys ∧ k = keyaddr v c i).
  { intros k [v Hk]%elem_of_dom. apply Hf in Hk as [(c & i & Hv & Hi & ->)|(-> & i & Hi & ->)].
    - exists v, c, i. rewrite lookup_insert_ne; [done|]. intros ->. congruence.
    - exists p, col, i. rewrite lookup_insert_eq. split_and!; (done || lia). }
  apply (sparse_bound _ page); [lia| |].
  - intros k (v & c & i & Hv & Hi & ->)%Hkey. destruct Hs as [Hs _]. destruct (Hs v c Hv) as [(Hv0 & Hvs & _) Hc].
    pose proof (key_bounds v c i Hc Hi). unfold g_size in *. lia.
  - intros k k' (v & c & i & Hv & Hi & ->)%Hkey (w & d & j & Hw & Hj & ->)%Hkey. by apply (keys_apart (<[p:=col]> colors)).
Qed.

(** A key of slab [p] belongs to no other slab. *)
Lemma key_fresh colors p col i v c j : slabs_ok g (<[p:=col]> colors) → colors !! p = None → 0 ≤ i < nkeys →
  colors !! v = Some c → 0 ≤ j < nkeys → keyaddr p col i ≠ keyaddr v c j.
Proof.
  intros [Hs Hd] Hp Hi Hv Hj E. assert (Hne : v ≠ p) by (intros ->; congruence). pose proof page_pos.
  destruct (Hs p col (lookup_insert_eq _ _ _)) as [_ Hc].
  assert (Hv' : <[p:=col]> colors !! v = Some c) by (by rewrite lookup_insert_ne).
  destruct (Hs v c Hv') as [_ Hc']. pose proof (key_bounds p col i Hc Hi). pose proof (key_bounds v c j Hc' Hj).
  assert (Hdj : disjoint_from p (g_size g) v (g_size g)).
  { apply Hd; [|by apply elem_of_dom_2 in Hv'|done]. rewrite dom_insert. set_solver. }
  unfold disjoint_from in Hdj. lia.
Qed.

Lemma large_post_alloc c colors sl hd p h : large_inv c colors → shape g sl → colors !! p = None → hd !! p = Some h →
  slabs_ok g (<[p:=hdr_color h]> colors) →
  ∃ c', LargeCfg.post_alloc c sl (g_size g) hd p = Ok c' ∧ large_inv c' (<[p:=hdr_color h]> colors).
Proof.
  intros (Eb & Ep & f & Hf & Hk) Hsh Hp Hh Hs. set (col := hdr_color h) in *.
  pose proof Hs as [Hs1 _]. destruct (Hs1 p col (lookup_insert_eq _ _ _)) as [Hb Hc]. pose proof Hb as (Hp0 & _).
  unfold LargeCfg.post_alloc. rewrite (num_keys_spec c sl) by done. cbn [mbind res_bind]. rewrite Hh. cbn [deref mbind res_bind]. fold col.
  assert (Hn0 : 0 ≤ nkeys).
  { unfold nkeys. pose proof Hg as (_ & [Hs0 _] & _ & _ & H1 & _). pose proof page_pos. destruct bypage; [apply Z.div_pos; lia|lia]. }
  destruct (rfold_zrange (fun i m => ∃ f, map_inv m f ∧ keys_of colors p col 0 i f)
    (fun m i => k ← LargeCfg.key c sl p col i; PM.insert m k p) 0 nkeys (LargeCfg.map c)) as (m' & -> & f' & Hf' & Hk').
  - done.
  - exists f. split; [done|]. intros k v. rewrite (Hk k v). split; [intros [?|(_ & i & Hi & _)]; [by left|lia]|intros [?|(_ & i & Hi & _)]; [by left|lia]].
  - intros i m Hi (fi & Hfi & Hki). rewrite (key_spec c sl p col i) by done. cbn [mbind res_bind].
    assert (Hnone : fi !! keyaddr p col i = None).
    { destruct (fi !! keyaddr p col i) as [v|] eqn:E; [|done]. exfalso. apply Hki in E as [(c' & j & Hv & Hj & E)|(_ & j & Hj & E)].
      - exact (key_fresh _ _ _ _ _ _ _ Hs Hp Hi Hv Hj E).
      - apply key_inj in E; lia. }
    pose proof (key_bounds p col i Hc Hi). pose proof (keys_few colors p col i fi Hs Hp ltac:(lia) Hki).
    destruct (map_insert_spec m fi (keyaddr p col i) p Hfi) as (m' & -> & Hm'); [lia|done|lia|].
    exists m'. split; [done|]. exists (<[keyaddr p col i:=p]> fi). split; [done|]. intros k v. rewrite lookup_insert_Some, (Hki k v). split.
    + intros [[<- <-]|[Hne [?|(-> & j & Hj & ->)]]]; [right; split; [done|]; exists i; split; [lia|done]|by left|].
      right. split; [done|]. exists j. split; [lia|done].
    + intros [(c' & j & Hv & Hj & ->)|(-> & j & Hj & ->)].
      * right. split; [by eapply key_fresh|]. left. eauto.
      * destruct (decide (j = i)) as [->|Hne]; [by left|]. right. split; [intros E; apply key_inj in E; lia|].
        right. split; [done|]. exists j. split; [lia|done].
  - cbn [mbind res_bind]. eexists. split; [done|]. split; [done|]. split; [done|]. exists f'. split; [done|].
    intros k v. rewrite (Hk' k v). split.
    + intros [(c' & j & Hv & Hj & ->)|(-> & j & Hj & ->)]; left.
      * exists c', j. rewrite lookup_insert_ne; [done|]. intros ->. congruence.
      * exists col, j. by rewrite lookup_insert_eq.
    + intros [(c' & j & Hv & Hj & ->)|(_ & j & Hj & _)]; [|lia].
      apply lookup_insert_Some in Hv as [[<- <-]|[_ Hv]]; [right; eauto|left; eauto].
Qed.

Lemma large_pre_dealloc c colors sl hd p h : large_inv c colors → shape g sl → slabs_ok g colors →
  colors !! p = Some (hdr_color h) → hd !! p = Some h →
  ∃ c', LargeCfg.pre_dealloc c sl (g_size g) hd p = Ok c' ∧ large_inv c' (delete p colors).
Proof.
  intros (Eb & Ep & f & Hf & Hk) Hsh Hs Hp Hh. set (col := hdr_color h) in *.
  pose proof Hs as [Hs1 _]. destruct (Hs1 p col Hp) as [Hb Hc].
  assert (Hs' : slabs_ok g (<[p:=col]> (delete p colors))) by (by rewrite insert_delete_eq, insert_id).
  unfold LargeCfg.pre_dealloc. rewrite (num_keys_spec c sl) by done. cbn [mbind res_bind]. rewrite Hh. cbn [deref mbind res_bind]. fold col.
  assert (Hn0 : 0 ≤ nkeys).
  { unfold nkeys. pose proof Hg as (_ & [Hs0 _] & _ & _ & H1 & _). pose proof page_pos. destruct bypage; [apply Z.div_pos; lia|lia]. }
  destruct (rfold_zrange (fun i m => ∃ f, map_inv m f ∧ keys_of (delete p colors) p col i nkeys f)
    (fun m i => k ← LargeCfg.key c sl p col i; PM.delete m k) 0 nkeys (LargeCfg.map c)) as (m' & -> & f' & Hf' & Hk').
  - done.
  - exists f. split; [done|]. intros k v. rewrite (Hk k v). split.
    + intros [(c' & j & Hv & Hj & ->)|(_ & i & Hi & _)]; [|lia].
      destruct (decide (v = p)) as [->|Hne]; [|left; exists c', j; by rewrite lookup_delete_ne].
      rewrite Hp in Hv. injection Hv as <-. right. eauto.
    + intros [(c' & j & [_ Hv]%lookup_delete_Some & Hj & ->)|(-> & j & Hj & ->)]; left; eauto.
  - intros i m Hi (fi & Hfi & Hki). rewrite (key_spec c sl p col i) by done. cbn [mbind res_bind].
    assert (Hsome : fi !! keyaddr p col i = Some p) by (apply Hki; right; split; [done|]; exists i; split; [lia|done]).
    destruct (map_delete_spec m fi (keyaddr p col i) p Hfi Hsome) as (m' & -> & Hm').
    exists m'. split; [done|]. exists (delete (keyaddr p col i) fi). split; [done|]. intros k v. rewrite lookup_delete_Some, (Hki k v). split.
    + intros [Hne [?|(-> & j & Hj & ->)]]; [by left|]. right. split; [done|]. exists j. split; [|done].
      destruct (decide (j = i)) as [->|]; [done|lia].
    + intros [(c' & j & Hv & Hj & ->)|(-> & j & Hj & ->)].
      * split; [|left; eauto]. eapply key_fresh; [exact Hs'|apply lookup_delete_eq|done..].
      * split; [intros E; apply key_inj in E; lia|]. right. split; [done|]. exists j. split; [lia|done].
  - cbn [mbind res_bind]. eexists. split; [done|]. split; [done|]. split; [done|]. exists f'. split; [done|].
    intros k v. rewrite (Hk' k v). split; (intros [?|(_ & j & Hj & _)]; [by left|lia]).
Qed.

Lemma large_ptr_to_slab c colors p col n : large_inv c colors → slabs_ok g colors → colors !! p = Some col →
  0 ≤ n < g_num g → LargeCfg.ptr_to_slab c (g_size g) (addr g p col n) = Ok p.
Proof.
  intros (Eb & Ep & f & Hf & Hk) [Hs _] Hp Hn. destruct (Hs p col Hp) as [(Hp0 & Hps & Hal) Hc].
  assert (Hget : ∀ i, 0 ≤ i < nkeys → PM.get (LargeCfg.map c) (keyaddr p col i) = Ok p).
  { intros i Hi. eapply map_get_spec; [done|]. apply Hk. left. eauto. }
  unfold LargeCfg.ptr_to_slab. rewrite Eb, Ep. pose proof page_pos. unfold keyaddr, nkeys in Hget. fold (g_size g) in Hps.
  destruct Hc as [Hc _]. pose proof (addr_bounds g Hg p col n Hc Hn) as [H1 H2]. pose proof Hg as ((Hsz & _) & _ & _ & _ & HN & _).
  destruct bypage; [|by apply Hget].
  rewrite usub_Ok by lia. cbn [mbind res_bind]. rewrite land_unot_pow2 by (unfold is_usize, hdr_size in *; lia).
  set (o := addr g p col n) in *. destruct Hmode as [q Eq]. destruct (Z.divide_trans _ _ _ Hpal Hal) as [r Er].
  replace (o - o mod page) with (p + (o - p) / page * page); [apply Hget|].
  - rewrite Eq, Z.div_mul by lia. unfold hdr_size in *. split; [apply Z.div_pos; lia|]. apply Z.div_lt_upper_bound; lia.
  - rewrite (Z.mod_eq o page) by lia. replace (o - p) with (o + - r * page) by lia. rewrite Z.div_add by lia. lia.
Qed.

Definition large_laws : ConfigLaws LargeCfg.ConfigData g :=
  {| cfg_inv := large_inv; post_alloc_spec := large_post_alloc; pre_dealloc_spec := large_pre_dealloc;
     ptr_to_slab_spec := large_ptr_to_slab |}.

Lemma large_inv_empty m : map_inv m ∅ → large_inv (LargeCfg.mkConfig m bypage page) ∅.
Proof.
  intros Hm. split; [done|]. split; [done|]. exists ∅. split; [done|]. intros k v. rewrite lookup_empty. split; [done|].
  intros [(c & i & Hv & _)|(_ & i & Hi & _)]; [by rewrite lookup_empty in Hv|lia].
Qed.
End large.

(** ** The system implements the interface *)
Section system.
Context {Status : Type} `{!InitSystem Status} {B C : Type} `{!UntypedObjectAlloc B} `{!ConfigData C}.
Context (g : Geom) (Hg : geom_ok g) `{!ConfigLaws C g}.
Context (Hmin : (min_align | layout_align (g_layout g))).
Implicit Types s : System B C.

Definition packed (os : Z * Status) : Z := pack os.1 os.2.

(** The slab at [p] in memory represents [a]. *)
Definition slab_rep (w : gmap Z Z) (objs : gset Z) (p col : Z) (h : SlabHeader) (a : SlabAbs) : Prop :=
  hdr_color h = col ∧ sa_all a = objects g p col ∧
  ∃ free : list (Z * Status), sa_avail a = free.*1 ∧ NoDup (free.*1) ∧ free.*1 ⊆ sa_all a ∧
    Stk.holds (hdr_stack h) w (p + hdr_size) (packed <$> free) ∧
    ∀ o st, (o, st) ∈ free → status_ok objs o st.

Definition sinv s (A : Slabs) : Prop :=
  ∃ colors, oa_inv (sys_backing s) ∧ oa_layout (sys_backing s) = g_block g ∧ shape g (sys_layout s) ∧
    dom colors = dom A ∧ dom (hdrs s) = dom A ∧ dom colors ⊆ oa_live (sys_backing s) ∧
    slabs_ok g colors ∧ cfg_inv (sys_data s) colors ∧
    (∀ p a, A !! p = Some a → ∃ h col, hdrs s !! p = Some h ∧ colors !! p = Some col ∧ slab_rep (words s) (objmem s) p col h a) ∧
    (tracked (status_uninitialized (Status := Status)) = None ∨ ∀ o, o ∈ objmem s → ∃ p a, A !! p = Some a ∧ o ∈ sa_all a).

Lemma next_color_wf align cs : Color.wf align cs →
  ∃ c cs', Color.next_color cs align = Ok (c, cs') ∧ Color.wf align cs' ∧ Color.max_color cs' = Color.max_color cs ∧
    0 ≤ c ≤ Color.max_color cs ∧ (align | c).
Proof.
  destruct cs as [m c]. intros (Ha & (q & Hq & Em) & (i & Hi & Ei) & Hle). cbn in *. subst m c.
  rewrite next_color_spec by (done || nia). eexists _, _. split; [done|]. pose proof (Z.mod_pos_bound (i + 1) (q + 1) ltac:(lia)).
  cbn. split_and!; try nia; [|by exists i]. split; [done|]. cbn. split_and!; [by exists q|exists ((i + 1) mod (q + 1)); lia|nia|nia].
Qed.

Lemma avail_le_num (l : list Z) p col : NoDup l → l ⊆ objects g p col → Z.of_nat (length l) ≤ g_num g.
Proof.
  intros Hnd Hsub. rewrite <- (length_objects g Hg p col).
  assert (length l ≤ length (objects g p col))%nat by (by apply submseteq_length, NoDup_submseteq). lia.
Qed.

(** A slab does not depend on memory outside its block. *)
Lemma slab_rep_frame w w' objs p col h a : valid_color g col → (∀ x, p ≤ x < p + g_size g → w' !! x = w !! x) →
  slab_rep w objs p col h a → slab_rep w' objs p col h a.
Proof.
  intros [Hc _] Hf (Ec & Eall & free & Eav & Hnd & Hsub & Hst & Hok). split; [done|]. split; [done|]. exists free.
  split_and!; try done. eapply holds_frame; [done|]. intros x Hx. rewrite length_fmap in Hx. apply Hf.
  rewrite Eall in Hsub. pose proof (avail_le_num _ _ _ Hnd Hsub) as Hlen. rewrite length_fmap in Hlen.
  pose proof Hg as ((Hsz & _) & _ & _ & _ & H1 & _). pose proof (addr_bounds g Hg p col 0 Hc ltac:(lia)). unfold hdr_size in *. lia.
Qed.

(** Nor on the memory of objects outside it. *)
Lemma slab_rep_objs w objs objs' p col h a : (∀ o, o ∈ sa_avail a → o ∈ objs' ↔ o ∈ objs) →
  slab_rep w objs p col h a → slab_rep w objs' p col h a.
Proof.
  intros Ho (Ec & Eall & free & Eav & Hnd & Hsub & Hst & Hok). split; [done|]. split; [done|]. exists free. split_and!; try done.
  intros o st Hin b Hb. rewrite (Hok o st Hin b Hb). apply bool_decide_ext. symmetry. apply Ho. rewrite Eav.
  apply list_elem_of_fmap. by exists (o, st).
Qed.

Lemma sinv_wf s A : sinv s A → abs_wf A.
Proof.
  intros (colors & _ & _ & _ & _ & _ & _ & Hs & _ & Hrep & _). split.
  - intros p a Hp. destruct (Hrep p a Hp) as (h & col & _ & Hcol & (_ & Eall & free & Eav & Hnd & Hsub & _)).
    destruct Hs as [Hs _]. destruct (Hs p col Hcol) as [Hb Hc]. pose proof Hb as (Hp0 & Hps & _). pose proof Hg as (_ & [Hs0 _] & _ & _ & H1 & _).
    rewrite Eav, Eall in *. split_and!; try done.
    + unfold g_size in *. lia.
    + intros E. pose proof (length_objects g Hg p col) as Hl. rewrite E in Hl. cbn in Hl. lia.
    + by apply NoDup_objects.
    + intros o. exact (objects_usize g Hg p col o Hb Hc).
  - intros p q a b o Hp Hq Ha Hb. destruct (Hrep p a Hp) as (_ & col & _ & Hcol & (_ & Ea & _)).
    destruct (Hrep q b Hq) as (_ & col' & _ & Hcol' & (_ & Eb & _)). rewrite Ea in Ha. rewrite Eb in Hb. by eapply objects_disjoint.
Qed.

Lemma sinv_aligned s A p a o : sinv s A → A !! p = Some a → o ∈ sa_all a → (layout_align (g_layout g) | o).
Proof.
  intros (colors & _ & _ & _ & _ & _ & _ & [Hs _] & _ & Hrep & _) Hp Ho. destruct (Hrep p a Hp) as (h & col & _ & Hcol & (_ & Eall & _)).
  rewrite Eall in Ho. apply elem_of_objects in Ho as (n & Hn & ->). destruct (Hs p col Hcol). by apply addr_aligned.
Qed.

(** Packed words of objects unpack to what was packed. *)
Lemma unpack_packed p col o st : block_ok (g_block g) p → valid_color g col → o ∈ objects g p col →
  unpack_ptr (packed (o, st)) = o ∧ unpack_status (packed (o, st)) = st.
Proof.
  intros Hb Hc Ho. pose proof (objects_usize g Hg p col o Hb Hc Ho) as Hu.
  assert (min_align | o). { apply elem_of_objects in Ho as (n & _ & ->). eapply Z.divide_trans; [done|]. by apply addr_aligned. }
  unfold packed. cbn. rewrite unpack_ptr_pack, unpack_status_pack by (done || (unfold is_usize; lia)). done.
Qed.

(** *** Reading a slab *)
Lemma sinv_lookup s A p a : sinv s A → A !! p = Some a → ∃ h col, hdrs s !! p = Some h ∧ slab_rep (words s) (objmem s) p col h a ∧
  block_ok (g_block g) p ∧ valid_color g col ∧ SL.stack_begin (sys_layout s) p = Ok (p + hdr_size).
Proof.
  intros (colors & _ & _ & Hsh & _ & _ & _ & [Hs _] & _ & Hrep & _) Hp. destruct (Hrep p a Hp) as (h & col & Hh & Hcol & Hr).
  destruct (Hs p col Hcol) as [Hb Hc]. exists h, col. split_and!; try done. by apply (stack_begin_addr g).
Qed.

Lemma stack_size_avail w objs p col h a : slab_rep w objs p col h a → Stk.size (hdr_stack h) = Z.of_nat (length (sa_avail a)).
Proof. intros (_ & _ & free & -> & _ & _ & [-> _] & _). by rewrite !length_fmap. Qed.

Lemma is_full_ok s A p a : sinv s A → A !! p = Some a → Sys.is_full s p = Ok (bool_decide (length (sa_avail a) = length (sa_all a))).
Proof.
  intros Hi Hp. destruct (sinv_lookup s A p a Hi Hp) as (h & col & Hh & Hr & _). unfold Sys.is_full. rewrite Hh. cbn.
  rewrite (stack_size_avail _ _ _ _ _ _ Hr). destruct Hi as (_ & _ & _ & (_ & -> & _) & _). destruct Hr as (_ & -> & _).
  pose proof (length_objects g Hg p col) as Hl. f_equal. case_bool_decide; [apply Z.eqb_eq|apply Z.eqb_neq]; lia.
Qed.

Lemma is_empty_ok s A p a : sinv s A → A !! p = Some a → Sys.is_empty s p = Ok (bool_decide (sa_avail a = [])).
Proof.
  intros Hi Hp. destruct (sinv_lookup s A p a Hi Hp) as (h & col & Hh & Hr & _). unfold Sys.is_empty. rewrite Hh. cbn.
  rewrite (stack_size_avail _ _ _ _ _ _ Hr). f_equal. destruct (sa_avail a); [done|]. rewrite bool_decide_false by done. done.
Qed.

(** *** Changing one slab *)
Lemma sinv_update s A p a h h' a' w' : sinv s A → A !! p = Some a → hdrs s !! p = Some h → sa_all a' = sa_all a →
  (∀ x, ¬ (p ≤ x < p + g_size g) → w' !! x = words s !! x) →
  (∀ col, slab_rep (words s) (objmem s) p col h a → slab_rep w' (objmem s) p col h' a') →
  sinv (mkSystem (sys_data s) (sys_layout s) (sys_backing s) (<[p:=h']> (hdrs s)) w' (objmem s)) (<[p:=a']> A).
Proof.
  intros (colors & Hoi & Hol & Hsh & Hdc & Hdh & Hlive & Hs & Hcfg & Hrep & Htr) Hp Hh Eall Hw Hslab.
  exists colors. cbn. assert (HdA : dom (<[p:=a']> A) = dom A) by (by rewrite dom_insert_lookup_L by eauto).
  assert (Hdh' : dom (<[p:=h']> (hdrs s)) = dom (hdrs s)) by (by rewrite dom_insert_lookup_L by eauto).
  refine (conj Hoi (conj Hol (conj Hsh (conj _ (conj _ (conj Hlive (conj Hs (conj Hcfg (conj _ _)))))))));
    [by rewrite HdA|by rewrite HdA, Hdh'| |].
  - intros q b Hq. destruct (decide (q = p)) as [->|Hne].
    + rewrite lookup_insert_eq in Hq. injection Hq as <-. destruct (Hrep p a Hp) as (h0 & col & Hh0 & Hcol & Hr).
      rewrite Hh in Hh0. injection Hh0 as <-. exists h', col. rewrite lookup_insert_eq. auto.
    + rewrite lookup_insert_ne in Hq by done. destruct (Hrep q b Hq) as (hq & col & Hhq & Hcol & Hr). exists hq, col.
      rewrite lookup_insert_ne by done. split; [done|]. split; [done|]. destruct Hs as [Hs Hd]. destruct (Hs q col Hcol) as [_ Hc].
      eapply slab_rep_frame; [done| |done]. intros x Hx. apply Hw.
      assert (Hdj : disjoint_from p (g_size g) q (g_size g)).
      { apply Hd; [rewrite Hdc; by apply elem_of_dom_2 in Hp|by apply elem_of_dom_2 in Hcol|done]. }
      unfold disjoint_from in Hdj. lia.
  - destruct Htr as [Htr|Htr]; [by left|]. right. intros o Ho. destruct (Htr o Ho) as (q & b & Hq & Hin).
    destruct (decide (q = p)) as [->|Hne].
    + exists p, a'. rewrite lookup_insert_eq. split; [done|]. rewrite Hp in Hq. simplify_eq. by rewrite Eall.
    + exists q, b. by rewrite lookup_insert_ne.
Qed.

Lemma same_links_insert (m : gmap Z SlabHeader) p h st : m !! p = Some h →
  same_links m (<[p:=mkHdr st (hdr_color h) (hdr_next h) (hdr_prev h)]> m).
Proof.
  intros Hh x. destruct (decide (x = p)) as [->|Hne]; [by rewrite lookup_insert_eq, Hh|by rewrite lookup_insert_ne].
Qed.

(** *** Allocation from a slab *)
Lemma alloc_ok s A p all avail o : sinv s A → A !! p = Some (mkSlabAbs all (avail ++ [o])) →
  ∃ st s', Sys.alloc s p = Ok (o, st, s') ∧ status_ok (objmem s) o st ∧ sinv s' (<[p:=mkSlabAbs all avail]> A) ∧
    same_links (hdrs s) (hdrs s') ∧ objmem s' = objmem s.
Proof.
  intros Hi Hp. destruct (sinv_lookup s A p _ Hi Hp) as (h & col & Hh & Hr & Hb & Hc & Hst).
  pose proof Hr as (_ & Eall & free & Eav & Hnd & Hsub & Hho & Hok). cbn [sa_all sa_avail] in *.
  destruct free as [|[o' st] free _] using rev_ind; [by destruct avail|].
  rewrite fmap_app in Eav. cbn in Eav. apply app_inj_2 in Eav as [Eav [= <-]]; [|done].
  assert (Ho : o ∈ objects g p col). { rewrite <- Eall. apply Hsub. rewrite fmap_app. set_solver. }
  destruct (unpack_packed p col o st Hb Hc Ho) as [Eu1 Eu2].
  unfold Sys.alloc, Sys.pop_hdr. rewrite Hst. cbn [mbind res_bind]. rewrite Hh. cbn [deref mbind res_bind].
  rewrite fmap_app in Hho. cbn in Hho. destruct (pop_holds _ _ _ _ _ Hho) as (stk & -> & Hho'). cbn [mbind res_bind].
  rewrite Eu1, Eu2. eexists st, _. split; [done|]. cbn. split; [apply Hok; set_solver|]. split; [|split; [by apply same_links_insert|done]].
  eapply sinv_update; [done|done|done|done|done|]. intros col' (Ec' & Eall' & _). split; [done|]. split; [done|].
  exists free. cbn. rewrite fmap_app in Hnd, Hsub. apply list.NoDup_app in Hnd as (Hnd & _). split_and!; try done.
  - set_solver.
  - intros o' st' Hin. apply Hok. set_solver.
Qed.

(** *** Returning an object *)
Lemma dealloc_ok s A p all avail o st : sinv s A → A !! p = Some (mkSlabAbs all avail) → o ∈ all → o ∉ avail →
  status_ok (objmem s) o st →
  ∃ s', Sys.dealloc s o st = Ok (p, bool_decide (avail = []), s') ∧ sinv s' (<[p:=mkSlabAbs all (avail ++ [o])]> A) ∧
    same_links (hdrs s) (hdrs s') ∧ objmem s' = objmem s.
Proof.
  intros Hi Hp Ho Hno Hsto. destruct (sinv_lookup s A p _ Hi Hp) as (h & col & Hh & Hr & Hb & Hc & Hst).
  pose proof Hi as (colors & _ & Hol & _ & _ & _ & _ & Hs & Hcfg & Hrep & _).
  destruct (Hrep p _ Hp) as (h0 & col0 & Hh0 & Hcol & Hr0). rewrite Hh in Hh0. injection Hh0 as <-.
  assert (col0 = col) as -> by (destruct Hr as [<- _], Hr0 as [<- _]; done). clear Hr0.
  pose proof Hr as (Ec & Eall & free & Eav & Hnd & Hsub & Hho & Hok). cbn [sa_all sa_avail] in *.
  pose proof Ho as Ho'. rewrite Eall in Ho'. apply elem_of_objects in Ho' as (n & Hn & Eo).
  assert (Hpts : ptr_to_slab (sys_data s) (g_size g) o = Ok p) by (rewrite Eo; by eapply ptr_to_slab_spec).
  unfold Sys.dealloc, Sys.slab_size. rewrite Hol. fold (g_size g). rewrite Hpts. cbn [mbind res_bind]. rewrite Hh. cbn [deref mbind res_bind].
  rewrite Hst. cbn [mbind res_bind]. unfold Sys.push_hdr. rewrite Hh. cbn [deref mbind res_bind].
  assert (Hlen : Z.of_nat (length (free ++ [(o, st)])) ≤ g_num g).
  { rewrite <- (length_fmap fst). apply (avail_le_num _ p col); rewrite fmap_app, <- Eav; cbn.
    - apply list.NoDup_app. split_and!; [by rewrite Eav|set_solver|apply NoDup_singleton].
    - rewrite <- Eall. rewrite <- Eav in Hsub. set_solver. }
  rewrite length_app in Hlen. cbn in Hlen.
  pose proof Hg as ((Hsz & _) & [_ Hs62] & _ & _ & H1 & _). destruct Hc as [Hc Hc2]. pose proof (addr_bounds g Hg p col 0 Hc ltac:(lia)) as [Hab1 Hab2].
  unfold hdr_size in *.
  destruct (push_holds _ _ _ _ (pack o st) Hho) as (stk & w' & -> & Hho' & Hframe); [rewrite length_fmap; lia|]. cbn [mbind res_bind].
  rewrite length_fmap in Hframe. eexists. split.
  { do 2 f_equal. f_equal. rewrite (stack_size_avail _ _ _ _ _ _ Hr). cbn [sa_avail]. destruct avail; [done|]. rewrite bool_decide_false by done. done. }
  split; [|split; [by apply same_links_insert|done]].
  eapply sinv_update; [done|done|done|done| |].
  - intros x Hx. apply Hframe. lia.
  - intros col' (Ec' & Eall' & _). split; [done|]. split; [done|]. exists (free ++ [(o, st)]). cbn [sa_all sa_avail].
    rewrite !fmap_app, <- Eav. refine (conj _ (conj _ (conj _ (conj Hho' _)))).
    + done.
    + apply list.NoDup_app. split_and!; [by rewrite Eav|set_solver|apply NoDup_singleton].
    + rewrite <- Eav in Hsub. set_solver.
    + intros o' st' [Hin|Hin]%elem_of_app; [by apply Hok|]. apply list_elem_of_singleton in Hin as [= -> ->]. done.
Qed.

(** *** A new slab *)
Lemma fst_tagged (st : Status) (l : list Z) : ((fun o => (o, st)) <$> l).*1 = l.
Proof. induction l as [|o l IH]; [done|]. cbn. by f_equal. Qed.

Lemma fill_stack layout slab col hd w : shape g layout → block_ok (g_block g) slab → valid_color g col →
  ∃ stk w', rfold (fun hm i =>
      ptr ← SL.nth_obj layout slab col i;
      Sys.push_hdr hm slab (slab + hdr_size) (pack ptr (status_uninitialized (Status := Status))))
    (zrange 0 (g_num g)) (<[slab:=mkHdr Stk.new col 0 0]> hd, w) = Ok (<[slab:=mkHdr stk col 0 0]> hd, w') ∧
    Stk.holds stk w' (slab + hdr_size) (packed <$> ((fun o => (o, status_uninitialized)) <$> objects g slab col)) ∧
    ∀ x, ¬ (slab ≤ x < slab + g_size g) → w' !! x = w !! x.
Proof.
  intros Hsh Hb [Hc Hc2]. pose proof Hg as ((Hsz & _) & [_ Hs62] & _ & _ & H1 & _).
  pose proof (addr_bounds g Hg slab col 0 Hc ltac:(lia)) as [Hab1 Hab2]. unfold hdr_size in *.
  set (un := fun o : Z => (o, status_uninitialized (Status := Status))).
  destruct (rfold_zrange (fun i hm => ∃ stk w', hm = (<[slab:=mkHdr stk col 0 0]> hd, w') ∧
      Stk.holds stk w' (slab + 32) (packed <$> (un <$> (addr g slab col <$> zrange 0 i))) ∧
      ∀ x, ¬ (slab ≤ x < slab + g_size g) → w' !! x = w !! x)
    (fun hm i => ptr ← SL.nth_obj layout slab col i; Sys.push_hdr hm slab (slab + 32) (pack ptr status_uninitialized))
    0 (g_num g) (<[slab:=mkHdr Stk.new col 0 0]> hd, w)) as (hm & -> & stk & w' & -> & Hho & Hw).
  - lia.
  - exists Stk.new, w. split; [done|]. rewrite zrange_nil by lia. split; [|done]. split; [done|]. by intros [|i] v.
  - intros i hm Hi (stk & w' & -> & Hho & Hw). rewrite (nth_obj_addr g Hg) by done. cbn [mbind res_bind].
    unfold Sys.push_hdr. rewrite lookup_insert_eq. cbn [deref mbind res_bind hdr_stack hdr_color hdr_next hdr_prev].
    assert (El : Z.of_nat (length (packed <$> (un <$> (addr g slab col <$> zrange 0 i)))) = i) by (rewrite !length_fmap, length_zrange; lia).
    destruct (push_holds _ _ _ _ (pack (addr g slab col i) status_uninitialized) Hho) as (stk' & w2 & -> & Hho2 & Hfr); [rewrite El; lia|].
    cbn [mbind res_bind]. rewrite insert_insert_eq. eexists. split; [done|]. eexists _, _. split; [done|]. rewrite El in Hfr. split.
    + rewrite zrange_snoc, !fmap_app by lia. exact Hho2.
    + intros x Hx. rewrite Hfr by lia. by apply Hw.
  - eexists _, _. split; [done|]. split; [exact Hho|done].
Qed.

Lemma alloc_slab_ok s A : sinv s A →
  ∃ p s', Sys.alloc_slab (Status := Status) s = Ok (p, s') ∧ objmem s' = objmem s ∧
    ((p = 0 ∧ sinv s' A ∧ hdrs s' = hdrs s) ∨
     (A !! p = None ∧ ∃ all avail h, sinv s' (<[p:=mkSlabAbs all avail]> A) ∧ Permutation avail all ∧
        hdrs s' = <[p:=h]> (hdrs s) ∧ hdr_next h = 0 ∧ hdr_prev h = 0)).
Proof.
  intros (colors & Hoi & Hol & ([u HL] & En & Em) & Hdc & Hdh & Hlive & Hs & Hcfg & Hrep & Htr).
  pose proof HL as (L1 & L2 & L3 & L4 & L5 & L6 & L7 & Hwf & Hmax).
  unfold Sys.alloc_slab. rewrite L2. destruct (next_color_wf _ _ Hwf) as (c & cs & -> & Hwf' & Emax & Hc & Hcd). cbn [mbind res_bind].
  set (layout := Sys.set_colors (sys_layout s) cs).
  assert (Hsh : shape g layout).
  { split; [|split; [done|cbn; congruence]]. exists u. unfold layout_for. cbn. rewrite Emax. done. }
  assert (Hvc : valid_color g c) by (split; [by rewrite <- Em|done]).
  destruct (oa_alloc_spec _ Hoi) as (r & b & -> & Hoi' & Hol' & Hr). cbn [mbind res_bind]. destruct r as [p|].
  - destruct Hr as (Hb & Hdj & Hl'). rewrite Hol in Hb, Hol', Hdj.
    rewrite (stack_begin_addr g Hg) by done. cbn [mbind res_bind].
    destruct (fill_stack layout p c (hdrs s) (words s) Hsh Hb Hvc) as (stk & w' & Hfill & Hho & Hw).
    replace (SL.num_obj layout) with (g_num g) by (by rewrite <- En). rewrite Hfill. cbn [mbind res_bind]. rewrite Hol'. fold (g_size g).
    (* the block is disjoint from every slab *)
    pose proof Hg as ((Hsz & _) & [Hs0 Hs62] & _ & _ & H1 & _). destruct Hvc as [Hc' Hcd']. pose proof (addr_bounds g Hg p c 0 Hc' ltac:(lia)) as [Hab1 Hab2].
    assert (Hnew : ∀ q, q ∈ dom colors → disjoint_from p (g_size g) q (g_size g)) by (intros q Hq; apply Hdj, Hlive, Hq).
    assert (Hpn : colors !! p = None).
    { apply not_elem_of_dom. intros Hp. specialize (Hnew p Hp). unfold disjoint_from, hdr_size in *. lia. }
    assert (HAn : A !! p = None) by (apply not_elem_of_dom; rewrite <- Hdc; by apply not_elem_of_dom).
    assert (Hs' : slabs_ok g (<[p:=c]> colors)).
    { destruct Hs as [Hs Hd]. split.
      - intros q cq [[<- <-]|[_ Hq]]%lookup_insert_Some; [split; [done|by split]|by apply Hs].
      - intros q q'. rewrite dom_insert, !elem_of_union, !elem_of_singleton.
        intros [->|Hq] [->|Hq'] Hne; [done|by apply Hnew|by apply disjoint_from_sym, Hnew|by apply Hd]. }
    destruct (post_alloc_spec (sys_data s) colors layout (<[p:=mkHdr stk c 0 0]> (hdrs s)) p (mkHdr stk c 0 0) Hcfg Hsh Hpn
      (lookup_insert_eq _ _ _) Hs') as (data & -> & Hcfg'). cbn [hdr_color] in Hcfg'. cbn [mbind res_bind].
    eexists p, _. split; [done|]. split; [done|]. right. split; [done|].
    exists (objects g p c), (objects g p c), (mkHdr stk c 0 0). split; [|done].
    exists (<[p:=c]> colors). cbn. rewrite !dom_insert_L, Hdc, Hdh, Hl'.
    refine (conj Hoi' (conj Hol' (conj Hsh (conj eq_refl (conj eq_refl (conj _ (conj Hs' (conj Hcfg' (conj _ _))))))))).
    + rewrite <- Hdc. set_solver.
    + intros q a [[<- <-]|[Hne Hq]]%lookup_insert_Some.
      * eexists _, c. rewrite !lookup_insert_eq. split; [done|]. split; [done|]. split; [done|]. split; [done|].
        exists ((fun o => (o, status_uninitialized)) <$> objects g p c). rewrite fst_tagged. cbn [sa_all sa_avail].
        refine (conj eq_refl (conj _ (conj _ (conj Hho _)))); [by apply NoDup_objects|done|].
        intros o st (o' & [= -> ->] & Ho)%list_elem_of_fmap bb Hb'. rewrite (tracked_uninitialized _ Hb'). symmetry.
        apply bool_decide_eq_false. intros Hin. destruct Htr as [Htr|Htr]; [congruence|].
        destruct (Htr o' Hin) as (q & a & Hq & Hoq). destruct (Hrep q a Hq) as (_ & cq & _ & Hcq & (_ & Eq & _)). rewrite Eq in Hoq.
        assert (q = p); [|congruence]. eapply (objects_disjoint g Hg (<[p:=c]> colors)); [done| |apply lookup_insert_eq|done|done].
        rewrite lookup_insert_ne; [done|]. intros ->. congruence.
      * destruct (Hrep q a Hq) as (h & cq & Hh & Hcq & Hrq). exists h, cq. rewrite !lookup_insert_ne by done.
        split; [done|]. split; [done|]. destruct Hs as [Hs _]. destruct (Hs q cq Hcq) as [_ Hvq].
        eapply slab_rep_frame; [done| |done]. intros x Hx. apply Hw.
        specialize (Hnew q (elem_of_dom_2 _ _ _ Hcq)). unfold disjoint_from in Hnew. lia.
    + destruct Htr as [Htr|Htr]; [by left|]. right. intros o Ho. destruct (Htr o Ho) as (q & a & Hq & Hin). exists q, a.
      rewrite lookup_insert_ne; [done|]. intros ->. congruence.
  - eexists 0, _. split; [done|]. split; [done|]. left. split; [done|]. split; [|done]. exists colors. cbn. rewrite Hr.
    rewrite Hol in Hol'. done.
Qed.

(** *** Giving a slab back *)
Lemma drain_stack p h (hd : gmap Z SlabHeader) w objs (free : list (Z * Status)) : hd !! p = Some h →
  Stk.holds (hdr_stack h) w (p + hdr_size) (packed <$> free) → Z.of_nat (length free) = g_num g →
  (∀ o st, (o, st) ∈ free → unpack_ptr (packed (o, st)) = o ∧ unpack_status (packed (o, st)) = st) →
  ∃ hd' objs', rfold (fun ho (_ : Z) =>
      '(pk, h) ← Sys.pop_hdr ho.1 w p (p + hdr_size);
      Ok (h, InitSystem.drop ho.2 (unpack_ptr pk) (unpack_status (InitSystem := InitSystem0) pk)))
    (zrange 0 (g_num g)) (hd, objs) = Ok (hd', objs') ∧ delete p hd' = delete p hd ∧
    ∀ o, o ∈ objs' ↔ o ∈ objs ∧ ¬ ∃ st, (o, st) ∈ free ∧ tracked st = Some true.
Proof.
  intros Hh Hho Hlen Hun.
  destruct (rfold_zrange (fun i ho => ∃ stk l1 l2, free = l1 ++ l2 ∧ Z.of_nat (length l2) = i ∧
      ho.1 = <[p:=mkHdr stk (hdr_color h) (hdr_next h) (hdr_prev h)]> hd ∧
      Stk.holds stk w (p + hdr_size) (packed <$> l1) ∧
      ∀ o, o ∈ ho.2 ↔ o ∈ objs ∧ ¬ ∃ st, (o, st) ∈ l2 ∧ tracked st = Some true)
    (fun ho (_ : Z) =>
      '(pk, h) ← Sys.pop_hdr ho.1 w p (p + hdr_size);
      Ok (h, InitSystem.drop ho.2 (unpack_ptr pk) (unpack_status (InitSystem := InitSystem0) pk)))
    0 (g_num g) (hd, objs)) as ([hd' objs'] & -> & stk & l1 & l2 & Ef & El & Ehd & _ & Ho).
  - lia.
  - exists (hdr_stack h), free, []. rewrite app_nil_r. cbn [fst snd]. refine (conj eq_refl (conj eq_refl (conj _ (conj Hho _)))).
    + rewrite insert_id; [done|]. rewrite Hh. by destruct h.
    + intros o. split; [intros ?; split; [done|]; intros (st & Hin & _); set_solver|by intros [? _]].
  - intros i [hd1 objs1] Hi (stk & l1 & l2 & Ef & El & Ehd & Hho1 & Ho). cbn [fst snd] in *.
    destruct l1 as [|[o st] l1 _] using rev_ind; [rewrite Ef in Hlen; cbn in Hlen; lia|].
    unfold Sys.pop_hdr. rewrite Ehd, lookup_insert_eq. cbn [deref mbind res_bind hdr_stack hdr_color hdr_next hdr_prev].
    rewrite fmap_app in Hho1. destruct (pop_holds _ _ _ _ _ Hho1) as (stk' & -> & Hho2). cbn [mbind res_bind].
    destruct (Hun o st) as [-> ->]; [rewrite Ef; set_solver|]. rewrite insert_insert_eq.
    eexists. split; [done|]. exists stk', l1, ((o, st) :: l2). cbn [fst snd length].
    refine (conj _ (conj _ (conj eq_refl (conj Hho2 _)))); [by rewrite Ef, <- app_assoc|lia|].
    intros o'. rewrite drop_effect. case_decide as Ht.
    + rewrite elem_of_difference, elem_of_singleton, Ho. split.
      * intros [[? Hn] Hne]. split; [done|]. intros (st' & [[= -> ->]|Hin]%elem_of_cons & Ht'); [done|eauto].
      * intros [? Hn]. split; [split; [done|]|intros ->; apply Hn; exists st; set_solver].
        intros (st' & Hin & Ht'). apply Hn. exists st'. set_solver.
    + rewrite Ho. split; intros [? Hn]; (split; [done|]).
      * intros (st' & [[= -> ->]|Hin]%elem_of_cons & Ht'); [done|eauto].
      * intros (st' & Hin & Ht'). apply Hn. exists st'. set_solver.
  - eexists _, _. split; [done|]. cbn [fst snd] in *. split; [by rewrite Ehd, delete_insert_eq|].
    assert (l1 = []) as ->; [|by rewrite Ef]. rewrite Ef, length_app in Hlen. destruct l1; [done|]. cbn in Hlen. lia.
Qed.

Lemma dealloc_slab_ok s A p a : sinv s A → A !! p = Some a → Permutation (sa_avail a) (sa_all a) →
  ∃ s', Sys.dealloc_slab s p = Ok s' ∧ sinv s' (delete p A) ∧ hdrs s' = delete p (hdrs s) ∧
    ∀ o, o ∈ objmem s' ↔ o ∈ objmem s ∧ (o ∈ sa_all a → ∀ st : Status, tracked st = None).
Proof.
  intros Hi Hp Hperm. destruct (sinv_lookup s A p _ Hi Hp) as (h & col & Hh & Hr & Hb & Hc & Hst).
  pose proof Hi as (colors & Hoi & Hol & Hsh & Hdc & Hdh & Hlive & Hs & Hcfg & Hrep & Htr).
  destruct (Hrep p _ Hp) as (h0 & col0 & Hh0 & Hcol & Hr0). rewrite Hh in Hh0. injection Hh0 as <-.
  assert (col0 = col) as -> by (destruct Hr as [<- _], Hr0 as [<- _]; done). clear Hr0.
  pose proof Hr as (Ec & Eall & free & Eav & Hnd & Hsub & Hho & Hok). pose proof Hsh as (_ & En & _).
  assert (Hlen : Z.of_nat (length free) = g_num g).
  { rewrite <- (length_objects g Hg p col), <- Eall, <- Hperm, Eav, length_fmap. done. }
  unfold Sys.dealloc_slab, Sys.slab_size. rewrite Hh. cbn [deref mbind res_bind].
  rewrite rassert_true by (apply Z.eqb_eq; rewrite (stack_size_avail _ _ _ _ _ _ Hr), En, Eav, length_fmap; done).
  cbn [mbind res_bind]. rewrite Hol. fold (g_size g).
  destruct (pre_dealloc_spec (sys_data s) colors (sys_layout s) (hdrs s) p h) as (data & -> & Hcfg'); [done..|by rewrite Ec|done|].
  cbn [mbind res_bind]. rewrite Hst. cbn [mbind res_bind]. rewrite En.
  destruct (drain_stack p h (hdrs s) (words s) (objmem s) free Hh Hho Hlen) as (hd' & objs' & -> & Edel & Hobjs).
  { intros o st Hin. apply (unpack_packed p col); [done|done|]. rewrite <- Eall. apply Hsub, list_elem_of_fmap. by exists (o, st). }
  cbn [mbind res_bind]. destruct (oa_dealloc_spec (sys_backing s) p Hoi) as (b & -> & Hoi' & Hol' & Hl').
  { apply Hlive. by apply elem_of_dom_2 in Hcol. }
  cbn [mbind res_bind]. eexists. split; [done|]. cbn [hdrs objmem].
  assert (Hobjs' : ∀ o, o ∈ objs' ↔ o ∈ objmem s ∧ (o ∈ sa_all a → ∀ st : Status, tracked st = None)).
  { intros o. rewrite Hobjs. split; intros [Hin Hn]; (split; [done|]).
    - intros Ha st. rewrite <- Hperm, Eav in Ha. apply list_elem_of_fmap in Ha as ([o' st'] & Eo & Hf). cbn in Eo. subst o'.
      destruct (tracked st') as [bb|] eqn:E; [|by eapply tracked_same]. destruct Hn. exists st'. split; [done|].
      rewrite E. f_equal. rewrite (Hok o st' Hf bb E). by apply bool_decide_eq_true.
    - intros (st & Hf & Ht). specialize (Hn ltac:(apply Hsub, list_elem_of_fmap; by exists (o, st)) st). congruence. }
  split; [|split; [done|exact Hobjs']].
  exists (delete p colors). cbn. rewrite Edel, !dom_delete_L, Hdc, Hdh, Hl', Hol'.
  refine (conj Hoi' (conj Hol (conj Hsh (conj eq_refl (conj eq_refl (conj _ (conj _ (conj Hcfg' (conj _ _))))))))).
  - rewrite <- Hdc. set_solver.
  - destruct Hs as [Hs Hd]. split.
    + intros q c [_ Hq]%lookup_delete_Some. by apply Hs.
    + intros q q'. rewrite dom_delete. intros Hq Hq' Hne. apply Hd; set_solver.
  - intros q b' [Hne Hq]%lookup_delete_Some. destruct (Hrep q b' Hq) as (hq & cq & Hhq & Hcq & Hrq).
    exists hq, cq. rewrite !lookup_delete_ne by done. split; [done|]. split; [done|].
    destruct Hs as [Hs Hd]. destruct (Hs q cq Hcq) as [_ Hvq].
    assert (Hdj : disjoint_from p (g_size g) q (g_size g)).
    { apply Hd; [by apply elem_of_dom_2 in Hcol|by apply elem_of_dom_2 in Hcq|done]. }
    eapply slab_rep_frame; [done| |eapply slab_rep_objs; [|exact Hrq]].
    + intros x Hx. unfold Sys.unmap_words. unfold disjoint_from in Hdj. destruct (words s !! x) eqn:E.
      * apply map_lookup_filter_Some. split; [done|]. cbn. lia.
      * apply map_lookup_filter_None. by left.
    + intros o Ho. rewrite Hobjs'. split; [by intros [? _]|]. intros Hin. split; [done|]. intros Ha. exfalso. apply Hne.
      destruct Hrq as (_ & Eq & free' & Eav' & _ & Hsub' & _). rewrite Eall in Ha. rewrite Eav' in Ho. apply Hsub' in Ho. rewrite Eq in Ho.
      eapply (objects_disjoint g Hg colors); try done.
  - destruct Htr as [Htr|Htr]; [by left|]. destruct (tracked (status_uninitialized (Status := Status))) as [bb|] eqn:E; [|by left]. right. intros o Ho.
    apply Hobjs' in Ho as [Ho Hn]. destruct (Htr o Ho) as (q & b' & Hq & Hin). exists q, b'. split; [|done].
    apply lookup_delete_Some. split; [|done]. intros <-. rewrite Hp in Hq. injection Hq as <-.
    specialize (Hn Hin status_uninitialized). congruence.
Qed.

(** *** The allocator's own changes to memory *)
Definition set_hdrs s (m : gmap Z SlabHeader) : System B C :=
  mkSystem (sys_data s) (sys_layout s) (sys_backing s) m (words s) (objmem s).
Definition set_objmem s (o : gset Z) : System B C :=
  mkSystem (sys_data s) (sys_layout s) (sys_backing s) (hdrs s) (words s) o.

Lemma set_hdrs_ok s A xs m : sinv s A → LL.links_only xs (hdrs s) m → sinv (set_hdrs s m) A.
Proof.
  intros (colors & Hoi & Hol & Hsh & Hdc & Hdh & Hlive & Hs & Hcfg & Hrep & Htr) HL. exists colors. cbn.
  refine (conj Hoi (conj Hol (conj Hsh (conj Hdc (conj _ (conj Hlive (conj Hs (conj Hcfg (conj _ Htr))))))))).
  - rewrite <- Hdh. by eapply links_only_dom.
  - intros p a Hp. destruct (Hrep p a Hp) as (h & col & Hh & Hcol & Hr). destruct HL as [_ HL]. specialize (HL p).
    rewrite Hh in HL. destruct (m !! p) as [h'|]; [|done]. cbn in HL. injection HL as E1 E2. exists h', col.
    split; [done|]. split; [done|]. unfold slab_rep. rewrite E1, E2. exact Hr.
Qed.

Lemma set_objmem_ok s A objs : sinv s A → (∀ o, is_available A o → o ∈ objs ↔ o ∈ objmem s) →
  (∀ o, o ∈ objs → o ∈ objmem s ∨ is_allocated A o) → sinv (set_objmem s objs) A.
Proof.
  intros (colors & Hoi & Hol & Hsh & Hdc & Hdh & Hlive & Hs & Hcfg & Hrep & Htr) Hav Hal. exists colors. cbn.
  refine (conj Hoi (conj Hol (conj Hsh (conj Hdc (conj Hdh (conj Hlive (conj Hs (conj Hcfg (conj _ _))))))))).
  - intros p a Hp. destruct (Hrep p a Hp) as (h & col & Hh & Hcol & Hr). exists h, col. split; [done|]. split; [done|].
    eapply slab_rep_objs; [|done]. intros o Ho. apply Hav. by exists p, a.
  - destruct Htr as [Htr|Htr]; [by left|]. right. intros o Ho. destruct (Hal o Ho) as [?|(p & a & Hp & Hin & _)]; [auto|eauto].
Qed.

(** The stack-based slab system is a slab system. *)
Definition stack_slab_system : SlabSystem (Status := Status) (System B C) SlabHeader.
Proof.
  refine {| sys_heap := hdrs; set_heap := set_hdrs; sys_objs := objmem; set_objs := set_objmem;
    sys_alloc_slab := Sys.alloc_slab (Status := Status); sys_dealloc_slab := Sys.dealloc_slab (Status := Status);
    sys_is_full := Sys.is_full; sys_is_empty := Sys.is_empty; sys_alloc := Sys.alloc; sys_dealloc := Sys.dealloc;
    obj_align := layout_align (g_layout g); sys_inv := sinv |}; try done.
  - apply sinv_wf.
  - apply sinv_aligned.
  - by intros s A (colors & _ & _ & _ & _ & Hdh & _).
  - apply set_hdrs_ok.
  - apply set_objmem_ok.
  - apply alloc_slab_ok.
  - apply dealloc_slab_ok.
  - apply is_full_ok.
  - apply is_empty_ok.
  - apply alloc_ok.
  - apply dealloc_ok.
Defined.

(** A system built on a fresh backing allocator has no slabs. *)
Lemma sinv_empty data layout b : oa_inv b → oa_layout b = g_block g → shape g layout → cfg_inv data ∅ →
  sinv (Sys.from_config_data data layout b) ∅.
Proof.
  intros Hoi Hol Hsh Hcfg. exists ∅. cbn. refine (conj Hoi (conj Hol (conj Hsh _))).
  split_and!; try done; try set_solver.
Qed.
End system.
