(* ===== verification/SlabBuilder.v ===== *)
(** * Building a slab allocator

    Models the builders and the public allocator of
    [src/slab-alloc/src/lib.rs]: [align], [build_backing] (the choice between
    aligned and large slabs), the constructors of the two systems
    ([aligned.rs], [large.rs]) and the dispatch of [alloc] and [dealloc]. *)

From Stdlib Require Import ZArith Lia.
From S2P Require Import Prelude StdAlloc SlabUtil SlabList PtrMap InitSystem SlabLayout SlabIface SlabAlloc Backing SlabSystem.
From stdpp Require Import base numbers list gmap option fin_maps.

Open Scope Z_scope.

(** [aligned::System::new]. *)
Definition aligned_new {B} `{!UntypedObjectAlloc B} (layout : Layout) (alloc : B) : res (option (System B unit)) :=
  r ← SL.for_slab_size layout (layout_size (oa_layout alloc));
  Ok (match r with Some (sl, _) => Some (Sys.from_config_data tt sl alloc) | None => None end).

Definition DEFAULT_MAP_SIZE : Z := 256.

(** [large::System::new]. *)
Definition large_new {B} `{!UntypedObjectAlloc B} (PAGE_SIZE : Z) (layout : Layout) (alloc : B) :
    res (option (System B LargeCfg.ConfigData)) :=
  r ← SL.for_slab_size layout (layout_size (oa_layout alloc));
  match r with
  | Some (sl, _) =>
      let map_by_page_addr := layout_size layout <? PAGE_SIZE in
      map_key_align ← (if map_by_page_addr then Ok PAGE_SIZE else next_power_of_two (layout_size layout));
      m ← PM.new 1 DEFAULT_MAP_SIZE map_key_align;
      Ok (Some (Sys.from_config_data (LargeCfg.mkConfig m map_by_page_addr PAGE_SIZE) sl alloc))
  | None => Ok None
  end.

(** [SlabAllocBuilder::align]; the object size is that of the layout. *)
Definition builder_align (PAGE_SIZE : Z) (l : Layout) (align : Z) : res Layout :=
  _ ← rassert (is_power_of_two align);
  _ ← rassert (align <=? layout_size l);
  r ← umod (layout_size l) align;
  _ ← rassert (r =? 0);
  _ ← rassert (align <=? PAGE_SIZE);
  Ok (align_to l align).

(** [PrivateSlabAlloc]. *)
Inductive PrivateSlabAlloc (BA BL : Type) :=
  | PAligned (a : SizedSlabAlloc (System BA unit))
  | PLarge (a : SizedSlabAlloc (System BL LargeCfg.ConfigData)).
Arguments PAligned {BA BL}.
Arguments PLarge {BA BL}.

Section builder.
Context {Status : Type} `{!InitSystem Status} {BA BL : Type} `{!UntypedObjectAlloc BA} `{!UntypedObjectAlloc BL}.
Context (PAGE_SIZE : Z).

(** [build_backing]. *)
Definition build_backing (l : Layout) (get_aligned : Layout → res (option BA)) (get_large : Layout → res BL) (now : Z) :
    res (PrivateSlabAlloc BA BL) :=
  layout ← satisfy_min_align l (min_align (Status := Status));
  aligned_backing_size ← Aligned.backing_size_for PAGE_SIZE layout;
  aligned_slab_layout ← unwrap (from_size_align aligned_backing_size aligned_backing_size);
  backing ← get_aligned aligned_slab_layout;
  match backing with
  | Some alloc =>
      r ← aligned_new layout alloc;
      data ← unwrap r;
      Ok (PAligned (SSA.new l data now))
  | None =>
      backing_size ← Large.backing_size_for PAGE_SIZE layout;
      slab_layout ← unwrap (from_size_align backing_size PAGE_SIZE);
      alloc ← get_large slab_layout;
      r ← large_new PAGE_SIZE layout alloc;
      data ← unwrap r;
      Ok (PLarge (SSA.new l data now))
  end.
End builder.

(** ** The untyped allocator

    The code repeats the typed allocator's enum and builder. *)
Inductive PrivateUntypedSlabAlloc (BA BL : Type) :=
  | UAligned (a : SizedSlabAlloc (System BA unit))
  | ULarge (a : SizedSlabAlloc (System BL LargeCfg.ConfigData)).
Arguments UAligned {BA BL}.
Arguments ULarge {BA BL}.

(** The builders: an initialization system (the [InitSystem] instance of
    [Status]) and an object layout. *)
Record SlabAllocBuilder (Status : Type) := mkBuilder { sb_layout : Layout }.
Arguments mkBuilder {Status}.
Arguments sb_layout {Status}.

Module Builder.
(** [SlabAllocBuilder::default], [func], [unsafe_func] and [no_initialize];
    [T] is [Layout::new::<T>()]. *)
Definition default (T : Layout) : SlabAllocBuilder bool := mkBuilder T.
Definition func (T : Layout) : SlabAllocBuilder bool := mkBuilder T.
Definition unsafe_func (T : Layout) : SlabAllocBuilder bool := mkBuilder T.
Definition no_initialize (T : Layout) : SlabAllocBuilder unit := mkBuilder T.

(** [UntypedSlabAllocBuilder::func] and [new]. *)
Definition untyped_func (layout : Layout) : SlabAllocBuilder bool := mkBuilder layout.
Definition untyped_new (layout : Layout) : SlabAllocBuilder unit := mkBuilder layout.

Section ops.
Context {Status : Type} `{!InitSystem Status} (PAGE_SIZE : Z).

(** [align] of both builders. *)
Definition align (b : SlabAllocBuilder Status) (align : Z) : res (SlabAllocBuilder Status) :=
  l ← builder_align PAGE_SIZE (sb_layout b) align; Ok (mkBuilder l).

(** [build_untyped_backing], and [UntypedSlabAllocBuilder::build_backing]. *)
Definition build_untyped_backing {BA BL} `{!UntypedObjectAlloc BA} `{!UntypedObjectAlloc BL} (b : SlabAllocBuilder Status)
    (get_aligned : Layout → res (option BA)) (get_large : Layout → res BL) (now : Z) : res (PrivateUntypedSlabAlloc BA BL) :=
  layout ← satisfy_min_align (sb_layout b) (min_align (Status := Status));
  aligned_backing_size ← Aligned.backing_size_for PAGE_SIZE layout;
  aligned_slab_layout ← unwrap (from_size_align aligned_backing_size aligned_backing_size);
  backing ← get_aligned aligned_slab_layout;
  match backing with
  | Some alloc =>
      r ← aligned_new layout alloc;
      data ← unwrap r;
      Ok (UAligned (SSA.new (sb_layout b) data now))
  | None =>
      backing_size ← Large.backing_size_for PAGE_SIZE layout;
      slab_layout ← unwrap (from_size_align backing_size PAGE_SIZE);
      alloc ← get_large slab_layout;
      r ← large_new PAGE_SIZE layout alloc;
      data ← unwrap r;
      Ok (ULarge (SSA.new (sb_layout b) data now))
  end.

Section backed.
Context {A : Type} `{!Alloc A}.

(** [build] and [build_untyped]: slabs from the heap. *)
Definition build (Heap : A) (b : SlabAllocBuilder Status) (now : Z) :=
  build_backing (Status := Status) PAGE_SIZE (sb_layout b) (heap_get_aligned PAGE_SIZE Heap) (heap_get_large Heap) now.
Definition build_untyped (Heap : A) (b : SlabAllocBuilder Status) (now : Z) :=
  build_untyped_backing b (heap_get_aligned PAGE_SIZE Heap) (heap_get_large Heap) now.

(** [build_mmap] and [build_untyped_mmap]: slabs from mmap. *)
Definition build_mmap (map_default : A) (map_huge : Z → A) (hugepage_supported : Z → bool) (b : SlabAllocBuilder Status) (now : Z) :=
  build_backing (Status := Status) PAGE_SIZE (sb_layout b)
    (mmap_get_aligned PAGE_SIZE map_default map_huge hugepage_supported) (mmap_get_large PAGE_SIZE map_default) now.
Definition build_untyped_mmap (map_default : A) (map_huge : Z → A) (hugepage_supported : Z → bool) (b : SlabAllocBuilder Status) (now : Z) :=
  build_untyped_backing b
    (mmap_get_aligned PAGE_SIZE map_default map_huge hugepage_supported) (mmap_get_large PAGE_SIZE map_default) now.
End backed.
End ops.
End Builder.

(** ** The allocators the builder makes are sound *)
Section sound.
Context {Status : Type} `{!InitSystem Status} {BA BL : Type} `{!UntypedObjectAlloc BA} `{!UntypedObjectAlloc BL}.

(** The geometry of a slab layout. *)
Definition geom_of (l bl : Layout) (sl : SL.SLayout) : Geom :=
  mkGeom l bl (SL.num_obj sl) (Color.max_color (SL.color_settings sl)).

Lemma geom_of_ok l bl sl u : obj_layout_ok l → slab_size_ok (layout_size bl) → (layout_align l | layout_size l) →
  (layout_align l | layout_align bl) → layout_for l (layout_size bl) sl u → geom_ok (geom_of l bl sl).
Proof.
  intros Hl Hs Hd Hb HL. pose proof (layout_for_color_room _ _ _ _ (Color.max_color (SL.color_settings sl)) HL Hl ltac:(lia)) as Hroom.
  destruct HL as (H1 & _ & _ & Hab & _ & _ & _ & (Ha & _ & (i & Hi & Ei) & Hc) & _). unfold geom_ok, g_size. cbn. rewrite <- Hab.
  split_and!; try done. nia.
Qed.

Lemma shape_of l bl sl u : layout_for l (layout_size bl) sl u → shape (geom_of l bl sl) sl.
Proof. intros HL. split; [by exists u|done]. Qed.

(** The outcome of the builder: the allocator wraps a slab system of the
    interface, with no slabs yet. *)
Definition built_aligned (l : Layout) (a : SizedSlabAlloc (System BA unit)) : Prop :=
  ∃ g (Hg : geom_ok g) (HC : ConfigLaws unit g) (Hmin : (min_align (Status := Status) | layout_align (g_layout g))),
    (layout_align l | layout_align (g_layout g)) ∧ layout_size l ≤ layout_size (g_layout g) ∧
    sized_inv (H := SlabHeader) (SlabSystem0 := stack_slab_system g Hg Hmin) a ∅ ∅ ∧ layout a = l.

Definition built_large (l : Layout) (a : SizedSlabAlloc (System BL LargeCfg.ConfigData)) : Prop :=
  ∃ g (Hg : geom_ok g) (HC : ConfigLaws LargeCfg.ConfigData g) (Hmin : (min_align (Status := Status) | layout_align (g_layout g))),
    (layout_align l | layout_align (g_layout g)) ∧ layout_size l ≤ layout_size (g_layout g) ∧
    sized_inv (H := SlabHeader) (SlabSystem0 := stack_slab_system g Hg Hmin) a ∅ ∅ ∧ layout a = l.

(** The layouts a builder is used with: nonempty, a multiple of the alignment,
    which is at most a page. *)
Definition user_layout_ok (p : Z) (l : Layout) : Prop :=
  0 < layout_size l < 2 ^ 26 ∧ (layout_align l | layout_size l) ∧ ∃ a, 0 ≤ a ≤ p ∧ layout_align l = 2 ^ a.

(** The layouts backing allocators are asked for. *)
Definition block_layout_ok (bl : Layout) : Prop :=
  0 < layout_size bl ∧ (layout_align bl | layout_size bl) ∧ ∃ k, 0 ≤ k ≤ 31 ∧ layout_align bl = 2 ^ k.

Lemma min_align_layout p l : 12 ≤ p ≤ 26 → min_align (Status := Status) ≤ 2 ^ 12 → user_layout_ok p l →
  ∃ l', satisfy_min_align l (min_align (Status := Status)) = Ok l' ∧ obj_layout_ok l' ∧ (layout_align l' | layout_size l') ∧
    (min_align (Status := Status) | layout_align l') ∧ (layout_align l | layout_align l') ∧ layout_align l' ≤ 2 ^ p ∧
    layout_size l ≤ layout_size l' < 2 ^ 27.
Proof.
  intros Hp Hm (Hs & Hd & a & Ha & Ea). destruct (min_align_pow2 (Status := Status)) as (k & Hk & Ek). rewrite Ek in *.
  assert (Hk12 : k ≤ 12) by (apply (Z.pow_le_mono_r_iff 2); lia).
  pose proof (pow2_pos k ltac:(lia)). pose proof (pow2_pos a ltac:(lia)). assert (2 ^ 12 ≤ 2 ^ p) by (apply Z.pow_le_mono_r; lia).
  assert (2 ^ a ≤ 2 ^ p) by (apply Z.pow_le_mono_r; lia).
  unfold satisfy_min_align. rewrite Ea in *. destruct (Z.leb_spec (2 ^ k) (2 ^ a)) as [Hle|Hlt].
  - exists l. rewrite Ea. split_and!; try done; try lia.
    + split; [lia|]. exists a. split; [lia|done].
    + apply pow2_divide. split; [lia|]. apply (Z.pow_le_mono_r_iff 2); lia.
  - assert (Hak : a ≤ k) by (apply Z.lt_le_incl, (Z.pow_lt_mono_r_iff 2); lia).
    rewrite umod_Ok by lia. cbn [mbind res_bind]. pose proof (Z.mod_pos_bound (layout_size l) (2 ^ k)).
    destruct (Z.eqb_spec (layout_size l mod 2 ^ k) 0) as [E|E].
    + eexists. split; [done|]. unfold align_to, obj_layout_ok. cbn. rewrite Ea, Z.max_r by lia. split_and!; try done; try lia; try apply Z.divide_refl.
      * exists k. split; [lia|done].
      * by apply Z.mod_divide; [lia|].
      * apply pow2_divide; lia.
    + res_step by lia. res_step by lia. rewrite (from_size_align_Some _ (2 ^ k) k) by (done || (unfold usize_max; lia)). cbn.
      eexists. split; [done|]. unfold obj_layout_ok. cbn. split_and!; try done; try lia; try apply Z.divide_refl.
      * exists k. split; [lia|done].
      * rewrite (Z.div_mod (layout_size l) (2 ^ k)) at 1 by lia. exists (layout_size l / 2 ^ k + 1). lia.
      * apply pow2_divide; lia.
Qed.

Lemma usable_new {B} `{!UntypedObjectAlloc B} l (alloc : B) : usable l (layout_size (oa_layout alloc)) →
  ∃ sl u, SL.for_slab_size l (layout_size (oa_layout alloc)) = Ok (Some (sl, u)) ∧
    layout_for l (layout_size (oa_layout alloc)) sl u ∧ slab_size_ok (layout_size (oa_layout alloc)).
Proof. intros (Hs & sl & u & E & HL). eauto. Qed.

(** Two powers of two divide each other in order. *)
Lemma divide_pow2 a p : (∃ k, 0 ≤ k ≤ 31 ∧ a = 2 ^ k) → a ≤ 2 ^ p → 0 ≤ p → (a | 2 ^ p).
Proof. intros (k & Hk & ->) Hle Hp. apply pow2_divide. split; [lia|]. apply (Z.pow_le_mono_r_iff 2); lia. Qed.

Lemma aligned_built l l' k (b : BA) now : 0 < layout_align l → obj_layout_ok l' → (layout_align l' | layout_size l') →
  (min_align (Status := Status) | layout_align l') → (layout_align l | layout_align l') → layout_size l ≤ layout_size l' →
  layout_align l' ≤ 2 ^ k → 0 ≤ k ≤ 61 → usable l' (2 ^ k) → oa_inv b → oa_layout b = mkLayout (2 ^ k) (2 ^ k) →
  ∃ s, aligned_new l' b = Ok (Some s) ∧ built_aligned l (SSA.new l s now).
Proof.
  intros Hl0 Hl' Hd Hm Hll Hsz Hak Hk Hu Hoi Hol. destruct (usable_new l' b) as (sl & u & Hfor & HL & Hs); [by rewrite Hol|].
  unfold aligned_new. rewrite Hfor. cbn [mbind res_bind]. eexists. split; [done|].
  set (g := geom_of l' (oa_layout b) sl).
  assert (Hg : geom_ok g). { eapply geom_of_ok; try done. rewrite Hol. cbn. apply divide_pow2; [by destruct Hl'|done|lia]. }
  exists g, Hg, (aligned_laws g k Hg ltac:(lia) Hol), Hm. refine (conj Hll (conj Hsz (conj _ eq_refl))).
  apply (new_inv l (Sys.from_config_data tt sl b) now); [|done|done].
  eapply sinv_empty; try done. by eapply shape_of.
Qed.

Lemma large_built l l' p (b : BL) s now : 0 < layout_align l → obj_layout_ok l' → (layout_align l' | layout_size l') →
  (min_align (Status := Status) | layout_align l') → (layout_align l | layout_align l') → layout_size l ≤ layout_size l' < 2 ^ 62 →
  layout_align l' ≤ 2 ^ p → 4 ≤ p ≤ 31 → usable l' s → (2 ^ p | s) → oa_inv b → oa_layout b = mkLayout s (2 ^ p) →
  ∃ y, large_new (2 ^ p) l' b = Ok (Some y) ∧ built_large l (SSA.new l y now).
Proof.
  intros Hl0 Hl' Hd Hm Hll Hsz Hap Hp Hu Hps Hoi Hol. destruct (usable_new l' b) as (sl & u & Hfor & HL & Hs); [by rewrite Hol|].
  unfold large_new. rewrite Hfor. cbn [mbind res_bind]. pose proof (pow2_pos p ltac:(lia)).
  assert (∃ ka, (if layout_size l' <? 2 ^ p then Ok (2 ^ p) else next_power_of_two (layout_size l')) = Ok ka ∧ 1 ≤ ka) as (ka & -> & Hka).
  { destruct (layout_size l' <? 2 ^ p); [exists (2 ^ p); split; [done|lia]|].
    destruct (next_power_of_two_Ok (layout_size l')) as [q Hq]; [lia|]. exists q. split; [done|]. apply next_power_of_two_spec in Hq as (_ & ? & _). lia. }
  cbn [mbind res_bind]. destruct (new_spec 1 DEFAULT_MAP_SIZE ka) as (m & -> & Hm'); [lia|unfold DEFAULT_MAP_SIZE; lia|].
  cbn [mbind res_bind]. eexists. split; [done|]. set (g := geom_of l' (oa_layout b) sl).
  assert (Hg : geom_ok g). { eapply geom_of_ok; try done. rewrite Hol. cbn. apply divide_pow2; [by destruct Hl'|done|lia]. }
  assert (Hpal : (2 ^ p | layout_align (g_block g))) by (cbn; rewrite Hol; apply Z.divide_refl).
  assert (Hmode : if layout_size l' <? 2 ^ p then (2 ^ p | g_size g) else 2 ^ p ≤ layout_size (g_layout g)).
  { unfold g_size. cbn. rewrite Hol. destruct (Z.ltb_spec (layout_size l') (2 ^ p)); [done|lia]. }
  exists g, Hg, (large_laws g Hg (layout_size l' <? 2 ^ p) p Hp Hpal Hmode), Hm.
  refine (conj Hll (conj (proj1 Hsz) (conj _ eq_refl))).
  eapply (new_inv l (Sys.from_config_data _ sl b) now); [|done|done].
  eapply sinv_empty; try done; [by eapply shape_of|by apply large_inv_empty].
Qed.

Lemma build_backing_spec (p : Z) (l : Layout) (get_aligned : Layout → res (option BA)) (get_large : Layout → res BL) (now : Z) :
  12 ≤ p ≤ 26 → min_align (Status := Status) ≤ 2 ^ 12 → user_layout_ok p l →
  (∀ k, p < k ≤ 31 → ∃ ob, get_aligned (mkLayout (2 ^ k) (2 ^ k)) = Ok ob ∧
    match ob with Some b => oa_inv b ∧ oa_layout b = mkLayout (2 ^ k) (2 ^ k) | None => True end) →
  (∀ s, 0 < s < 2 ^ 62 → (2 ^ p | s) → ∃ b, get_large (mkLayout s (2 ^ p)) = Ok b ∧ oa_inv b ∧ oa_layout b = mkLayout s (2 ^ p)) →
  ∃ a, build_backing (Status := Status) (2 ^ p) l get_aligned get_large now = Ok a ∧
    match a with PAligned a => built_aligned l a | PLarge a => built_large l a end ∧
    ((∀ k, p < k ≤ 31 → get_aligned (mkLayout (2 ^ k) (2 ^ k)) = Ok None) → ∃ x, a = PLarge x).
Proof.
  intros Hp Hm Hl Hga Hgl. destruct (min_align_layout p l Hp Hm Hl) as (l' & Hsat & Hl' & Hd & Hmin & Hll & Hap & Hsz).
  assert (Hl0 : 0 < layout_align l) by (destruct Hl as (_ & _ & a & Ha & ->); apply pow2_pos; lia).
  unfold build_backing. rewrite Hsat, bind_Ok.
  destruct (aligned_backing_size_spec p l' Hl' ltac:(lia)) as (k & -> & Hk & Hu & Hsmall). rewrite bind_Ok.
  assert (2 ^ p ≤ 2 ^ 26) by (apply Z.pow_le_mono_r; lia).
  assert (Hk31 : k ≤ 31).
  { destruct Hsmall as [Hs| ->]; [|lia]. assert (Hlt : 2 ^ k < 2 ^ 32) by (unfold enough in Hs; lia).
    apply Z.pow_lt_mono_r_iff in Hlt; lia. }
  assert (2 ^ k ≤ 2 ^ 31) by (apply Z.pow_le_mono_r; lia). assert (2 ^ p ≤ 2 ^ k) by (apply Z.pow_le_mono_r; lia).
  rewrite (from_size_align_Some _ _ k) by (done || (unfold usize_max; lia)). cbn [unwrap]. rewrite bind_Ok.
  destruct (Hga k ltac:(lia)) as ([b|] & Hgk & Hob); rewrite Hgk, bind_Ok.
  - destruct Hob as [Hoi Hol]. destruct (aligned_built l l' k b now) as (s & -> & Hbuilt); try done; try lia.
    cbn [unwrap mbind res_bind]. eexists. split; [done|]. split; [exact Hbuilt|]. intros HN. by rewrite HN in Hgk by lia.
  - destruct (large_backing_size_spec (2 ^ p) l' Hl') as (s & -> & Hps & Hs0 & Hus); [pose proof (pow2_pos p); lia|].
    cbn [mbind res_bind]. pose proof Hus as [[_ Hs62] _].
    rewrite (from_size_align_Some _ _ p) by (done || lia || (unfold usize_max; lia)). cbn [unwrap mbind res_bind].
    destruct (Hgl s ltac:(lia) Hps) as (b & -> & Hoi & Hol). rewrite bind_Ok.
    destruct (large_built l l' p b s now) as (y & -> & Hbuilt); try done; try lia.
    cbn [unwrap mbind res_bind]. eexists. split; [done|]. split; [exact Hbuilt|]. eauto.
Qed.

(** C6: the builder succeeds on ordinary layouts.  For every nonempty object
    layout below 64 MiB whose size is a multiple of its alignment, which is at
    most a page (other layouts are outside: from 2 GiB on the builder panics,
    see [build_backing_huge_panics]), and for backing allocators of the requested layouts, [build_backing] runs
    through all its [unwrap]s and returns an allocator that satisfies the slab
    allocator's invariant with no object handed out, over a slab system whose
    objects have at least the requested size and alignment. *)
Theorem build_backing_sound (p : Z) (l : Layout) (get_aligned : Layout → res (option BA)) (get_large : Layout → res BL) (now : Z) :
  12 ≤ p ≤ 26 → min_align (Status := Status) ≤ 2 ^ 12 → user_layout_ok p l →
  (∀ k, p < k ≤ 31 → ∃ ob, get_aligned (mkLayout (2 ^ k) (2 ^ k)) = Ok ob ∧
    match ob with Some b => oa_inv b ∧ oa_layout b = mkLayout (2 ^ k) (2 ^ k) | None => True end) →
  (∀ s, 0 < s < 2 ^ 62 → (2 ^ p | s) → ∃ b, get_large (mkLayout s (2 ^ p)) = Ok b ∧ oa_inv b ∧ oa_layout b = mkLayout s (2 ^ p)) →
  ∃ a, build_backing (Status := Status) (2 ^ p) l get_aligned get_large now = Ok a ∧
    match a with PAligned a => built_aligned l a | PLarge a => built_large l a end.
Proof. intros. destruct (build_backing_spec p l get_aligned get_large now) as (a & ? & ? & _); eauto. Qed.

(** Objects of two gigabytes or more cannot be built.  The power-of-two
    slab size for such an object exceeds the greatest alignment a [Layout] may
    have, so the [unwrap] of the aligned slab layout panics before the fallback
    to large slabs, which have no such limit, is reached. *)
Theorem build_backing_huge_panics (p : Z) (l : Layout) (get_aligned : Layout → res (option BA)) (get_large : Layout → res BL) (now : Z) :
  0 ≤ p ≤ 30 → obj_layout_ok l → min_align (Status := Status) ≤ layout_align l → 2 ^ 31 ≤ layout_size l →
  build_backing (Status := Status) (2 ^ p) l get_aligned get_large now = Fault UnwrapNone.
Proof.
  intros Hp Hl Hm Hbig. unfold build_backing, satisfy_min_align. rewrite (proj2 (Z.leb_le _ _) Hm), bind_Ok.
  destruct (aligned_backing_size_spec p l Hl Hp) as (k & -> & Hk & (_ & sl & u & _ & HL) & _). rewrite bind_Ok.
  destruct HL as (H1 & _ & _ & _ & Hfit & _). unfold fits in Hfit. pose proof (obj_layout_align l Hl).
  pose proof (obj_off_bounds (layout_align l) (SL.num_obj sl) ltac:(lia)). unfold hdr_size in *.
  rewrite from_size_align_None by nia. done.
Qed.
End sound.

(** The typed and the untyped builder make the same allocator. *)
Definition untyped {BA BL} (a : PrivateSlabAlloc BA BL) : PrivateUntypedSlabAlloc BA BL :=
  match a with PAligned a => UAligned a | PLarge a => ULarge a end.

Section untyped.
Context {Status : Type} `{!InitSystem Status} {BA BL : Type} `{!UntypedObjectAlloc BA} `{!UntypedObjectAlloc BL}.

Lemma build_untyped_agrees P (b : SlabAllocBuilder Status) (ga : Layout → res (option BA)) (gl : Layout → res BL) now :
  Builder.build_untyped_backing P b ga gl now = untyped <$> build_backing (Status := Status) P (sb_layout b) ga gl now.
Proof.
  unfold Builder.build_untyped_backing, build_backing.
  do 4 (rewrite res_fmap_bind; apply res_bind_ext; intros ?). destruct (_ : option BA); repeat (rewrite res_fmap_bind; apply res_bind_ext; intros ?); done.
Qed.
End untyped.

Section heap.
Context {Status : Type} `{!InitSystem Status} {A : Type} `{!Alloc A}.

(** Heap-backed allocators always use large slabs.  The candidate sizes of
    aligned slabs start at two pages and the heap provider declines aligned
    blocks of more than a page, so [build] (and [build_untyped], with the same
    allocator) succeeds for every layout the builder accepts, and always with
    the pointer-map slabs. *)
Theorem heap_build_uses_large_slabs (p : Z) (l : Layout) (Heap : A) (now : Z) :
  12 ≤ p ≤ 26 → min_align (Status := Status) ≤ 2 ^ 12 → user_layout_ok p l → al_inv Heap →
  (∀ s, 0 < s < 2 ^ 62 → (2 ^ p | s) → al_supports (mkLayout s (2 ^ p))) →
  ∃ a, Builder.build (Status := Status) (2 ^ p) Heap (mkBuilder l) now = Ok (PLarge a) ∧ built_large (Status := Status) l a ∧
    Builder.build_untyped (Status := Status) (2 ^ p) Heap (mkBuilder l) now = Ok (ULarge a).
Proof.
  intros Hp Hm Hl Hi Hsup.
  assert (Hnone : ∀ k, p < k ≤ 31 → heap_get_aligned (2 ^ p) Heap (mkLayout (2 ^ k) (2 ^ k)) = Ok None).
  { intros k Hk. unfold heap_get_aligned. cbn. assert (2 ^ p < 2 ^ k) by (apply Z.pow_lt_mono_r; lia).
    by rewrite (proj2 (Z.ltb_lt (2 ^ p) (2 ^ k))). }
  destruct (build_backing_spec p l (heap_get_aligned (2 ^ p) Heap) (heap_get_large Heap) now Hp Hm Hl) as (a & Ha & Hb & Hlarge).
  - intros k Hk. exists None. by rewrite Hnone.
  - intros s Hs Hd. eexists. split; [done|]. cbn. split; [|done]. split; [done|]. split; [by apply Hsup|lia].
  - destruct (Hlarge Hnone) as [x ->]. exists x. split; [exact Ha|]. split; [exact Hb|].
    unfold Builder.build_untyped. rewrite build_untyped_agrees. cbn [sb_layout]. by rewrite Ha.
Qed.
End heap.

(** [ObjectAlloc] and [UntypedObjectAlloc] for [SlabAlloc] and
    [UntypedObjectAlloc] for [UntypedSlabAlloc]: dispatch on the kind of slab. *)
Section dispatch.
Context {Status : Type} `{!InitSystem Status} {BA BL : Type}.
Context `{!SlabSystem (Status := Status) (System BA unit) SlabHeader} `{!SlabSystem (Status := Status) (System BL LargeCfg.ConfigData) SlabHeader}.

Definition slab_alloc (a : PrivateSlabAlloc BA BL) : res (option Z * PrivateSlabAlloc BA BL) :=
  match a with
  | PAligned a => '(r, a) ← SSA.alloc a; Ok (r, PAligned a)
  | PLarge a => '(r, a) ← SSA.alloc a; Ok (r, PLarge a)
  end.

Definition slab_dealloc (a : PrivateSlabAlloc BA BL) (x now : Z) : res (PrivateSlabAlloc BA BL) :=
  match a with
  | PAligned a => a ← SSA.dealloc a x now; Ok (PAligned a)
  | PLarge a => a ← SSA.dealloc a x now; Ok (PLarge a)
  end.

Definition slab_layout (a : PrivateSlabAlloc BA BL) : Layout :=
  match a with PAligned a => layout a | PLarge a => layout a end.

Definition untyped_alloc (a : PrivateUntypedSlabAlloc BA BL) : res (option Z * PrivateUntypedSlabAlloc BA BL) :=
  match a with
  | UAligned a => '(r, a) ← SSA.alloc a; Ok (r, UAligned a)
  | ULarge a => '(r, a) ← SSA.alloc a; Ok (r, ULarge a)
  end.

Definition untyped_dealloc (a : PrivateUntypedSlabAlloc BA BL) (x now : Z) : res (PrivateUntypedSlabAlloc BA BL) :=
  match a with
  | UAligned a => a ← SSA.dealloc a x now; Ok (UAligned a)
  | ULarge a => a ← SSA.dealloc a x now; Ok (ULarge a)
  end.

Definition untyped_layout (a : PrivateUntypedSlabAlloc BA BL) : Layout :=
  match a with UAligned a => layout a | ULarge a => layout a end.
End dispatch.

(** ** A backing allocator to run with

    Hands out consecutive blocks below a limit. *)
Record Bump := mkBump { bump_next : Z; bump_layout : Layout; bump_limit : Z; bump_live : gset Z }.

Definition bump_alloc (b : Bump) : res (option Z * Bump) :=
  let p := bump_next b in
  let n := p + layout_size (bump_layout b) in
  if n <=? bump_limit b
  then Ok (Some p, mkBump n (bump_layout b) (bump_limit b) ({[p]} ∪ bump_live b))
  else Ok (None, b).

Definition bump_dealloc (b : Bump) (p : Z) : res Bump :=
  Ok (mkBump (bump_next b) (bump_layout b) (bump_limit b) (bump_live b ∖ {[p]})).

Definition bump_inv (b : Bump) : Prop :=
  0 < bump_next b ∧ bump_limit b < 2 ^ 62 ∧ 0 < layout_size (bump_layout b) ∧ (layout_align (bump_layout b) | bump_next b) ∧
  (layout_align (bump_layout b) | layout_size (bump_layout b)) ∧
  ∀ q, q ∈ bump_live b → q + layout_size (bump_layout b) ≤ bump_next b.

#[export] Instance bump_object_alloc : UntypedObjectAlloc Bump.
Proof.
  refine {| oa_layout := bump_layout; oa_alloc := bump_alloc; oa_dealloc := bump_dealloc; oa_live := bump_live; oa_inv := bump_inv |}.
  - intros b (H1 & H2 & H3 & H4 & H5 & H6). unfold bump_alloc. destruct (Z.leb_spec (bump_next b + layout_size (bump_layout b)) (bump_limit b)).
    + eexists _, _. split; [done|]. cbn. split; [|split; [done|]].
      * unfold bump_inv. cbn. split_and!; try done; try lia; [by apply Z.divide_add_r|]. intros q Hq.
        apply elem_of_union in Hq as [Hq|Hq]; [apply elem_of_singleton in Hq; lia|specialize (H6 q Hq); lia].
      * split; [split_and!; (done || lia)|]. split; [|done]. intros q Hq. specialize (H6 q Hq). unfold disjoint_from. lia.
    + eexists _, _. split; [done|]. done.
  - intros b p (H1 & H2 & H3 & H4 & H5 & H6) Hp. eexists. split; [done|]. cbn. split; [|done].
    unfold bump_inv. cbn. split_and!; try done. set_solver.
Defined.

Definition bump_of (l : Layout) : Bump := mkBump (2 ^ 32) l (2 ^ 40) ∅.

Lemma bump_of_inv l : block_layout_ok l → bump_inv (bump_of l).
Proof.
  intros (Hs & Hd & k & Hk & Ha). unfold bump_inv. cbn. split_and!; try done.
  rewrite Ha. change 4294967296 with (2 ^ 32). apply pow2_divide. lia.
Qed.

Lemma build_backing_sound_witness :
  ∃ a, build_backing (Status := bool) (2 ^ 12) (mkLayout 1000 8) (fun l => Ok (Some (bump_of l))) (fun l => Ok (bump_of l)) 0 = Ok a ∧
    match a with
    | PAligned a => built_aligned (Status := bool) (mkLayout 1000 8) a
    | PLarge a => built_large (Status := bool) (mkLayout 1000 8) a
    end.
Proof.
  apply (build_backing_sound (Status := bool) 12 (mkLayout 1000 8) (fun l => Ok (Some (bump_of l))) (fun l => Ok (bump_of l)) 0).
  - lia.
  - cbn. lia.
  - split; [cbn; lia|]. split; [by exists 125|]. exists 3. split; [lia|done].
  - intros k Hk. eexists. split; [reflexivity|]. cbn beta iota. split; [|done]. apply bump_of_inv.
    split; [cbn; lia|]. split; [apply Z.divide_refl|]. exists k. split; [lia|done].
  - intros s Hs Hd. eexists. split; [done|]. split; [|done]. apply bump_of_inv.
    split; [cbn; lia|]. split; [exact Hd|]. by exists 12.
Defined.

Lemma build_backing_huge_panics_witness :
  build_backing (Status := bool) (2 ^ 12) (mkLayout (2 ^ 31) 8) (fun l => Ok (Some (bump_of l))) (fun l => Ok (bump_of l)) 0 = Fault UnwrapNone.
Proof.
  apply (build_backing_huge_panics (Status := bool) 12 (mkLayout (2 ^ 31) 8) (fun l => Ok (Some (bump_of l))) (fun l => Ok (bump_of l)) 0).
  - lia.
  - split; [cbn; lia|]. exists 3. split; [lia|done].
  - cbn. lia.
  - cbn. lia.
Defined.

Lemma heap_build_uses_large_slabs_witness :
  ∃ a, Builder.build (Status := bool) (2 ^ 12) (mkBumpHeap 4096 (2 ^ 40) ∅) (Builder.default (mkLayout 24 8)) 0 = Ok (PLarge a) ∧
    built_large (Status := bool) (mkLayout 24 8) a ∧
    Builder.build_untyped (Status := bool) (2 ^ 12) (mkBumpHeap 4096 (2 ^ 40) ∅) (Builder.default (mkLayout 24 8)) 0 = Ok (ULarge a).
Proof.
  apply (heap_build_uses_large_slabs (Status := bool) 12 (mkLayout 24 8) (mkBumpHeap 4096 (2 ^ 40) ∅) 0).
  - lia.
  - cbn. lia.
  - split; [cbn; lia|]. split; [by exists 3|]. exists 3. split; [lia|done].
  - split_and!; [done|done|]. intros q l Hq. cbn in Hq. discriminate Hq.
  - intros s Hs Hd. split; [cbn; lia|done].
Defined.

(** ** A run of the allocator *)
Definition demo_sl : SL.SLayout := SL.mkSLayout 8 (mkLayout 1000 8) 32 96 (Color.mkColorSettings 96 0).
Definition demo_geom : Geom := mkGeom (mkLayout 1000 8) (mkLayout 8192 8192) 8 96.

Lemma demo_layout_for : layout_for (mkLayout 1000 8) 8192 demo_sl 96.
Proof.
  assert (Hl : obj_layout_ok (mkLayout 1000 8)) by (split; [cbn; lia|]; exists 3; split; [lia|done]).
  assert (Hs : slab_size_ok 8192) by (unfold slab_size_ok; lia).
  destruct (for_slab_size_spec (mkLayout 1000 8) 8192 Hl Hs) as [[E _]|(sl & u & E & HL)]; vm_compute in E; [done|].
  injection E as <- <-. exact HL.
Qed.

Lemma demo_geom_ok : geom_ok demo_geom.
Proof.
  eapply (geom_of_ok (mkLayout 1000 8) (mkLayout 8192 8192) demo_sl).
  - split; [cbn; lia|]. exists 3. split; [lia|done].
  - unfold slab_size_ok. cbn. lia.
  - by exists 125.
  - by exists 1024.
  - exact demo_layout_for.
Qed.

Definition demo_laws : ConfigLaws unit demo_geom := aligned_laws demo_geom 13 demo_geom_ok ltac:(lia) eq_refl.

Lemma demo_min : (min_align (Status := bool) | layout_align (g_layout demo_geom)).
Proof. by exists 4. Qed.

#[local] Instance demo_system : SlabSystem (Status := bool) (System Bump unit) SlabHeader :=
  stack_slab_system (ConfigLaws0 := demo_laws) demo_geom demo_geom_ok demo_min.

Definition demo_x0 : SizedSlabAlloc (System Bump unit) :=
  SSA.new (mkLayout 1000 8) (Sys.from_config_data tt demo_sl (bump_of (mkLayout 8192 8192))) 0.

Lemma demo_sys_inv : sys_inv (H := SlabHeader) (Sys.from_config_data tt demo_sl (bump_of (mkLayout 8192 8192))) ∅.
Proof.
  apply sinv_empty; [exact demo_geom_ok|exact demo_min| |done| |done].
  - apply bump_of_inv. split; [done|]. split; [apply Z.divide_refl|]. by exists 13.
  - split; [exists 96; exact demo_layout_for|done].
Qed.

(** After one allocation and its release the allocator is still usable. *)
Lemma slab_alloc_safe_witness :
  ∃ o x1 x2, SSA.alloc demo_x0 = Ok (Some o, x1) ∧ SSA.dealloc x1 o 5 = Ok x2 ∧
    ∃ r x3, SSA.alloc x2 = Ok (r, x3) ∧ ∀ o', r = Some o' → (8 | o').
Proof.
  destruct (SSA.alloc demo_x0) as [[[o|] x1]|f] eqn:E1; [|by vm_compute in E1|by vm_compute in E1].
  destruct (SSA.dealloc x1 o 5) as [x2|f] eqn:E2.
  2: { exfalso. revert E2. vm_compute in E1. injection E1 as <- <-. by vm_compute. }
  exists o, x1, x2. split; [done|]. split; [done|].
  destruct (slab_alloc_safe (H := SlabHeader) (mkLayout 1000 8) (Sys.from_config_data tt demo_sl (bump_of (mkLayout 8192 8192))) 0
    x2 (({[o]} ∪ ∅) ∖ {[o]}) 5) as ((r & x3 & E3 & H3) & _).
  - exact demo_sys_inv.
  - done.
  - by exists 1.
  - eapply rtc_l; [apply step_alloc; exact E1|]. apply rtc_once. apply step_free; [apply elem_of_union_l, elem_of_singleton_2; reflexivity|discriminate|exact E2].
  - exists r, x3. split; [exact E3|]. intros o' Hr. by destruct (H3 o' Hr) as (_ & ? & _).
Defined.

(** Nine objects of eight per slab are freed after 20 seconds, when a second
    working period begins; one is allocated again. *)
Definition demo_ops : list client_op := replicate 9 CAlloc ++ replicate 9 (CFree (20 * 10 ^ 9)) ++ [CAlloc].

Lemma gc_frees_idle_slabs_witness :
  ∃ x X o m x', observed (H := SlabHeader) (mkLayout 1000 8) (Sys.from_config_data tt demo_sl (bump_of (mkLayout 8192 8192))) 0 (x, X, 20 * 10 ^ 9) m ∧
    SSA.dealloc x o (40 * 10 ^ 9) = Ok x' ∧ m = 1 ∧ total_slabs x = 2 ∧ total_slabs x' = 1 ∧
    ∃ full, total_slabs x' = total_slabs x - (if full && bool_decide (period_over x (40 * 10 ^ 9)) then m else 0).
Proof.
  destruct (rfold client_run demo_ops (demo_x0, ∅, 0, 0)) as [[[[x X] t] m]|] eqn:E; [|by vm_compute in E].
  pose proof (client_run_observed (H := SlabHeader) (mkLayout 1000 8) (Sys.from_config_data tt demo_sl (bump_of (mkLayout 8192 8192))) 0 _ (demo_x0, ∅, 0, 0) _
    (observed_new (H := SlabHeader) _ _ _) E) as Hobs. cbn [fst snd] in Hobs.
  destruct (elements X) as [|o os] eqn:Ex; [by vm_compute in E; injection E as <- <- <- <-; vm_compute in Ex|].
  destruct (SSA.dealloc x o (40 * 10 ^ 9)) as [x'|] eqn:Ed; [|by vm_compute in E; injection E as <- <- <- <-; vm_compute in Ex; injection Ex as <- _; vm_compute in Ed].
  assert (Hc : t = 20 * 10 ^ 9 ∧ m = 1 ∧ total_slabs x = 2 ∧ total_slabs x' = 1).
  { vm_compute in E. injection E as <- <- <- <-. vm_compute in Ex. injection Ex as <- _. vm_compute in Ed. injection Ed as <-. done. }
  destruct Hc as (-> & Hm & Ht & Ht'). exists x, X, o, m, x'. split; [exact Hobs|]. split; [reflexivity || exact Ed|]. split; [exact Hm|]. split; [exact Ht|]. split; [exact Ht'|].
  destruct (gc_frees_idle_slabs (H := SlabHeader) (mkLayout 1000 8) (Sys.from_config_data tt demo_sl (bump_of (mkLayout 8192 8192))) 0 x X (20 * 10 ^ 9) m o (40 * 10 ^ 9))
    as (_ & x1 & A & A1 & A' & full & E1 & _ & _ & _ & _ & Hfreed).
  - exact demo_sys_inv.
  - reflexivity.
  - by exists 1.
  - exact Hobs.
  - apply elem_of_elements. rewrite Ex. left.
  - discriminate.
  - rewrite Ed in E1. injection E1 as <-. exists full. exact Hfreed.
Defined.
